(* ===== verification/_CoqProject ===== *)
-Q . S2P
Prelude.v
GoBytes.v
Crc32c.v
GoStrings.v
Kverr.v
ErrorObjects.v
Shard.v
Config.v
Record.v
Fs.v
FsFacts.v
Segment.v
Log.v
Recovery.v
LogRepr.v
ReplayFacts.v
LogView.v
LogFacts.v
LogOps.v
LogSpec.v
RecoveryFacts.v
Durability.v
LogTheorems.v
Engine.v
MemEngine.v
EngineContract.v
Slices.v
IterSlices.v
Pebble.v
PebbleSlices.v
DataDir.v
GoNet.v
ConfigRules.v
ConfigSpec.v
ConfigTheorems.v
Clock.v
FakeClock.v
ConfigKeys.v
Durations.v
Regexp.v
ConfigLoad.v
LoadTheorems.v
ConfigReport.v
ConfigSlices.v
ConfigYaml.v
Cli.v
Observability.v
Syncer.v
IntervalDurability.v
