(* ===== verification/Prelude.v ===== *)
(** * gokvx: a verification development

    gokvx is a key-value store node written in Go. At this commit it has the
    storage layer of one node, the errors and the configuration every part
    uses, and the sharding function; servers, leases and watches are empty
    packages. This development models that code and proves what it promises.

    ** The program and its parts

    - Storage (internal/storage). A command log of segment files keeps every
      command before it is applied; a key-value engine (Pebble behind an
      interface) holds the applied state; a marker in the data directory names
      the format. The log talks to the operating system only, the engine to
      the Pebble library only.
    - Errors (internal/kverr). All parts return errors with a reason from one
      registry, possibly wrapped; callers classify them with [ReasonOf].
    - Configuration (internal/config). Records of settings with defaults, their
      keys derived from the types, loading from a file, the environment and
      flags, the rules they must satisfy, warnings about unsafe choices, and
      redacted renderings.
    - Logging (internal/observability): the node's logger, built from its
      settings.
    - Command line (cmd/gokvx): [gokvx config validate] loads, validates and
      reports a configuration.
    - Sharding (internal/shard): the slot of a key.
    - Clock (internal/clock): time behind an interface, with a fake for tests.

    ** Files, and the sources they model

    - Prelude: results, the state-and-error monad [M], machine integers, hints.
    - GoBytes, Crc32c, GoStrings, GoNet: what the sources use of Go's bytes,
      encoding/binary, hash/crc32 (Castagnoli, from the polynomial), strings,
      strconv, fmt and net.
    - Kverr: kverr/kind.go, reason.go, error.go, construct.go, inspect.go. An
      error is a value of the inductive type [error] (the package's own errors,
      wrapped, joined, sentinel and context errors). ErrorObjects: error.go and
      construct.go again, with errors as objects of a store that share maps and
      slices, and the proof that the values of Kverr are a faithful model.
    - Shard: shard/slot.go.
    - Config: the structs of internal/config and defaults.go. ConfigRules:
      validate.go, rules.go and the warnings of report.go. ConfigSpec: the
      rules as a declarative list, as they are documented and as the code
      enforces them (the two differ for NaN and for heartbeats whose product
      wraps, and agree on the [ordinary] configurations), and the proof that
      each check reports its rule. ConfigTheorems: the claims.
    - ConfigKeys: config/keys.go over a model of reflection; Durations: its
      [formatDuration], with [Duration.String] of package time. ConfigLoad:
      load.go over the classes [Koanf] and [PFlag] of library calls, with the
      regular expression of Regexp. LoadTheorems: the laws of koanf
      ([KoanfLaws]), the layers of a configuration and the claim about [Load].
      ConfigReport: redaction, the log value and YAML of report.go, over the
      class [URLPackage]; ConfigYaml: that the YAML loads again. ConfigSlices:
      the copies report.go makes, over a store of slices that the original and
      its copy could share. The classes have concrete instances, which the
      witnesses use.
    - Observability: observability/log.go, over log/slog's handler interface.
    - Cli: cmd/gokvx/main.go and commands.go, over the class [Cobra], and the
      main functions of the commands that are stubs.
    - Record: storage/record.go. Segment: segment.go. Log: log.go. Recovery:
      log_recovery.go. [St l w] is a log and the world it lives in; a method
      is a transformer of it.
    - Fs, FsFacts: the operating system. Files have a content and a length that
      is durable; directories have entries that are durable or not, and are
      themselves fresh until the directory above is flushed; every system call
      may fail, and a write may fail half way, as a schedule of outcomes says;
      [crash] is a power loss, which keeps what was flushed and any part of the
      rest, files of removed entries included, and may take a fresh directory
      away. The flushes of
      syncdir_unix.go and syncdir_windows.go are in Log.
    - LogRepr, ReplayFacts, LogView, LogFacts, LogOps, LogSpec, RecoveryFacts,
      Durability: the abstract view of a log (the commands it holds, which of
      them are flushed, its segments), the representation invariant between a
      view, the state and the files, and one lemma per method that it keeps
      the invariant and what it does to the view. LogTheorems: the claims.
    - Engine: storage/engine.go, the interface as the class [Engine] of
      operations and the class [EngineSpec] of its laws. MemEngine:
      storagetest/memengine.go; Pebble: pebble.go over the class [PebbleAPI] of
      library calls and [PebbleLaws] of their documented behaviour (what is
      durable after a synced commit, and that errors come from a database that
      is [faulty]), which a concrete map satisfies; both are instances of
      [EngineSpec].
      EngineContract: storagetest/contract.go, run against any instance.
      Slices: batches and the in-memory engine over a store of arrays that
      caller and engine could share, with the class [SharedSpec] of what an
      engine must copy, and the contract test about it. IterSlices: the same of
      iterators, with the classes [SharedIterLaws] and [SharedIterSpec].
      PebbleSlices: the Pebble adapter as an instance of all of them, over a
      library that reuses its buffers and keeps iterator bounds.
    - DataDir: storage/version.go.
    - Clock: clock/clock.go, its interfaces as the classes [Clock] and [Ticker],
      what they promise as [ClockLaws], and the real clock over the timers of
      package time. FakeClock: clock/clocktest/fake.go. Both keep the laws.
      Syncer: [runSyncer] of log.go, its ticker and channels, with appends,
      [Close] and any lawful clock as the step relation of a system of
      goroutines. IntervalDurability: what a power loss costs that system.

    ** What the theorems show

    - Log: [Append] refines appending to a list of commands on every branch;
      any interleaving of appends, flushes and Close keeps the list, a failure
      is final, Replay delivers the list from an index in order, also while
      others append; opening recovers the list from what a log left behind. Any
      bytes in a segment are classified as intact, torn or corrupt.
    - Durability, of a settled log: one that was opened with everything on disk
      that it held ([log_repr True]), as in a new directory, after a power loss
      or after a [Close] that returned nil. After a power loss that leaves the
      log directory itself, every command acknowledged under the always policy
      is there; [Close] flushes everything; under the interval policy every
      record reaches the disk once an interval has passed and the syncer has
      run, so that a power loss costs at most the last interval. The syncer is
      never blocked when it has work, and [Close] never deadlocks with it. Five
      theorems at the end of LogTheorems exhibit what lies outside these
      guarantees: a torn command that contains a record
      ([torn_write_blocks_open]), the flushes recovery omits
      ([acknowledged_lost_with_entry], [unflushed_record_breaks_log],
      [Close_trusts_recovery]), and the directory above a new log, which
      nobody flushes ([acknowledged_lost_with_directory]).
    - Records: decoding inverts encoding and nothing else decodes; cuts and
      short bursts of changed bytes are detected; the search for later records
      finds exactly those within its bound, and every one a log wrote.
    - Engines: both implementations keep the contract of the interface (the
      Pebble adapter fails only when the database does), which is strong enough
      for the contract suite of an engine that does not fail; what a caller does to the
      slices it passed or received is never seen, iterators show the snapshot
      of their range, and their entries stay until the next move.
    - Data directory: the marker is created atomically, and startup accepts
      exactly the supported format.
    - Errors: every error has a registered reason, unchanged by wrapping, and
      never changes, whatever is written into maps and slices it was made from
      or handed out.
    - Sharding: slots are in range and depend on the partition of a key only.
    - Configuration: [Validate] reports exactly the broken documented rules of
      an [ordinary] configuration ([Validate_escapes] has the others); there is
      one warning for each weakened setting; what a valid configuration
      guarantees to the parts built from it. The keys are sound and determine
      the configuration; [Load] gives each key the value of its last source and
      reports exactly the unknown ones, and each of its errors has its cause;
      the YAML of a configuration loads as itself, durations included; what is
      logged does not depend on credentials in URLs that parse, and a redacted
      copy shares no list with its original.
    - Logging: a valid configuration has a logger, and which line each record
      becomes.
    - Command line: what [config validate] prints and its exit code, from
      arguments and environment to the violated rules.
    - Clocks: callers that do not receive from stopped tickers cannot tell the
      fake clock from the real one while time goes from beat to beat, and
      otherwise only by the times that late ticks carry ([late_tick]).

    ** Bounds and fuel

    Loops of the source are structural where they can be. [verify_loop] and
    [replay_loop] consume at least one byte of the segment per turn and get one
    more than its length as fuel, [hasLaterRecord] one turn per offset,
    [TrimSpace] one per byte, decimal formatting twenty digits (every 64-bit
    number), IPv6 parsing its eight groups, [advance_next] the intervals that
    passed, the duration reader one turn per byte; the lemmas about them show
    the fuel is never the reason to stop. The scans of EngineContract get more
    fuel than the keys their tests store, and running out of it would be an
    error that fails the test. Indexes and sizes are [Z] with the wrap-around
    of their width written out ([u32], [u64], [i64]).

    ** Not modelled

    The generated protocol code in gen, which nothing hand-written uses yet, and
    the delays of the scheduler: timers run when they are due. The log runs on
    the Unix variant of [syncDir]; the one for Windows, which relies on a
    journaling file system, is a definition that agrees with it where directory
    changes are safe at once. The internals of koanf, pflag, cobra, net/url and
    Pebble are third-party code, and are classes with the laws they document;
    which command lines cobra itself rejects is therefore left open. The lines
    the storage layer logs are recorded in the world, and those of the node's
    logger as events; their JSON and text encodings and timestamps are not
    modelled. Calls of fmt.Sprintf are written out as the text they make, those
    in [Newf] and [addf] at their callers. Outside ErrorObjects and the files
    about slices, values are immutable. *)

From stdpp Require Import prelude sorting strings.
From Stdlib Require Import ZArith Lia.

(** ** Results

    Go's [(value, error)] pairs: a call yields a value or an error. *)
Inductive result (E A : Type) : Type :=
| Ok (a : A)
| Err (e : E).
Arguments Ok {E A} _.
Arguments Err {E A} _.

Definition is_ok {E A} (r : result E A) : bool :=
  match r with Ok _ => true | Err _ => false end.

Definition result_map {E A B} (f : A -> B) (r : result E A) : result E B :=
  match r with Ok a => Ok (f a) | Err e => Err e end.

(** ** Effects

    A method that mutates its receiver and may fail: a state transformer whose
    state survives an early return with an error, as mutations do in Go. *)
Definition M (E S A : Type) : Type := S -> result E A * S.

#[export] Instance M_ret {E S} : MRet (M E S) := fun _ a s => (Ok a, s).
#[export] Instance M_bind {E S} : MBind (M E S) := fun _ _ f m s =>
  match m s with
  | (Ok a, s') => f a s'
  | (Err e, s') => (Err e, s')
  end.

Definition fail {E S A} (e : E) : M E S A := fun s => (Err e, s).
Definition get_state {E S} : M E S S := fun s => (Ok s, s).
Definition put_state {E S} (s' : S) : M E S unit := fun _ => (Ok tt, s').
Definition modify {E S} (f : S -> S) : M E S unit := fun s => (Ok tt, f s).

(** [try m] runs [m] and hands its error to the caller as a value, for the
    places where the source inspects [err] instead of returning it. *)
Definition try {E S A} (m : M E S A) : M E S (result E A) := fun s =>
  let '(r, s') := m s in (Ok r, s').

(** [lift r] is a pure fallible call. *)
Definition lift {E S A} (r : result E A) : M E S A := fun s => (r, s).

Lemma bind_ok {E S A B} (m : M E S A) (f : A -> M E S B) s a s' :
  m s = (Ok a, s') -> (m ≫= f) s = f a s'.
Proof. intros H. unfold mbind, M_bind. by rewrite H. Qed.

Lemma bind_err {E S A B} (m : M E S A) (f : A -> M E S B) s e s' :
  m s = (Err e, s') -> (m ≫= f) s = (Err e, s').
Proof. intros H. unfold mbind, M_bind. by rewrite H. Qed.

Lemma try_bind {E S A B} (m : M E S A) (k : result E A -> M E S B) s r s' :
  m s = (r, s') -> (try m ≫= k) s = k r s'.
Proof. unfold try, mbind, M_bind. by intros ->. Qed.

(** A bind succeeds exactly when both halves do. *)
Lemma bind_inv_ok {E S A B} (m : M E S A) (f : A -> M E S B) s b s'' :
  (m ≫= f) s = (Ok b, s'') ->
  exists a s', m s = (Ok a, s') /\ f a s' = (Ok b, s'').
Proof.
  unfold mbind, M_bind. destruct (m s) as [[a|e] s'] eqn:Hm; intros H; [eauto|done].
Qed.

Lemma bind_inv_err {E S A B} (m : M E S A) (f : A -> M E S B) s e s'' :
  (m ≫= f) s = (Err e, s'') ->
  m s = (Err e, s'') \/ exists a s', m s = (Ok a, s') /\ f a s' = (Err e, s'').
Proof.
  unfold mbind, M_bind. destruct (m s) as [[a|e'] s'] eqn:Hm; intros H;
    [right; eauto | left; congruence].
Qed.

(** ** Machine integers

    A w-bit Go integer is a [Z]; every operation of the source that can wrap
    writes its wrap-around with one of these. *)
Section machine_integers.
Local Open Scope Z_scope.

Definition u8 (z : Z) : Z := z mod 2 ^ 8.
Definition u32 (z : Z) : Z := z mod 2 ^ 32.
Definition u64 (z : Z) : Z := z mod 2 ^ 64.
Definition i64 (z : Z) : Z := (z + 2 ^ 63) mod 2 ^ 64 - 2 ^ 63.
Definition s64 (z : Z) : Z := (z + 2 ^ 63) mod 2 ^ 64 - 2 ^ 63.

Definition is_u32 (z : Z) : Prop := 0 <= z < 2 ^ 32.
Definition is_u64 (z : Z) : Prop := 0 <= z < 2 ^ 64.
Definition is_s64 (z : Z) : Prop := - 2 ^ 63 <= z < 2 ^ 63.

Lemma u32_small z : is_u32 z -> u32 z = z.
Proof. intros H. by apply Z.mod_small. Qed.
Lemma u64_small z : is_u64 z -> u64 z = z.
Proof. intros H. by apply Z.mod_small. Qed.
Lemma s64_small z : is_s64 z -> s64 z = z.
Proof. unfold is_s64, s64. intros H. rewrite Z.mod_small; lia. Qed.
Lemma u32_range z : is_u32 (u32 z).
Proof. apply Z.mod_pos_bound. lia. Qed.
Lemma i64_small z : - 2 ^ 63 <= z < 2 ^ 63 -> i64 z = z.
Proof. intros Hz. unfold i64. rewrite Z.mod_small; lia. Qed.

Lemma u64_range z : is_u64 (u64 z).
Proof. apply Z.mod_pos_bound. lia. Qed.
End machine_integers.

(** ** Lists *)

(** Two ways to cut one list: the shorter left part is a prefix of the longer. *)
Lemma app_split {A} (a b c d : list A) :
  a ++ b = c ++ d -> length a <= length c -> exists p, c = a ++ p /\ b = p ++ d.
Proof.
  revert c. induction a as [|x a IH]; intros c Heq Hlen; simpl in *; [by exists c|].
  destruct c as [|y c]; simpl in *; [lia|]. simplify_eq.
  destruct (IH c) as (p & -> & ->); [done|lia|]. by exists p.
Qed.

(** The states [a] may be in after calls of which each allows several. *)
Definition possible {A B} (step : B -> A -> list A) (calls : list B) (a : A) : list A :=
  foldl (fun states b => states ≫= step b) [a] calls.

Lemma elem_of_possible {A B} (step : B -> A -> list A) (calls : list B) (states : list A) x :
  x ∈ foldl (fun states b => states ≫= step b) states calls <-> exists a, a ∈ states /\ x ∈ possible step calls a.
Proof.
  revert states. induction calls as [|b calls IH]; intros states; cbn.
  - unfold possible. cbn. split; [intros Hx; exists x; by split; [|left]|]. by intros (a & ? & ->%list_elem_of_singleton).
  - rewrite IH. unfold possible. cbn. setoid_rewrite list_elem_of_bind.
    setoid_rewrite (IH (_ ++ [])). setoid_rewrite app_nil_r. naive_solver.
Qed.

Lemma elem_of_possible_1 {A B} (step : B -> A -> list A) b a x : x ∈ step b a -> x ∈ possible step [b] a.
Proof. intros Hx. unfold possible. cbn [foldl]. apply list_elem_of_bind. exists a. by split; [|left]. Qed.

Lemma elem_of_possible_app {A B} (step : B -> A -> list A) bs1 bs2 a a1 a2 :
  a1 ∈ possible step bs1 a -> a2 ∈ possible step bs2 a1 -> a2 ∈ possible step (bs1 ++ bs2) a.
Proof. intros H1 H2. unfold possible. rewrite foldl_app. apply elem_of_possible. by exists a1. Qed.

(** ** Automation *)
Create HintDb gokvx.
#[export] Hint Resolve u32_range u64_range : gokvx.

(** Peels a successful or failed monadic run into its steps. *)
Ltac run_inv :=
  repeat match goal with
  | H : (_ ≫= _) _ = (Ok _, _) |- _ =>
      let a := fresh "a" in let s := fresh "s" in
      let H1 := fresh "Hr" in let H2 := fresh "Hr" in
      apply bind_inv_ok in H as (a & s & H1 & H2)
  | H : (Ok _, _) = (Ok _, _) |- _ => injection H as H; subst
  | H : (Err _, _) = (Ok _, _) |- _ => discriminate H
  | H : (Ok _, _) = (Err _, _) |- _ => discriminate H
  end.
