(* ===== verification/GoBytes.v ===== *)
(** * Go byte slices

    What the sources use of Go's [byte], [encoding/binary] and [bytes]: the
    byte type with its numeric value, little-endian integers, unsigned byte
    order ([bytes.Compare]) and [bytes.IndexByte]. A [[]byte] is a
    [list byte]. *)

From stdpp Require Import prelude countable list.
From Stdlib Require Import ZArith Lia.
From Stdlib Require Import Strings.Byte.
From S2P Require Import Prelude.

Abbreviation byte := Init.Byte.byte.
Abbreviation bytes := (list byte).

(** ** Bytes as numbers *)
Section byte_values.
Local Open Scope Z_scope.

Definition b2z (b : byte) : Z := Z.of_N (Byte.to_N b).

(** The conversion [byte(z)]: the low eight bits. *)
Definition z2b (z : Z) : byte :=
  default Byte.x00 (Byte.of_N (Z.to_N (u8 z))).

Lemma b2z_range b : 0 <= b2z b < 256.
Proof.
  unfold b2z. pose proof (Byte.to_N_bounded b). lia.
Qed.

Lemma b2z_z2b z : b2z (z2b z) = u8 z.
Proof.
  unfold z2b, b2z, u8. pose proof (Z.mod_pos_bound z (2 ^ 8) ltac:(lia)) as Hz.
  destruct (Byte.of_N (Z.to_N (z mod 2 ^ 8))) as [b|] eqn:Hb; simpl.
  - apply Byte.to_of_N in Hb. rewrite Hb. lia.
  - apply Byte.of_N_None_iff in Hb. lia.
Qed.

Lemma z2b_b2z b : z2b (b2z b) = b.
Proof.
  unfold z2b, b2z, u8. pose proof (b2z_range b) as Hb. unfold b2z in Hb.
  rewrite Z.mod_small by lia. by rewrite N2Z.id, Byte.of_to_N.
Qed.

#[export] Instance b2z_inj : Inj (=) (=) b2z.
Proof. intros b1 b2 H. rewrite <- (z2b_b2z b1), <- (z2b_b2z b2). by rewrite H. Qed.
End byte_values.

#[export] Instance byte_eq_dec : EqDecision byte := Byte.byte_eq_dec.
#[export] Program Instance byte_countable : Countable byte :=
  inj_countable Byte.to_N Byte.of_N _.
Next Obligation. intros b. apply Byte.of_to_N. Qed.

(** ** Little-endian integers ([binary.LittleEndian]) *)
Section little_endian.
Local Open Scope Z_scope.

(** [PutUint32] and [PutUint64]: the [n] low bytes of [v], lowest first. *)
Fixpoint PutUintLE (n : nat) (v : Z) : bytes :=
  match n with
  | O => []
  | S n' => z2b v :: PutUintLE n' (Z.shiftr v 8)
  end.

(** [Uint32] and [Uint64] of exactly as many bytes as the list has. *)
Fixpoint UintLE (bs : bytes) : Z :=
  match bs with
  | [] => 0
  | b :: bs' => Z.lor (b2z b) (Z.shiftl (UintLE bs') 8)
  end.

Definition PutUint32 (v : Z) : bytes := PutUintLE 4 v.
Definition PutUint64 (v : Z) : bytes := PutUintLE 8 v.
Definition Uint32 (bs : bytes) : Z := UintLE (take 4 bs).
Definition Uint64 (bs : bytes) : Z := UintLE (take 8 bs).

Lemma length_PutUintLE n v : length (PutUintLE n v) = n.
Proof. revert v. induction n as [|n IH]; intros v; simpl; [done|]. by rewrite IH. Qed.

Lemma length_PutUint32 v : length (PutUint32 v) = 4%nat.
Proof. apply length_PutUintLE. Qed.
Lemma length_PutUint64 v : length (PutUint64 v) = 8%nat.
Proof. apply length_PutUintLE. Qed.

(** Gluing a byte below a shifted number is plain addition. *)
Lemma lor_shiftl_8 b v : 0 <= b < 256 -> Z.lor b (Z.shiftl v 8) = b + 256 * v.
Proof.
  intros Hb. rewrite Z.shiftl_mul_pow2 by lia.
  replace (v * 2 ^ 8) with (2 ^ 8 * v) by lia.
  pose proof (Z.add_lor_land b (2 ^ 8 * v)) as Hsum.
  enough (Z.land b (2 ^ 8 * v) = 0) by lia. clear Hsum.
  apply Z.bits_inj'. intros i Hi. rewrite Z.land_spec, Z.bits_0.
  destruct (Z.lt_ge_cases i 8) as [Hlt|Hge].
  - rewrite (Z.mul_comm (2 ^ 8)), <- Z.shiftl_mul_pow2 by lia.
    rewrite Z.shiftl_spec_low by lia. by rewrite andb_false_r.
  - rewrite (Z.bits_above_log2 b i); [done|lia|].
    destruct (Z.eq_dec b 0) as [->|]; [simpl; lia|].
    apply Z.log2_lt_pow2; [lia|].
    apply Z.lt_le_trans with (2 ^ 8); [lia|]. apply Z.pow_le_mono_r; lia.
Qed.

Lemma UintLE_cons b bs : UintLE (b :: bs) = b2z b + 256 * UintLE bs.
Proof. simpl. apply lor_shiftl_8, b2z_range. Qed.

Lemma UintLE_range bs : 0 <= UintLE bs < 2 ^ (8 * Z.of_nat (length bs)).
Proof.
  induction bs as [|b bs IH]; [simpl; lia|].
  rewrite UintLE_cons. pose proof (b2z_range b).
  replace (8 * Z.of_nat (length (b :: bs))) with (8 + 8 * Z.of_nat (length bs)) by (simpl; lia).
  rewrite Z.pow_add_r by lia. lia.
Qed.

Lemma UintLE_PutUintLE n v : UintLE (PutUintLE n v) = v mod 2 ^ (8 * Z.of_nat n).
Proof.
  revert v. induction n as [|n IH]; intros v.
  { simpl. by rewrite Z.mod_1_r. }
  cbn [PutUintLE]. rewrite UintLE_cons, IH, b2z_z2b. unfold u8.
  rewrite Z.shiftr_div_pow2 by lia.
  replace (8 * Z.of_nat (S n)) with (8 + 8 * Z.of_nat n) by lia.
  rewrite Z.pow_add_r by lia.
  rewrite (Z.rem_mul_r v (2 ^ 8) (2 ^ (8 * Z.of_nat n))) by lia. lia.
Qed.

Lemma PutUintLE_UintLE bs : PutUintLE (length bs) (UintLE bs) = bs.
Proof.
  induction bs as [|b bs IH]; [done|].
  cbn [length PutUintLE]. rewrite UintLE_cons. pose proof (b2z_range b) as Hb. f_equal.
  - apply (inj b2z). rewrite b2z_z2b. unfold u8.
    rewrite (Z.mul_comm 256), Z.mod_add by lia. apply Z.mod_small. lia.
  - rewrite Z.shiftr_div_pow2 by lia.
    replace (b2z b + 256 * UintLE bs) with (b2z b + UintLE bs * 2 ^ 8) by lia.
    rewrite Z.div_add, Z.div_small by lia. by rewrite Z.add_0_l.
Qed.

Lemma Uint32_PutUint32 v bs : is_u32 v -> Uint32 (PutUint32 v ++ bs) = v.
Proof.
  intros Hv. unfold Uint32, PutUint32.
  rewrite take_app_length' by (by rewrite length_PutUintLE).
  rewrite UintLE_PutUintLE. by apply Z.mod_small.
Qed.

Lemma Uint64_PutUint64 v bs : is_u64 v -> Uint64 (PutUint64 v ++ bs) = v.
Proof.
  intros Hv. unfold Uint64, PutUint64.
  rewrite take_app_length' by (by rewrite length_PutUintLE).
  rewrite UintLE_PutUintLE. by apply Z.mod_small.
Qed.

Lemma UintLE_take_range n bs : 0 <= UintLE (take n bs) < 2 ^ (8 * Z.of_nat n).
Proof.
  pose proof (UintLE_range (take n bs)) as [H1 H2]. split; [done|].
  eapply Z.lt_le_trans; [exact H2|]. apply Z.pow_le_mono_r; [lia|].
  rewrite length_take. lia.
Qed.

Lemma Uint32_range bs : is_u32 (Uint32 bs).
Proof. apply (UintLE_take_range 4). Qed.
Lemma Uint64_range bs : is_u64 (Uint64 bs).
Proof. apply (UintLE_take_range 8). Qed.

(** Reading four (eight) bytes and writing them back gives the same bytes. *)
Lemma PutUint32_Uint32 bs : (4 <= length bs)%nat -> PutUint32 (Uint32 bs) = take 4 bs.
Proof.
  intros H. unfold PutUint32, Uint32.
  rewrite <- (PutUintLE_UintLE (take 4 bs)) at 2. f_equal.
  rewrite length_take. lia.
Qed.
Lemma PutUint64_Uint64 bs : (8 <= length bs)%nat -> PutUint64 (Uint64 bs) = take 8 bs.
Proof.
  intros H. unfold PutUint64, Uint64.
  rewrite <- (PutUintLE_UintLE (take 8 bs)) at 2. f_equal.
  rewrite length_take. lia.
Qed.
End little_endian.

#[export] Hint Resolve b2z_range Uint32_range Uint64_range : gokvx.

(** ** Byte order ([bytes.Compare]) *)
Fixpoint bytes_Compare (a b : bytes) : comparison :=
  match a, b with
  | [], [] => Eq
  | [], _ :: _ => Lt
  | _ :: _, [] => Gt
  | x :: a', y :: b' =>
      match (b2z x ?= b2z y)%Z with
      | Eq => bytes_Compare a' b'
      | c => c
      end
  end.

Definition bytes_lt (a b : bytes) : Prop := bytes_Compare a b = Lt.
Definition bytes_ltb (a b : bytes) : bool :=
  match bytes_Compare a b with Lt => true | _ => false end.
Definition bytes_le (a b : bytes) : Prop := bytes_Compare a b <> Gt.

#[export] Instance bytes_lt_dec : RelDecision bytes_lt.
Proof. intros a b. unfold bytes_lt. apply _. Defined.
#[export] Instance bytes_le_dec : RelDecision bytes_le.
Proof. intros a b. unfold bytes_le. apply _. Defined.

Lemma bytes_ltb_lt a b : bytes_ltb a b = true <-> bytes_lt a b.
Proof. unfold bytes_ltb, bytes_lt. by destruct (bytes_Compare a b). Qed.

Lemma bytes_Compare_refl a : bytes_Compare a a = Eq.
Proof. induction a as [|x a IH]; [done|]. simpl. by rewrite Z.compare_refl. Qed.

Lemma bytes_Compare_eq a b : bytes_Compare a b = Eq <-> a = b.
Proof.
  split; [|intros ->; apply bytes_Compare_refl].
  revert b. induction a as [|x a IH]; intros [|y b]; simpl; try done.
  destruct (Z.compare_spec (b2z x) (b2z y)) as [H| |]; try done.
  intros Hab. f_equal; [by apply (inj b2z)|by apply IH].
Qed.

Lemma bytes_Compare_antisym a b : bytes_Compare b a = CompOpp (bytes_Compare a b).
Proof.
  revert b. induction a as [|x a IH]; intros [|y b]; simpl; try done.
  rewrite (Z.compare_antisym (b2z x) (b2z y)).
  destruct (b2z x ?= b2z y)%Z; simpl; auto.
Qed.

Lemma bytes_lt_trans a b c : bytes_lt a b -> bytes_lt b c -> bytes_lt a c.
Proof.
  unfold bytes_lt. revert b c. induction a as [|x a IH]; intros [|y b] [|z c]; simpl; try done.
  destruct (Z.compare_spec (b2z x) (b2z y)) as [Hxy|Hxy|]; try done;
    destruct (Z.compare_spec (b2z y) (b2z z)) as [Hyz|Hyz|]; try done;
    destruct (Z.compare_spec (b2z x) (b2z z)); try lia; try done.
  apply IH.
Qed.

#[export] Instance bytes_lt_strict : StrictOrder bytes_lt.
Proof.
  split.
  - intros a. unfold complement, bytes_lt. by rewrite bytes_Compare_refl.
  - intros a b c. apply bytes_lt_trans.
Qed.

Lemma bytes_lt_or_ge a b : bytes_lt a b \/ bytes_le b a.
Proof.
  unfold bytes_lt, bytes_le. rewrite (bytes_Compare_antisym a b).
  destruct (bytes_Compare a b); simpl; auto.
Qed.

Lemma bytes_le_lt_eq a b : bytes_le a b <-> bytes_lt a b \/ a = b.
Proof.
  unfold bytes_lt, bytes_le. rewrite <- bytes_Compare_eq.
  destruct (bytes_Compare a b); naive_solver.
Qed.

#[export] Instance bytes_le_po : PartialOrder bytes_le.
Proof.
  split; [split|].
  - intros a. unfold bytes_le. by rewrite bytes_Compare_refl.
  - intros a b c. rewrite !bytes_le_lt_eq. intros [?| ->]; [intros [?| ->]; [left; by etrans|by left]|done].
  - intros a b. rewrite !bytes_le_lt_eq. intros [H1| ->]; [|done].
    intros [H2| ->]; [|done]. destruct (irreflexivity bytes_lt a). by etrans.
Qed.

#[export] Instance bytes_le_total : Total bytes_le.
Proof.
  intros a b. destruct (bytes_lt_or_ge a b) as [H|H]; [left|by right].
  apply bytes_le_lt_eq. by left.
Qed.

(** ** [bytes.IndexByte]: the first position of [c], or -1 *)
Section index_byte.
Local Open Scope Z_scope.

Fixpoint IndexByte (s : bytes) (c : byte) : Z :=
  match s with
  | [] => -1
  | x :: s' =>
      if decide (x = c) then 0
      else let i := IndexByte s' c in if i <? 0 then -1 else i + 1
  end.

(** A hit splits the slice at the first occurrence. *)
Lemma IndexByte_nonneg s c :
  0 <= IndexByte s c ->
  exists pre post, s = pre ++ c :: post /\ c ∉ pre /\ IndexByte s c = Z.of_nat (length pre).
Proof.
  induction s as [|x s IH]; simpl; [lia|].
  case_decide as Hx.
  - intros _. exists [], s. subst. split_and!; [done|set_solver|done].
  - destruct (IndexByte s c <? 0) eqn:Hneg; [lia|]. apply Z.ltb_ge in Hneg. intros _.
    destruct (IH Hneg) as (pre & post & -> & Hnin & Hi).
    exists (x :: pre), post. split_and!; [done|set_solver|]. rewrite Hi. simpl. lia.
Qed.

Lemma IndexByte_neg s c : IndexByte s c < 0 <-> c ∉ s.
Proof.
  induction s as [|x s IH]; simpl.
  { split; [intros _; set_solver|lia]. }
  case_decide as Hx; [set_solver by lia|].
  destruct (IndexByte s c <? 0) eqn:Hneg; [apply Z.ltb_lt in Hneg|apply Z.ltb_ge in Hneg];
    rewrite elem_of_cons; split; naive_solver lia.
Qed.

Lemma IndexByte_app pre post c :
  c ∉ pre -> IndexByte (pre ++ c :: post) c = Z.of_nat (length pre).
Proof.
  induction pre as [|x pre IH]; intros Hnin; simpl; [by rewrite decide_True by done|].
  apply not_elem_of_cons in Hnin as [Hx Hnin].
  rewrite decide_False by naive_solver. rewrite IH by done.
  destruct (Z.of_nat (length pre) <? 0) eqn:?; lia.
Qed.
End index_byte.
