(* ===== verification/Crc32c.v ===== *)
(** * CRC32C ([hash/crc32] with the Castagnoli polynomial)

    The checksum of command log records and of the slot function. [MakeTable]
    and [Update] are the table-driven algorithm of Go's package; the bitwise
    register [crc_bit] is the reference. The two agree, and the reference is
    what the error-detection theorems are proved on. *)

From stdpp Require Import prelude list strings.
From Stdlib Require Import ZArith Lia.
From S2P Require Import Prelude GoBytes.

Local Open Scope Z_scope.

(** [crc32.Castagnoli], the reversed polynomial. *)
Definition Castagnoli : Z := 0x82f63b78.

(** ** The reference: a 32-bit shift register *)

(** One bit of the reflected division. *)
Definition crc_bit (poly c : Z) : Z :=
  if Z.testbit c 0 then Z.lxor (Z.shiftr c 1) poly else Z.shiftr c 1.

(** One byte: xor it in, then shift eight bits out. *)
Definition crc_byte (c : Z) (b : byte) : Z :=
  Nat.iter 8 (crc_bit Castagnoli) (Z.lxor c (b2z b)).

Definition not32 (c : Z) : Z := Z.lxor c (Z.ones 32).

Definition crc_reference (p : bytes) : Z := not32 (foldl crc_byte (not32 0) p).

(** ** The implementation: 256 precomputed register states *)

Definition MakeTable (poly : Z) : list Z :=
  (fun i => Nat.iter 8 (crc_bit poly) (Z.of_nat i)) <$> seq 0 256.

Definition crcTable : list Z := Eval vm_compute in MakeTable Castagnoli.

Definition table_step (tab : list Z) (c : Z) (v : byte) : Z :=
  Z.lxor (nth (Z.to_nat (Z.lxor (u8 c) (b2z v))) tab 0) (Z.shiftr c 8).

Definition Update (crc : Z) (tab : list Z) (p : bytes) : Z :=
  not32 (foldl (table_step tab) (not32 crc) p).

Definition Checksum (data : bytes) (tab : list Z) : Z := Update 0 tab data.

(** ** The register is linear over xor *)
Section linear.
Variable poly : Z.

Lemma crc_bit_lxor a b :
  crc_bit poly (Z.lxor a b) = Z.lxor (crc_bit poly a) (crc_bit poly b).
Proof.
  unfold crc_bit. rewrite Z.lxor_spec, Z.shiftr_lxor.
  destruct (Z.testbit a 0), (Z.testbit b 0); simpl;
    apply Z.bits_inj'; intros i Hi; rewrite ?Z.lxor_spec;
    repeat match goal with |- context [Z.testbit ?x i] => destruct (Z.testbit x i) end; done.
Qed.

Lemma crc_iter_lxor n a b :
  Nat.iter n (crc_bit poly) (Z.lxor a b)
  = Z.lxor (Nat.iter n (crc_bit poly) a) (Nat.iter n (crc_bit poly) b).
Proof. induction n as [|n IH]; simpl; [done|]. by rewrite IH, crc_bit_lxor. Qed.

(** Zero low bits are shifted out without touching the polynomial. *)
Lemma crc_iter_shiftl n a :
  Nat.iter n (crc_bit poly) (Z.shiftl a (Z.of_nat n)) = a.
Proof.
  revert a. induction n as [|n IH]; intros a; [apply Z.shiftl_0_r|].
  rewrite Nat.iter_succ_r. unfold crc_bit at 2.
  rewrite Z.shiftl_spec_low by lia.
  rewrite Z.shiftr_shiftl_l by lia.
  replace (Z.of_nat (S n) - 1) with (Z.of_nat n) by lia. apply IH.
Qed.
End linear.

(** ** The register is a bijection on 32-bit states *)

Lemma testbit_above_u32 c i : is_u32 c -> 32 <= i -> Z.testbit c i = false.
Proof.
  intros Hc Hi. rewrite <- (u32_small c Hc). apply Z.mod_pow2_bits_high. lia.
Qed.

Lemma is_u32_bits c : 0 <= c -> (forall i, 32 <= i -> Z.testbit c i = false) -> is_u32 c.
Proof.
  intros Hc Hbits. split; [done|]. destruct (Z.lt_ge_cases c (2 ^ 32)) as [|Hge]; [done|].
  exfalso. assert (32 <= Z.log2 c) as Hlog by (apply Z.log2_le_pow2; lia).
  specialize (Hbits (Z.log2 c) Hlog). rewrite Z.bit_log2 in Hbits; [done|lia].
Qed.

Lemma is_u32_lxor a b : is_u32 a -> is_u32 b -> is_u32 (Z.lxor a b).
Proof.
  intros Ha Hb. apply is_u32_bits.
  - apply Z.lxor_nonneg. unfold is_u32 in *. lia.
  - intros i Hi. by rewrite Z.lxor_spec, !testbit_above_u32.
Qed.

Lemma is_u32_b2z b : is_u32 (b2z b).
Proof. pose proof (b2z_range b). unfold is_u32. lia. Qed.

Lemma is_u32_shiftr c n : 0 <= n -> is_u32 c -> is_u32 (Z.shiftr c n).
Proof.
  intros Hn Hc. apply is_u32_bits.
  - apply Z.shiftr_nonneg. unfold is_u32 in *. lia.
  - intros i Hi. rewrite Z.shiftr_spec by lia. apply testbit_above_u32; [done|lia].
Qed.

Lemma is_u32_Castagnoli : is_u32 Castagnoli.
Proof. unfold is_u32, Castagnoli. lia. Qed.

Lemma crc_bit_u32 c : is_u32 c -> is_u32 (crc_bit Castagnoli c).
Proof.
  intros Hc. unfold crc_bit.
  destruct (Z.testbit c 0); [apply is_u32_lxor; [|apply is_u32_Castagnoli]|];
    by apply is_u32_shiftr.
Qed.

Lemma crc_iter_u32 n c : is_u32 c -> is_u32 (Nat.iter n (crc_bit Castagnoli) c).
Proof. intros Hc. induction n as [|n IH]; simpl; [done|]. by apply crc_bit_u32. Qed.

(** The bit shifted out is readable as the top bit of the new state. *)
Lemma crc_bit_top c : is_u32 c -> Z.testbit (crc_bit Castagnoli c) 31 = Z.testbit c 0.
Proof.
  intros Hc. unfold crc_bit. destruct (Z.testbit c 0) eqn:H0;
    rewrite ?Z.lxor_spec, Z.shiftr_spec by lia; rewrite (testbit_above_u32 c) by done; done.
Qed.

Lemma crc_bit_inj a b :
  is_u32 a -> is_u32 b -> crc_bit Castagnoli a = crc_bit Castagnoli b -> a = b.
Proof.
  intros Ha Hb Heq.
  assert (Z.testbit a 0 = Z.testbit b 0) as H0.
  { rewrite <- (crc_bit_top a), <- (crc_bit_top b) by done. by rewrite Heq. }
  assert (Z.shiftr a 1 = Z.shiftr b 1) as H1.
  { unfold crc_bit in Heq. rewrite H0 in Heq.
    destruct (Z.testbit b 0); [|done].
    rewrite <- (Z.lxor_0_r (Z.shiftr a 1)), <- (Z.lxor_0_r (Z.shiftr b 1)).
    rewrite <- (Z.lxor_nilpotent Castagnoli), <- !Z.lxor_assoc. by rewrite Heq. }
  apply Z.bits_inj'. intros i Hi. destruct (Z.eq_dec i 0) as [->|]; [done|].
  replace i with (i - 1 + 1) by lia. rewrite <- !Z.shiftr_spec by lia. by rewrite H1.
Qed.

Lemma crc_iter_inj n a b :
  is_u32 a -> is_u32 b ->
  Nat.iter n (crc_bit Castagnoli) a = Nat.iter n (crc_bit Castagnoli) b -> a = b.
Proof.
  intros Ha Hb. induction n as [|n IH]; simpl; [done|].
  intros H. apply IH, crc_bit_inj; auto using crc_iter_u32.
Qed.

Lemma lxor_cancel_r a b c : Z.lxor a c = Z.lxor b c -> a = b.
Proof.
  intros H. rewrite <- (Z.lxor_0_r a), <- (Z.lxor_0_r b), <- (Z.lxor_nilpotent c).
  rewrite <- !Z.lxor_assoc. by rewrite H.
Qed.

Lemma lxor_cancel_l a b c : Z.lxor c a = Z.lxor c b -> a = b.
Proof. rewrite !(Z.lxor_comm c). apply lxor_cancel_r. Qed.

Lemma crc_fold_u32 p c : is_u32 c -> is_u32 (foldl crc_byte c p).
Proof.
  revert c. induction p as [|b p IH]; intros c Hc; simpl; [done|].
  apply IH. apply crc_iter_u32, is_u32_lxor; [done|apply is_u32_b2z].
Qed.

Lemma crc_fold_inj p a b :
  is_u32 a -> is_u32 b -> foldl crc_byte a p = foldl crc_byte b p -> a = b.
Proof.
  revert a b. induction p as [|x p IH]; intros a b Ha Hb; simpl; [done|].
  intros H. apply IH in H.
  - apply crc_iter_inj in H; [by apply lxor_cancel_r in H|..];
      apply is_u32_lxor; auto using is_u32_b2z.
  - apply crc_iter_u32, is_u32_lxor; auto using is_u32_b2z.
  - apply crc_iter_u32, is_u32_lxor; auto using is_u32_b2z.
Qed.

(** Feeding bytes one at a time equals xoring them in at once, as a
    little-endian number, and shifting all their bits out. *)
Lemma crc_fold_UintLE p c :
  foldl crc_byte c p
  = Nat.iter (8 * length p) (crc_bit Castagnoli) (Z.lxor c (UintLE p)).
Proof.
  revert c. induction p as [|b p IH]; intros c; [simpl; by rewrite Z.lxor_0_r|].
  cbn [foldl]. rewrite IH. unfold crc_byte.
  replace (8 * length (b :: p))%nat with (8 * length p + 8)%nat by (simpl; lia).
  rewrite Nat.iter_add. f_equal.
  rewrite <- (crc_iter_shiftl Castagnoli 8 (UintLE p)) at 1. change (Z.of_nat 8) with 8.
  rewrite <- crc_iter_lxor. f_equal. rewrite Z.lxor_assoc. f_equal.
  rewrite UintLE_cons, <- lor_shiftl_8 by apply b2z_range. symmetry.
  apply Z.bits_inj'. intros i Hi. rewrite Z.lor_spec, Z.lxor_spec.
  destruct (Z.lt_ge_cases i 8).
  - rewrite Z.shiftl_spec_low by lia. destruct (Z.testbit (b2z b) i); done.
  - pose proof (b2z_range b). rewrite <- (Z.mod_small (b2z b) (2 ^ 8)) by lia.
    rewrite Z.mod_pow2_bits_high by lia. done.
Qed.

(** ** The table-driven algorithm computes the reference *)

Lemma crcTable_eq : crcTable = MakeTable Castagnoli.
Proof. vm_compute. reflexivity. Qed.

Lemma crcTable_nth i :
  0 <= i < 256 -> nth (Z.to_nat i) crcTable 0 = Nat.iter 8 (crc_bit Castagnoli) i.
Proof.
  intros Hi. rewrite crcTable_eq. unfold MakeTable.
  rewrite nth_lookup, list_lookup_fmap, (lookup_seq_lt 0 256) by lia.
  cbn [fmap option_fmap option_map default from_option]. by rewrite Nat.add_0_l, Z2Nat.id by lia.
Qed.

Lemma below_256_bits x : 0 <= x -> (forall i, 8 <= i -> Z.testbit x i = false) -> x < 256.
Proof.
  intros Hx Hbits. destruct (Z.lt_ge_cases x 256) as [|Hge]; [done|exfalso].
  assert (8 <= Z.log2 x) as Hlog by (apply Z.log2_le_pow2; lia).
  specialize (Hbits _ Hlog). rewrite Z.bit_log2 in Hbits; [done|lia].
Qed.

Lemma u8_lxor_range c b : 0 <= Z.lxor (u8 c) (b2z b) < 256.
Proof.
  pose proof (Z.mod_pos_bound c (2 ^ 8) ltac:(lia)) as Hc. pose proof (b2z_range b) as Hb.
  assert (0 <= Z.lxor (u8 c) (b2z b)) by (apply Z.lxor_nonneg; unfold u8; lia).
  split; [done|]. apply below_256_bits; [done|]. intros i Hi.
  rewrite Z.lxor_spec, <- (Z.mod_small (b2z b) (2 ^ 8)) by lia.
  unfold u8. by rewrite !Z.mod_pow2_bits_high by lia.
Qed.

Lemma table_step_crc_byte c b : 0 <= c -> table_step crcTable c b = crc_byte c b.
Proof.
  intros Hc. unfold table_step, crc_byte.
  rewrite crcTable_nth by apply u8_lxor_range.
  rewrite <- (crc_iter_shiftl Castagnoli 8 (Z.shiftr c 8)) at 1.
  rewrite <- crc_iter_lxor. f_equal.
  rewrite (Z.lxor_comm (u8 c)), Z.lxor_assoc, (Z.lxor_comm c). f_equal.
  change (Z.of_nat 8) with 8. apply Z.bits_inj'. intros i Hi. rewrite Z.lxor_spec.
  unfold u8. destruct (Z.lt_ge_cases i 8).
  - rewrite Z.mod_pow2_bits_low, Z.shiftl_spec_low by lia. apply xorb_false_r.
  - rewrite Z.mod_pow2_bits_high, Z.shiftl_spec, Z.shiftr_spec by lia.
    rewrite xorb_false_l. f_equal. lia.
Qed.

Lemma table_fold_crc_fold p c :
  is_u32 c -> foldl (table_step crcTable) c p = foldl crc_byte c p.
Proof.
  revert c. induction p as [|b p IH]; intros c Hc; [done|]. cbn [foldl].
  rewrite table_step_crc_byte by (unfold is_u32 in Hc; lia).
  apply IH, crc_iter_u32, is_u32_lxor; auto using is_u32_b2z.
Qed.

Lemma is_u32_not32 c : is_u32 c -> is_u32 (not32 c).
Proof. intros Hc. apply is_u32_lxor; [done|]. unfold is_u32. vm_compute. split; congruence. Qed.

Lemma is_u32_zero : is_u32 0.
Proof. unfold is_u32. lia. Qed.

Lemma Checksum_reference p : Checksum p crcTable = crc_reference p.
Proof.
  unfold Checksum, Update, crc_reference.
  by rewrite table_fold_crc_fold by apply is_u32_not32, is_u32_zero.
Qed.

Lemma Checksum_u32 p : is_u32 (Checksum p crcTable).
Proof.
  rewrite Checksum_reference. apply is_u32_not32, crc_fold_u32, is_u32_not32, is_u32_zero.
Qed.

(** ** Error detection *)

(** Replacing up to four consecutive bytes always changes the checksum. *)
Lemma Checksum_burst pre x y post :
  length x = length y -> (length x <= 4)%nat ->
  Checksum (pre ++ x ++ post) crcTable = Checksum (pre ++ y ++ post) crcTable ->
  x = y.
Proof.
  intros Hlen H4. rewrite !Checksum_reference. unfold crc_reference.
  intros H. apply lxor_cancel_r in H.
  rewrite !foldl_app in H.
  set (s := foldl crc_byte (not32 0) pre) in H.
  assert (is_u32 s) as Hs by apply crc_fold_u32, is_u32_not32, is_u32_zero.
  apply crc_fold_inj in H; [|by apply crc_fold_u32..].
  rewrite !crc_fold_UintLE, <- Hlen in H.
  assert (forall z : bytes, length z = length x -> is_u32 (UintLE z)) as Hu.
  { intros z Hz. pose proof (UintLE_range z) as [? Hlt]. split; [done|].
    eapply Z.lt_le_trans; [exact Hlt|]. apply Z.pow_le_mono_r; lia. }
  apply crc_iter_inj in H; [|apply is_u32_lxor; auto..].
  apply lxor_cancel_l in H.
  rewrite <- (PutUintLE_UintLE x), <- (PutUintLE_UintLE y). by rewrite H, Hlen.
Qed.

(** The check value of CRC-32C over "123456789" published for the algorithm. *)
Example Checksum_check_value :
  Checksum (String.list_byte_of_string "123456789") crcTable = 0xe3069283.
Proof. vm_compute. reflexivity. Qed.

#[export] Hint Resolve Checksum_u32 : gokvx.
