(* ===== verification/GoStrings.v ===== *)
(** * Go strings

    What the sources use of [strings], [strconv] and [fmt]. A Go string is a
    byte sequence; [string] is one too. *)

From stdpp Require Import prelude strings list.
From Stdlib Require Import ZArith Lia Ascii.
From S2P Require Import Prelude.

Local Open Scope string_scope.
Local Arguments String.append !_ _ / : simpl nomatch.

(** ** Prefixes and suffixes *)

(** [strip_prefix p s] is what follows [p] in [s]. *)
Fixpoint strip_prefix (p s : string) : option string :=
  match p, s with
  | EmptyString, _ => Some s
  | String a p', String b s' => if decide (a = b) then strip_prefix p' s' else None
  | String _ _, EmptyString => None
  end.

Definition HasPrefix (s p : string) : bool := bool_decide (is_Some (strip_prefix p s)).

(** [strings.CutSuffix]: what precedes [suf] in [s], and whether it was there. *)
Fixpoint CutSuffix_go (s suf : string) : option string :=
  if decide (s = suf) then Some ""
  else match s with
       | EmptyString => None
       | String a s' => String a <$> CutSuffix_go s' suf
       end.

Definition CutSuffix (s suf : string) : string * bool :=
  match CutSuffix_go s suf with
  | Some before => (before, true)
  | None => (s, false)
  end.

Definition HasSuffix (s suf : string) : bool := snd (CutSuffix s suf).

(** [strings.Cut]: around the first occurrence of the one-byte separator. *)
Fixpoint Cut (s : string) (sep : ascii) : string * string * bool :=
  match s with
  | EmptyString => ("", "", false)
  | String a s' =>
      if decide (a = sep) then ("", s', true)
      else let '(before, after, ok) := Cut s' sep in
           if ok : bool then (String a before, after, true) else (s, "", false)
  end.

Lemma strip_prefix_Some p s r : strip_prefix p s = Some r <-> s = p +:+ r.
Proof.
  revert s. induction p as [|a p IH]; intros s; cbn [strip_prefix String.append];
    [split; congruence|].
  destruct s as [|b s]; [split; congruence|].
  case_decide; [rewrite IH; subst|]; split; congruence.
Qed.

Lemma CutSuffix_go_Some s suf r : CutSuffix_go s suf = Some r -> s = r +:+ suf.
Proof.
  revert r. induction s as [|a s IH]; intros r; cbn [CutSuffix_go]; case_decide; intros Hr;
    simplify_eq; try done.
  revert Hr. intros (r' & Hr' & ->)%fmap_Some. simpl. by rewrite <- IH.
Qed.

Lemma append_length s1 s2 : String.length (s1 +:+ s2) = String.length s1 + String.length s2.
Proof. induction s1; simpl; auto. Qed.

Lemma append_assoc s1 s2 s3 : s1 +:+ (s2 +:+ s3) = (s1 +:+ s2) +:+ s3.
Proof. induction s1 as [|a s1 IH]; simpl; [done|]. by rewrite IH. Qed.

Lemma append_nil_r s : s +:+ "" = s.
Proof. induction s as [|a s IH]; simpl; [done|]. by rewrite IH. Qed.

Lemma append_inv_tail s1 s2 t : s1 +:+ t = s2 +:+ t -> s1 = s2.
Proof.
  revert s2. induction s1 as [|a s1 IH]; intros [|b s2] H; cbn [String.append] in H; [done|..].
  - apply (f_equal String.length) in H. cbn [String.length] in H. rewrite append_length in H. lia.
  - apply (f_equal String.length) in H. cbn [String.length] in H. rewrite append_length in H. lia.
  - simplify_eq. f_equal. eauto.
Qed.

Lemma CutSuffix_go_app r suf : CutSuffix_go (r +:+ suf) suf = Some r.
Proof.
  induction r as [|a r IH]; cbn [String.append].
  - destruct suf; cbn [CutSuffix_go]; by rewrite decide_True by done.
  - cbn [CutSuffix_go]. rewrite decide_False, IH; [done|].
    intros H. apply (f_equal String.length) in H. simpl in H. rewrite append_length in H. lia.
Qed.

Lemma CutSuffix_app r suf : CutSuffix (r +:+ suf) suf = (r, true).
Proof. unfold CutSuffix. by rewrite CutSuffix_go_app. Qed.

Lemma CutSuffix_true s suf r : CutSuffix s suf = (r, true) -> s = r +:+ suf.
Proof.
  unfold CutSuffix. destruct (CutSuffix_go s suf) as [r'|] eqn:H; intros Hr; simplify_eq.
  by apply CutSuffix_go_Some.
Qed.

(** ** [strings.TrimSpace] *)

Definition chars (l : list nat) : string :=
  String.string_of_list_ascii (ascii_of_nat <$> l).

(** The UTF-8 encodings of the runes [unicode.IsSpace] accepts. *)
Definition spaces : list string := Eval vm_compute in chars <$>
  [[9]; [10]; [11]; [12]; [13]; [32]; [0xc2; 0x85]; [0xc2; 0xa0]; [0xe1; 0x9a; 0x80];
   [0xe2; 0x80; 0x80]; [0xe2; 0x80; 0x81]; [0xe2; 0x80; 0x82]; [0xe2; 0x80; 0x83];
   [0xe2; 0x80; 0x84]; [0xe2; 0x80; 0x85]; [0xe2; 0x80; 0x86]; [0xe2; 0x80; 0x87];
   [0xe2; 0x80; 0x88]; [0xe2; 0x80; 0x89]; [0xe2; 0x80; 0x8a]; [0xe2; 0x80; 0xa8];
   [0xe2; 0x80; 0xa9]; [0xe2; 0x80; 0xaf]; [0xe2; 0x81; 0x9f]; [0xe3; 0x80; 0x80]].

(** Drops one leading (trailing) space at a time; a string has at most as many
    as bytes, which is the fuel. *)
Fixpoint trim_left (fuel : nat) (s : string) : string :=
  match fuel with
  | O => s
  | S fuel' =>
      match list_find (fun w => is_Some (strip_prefix w s)) spaces with
      | Some (_, w) => trim_left fuel' (default s (strip_prefix w s))
      | None => s
      end
  end.

Fixpoint trim_right (fuel : nat) (s : string) : string :=
  match fuel with
  | O => s
  | S fuel' =>
      match list_find (fun w => is_Some (CutSuffix_go s w)) spaces with
      | Some (_, w) => trim_right fuel' (default s (CutSuffix_go s w))
      | None => s
      end
  end.

Definition TrimSpace (s : string) : string :=
  let s1 := trim_left (String.length s) s in trim_right (String.length s1) s1.

(** ** Decimal numbers ([strconv], [fmt]) *)
Section decimal.
Local Open Scope Z_scope.

Definition digit (d : Z) : ascii := ascii_of_N (Z.to_N (48 + d)).
Definition digit_value (c : ascii) : option Z :=
  let v := Z.of_N (N_of_ascii c) - 48 in
  if (0 <=? v) && (v <? 10) then Some v else None.

(** Decimal digits, most significant first; [fuel] bounds their number. *)
Fixpoint format_go (fuel : nat) (n : Z) : string :=
  match fuel with
  | O => ""
  | S fuel' => (if n <? 10 then "" else format_go fuel' (n / 10)) +:+ String (digit (n mod 10)) ""
  end.

(** Twenty digits hold every 64-bit value. *)
Definition FormatUint (n : Z) : string := format_go 20 n.
Definition Itoa (n : Z) : string :=
  if n <? 0 then "-" +:+ FormatUint (- n) else FormatUint n.

Fixpoint zeros (n : nat) : string :=
  match n with O => "" | S n' => String "0" (zeros n') end.

(** The verb [%0*d] of [fmt] for a non-negative number. *)
Definition Sprintf_0d (width : nat) (n : Z) : string :=
  let s := FormatUint n in zeros (width - String.length s) +:+ s.

Inductive numError := ErrSyntax | ErrRange.

(** [strconv.ParseUint(s, 10, bits)]. *)
Fixpoint ParseUint_go (maxVal n : Z) (s : string) : result numError Z :=
  match s with
  | EmptyString => Ok n
  | String c s' =>
      match digit_value c with
      | None => Err ErrSyntax
      | Some d =>
          if maxVal <? n * 10 + d then Err ErrRange
          else ParseUint_go maxVal (n * 10 + d) s'
      end
  end.

Definition ParseUint (s : string) (bits : Z) : result numError Z :=
  match s with
  | EmptyString => Err ErrSyntax
  | _ => ParseUint_go (2 ^ bits - 1) 0 s
  end.

(** [strconv.Atoi]: an optional sign and decimal digits, as a 64-bit [int]. *)
Definition Atoi (s : string) : result numError Z :=
  let '(neg, digits) :=
    match s with
    | String "-" s' => (true, s')
    | String "+" s' => (false, s')
    | _ => (false, s)
    end in
  match ParseUint digits 64 with
  | Err e => Err e
  | Ok un =>
      if neg : bool then if 2 ^ 63 <? un then Err ErrRange else Ok (- un)
      else if 2 ^ 63 <=? un then Err ErrRange else Ok un
  end.

(** The same digits at a fixed width, the form the proofs use. *)
Fixpoint fixed (w : nat) (n : Z) : string :=
  match w with
  | O => ""
  | S w' => fixed w' (n / 10) +:+ String (digit (n mod 10)) ""
  end.

Lemma digit_value_digit d : 0 <= d < 10 -> digit_value (digit d) = Some d.
Proof.
  intros Hd. unfold digit_value, digit. rewrite N_ascii_embedding by lia.
  replace (Z.of_N (Z.to_N (48 + d)) - 48) with d by lia.
  by rewrite (proj2 (Z.leb_le 0 d)), (proj2 (Z.ltb_lt d 10)) by lia.
Qed.

Lemma length_fixed w n : String.length (fixed w n) = w.
Proof.
  revert n. induction w as [|w IH]; intros n; simpl; [done|].
  rewrite append_length, IH. simpl. lia.
Qed.

Lemma zeros_S n : zeros (S n) = zeros n +:+ "0".
Proof. induction n as [|n IH]; [done|]. cbn [zeros String.append] in *. by rewrite IH. Qed.

Lemma fixed_zero w : fixed w 0 = zeros w.
Proof.
  induction w as [|w IH]; [done|]. cbn [fixed].
  rewrite Z.div_0_l, IH by lia. by rewrite zeros_S.
Qed.

Lemma format_go_length w n : (String.length (format_go w n) <= w)%nat.
Proof.
  revert n. induction w as [|w IH]; intros n; cbn [format_go]; [simpl; lia|].
  rewrite append_length. destruct (n <? 10); simpl; [lia|]. specialize (IH (n / 10)). lia.
Qed.

Lemma pad_format w n :
  0 <= n < 10 ^ Z.of_nat w ->
  zeros (w - String.length (format_go w n)) +:+ format_go w n = fixed w n.
Proof.
  revert n. induction w as [|w IH]; intros n Hn; [done|].
  cbn [format_go fixed]. rewrite append_length. cbn [String.length].
  destruct (Z.ltb_spec n 10) as [Hlt|Hge].
  - cbn [String.length]. rewrite Z.div_small, fixed_zero by lia.
    replace (S w - (0 + 1))%nat with w by lia. done.
  - assert (0 <= n / 10 < 10 ^ Z.of_nat w) as Hdiv.
    { replace (Z.of_nat (S w)) with (1 + Z.of_nat w) in Hn by lia.
      rewrite Z.pow_add_r in Hn by lia. split; [apply Z.div_pos; lia|].
      apply Z.div_lt_upper_bound; lia. }
    rewrite append_assoc. f_equal.
    rewrite <- (IH _ Hdiv). f_equal. f_equal. lia.
Qed.

Lemma ParseUint_go_app m n s1 s2 :
  ParseUint_go m n (s1 +:+ s2)
  = match ParseUint_go m n s1 with Ok n' => ParseUint_go m n' s2 | Err e => Err e end.
Proof.
  revert n. induction s1 as [|c s1 IH]; intros n; simpl; [done|].
  destruct (digit_value c); [|done]. case_match; [done|]. apply IH.
Qed.

Lemma ParseUint_go_fixed m w n :
  0 <= n < 10 ^ Z.of_nat w -> n <= m -> ParseUint_go m 0 (fixed w n) = Ok n.
Proof.
  revert n. induction w as [|w IH]; intros n Hn Hm.
  { simpl in *. f_equal. lia. }
  replace (Z.of_nat (S w)) with (1 + Z.of_nat w) in Hn by lia.
  rewrite Z.pow_add_r in Hn by lia.
  pose proof (Z.div_mod n 10 ltac:(lia)) as Hdm.
  pose proof (Z.mod_pos_bound n 10 ltac:(lia)) as Hmod.
  cbn [fixed]. rewrite ParseUint_go_app, IH by nia.
  cbn [ParseUint_go]. rewrite digit_value_digit by lia.
  replace (n / 10 * 10 + n mod 10) with n by lia.
  by rewrite (proj2 (Z.ltb_ge m n)) by lia.
Qed.

(** Fixed-width decimals compare as the numbers do. *)
Lemma compare_app s1 s2 t1 t2 :
  String.length s1 = String.length s2 ->
  String.compare (s1 +:+ t1) (s2 +:+ t2)
  = match String.compare s1 s2 with Eq => String.compare t1 t2 | c => c end.
Proof.
  revert s2. induction s1 as [|a s1 IH]; intros [|b s2] Hlen; simpl in *; try done.
  rewrite IH by lia. by destruct (Ascii.compare a b).
Qed.

Lemma digit_compare x y :
  0 <= x < 10 -> 0 <= y < 10 -> Ascii.compare (digit x) (digit y) = (x ?= y).
Proof.
  intros Hx Hy. unfold Ascii.compare, digit. rewrite !N_ascii_embedding by lia.
  rewrite Z2N.inj_compare by lia.
  destruct (Z.compare_spec (48 + x) (48 + y)), (Z.compare_spec x y); try done; lia.
Qed.

Lemma fixed_compare w a b :
  0 <= a < 10 ^ Z.of_nat w -> 0 <= b < 10 ^ Z.of_nat w ->
  String.compare (fixed w a) (fixed w b) = (a ?= b).
Proof.
  revert a b. induction w as [|w IH]; intros a b Ha Hb.
  { simpl in *. replace a with b by lia. by rewrite Z.compare_refl. }
  replace (Z.of_nat (S w)) with (1 + Z.of_nat w) in Ha, Hb by lia.
  rewrite Z.pow_add_r in Ha, Hb by lia.
  pose proof (Z.div_mod a 10 ltac:(lia)). pose proof (Z.mod_pos_bound a 10 ltac:(lia)).
  pose proof (Z.div_mod b 10 ltac:(lia)). pose proof (Z.mod_pos_bound b 10 ltac:(lia)).
  cbn [fixed]. rewrite compare_app by (by rewrite !length_fixed).
  rewrite IH by (split; [apply Z.div_pos; lia|apply Z.div_lt_upper_bound; lia]).
  cbn [String.compare]. rewrite digit_compare by lia.
  destruct (Z.compare_spec (a / 10) (b / 10)) as [He|He|He];
    destruct (Z.compare_spec (a mod 10) (b mod 10)) as [Hm|Hm|Hm];
    destruct (Z.compare_spec a b); try done; lia.
Qed.

(** [%020d] of a 64-bit value is its twenty digits. *)
Lemma Sprintf_0d_fixed n : is_u64 n -> Sprintf_0d 20 n = fixed 20 n.
Proof. intros Hn. apply pad_format. unfold is_u64 in Hn. lia. Qed.
End decimal.

(** ** [strconv.Quote], the verb [%q]

    Exact on ASCII text. A byte of a multi-byte character is rendered in hex,
    where Go keeps printable characters as they are; quoted text only ever
    appears inside error messages. *)
Definition hex_digit (d : nat) : ascii := ascii_of_nat (if (d <? 10)%nat then 48 + d else 87 + d).

Definition dquote : ascii := ascii_of_nat 34.
Definition backslash : ascii := ascii_of_nat 92.

Definition quote_byte (c : ascii) : string :=
  let esc (x : ascii) := String backslash (String x "") in
  let n := nat_of_ascii c in
  match N_of_ascii c with
  | 34%N => esc dquote
  | 92%N => esc backslash
  | 7%N => esc "a"%char
  | 8%N => esc "b"%char
  | 12%N => esc "f"%char
  | 10%N => esc "n"%char
  | 13%N => esc "r"%char
  | 9%N => esc "t"%char
  | 11%N => esc "v"%char
  | _ =>
      if (32 <=? n)%nat && (n <? 127)%nat then String c ""
      else String backslash (String "x" (String (hex_digit (n / 16)) (String (hex_digit (n mod 16)) "")))
  end.

Fixpoint quote_bytes (s : string) : string :=
  match s with EmptyString => "" | String c s' => quote_byte c +:+ quote_bytes s' end.

Definition Quote (s : string) : string := String dquote (quote_bytes s +:+ String dquote "").

(** ** [strings.Split], [strings.ReplaceAll] (one byte) and [strings.ToUpper] (ASCII) *)

Fixpoint Split_go (acc s : string) (sep : ascii) : list string :=
  match s with
  | EmptyString => [acc]
  | String a s' =>
      if decide (a = sep) then acc :: Split_go "" s' sep
      else Split_go (acc +:+ String a "") s' sep
  end.

(** Between the occurrences of the one-byte separator. *)
Definition Split (s : string) (sep : ascii) : list string := Split_go "" s sep.

Fixpoint ReplaceAll (s : string) (old new : ascii) : string :=
  match s with
  | EmptyString => ""
  | String a s' => String (if decide (a = old) then new else a) (ReplaceAll s' old new)
  end.

Definition to_upper (c : ascii) : ascii :=
  let n := N_of_ascii c in
  if (97 <=? n)%N && (n <=? 122)%N then ascii_of_N (n - 32) else c.

Fixpoint ToUpper (s : string) : string :=
  match s with EmptyString => "" | String a s' => String (to_upper a) (ToUpper s') end.
