(* ===== verification/Kverr.v ===== *)
(** * The error model (internal/kverr)

    Kinds, the registry of reasons, the single error type with its constructors
    and accessors, and the inspection of error chains. A Go [error] value is
    an [error] tree: the standard library's wrapping ([fmt.Errorf] with [%w],
    [errors.Join]) and the [*kverr.Error] links. Errors are immutable in the
    source (every With* method clones), so values model them. *)

From stdpp Require Import prelude gmap strings list sorting pretty.
From Stdlib Require Import ZArith Lia.
From S2P Require Import Prelude GoStrings.

Local Open Scope string_scope.

(** ** Kinds (kind.go) *)

(** The enumeration over [uint8]; [KindOther] is a value outside it. *)
Inductive Kind :=
| KindInternal
| KindInvalidArgument
| KindNotFound
| KindAlreadyExists
| KindPermissionDenied
| KindUnauthenticated
| KindResourceExhausted
| KindFailedPrecondition
| KindAborted
| KindOutOfRange
| KindUnimplemented
| KindUnavailable
| KindDeadlineExceeded
| KindCanceled
| KindOther (n : Z).

#[export] Instance Kind_eq_dec : EqDecision Kind.
Proof. solve_decision. Defined.

(** [Kind.String]: the name in [kindNames], or [Kind(n)] outside it. *)
Definition Kind_String (k : Kind) : string :=
  match k with
  | KindInternal => "INTERNAL"
  | KindInvalidArgument => "INVALID_ARGUMENT"
  | KindNotFound => "NOT_FOUND"
  | KindAlreadyExists => "ALREADY_EXISTS"
  | KindPermissionDenied => "PERMISSION_DENIED"
  | KindUnauthenticated => "UNAUTHENTICATED"
  | KindResourceExhausted => "RESOURCE_EXHAUSTED"
  | KindFailedPrecondition => "FAILED_PRECONDITION"
  | KindAborted => "ABORTED"
  | KindOutOfRange => "OUT_OF_RANGE"
  | KindUnimplemented => "UNIMPLEMENTED"
  | KindUnavailable => "UNAVAILABLE"
  | KindDeadlineExceeded => "DEADLINE_EXCEEDED"
  | KindCanceled => "CANCELED"
  | KindOther n => "Kind(" +:+ Itoa n +:+ ")"
  end.

Definition IsClientFault (k : Kind) : bool :=
  match k with
  | KindInvalidArgument
  | KindNotFound
  | KindAlreadyExists
  | KindPermissionDenied
  | KindUnauthenticated
  | KindOutOfRange
  | KindUnimplemented
  | KindCanceled => true
  | KindInternal
  | KindResourceExhausted
  | KindFailedPrecondition
  | KindAborted
  | KindUnavailable
  | KindDeadlineExceeded => false
  | KindOther _ => false
  end.

(** ** Reasons (reason.go) *)

Abbreviation Reason := string.

Definition ReasonKeyEmpty : Reason := "KEY_EMPTY".
Definition ReasonKeyTooLarge : Reason := "KEY_TOO_LARGE".
Definition ReasonValueTooLarge : Reason := "VALUE_TOO_LARGE".
Definition ReasonInvalidArgument : Reason := "INVALID_ARGUMENT".
Definition ReasonRevisionCompacted : Reason := "REVISION_COMPACTED".
Definition ReasonMissingCredential : Reason := "MISSING_CREDENTIAL".
Definition ReasonInvalidToken : Reason := "INVALID_TOKEN".
Definition ReasonUnknownKeyID : Reason := "UNKNOWN_KEY_ID".
Definition ReasonInsufficientScope : Reason := "INSUFFICIENT_SCOPE".
Definition ReasonRateLimited : Reason := "RATE_LIMITED".
Definition ReasonQuotaExceeded : Reason := "QUOTA_EXCEEDED".
Definition ReasonWatchBufferOverflow : Reason := "WATCH_BUFFER_OVERFLOW".
Definition ReasonNotLeader : Reason := "NOT_LEADER".
Definition ReasonNoLeader : Reason := "NO_LEADER".
Definition ReasonStaleReadBoundUnmet : Reason := "STALE_READ_BOUND_UNMET".
Definition ReasonCrossShardTxnUnsupported : Reason := "CROSS_SHARD_TXN_UNSUPPORTED".
Definition ReasonFeatureNotInCurrentPhase : Reason := "FEATURE_NOT_IN_CURRENT_PHASE".
Definition ReasonShuttingDown : Reason := "SHUTTING_DOWN".
Definition ReasonDeadlineExceeded : Reason := "DEADLINE_EXCEEDED".
Definition ReasonCanceled : Reason := "CANCELED".
Definition ReasonInternal : Reason := "INTERNAL".

Record reasonInfo := ReasonInfo {
  info_kind : Kind;
  info_retryable : bool;
  info_description : string;
}.

(** The zero [reasonInfo], what Go reads for a missing key. *)
Definition zeroInfo : reasonInfo := ReasonInfo KindInternal false "".

(** The entries of the registry, in source order. *)
Definition reasons_list : list (Reason * reasonInfo) :=
  [ (ReasonKeyEmpty, ReasonInfo KindInvalidArgument false
       "The key is empty, which is only valid as a range boundary.");
    (ReasonKeyTooLarge, ReasonInfo KindInvalidArgument false
       "The key exceeds the configured maximum key length.");
    (ReasonValueTooLarge, ReasonInfo KindInvalidArgument false
       "The value exceeds the configured maximum value size.");
    (ReasonInvalidArgument, ReasonInfo KindInvalidArgument false
       "The request is malformed or its fields contradict each other.");
    (ReasonRevisionCompacted, ReasonInfo KindOutOfRange false
       "The requested revision is below the compaction point and is no longer available.");
    (ReasonMissingCredential, ReasonInfo KindUnauthenticated false
       "The request carried no usable bearer token.");
    (ReasonInvalidToken, ReasonInfo KindUnauthenticated false
       "The bearer token could not be verified.");
    (ReasonUnknownKeyID, ReasonInfo KindUnauthenticated false
       "The token's signing key is not known to this node.");
    (ReasonInsufficientScope, ReasonInfo KindPermissionDenied false
       "The authenticated principal lacks the scope this method requires.");
    (ReasonRateLimited, ReasonInfo KindResourceExhausted true
       "The principal exceeded its request rate limit.");
    (ReasonQuotaExceeded, ReasonInfo KindResourceExhausted true
       "The database size quota is exhausted; writes are refused until space is reclaimed.");
    (ReasonWatchBufferOverflow, ReasonInfo KindResourceExhausted true
       "The watch was canceled because its consumer fell too far behind.");
    (ReasonNotLeader, ReasonInfo KindFailedPrecondition true
       "This node is not the leader for the requested keys.");
    (ReasonNoLeader, ReasonInfo KindUnavailable true
       "No leader is currently known for the requested keys.");
    (ReasonStaleReadBoundUnmet, ReasonInfo KindFailedPrecondition true
       "This replica has not yet applied the minimum revision the read requires.");
    (ReasonCrossShardTxnUnsupported, ReasonInfo KindFailedPrecondition false
       "The transaction spans more than one shard group, which is not supported.");
    (ReasonFeatureNotInCurrentPhase, ReasonInfo KindUnimplemented false
       "The requested field or method is defined in the contract but not yet implemented.");
    (ReasonShuttingDown, ReasonInfo KindUnavailable true
       "The node is shutting down and is no longer accepting requests.");
    (ReasonDeadlineExceeded, ReasonInfo KindDeadlineExceeded true
       "The caller's deadline elapsed before the request completed.");
    (ReasonCanceled, ReasonInfo KindCanceled false
       "The caller canceled the request.");
    (ReasonInternal, ReasonInfo KindInternal false
       "An internal error occurred.") ].

Definition reasons : gmap Reason reasonInfo := list_to_map reasons_list.

Definition KindOf (r : Reason) : Kind :=
  match reasons !! r with
  | None => KindInternal
  | Some info => info_kind info
  end.

Definition Retryable (r : Reason) : bool := info_retryable (default zeroInfo (reasons !! r)).
Definition Description (r : Reason) : string := info_description (default zeroInfo (reasons !! r)).
Definition Registered (r : Reason) : bool := bool_decide (is_Some (reasons !! r)).

(** Every registered reason in lexical order. *)
Definition AllReasons : list Reason := merge_sort String.le (map_to_list reasons).*1.

(** ** The error type (error.go) *)

Record FieldViolation := Violation {
  Field : string;
  FieldDescription : string;
}.

#[export] Instance FieldViolation_eq_dec : EqDecision FieldViolation.
Proof. solve_decision. Defined.

(** A non-nil Go [error]. A nil error is [None] of [option error]; the [None]
    of [EKv None] is a typed-nil [*Error] stored in an [error].
    [ESentinel] is a package-level [errors.New] value, compared by identity;
    [EForeign] any other error of the operating system or a library. *)
Inductive error :=
| EKv (e : option Error)
| EWrapf (before : string) (err : error) (after : string)
| EJoin (errs : list error)
| ECanceled
| EDeadlineExceeded
| ENotExist
| ESentinel (text : string)
| EForeign (text : string)
with Error :=
| MkError (reason : Reason) (message : string) (metadata : gmap string string)
    (violations : list FieldViolation) (retryAfter : Z) (cause : option error).

Definition reason (e : Error) : Reason := let '(MkError r _ _ _ _ _) := e in r.
Definition message (e : Error) : string := let '(MkError _ m _ _ _ _) := e in m.
Definition metadata (e : Error) : gmap string string := let '(MkError _ _ md _ _ _) := e in md.
Definition violations (e : Error) : list FieldViolation := let '(MkError _ _ _ vs _ _) := e in vs.
Definition retryAfter (e : Error) : Z := let '(MkError _ _ _ _ d _) := e in d.
Definition cause (e : Error) : option error := let '(MkError _ _ _ _ _ c) := e in c.

Definition Error_Kind (e : Error) : Kind := KindOf (reason e).
Definition Error_Retryable (e : Error) : bool := Retryable (reason e).

(** [Error()] of every link: what a log line shows. *)
Fixpoint error_text (err : error) : string :=
  match err with
  | EKv None => "<nil>"
  | EKv (Some (MkError r m _ _ _ c)) =>
      r +:+ ": " +:+ m +:+ match c with Some c' => ": " +:+ error_text c' | None => "" end
  | EWrapf before err' after => before +:+ error_text err' +:+ after
  | EJoin errs =>
      (fix join (l : list error) : string :=
         match l with
         | [] => ""
         | [x] => error_text x
         | x :: l' => error_text x +:+ String (Ascii.ascii_of_nat 10) "" +:+ join l'
         end) errs
  | ECanceled => "context canceled"
  | EDeadlineExceeded => "context deadline exceeded"
  | ENotExist => "file does not exist"
  | ESentinel t | EForeign t => t
  end.

Definition Error_Unwrap (e : option Error) : option error :=
  match e with None => None | Some e' => cause e' end.

(** [Error.Is]: the target is an [*Error] with the same reason. *)
Definition Error_Is (e : option Error) (target : error) : bool :=
  match target, e with
  | EKv (Some t), Some e' => bool_decide (reason e' = reason t)
  | _, _ => false
  end.

(** The attributes of [Error.LogValue]; a typed-nil error logs as a string. *)
Definition Error_LogValue (e : option Error) : string + list (string * string) :=
  match e with
  | None => inl "<nil>"
  | Some e' =>
      inr ([("reason", reason e'); ("kind", Kind_String (Error_Kind e')); ("message", message e')]
           ++ match cause e' with Some c => [("cause", error_text c)] | None => [] end)%list
  end.

(** ** Constructors (construct.go) *)

Definition New (r : Reason) (m : string) : Error :=
  let r' := if Registered r then r else ReasonInternal in
  let m' := if decide (m = "") then Description r' else m in
  MkError r' m' ∅ [] 0 None.

Definition Wrap (r : Reason) (c : option error) (m : string) : Error :=
  let '(MkError r' m' md vs d _) := New r m in MkError r' m' md vs d c.

Definition WithMetadata (e : Error) (key value : string) : Error :=
  let '(MkError r m md vs d c) := e in MkError r m (<[key := value]> md) vs d c.

Definition WithViolations (e : Error) (new : list FieldViolation) : Error :=
  let '(MkError r m md vs d c) := e in MkError r m md (vs ++ new)%list d c.

Definition WithRetryAfter (e : Error) (d : Z) : Error :=
  let '(MkError r m md vs _ c) := e in MkError r m md vs (Z.max d 0) c.

(** The [error] value a function returning an [*Error] hands to its caller. *)
Definition kv (e : Error) : error := EKv (Some e).

(** ** Inspection (inspect.go and package errors) *)

(** The links of a chain in the order [errors.Is] and [errors.As] visit them:
    depth first, each error before what it wraps. *)
Fixpoint err_tree (err : error) : list error :=
  err :: match err with
         | EKv (Some (MkError _ _ _ _ _ (Some c))) => err_tree c
         | EWrapf _ err' _ => err_tree err'
         | EJoin errs => (fix trees (l : list error) : list error :=
                            match l with [] => [] | x :: l' => (err_tree x ++ trees l')%list end) errs
         | _ => []
         end.

(** [errors.As(err, &e)] for [e : *Error]: the first link that is one. *)
Definition errors_As (err : error) : option (option Error) :=
  head (omap (fun x => match x with EKv e => Some e | _ => None end) (err_tree err)).

(** Whether one link matches [target]: by identity, or by its [Is] method. *)
Definition link_is (x target : error) : bool :=
  match x, target with
  | ECanceled, ECanceled | EDeadlineExceeded, EDeadlineExceeded | ENotExist, ENotExist => true
  | ESentinel a, ESentinel b => bool_decide (a = b)
  | EKv e, _ => Error_Is e target
  | _, _ => false
  end.

Definition errors_Is (err target : error) : bool :=
  existsb (fun x => link_is x target) (err_tree err).

Definition ReasonOf (err : option error) : Reason :=
  match err with
  | None => ""
  | Some err =>
      match errors_As err with
      | Some (Some e) => reason e
      | _ =>
          if errors_Is err ECanceled then ReasonCanceled
          else if errors_Is err EDeadlineExceeded then ReasonDeadlineExceeded
          else ReasonInternal
      end
  end.

(** The sentinels of inspect.go. *)
Definition ErrRevisionCompacted : error := kv (New ReasonRevisionCompacted "").
Definition ErrNotLeader : error := kv (New ReasonNotLeader "").
Definition ErrNoLeader : error := kv (New ReasonNoLeader "").
Definition ErrQuotaExceeded : error := kv (New ReasonQuotaExceeded "").
Definition ErrShuttingDown : error := kv (New ReasonShuttingDown "").
Definition ErrFeatureNotInCurrentPhase : error := kv (New ReasonFeatureNotInCurrentPhase "").

(** ** Well-formed errors

    The invariant the field comments of [Error] state. *)
Definition wf_Error (e : Error) : Prop :=
  Registered (reason e) = true /\ message e <> "" /\ (0 <= retryAfter e)%Z.

(** Every [*Error] is built by these: the fields are unexported. *)
Inductive constructed : Error -> Prop :=
| constructed_New r m : constructed (New r m)
| constructed_Wrap r c m : constructed (Wrap r c m)
| constructed_WithMetadata e k v : constructed e -> constructed (WithMetadata e k v)
| constructed_WithViolations e vs : constructed e -> constructed (WithViolations e vs)
| constructed_WithRetryAfter e d : constructed e -> constructed (WithRetryAfter e d).

#[export] Hint Constructors constructed : gokvx.

(** A check of every registry entry is a check of every lookup. *)
Lemma reasons_check (P : Reason -> reasonInfo -> bool) r info :
  forallb (fun x => P x.1 x.2) reasons_list = true ->
  reasons !! r = Some info -> P r info = true.
Proof.
  intros Hall Hr. apply elem_of_list_to_map_2 in Hr.
  rewrite forallb_forall in Hall. apply (Hall (r, info)). by apply list_elem_of_In.
Qed.

Lemma Registered_lookup r : Registered r = true <-> exists info, reasons !! r = Some info.
Proof. unfold Registered. by rewrite bool_decide_eq_true. Qed.

Lemma Registered_ReasonInternal : Registered ReasonInternal = true.
Proof. vm_compute. reflexivity. Qed.

Lemma Description_nonempty r : Registered r = true -> Description r <> "".
Proof.
  intros [info Hr]%Registered_lookup. unfold Description. rewrite Hr. simpl.
  apply (reasons_check (fun _ i => negb (bool_decide (info_description i = "")))) in Hr;
    [|vm_compute; reflexivity].
  by apply negb_true_iff, bool_decide_eq_false in Hr.
Qed.

Lemma New_wf r m : wf_Error (New r m).
Proof.
  unfold New, wf_Error; cbn [reason message retryAfter].
  destruct (Registered r) eqn:Hr.
  - split_and!; [done| |done]. case_decide; [by apply Description_nonempty|done].
  - split_and!; [apply Registered_ReasonInternal| |done].
    case_decide; [apply Description_nonempty, Registered_ReasonInternal|done].
Qed.

Lemma Wrap_fields r c m :
  reason (Wrap r c m) = reason (New r m) /\ message (Wrap r c m) = message (New r m)
  /\ retryAfter (Wrap r c m) = retryAfter (New r m) /\ cause (Wrap r c m) = c.
Proof. unfold Wrap. by destruct (New r m). Qed.

(** A registered reason is kept. *)
Lemma New_reason r m : Registered r = true -> reason (New r m) = r.
Proof. intros Hr. unfold New. by rewrite Hr. Qed.

Lemma Wrap_reason r c m : Registered r = true -> reason (Wrap r c m) = r.
Proof. intros Hr. rewrite (proj1 (Wrap_fields r c m)). by apply New_reason. Qed.

Lemma Registered_ReasonInvalidArgument : Registered ReasonInvalidArgument = true.
Proof. by vm_compute. Qed.

Lemma constructed_inv e : constructed e -> wf_Error e.
Proof.
  induction 1 as [r m|r c m|e k v _ IH|e vs _ IH|e d _ IH].
  - apply New_wf.
  - destruct (Wrap_fields r c m) as (H1 & H2 & H3 & _).
    unfold wf_Error. rewrite H1, H2, H3. apply New_wf.
  - destruct e. exact IH.
  - destruct e. exact IH.
  - destruct e, IH as (? & ? & ?). split_and!; [done|done|]. simpl. lia.
Qed.

(** ** Classification of chains *)

Lemma err_tree_wrapf b err a : err_tree (EWrapf b err a) = EWrapf b err a :: err_tree err.
Proof. done. Qed.

Lemma errors_As_wrapf b err a : errors_As (EWrapf b err a) = errors_As err.
Proof. done. Qed.

Lemma errors_Is_wrapf b err a target : errors_Is (EWrapf b err a) target = errors_Is err target.
Proof. done. Qed.

Lemma errors_As_elem err e : errors_As err = Some e -> EKv e ∈ err_tree err.
Proof.
  unfold errors_As. induction (err_tree err) as [|x l IH]; [done|].
  destruct x; simpl; try (intros H; right; auto; fail).
  intros [= ->]. left.
Qed.

Lemma Registered_ReasonCanceled : Registered ReasonCanceled = true.
Proof. vm_compute. reflexivity. Qed.
Lemma Registered_ReasonDeadlineExceeded : Registered ReasonDeadlineExceeded = true.
Proof. vm_compute. reflexivity. Qed.

Lemma ReasonOf_cases err :
  (exists e, errors_As err = Some (Some e) /\ ReasonOf (Some err) = reason e)
  \/ ReasonOf (Some err) ∈ [ReasonCanceled; ReasonDeadlineExceeded; ReasonInternal].
Proof.
  unfold ReasonOf. destruct (errors_As err) as [[e|]|]; [left; eauto|right..];
    repeat case_match; set_solver.
Qed.

(** C19: every error value the package can build keeps the invariant of its
    fields (a registered reason, a non-empty client-safe message, a
    non-negative backoff), and every non-nil error is classified with a
    registered reason, whatever chain of wraps, joins, foreign causes and
    typed-nil links it is. *)
Theorem ReasonOf_registered err :
  (forall e, EKv (Some e) ∈ err_tree err -> constructed e) ->
  Registered (ReasonOf (Some err)) = true
  /\ forall e, EKv (Some e) ∈ err_tree err -> wf_Error e.
Proof.
  intros Hlinks. split; [|intros e He; by apply constructed_inv, Hlinks].
  destruct (ReasonOf_cases err) as [(e & Has & ->)|Hin].
  - by apply constructed_inv, Hlinks, errors_As_elem.
  - rewrite !elem_of_cons, elem_of_nil in Hin.
    destruct Hin as [->|[->|[->|[]]]]; vm_compute; reflexivity.
Qed.

Lemma ReasonOf_registered_witness :
  let err := EWrapf "storage: " (kv (Wrap "NOT_A_REASON" (Some ECanceled) "")) "" in
  Registered (ReasonOf (Some err)) = true
  /\ forall e, EKv (Some e) ∈ err_tree err -> wf_Error e.
Proof.
  intros err. apply (ReasonOf_registered err). intros e He. simpl in He.
  rewrite !elem_of_cons, elem_of_nil in He. destruct He as [He|[He|[He|[]]]]; try done.
  injection He as ->. apply (constructed_Wrap "NOT_A_REASON" (Some ECanceled) "").
Defined.

(** Wrapping never changes a classification: context added with [%w] is
    invisible to [ReasonOf] and to [errors.Is], an [*Error] is classified by
    its own reason, and [errors.Is] against a sentinel holds exactly when some
    link of the chain carries the sentinel's reason. *)
Theorem ReasonOf_through_wraps b a err e t :
  ReasonOf (Some (EWrapf b err a)) = ReasonOf (Some err)
  /\ ReasonOf (Some (kv e)) = reason e
  /\ errors_Is (EWrapf b err a) t = errors_Is err t
  /\ (errors_Is err (kv e) = true <->
      exists e', EKv (Some e') ∈ err_tree err /\ reason e' = reason e).
Proof.
  split_and!; [done..|]. unfold errors_Is. rewrite existsb_exists. split.
  - intros (x & Hin%list_elem_of_In & Hx). destruct x as [[e'|]| | | | | | |]; try done.
    exists e'. split; [done|]. by apply bool_decide_eq_true in Hx.
  - intros (e' & Hin & He'). exists (EKv (Some e')). split; [by apply list_elem_of_In|].
    by apply bool_decide_eq_true.
Qed.

(** The registry is consistent: no retryable reason blames the caller, and
    [AllReasons] lists exactly the registered reasons in lexical order. *)
Theorem registry_consistent :
  (forall r, Retryable r = true -> IsClientFault (KindOf r) = false)
  /\ StronglySorted String.le AllReasons
  /\ (forall r, r ∈ AllReasons <-> Registered r = true).
Proof.
  split_and!.
  - intros r. unfold Retryable, KindOf. destruct (reasons !! r) as [info|] eqn:Hr; [|done].
    apply (reasons_check (fun _ i => implb (info_retryable i)
             (negb (IsClientFault (info_kind i))))) in Hr; [|vm_compute; reflexivity].
    simpl. intros Hretry. rewrite Hretry in Hr. by apply negb_true_iff in Hr.
  - apply StronglySorted_merge_sort; apply _.
  - intros r. unfold AllReasons. rewrite (merge_sort_Permutation String.le), list_elem_of_fmap.
    rewrite Registered_lookup. split.
    + intros ([r' info] & -> & Hin). exists info. by apply elem_of_map_to_list.
    + intros [info Hr]. exists (r, info). split; [done|]. by apply elem_of_map_to_list.
Qed.
