(* ===== verification/ErrorObjects.v ===== *)
(** * Errors as shared objects (kverr/error.go and construct.go)

    Kverr.v treats an error as a value. In Go an [*Error] points to an object
    that goroutines share and that package-level sentinels keep for ever; its
    metadata is a map and its violations are a slice, which its callers could
    hold too. Here errors, maps and slices are objects of a store, the methods
    allocate and copy as the source does, and a caller may overwrite every map
    and slice it made or was given. The theorem is that the values of Kverr.v
    are a faithful model of that: an error never changes. *)

From stdpp Require Import prelude gmap strings list.
From Stdlib Require Import ZArith Lia.
From S2P Require Import Prelude GoStrings Kverr.

(** ** The store *)

(** Go's nil is [None]. *)
Abbreviation ref := (option nat).

(** An [error] value: a pointer to an [Error], a context around another error, a
    join, or an error of another package. *)
Inductive eref :=
| RPtr (l : nat)
| RWrapf (before : string) (r : eref) (after : string)
| RJoin (rs : list eref)
| ROther (err : error).

Record errObj := mkErrObj {
  eo_reason : Reason;
  eo_message : string;
  eo_metadata : ref;
  eo_violations : ref;
  eo_retryAfter : Z;
  eo_cause : option eref;
}.

Record objects := mkObjects {
  ob_errs : gmap nat errObj;
  ob_maps : gmap nat (gmap string string);
  ob_lists : gmap nat (list FieldViolation);
}.

Definition map_at (h : objects) (r : ref) : gmap string string := default ∅ (r ≫= (ob_maps h !!.)).
Definition list_at (h : objects) (r : ref) : list FieldViolation := default [] (r ≫= (ob_lists h !!.)).
Arguments map_at : simpl never.
Arguments list_at : simpl never.

Definition alloc_err (o : errObj) (h : objects) : nat * objects :=
  let l := fresh (dom (ob_errs h)) in (l, mkObjects (<[l := o]> (ob_errs h)) (ob_maps h) (ob_lists h)).
Definition alloc_map (m : gmap string string) (h : objects) : ref * objects :=
  let l := fresh (dom (ob_maps h)) in (Some l, mkObjects (ob_errs h) (<[l := m]> (ob_maps h)) (ob_lists h)).
Definition alloc_list (vs : list FieldViolation) (h : objects) : ref * objects :=
  let l := fresh (dom (ob_lists h)) in (Some l, mkObjects (ob_errs h) (ob_maps h) (<[l := vs]> (ob_lists h))).

(** [maps.Clone], [slices.Clone] and [append]; nil stays nil. *)
Definition map_Clone (r : ref) (h : objects) : ref * objects :=
  match r with None => (None, h) | Some _ => alloc_map (map_at h r) h end.
Definition list_Clone (r : ref) (h : objects) : ref * objects :=
  match r with None => (None, h) | Some _ => alloc_list (list_at h r) h end.
Definition list_append (r : ref) (new : list FieldViolation) (h : objects) : ref * objects :=
  match new with [] => (r, h) | _ => alloc_list (list_at h r ++ new) h end.

(** ** construct.go *)

Definition obj_New (r : Reason) (m : string) (h : objects) : nat * objects :=
  let r' := if Registered r then r else ReasonInternal in
  let m' := if decide (m = "") then Description r' else m in
  alloc_err (mkErrObj r' m' None None 0 None) h.

(** The assignment [e.cause = cause]. *)
Definition set_cause (c : option eref) (o : errObj) : errObj :=
  mkErrObj (eo_reason o) (eo_message o) (eo_metadata o) (eo_violations o) (eo_retryAfter o) c.

Definition obj_Wrap (r : Reason) (c : option eref) (m : string) (h : objects) : nat * objects :=
  let '(l, h1) := obj_New r m h in
  (l, mkObjects (alter (set_cause c) l (ob_errs h1)) (ob_maps h1) (ob_lists h1)).

(** [clone]: the copy before it gets an address. [None] is the panic on a nil
    receiver. *)
Definition obj_clone (l : ref) (h : objects) : option (errObj * objects) :=
  l ← l;
  o ← ob_errs h !! l;
  let '(md, h1) := map_Clone (eo_metadata o) h in
  let '(vs, h2) := list_Clone (eo_violations o) h1 in
  Some (mkErrObj (eo_reason o) (eo_message o) md vs (eo_retryAfter o) (eo_cause o), h2).

(** [c.metadata[key] = value], in a new map when there is none. *)
Definition put_metadata (key value : string) (r : ref) (h : objects) : ref * objects :=
  let '(r', h1) := match r with None => alloc_map ∅ h | Some _ => (r, h) end in
  (r', mkObjects (ob_errs h1)
         (match r' with Some m => alter (<[key := value]>) m (ob_maps h1) | None => ob_maps h1 end)
         (ob_lists h1)).

Definition obj_WithMetadata (l : ref) (key value : string) (h : objects) : option (nat * objects) :=
  '(c, h1) ← obj_clone l h;
  let '(md, h2) := put_metadata key value (eo_metadata c) h1 in
  Some (alloc_err (mkErrObj (eo_reason c) (eo_message c) md (eo_violations c) (eo_retryAfter c) (eo_cause c)) h2).

(** [vs] is the slice of the variadic argument. *)
Definition obj_WithViolations (l : ref) (vs : ref) (h : objects) : option (nat * objects) :=
  '(c, h1) ← obj_clone l h;
  let '(vs', h2) := list_append (eo_violations c) (list_at h1 vs) h1 in
  Some (alloc_err (mkErrObj (eo_reason c) (eo_message c) (eo_metadata c) vs' (eo_retryAfter c) (eo_cause c)) h2).

Definition obj_WithRetryAfter (l : ref) (d : Z) (h : objects) : option (nat * objects) :=
  '(c, h1) ← obj_clone l h;
  Some (alloc_err (mkErrObj (eo_reason c) (eo_message c) (eo_metadata c) (eo_violations c) (Z.max d 0) (eo_cause c)) h1).

(** ** error.go: the accessors that return maps and slices *)

Definition obj_Metadata (l : ref) (h : objects) : option (ref * objects) :=
  l ← l; o ← ob_errs h !! l; Some (map_Clone (eo_metadata o) h).

Definition obj_Violations (l : ref) (h : objects) : option (ref * objects) :=
  l ← l; o ← ob_errs h !! l; Some (list_Clone (eo_violations o) h).

(** ** What an error says *)

(** The value of Kverr.v, following at most [n] links. *)
Fixpoint value_of (n : nat) (h : objects) (r : eref) : option error :=
  match n with
  | O => None
  | S n' =>
      match r with
      | RPtr l =>
          o ← ob_errs h !! l;
          c ← match eo_cause o with None => Some None | Some r' => Some <$> value_of n' h r' end;
          Some (kv (MkError (eo_reason o) (eo_message o) (map_at h (eo_metadata o))
                      (list_at h (eo_violations o)) (eo_retryAfter o) c))
      | RWrapf before r' after => (fun e => EWrapf before e after) <$> value_of n' h r'
      | RJoin rs => EJoin <$> mapM (value_of n' h) rs
      | ROther err => Some err
      end
  end.

Definition says (h : objects) (r : eref) (err : error) : Prop := exists n, value_of n h r = Some err.

(** ** Stores that keep their errors *)

(** Every error is the same object, with the same metadata and violations. *)
Definition stable (h h' : objects) : Prop :=
  forall l o, ob_errs h !! l = Some o ->
    ob_errs h' !! l = Some o /\ map_at h' (eo_metadata o) = map_at h (eo_metadata o)
    /\ list_at h' (eo_violations o) = list_at h (eo_violations o).

#[export] Instance stable_preorder : PreOrder stable.
Proof.
  split; [by intros h l o|]. intros h1 h2 h3 H1 H2 l o Ho. destruct (H1 l o Ho) as (Ho2 & Hm & Hl).
  destruct (H2 l o Ho2) as (? & Hm' & Hl'). split_and!; [done|congruence|congruence].
Qed.

Lemma value_of_stable n n' h h' r err :
  value_of n h r = Some err -> (n <= n')%nat -> stable h h' -> value_of n' h' r = Some err.
Proof.
  revert n' r err. induction n as [|n IH]; intros [|n'] r err Hv Hle Hs; try (done || lia); cbn in *.
  assert (n <= n')%nat as Hle' by lia. destruct r as [l|b r a|rs|e]; [| | |done].
  - destruct (ob_errs h !! l) as [o|] eqn:Ho; [|done]. destruct (Hs l o Ho) as (-> & Hm & Hl).
    cbn in *. rewrite Hm, Hl. destruct (eo_cause o) as [c|]; [|done].
    destruct (value_of n h c) as [e|] eqn:Hc; [|done]. by rewrite (IH n' c e Hc Hle' Hs).
  - destruct (value_of n h r) as [e|] eqn:Hr; [|done]. by rewrite (IH n' r e Hr Hle' Hs).
  - destruct (mapM (value_of n h) rs) as [es|] eqn:Hes; [|done]. apply mapM_Some in Hes.
    replace (mapM (value_of n' h') rs) with (Some es); [done|]. symmetry. apply mapM_Some.
    eapply Forall2_impl; [exact Hes|]. eauto.
Qed.

Lemma says_stable h h' r err : stable h h' -> says h r err -> says h' r err.
Proof. intros Hs [n Hn]. exists n. by eapply value_of_stable. Qed.

(** An error says one thing. *)
Lemma says_unique h r e e' : says h r e -> says h r e' -> e = e'.
Proof.
  intros [n Hn] [n' Hn']. apply (value_of_stable _ (n `max` n') h h) in Hn; [|lia|done].
  apply (value_of_stable _ (n `max` n') h h) in Hn'; [|lia|done]. congruence.
Qed.

(** What a pointer says, field by field. *)
Lemma says_ptr h l e :
  says h (RPtr l) (kv e) <-> exists o, ob_errs h !! l = Some o
    /\ eo_reason o = reason e /\ eo_message o = message e /\ map_at h (eo_metadata o) = metadata e
    /\ list_at h (eo_violations o) = violations e /\ eo_retryAfter o = retryAfter e
    /\ match eo_cause o, cause e with
       | None, None => True | Some r, Some c => says h r c | _, _ => False
       end.
Proof.
  split.
  - intros [[|n] Hn]; [done|]. cbn in Hn. destruct (ob_errs h !! l) as [o|] eqn:Ho; [|done]. cbn in Hn.
    exists o. destruct (eo_cause o) as [r|] eqn:Hc; cbn in Hn.
    + destruct (value_of n h r) as [c|] eqn:Hr; [|done]. injection Hn as <-. cbn. split_and!; try done. by exists n.
    + injection Hn as <-. by split_and!.
  - intros (o & Ho & Hr & Hm & Hmd & Hvs & Hd & Hc). destruct e as [r m md vs d c]. cbn in *. subst.
    destruct (eo_cause o) as [c'|] eqn:Hco, c as [c|]; try done.
    + destruct Hc as [n Hn]. exists (S n). cbn. rewrite Ho. cbn. by rewrite Hco, Hn.
    + exists 1%nat. cbn. rewrite Ho. cbn. by rewrite Hco.
Qed.

(** ** Allocation *)

Record extends (h h' : objects) : Prop := {
  ext_errs : ob_errs h ⊆ ob_errs h';
  ext_maps : ob_maps h ⊆ ob_maps h';
  ext_lists : ob_lists h ⊆ ob_lists h';
}.

#[export] Instance extends_preorder : PreOrder extends.
Proof. split; [by intros h|]. intros h1 h2 h3 [] []. split; by etrans. Qed.

(** A reference that is nil or new. *)
Definition new_map (h h' : objects) (r : ref) : Prop :=
  forall m, r = Some m -> m ∈ dom (ob_maps h') ∖ dom (ob_maps h).
Definition new_list (h h' : objects) (r : ref) : Prop :=
  forall v, r = Some v -> v ∈ dom (ob_lists h') ∖ dom (ob_lists h).

(** The maps and slices of errors exist, and the caller has none of them. *)
Record apart (h : objects) (maps lists : gset nat) : Prop := {
  apart_map l o m : ob_errs h !! l = Some o -> eo_metadata o = Some m -> m ∈ dom (ob_maps h) ∖ maps;
  apart_list l o v : ob_errs h !! l = Some o -> eo_violations o = Some v -> v ∈ dom (ob_lists h) ∖ lists;
  apart_maps : maps ⊆ dom (ob_maps h);
  apart_lists : lists ⊆ dom (ob_lists h);
}.

Lemma map_at_extends h h' m : extends h h' -> m ∈ dom (ob_maps h) -> map_at h' (Some m) = map_at h (Some m).
Proof.
  intros [_ Hm _] [x Hx]%elem_of_dom. unfold map_at. cbn. by rewrite Hx, (lookup_weaken _ _ _ _ Hx Hm).
Qed.

Lemma list_at_extends h h' v : extends h h' -> v ∈ dom (ob_lists h) -> list_at h' (Some v) = list_at h (Some v).
Proof.
  intros [_ _ Hl] [x Hx]%elem_of_dom. unfold list_at. cbn. by rewrite Hx, (lookup_weaken _ _ _ _ Hx Hl).
Qed.

Lemma extends_stable h h' maps lists : apart h maps lists -> extends h h' -> stable h h'.
Proof.
  intros Ha He l o Ho. split; [by eapply lookup_weaken, ext_errs|]. split.
  - destruct (eo_metadata o) as [m|] eqn:Hm; [|done]. apply map_at_extends; [done|].
    pose proof (apart_map _ _ _ Ha l o m Ho Hm). set_solver.
  - destruct (eo_violations o) as [v|] eqn:Hv; [|done]. apply list_at_extends; [done|].
    pose proof (apart_list _ _ _ Ha l o v Ho Hv). set_solver.
Qed.

Lemma map_Clone_spec r h r' h' :
  map_Clone r h = (r', h') ->
  extends h h' /\ new_map h h' r' /\ map_at h' r' = map_at h r
  /\ ob_errs h' = ob_errs h /\ ob_lists h' = ob_lists h.
Proof.
  destruct r as [m|]; cbn; [|by intros [= <- <-]]. unfold alloc_map.
  pose proof (is_fresh (dom (ob_maps h))) as Hf. intros [= <- <-]. split_and!; try done.
  - split; cbn; [done| |done]. by apply insert_subseteq, not_elem_of_dom.
  - intros x [= <-]. cbn. set_solver.
  - unfold map_at at 1. cbn. by rewrite lookup_insert_eq.
Qed.

Lemma list_new vs h r' h' :
  alloc_list vs h = (r', h') ->
  extends h h' /\ new_list h h' r' /\ list_at h' r' = vs
  /\ ob_errs h' = ob_errs h /\ ob_maps h' = ob_maps h.
Proof.
  unfold alloc_list. pose proof (is_fresh (dom (ob_lists h))) as Hf. intros [= <- <-]. split_and!; try done.
  - split; cbn; [done|done|]. by apply insert_subseteq, not_elem_of_dom.
  - intros x [= <-]. cbn. set_solver.
  - unfold list_at. cbn. by rewrite lookup_insert_eq.
Qed.

Lemma list_Clone_spec r h r' h' :
  list_Clone r h = (r', h') ->
  extends h h' /\ new_list h h' r' /\ list_at h' r' = list_at h r
  /\ ob_errs h' = ob_errs h /\ ob_maps h' = ob_maps h.
Proof. destruct r as [v|]; cbn; [apply list_new|by intros [= <- <-]]. Qed.

(** A copy of an error, not yet at an address: its own map and slice. *)
Record copied (h h1 : objects) (o c : errObj) : Prop := {
  cp_extends : extends h h1;
  cp_errs : ob_errs h1 = ob_errs h;
  cp_map : new_map h h1 (eo_metadata c);
  cp_list : new_list h h1 (eo_violations c);
  cp_metadata : map_at h1 (eo_metadata c) = map_at h (eo_metadata o);
  cp_violations : list_at h1 (eo_violations c) = list_at h (eo_violations o);
  cp_rest : eo_reason c = eo_reason o /\ eo_message c = eo_message o
    /\ eo_retryAfter c = eo_retryAfter o /\ eo_cause c = eo_cause o;
}.

Lemma new_map_later h h1 h2 r : new_map h h1 r -> extends h1 h2 -> new_map h h2 r.
Proof. intros Hn [_ Hm _] m Hr. pose proof (subseteq_dom _ _ Hm). specialize (Hn m Hr). set_solver. Qed.

Lemma new_list_later h h1 h2 r : new_list h h1 r -> extends h1 h2 -> new_list h h2 r.
Proof. intros Hn [_ _ Hl] v Hr. pose proof (subseteq_dom _ _ Hl). specialize (Hn v Hr). set_solver. Qed.

Lemma new_list_since h h1 h2 r : extends h h1 -> new_list h1 h2 r -> new_list h h2 r.
Proof. intros [_ _ Hl] Hn v Hr. pose proof (subseteq_dom _ _ Hl). specialize (Hn v Hr). set_solver. Qed.

Lemma new_map_at h h1 h2 r : new_map h h1 r -> extends h1 h2 -> map_at h2 r = map_at h1 r.
Proof. intros Hn He. destruct r as [m|]; [|done]. apply map_at_extends; [done|]. specialize (Hn m eq_refl). set_solver. Qed.

Lemma new_list_at h h1 h2 r : new_list h h1 r -> extends h1 h2 -> list_at h2 r = list_at h1 r.
Proof. intros Hn He. destruct r as [v|]; [|done]. apply list_at_extends; [done|]. specialize (Hn v eq_refl). set_solver. Qed.

Lemma clone_spec l h c h1 :
  obj_clone l h = Some (c, h1) ->
  exists l0 o, l = Some l0 /\ ob_errs h !! l0 = Some o /\ copied h h1 o c.
Proof.
  unfold obj_clone. destruct l as [l|]; [|done]. cbn. destruct (ob_errs h !! l) as [o|] eqn:Ho; [|done]. cbn.
  destruct (map_Clone (eo_metadata o) h) as [md h2] eqn:Hm. destruct (list_Clone (eo_violations o) h2) as [vs h3] eqn:Hl.
  intros [= <- <-]. exists l, o. split_and!; [done..|].
  apply map_Clone_spec in Hm as (He2 & Hn2 & Hr2 & Her2 & Hls2).
  apply list_Clone_spec in Hl as (He3 & Hn3 & Hr3 & Her3 & _).
  split; cbn; [by etrans|congruence|by eapply new_map_later|by eapply new_list_since| | |done].
  - by rewrite (new_map_at h h2 h3).
  - rewrite Hr3. unfold list_at. by rewrite Hls2.
Qed.

(** A new error object whose map and slice are its own. *)
Lemma alloc_apart h h1 maps lists o l h2 :
  apart h maps lists -> extends h h1 -> ob_errs h1 = ob_errs h ->
  new_map h h1 (eo_metadata o) -> new_list h h1 (eo_violations o) -> alloc_err o h1 = (l, h2) ->
  apart h2 maps lists /\ extends h h2 /\ ob_errs h2 !! l = Some o
  /\ (forall r, map_at h2 r = map_at h1 r) /\ (forall r, list_at h2 r = list_at h1 r).
Proof.
  intros Ha He Her Hm Hl. unfold alloc_err. pose proof (is_fresh (dom (ob_errs h1))) as Hf.
  intros [= <- <-]. pose proof (subseteq_dom _ _ (ext_maps _ _ He)) as Hdm.
  pose proof (subseteq_dom _ _ (ext_lists _ _ He)) as Hdl. split_and!; try done.
  - split; cbn; [| |pose proof (apart_maps _ _ _ Ha); set_solver|pose proof (apart_lists _ _ _ Ha); set_solver].
    + intros l' o' m [[_ <-]|[_ Ho]]%lookup_insert_Some Hm'.
      * specialize (Hm m Hm'). pose proof (apart_maps _ _ _ Ha). set_solver.
      * rewrite Her in Ho. pose proof (apart_map _ _ _ Ha l' o' m Ho Hm'). set_solver.
    + intros l' o' v [[_ <-]|[_ Ho]]%lookup_insert_Some Hv'.
      * specialize (Hl v Hv'). pose proof (apart_lists _ _ _ Ha). set_solver.
      * rewrite Her in Ho. pose proof (apart_list _ _ _ Ha l' o' v Ho Hv'). set_solver.
  - etrans; [exact He|]. split; cbn; [|done|done]. by apply insert_subseteq, not_elem_of_dom.
  - cbn. by rewrite lookup_insert_eq.
Qed.

Lemma put_metadata_spec h h1 key value r r' h2 :
  extends h h1 -> new_map h h1 r -> put_metadata key value r h1 = (r', h2) ->
  extends h h2 /\ new_map h h2 r' /\ map_at h2 r' = <[key := value]> (map_at h1 r)
  /\ ob_errs h2 = ob_errs h1 /\ ob_lists h2 = ob_lists h1.
Proof.
  intros He Hn. unfold put_metadata.
  assert (exists m h1', (match r with None => alloc_map ∅ h1 | Some _ => (r, h1) end) = (Some m, h1')
    /\ extends h h1' /\ m ∈ dom (ob_maps h1') ∖ dom (ob_maps h) /\ map_at h1' (Some m) = map_at h1 r
    /\ ob_errs h1' = ob_errs h1 /\ ob_lists h1' = ob_lists h1) as (m & h1' & -> & He' & Hm & Hat & Hee & Hll).
  { destruct r as [m|]; [exists m, h1; split_and!; try done; by apply Hn|].
    unfold alloc_map. pose proof (is_fresh (dom (ob_maps h1))) as Hf. do 2 eexists. split; [done|]. cbn.
    pose proof (subseteq_dom _ _ (ext_maps _ _ He)) as Hd. split_and!; try done.
    - etrans; [exact He|]. split; cbn; [done| |done]. by apply insert_subseteq, not_elem_of_dom.
    - set_solver.
    - unfold map_at. cbn. by rewrite lookup_insert_eq. }
  intros [= <- <-]. apply elem_of_difference in Hm as [[x Hx]%elem_of_dom Hm]. split_and!; cbn; try done.
  - destruct He' as [He1 He2 He3]. split; cbn; [done| |done]. apply map_subseteq_spec. intros m' y Hy.
    rewrite lookup_alter_ne; [by eapply lookup_weaken|]. intros ->. apply Hm. apply elem_of_dom. by exists y.
  - intros m' [= <-]. rewrite elem_of_difference, elem_of_dom. cbn. rewrite lookup_alter_eq, Hx. by split; [eexists|].
  - rewrite <- Hat. unfold map_at. cbn. by rewrite lookup_alter_eq, Hx.
Qed.

(** Setting the cause of a new error is making it with that cause. *)
Lemma cause_alloc c o h :
  (let '(l, h1) := alloc_err o h in
   (l, mkObjects (alter (set_cause c) l (ob_errs h1)) (ob_maps h1) (ob_lists h1))) = alloc_err (set_cause c o) h.
Proof. unfold alloc_err. cbn [ob_errs ob_maps ob_lists]. by rewrite alter_insert_eq. Qed.

(** ** What each method does *)

Section methods.
Context (h : objects) (maps lists : gset nat) (Ha : apart h maps lists).

(** A new object [o] says [e], and nothing else changed. *)
Definition returns (l : nat) (h' : objects) (e : Error) : Prop :=
  apart h' maps lists /\ extends h h' /\ says h' (RPtr l) (kv e).

(** The copy of [e] with some fields replaced, at an address. *)
Lemma returns_copy h1 l0 o c l h2 e md vs d :
  alloc_err c h1 = (l, h2) -> says h (RPtr l0) (kv e) -> ob_errs h !! l0 = Some o ->
  extends h h1 -> ob_errs h1 = ob_errs h -> new_map h h1 (eo_metadata c) -> new_list h h1 (eo_violations c) ->
  eo_reason c = eo_reason o -> eo_message c = eo_message o -> eo_cause c = eo_cause o ->
  map_at h1 (eo_metadata c) = md -> list_at h1 (eo_violations c) = vs -> eo_retryAfter c = d ->
  returns l h2 (MkError (reason e) (message e) md vs d (cause e)).
Proof.
  intros Hal Hs Ho He Her Hnm Hnl Hr Hm Hc <- <- <-.
  destruct (alloc_apart _ _ _ _ _ _ _ Ha He Her Hnm Hnl Hal) as (Ha2 & He2 & Hl & Hmap & Hlist).
  split_and!; [done..|]. apply says_ptr in Hs as (o' & Ho' & Hro & Hmo & _ & _ & _ & Hco).
  rewrite Ho in Ho'. injection Ho' as <-. apply says_ptr. exists c. cbn. split_and!; try congruence; try done.
  rewrite Hc. destruct (eo_cause o) as [r|], (cause e) as [ce|]; try done.
  eapply says_stable; [|exact Hco]. by eapply extends_stable.
Qed.

Lemma New_returns r m l h' : obj_New r m h = (l, h') -> returns l h' (New r m).
Proof.
  intros Hn. edestruct (alloc_apart h h maps lists) as (Ha2 & He2 & Hl & _); [done|done|done| | |exact Hn|];
    [done..|].
  split_and!; [done..|]. apply says_ptr. eexists. split; [exact Hl|]. unfold New. by split_and!.
Qed.

Lemma Wrap_returns r c ce m l h' :
  match c, ce with None, None => True | Some c, Some ce => says h c ce | _, _ => False end ->
  obj_Wrap r c m h = (l, h') -> returns l h' (Wrap r ce m).
Proof.
  intros Hc Hw. unfold obj_Wrap, obj_New in Hw. rewrite cause_alloc in Hw.
  edestruct (alloc_apart h h maps lists) as (Ha2 & He2 & Hl & _); [done|done|done| | |exact Hw|]; [done..|].
  split_and!; [done..|]. apply says_ptr. eexists. split; [exact Hl|]. unfold Wrap, New. cbn.
  split_and!; try done. destruct c, ce; try done. eapply says_stable; [|exact Hc]. by eapply extends_stable.
Qed.

Lemma WithMetadata_returns l0 e key value l h' :
  says h (RPtr l0) (kv e) -> obj_WithMetadata (Some l0) key value h = Some (l, h') ->
  returns l h' (WithMetadata e key value).
Proof.
  intros Hs. unfold obj_WithMetadata. destruct (obj_clone (Some l0) h) as [[c h1]|] eqn:Hc; [|done]. cbn.
  apply clone_spec in Hc as (? & o & [= <-] & Ho & [He Her Hnm Hnl Hmd Hvs (Hr & Hm & Hd & Hca)]).
  destruct (put_metadata key value (eo_metadata c) h1) as [md h2] eqn:Hp. intros Hal%(inj Some).
  destruct (put_metadata_spec _ _ _ _ _ _ _ He Hnm Hp) as (He2 & Hn2 & Hat & Her2 & Hll).
  apply says_ptr in Hs as Hs'. destruct Hs' as (o' & Ho' & _ & _ & Hmo & Hvo & Hdo & _).
  rewrite Ho in Ho'. injection Ho' as <-.
  assert (WithMetadata e key value = MkError (reason e) (message e) (<[key := value]> (metadata e))
    (violations e) (retryAfter e) (cause e)) as -> by (by destruct e).
  refine (returns_copy h2 l0 o _ l h' e _ _ _ Hal Hs Ho He2 _ Hn2 _ _ _ _ _ _ _); cbn; try congruence.
  - intros v Hv. specialize (Hnl v Hv). by rewrite Hll.
  - unfold list_at. rewrite Hll. fold (list_at h1 (eo_violations c)). by rewrite Hvs.
Qed.

Lemma WithViolations_returns l0 e vs l h' :
  says h (RPtr l0) (kv e) -> (forall v, vs = Some v -> v ∈ lists) ->
  obj_WithViolations (Some l0) vs h = Some (l, h') -> returns l h' (WithViolations e (list_at h vs)).
Proof.
  intros Hs Hk. unfold obj_WithViolations. destruct (obj_clone (Some l0) h) as [[c h1]|] eqn:Hc; [|done]. cbn.
  apply clone_spec in Hc as (? & o & [= <-] & Ho & [He Her Hnm Hnl Hmd Hvs (Hr & Hm & Hd & Hca)]).
  assert (list_at h1 vs = list_at h vs) as ->.
  { destruct vs as [v|]; [|done]. apply list_at_extends; [done|]. by apply (apart_lists _ _ _ Ha), Hk. }
  destruct (list_append (eo_violations c) (list_at h vs) h1) as [vs' h2] eqn:Hp. intros Hal%(inj Some).
  assert (extends h1 h2 /\ new_list h h2 vs' /\ list_at h2 vs' = list_at h1 (eo_violations c) ++ list_at h vs
    /\ ob_errs h2 = ob_errs h1 /\ ob_maps h2 = ob_maps h1) as (He2 & Hn2 & Hat & Her2 & Hmm).
  { unfold list_append in Hp. destruct (list_at h vs) as [|x new].
    - injection Hp as <- <-. rewrite app_nil_r. by split_and!.
    - apply list_new in Hp as (He2 & Hn2 & Hat & ? & ?). split_and!; try done. by eapply new_list_since. }
  apply says_ptr in Hs as Hs'. destruct Hs' as (o' & Ho' & _ & _ & Hmo & Hvo & Hdo & _).
  rewrite Ho in Ho'. injection Ho' as <-.
  assert (WithViolations e (list_at h vs) = MkError (reason e) (message e) (metadata e)
    (violations e ++ list_at h vs) (retryAfter e) (cause e)) as -> by (by destruct e).
  refine (returns_copy h2 l0 o _ l h' e _ _ _ Hal Hs Ho (transitivity He He2) _ _ Hn2 _ _ _ _ _ _); cbn;
    try congruence.
  - by eapply new_map_later.
  - by rewrite (new_map_at h h1 h2), Hmd.
Qed.

Lemma WithRetryAfter_returns l0 e d l h' :
  says h (RPtr l0) (kv e) -> obj_WithRetryAfter (Some l0) d h = Some (l, h') ->
  returns l h' (WithRetryAfter e d).
Proof.
  intros Hs. unfold obj_WithRetryAfter. destruct (obj_clone (Some l0) h) as [[c h1]|] eqn:Hc; [|done]. cbn.
  apply clone_spec in Hc as (? & o & [= <-] & Ho & [He Her Hnm Hnl Hmd Hvs (Hr & Hm & Hd & Hca)]).
  intros Hal%(inj Some). apply says_ptr in Hs as Hs'. destruct Hs' as (o' & Ho' & _ & _ & Hmo & Hvo & _).
  rewrite Ho in Ho'. injection Ho' as <-.
  assert (WithRetryAfter e d = MkError (reason e) (message e) (metadata e) (violations e) (Z.max d 0) (cause e))
    as -> by (by destruct e).
  refine (returns_copy h1 l0 o _ l h' e _ _ _ Hal Hs Ho He _ _ _ _ _ _ _ _ _); cbn; congruence || done.
Qed.

(** The accessors hand out copies. *)
Lemma Metadata_copies l0 e r h' :
  says h (RPtr l0) (kv e) -> obj_Metadata (Some l0) h = Some (r, h') ->
  map_at h' r = metadata e /\ extends h h' /\ new_map h h' r /\ ob_errs h' = ob_errs h /\ ob_lists h' = ob_lists h.
Proof.
  intros (o & Ho & _ & _ & Hm & _)%says_ptr. unfold obj_Metadata. cbn. rewrite Ho. cbn.
  intros Hc%(inj Some). apply map_Clone_spec in Hc as (? & ? & ? & ? & ?). split_and!; try done. congruence.
Qed.

Lemma Violations_copies l0 e r h' :
  says h (RPtr l0) (kv e) -> obj_Violations (Some l0) h = Some (r, h') ->
  list_at h' r = violations e /\ extends h h' /\ new_list h h' r /\ ob_errs h' = ob_errs h /\ ob_maps h' = ob_maps h.
Proof.
  intros (o & Ho & _ & _ & _ & Hv & _)%says_ptr. unfold obj_Violations. cbn. rewrite Ho. cbn.
  intros Hc%(inj Some). apply list_Clone_spec in Hc as (? & ? & ? & ? & ?). split_and!; try done. congruence.
Qed.

(** A pointer to an error never panics. *)
Lemma methods_total l0 e k v vs d :
  says h (RPtr l0) (kv e) ->
  is_Some (obj_WithMetadata (Some l0) k v h) /\ is_Some (obj_WithViolations (Some l0) vs h)
  /\ is_Some (obj_WithRetryAfter (Some l0) d h) /\ is_Some (obj_Metadata (Some l0) h)
  /\ is_Some (obj_Violations (Some l0) h).
Proof.
  intros (o & Ho & _)%says_ptr. unfold obj_WithMetadata, obj_WithViolations, obj_WithRetryAfter, obj_Metadata,
    obj_Violations, obj_clone. cbn. rewrite Ho. cbn.
  destruct (map_Clone (eo_metadata o) h) as [md h1], (list_Clone (eo_violations o) h1) as [vs1 h2]. cbn.
  destruct (put_metadata _ _ _ _), (list_append _ _ _). by split_and!.
Qed.
End methods.

(** ** Callers *)

(** The store, and the maps and slices a caller made or was given. *)
Record holder := mkHolder { ho_objs : objects; ho_maps : gset nat; ho_lists : gset nat }.

Definition locs (r : ref) : gset nat := match r with Some l => {[l]} | None => ∅ end.
Definition with_objs (c : holder) (h : objects) : holder := mkHolder h (ho_maps c) (ho_lists c).
Definition write_map (m : nat) (new : gmap string string) (h : objects) : objects :=
  mkObjects (ob_errs h) (<[m := new]> (ob_maps h)) (ob_lists h).
Definition write_list (v : nat) (new : list FieldViolation) (h : objects) : objects :=
  mkObjects (ob_errs h) (ob_maps h) (<[v := new]> (ob_lists h)).

Inductive holder_step (c : holder) : holder -> Prop :=
| hs_New r m l h : obj_New r m (ho_objs c) = (l, h) -> holder_step c (with_objs c h)
| hs_Wrap r cause ce m l h :
    match cause, ce with None, None => True | Some x, Some e => says (ho_objs c) x e | _, _ => False end ->
    obj_Wrap r cause m (ho_objs c) = (l, h) -> holder_step c (with_objs c h)
| hs_WithMetadata l k v l' h :
    obj_WithMetadata l k v (ho_objs c) = Some (l', h) -> holder_step c (with_objs c h)
| hs_WithViolations l vs l' h :
    locs vs ⊆ ho_lists c -> obj_WithViolations l vs (ho_objs c) = Some (l', h) -> holder_step c (with_objs c h)
| hs_WithRetryAfter l d l' h :
    obj_WithRetryAfter l d (ho_objs c) = Some (l', h) -> holder_step c (with_objs c h)
| hs_Metadata l r h :
    obj_Metadata l (ho_objs c) = Some (r, h) -> holder_step c (mkHolder h (locs r ∪ ho_maps c) (ho_lists c))
| hs_Violations l r h :
    obj_Violations l (ho_objs c) = Some (r, h) -> holder_step c (mkHolder h (ho_maps c) (locs r ∪ ho_lists c))
| hs_make_list vs r h :
    alloc_list vs (ho_objs c) = (r, h) -> holder_step c (mkHolder h (ho_maps c) (locs r ∪ ho_lists c))
| hs_write_map m new : m ∈ ho_maps c -> holder_step c (with_objs c (write_map m new (ho_objs c)))
| hs_write_list v new : v ∈ ho_lists c -> holder_step c (with_objs c (write_list v new (ho_objs c))).

Definition no_objects : holder := mkHolder (mkObjects ∅ ∅ ∅) ∅ ∅.
Definition holder_reachable (c : holder) : Prop := rtc holder_step no_objects c.

(** Every object is an error, and shares nothing with the caller. *)
Definition errors_inv (c : holder) : Prop :=
  apart (ho_objs c) (ho_maps c) (ho_lists c)
  /\ forall l o, ob_errs (ho_objs c) !! l = Some o -> exists e, says (ho_objs c) (RPtr l) (kv e).

(** One more error. *)
Lemma inv_returns c l h e :
  errors_inv c -> returns (ho_objs c) (ho_maps c) (ho_lists c) l h e ->
  (forall l' o, ob_errs h !! l' = Some o -> l' = l \/ is_Some (ob_errs (ho_objs c) !! l')) ->
  errors_inv (with_objs c h) /\ stable (ho_objs c) h.
Proof.
  intros [Ha Hall] (Ha' & He & Hs) Honly. pose proof (extends_stable _ _ _ _ Ha He) as Hst.
  split; [|done]. split; [done|]. intros l' o Ho. destruct (Honly l' o Ho) as [->|[o' Ho']]; [by exists e|].
  destruct (Hall l' o' Ho') as [e' He']. exists e'. by eapply says_stable.
Qed.

(** New maps and slices, for the caller. *)
Lemma inv_gives c h maps lists :
  errors_inv c -> extends (ho_objs c) h -> ob_errs h = ob_errs (ho_objs c) ->
  maps ⊆ ho_maps c ∪ (dom (ob_maps h) ∖ dom (ob_maps (ho_objs c))) ->
  lists ⊆ ho_lists c ∪ (dom (ob_lists h) ∖ dom (ob_lists (ho_objs c))) ->
  errors_inv (mkHolder h maps lists) /\ stable (ho_objs c) h.
Proof.
  intros [Ha Hall] He Her Hm Hl. pose proof (extends_stable _ _ _ _ Ha He) as Hst. split; [|done].
  pose proof (subseteq_dom _ _ (ext_maps _ _ He)) as Hdm. pose proof (subseteq_dom _ _ (ext_lists _ _ He)) as Hdl.
  pose proof (apart_maps _ _ _ Ha) as Hkm. pose proof (apart_lists _ _ _ Ha) as Hkl.
  split; [split; cbn; [| |set_solver|set_solver]|]; cbn; rewrite Her.
  - intros l o m Ho Hmd. pose proof (apart_map _ _ _ Ha l o m Ho Hmd). set_solver.
  - intros l o v Ho Hvs. pose proof (apart_list _ _ _ Ha l o v Ho Hvs). set_solver.
  - intros l o Ho. destruct (Hall l o Ho) as [e Hs]. exists e. by eapply says_stable.
Qed.

(** A write of the caller. *)
Lemma inv_writes c h :
  errors_inv c -> ob_errs h = ob_errs (ho_objs c) ->
  dom (ob_maps h) = dom (ob_maps (ho_objs c)) -> dom (ob_lists h) = dom (ob_lists (ho_objs c)) ->
  (forall m, m ∉ ho_maps c -> ob_maps h !! m = ob_maps (ho_objs c) !! m) ->
  (forall v, v ∉ ho_lists c -> ob_lists h !! v = ob_lists (ho_objs c) !! v) ->
  errors_inv (with_objs c h) /\ stable (ho_objs c) h.
Proof.
  intros [Ha Hall] Her Hdm Hdl Hm Hl.
  assert (stable (ho_objs c) h) as Hst.
  { intros l o Ho. rewrite Her. split; [done|]. split.
    - destruct (eo_metadata o) as [m|] eqn:Hmd; [|done]. pose proof (apart_map _ _ _ Ha l o m Ho Hmd).
      unfold map_at. cbn. rewrite Hm; [done|set_solver].
    - destruct (eo_violations o) as [v|] eqn:Hvs; [|done]. pose proof (apart_list _ _ _ Ha l o v Ho Hvs).
      unfold list_at. cbn. rewrite Hl; [done|set_solver]. }
  split; [|done]. destruct Ha as [Ha1 Ha2 Ha3 Ha4]. split; [split; cbn; rewrite ?Her, ?Hdm, ?Hdl; done|].
  cbn. rewrite Her. intros l o Ho. destruct (Hall l o Ho) as [e Hs]. exists e. by eapply says_stable.
Qed.

(** An allocated error is the only new one. *)
Lemma alloc_err_only o h l h' l' o' :
  alloc_err o h = (l, h') -> ob_errs h' !! l' = Some o' -> l' = l \/ is_Some (ob_errs h !! l').
Proof.
  unfold alloc_err. intros [= <- <-]. cbn [ob_errs].
  intros [[? _]|[_ ?]]%lookup_insert_Some; [by left|right; eauto].
Qed.

(** The object a method was called on. *)
Lemma clone_says c l o h1 :
  errors_inv c -> obj_clone l (ho_objs c) = Some (o, h1) ->
  exists l0 e, l = Some l0 /\ says (ho_objs c) (RPtr l0) (kv e) /\ ob_errs h1 = ob_errs (ho_objs c).
Proof.
  intros [_ Hall] (l0 & o0 & -> & Ho & Hcp)%clone_spec. destruct (Hall l0 o0 Ho) as [e He].
  exists l0, e. split_and!; [done|done|apply Hcp].
Qed.

Lemma put_metadata_errs key value r h r' h' : put_metadata key value r h = (r', h') -> ob_errs h' = ob_errs h.
Proof. unfold put_metadata. destruct r; cbn; by intros [= <- <-]. Qed.

Lemma list_append_errs r new h r' h' : list_append r new h = (r', h') -> ob_errs h' = ob_errs h.
Proof. unfold list_append. destruct new; cbn; by intros [= <- <-]. Qed.

(** The With methods, on whatever the invariant covers. *)
Section with_methods.
Context (c : holder) (Hinv : errors_inv c).

Lemma step_WithMetadata l k v l' h :
  obj_WithMetadata l k v (ho_objs c) = Some (l', h) -> errors_inv (with_objs c h) /\ stable (ho_objs c) h.
Proof.
  intros Hw. pose proof Hw as Hw'. unfold obj_WithMetadata in Hw.
  destruct (obj_clone l (ho_objs c)) as [[o h1]|] eqn:Hc; [|done].
  destruct (clone_says c l o h1 Hinv Hc) as (l0 & e & -> & Hs & Her). cbn in Hw.
  destruct (put_metadata k v (eo_metadata o) h1) as [md h2] eqn:Hp. apply (inj Some) in Hw.
  eapply inv_returns; [done|eapply WithMetadata_returns; [apply Hinv|done|done]|].
  intros l1 o1 Ho1. destruct (alloc_err_only _ _ _ _ _ _ Hw Ho1) as [?|Hin]; [by left|right].
  by rewrite (put_metadata_errs _ _ _ _ _ _ Hp), Her in Hin.
Qed.

Lemma step_WithViolations l vs l' h :
  locs vs ⊆ ho_lists c -> obj_WithViolations l vs (ho_objs c) = Some (l', h) ->
  errors_inv (with_objs c h) /\ stable (ho_objs c) h.
Proof.
  intros Hvs Hw. pose proof Hw as Hw'. unfold obj_WithViolations in Hw.
  destruct (obj_clone l (ho_objs c)) as [[o h1]|] eqn:Hc; [|done].
  destruct (clone_says c l o h1 Hinv Hc) as (l0 & e & -> & Hs & Her). cbn in Hw.
  destruct (list_append (eo_violations o) (list_at h1 vs) h1) as [vs' h2] eqn:Hp. apply (inj Some) in Hw.
  eapply inv_returns; [done|eapply WithViolations_returns; [apply Hinv|done| |done]|].
  - intros v ->. cbn in Hvs. set_solver.
  - intros l1 o1 Ho1. destruct (alloc_err_only _ _ _ _ _ _ Hw Ho1) as [?|Hin]; [by left|right].
    by rewrite (list_append_errs _ _ _ _ _ Hp), Her in Hin.
Qed.

Lemma step_WithRetryAfter l d l' h :
  obj_WithRetryAfter l d (ho_objs c) = Some (l', h) -> errors_inv (with_objs c h) /\ stable (ho_objs c) h.
Proof.
  intros Hw. pose proof Hw as Hw'. unfold obj_WithRetryAfter in Hw.
  destruct (obj_clone l (ho_objs c)) as [[o h1]|] eqn:Hc; [|done].
  destruct (clone_says c l o h1 Hinv Hc) as (l0 & e & -> & Hs & Her). cbn in Hw. apply (inj Some) in Hw.
  eapply inv_returns; [done|eapply WithRetryAfter_returns; [apply Hinv|done|done]|].
  intros l1 o1 Ho1. destruct (alloc_err_only _ _ _ _ _ _ Hw Ho1) as [?|Hin]; [by left|right]. by rewrite Her in Hin.
Qed.
End with_methods.

(** The copies an accessor makes are the caller's. *)
Lemma step_Metadata c l r h :
  errors_inv c -> obj_Metadata l (ho_objs c) = Some (r, h) ->
  errors_inv (mkHolder h (locs r ∪ ho_maps c) (ho_lists c)) /\ stable (ho_objs c) h.
Proof.
  intros Hinv Hm. pose proof Hm as Hm'. unfold obj_Metadata in Hm. destruct l as [l|]; [|done]. cbn in Hm.
  destruct (ob_errs (ho_objs c) !! l) as [o|] eqn:Ho; [|done]. destruct (proj2 Hinv l o Ho) as [e He].
  destruct (Metadata_copies _ l e r h He Hm') as (_ & Hex & Hnew & Her & _).
  apply inv_gives; [done|done|done| |set_solver]. destruct r as [m|]; cbn; [|set_solver].
  specialize (Hnew m eq_refl). set_solver.
Qed.

Lemma gives_list c r h :
  errors_inv c -> extends (ho_objs c) h -> new_list (ho_objs c) h r -> ob_errs h = ob_errs (ho_objs c) ->
  errors_inv (mkHolder h (ho_maps c) (locs r ∪ ho_lists c)) /\ stable (ho_objs c) h.
Proof.
  intros Hinv Hex Hnew Her. apply inv_gives; [done|done|done|set_solver|].
  destruct r as [v|]; cbn; [|set_solver]. specialize (Hnew v eq_refl). set_solver.
Qed.

Lemma step_Violations c l r h :
  errors_inv c -> obj_Violations l (ho_objs c) = Some (r, h) ->
  errors_inv (mkHolder h (ho_maps c) (locs r ∪ ho_lists c)) /\ stable (ho_objs c) h.
Proof.
  intros Hinv Hm. pose proof Hm as Hm'. unfold obj_Violations in Hm. destruct l as [l|]; [|done]. cbn in Hm.
  destruct (ob_errs (ho_objs c) !! l) as [o|] eqn:Ho; [|done]. destruct (proj2 Hinv l o Ho) as [e He].
  destruct (Violations_copies _ l e r h He Hm') as (_ & Hex & Hnew & Her & _). by apply gives_list.
Qed.

Lemma insert_other {A} (m : gmap nat A) (k : nat) (x : A) (ks : gset nat) (j : nat) :
  k ∈ ks -> j ∉ ks -> <[k := x]> m !! j = m !! j.
Proof. intros ??. apply lookup_insert_ne. set_solver. Qed.

Lemma holder_step_inv c c' :
  holder_step c c' -> errors_inv c -> errors_inv c' /\ stable (ho_objs c) (ho_objs c').
Proof.
  intros Hs Hinv. destruct Hs as [r m l h Hn|r ca ce m l h Hca Hw|l k v l' h Hw|l vs l' h Hvs Hw|l d l' h Hw
    |l r h Hm|l r h Hm|vs r h Hm|m new Hm|v new Hv].
  - eapply inv_returns; [done|eapply New_returns; [apply Hinv|done]|].
    intros l1 o1. by apply (alloc_err_only _ _ _ _ _ _ Hn).
  - eapply inv_returns; [done|eapply Wrap_returns; [apply Hinv|done|done]|].
    unfold obj_Wrap, obj_New in Hw. rewrite cause_alloc in Hw. intros l1 o1. by apply (alloc_err_only _ _ _ _ _ _ Hw).
  - by eapply step_WithMetadata.
  - by eapply step_WithViolations.
  - by eapply step_WithRetryAfter.
  - by eapply step_Metadata.
  - by eapply step_Violations.
  - apply list_new in Hm as (Hex & Hnew & _ & Her & _). by apply gives_list.
  - pose proof (apart_maps _ _ _ (proj1 Hinv)). apply inv_writes; cbn; try done; [set_solver|].
    intros m' Hm'. by eapply insert_other.
  - pose proof (apart_lists _ _ _ (proj1 Hinv)). apply inv_writes; cbn; try done; [set_solver|].
    intros v' Hv'. by eapply insert_other.
Qed.

Lemma holder_run_inv c c' :
  rtc holder_step c c' -> errors_inv c -> errors_inv c' /\ stable (ho_objs c) (ho_objs c').
Proof.
  induction 1 as [c|c c1 c' Hs _ IH]; intros Hinv; [done|]. destruct (holder_step_inv c c1 Hs Hinv) as [Hinv1 Hst].
  destruct (IH Hinv1) as [? ?]. split; [done|by etrans].
Qed.

Lemma no_objects_inv : errors_inv no_objects.
Proof. split; [split|]; cbn; try done; set_solver. Qed.

Lemma reachable_inv c : holder_reachable c -> errors_inv c.
Proof. intros Hr. by apply (holder_run_inv no_objects c Hr), no_objects_inv. Qed.

(** ** Errors as values *)

(** The methods called on a pointer return pointers that say what the functions
    of Kverr.v return, and copies of the metadata and the violations. *)
Definition value_methods (h : objects) (lists : gset nat) (l : nat) (e : Error) : Prop :=
  (forall k v, exists l' h', obj_WithMetadata (Some l) k v h = Some (l', h')
    /\ says h' (RPtr l') (kv (WithMetadata e k v)))
  /\ (forall vs, locs vs ⊆ lists -> exists l' h', obj_WithViolations (Some l) vs h = Some (l', h')
    /\ says h' (RPtr l') (kv (WithViolations e (list_at h vs))))
  /\ (forall d, exists l' h', obj_WithRetryAfter (Some l) d h = Some (l', h')
    /\ says h' (RPtr l') (kv (WithRetryAfter e d)))
  /\ (exists r h', obj_Metadata (Some l) h = Some (r, h') /\ map_at h' r = metadata e)
  /\ (exists r h', obj_Violations (Some l) h = Some (r, h') /\ list_at h' r = violations e).

Lemma methods_say_values h maps lists l e :
  apart h maps lists -> says h (RPtr l) (kv e) -> value_methods h lists l e.
Proof.
  intros Ha Hs. pose proof (fun k v vs d => methods_total h l e k v vs d Hs) as Ht. split_and!.
  - intros k v. destruct (Ht k v None 0%Z) as [[[l' h'] Hm] _]. exists l', h'. split; [done|].
    by eapply WithMetadata_returns.
  - intros vs Hvs. destruct (Ht "" "" vs 0%Z) as (_ & [[l' h'] Hm] & _). exists l', h'. split; [done|].
    eapply WithViolations_returns; [done|done| |done]. intros v ->. cbn in Hvs. set_solver.
  - intros d. destruct (Ht "" "" None d) as (_ & _ & [[l' h'] Hm] & _). exists l', h'. split; [done|].
    by eapply WithRetryAfter_returns.
  - destruct (Ht "" "" None 0%Z) as (_ & _ & _ & [[r h'] Hm] & _). exists r, h'. split; [done|].
    by eapply Metadata_copies.
  - destruct (Ht "" "" None 0%Z) as (_ & _ & _ & _ & [[r h'] Hm]). exists r, h'. split; [done|].
    by eapply Violations_copies.
Qed.

(** C20: errors are values. After any calls, every error pointer says one value of
    Kverr.v; whatever is called afterwards and whatever callers write into the
    maps and slices they passed or received, it goes on saying that value. New and
    Wrap, and on every error pointer WithMetadata, WithViolations and
    WithRetryAfter, return new pointers that say what the functions of Kverr.v
    compute, Metadata and Violations return the error's content, and none of them
    panics. *)
Theorem errors_immutable (c c' : holder) (Hc : holder_reachable c) (Hrun : rtc holder_step c c') :
  (forall l o, ob_errs (ho_objs c) !! l = Some o ->
     exists e, says (ho_objs c) (RPtr l) (kv e) /\ value_methods (ho_objs c) (ho_lists c) l e)
  /\ (forall r e, says (ho_objs c) r e -> forall e', says (ho_objs c') r e' <-> e' = e)
  /\ (forall r m l h, obj_New r m (ho_objs c) = (l, h) -> says h (RPtr l) (kv (New r m)))
  /\ (forall r x e m l h, says (ho_objs c) x e -> obj_Wrap r (Some x) m (ho_objs c) = (l, h) ->
        says h (RPtr l) (kv (Wrap r (Some e) m))).
Proof.
  pose proof (reachable_inv c Hc) as Hinv. destruct (holder_run_inv c c' Hrun Hinv) as [_ Hst]. split_and!.
  - intros l o Ho. destruct (proj2 Hinv l o Ho) as [e He]. exists e. split; [done|].
    by eapply methods_say_values; [apply Hinv|].
  - intros r e Hs e'. pose proof (says_stable _ _ _ _ Hst Hs) as Hs'. split; [by intros; eapply says_unique|by intros ->].
  - intros r m l h Hn. by eapply New_returns; [apply Hinv|].
  - intros r x e m l h Hx Hw. eapply (Wrap_returns _ _ _ (proj1 Hinv) r (Some x) (Some e)); done.
Qed.

(** A sentinel, a copy of it with metadata, and what its Metadata returned. *)
Definition scene1 : holder := with_objs no_objects (obj_New ReasonNotLeader "not the leader" (ho_objs no_objects)).2.
Definition scene2 : holder :=
  with_objs scene1 (default (ho_objs scene1) (snd <$> obj_WithMetadata (Some 0%nat) "leaderHint" "node-2" (ho_objs scene1))).
Definition scene3 : holder :=
  let '(r, h) := default (None, ho_objs scene2) (obj_Metadata (Some 1%nat) (ho_objs scene2)) in
  mkHolder h (locs r ∪ ho_maps scene2) (ho_lists scene2).

Lemma scene3_reachable : holder_reachable scene3.
Proof.
  eapply rtc_l; [eapply (hs_New no_objects ReasonNotLeader "not the leader" 0%nat); reflexivity|].
  eapply rtc_l; [eapply (hs_WithMetadata scene1 (Some 0%nat) "leaderHint" "node-2" 1%nat); vm_compute; reflexivity|].
  eapply rtc_l; [eapply (hs_Metadata scene2 (Some 1%nat) (Some 1%nat)); vm_compute; reflexivity|].
  vm_compute. apply rtc_refl.
Qed.

(** The caller empties the map it was given; the error keeps its metadata. *)
Lemma errors_immutable_witness :
  map_at (write_map 1 ∅ (ho_objs scene3)) (Some 1%nat) = ∅
  /\ says (write_map 1 ∅ (ho_objs scene3)) (RPtr 1)
       (kv (WithMetadata (New ReasonNotLeader "not the leader") "leaderHint" "node-2")).
Proof.
  split; [vm_compute; reflexivity|].
  refine (proj2 (proj1 (proj2 (errors_immutable scene3 (with_objs scene3 (write_map 1 ∅ (ho_objs scene3)))
    scene3_reachable _)) (RPtr 1) _ _ _) eq_refl).
  - apply rtc_once, hs_write_map. vm_compute. done.
  - exists 1%nat. vm_compute. reflexivity.
Defined.
