(* ===== verification/Shard.v ===== *)
(** * Slots (internal/shard)

    The permanent mapping of keys to slots: the partition-key rule of
    [HashInput], and CRC32C modulo the slot count. *)

From stdpp Require Import prelude strings list.
From Stdlib Require Import ZArith Lia.
From S2P Require Import Prelude GoBytes Crc32c GoStrings Kverr.

Local Open Scope Z_scope.

Definition DefaultSlotCount : Z := 16384.

(** A [Slotter]; [count] is a [uint32], positive once built by [NewSlotter]. *)
Record Slotter := mkSlotter { count : Z }.

Definition NewSlotter (slotCount : Z) : result error Slotter :=
  if slotCount =? 0
  then Err (kv (New ReasonInvalidArgument "slot count must be greater than zero"))
  else Ok (mkSlotter slotCount).

Definition Count (s : Slotter) : Z := count s.

Definition lbrace : byte := Byte.x7b.
Definition rbrace : byte := Byte.x7d.

(** The slices [key[start+1:]] and [key[start+1 : start+1+length]]. *)
Definition HashInput (key : bytes) : bytes :=
  let start := IndexByte key lbrace in
  if start <? 0 then key
  else
    let rest := drop (Z.to_nat (start + 1)) key in
    let length := IndexByte rest rbrace in
    if length <=? 0 then key
    else take (Z.to_nat length) rest.

Definition Slot (s : Slotter) (key : bytes) : Z :=
  Checksum (HashInput key) crcTable mod count s.

(** ** The partition-key rule, stated on the shape of the key *)

(** [key] has partition key [tag]: the non-empty span between the first brace
    and the first closing brace after it. *)
Definition has_partition (key tag : bytes) : Prop :=
  exists pre post, key = pre ++ lbrace :: tag ++ rbrace :: post
    /\ lbrace ∉ pre /\ rbrace ∉ tag /\ tag <> [].

Lemma HashInput_partition key tag : has_partition key tag -> HashInput key = tag.
Proof.
  intros (pre & post & -> & Hpre & Htag & Hne). unfold HashInput.
  rewrite IndexByte_app by done.
  destruct (Z.ltb_spec (Z.of_nat (length pre)) 0); [lia|].
  replace (Z.to_nat (Z.of_nat (length pre) + 1)) with (length pre + 1)%nat by lia.
  rewrite <- drop_drop, drop_app_length. cbv zeta. rewrite skipn_cons, drop_0, IndexByte_app by done.
  destruct tag as [|t tag]; [done|].
  destruct (Z.leb_spec (Z.of_nat (length (t :: tag))) 0); [simpl in *; lia|].
  rewrite Nat2Z.id. apply take_app_length.
Qed.

Lemma HashInput_no_partition key :
  (forall tag, ~ has_partition key tag) -> HashInput key = key.
Proof.
  intros Hno. unfold HashInput.
  destruct (Z.ltb_spec (IndexByte key lbrace) 0) as [|Hstart]; [done|].
  destruct (IndexByte_nonneg _ _ Hstart) as (pre & rest & Hkey & Hpre & ->).
  destruct (Z.leb_spec (IndexByte (drop (Z.to_nat (Z.of_nat (length pre) + 1)) key) rbrace) 0)
    as [|Hlen]; [done|].
  assert (drop (Z.to_nat (Z.of_nat (length pre) + 1)) key = rest) as Hrest.
  { replace (Z.to_nat (Z.of_nat (length pre) + 1)) with (length pre + 1)%nat by lia.
    rewrite Hkey, <- drop_drop, drop_app_length. done. }
  rewrite Hrest in Hlen |- *.
  destruct (IndexByte_nonneg rest rbrace ltac:(lia)) as (tag & post & Heq & Htag & Hi).
  exfalso. apply (Hno tag). exists pre, post. rewrite Hkey, Heq.
  split_and!; [done..|]. intros ->. simpl in Hi. lia.
Qed.

Lemma has_partition_dec key : (exists tag, has_partition key tag) \/ forall tag, ~ has_partition key tag.
Proof.
  destruct (Z.lt_ge_cases (IndexByte key lbrace) 0) as [Hneg|Hstart].
  { right. intros tag (pre & post & -> & _). apply IndexByte_neg in Hneg. set_solver. }
  destruct (IndexByte_nonneg _ _ Hstart) as (pre & rest & -> & Hpre & _).
  assert (forall tag, has_partition (pre ++ lbrace :: rest) tag ->
            exists post, rest = tag ++ rbrace :: post /\ rbrace ∉ tag /\ tag <> []) as Hinv.
  { intros tag (pre' & post & Heq & Hpre' & Htag & Hne). exists post. split_and!; [|done..].
    assert (length pre = length pre') as Hl.
    { apply Nat2Z.inj. rewrite <- (IndexByte_app pre rest lbrace) by done.
      rewrite <- (IndexByte_app pre' (tag ++ rbrace :: post) lbrace) by done. by rewrite Heq. }
    apply app_inj_1 in Heq as [_ Heq]; [|done]. by simplify_eq. }
  destruct (Z.lt_ge_cases 0 (IndexByte rest rbrace)) as [Hpos|Hle].
  - left. destruct (IndexByte_nonneg rest rbrace ltac:(lia)) as (tag & post & -> & Htag & Hi).
    exists tag, pre, post. split_and!; [done..|]. intros ->. rewrite Hi in Hpos. simpl in Hpos. lia.
  - right. intros tag (post & -> & Htag & Hne)%Hinv. rewrite IndexByte_app in Hle by done.
    destruct tag; [done|]. simpl in Hle. lia.
Qed.

(** The slot function hashes exactly the partition key when the key has
    one, and the whole key otherwise; there is no third case. *)
Theorem HashInput_spec key :
  (forall tag, has_partition key tag -> HashInput key = tag)
  /\ ((forall tag, ~ has_partition key tag) -> HashInput key = key)
  /\ ((exists tag, has_partition key tag) \/ (forall tag, ~ has_partition key tag)).
Proof.
  split_and!; [intros; by apply HashInput_partition|apply HashInput_no_partition
              |apply has_partition_dec].
Qed.

Lemma Slot_range s key : 0 < count s -> 0 <= Slot s key < Count s.
Proof. intros Hs. by apply Z.mod_pos_bound. Qed.

(** C18: a validated Slotter maps every key into [0, Count()), and keys sharing
    a partition key share a slot with each other and with the bare partition
    key; only a zero count is refused. What is hashed is exactly the partition key
    when the key has one, and the whole key otherwise. *)
Theorem Slot_correct n :
  is_u32 n ->
  (n = 0 -> exists e, NewSlotter n = Err (kv e) /\ reason e = ReasonInvalidArgument)
  /\ (n <> 0 -> exists s, NewSlotter n = Ok s /\ Count s = n
       /\ (forall key, is_u32 (Slot s key) /\ Slot s key < Count s)
       /\ (forall tag k1 k2, has_partition k1 tag -> has_partition k2 tag ->
             Slot s k1 = Slot s k2)
       /\ (forall tag key, has_partition key tag -> lbrace ∉ tag ->
             Slot s key = Slot s tag))
  /\ forall key, (exists tag, has_partition key tag /\ HashInput key = tag)
       \/ ((forall tag, ~ has_partition key tag) /\ HashInput key = key).
Proof.
  intros Hn. unfold NewSlotter. split; [|split].
  - intros ->. eexists. by split.
  - intros Hn0. rewrite (proj2 (Z.eqb_neq n 0)) by done. exists (mkSlotter n).
    unfold is_u32 in *. split_and!; [done|done|..].
    + intros key. pose proof (Slot_range (mkSlotter n) key ltac:(simpl; lia)).
      unfold Count in *. simpl in *. lia.
    + intros tag k1 k2 H1 H2. unfold Slot.
      by rewrite (HashInput_partition k1 tag), (HashInput_partition k2 tag).
    + intros tag key H1 Htag. unfold Slot.
      rewrite (HashInput_partition key tag), (HashInput_no_partition tag); [done| |done].
      intros t (pre & post & -> & _). apply Htag. set_solver.
  - intros key. destruct (HashInput_spec key) as (Htag & Hnone & [[tag Ht]|Hno]); [left|right]; [exists tag|]; auto.
Qed.

Lemma Slot_correct_witness :
  exists s, NewSlotter DefaultSlotCount = Ok s /\ Count s = DefaultSlotCount.
Proof.
  destruct (Slot_correct DefaultSlotCount) as (_ & H & _); [unfold is_u32, DefaultSlotCount; lia|].
  destruct H as (s & Hs & Hc & _); [done|]. by exists s.
Defined.

(** ** Golden vectors (testdata of the package) *)
Definition slot_of (k : string) : Z :=
  Slot (mkSlotter DefaultSlotCount) (String.list_byte_of_string k).

Example golden_slots :
  map slot_of [""; "a"; "/app/config"; "123456789"; "{tenant-42}/users/1"; "tenant-42";
               "app/{tenant-42}/settings"; "{}"; "{}/x"; "{}{a}"; "{a"; "a}{b}"; "{{a}}";
               "{a}{b}"; "{ }"]%string
  = [0; 816; 10026; 4739; 12985; 12985; 12985; 4266; 12434; 11480; 6165; 12484; 6165; 816; 7567].
Proof. vm_compute. reflexivity. Qed.
