(* ===== verification/Config.v ===== *)
(** * The configuration of a node (internal/config: types and defaults)

    One record per struct of config.go, auth.go, tls.go, limits.go,
    storage.go, cluster.go and observability.go, and [Defaults]. Durations are
    nanoseconds, integers their Go width in [Z], and a [float64] is an IEEE 754
    value of [SpecFloat], whose comparisons treat NaN as Go does. *)

From stdpp Require Import prelude strings list.
From Stdlib Require Import ZArith Lia.
From Stdlib Require Import SpecFloat.
From S2P Require Import Prelude GoStrings Kverr Shard.

Local Open Scope Z_scope.

(** ** Durations (package time) *)
Definition Nanosecond : Z := 1.
Definition Millisecond : Z := 1000000.
Definition Second : Z := 1000 * Millisecond.
Definition Minute : Z := 60 * Second.

(** ** Floats *)
Abbreviation float64 := spec_float.

(** The binary64 value of [num / 10 ^ exp10], rounded to nearest even. *)
Definition float_of_decimal (num : positive) (exp10 : nat) : float64 :=
  SFdiv 53 1024 (binary_normalize 53 1024 (Zpos num) 0 false)
    (binary_normalize 53 1024 (10 ^ Z.of_nat exp10) 0 false).

Definition float_of_int (n : Z) : float64 := binary_normalize 53 1024 n 0 false.

(** ** Settings *)

(** The [Environment] of a node, one of the three below when valid. *)
Abbreviation Environment := string.
Definition EnvironmentProduction : Environment := "production".
Definition EnvironmentStaging : Environment := "staging".
Definition EnvironmentDevelopment : Environment := "development".

Record Node := mkNode {
  ID : string;
  node_Environment : Environment;
  DataDir : string;
  ShutdownGrace : Z;
}.

Record Listen := mkListen {
  Listen_Client : string;
  Listen_Peer : string;
  Listen_Metrics : string;
  Listen_Diagnostics : string;
}.

Record Advertise := mkAdvertise {
  Advertise_Client : string;
  Advertise_Peer : string;
}.

Abbreviation AuthMode := string.
Definition AuthModeEnabled : AuthMode := "enabled".
Definition AuthModeDisabled : AuthMode := "disabled".

Record ClaimsCache := mkClaimsCache { MaxEntries : Z }.

Record JWT := mkJWT {
  IssuerURL : string;
  JWKSURL : string;
  Audience : list string;
  Algorithms : list string;
  ClockSkew : Z;
  RefreshInterval : Z;
  MinRefreshInterval : Z;
  HTTPTimeout : Z;
  MaxResponseBytes : Z;
  MinRSABits : Z;
  JWT_ClaimsCache : ClaimsCache;
}.

Record Scopes := mkScopes {
  Scopes_Read : string;
  Scopes_Write : string;
  Scopes_Watch : string;
  Scopes_Admin : string;
}.

Record Auth := mkAuth {
  Mode : AuthMode;
  InsecureAllowRemote : bool;
  Auth_JWT : JWT;
  Auth_Scopes : Scopes;
}.

Record TLS := mkTLS {
  TLS_Enabled : bool;
  MinVersion : string;
  CertFile : string;
  KeyFile : string;
  ClientCAFile : string;
  PeerCAFile : string;
  Reload : bool;
  AllowedPeerSANs : list string;
  AllowedClientSANs : list string;
}.

Record RateLimit := mkRateLimit { Rate : float64; Burst : Z }.

Record RateLimits := mkRateLimits {
  RateLimits_Read : RateLimit;
  RateLimits_Write : RateLimit;
  RateLimits_Admin : RateLimit;
}.

Record Limits := mkLimits {
  MaxKeyBytes : Z;
  MaxValueBytes : Z;
  MaxRequestBytes : Z;
  MaxConcurrentStreams : Z;
  MaxWatchersPerPrincipal : Z;
  Limits_RateLimit : RateLimits;
}.

Abbreviation FsyncPolicy := string.
Definition FsyncAlways : FsyncPolicy := "always".
Definition FsyncInterval : FsyncPolicy := "interval".
Definition FsyncOS : FsyncPolicy := "os".

Record Storage := mkStorage {
  Engine : string;
  Fsync : FsyncPolicy;
  Storage_FsyncInterval : Z;
  WALSegmentBytes : Z;
  WALRetainSegments : Z;
  SnapshotEntries : Z;
  SnapshotInterval : Z;
  QuotaBytes : Z;
  AutoCompactionRetention : Z;
}.

Record Raft := mkRaft {
  TickInterval : Z;
  HeartbeatTicks : Z;
  ElectionTicks : Z;
  MaxInflightMsgs : Z;
  MaxSizePerMsg : Z;
  PreVote : bool;
  CheckQuorum : bool;
  LeaderTransferOnShutdown : bool;
}.

Record Read := mkRead {
  DefaultConsistency : string;
  ForwardWritesToLeader : bool;
  LeaderWaitTimeout : Z;
}.

Record Cluster := mkCluster {
  Bootstrap : bool;
  InitialPeers : list string;
  SlotCount : Z;
  Groups : Z;
  ReplicationFactor : Z;
  Cluster_Raft : Raft;
  Cluster_Read : Read;
}.

Record LogSettings := mkLogSettings { Level : string; Format : string }.

Record Tracing := mkTracing {
  Tracing_Enabled : bool;
  OTLPEndpoint : string;
  Sampler : string;
  SampleRatio : float64;
}.

Record Metrics := mkMetrics { Metrics_Enabled : bool }.
Record Health := mkHealth { MaxApplyLagEntries : Z }.

Record Observability := mkObservability {
  Observability_Log : LogSettings;
  Observability_Tracing : Tracing;
  Observability_Metrics : Metrics;
  Observability_Health : Health;
}.

Record Config := mkConfig {
  Config_Node : Node;
  Config_Listen : Listen;
  Config_Advertise : Advertise;
  Config_Auth : Auth;
  Config_TLS : TLS;
  Config_Limits : Limits;
  Config_Storage : Storage;
  Config_Cluster : Cluster;
  Config_Observability : Observability;
}.

(** ** Defaults (defaults.go) *)

Definition defaultNode : Node :=
  mkNode "gokvx-0" EnvironmentProduction "/var/lib/gokvx" (20 * Second).

Definition defaultListen : Listen :=
  mkListen "0.0.0.0:2379" "0.0.0.0:2380" "127.0.0.1:9100" "127.0.0.1:6060".

Definition defaultAuth : Auth :=
  mkAuth AuthModeEnabled false
    (mkJWT "" "" ["gokvx"] ["RS256"] (60 * Second) (15 * Minute) (60 * Second) (5 * Second)
       (Z.shiftl 1 20) 2048 (mkClaimsCache 10000))
    (mkScopes "kv:read" "kv:write" "kv:watch" "kv:admin").

Definition defaultTLS : TLS :=
  mkTLS true "1.3" "/etc/gokvx/tls/tls.crt" "/etc/gokvx/tls/tls.key"
    "/etc/gokvx/tls/client-ca.crt" "/etc/gokvx/tls/peer-ca.crt" true [] [].

Definition defaultLimits : Limits :=
  mkLimits 1024 (Z.shiftl 1 20) (Z.shiftl 4 20) 1000 100
    (mkRateLimits (mkRateLimit (float_of_int 5000) 10000)
                  (mkRateLimit (float_of_int 1000) 2000)
                  (mkRateLimit (float_of_int 10) 20)).

Definition defaultStorage : Storage :=
  mkStorage "pebble" FsyncAlways (100 * Millisecond) (Z.shiftl 64 20) 4 10000 (30 * Minute)
    (Z.shiftl 8 30) 1000.

Definition defaultCluster : Cluster :=
  mkCluster false [] DefaultSlotCount 1 3
    (mkRaft (100 * Millisecond) 1 10 256 (Z.shiftl 1 20) true true true)
    (mkRead "linearizable" true (3 * Second)).

Definition defaultObservability : Observability :=
  mkObservability (mkLogSettings "info" "json")
    (mkTracing true "otel-collector.observability.svc:4317" "parentbased_traceidratio"
       (float_of_decimal 5 2))
    (mkMetrics true) (mkHealth 1000).

Definition Defaults : Config :=
  mkConfig defaultNode defaultListen (mkAdvertise "" "") defaultAuth defaultTLS defaultLimits
    defaultStorage defaultCluster defaultObservability.

(** 0.05 as a binary64: the nearest of the 2^53 mantissas. *)
Example default_sample_ratio :
  float_of_decimal 5 2 = S754_finite false 7205759403792794 (-57).
Proof. vm_compute. reflexivity. Qed.
