(* ===== verification/Record.v ===== *)
(** * Command log records (internal/storage/record.go)

    The on-disk layout of a record, its encoder and decoder, and the search for
    an intact later record that tells a torn tail from corruption. *)

From stdpp Require Import prelude strings list.
From Stdlib Require Import ZArith Lia.
From S2P Require Import Prelude GoBytes Crc32c GoStrings Kverr.

Local Open Scope Z_scope.

Definition recordHeaderSize : Z := 8.
Definition recordIndexSize : Z := 8.
Definition maxRecordBodySize : Z := Z.shiftl 64 20.
Definition maxCommandSize : Z := maxRecordBodySize - recordIndexSize.

Definition errTornRecord : error :=
  ESentinel "record is cut short by the end of the segment".
Definition errBadLength : error := ESentinel "record length is out of range".
Definition errBadChecksum : error := ESentinel "record checksum does not match".

(** [len] of a slice, as the [int] it is in Go. *)
Definition len {A} (l : list A) : Z := Z.of_nat (length l).

Definition encodeRecord (index : Z) (command : bytes) : bytes :=
  let body := PutUint64 index ++ command in
  PutUint32 (u32 (len body)) ++ PutUint32 (Checksum body crcTable) ++ body.

(** Index, command and total size of the record at the start of [buf]. *)
Definition decodeRecord (buf : bytes) : result error (Z * bytes * Z) :=
  if len buf <? recordHeaderSize then Err errTornRecord
  else
    let length := Uint32 buf in
    if (length <? recordIndexSize) || (maxRecordBodySize <? length) then Err errBadLength
    else
      let size := recordHeaderSize + length in
      if len buf <? size then Err errTornRecord
      else
        let body := take (Z.to_nat length) (drop (Z.to_nat recordHeaderSize) buf) in
        if negb (Checksum body crcTable =? Uint32 (drop 4 buf)) then Err errBadChecksum
        else Ok (Uint64 body, drop (Z.to_nat recordIndexSize) body, size).

(** The loop body of [hasLaterRecord] at offset [p]. *)
Definition laterRecordAt (tail : bytes) (damaged : Z) (p : nat) : bool :=
  let index := Uint64 (drop (p + Z.to_nat recordHeaderSize) tail) in
  if (index <=? damaged) || (len tail <? u64 (index - damaged)) then false
  else match decodeRecord (drop p tail) with
       | Ok (got, _, _) => got =? index
       | Err _ => false
       end.

(** The offsets [1, 2, ...] with a whole header and index left. *)
Definition hasLaterRecord (tail : bytes) (damaged : Z) : bool :=
  existsb (laterRecordAt tail damaged)
    (seq 1 (length tail - Z.to_nat (recordHeaderSize + recordIndexSize))).

(** ** What a record may hold *)
Definition wf_record (index : Z) (command : bytes) : Prop :=
  is_u64 index /\ len command <= maxCommandSize.

Lemma len_nonneg {A} (l : list A) : 0 <= len l.
Proof. unfold len. lia. Qed.
Lemma len_app {A} (l1 l2 : list A) : len (l1 ++ l2) = len l1 + len l2.
Proof. unfold len. rewrite length_app. lia. Qed.

Lemma len_encodeRecord i c : len (encodeRecord i c) = 16 + len c.
Proof.
  unfold encodeRecord, len.
  rewrite !length_app, !length_PutUint32, length_PutUint64. lia.
Qed.

Lemma length_encodeRecord i c : length (encodeRecord i c) = (16 + length c)%nat.
Proof. pose proof (len_encodeRecord i c). unfold len in *. lia. Qed.

Lemma encodeRecord_nonempty i c : encodeRecord i c <> [].
Proof. intros H%(f_equal length). rewrite length_encodeRecord in H. simpl in H. lia. Qed.

Lemma maxRecordBodySize_val : maxRecordBodySize = 67108864.
Proof. reflexivity. Qed.
Lemma maxCommandSize_val : maxCommandSize = 67108856.
Proof. reflexivity. Qed.

(** ** Reading a header laid out as length, checksum, body *)
Section header.
Variables (n k : Z) (body : bytes).
Hypothesis Hn : is_u32 n.
Hypothesis Hk : is_u32 k.

Lemma header_length : Uint32 (PutUint32 n ++ PutUint32 k ++ body) = n.
Proof. by apply Uint32_PutUint32. Qed.

Lemma header_checksum : Uint32 (drop 4 (PutUint32 n ++ PutUint32 k ++ body)) = k.
Proof.
  rewrite drop_app_length' by (by rewrite length_PutUint32). by apply Uint32_PutUint32.
Qed.

Lemma header_body : drop 8 (PutUint32 n ++ PutUint32 k ++ body) = body.
Proof.
  rewrite app_assoc, drop_app_length'; [done|].
  by rewrite length_app, !length_PutUint32.
Qed.

Lemma header_len : len (PutUint32 n ++ PutUint32 k ++ body) = 8 + len body.
Proof. unfold len. rewrite !length_app, !length_PutUint32. lia. Qed.
End header.

(** Decoding any buffer that starts with a whole header of length [n] and
    checksum [k]: the three guards, in source order. *)
Lemma decodeRecord_header n k body :
  is_u32 n -> is_u32 k ->
  decodeRecord (PutUint32 n ++ PutUint32 k ++ body)
  = if (n <? 8) || (maxRecordBodySize <? n) then Err errBadLength
    else if len body <? n then Err errTornRecord
    else if negb (Checksum (take (Z.to_nat n) body) crcTable =? k) then Err errBadChecksum
    else Ok (Uint64 (take (Z.to_nat n) body), drop 8 (take (Z.to_nat n) body), 8 + n).
Proof.
  intros Hn Hk. unfold decodeRecord, recordHeaderSize, recordIndexSize.
  rewrite header_len. pose proof (len_nonneg body).
  rewrite (proj2 (Z.ltb_ge (8 + len body) 8)) by lia.
  change (Z.to_nat 8) with 8%nat.
  rewrite header_length, header_checksum, header_body by done.
  replace (8 + len body <? 8 + n) with (len body <? n); [done|].
  destruct (Z.ltb_spec (len body) n), (Z.ltb_spec (8 + len body) (8 + n)); lia.
Qed.

(** A buffer of at least eight bytes has that shape. *)
Lemma header_split buf :
  8 <= len buf ->
  buf = PutUint32 (Uint32 buf) ++ PutUint32 (Uint32 (drop 4 buf)) ++ drop 8 buf.
Proof.
  unfold len. intros H.
  rewrite PutUint32_Uint32, PutUint32_Uint32 by (rewrite ?length_drop; lia).
  change (drop 8 buf) with (drop (4 + 4) buf). rewrite <- drop_drop, !take_drop. done.
Qed.

Lemma decodeRecord_short buf : len buf < 8 -> decodeRecord buf = Err errTornRecord.
Proof.
  intros H. unfold decodeRecord, recordHeaderSize. by rewrite (proj2 (Z.ltb_lt (len buf) 8)).
Qed.

Lemma body_length_u32 i c : wf_record i c -> u32 (len (PutUint64 i ++ c)) = 8 + len c.
Proof.
  intros [_ Hc]. rewrite len_app. unfold len at 1. rewrite length_PutUint64.
  apply u32_small. rewrite maxCommandSize_val in Hc. pose proof (len_nonneg c).
  unfold is_u32. lia.
Qed.

(** ** Round trip *)
Lemma decode_encode i c rest :
  wf_record i c -> decodeRecord (encodeRecord i c ++ rest) = Ok (i, c, 16 + len c).
Proof.
  intros Hwf. pose proof Hwf as [Hi Hc]. rewrite maxCommandSize_val in Hc.
  pose proof (len_nonneg c). pose proof (len_nonneg rest).
  unfold encodeRecord. rewrite (body_length_u32 i c Hwf), <- !app_assoc.
  rewrite decodeRecord_header by (unfold is_u32; lia || apply Checksum_u32).
  rewrite maxRecordBodySize_val.
  rewrite (proj2 (Z.ltb_ge (8 + len c) 8)), (proj2 (Z.ltb_ge 67108864 (8 + len c))) by lia.
  simpl orb. rewrite app_assoc.
  assert (Z.to_nat (8 + len c) = length (PutUint64 i ++ c)) as ->.
  { unfold len. rewrite length_app, length_PutUint64. lia. }
  rewrite take_app_length, Z.eqb_refl. simpl negb.
  rewrite (proj2 (Z.ltb_ge _ _)).
  2:{ rewrite !len_app. unfold len. rewrite length_PutUint64. lia. }
  rewrite Uint64_PutUint64 by done.
  rewrite drop_app_length' by (by rewrite length_PutUint64).
  by replace (8 + (8 + len c)) with (16 + len c) by lia.
Qed.

(** Whatever decodes is, byte for byte, what the encoder writes. *)
Lemma decode_sound buf i c size :
  decodeRecord buf = Ok (i, c, size) ->
  wf_record i c /\ size = 16 + len c /\ exists rest, buf = encodeRecord i c ++ rest.
Proof.
  destruct (Z.lt_ge_cases (len buf) 8) as [Hs|Hs]; [by rewrite decodeRecord_short|].
  rewrite (header_split buf Hs) at 1.
  rewrite decodeRecord_header by auto with gokvx.
  set (n := Uint32 buf). set (k := Uint32 (drop 4 buf)). set (body := drop 8 buf).
  destruct ((n <? 8) || (maxRecordBodySize <? n)) eqn:Hlen; [done|].
  apply orb_false_iff in Hlen as [Hn8%Z.ltb_ge Hnmax%Z.ltb_ge].
  destruct (Z.ltb_spec (len body) n) as [|Hbody]; [done|].
  destruct (Z.eqb_spec (Checksum (take (Z.to_nat n) body) crcTable) k) as [Hk|]; [|done].
  simpl negb. intros [= <- <- <-].
  set (b := take (Z.to_nat n) body) in *.
  assert (len b = n) as Hb by (unfold b, len in *; rewrite length_take; lia).
  assert (len (drop 8 b) = n - 8) as Hcmd by (unfold len in *; rewrite length_drop; lia).
  assert (PutUint64 (Uint64 b) ++ drop 8 b = b) as Hsplit.
  { rewrite PutUint64_Uint64 by (unfold len in *; lia). apply take_drop. }
  rewrite maxRecordBodySize_val in Hnmax.
  split_and!.
  - split; [apply Uint64_range|]. rewrite Hcmd, maxCommandSize_val. lia.
  - lia.
  - exists (drop (Z.to_nat n) body). unfold encodeRecord. rewrite Hsplit, Hb.
    rewrite u32_small by (unfold is_u32; lia). rewrite Hk, <- !app_assoc.
    unfold b. rewrite take_drop. apply (header_split buf Hs).
Qed.

(** ** A record cut short *)
Lemma take_header n a b body :
  (8 <= n)%nat ->
  take n (PutUint32 a ++ PutUint32 b ++ body) = PutUint32 a ++ PutUint32 b ++ take (n - 8) body.
Proof.
  intros Hn. rewrite (app_assoc (PutUint32 a)), take_app_ge, <- app_assoc;
    rewrite length_app, !length_PutUint32; [done|lia].
Qed.

Lemma decode_torn i c n :
  wf_record i c -> (n < length (encodeRecord i c))%nat ->
  decodeRecord (take n (encodeRecord i c)) = Err errTornRecord.
Proof.
  intros Hwf Hn. destruct (le_lt_dec 8 n) as [H8|H8].
  2:{ apply decodeRecord_short. unfold len. rewrite length_take. lia. }
  pose proof Hwf as [_ Hc]. rewrite maxCommandSize_val in Hc. pose proof (len_nonneg c).
  unfold encodeRecord. rewrite (body_length_u32 i c Hwf), take_header by done.
  rewrite decodeRecord_header by (unfold is_u32; lia || apply Checksum_u32).
  rewrite maxRecordBodySize_val.
  rewrite (proj2 (Z.ltb_ge (8 + len c) 8)), (proj2 (Z.ltb_ge 67108864 (8 + len c))) by lia.
  simpl orb. rewrite (proj2 (Z.ltb_lt _ _)); [done|].
  rewrite length_encodeRecord in Hn. unfold len.
  rewrite length_take, length_app, length_PutUint64. lia.
Qed.

(** ** Damage the checksum always catches *)

(** A header announcing [body], whose bytes were replaced by [body']. *)
Lemma decode_altered_body i c body' k rest :
  wf_record i c -> is_u32 k ->
  length body' = length (PutUint64 i ++ c) -> Checksum body' crcTable <> k ->
  decodeRecord (PutUint32 (8 + len c) ++ PutUint32 k ++ body' ++ rest) = Err errBadChecksum.
Proof.
  intros Hwf Hk Hlen Hsum. pose proof Hwf as [_ Hc]. rewrite maxCommandSize_val in Hc.
  pose proof (len_nonneg c). pose proof (len_nonneg rest).
  rewrite decodeRecord_header by (unfold is_u32; lia || done).
  rewrite maxRecordBodySize_val.
  rewrite (proj2 (Z.ltb_ge (8 + len c) 8)), (proj2 (Z.ltb_ge 67108864 (8 + len c))) by lia.
  rewrite length_app, length_PutUint64 in Hlen. simpl orb.
  rewrite (proj2 (Z.ltb_ge _ _)) by (rewrite len_app; unfold len; lia).
  rewrite take_app_length' by (unfold len; lia).
  by rewrite (proj2 (Z.eqb_neq _ _)).
Qed.

(** Up to four damaged bytes in the body. *)
Lemma decode_detects_body i c pre x y post rest :
  wf_record i c -> encodeRecord i c = pre ++ x ++ post ->
  length y = length x -> (length x <= 4)%nat -> x <> y -> (8 <= length pre)%nat ->
  decodeRecord (pre ++ y ++ post ++ rest) = Err errBadChecksum.
Proof.
  intros Hwf Henc Hy Hx4 Hne H8. unfold encodeRecord in Henc.
  rewrite (body_length_u32 i c Hwf), app_assoc in Henc.
  apply app_split in Henc as (p & -> & Hbody); [|rewrite length_app, !length_PutUint32; lia].
  rewrite <- !app_assoc, (app_assoc y post rest), (app_assoc p (y ++ post) rest).
  apply (decode_altered_body i); [done|apply Checksum_u32|..].
  - rewrite Hbody, !length_app. lia.
  - rewrite Hbody. intros Heq. apply Hne. symmetry. apply (Checksum_burst p y x post); [done|lia|done].
Qed.

(** Any damage confined to the checksum field. *)
Lemma decode_detects_checksum i c pre x y post rest :
  wf_record i c -> encodeRecord i c = pre ++ x ++ post ->
  length y = length x -> x <> y -> (4 <= length pre)%nat -> (length pre + length x <= 8)%nat ->
  decodeRecord (pre ++ y ++ post ++ rest) = Err errBadChecksum.
Proof.
  intros Hwf Henc Hy Hne H4 H8. unfold encodeRecord in Henc.
  rewrite (body_length_u32 i c Hwf) in Henc. set (body := PutUint64 i ++ c) in *.
  apply app_split in Henc as (p & -> & Henc); [|rewrite length_PutUint32; lia].
  rewrite length_app, length_PutUint32 in H8.
  rewrite app_assoc in Henc. symmetry in Henc.
  apply app_split in Henc as (q & Hsum & ->); [|rewrite length_app, length_PutUint32; lia].
  assert (length (p ++ y ++ q) = 4%nat) as Hl4.
  { rewrite <- (length_PutUint32 (Checksum body crcTable)), Hsum, !length_app. lia. }
  rewrite <- !app_assoc, (app_assoc y q), (app_assoc p (y ++ q)).
  rewrite <- (PutUintLE_UintLE (p ++ y ++ q)), Hl4. fold (PutUint32 (UintLE (p ++ y ++ q))).
  apply (decode_altered_body i); [done| |done|].
  - pose proof (UintLE_range (p ++ y ++ q)) as Hr. by rewrite Hl4 in Hr.
  - intros Heq. apply Hne. rewrite Heq in Hsum. unfold PutUint32 in Hsum.
    rewrite <- Hl4, PutUintLE_UintLE, <- app_assoc in Hsum.
    apply app_inj_1 in Hsum as [_ Hsum]; [|done]. by apply app_inj_1 in Hsum as [-> _].
Qed.

(** ** The search for a later record *)

Lemma laterRecordAt_spec tail damaged p :
  0 <= damaged ->
  laterRecordAt tail damaged p = true <->
  exists i c rest, drop p tail = encodeRecord i c ++ rest /\ wf_record i c
    /\ damaged < i <= damaged + len tail.
Proof.
  intros Hd. unfold laterRecordAt, recordHeaderSize. change (Z.to_nat 8) with 8%nat.
  rewrite <- drop_drop. set (buf := drop p tail). split.
  - destruct (Z.leb_spec (Uint64 (drop 8 buf)) damaged) as [|Hlt]; [done|]. simpl.
    destruct (Z.ltb_spec (len tail) (u64 (Uint64 (drop 8 buf) - damaged))) as [|Hle]; [done|].
    destruct (decodeRecord buf) as [[[got c] size]|] eqn:Hdec; [|done].
    intros Hgot%Z.eqb_eq. apply decode_sound in Hdec as (Hwf & _ & rest & Hbuf).
    exists got, c, rest. split_and!; [done|done|lia|].
    pose proof (Uint64_range (drop 8 buf)) as Hr. unfold is_u64 in Hr.
    rewrite u64_small in Hle by (unfold is_u64; lia). lia.
  - intros (i & c & rest & Hbuf & Hwf & Hi). rewrite Hbuf at 3. rewrite decode_encode by done.
    assert (Uint64 (drop 8 buf) = i) as ->.
    { rewrite Hbuf. unfold encodeRecord. rewrite <- !app_assoc, header_body.
      apply Uint64_PutUint64, Hwf. }
    rewrite (proj2 (Z.leb_gt _ _)) by lia. destruct Hwf as [Hu _]. unfold is_u64 in Hu.
    rewrite u64_small by (unfold is_u64; lia).
    by rewrite (proj2 (Z.ltb_ge _ _)), Z.eqb_refl by lia.
Qed.

(** [tail] holds, after at least one byte, an intact record with an index above
    [damaged] and within reach of its length. *)
Definition later_record (tail : bytes) (damaged : Z) : Prop :=
  exists pre i c rest, pre <> [] /\ tail = pre ++ encodeRecord i c ++ rest
    /\ wf_record i c /\ damaged < i <= damaged + len tail.

Lemma hasLaterRecord_iff tail damaged :
  0 <= damaged -> hasLaterRecord tail damaged = true <-> later_record tail damaged.
Proof.
  intros Hd. unfold hasLaterRecord, recordHeaderSize, recordIndexSize.
  change (Z.to_nat (8 + 8)) with 16%nat. rewrite existsb_exists. split.
  - intros (p & Hp & (i & c & rest & Hdrop & Hwf & Hi)%laterRecordAt_spec); [|done].
    apply in_seq in Hp. exists (take p tail), i, c, rest. split_and!; [|by rewrite <- Hdrop, take_drop|done|lia|lia].
    intros H%(f_equal length). rewrite length_take in H. simpl in H. lia.
  - intros (pre & i & c & rest & Hne & Htail & Hwf & Hi). exists (length pre). split.
    + apply in_seq. rewrite Htail, !length_app, length_encodeRecord.
      destruct pre; [done|]. simpl. lia.
    + apply laterRecordAt_spec; [done|]. exists i, c, rest.
      split_and!; [by rewrite Htail, drop_app_length|done|lia|lia].
Qed.

(** ** Properties of the format *)

(** The pinned bytes of the record holding "put" at index 1. *)
Example record_layout :
  map b2z (encodeRecord 1 (String.list_byte_of_string "put"))
  = [0x0b; 0; 0; 0; 0x40; 0xa9; 0x50; 0x3f; 1; 0; 0; 0; 0; 0; 0; 0; 0x70; 0x75; 0x74].
Proof. vm_compute. reflexivity. Qed.

(** C13: the record format is canonical: a buffer decodes to an index, a
    command and a size exactly when it starts with the bytes [encodeRecord]
    writes for that index and command, within the size limit; what follows is
    ignored. *)
Theorem decodeRecord_canonical buf i c size :
  decodeRecord buf = Ok (i, c, size) <->
  wf_record i c /\ size = 16 + len c /\ exists rest, buf = encodeRecord i c ++ rest.
Proof.
  split; [apply decode_sound|]. intros (Hwf & -> & rest & ->). by apply decode_encode.
Qed.

(** C15: a record cut short at any byte, as a crash during its write leaves it,
    is reported as torn: never as intact, and never as another kind of damage. *)
Theorem decodeRecord_torn i c n :
  wf_record i c -> (n < length (encodeRecord i c))%nat ->
  decodeRecord (take n (encodeRecord i c)) = Err errTornRecord.
Proof. apply decode_torn. Qed.

Lemma decodeRecord_torn_witness :
  decodeRecord (take 17 (encodeRecord 1 (String.list_byte_of_string "put"))) = Err errTornRecord.
Proof.
  apply (decodeRecord_torn 1); [split; [unfold is_u64; lia|vm_compute; discriminate]|vm_compute; lia].
Defined.

(** C14: bit rot is always detected: any change of up to four consecutive bytes
    inside the body, or confined to the checksum field, makes the record fail
    with a checksum mismatch, whatever follows it. *)
Theorem decodeRecord_detects i c pre x y post rest :
  wf_record i c -> encodeRecord i c = pre ++ x ++ post ->
  length y = length x -> (length x <= 4)%nat -> x <> y ->
  (8 <= length pre \/ (4 <= length pre /\ length pre + length x <= 8))%nat ->
  decodeRecord (pre ++ y ++ post ++ rest) = Err errBadChecksum.
Proof.
  intros Hwf Henc Hy Hx4 Hne [H8|[H4 H8]];
    [by eapply decode_detects_body|by eapply decode_detects_checksum].
Qed.

Lemma decodeRecord_detects_witness :
  decodeRecord (take 16 (encodeRecord 1 [Byte.x41]) ++ [Byte.x42] ++ [] ++ []) = Err errBadChecksum.
Proof.
  apply (decodeRecord_detects 1 [Byte.x41] _ [Byte.x41]);
    [split; [unfold is_u64; lia|vm_compute; discriminate]|vm_compute; reflexivity|reflexivity
    |simpl; lia|discriminate|left; vm_compute; lia].
Defined.

(** The records holding [cs] at the indexes [i], [i + 1], ... *)
Fixpoint encode_from (i : Z) (cs : list bytes) : bytes :=
  match cs with
  | [] => []
  | c :: cs' => encodeRecord i c ++ encode_from (i + 1) cs'
  end.

Lemma len_encode_from i cs : len cs <= len (encode_from i cs).
Proof.
  revert i. induction cs as [|c cs IH]; intros i; cbn [encode_from]; [done|]. specialize (IH (i + 1)).
  rewrite len_app, len_encodeRecord. pose proof (len_nonneg c). unfold len in *. cbn [length]. lia.
Qed.

(** C16: What [hasLaterRecord] finds in the bytes from a damaged record on. It
    finds exactly the intact records, at every offset after the first byte, whose
    index is above the damaged one by at most the number of bytes (a bound the
    comment of the source does not mention, see [distant_record_ignored]). The
    bound costs nothing in a log, where indexes are consecutive: whatever bytes
    [pre] the damage left in the place of the records before it, also in length
    fields, an intact record at the place the log wrote it is found. *)
Theorem hasLaterRecord_spec tail damaged :
  is_u64 damaged ->
  (hasLaterRecord tail damaged = true <->
   exists pre i c rest, pre <> [] /\ tail = pre ++ encodeRecord i c ++ rest
     /\ wf_record i c /\ damaged < i <= damaged + len tail)
  /\ (forall cs pre c rest, cs <> [] -> length pre = length (encode_from damaged cs) ->
       wf_record (damaged + len cs) c -> tail = pre ++ encodeRecord (damaged + len cs) c ++ rest ->
       hasLaterRecord tail damaged = true).
Proof.
  intros [H _]. split; [by apply hasLaterRecord_iff|]. intros cs pre c rest Hne Hpre Hwf Htail.
  apply hasLaterRecord_iff; [done|]. exists pre, (damaged + len cs), c, rest.
  pose proof (len_encode_from damaged cs) as Hle. assert (0 < len cs) by (destruct cs; [done|]; unfold len; cbn [length]; lia).
  assert (len pre = len (encode_from damaged cs)) as Hl by (unfold len; by rewrite Hpre).
  split_and!; [|done|done|lia|].
  - intros ->. change (len []) with 0 in Hl. lia.
  - rewrite Htail, len_app, Hl. pose proof (len_nonneg (encodeRecord (damaged + len cs) c ++ rest)). lia.
Qed.

(** The comment of [hasLaterRecord] has no bound: an intact record with a higher
    index that is further away than the bytes that are left is not found. *)
Lemma distant_record_ignored :
  hasLaterRecord ([Byte.xff] ++ encodeRecord 1000 [Byte.x41]) 3 = false
  /\ decodeRecord (encodeRecord 1000 [Byte.x41]) = Ok (1000, [Byte.x41], 17).
Proof. split; vm_compute; reflexivity. Qed.

(** Record 3 is damaged, its length field included; record 4 is not. *)
Lemma hasLaterRecord_spec_witness :
  hasLaterRecord (replicate 17 Byte.xff ++ encodeRecord 4 [Byte.x42] ++ []) 3 = true.
Proof.
  apply (proj2 (hasLaterRecord_spec (replicate 17 Byte.xff ++ encodeRecord 4 [Byte.x42] ++ []) 3
    ltac:(unfold is_u64; lia)) [[Byte.x41]] (replicate 17 Byte.xff) [Byte.x42] []);
    [discriminate|reflexivity|split; [unfold is_u64, len; cbn; lia|vm_compute; discriminate]|reflexivity].
Defined.
