(* ===== verification/Fs.v ===== *)
(** * The file system (package os, as internal/storage uses it)

    The world the storage code runs in: directories of files, each file with
    the contents a process reads and the contents an [fsync] has made safe.
    Every system call may fail: the world carries a script of outcomes, one per
    call, over which the theorems quantify. [crash] is a power loss: it keeps
    what was flushed and cuts the rest short anywhere. *)

From stdpp Require Import prelude gmap strings list sorting.
From Stdlib Require Import ZArith Lia.
From S2P Require Import Prelude GoBytes GoStrings Kverr Record.

Local Open Scope string_scope.

(** ** State *)

(** [f_data] is what reads return; [f_disk] the contents at the last fsync. *)
Record file := File { f_data : bytes; f_disk : bytes }.

(** A directory entry is a regular file, or something else (a directory, ...). *)
Inductive node := Regular (f : file) | Irregular.

(** [d_durable]: the entry itself was flushed by an fsync of its directory. *)
Record dirent := Dirent { d_node : node; d_durable : bool }.

(** [d_ghosts] are removed entries whose removal is not yet flushed. *)
Record directory := Dir { d_entries : gmap string dirent; d_ghosts : gmap string node }.

(** The outcome of one system call: it does its work, or fails with an error
    text, a write after its first [n] bytes. *)
Inductive outcome := Succeed | FailWith (text : string) (n : nat).

(** One structured log line: level, message, attributes. *)
Record logline := Line { level : string; msg : string; attrs : list (string * string) }.

(** [w_fresh] are directories that a power loss may take away whole: made since
    and not yet safe, because the directory above was not flushed. *)
Record world := World {
  w_dirs : gmap string directory;
  w_script : list outcome;
  w_log : list logline;
  w_fresh : gset string;
}.

(** [filepath.Join(dir, name)] for a name without separators, kept apart so
    that [filepath.Base] is the second component. *)
Record path := Path { p_dir : string; p_base : string }.

#[export] Instance path_eq_dec : EqDecision path.
Proof. solve_decision. Defined.

(** An [*os.File] opened for writing. *)
Record handle := Handle { h_path : path; h_open : bool }.

(** ** Access *)

Definition dir_of (d : string) (w : world) : option directory := w_dirs w !! d.

Definition node_of (p : path) (w : world) : option node :=
  d ← dir_of (p_dir p) w; e ← d_entries d !! p_base p; Some (d_node e).

Definition file_of (p : path) (w : world) : option file :=
  n ← node_of p w; match n with Regular f => Some f | Irregular => None end.

Definition set_dir (d : string) (x : directory) (w : world) : world :=
  World (<[d := x]> (w_dirs w)) (w_script w) (w_log w) (w_fresh w).

(** Replaces the file at [p], keeping the durability of its entry. *)
Definition set_file (p : path) (f : file) (w : world) : world :=
  match dir_of (p_dir p) w with
  | Some d =>
      set_dir (p_dir p)
        (Dir (alter (fun e => Dirent (Regular f) (d_durable e)) (p_base p) (d_entries d))
             (d_ghosts d)) w
  | None => w
  end.

(** ** System calls *)

Abbreviation IO := (M error world).

(** Takes the next outcome of the script; an exhausted script succeeds. *)
Definition syscall : IO outcome := fun w =>
  match w_script w with
  | [] => (Ok Succeed, w)
  | o :: script => (Ok o, World (w_dirs w) script (w_log w) (w_fresh w))
  end.

(** A call that fails without effect, or runs [body]. *)
Definition call {A} (body : IO A) : IO A :=
  o ← syscall;
  match o with
  | Succeed => body
  | FailWith text _ => fail (EForeign text)
  end.

Definition emit (l : logline) : IO unit :=
  modify (fun w => World (w_dirs w) (w_script w) (w_log w ++ [l])%list (w_fresh w)).

Definition set_fresh (ds : gset string) (w : world) : world :=
  World (w_dirs w) (w_script w) (w_log w) ds.

(** A directory that is made is fresh: its entry in the directory above is not
    flushed. Directories above it that are missing are made too, which [w_fresh]
    covers. *)
Definition os_MkdirAll (d : string) : IO unit := call (fun w =>
  match dir_of d w with
  | Some _ => (Ok tt, w)
  | None => (Ok tt, set_fresh ({[d]} ∪ w_fresh w) (set_dir d (Dir ∅ ∅) w))
  end).

(** [os.ReadDir]: names, each with whether it is regular, in name order. *)
Definition dir_listing (d : directory) : list (string * bool) :=
  (fun n => (n, match d_entries d !! n with
                | Some (Dirent (Regular _) _) => true
                | _ => false
                end)) <$> merge_sort String.le (map_to_list (d_entries d)).*1.

Definition os_ReadDir (d : string) : IO (list (string * bool)) := call (fun w =>
  match dir_of d w with
  | Some x => (Ok (dir_listing x), w)
  | None => (Err (EWrapf ("open " +:+ d +:+ ": ") ENotExist ""), w)
  end).

(** The error of a missing file, or of one that is not a file. *)
Definition no_file (p : path) : error :=
  EWrapf ("open " +:+ p_base p +:+ ": ") ENotExist "".
Definition not_regular (p : path) : error := EForeign (p_base p +:+ ": is a directory").

Definition with_file {A} (p : path) (k : file -> IO A) : IO A := fun w =>
  match node_of p w with
  | Some (Regular f) => k f w
  | Some Irregular => (Err (not_regular p), w)
  | None => (Err (no_file p), w)
  end.

Definition os_ReadFile (p : path) : IO bytes :=
  call (with_file p (fun f => mret (f_data f))).

(** [O_CREATE|O_EXCL|O_WRONLY|O_APPEND]: a new, empty file. Its entry becomes
    durable only when its directory is flushed. *)
Definition os_OpenFile_create_excl (p : path) : IO handle := call (fun w =>
  match dir_of (p_dir p) w with
  | None => (Err (no_file p), w)
  | Some d =>
      match d_entries d !! p_base p with
      | Some _ => (Err (EForeign (p_base p +:+ ": file exists")), w)
      | None =>
          (Ok (Handle p true),
           set_dir (p_dir p)
             (Dir (<[p_base p := Dirent (Regular (File [] [])) false]> (d_entries d)) (d_ghosts d)) w)
      end
  end).

(** [O_CREATE|O_TRUNC|O_WRONLY]: truncates an existing file. *)
Definition os_OpenFile_create_trunc (p : path) : IO handle := call (fun w =>
  match dir_of (p_dir p) w with
  | None => (Err (no_file p), w)
  | Some d =>
      match d_entries d !! p_base p with
      | Some (Dirent Irregular _) => (Err (not_regular p), w)
      | Some (Dirent (Regular f) _) =>
          (Ok (Handle p true), set_file p (File [] (f_disk f)) w)
      | None =>
          (Ok (Handle p true),
           set_dir (p_dir p)
             (Dir (<[p_base p := Dirent (Regular (File [] [])) false]> (d_entries d)) (d_ghosts d)) w)
      end
  end).

(** [O_WRONLY], with or without [O_APPEND]: an existing file. *)
Definition os_OpenFile_write (p : path) : IO handle :=
  call (with_file p (fun _ => mret (Handle p true))).

Definition closed_handle : error := EForeign "file already closed".

(** [File.Write] at the end of the file: a failure may leave a prefix. *)
Definition file_Write (h : handle) (data : bytes) : IO unit :=
  o ← syscall;
  if h_open h then
    with_file (h_path h) (fun f =>
      match o with
      | Succeed => modify (set_file (h_path h) (File (f_data f ++ data) (f_disk f)))
      | FailWith text n =>
          modify (set_file (h_path h) (File (f_data f ++ take n data) (f_disk f)));;
          fail (EForeign text)
      end)
  else fail closed_handle.

(** [File.Sync]: the contents reach the disk; after a failure they may not. *)
Definition file_Sync (h : handle) : IO unit :=
  call (if h_open h then
          with_file (h_path h) (fun f =>
            modify (set_file (h_path h) (File (f_data f) (f_data f))))
        else fail closed_handle).

(** [File.Close]: the handle is closed whatever the call reports. *)
Definition file_Close (h : handle) : IO unit :=
  call (if h_open h then mret tt else fail closed_handle).

(** [os.Truncate] to a smaller size; the disk keeps the old contents until a
    flush. *)
Definition os_Truncate (p : path) (n : Z) : IO unit :=
  call (with_file p (fun f =>
    modify (set_file p (File (take (Z.to_nat n) (f_data f)) (f_disk f))))).

(** [os.Rename] within one directory: atomic for readers, durable only after a
    flush of the directory, until when the old name may come back. *)
Definition os_Rename (old new : path) : IO unit := call (fun w =>
  match dir_of (p_dir old) w with
  | None => (Err (no_file old), w)
  | Some d =>
      match d_entries d !! p_base old with
      | None => (Err (no_file old), w)
      | Some e =>
          (Ok tt,
           set_dir (p_dir old)
             (Dir (<[p_base new := Dirent (d_node e) false]> (delete (p_base old) (d_entries d)))
                  (<[p_base old := d_node e]> (d_ghosts d))) w)
      end
  end).

(** The [Sync] of an open directory: every entry, and every removal, is safe. *)
Definition dir_flush (d : directory) : directory :=
  Dir ((fun e => Dirent (d_node e) true) <$> d_entries d) ∅.

(** [c] is directly in [d]: no other separator (byte 47) follows. *)
Definition is_child (d c : string) : bool :=
  match strip_prefix (d +:+ "/") c with
  | Some name => negb (Cut name (Ascii.ascii_of_nat 47)).2
  | None => false
  end.

(** The directories directly in a directory that is safe itself are safe. *)
Definition fresh_after_sync (dir : string) (ds : gset string) : gset string :=
  if decide (dir ∈ ds) then ds else filter (fun c => is_child dir c = false) ds.

Definition dir_Sync (dir : string) : IO unit := call (fun w =>
  match dir_of dir w with
  | Some d => (Ok tt, set_fresh (fresh_after_sync dir (w_fresh w)) (set_dir dir (dir_flush d) w))
  | None => (Err (EWrapf ("open " +:+ dir +:+ ": ") ENotExist ""), w)
  end).

Definition dir_Open (dir : string) : IO unit := call (fun w =>
  match dir_of dir w with
  | Some d => (Ok tt, w)
  | None => (Err (EWrapf ("open " +:+ dir +:+ ": ") ENotExist ""), w)
  end).

Definition dir_Close : IO unit := call (mret tt).

(** ** Power loss *)

(** What a file can hold afterwards: the flushed contents, plus any part of
    what was appended since; after an unflushed truncation, any part of what
    was cut off; after a truncation and other bytes in its place, anything. *)
Definition crash_content (f : file) (c : bytes) : Prop :=
  (f_disk f `prefix_of` c /\ c `prefix_of` f_data f)
  \/ (f_data f `prefix_of` c /\ c `prefix_of` f_disk f)
  \/ (~ f_disk f `prefix_of` f_data f /\ ~ f_data f `prefix_of` f_disk f).

Definition crash_node (n n' : node) : Prop :=
  match n, n' with
  | Regular f, Regular f' => crash_content f (f_data f') /\ f_disk f' = f_data f'
  | Irregular, Irregular => True
  | _, _ => False
  end.

(** A flushed entry survives; one that was not may be gone; an unflushed
    removal may be undone. *)
Definition crash_entry (e : option dirent) (ghost : option node) (e' : option dirent) : Prop :=
  match e, e' with
  | Some e, Some e' => d_durable e' = true /\ crash_node (d_node e) (d_node e')
  | Some e, None => d_durable e = false
  | None, Some e' => d_durable e' = true /\ exists n, ghost = Some n /\ crash_node n (d_node e')
  | None, None => True
  end.

Definition crash_dir (d d' : directory) : Prop :=
  d_ghosts d' = ∅ /\
  forall name, crash_entry (d_entries d !! name) (d_ghosts d !! name) (d_entries d' !! name).

(** A fresh directory may be gone with all that is in it, flushed or not. *)
Definition crash (w w' : world) : Prop :=
  w_fresh w' = ∅ /\
  forall dir, match w_dirs w !! dir, w_dirs w' !! dir with
              | Some d, Some d' => crash_dir d d'
              | Some _, None => dir ∈ w_fresh w
              | None, None => True
              | None, Some _ => False
              end.
