(* ===== verification/FsFacts.v ===== *)
(** * What each system call changes

    Every call of Fs.v is described by its effect on directory entries, the
    only view of the world the proofs about the log use. [wequiv] is the
    equivalence of worlds that show the same entries; the remaining script and
    the log lines do not count. *)

From stdpp Require Import prelude gmap strings list.
From Stdlib Require Import ZArith Lia.
From S2P Require Import Prelude GoBytes GoStrings Kverr Record Fs.

(** ** Entries *)

Definition entry_of (p : path) (w : world) : option dirent :=
  d ← dir_of (p_dir p) w; d_entries d !! p_base p.

Lemma file_of_entry p w f :
  file_of p w = Some f <-> exists b, entry_of p w = Some (Dirent (Regular f) b).
Proof.
  unfold file_of, node_of, entry_of. destruct (dir_of (p_dir p) w) as [d|]; simpl; [|naive_solver].
  destruct (d_entries d !! p_base p) as [[[f'|] b]|]; simpl; naive_solver.
Qed.

(** Same directories, same entries, same pending removals. *)
Record wequiv (w w' : world) : Prop := Wequiv { wequiv_dir : forall d, dir_of d w = dir_of d w' }.

#[export] Instance wequiv_equivalence : Equivalence wequiv.
Proof.
  split; [by intros ?|by intros ? ? [H]|].
  intros ? ? ? [H1] [H2]. constructor. intros d. by rewrite H1.
Qed.

#[export] Instance entry_of_proper : Proper ((=) ==> wequiv ==> (=)) entry_of.
Proof. intros p ? <- w w' [H]. unfold entry_of. by rewrite H. Qed.
#[export] Instance file_of_proper : Proper ((=) ==> wequiv ==> (=)) file_of.
Proof. intros p ? <- w w' [H]. unfold file_of, node_of. by rewrite H. Qed.
#[export] Instance dir_of_proper : Proper ((=) ==> wequiv ==> (=)) dir_of.
Proof. intros d ? <- w w' H. apply H. Qed.

(** [w'] is [w] with the file at [p] replaced by [f]. *)
Definition updated (p : path) (f : file) (w w' : world) : Prop :=
  wequiv (set_file p f w) w'.

Lemma dir_of_set_dir d x w d' :
  dir_of d' (set_dir d x w) = if decide (d = d') then Some x else dir_of d' w.
Proof. unfold dir_of, set_dir. simpl. by rewrite lookup_insert. Qed.

Lemma entry_of_set_file p f w q :
  entry_of q (set_file p f w)
  = if decide (p = q) then (fun e => Dirent (Regular f) (d_durable e)) <$> entry_of q w
    else entry_of q w.
Proof.
  unfold entry_of, set_file. destruct (dir_of (p_dir p) w) as [d|] eqn:Hd.
  2:{ case_decide; [subst q; by rewrite Hd|done]. }
  rewrite dir_of_set_dir. destruct (decide (p_dir p = p_dir q)) as [Hdir|Hdir].
  - rewrite <- Hdir, Hd. cbn [mbind option_bind d_entries].
    destruct (decide (p = q)) as [->|Hne]; [by rewrite lookup_alter_eq|].
    rewrite lookup_alter_ne; [done|]. intros Hb. apply Hne. destruct p, q; simpl in *; congruence.
  - rewrite decide_False by congruence. done.
Qed.

Lemma updated_entry p f w w' q :
  updated p f w w' ->
  entry_of q w' = if decide (p = q) then (fun e => Dirent (Regular f) (d_durable e)) <$> entry_of q w
                  else entry_of q w.
Proof. unfold updated. intros H. by rewrite <- H, entry_of_set_file. Qed.

Lemma updated_file_eq p f g w w' : updated p f w w' -> file_of p w = Some g -> file_of p w' = Some f.
Proof.
  intros H [b Hg]%file_of_entry. apply file_of_entry. exists b.
  rewrite (updated_entry _ _ _ _ _ H), decide_True, Hg by done. done.
Qed.

Lemma updated_file_ne p f q w w' : updated p f w w' -> p <> q -> file_of q w' = file_of q w.
Proof.
  intros H Hne. apply option_eq. intros g. rewrite !file_of_entry.
  rewrite (updated_entry _ _ _ _ _ H), decide_False by done. done.
Qed.

Lemma updated_is_dir p f w w' d : updated p f w w' -> is_Some (dir_of d w') <-> is_Some (dir_of d w).
Proof.
  unfold updated. intros H. rewrite <- H. unfold set_file. destruct (dir_of (p_dir p) w) as [x|] eqn:Hd; [|done].
  rewrite dir_of_set_dir. case_decide; [|done]. subst. rewrite Hd. split; eauto.
Qed.

(** ** Faults *)

(** No call of the remaining script fails. *)
Definition faultless (w : world) : Prop := Forall (eq Succeed) (w_script w).

Lemma faultless_nil d l ds : faultless (World d [] l ds).
Proof. constructor. Qed.

Lemma syscall_inv w r w' :
  syscall w = (r, w') ->
  wequiv w w' /\ w_log w' = w_log w /\ (faultless w -> faultless w')
  /\ (r = Ok Succeed \/ ~ faultless w /\ exists text n, r = Ok (FailWith text n)).
Proof.
  unfold syscall, faultless. destruct (w_script w) as [|o script] eqn:Hs; intros [= <- <-].
  - rewrite Hs. split_and!; [done..|by left].
  - split_and!; [done|done|by inversion 1|]. destruct o as [|text n]; [by left|right].
    split; [by inversion 1|eauto].
Qed.

(** A call fails without effect because of the script, or runs its body. *)
Lemma call_inv {A} (body : IO A) w r w' :
  call body w = (r, w') ->
  (~ faultless w /\ wequiv w w' /\ w_log w' = w_log w /\ exists text, r = Err (EForeign text))
  \/ exists w1, wequiv w w1 /\ w_log w1 = w_log w /\ (faultless w -> faultless w1)
                /\ body w1 = (r, w').
Proof.
  unfold call. intros H. destruct (syscall w) as [r1 w1] eqn:Hs.
  destruct (syscall_inv _ _ _ Hs) as (Hw & Hlog & Hfl & [->|(Hnf & text & n & ->)]).
  - right. exists w1. rewrite (bind_ok _ _ _ _ _ Hs) in H. done.
  - left. rewrite (bind_ok _ _ _ _ _ Hs) in H. injection H as <- <-. eauto.
Qed.

Lemma with_file_inv {A} p (k : file -> IO A) w r w' :
  with_file p k w = (r, w') ->
  (exists f, file_of p w = Some f /\ k f w = (r, w'))
  \/ (file_of p w = None /\ w' = w /\ exists e, r = Err e).
Proof.
  unfold with_file, file_of. intros H. destruct (node_of p w) as [[f|]|]; simpl; [left; eauto|right..];
    injection H as <- <-; eauto.
Qed.

(** ** The calls

    Each lemma lists the possible outcomes of one call. A failure without
    cause in the arguments only happens when the script has a fault. *)

(** Nothing the proofs look at changed. *)
Definition quiet (w w' : world) : Prop :=
  wequiv w w' /\ w_log w' = w_log w /\ (faultless w -> faultless w').

Lemma quiet_refl w : quiet w w.
Proof. by split_and!. Qed.
Lemma quiet_trans w1 w2 w3 : quiet w1 w2 -> quiet w2 w3 -> quiet w1 w3.
Proof. intros (H1 & H2 & H3) (H4 & H5 & H6). split_and!; [by rewrite H1|congruence|auto]. Qed.

(** The world after a change of one file. *)
Definition wrote (p : path) (f : file) (w w' : world) : Prop :=
  updated p f w w' /\ w_log w' = w_log w /\ (faultless w -> faultless w').

Lemma set_file_proper p f w1 w2 : wequiv w1 w2 -> wequiv (set_file p f w1) (set_file p f w2).
Proof.
  intros [H]. constructor. intros d. unfold set_file. rewrite (H (p_dir p)).
  destruct (dir_of (p_dir p) w2) as [x|]; [|apply H]. rewrite !dir_of_set_dir. by rewrite H.
Qed.

Lemma set_file_wrote p f w0 w : quiet w0 w -> wrote p f w0 (set_file p f w).
Proof.
  intros (Hw & Hlog & Hfl). split_and!.
  - by apply set_file_proper.
  - unfold set_file. by case_match.
  - unfold set_file. by case_match.
Qed.

Lemma call_cases {A} (body : IO A) w r w' :
  call body w = (r, w') ->
  (exists e, r = Err e /\ ~ faultless w /\ quiet w w')
  \/ exists w1, quiet w w1 /\ body w1 = (r, w').
Proof.
  intros [(Hnf & Hw & Hlog & text & ->)|(w1 & Hw & Hlog & Hfl & Hb)]%call_inv; [left|right].
  - eexists. by split_and!.
  - exists w1. by split_and!.
Qed.

Lemma os_ReadFile_inv p w r w' :
  os_ReadFile p w = (r, w') ->
  quiet w w' /\
  ((exists f, file_of p w = Some f /\ r = Ok (f_data f))
   \/ exists e, r = Err e /\ (faultless w -> file_of p w = None)).
Proof.
  intros [(e & -> & Hnf & Hq)|(w1 & Hq & H)]%call_cases.
  { split; [done|right]. exists e. split; [done|intros; contradiction]. }
  pose proof Hq as [Hw _].
  apply with_file_inv in H as [(f & Hf & H)|(Hf & -> & e & ->)].
  - injection H as <- <-. split; [done|left]. exists f. by rewrite Hw.
  - split; [done|right]. exists e. split; [done|]. intros _. by rewrite Hw.
Qed.

Lemma os_OpenFile_write_inv p w r w' :
  os_OpenFile_write p w = (r, w') ->
  quiet w w' /\
  ((is_Some (file_of p w) /\ r = Ok (Handle p true))
   \/ exists e, r = Err e /\ (faultless w -> file_of p w = None)).
Proof.
  intros [(e & -> & Hnf & Hq)|(w1 & Hq & H)]%call_cases.
  { split; [done|right]. exists e. split; [done|intros; contradiction]. }
  pose proof Hq as [Hw _].
  apply with_file_inv in H as [(f & Hf & H)|(Hf & -> & e & ->)].
  - injection H as <- <-. split; [done|left]. rewrite Hw. eauto.
  - split; [done|right]. exists e. split; [done|]. intros _. by rewrite Hw.
Qed.

Lemma file_Sync_inv h w r w' :
  file_Sync h w = (r, w') ->
  (exists f, h_open h = true /\ file_of (h_path h) w = Some f /\ r = Ok tt
     /\ wrote (h_path h) (File (f_data f) (f_data f)) w w')
  \/ (exists e, r = Err e /\ quiet w w'
        /\ (faultless w -> h_open h = true -> file_of (h_path h) w = None)).
Proof.
  intros [(e & -> & Hnf & Hq)|(w1 & Hq & H)]%call_cases.
  { right. exists e. by split_and!. }
  pose proof Hq as [Hw _]. destruct (h_open h).
  2:{ injection H as <- <-. right. eexists. by split_and!. }
  apply with_file_inv in H as [(f & Hf & H)|(Hf & -> & e & ->)].
  - injection H as <- <-. left. exists f. rewrite <- Hw in Hf.
    split_and!; [done|done|done|by apply set_file_wrote..].
  - right. exists e. rewrite <- Hw in Hf. by split_and!.
Qed.

Lemma file_Close_inv h w r w' :
  file_Close h w = (r, w') ->
  quiet w w' /\ (r = Ok tt \/ exists e, r = Err e /\ (faultless w -> h_open h = false)).
Proof.
  intros [(e & -> & Hnf & Hq)|(w1 & Hq & H)]%call_cases.
  { split; [done|]. right. exists e. split; [done|]. intros. contradiction. }
  destruct (h_open h); injection H as <- <-; (split; [done|]); [by left|right; eauto].
Qed.

Lemma file_Write_inv h data w r w' :
  file_Write h data w = (r, w') ->
  (exists f, h_open h = true /\ file_of (h_path h) w = Some f /\ r = Ok tt
     /\ wrote (h_path h) (File (f_data f ++ data) (f_disk f)) w w')
  \/ (exists e f n, r = Err e /\ ~ faultless w /\ file_of (h_path h) w = Some f
     /\ wrote (h_path h) (File (f_data f ++ take n data) (f_disk f)) w w')
  \/ (exists e, r = Err e /\ quiet w w'
        /\ (h_open h = true -> file_of (h_path h) w = None)).
Proof.
  unfold file_Write. intros H. destruct (syscall w) as [r1 w1] eqn:Hs.
  destruct (syscall_inv _ _ _ Hs) as (Hw & Hlog & Hfl & Ho).
  assert (quiet w w1) as Hq by (by split_and!).
  destruct Ho as [->|(Hnf & text & n & ->)];
    rewrite (bind_ok _ _ _ _ _ Hs) in H; (destruct (h_open h);
      [|injection H as <- <-; right; right; eexists; by split_and!]);
    apply with_file_inv in H as [(f & Hf & H)|(Hf & -> & e & ->)];
    try (right; right; exists e; rewrite <- Hw in Hf; by split_and!).
  - injection H as <- <-. left. exists f. rewrite <- Hw in Hf.
    split_and!; [done|done|done|by apply set_file_wrote..].
  - injection H as <- <-. right; left. eexists _, f, n. rewrite <- Hw in Hf.
    split_and!; [done|done|done|by apply set_file_wrote..].
Qed.

Lemma os_Truncate_inv p n w r w' :
  os_Truncate p n w = (r, w') ->
  (exists f, file_of p w = Some f /\ r = Ok tt
     /\ wrote p (File (take (Z.to_nat n) (f_data f)) (f_disk f)) w w')
  \/ (exists e, r = Err e /\ quiet w w' /\ (faultless w -> file_of p w = None)).
Proof.
  intros [(e & -> & Hnf & Hq)|(w1 & Hq & H)]%call_cases.
  { right. exists e. split_and!; [done|apply Hq..|]. done. }
  pose proof Hq as [Hw _].
  apply with_file_inv in H as [(f & Hf & H)|(Hf & -> & e & ->)].
  - injection H as <- <-. left. exists f. rewrite <- Hw in Hf.
    split_and!; [done|done|by apply set_file_wrote..].
  - right. exists e. split_and!; [done|apply Hq..|]. intros _. by rewrite Hw.
Qed.

(** ** Directories *)

Definition ghosts_of (dir : string) (w : world) : gmap string node :=
  default ∅ (d_ghosts <$> dir_of dir w).

(** The same directories exist, and none gained a pending removal. *)
Definition same_dirs (w w' : world) : Prop :=
  forall d, (is_Some (dir_of d w') <-> is_Some (dir_of d w))
            /\ (ghosts_of d w = ∅ -> ghosts_of d w' = ∅).

#[export] Instance ghosts_of_proper : Proper ((=) ==> wequiv ==> (=)) ghosts_of.
Proof. intros d ? <- w w' [H]. unfold ghosts_of. by rewrite H. Qed.

Lemma same_dirs_refl w : same_dirs w w.
Proof. done. Qed.
Lemma same_dirs_trans w1 w2 w3 : same_dirs w1 w2 -> same_dirs w2 w3 -> same_dirs w1 w3.
Proof.
  intros H1 H2 d. destruct (H1 d) as [H1a H1b], (H2 d) as [H2a H2b]. rewrite H2a, H1a. auto.
Qed.

Lemma quiet_same_dirs w w' : quiet w w' -> same_dirs w w'.
Proof. intros (Hw & _) d. by rewrite <- (wequiv_dir _ _ Hw d), Hw. Qed.

Lemma set_dir_same_dirs d x y w :
  dir_of d w = Some y -> (d_ghosts y = ∅ -> d_ghosts x = ∅) -> same_dirs w (set_dir d x w).
Proof.
  intros Hd Hg d'. unfold ghosts_of. rewrite dir_of_set_dir. case_decide as Hdd; [|done].
  subst d'. rewrite Hd. simpl. split; [by split; eauto|done].
Qed.

Lemma wrote_same_dirs p f w w' : wrote p f w w' -> same_dirs w w'.
Proof.
  intros (H & _ & _). unfold updated in H. intros d.
  rewrite <- (wequiv_dir _ _ H d), <- H. revert d. change (same_dirs w (set_file p f w)).
  unfold set_file. destruct (dir_of (p_dir p) w) as [x|] eqn:Hd; [|apply same_dirs_refl].
  by apply (set_dir_same_dirs _ _ x).
Qed.

Lemma entry_of_set_dir d x y w q :
  dir_of d w = Some y ->
  entry_of q (set_dir d x w)
  = if decide (p_dir q = d) then d_entries x !! p_base q else entry_of q w.
Proof.
  intros Hd. unfold entry_of. rewrite dir_of_set_dir.
  destruct (decide (d = p_dir q)) as [->|]; [by rewrite decide_True|by rewrite decide_False].
Qed.

(** [w'] is [w] with a new, empty, not yet durable file at [p]. *)
Definition created (p : path) (w w' : world) : Prop :=
  (forall q, entry_of q w' = if decide (p = q) then Some (Dirent (Regular (File [] [])) false)
                             else entry_of q w)
  /\ same_dirs w w' /\ w_log w' = w_log w /\ (faultless w -> faultless w').

Lemma os_OpenFile_create_excl_inv p w r w' :
  os_OpenFile_create_excl p w = (r, w') ->
  (entry_of p w = None /\ r = Ok (Handle p true) /\ created p w w')
  \/ (exists e, r = Err e /\ quiet w w'
       /\ (faultless w -> is_Some (dir_of (p_dir p) w) -> is_Some (entry_of p w))).
Proof.
  intros [(e & -> & Hnf & Hq)|(w1 & Hq & H)]%call_cases.
  { right. exists e. by split_and!. }
  pose proof Hq as (Hw & Hlog & Hfl). pose proof (quiet_same_dirs _ _ Hq) as Hsd.
  destruct (dir_of (p_dir p) w1) as [d|] eqn:Hd.
  2:{ injection H as <- <-. right. eexists. split_and!; [done|apply Hq..|].
      intros _ Hdir. rewrite (wequiv_dir _ _ Hw), Hd in Hdir. by destruct Hdir. }
  assert (entry_of p w = d_entries d !! p_base p) as He.
  { rewrite Hw. unfold entry_of. by rewrite Hd. }
  destruct (d_entries d !! p_base p) as [x|] eqn:Hx.
  - injection H as <- <-. right. eexists. split_and!; [done|apply Hq..|]. intros. rewrite He. eauto.
  - injection H as <- <-. left. split_and!; [done|done|].
    assert (same_dirs w1 (set_dir (p_dir p)
      (Dir (<[p_base p := Dirent (Regular (File [] [])) false]> (d_entries d)) (d_ghosts d)) w1)) as Hs.
    { by apply (set_dir_same_dirs _ _ d). }
    split_and!; [|by eapply same_dirs_trans|done|done].
    intros q. rewrite (entry_of_set_dir _ _ _ _ _ Hd). cbn [d_entries].
    destruct (decide (p = q)) as [->|Hne]; [by rewrite decide_True, lookup_insert_eq|].
    case_decide as Hdir; [|by rewrite Hw].
    rewrite lookup_insert_ne, Hw; [|intros Hb; apply Hne; destruct p, q; simpl in *; congruence].
    unfold entry_of. by rewrite Hdir, Hd.
Qed.

(** [w'] is [w] with every entry of [dir] durable. *)
Definition flushed (dir : string) (w w' : world) : Prop :=
  (forall q, entry_of q w' = if decide (p_dir q = dir)
                             then (fun e => Dirent (d_node e) true) <$> entry_of q w
                             else entry_of q w)
  /\ same_dirs w w' /\ w_log w' = w_log w /\ (faultless w -> faultless w').

Lemma dir_Sync_inv dir w r w' :
  dir_Sync dir w = (r, w') ->
  (r = Ok tt /\ flushed dir w w')
  \/ (exists e, r = Err e /\ quiet w w' /\ (faultless w -> ~ is_Some (dir_of dir w))).
Proof.
  intros [(e & -> & Hnf & Hq)|(w1 & Hq & H)]%call_cases.
  { right. exists e. by split_and!. }
  pose proof Hq as (Hw & Hlog & Hfl). pose proof (quiet_same_dirs _ _ Hq) as Hsd.
  destruct (dir_of dir w1) as [d|] eqn:Hd; injection H as <- <-.
  - left. split; [done|].
    assert (same_dirs w1 (set_dir dir (dir_flush d) w1)) as Hsd1 by (by apply (set_dir_same_dirs _ _ d)).
    change (same_dirs w1 (set_fresh (fresh_after_sync dir (w_fresh w1)) (set_dir dir (dir_flush d) w1))) in Hsd1.
    split_and!; [|by eapply same_dirs_trans|done|done].
    intros q. change (entry_of q (set_fresh ?ds ?x)) with (entry_of q x). rewrite (entry_of_set_dir _ _ _ _ _ Hd).
    case_decide as Hdir; [|by rewrite Hw]. simpl. rewrite lookup_fmap. f_equal.
    rewrite Hw. unfold entry_of. by rewrite Hdir, Hd.
  - right. eexists. split_and!; [done|apply Hq..|]. intros _. rewrite (wequiv_dir _ _ Hw), Hd.
    by intros [].
Qed.

Lemma dir_Open_inv dir w r w' :
  dir_Open dir w = (r, w') ->
  quiet w w' /\ (r = Ok tt \/ exists e, r = Err e /\ (faultless w -> ~ is_Some (dir_of dir w))).
Proof.
  intros [(e & -> & Hnf & Hq)|(w1 & Hq & H)]%call_cases.
  { split; [done|]. right. exists e. split; [done|]. intros. contradiction. }
  pose proof Hq as (Hw & _). destruct (dir_of dir w1) as [d|] eqn:Hd; injection H as <- <-;
    (split; [done|]); [by left|right]. eexists. split; [done|].
  intros _. rewrite (wequiv_dir _ _ Hw), Hd. by intros [].
Qed.

Lemma dir_Close_inv w r w' :
  dir_Close w = (r, w') -> quiet w w' /\ (r = Ok tt \/ exists e, r = Err e /\ ~ faultless w).
Proof.
  intros [(e & -> & Hnf & Hq)|(w1 & Hq & H)]%call_cases.
  - split; [done|]. right. by exists e.
  - injection H as <- <-. split; [done|by left].
Qed.

Lemma os_ReadDir_inv dir w r w' :
  os_ReadDir dir w = (r, w') ->
  quiet w w' /\
  ((exists d, dir_of dir w = Some d /\ r = Ok (dir_listing d))
   \/ exists e, r = Err e /\ (faultless w -> dir_of dir w = None)).
Proof.
  intros [(e & -> & Hnf & Hq)|(w1 & Hq & H)]%call_cases.
  { split; [done|right]. exists e. split; [done|intros; contradiction]. }
  pose proof Hq as (Hw & _). destruct (dir_of dir w1) as [d|] eqn:Hd; injection H as <- <-;
    (split; [done|]); rewrite (wequiv_dir _ _ Hw); [left|right]; eauto.
Qed.

Lemma os_MkdirAll_inv dir w r w' :
  os_MkdirAll dir w = (r, w') ->
  (exists d, dir_of dir w = Some d /\ r = Ok tt /\ quiet w w')
  \/ (dir_of dir w = None /\ r = Ok tt /\ dir_of dir w' = Some (Dir ∅ ∅)
      /\ (forall d, d <> dir -> dir_of d w' = dir_of d w)
      /\ w_log w' = w_log w /\ (faultless w -> faultless w'))
  \/ (exists e, r = Err e /\ quiet w w' /\ ~ faultless w).
Proof.
  intros [(e & -> & Hnf & Hq)|(w1 & Hq & H)]%call_cases.
  { right; right. exists e. by split_and!. }
  pose proof Hq as (Hw & Hlog & Hfl). destruct (dir_of dir w1) as [d|] eqn:Hd; injection H as <- <-.
  - left. exists d. by rewrite (wequiv_dir _ _ Hw).
  - right; left. rewrite (wequiv_dir _ _ Hw). split_and!; [done|done|..].
    + change (dir_of ?d (set_fresh ?ds ?x)) with (dir_of d x). rewrite dir_of_set_dir. by rewrite decide_True.
    + intros d Hne. change (dir_of ?d (set_fresh ?ds ?x)) with (dir_of d x). rewrite dir_of_set_dir, decide_False by done. by rewrite (wequiv_dir _ _ Hw).
    + done.
    + done.
Qed.
