(* ===== verification/Segment.v ===== *)
(** * Segment files (internal/storage/segment.go)

    Segment names, their parser, and the listing of a log directory. *)

From stdpp Require Import prelude gmap strings list sorting.
From Stdlib Require Import ZArith Lia.
From S2P Require Import Prelude GoBytes GoStrings Kverr Record Fs.

Local Open Scope Z_scope.

Definition segmentSuffix : string := ".log".
Definition segmentDigits : nat := 20.

(** One segment file: the indexes of its first and last record ([first - 1]
    while it is empty), and its path. *)
Record segment := Segment { first : Z; last : Z; seg_path : path }.

Definition segmentName (first : Z) : string :=
  Sprintf_0d segmentDigits first +:+ segmentSuffix.

(** The first index encoded in a name, [None] for Go's [(0, false)]. *)
Definition parseSegmentName (name : string) : option Z :=
  let '(digits, ok) := CutSuffix name segmentSuffix in
  if negb ok || negb (String.length digits =? segmentDigits)%nat then None
  else match ParseUint digits 64 with
       | Err _ => None
       | Ok first => if decide (segmentName first = name) then Some first else None
       end.

(** The loop over the entries of the directory. *)
Fixpoint collectSegments (dir : string) (entries : list (string * bool))
    : result error (list segment) :=
  match entries with
  | [] => Ok []
  | (name, isRegular) :: entries' =>
      match parseSegmentName name, isRegular with
      | Some first, true =>
          match collectSegments dir entries' with
          | Ok segs => Ok (Segment first 0 (Path dir name) :: segs)
          | Err e => Err e
          end
      | _, _ =>
          Err (kv (New ReasonInternal
            ("command log directory " +:+ dir +:+ " contains an unexpected entry " +:+ Quote name)))
      end
  end.

(** The order [slices.SortFunc] sorts by. *)
Definition seg_le (a b : segment) : Prop := first a <= first b.
#[export] Instance seg_le_dec : RelDecision seg_le.
Proof. intros a b. unfold seg_le. apply _. Defined.
#[export] Instance seg_le_total : Total seg_le.
Proof. intros a b. unfold seg_le. lia. Qed.
#[export] Instance seg_le_trans : Transitive seg_le.
Proof. intros a b c. unfold seg_le. lia. Qed.

Definition listSegments (dir : string) : IO (list segment) :=
  r ← try (os_ReadDir dir);
  match r with
  | Err err => fail (kv (Wrap ReasonInternal (Some err) "command log directory could not be read"))
  | Ok entries =>
      segs ← lift (collectSegments dir entries);
      mret (merge_sort seg_le segs)
  end.

(** ** Names *)

Lemma segmentName_fixed n : is_u64 n -> segmentName n = fixed 20 n +:+ segmentSuffix.
Proof. intros Hn. unfold segmentName, segmentDigits. by rewrite Sprintf_0d_fixed. Qed.

Lemma parse_segmentName n : is_u64 n -> parseSegmentName (segmentName n) = Some n.
Proof.
  intros Hn. unfold parseSegmentName. rewrite segmentName_fixed, CutSuffix_app by done.
  rewrite length_fixed, Nat.eqb_refl. cbn [negb orb].
  assert (ParseUint (fixed 20 n) 64 = Ok n) as ->.
  { unfold ParseUint. destruct (fixed 20 n) eqn:Hf.
    - by apply (f_equal String.length) in Hf; rewrite length_fixed in Hf.
    - rewrite <- Hf. apply ParseUint_go_fixed; unfold is_u64 in Hn; lia. }
  rewrite decide_True; [done|]. by rewrite segmentName_fixed.
Qed.

Lemma digit_value_nonneg c d : digit_value c = Some d -> 0 <= d.
Proof.
  unfold digit_value. destruct (_ && _) eqn:Hc; [|done]. intros [= <-].
  apply andb_true_iff in Hc as [Hc _]. by apply Z.leb_le in Hc.
Qed.

Lemma ParseUint_go_range m n s v :
  0 <= n <= m -> ParseUint_go m n s = Ok v -> 0 <= v <= m.
Proof.
  revert n. induction s as [|c s IH]; intros n Hn; cbn [ParseUint_go]; [by intros [= <-]|].
  destruct (digit_value c) as [d|] eqn:Hd; [|done].
  apply digit_value_nonneg in Hd.
  destruct (Z.ltb_spec m (n * 10 + d)); [done|]. apply IH. lia.
Qed.

Lemma parseSegmentName_Some name n :
  parseSegmentName name = Some n -> is_u64 n /\ name = segmentName n.
Proof.
  unfold parseSegmentName. destruct (CutSuffix name segmentSuffix) as [digits ok].
  destruct (negb ok || _); [done|].
  destruct (ParseUint digits 64) as [v|] eqn:Hp; [|done].
  case_decide as Hname; [|done]. intros [= <-]. split; [|done].
  unfold ParseUint in Hp. destruct digits; [done|].
  apply ParseUint_go_range in Hp; unfold is_u64; lia.
Qed.

Lemma segmentName_inj a b : is_u64 a -> is_u64 b -> segmentName a = segmentName b -> a = b.
Proof.
  intros Ha Hb H. apply (f_equal parseSegmentName) in H.
  rewrite !parse_segmentName in H by done. by injection H.
Qed.

(** ** Listing *)

Definition is_segment_entry (e : string * bool) : Prop :=
  e.2 = true /\ is_Some (parseSegmentName e.1).

Lemma collectSegments_ok dir firsts :
  Forall is_u64 firsts ->
  collectSegments dir ((fun n => (segmentName n, true)) <$> firsts)
  = Ok ((fun n => Segment n 0 (Path dir (segmentName n))) <$> firsts).
Proof.
  induction 1 as [|n firsts Hn _ IH]; [done|].
  cbn [fmap list_fmap collectSegments]. by rewrite parse_segmentName, IH.
Qed.

Lemma collectSegments_inv dir entries segs :
  collectSegments dir entries = Ok segs ->
  exists firsts, Forall is_u64 firsts
    /\ entries = (fun n => (segmentName n, true)) <$> firsts
    /\ segs = (fun n => Segment n 0 (Path dir (segmentName n))) <$> firsts.
Proof.
  revert segs. induction entries as [|[name isReg] entries IH]; intros segs; cbn [collectSegments].
  { intros [= <-]. by exists []. }
  destruct (parseSegmentName name) as [n|] eqn:Hp; [|done]. destruct isReg; [|done].
  destruct (collectSegments dir entries) as [segs'|]; [|done]. intros [= <-].
  apply parseSegmentName_Some in Hp as [Hn ->].
  destruct (IH segs' eq_refl) as (firsts & Hall & -> & ->).
  exists (n :: firsts). split_and!; [by constructor|done|done].
Qed.

Lemma collectSegments_err dir entries e :
  collectSegments dir entries = Err e ->
  exists k, e = kv k /\ reason k = ReasonInternal.
Proof.
  induction entries as [|[name isReg] entries IH]; cbn [collectSegments]; [done|].
  destruct (parseSegmentName name); [destruct isReg|].
  - destruct (collectSegments dir entries); [done|]. intros [= <-]. by apply IH.
  - intros [= <-]. by eexists.
  - intros [= <-]. by eexists.
Qed.

(** The entries of [d] are regular files named after exactly [firsts]. *)
Definition holds_segments (d : directory) (firsts : list Z) : Prop :=
  (forall name e, d_entries d !! name = Some e ->
     (exists f, d_node e = Regular f) /\ exists n, n ∈ firsts /\ name = segmentName n)
  /\ (forall n, n ∈ firsts -> is_Some (d_entries d !! segmentName n)).

Lemma names_NoDup firsts :
  Forall is_u64 firsts -> NoDup firsts -> NoDup (segmentName <$> firsts).
Proof.
  intros Hall Hnd. apply NoDup_fmap_2_strong; [|done].
  intros a b Ha Hb. rewrite Forall_forall in Hall. by apply segmentName_inj; apply Hall.
Qed.

Lemma dir_listing_segments d firsts :
  Forall is_u64 firsts -> NoDup firsts -> holds_segments d firsts ->
  dir_listing d ≡ₚ (fun n => (segmentName n, true)) <$> firsts.
Proof.
  intros Hall Hnd [Hin Hex]. unfold dir_listing.
  rewrite (merge_sort_Permutation String.le).
  assert ((map_to_list (d_entries d)).*1 ≡ₚ segmentName <$> firsts) as Hnames.
  { apply NoDup_Permutation; [apply NoDup_fst_map_to_list|by apply names_NoDup|].
    intros name. rewrite !list_elem_of_fmap. split.
    - intros ([name' e] & -> & He%elem_of_map_to_list).
      destruct (Hin _ _ He) as (_ & n & Hn & Hname). by exists n.
    - intros (n & -> & Hn). destruct (Hex n Hn) as [e He].
      exists (segmentName n, e). split; [done|]. by apply elem_of_map_to_list. }
  rewrite Hnames, <- list_fmap_compose. apply reflexive_eq. apply list_fmap_ext.
  intros i n Hn. simpl. destruct (Hex n) as [[nd b] He]; [by eapply list_elem_of_lookup_2|].
  rewrite He. destruct (Hin _ _ He) as ((f & Hf) & _). simpl in Hf. by rewrite Hf.
Qed.

(** A sorted arrangement of segments with distinct firsts is unique. *)
Lemma merge_sort_segments (mk : Z -> segment) segs firsts :
  (forall n, first (mk n) = n) ->
  StronglySorted Z.lt firsts -> segs ≡ₚ mk <$> firsts ->
  merge_sort seg_le segs = mk <$> firsts.
Proof.
  intros Hmk Hsorted Hperm.
  assert (merge_sort seg_le segs ≡ₚ mk <$> firsts) as Hp by (by rewrite merge_sort_Permutation).
  apply Permutation_map_inv in Hp as (firsts' & Heq & Hp). rewrite Heq. f_equal.
  apply (StronglySorted_unique Z.le); [| |by symmetry].
  - assert (StronglySorted seg_le (mk <$> firsts')) as Hs.
    { change (mk <$> firsts') with (map mk firsts'). rewrite <- Heq.
      apply StronglySorted_merge_sort; apply _. }
    clear -Hs Hmk. induction firsts' as [|n l IH]; [constructor|].
    inversion Hs as [|? ? Hl Hn]; subst. constructor; [by apply IH|].
    change (Forall (seg_le (mk n)) (mk <$> l)) in Hn.
    apply (Forall_fmap mk) in Hn. eapply Forall_impl; [exact Hn|].
    intros m. simpl. unfold seg_le. by rewrite !Hmk.
  - clear -Hsorted. induction Hsorted as [|n l Hl IH Hn]; constructor; [done|].
    eapply Forall_impl; [exact Hn|]. intros; simpl in *; lia.
Qed.

(** What a segment looks like before its records are counted. *)
Definition fresh_segment (dir : string) (n : Z) : segment :=
  Segment n 0 (Path dir (segmentName n)).

Lemma sorted_NoDup firsts : StronglySorted Z.lt firsts -> NoDup firsts.
Proof.
  induction 1 as [|n l _ IH Hn]; constructor; [|done].
  intros Hin. rewrite Forall_forall in Hn. specialize (Hn _ Hin). lia.
Qed.

Lemma collect_sorted dir d firsts :
  Forall is_u64 firsts -> StronglySorted Z.lt firsts -> holds_segments d firsts ->
  exists segs, collectSegments dir (dir_listing d) = Ok segs
    /\ merge_sort seg_le segs = fresh_segment dir <$> firsts.
Proof.
  intros Hall Hsorted Hd.
  pose proof (dir_listing_segments d firsts Hall (sorted_NoDup _ Hsorted) Hd) as Hp.
  apply Permutation_map_inv in Hp as (firsts' & Heq & Hp). rewrite Heq.
  change (map (fun n => (segmentName n, true)) firsts')
    with ((fun n => (segmentName n, true)) <$> firsts').
  eexists. split; [apply collectSegments_ok; by rewrite <- Hp|].
  apply merge_sort_segments; [done|done|]. by rewrite <- Hp.
Qed.

(** ** Properties of names *)

(** C17: segment names and first indexes correspond one to one: parsing
    inverts naming on every 64-bit index, only exact segment names parse, and
    names sort in index order. *)
Theorem segment_names name a b :
  is_u64 a -> is_u64 b ->
  (parseSegmentName name = Some a <-> name = segmentName a)
  /\ (forall n, parseSegmentName name = Some n -> is_u64 n)
  /\ String.compare (segmentName a) (segmentName b) = (a ?= b).
Proof.
  intros Ha Hb. split_and!.
  - split; [by intros [_ ?]%parseSegmentName_Some|intros ->; by apply parse_segmentName].
  - by intros n [? _]%parseSegmentName_Some.
  - rewrite !segmentName_fixed by done. rewrite compare_app by (by rewrite !length_fixed).
    unfold is_u64 in *. rewrite fixed_compare by lia. by destruct (a ?= b).
Qed.

Lemma segment_names_witness :
  parseSegmentName "00000000000000000735.log" = Some 735
  /\ String.compare (segmentName 99) (segmentName 735) = Lt.
Proof.
  split.
  - apply (segment_names _ 735 0); [unfold is_u64; lia|unfold is_u64; lia|vm_compute; reflexivity].
  - apply (segment_names "x.log" 99 735); unfold is_u64; lia.
Defined.
