(* ===== verification/Log.v ===== *)
(** * The command log (internal/storage/log.go)

    The state of a [Log] and its methods, over the file system of Fs.v. Every
    method that holds the mutex from start to end is one transformer of
    [(Log, world)]; [Close] is split at the point where it releases the lock,
    and [Replay] reads the files from a snapshot taken under it. *)

From stdpp Require Import prelude gmap strings list.
From Stdlib Require Import ZArith Lia.
From S2P Require Import Prelude GoBytes GoStrings Kverr Config Record Fs Segment.

Local Open Scope Z_scope.

(** ** Configuration *)

Record LogConfig := mkLogConfig {
  lc_Dir : string;
  lc_SegmentBytes : Z;
  lc_Fsync : FsyncPolicy;
  lc_FsyncInterval : Z;
}.

(** The problems [Validate] collects, in source order. *)
Definition LogConfig_problems (c : LogConfig) : list FieldViolation :=
  (if decide (lc_Dir c = "") then [Violation "Dir" "is required"] else [])
  ++ (if lc_SegmentBytes c <=? 0 then [Violation "SegmentBytes" "must be greater than zero"] else [])
  ++ (if decide (lc_Fsync c = FsyncAlways \/ lc_Fsync c = FsyncOS) then []
      else if decide (lc_Fsync c = FsyncInterval) then
        if lc_FsyncInterval c <=? 0
        then [Violation "FsyncInterval" "must be greater than zero"] else []
      else [Violation "Fsync" "must be always, interval, or os"]).

Definition LogConfig_Validate (c : LogConfig) : option error :=
  match LogConfig_problems c with
  | [] => None
  | problems =>
      Some (kv (WithViolations (New ReasonInvalidArgument "command log configuration is invalid")
                  problems))
  end.

(** ** State *)

(** [syncer]: the background fsync goroutine exists ([stop] is not nil). *)
Record Log := mkLog {
  cfg : LogConfig;
  segments : list segment;
  active : handle;
  activeSize : Z;
  lastIndex : Z;
  dirty : bool;
  failed : option error;
  closed : bool;
  syncer : bool;
}.

Definition set_segments x l := mkLog (cfg l) x (active l) (activeSize l) (lastIndex l) (dirty l) (failed l) (closed l) (syncer l).
Definition set_active x l := mkLog (cfg l) (segments l) x (activeSize l) (lastIndex l) (dirty l) (failed l) (closed l) (syncer l).
Definition set_activeSize x l := mkLog (cfg l) (segments l) (active l) x (lastIndex l) (dirty l) (failed l) (closed l) (syncer l).
Definition set_lastIndex x l := mkLog (cfg l) (segments l) (active l) (activeSize l) x (dirty l) (failed l) (closed l) (syncer l).
Definition set_dirty x l := mkLog (cfg l) (segments l) (active l) (activeSize l) (lastIndex l) x (failed l) (closed l) (syncer l).
Definition set_failed x l := mkLog (cfg l) (segments l) (active l) (activeSize l) (lastIndex l) (dirty l) x (closed l) (syncer l).
Definition set_closed x l := mkLog (cfg l) (segments l) (active l) (activeSize l) (lastIndex l) (dirty l) (failed l) x (syncer l).

(** A log and the world it runs in. *)
Record st := St { st_log : Log; st_w : world }.

Abbreviation LM := (M error st).

Definition io {A} (m : IO A) : LM A := fun s =>
  let '(r, w) := m (st_w s) in (r, St (st_log s) w).
Definition the_log : LM Log := fun s => (Ok (st_log s), s).
Definition upd (f : Log -> Log) : LM unit := fun s => (Ok tt, St (f (st_log s)) (st_w s)).

(** ** Contexts and wrapped failures *)

(** The results of the successive [ctx.Err()] calls a method makes; none left
    means the context stays live. *)
Abbreviation Context := (list (option error)).
Definition ctx_Err (ctx : Context) : option error := default None (head ctx).

Definition contextError {S} (ctx : Context) : M error S unit :=
  match ctx_Err ctx with
  | Some err => fail (kv (Wrap (ReasonOf (Some err)) (Some err) ""))
  | None => mret tt
  end.

(** [kverr.Wrap(kverr.ReasonInternal, err, text)] as an [error]. *)
Definition internal (err : error) (text : string) : error :=
  kv (Wrap ReasonInternal (Some err) text).

(** Runs [m]; a failure returns [internal err text] instead. *)
Definition wrapping {S A} (text : string) (m : M error S A) : M error S A :=
  r ← try m;
  match r with
  | Ok a => mret a
  | Err err => fail (internal err text)
  end.

Lemma wrapping_run {S A} text (m : M error S A) s :
  wrapping text m s
  = match m s with
    | (Ok a, s') => (Ok a, s')
    | (Err e, s') => (Err (internal e text), s')
    end.
Proof. unfold wrapping, try, mbind, M_bind. by destruct (m s) as [[]]. Qed.

Definition errClosed : error := ESentinel "closed".

(** ** Files and directories *)

(** syncdir_unix.go: the entries of [dir] become durable. *)
Definition syncDir (dir : string) : IO unit :=
  wrapping "directory could not be opened for sync" (dir_Open dir);;
  syncErr ← try (dir_Sync dir);
  closeErr ← try dir_Close;
  match syncErr, closeErr with
  | Err err, _ => fail (internal err "directory could not be synced")
  | _, Err err => fail (internal err "directory could not be closed")
  | Ok _, Ok _ => mret tt
  end.

(** syncdir_windows.go: the file system journals its directories itself. *)
Definition syncDir_windows (dir : string) : IO unit := mret tt.

Definition createSegment (p : path) (dir : string) : IO handle :=
  f ← wrapping "command log segment could not be created" (os_OpenFile_create_excl p);
  r ← try (syncDir dir);
  match r with
  | Err err => try (file_Close f);; fail err
  | Ok _ => mret f
  end.

(** ** Methods under the lock *)

Definition writable : LM unit :=
  l ← the_log;
  if closed l then fail (internal errClosed "command log is closed")
  else match failed l with
       | Some err => fail (internal err "command log is unusable after an earlier failure")
       | None => mret tt
       end.

(** Flushes the active segment; a failure is sticky. *)
Definition sync : LM unit :=
  l ← the_log;
  r ← try (io (file_Sync (active l)));
  match r with
  | Err err =>
      let e := internal err "command log fsync failed" in
      upd (set_failed (Some e));; fail e
  | Ok _ => upd (set_dirty false)
  end.

(** Flushes and closes the active segment and starts the one of [next]. *)
Definition rotate (next : Z) : LM unit :=
  l ← the_log;
  (if dirty l then sync else mret tt);;
  r ← try (io (file_Close (active l)));
  upd (set_active (Handle (h_path (active l)) false));;
  match r with
  | Err err => fail (internal err "command log segment could not be closed")
  | Ok _ =>
      let p := Path (lc_Dir (cfg l)) (segmentName next) in
      f ← io (createSegment p (lc_Dir (cfg l)));
      upd (fun l => set_segments (segments l ++ [Segment next (u64 (next - 1)) p]) l);;
      upd (set_active f);;
      upd (set_activeSize 0)
  end.

(** [l.segments[len(l.segments)-1].last = index]. *)
Definition set_last_segment (index : Z) (segs : list segment) : list segment :=
  alter (fun s => Segment (first s) index (seg_path s)) (pred (length segs)) segs.

(** Whether the record needs a new segment. *)
Definition must_rotate (l : Log) (record : bytes) : bool :=
  (0 <? activeSize l) && (lc_SegmentBytes (cfg l) <? s64 (activeSize l + len record)).

Definition Append (ctx : Context) (command : bytes) : LM Z :=
  contextError ctx;;
  (if maxCommandSize <? len command then
     fail (kv (New ReasonInvalidArgument
       ("command of " +:+ Itoa (len command) +:+ " bytes exceeds the "
        +:+ Itoa maxCommandSize +:+ "-byte record limit")))
   else mret tt);;
  writable;;
  l ← the_log;
  let index := u64 (lastIndex l + 1) in
  let record := encodeRecord index command in
  (if must_rotate l record then
     r ← try (rotate index);
     match r with
     | Err err => upd (set_failed (Some err));; fail err
     | Ok _ => mret tt
     end
   else mret tt);;
  l ← the_log;
  r ← try (io (file_Write (active l) record));
  match r with
  | Err err =>
      let e := internal err "command log write failed" in
      upd (set_failed (Some e));; fail e
  | Ok _ => mret tt
  end;;
  upd (fun l => set_activeSize (s64 (activeSize l + len record)) l);;
  upd (set_dirty true);;
  (if decide (lc_Fsync (cfg l) = FsyncAlways) then sync else mret tt);;
  upd (set_lastIndex index);;
  upd (fun l => set_segments (set_last_segment index (segments l)) l);;
  mret index.

Definition LastIndex : LM Z := l ← the_log; mret (lastIndex l).

(** One tick of the background syncer. *)
Definition syncIfDirty : LM unit :=
  l ← the_log;
  if negb (dirty l) || bool_decide (is_Some (failed l)) || closed l then mret tt
  else
    r ← try sync;
    match r with
    | Err err => io (emit (Line "ERROR" "command log background fsync failed; refusing further writes"
                             [("error", error_text err)]))
    | Ok _ => mret tt
    end.

(** ** Close

    [Close_begin] is what runs under the first lock: [false] means the log was
    closed already. The syncer is then stopped without the lock, and
    [Close_finish] flushes and closes the file. *)
Definition Close_begin : LM bool :=
  l ← the_log;
  if closed l then mret false else upd (set_closed true);; mret true.

Definition Close_finish : LM unit :=
  l ← the_log;
  syncErr ← (if bool_decide (failed l = None) && dirty l then try sync else mret (Ok tt));
  l ← the_log;
  r ← try (io (file_Close (active l)));
  upd (set_active (Handle (h_path (active l)) false));;
  match r with
  | Err err =>
      let joined := match syncErr with Err e => [e; err] | Ok _ => [err] end in
      fail (internal (EJoin joined) "command log could not be closed")
  | Ok _ => lift syncErr
  end.

Definition Close : LM unit :=
  fresh ← Close_begin;
  if fresh : bool then Close_finish else mret tt.

(** ** Replay *)

(** A replay in progress: the world it reads, the polls its context has left
    and the state of the callback. *)
Record replay_st (A : Type) := RSt { rs_w : world; rs_ctx : Context; rs_acc : A }.
Arguments RSt {A} _ _ _.
Arguments rs_w {A} _.
Arguments rs_ctx {A} _.
Arguments rs_acc {A} _.

Section replay.
Context {A : Type}.
(** The callback: its new state, and the error it returns if any. *)
Variable fn : A -> Z -> bytes -> A * option error.

Abbreviation RM := (M error (replay_st A)).

Definition r_poll : RM unit := fun s =>
  let s' := RSt (rs_w s) (tail (rs_ctx s)) (rs_acc s) in
  contextError (rs_ctx s) s'.

Definition r_call (index : Z) (command : bytes) : RM unit := fun s =>
  let '(a, err) := fn (rs_acc s) index command in
  let s' := RSt (rs_w s) (rs_ctx s) a in
  match err with
  | Some e => (Err (EWrapf "storage.Log.Replay: " e ""), s')
  | None => (Ok tt, s')
  end.

Definition r_io {B} (m : IO B) : RM B := fun s =>
  let '(r, w) := m (rs_w s) in (r, RSt w (rs_ctx s) (rs_acc s)).

(** The error of a record that no longer reads back as it was written. *)
Definition changed_on_disk (seg : segment) (offset : Z) (err : error) : error :=
  internal err ("command log segment " +:+ p_base (seg_path seg)
                +:+ " changed on disk at offset " +:+ Itoa offset).

(** The loop over the records of a segment: [rest] is [data[offset:]]. Every
    iteration consumes a record of at least sixteen bytes, so fuel above the
    length of the data is never exhausted. *)
Fixpoint replay_loop (fuel : nat) (seg : segment) (from bound : Z)
    (rest : bytes) (offset want : Z) : RM unit :=
  match fuel with
  | O => fail (ESentinel "replay fuel")
  | S fuel' =>
      if want <=? bound then
        r_poll;;
        match decodeRecord rest with
        | Err err => fail (changed_on_disk seg offset err)
        | Ok (index, command, size) =>
            if negb (index =? want) then
              fail (changed_on_disk seg offset
                (EForeign ("record index " +:+ FormatUint index +:+ ", expected " +:+ FormatUint want)))
            else
              (if from <=? index then r_call index command else mret tt);;
              replay_loop fuel' seg from bound (drop (Z.to_nat size) rest) (offset + size)
                (u64 (want + 1))
        end
      else mret tt
  end.

Definition replaySegment (seg : segment) (from last_ : Z) : RM unit :=
  data ← wrapping "command log segment could not be read" (r_io (os_ReadFile (seg_path seg)));
  replay_loop (S (length data)) seg from (Z.min (last seg) last_) data 0 (first seg).

(** The segments of the snapshot, in order. *)
Fixpoint replay_segments (segs : list segment) (from last_ : Z) : RM unit :=
  match segs with
  | [] => mret tt
  | seg :: segs' =>
      (if (last seg <? from) || (last_ <? first seg) then mret tt
       else replaySegment seg from last_);;
      replay_segments segs' from last_
  end.

(** [Replay] from the snapshot [(segs, last_)] taken under the lock. *)
Definition Replay_snapshot (segs : list segment) (last_ from : Z) (ctx : Context) (a : A) (w : world)
    : result error unit * replay_st A :=
  replay_segments segs from last_ (RSt w ctx a).

Definition Replay (ctx : Context) (from : Z) (a : A) (s : st) : result error unit * replay_st A :=
  Replay_snapshot (segments (st_log s)) (lastIndex (st_log s)) from ctx a (st_w s).
End replay.
