(* ===== verification/Recovery.v ===== *)
(** * Opening and recovering the log (internal/storage/log_recovery.go, OpenLog)

    Every record of every segment is verified on open. A damaged tail of the
    last segment is truncated; any other damage refuses to open. *)

From stdpp Require Import prelude gmap strings list.
From Stdlib Require Import ZArith Lia.
From S2P Require Import Prelude GoBytes GoStrings Kverr Config Record Fs Segment Log.

Local Open Scope Z_scope.

Definition errOutOfSequence : error := ESentinel "record index is out of sequence".

(** The error for damage that is not a torn tail. *)
Definition corruption (p : path) (offset : Z) (damage : error) : error :=
  internal damage
    ("command log is corrupted in segment " +:+ p_base p +:+ " at offset " +:+ Itoa offset
     +:+ "; refusing to open it, restore the node from a backup or a replica").

(** The verification loop: [rest] is [data[offset:]]. It stops at the end of the
    data or at the first damage, with the offset and the index it expected. *)
Fixpoint verify_loop (fuel : nat) (rest : bytes) (offset next : Z)
    : option (Z * Z * option error) :=
  match fuel with
  | O => None
  | S fuel' =>
      match rest with
      | [] => Some (offset, next, None)
      | _ =>
          match decodeRecord rest with
          | Err err => Some (offset, next, Some err)
          | Ok (index, _, size) =>
              if negb (index =? next) then
                Some (offset, next, Some (EWrapf "" errOutOfSequence
                  (": found " +:+ FormatUint index +:+ ", expected " +:+ FormatUint next)))
              else verify_loop fuel' (drop (Z.to_nat size) rest) (offset + size) (u64 (next + 1))
          end
      end
  end.

(** Each record takes at least sixteen bytes: this fuel is never exhausted. *)
Definition verify_data (data : bytes) (first : Z) : Z * Z * option error :=
  default (0, 0, None) (verify_loop (S (length data)) data 0 first).

(** [errors.Join] of two results. *)
Definition joined (a b : result error unit) : option error :=
  match a, b with
  | Ok _, Ok _ => None
  | Err e, Ok _ => Some (EJoin [e])
  | Ok _, Err e => Some (EJoin [e])
  | Err e1, Err e2 => Some (EJoin [e1; e2])
  end.

Definition truncateTail (p : path) (offset : Z) (damage : error) : IO unit :=
  wrapping "torn command log tail could not be truncated" (os_Truncate p offset);;
  f ← wrapping "command log segment could not be opened" (os_OpenFile_write p);
  syncErr ← try (file_Sync f);
  closeErr ← try (file_Close f);
  match joined syncErr closeErr with
  | Some err => fail (internal err "truncated command log segment could not be flushed")
  | None =>
      emit (Line "WARN"
        "command log tail was damaged, probably by a crash during a write; truncated it"
        [("segment", p_base p); ("offset", Itoa offset); ("damage", error_text damage)])
  end.

(** The segment with its last index set, and its valid size in bytes. *)
Definition verifySegment (seg : segment) (isLast : bool) : IO (segment * Z) :=
  data ← wrapping "command log segment could not be read" (os_ReadFile (seg_path seg));
  let '(offset, next, damage) := verify_data data (first seg) in
  let seg' := Segment (first seg) (u64 (next - 1)) (seg_path seg) in
  match damage with
  | None => mret (seg', s64 offset)
  | Some err =>
      if negb isLast || errors_Is err errOutOfSequence
         || hasLaterRecord (drop (Z.to_nat offset) data) next
      then fail (corruption (seg_path seg) offset err)
      else truncateTail (seg_path seg) offset err;; mret (seg', s64 offset)
  end.

(** The loop of [recover] over the segments: [prev] is the last index of the
    previous one. Returns the verified segments and the size of the last. *)
Fixpoint verify_segments (prev : option Z) (segs : list segment) : IO (list segment * Z) :=
  match segs with
  | [] => mret ([], 0)
  | seg :: segs' =>
      match prev with
      | Some p =>
          if negb (first seg =? u64 (p + 1)) then
            fail (corruption (seg_path seg) 0 (EForeign
              ("segment starts at index " +:+ FormatUint (first seg) +:+ ", expected "
               +:+ FormatUint (u64 (p + 1)))))
          else mret tt
      | None => mret tt
      end;;
      let isLast := match segs' with [] => true | _ => false end in
      v ← verifySegment seg isLast;
      let '(seg', size) := v in
      if isLast then mret ([seg'], size)
      else
        rest ← verify_segments (Some (last seg')) segs';
        let '(segs'', size') := rest in mret (seg' :: segs'', size')
  end.

Definition startFirstSegment (l : Log) : IO Log :=
  let p := Path (lc_Dir (cfg l)) (segmentName 1) in
  f ← createSegment p (lc_Dir (cfg l));
  mret (set_active f (set_segments [Segment 1 0 p] l)).

(** The last segment of a verified list. *)
Definition last_segment (segs : list segment) : segment :=
  List.last segs (Segment 0 0 (Path "" "")).

Definition recover (l : Log) : IO Log :=
  segs ← listSegments (lc_Dir (cfg l));
  match segs with
  | [] => startFirstSegment l
  | _ =>
      v ← verify_segments None segs;
      let '(segs', size) := v in
      let lastSeg := last_segment segs' in
      f ← wrapping "command log segment could not be opened" (os_OpenFile_write (seg_path lastSeg));
      mret (set_lastIndex (last lastSeg) (set_active f (set_segments segs' (set_activeSize size l))))
  end.

(** The zero [Log] with its configuration. *)
Definition newLog (c : LogConfig) : Log :=
  mkLog c [] (Handle (Path "" "") false) 0 0 false None false false.

Definition OpenLog (ctx : Context) (c : LogConfig) : IO Log :=
  contextError ctx;;
  match LogConfig_Validate c with
  | Some err => fail err
  | None => mret tt
  end;;
  wrapping "command log directory could not be created" (os_MkdirAll (lc_Dir c));;
  l ← recover (newLog c);
  mret (mkLog (cfg l) (segments l) (active l) (activeSize l) (lastIndex l) (dirty l) (failed l)
          (closed l) (bool_decide (lc_Fsync c = FsyncInterval))).

(** ** A log on a fresh directory, end to end *)
Definition demo_cfg : LogConfig := mkLogConfig "log" 64 FsyncAlways 0.

Definition demo_run (cmds : list bytes) : result error (list Z) * st :=
  match OpenLog [] demo_cfg (World ∅ [] [] ∅) with
  | (Ok l, w) => mapM (Append []) cmds (St l w)
  | (Err e, w) => (Err e, St (newLog demo_cfg) w)
  end.

Definition collect (acc : list (Z * bytes)) (i : Z) (c : bytes) : list (Z * bytes) * option error :=
  ((acc ++ [(i, c)])%list, None).

Example demo_append_replay :
  let cmds := String.list_byte_of_string <$> ["put"; "delete-a-long-key"; ""; "x"]%string in
  let '(r, s) := demo_run cmds in
  r = Ok [1; 2; 3; 4]
  /\ (first <$> segments (st_log s)) = [1; 3]
  /\ rs_acc (Replay collect [] 2 [] s).2 = [(2, cmds !!! 1%nat); (3, []); (4, cmds !!! 3%nat)].
Proof. vm_compute. auto. Qed.
