(* ===== verification/LogRepr.v ===== *)
(** * Segment contents

    A run of commands as the bytes of a segment, and what the two loops that
    read segments (verification on open, and replay) do on such bytes and on
    any others. *)

From stdpp Require Import prelude gmap strings list.
From Stdlib Require Import ZArith Lia.
From S2P Require Import Prelude GoBytes GoStrings Kverr Config Record Fs FsFacts Segment Log Recovery.

Local Open Scope Z_scope.

#[global] Arguments encodeRecord : simpl never.
#[global] Arguments decodeRecord : simpl never.
#[global] Arguments len : simpl never.

(** ** Commands as bytes *)

(** What [encode_from] writes, as indexes and commands. *)
Fixpoint records (i : Z) (cs : list bytes) : list (Z * bytes) :=
  match cs with
  | [] => []
  | c :: cs' => (i, c) :: records (i + 1) cs'
  end.

(** Commands [Append] accepts. *)
Definition wf_cmds (cs : list bytes) : Prop := Forall (fun c => len c <= maxCommandSize) cs.

Lemma len_cons {A} (x : A) l : len (x :: l) = 1 + len l.
Proof. unfold len. simpl. lia. Qed.
Lemma len_nil {A} : len (@nil A) = 0.
Proof. done. Qed.

Lemma encode_from_app i cs1 cs2 :
  encode_from i (cs1 ++ cs2) = encode_from i cs1 ++ encode_from (i + len cs1) cs2.
Proof.
  revert i. induction cs1 as [|c cs1 IH]; intros i; cbn [encode_from records app].
  - by rewrite len_nil, Z.add_0_r.
  - rewrite IH, <- app_assoc, len_cons, Z.add_assoc. done.
Qed.

Lemma encode_from_snoc i cs c :
  encode_from i (cs ++ [c]) = encode_from i cs ++ encodeRecord (i + len cs) c.
Proof. rewrite encode_from_app. simpl. by rewrite app_nil_r. Qed.

Lemma records_app i cs1 cs2 :
  records i (cs1 ++ cs2) = records i cs1 ++ records (i + len cs1) cs2.
Proof.
  revert i. induction cs1 as [|c cs1 IH]; intros i; cbn [encode_from records app].
  - by rewrite len_nil, Z.add_0_r.
  - rewrite IH, len_cons, Z.add_assoc. done.
Qed.

Lemma length_records i cs : length (records i cs) = length cs.
Proof. revert i. induction cs as [|c cs IH]; intros i; simpl; [done|]. by rewrite IH. Qed.

Lemma encode_from_length i cs : (length cs <= length (encode_from i cs))%nat.
Proof.
  revert i. induction cs as [|c cs IH]; intros i; cbn [encode_from length]; [lia|].
  rewrite length_app, length_encodeRecord. specialize (IH (i + 1)). lia.
Qed.

Lemma encode_from_nil i cs : encode_from i cs = [] -> cs = [].
Proof.
  intros H. pose proof (encode_from_length i cs) as Hl. rewrite H in Hl.
  destruct cs; [done|simpl in Hl; lia].
Qed.

(** The index field wraps as the 64-bit counter does. *)
Lemma encodeRecord_u64 i c : encodeRecord (u64 i) c = encodeRecord i c.
Proof.
  assert (forall n v, PutUintLE n (v mod 2 ^ (8 * Z.of_nat n)) = PutUintLE n v) as H.
  { intros n v. rewrite <- (UintLE_PutUintLE n v).
    rewrite <- (length_PutUintLE n v) at 1. apply PutUintLE_UintLE. }
  unfold encodeRecord, PutUint64, u64. pose proof (H 8%nat i) as H8.
  change (2 ^ (8 * Z.of_nat 8)) with (2 ^ 64) in H8. by rewrite H8.
Qed.

Lemma encode_from_u64 i cs : encode_from (u64 i) cs = encode_from i cs.
Proof.
  assert (forall j, u64 i = u64 j -> encode_from j cs = encode_from i cs) as H.
  { revert i. induction cs as [|c cs IH]; intros i j Hij; cbn [encode_from]; [done|].
    rewrite <- (encodeRecord_u64 j), <- (encodeRecord_u64 i), Hij. f_equal. apply IH.
    unfold u64 in *. rewrite Z.add_mod, Hij, <- Z.add_mod by lia. done. }
  apply H. unfold u64. by rewrite Z.mod_mod by lia.
Qed.

(** ** Verification *)

Lemma verify_loop_fuel fuel rest offset next :
  (length rest < fuel)%nat -> is_Some (verify_loop fuel rest offset next).
Proof.
  revert rest offset next. induction fuel as [|fuel IH]; intros rest offset next Hf; [lia|].
  cbn [verify_loop]. destruct rest as [|b rest]; [eauto|].
  destruct (decodeRecord (b :: rest)) as [[[i c] size]|] eqn:Hdec; [|eauto].
  apply decode_sound in Hdec as (_ & -> & _). pose proof (len_nonneg c).
  case_match; [eauto|]. apply IH. rewrite length_drop. simpl in *. lia.
Qed.

(** What stops the verification in front of [rest]. *)
Inductive damage_at (next : Z) : bytes -> option error -> Prop :=
| damage_none : damage_at next [] None
| damage_decode rest err :
    rest <> [] -> decodeRecord rest = Err err -> damage_at next rest (Some err)
| damage_sequence i c rest text :
    wf_record i c -> i <> next ->
    damage_at next (encodeRecord i c ++ rest) (Some (EWrapf "" errOutOfSequence text)).

Lemma verify_loop_step fuel c rest offset next :
  wf_record next c ->
  verify_loop (S fuel) (encodeRecord next c ++ rest) offset next
  = verify_loop fuel rest (offset + (16 + len c)) (u64 (next + 1)).
Proof.
  intros Hwf. cbn [verify_loop].
  destruct (encodeRecord next c ++ rest) as [|b l] eqn:Hbuf.
  { apply app_nil in Hbuf as [Hbuf _]. by apply encodeRecord_nonempty in Hbuf. }
  rewrite <- Hbuf, decode_encode by done. rewrite Z.eqb_refl. cbn [negb].
  rewrite drop_app_length'; [done|]. rewrite length_encodeRecord. unfold len. lia.
Qed.

Lemma verify_loop_records fuel cs rest offset next :
  is_u64 next -> wf_cmds cs -> (length cs < fuel)%nat ->
  verify_loop fuel (encode_from next cs ++ rest) offset next
  = verify_loop (fuel - length cs) rest (offset + len (encode_from next cs)) (u64 (next + len cs)).
Proof.
  revert fuel offset next. induction cs as [|c cs IH]; intros fuel offset next Hn Hwf Hf.
  { simpl. rewrite len_nil, !Z.add_0_r, u64_small by done. f_equal. lia. }
  inversion Hwf as [|? ? Hc Hcs]; subst. destruct fuel as [|fuel]; [lia|].
  cbn [encode_from]. rewrite <- app_assoc, verify_loop_step by done.
  rewrite <- encode_from_u64, IH; [|apply u64_range|done|simpl in Hf; lia].
  rewrite len_app, len_encodeRecord, len_cons. cbn [length Nat.sub]. f_equal; [lia|].
  unfold u64. rewrite Z.add_mod_idemp_l by lia. f_equal. lia.
Qed.

Lemma verify_data_records cs rest next :
  is_u64 next -> wf_cmds cs ->
  exists fuel, (length rest < fuel)%nat /\
  verify_data (encode_from next cs ++ rest) next
  = default (0, 0, None)
      (verify_loop fuel rest (len (encode_from next cs)) (u64 (next + len cs))).
Proof.
  intros Hn Hwf. eexists. split; [|unfold verify_data].
  2:{ rewrite verify_loop_records; [done|done|done|].
      rewrite length_app. pose proof (encode_from_length next cs). lia. }
  rewrite length_app. pose proof (encode_from_length next cs). lia.
Qed.

(** Intact records, whole and in sequence. *)
Lemma verify_data_ok cs next :
  is_u64 next -> wf_cmds cs ->
  verify_data (encode_from next cs) next = (len (encode_from next cs), u64 (next + len cs), None).
Proof.
  intros Hn Hwf. destruct (verify_data_records cs [] next Hn Hwf) as (fuel & Hf & H).
  rewrite app_nil_r in H. rewrite H. destruct fuel; [simpl in Hf; lia|]. done.
Qed.

(** Intact records, then bytes that do not decode. *)
Lemma verify_data_damaged cs rest next err :
  is_u64 next -> wf_cmds cs -> rest <> [] -> decodeRecord rest = Err err ->
  verify_data (encode_from next cs ++ rest) next
  = (len (encode_from next cs), u64 (next + len cs), Some err).
Proof.
  intros Hn Hwf Hne Herr. destruct (verify_data_records cs rest next Hn Hwf) as (fuel & Hf & ->).
  destruct fuel; [lia|]. cbn [verify_loop]. destruct rest; [done|]. by rewrite Herr.
Qed.

(** [data] as verification sees it: the longest run of intact records in
    sequence from [next], ending at [offset'] with [next'] expected, and what
    stopped it. *)
Definition verified (data : bytes) (offset next offset' next' : Z) (dmg : option error) : Prop :=
  exists cs rest, data = encode_from next cs ++ rest /\ wf_cmds cs
    /\ offset' = offset + len (encode_from next cs) /\ next' = u64 (next + len cs)
    /\ damage_at next' rest dmg.

Lemma verified_stop data offset next dmg :
  is_u64 next -> damage_at next data dmg -> verified data offset next offset next dmg.
Proof.
  intros Hn Hd. exists [], data. cbn [encode_from]. unfold len. simpl.
  rewrite !Z.add_0_r, u64_small by done. split_and!; [done|constructor|done..].
Qed.

Lemma verified_step c data offset next offset' next' dmg :
  len c <= maxCommandSize ->
  verified data (offset + (16 + len c)) (u64 (next + 1)) offset' next' dmg ->
  verified (encodeRecord next c ++ data) offset next offset' next' dmg.
Proof.
  intros Hc (cs & rest & -> & Hwf & -> & -> & Hdmg). exists (c :: cs), rest.
  rewrite encode_from_u64. cbn [encode_from].
  rewrite <- app_assoc, len_app, len_encodeRecord, len_cons.
  assert (u64 (u64 (next + 1) + len cs) = u64 (next + (1 + len cs))) as Heq.
  { unfold u64. rewrite Z.add_mod_idemp_l by lia. f_equal. lia. }
  rewrite Heq in Hdmg |- *. split_and!; [done|by constructor|lia|done|done].
Qed.

Lemma verify_loop_sound fuel data offset next offset' next' dmg :
  is_u64 next ->
  verify_loop fuel data offset next = Some (offset', next', dmg) ->
  verified data offset next offset' next' dmg.
Proof.
  revert data offset next. induction fuel as [|fuel IH]; intros data offset next Hn H; [done|].
  cbn [verify_loop] in H. destruct data as [|b data].
  { injection H as <- <- <-. apply verified_stop; [done|constructor]. }
  destruct (decodeRecord (b :: data)) as [[[i c] size]|err] eqn:Hdec.
  2:{ injection H as <- <- <-. apply verified_stop; [done|by constructor]. }
  apply decode_sound in Hdec as ([Hi Hc] & -> & rest & Hbuf). rewrite Hbuf in H |- *.
  destruct (Z.eqb_spec i next) as [->|Hne]; cbn [negb] in H.
  - rewrite drop_app_length' in H by (rewrite length_encodeRecord; unfold len; lia).
    apply verified_step; [done|]. apply IH in H; [done|apply u64_range].
  - injection H as <- <- <-. apply verified_stop; [done|by constructor].
Qed.

Lemma verify_data_sound data next offset' next' dmg :
  is_u64 next -> verify_data data next = (offset', next', dmg) ->
  verified data 0 next offset' next' dmg.
Proof.
  intros Hn H. unfold verify_data in H.
  destruct (verify_loop_fuel (S (length data)) data 0 next) as [x Hx]; [lia|].
  rewrite Hx in H. simpl in H. subst x. by apply verify_loop_sound in Hx.
Qed.
