(* ===== verification/ReplayFacts.v ===== *)
(** * Replaying segments

    What [replaySegment] hands to its callback when a segment file starts with
    the records it was written with, whatever follows them. *)

From stdpp Require Import prelude gmap strings list.
From Stdlib Require Import ZArith Lia.
From S2P Require Import Prelude GoBytes GoStrings Kverr Config Record Fs FsFacts Segment Log Recovery LogRepr.

Local Open Scope Z_scope.

(** No poll of the context reports an error. *)
Definition live (ctx : Context) : Prop := Forall (eq None) ctx.

(** The records with an index of at least [from]. *)
Definition selected (from : Z) (rs : list (Z * bytes)) : list (Z * bytes) :=
  filter (fun r => from <= r.1) rs.

Section replay_facts.
Context {A : Type}.
Variable fn : A -> Z -> bytes -> A * option error.

(** The callback run over [rs] in order, up to its first error. *)
Fixpoint deliver (a : A) (rs : list (Z * bytes)) : A * option error :=
  match rs with
  | [] => (a, None)
  | (i, c) :: rs' =>
      match fn a i c with
      | (a', None) => deliver a' rs'
      | (a', Some e) => (a', Some e)
      end
  end.

Lemma deliver_app a rs1 rs2 :
  deliver a (rs1 ++ rs2)
  = match deliver a rs1 with
    | (a', None) => deliver a' rs2
    | (a', Some e) => (a', Some e)
    end.
Proof.
  revert a. induction rs1 as [|[i c] rs1 IH]; intros a; simpl; [done|].
  destruct (fn a i c) as [a' [e|]]; [done|]. apply IH.
Qed.

(** A replay of [rs] from state [s] that ended with [r]: everything was
    delivered; or it stopped between two records, which needs a fault or a
    cancelled context; or the callback stopped it. *)
Inductive replayed (s : replay_st A) (rs : list (Z * bytes)) :
    result error unit -> replay_st A -> Prop :=
| replayed_all s' :
    deliver (rs_acc s) rs = (rs_acc s', None) -> replayed s rs (Ok tt) s'
| replayed_stopped n e s' :
    ~ (faultless (rs_w s) /\ live (rs_ctx s)) ->
    deliver (rs_acc s) (take n rs) = (rs_acc s', None) -> replayed s rs (Err e) s'
| replayed_refused n e s' :
    deliver (rs_acc s) (take n rs) = (rs_acc s', Some e) ->
    replayed s rs (Err (EWrapf "storage.Log.Replay: " e "")) s'.

(** [m] replays [rs] in every world that satisfies [P]. *)
Definition replays (P : world -> Prop) (rs : list (Z * bytes)) (m : M error (replay_st A) unit) : Prop :=
  forall s r s', P (rs_w s) -> m s = (r, s') ->
    quiet (rs_w s) (rs_w s') /\ (live (rs_ctx s) -> live (rs_ctx s')) /\ replayed s rs r s'.

Lemma replays_ret P : replays P [] (mret tt).
Proof. intros s r s' _ [= <- <-]. split_and!; [apply quiet_refl|done|by constructor]. Qed.

Lemma replays_seq P rs1 rs2 m1 m2 :
  Proper (wequiv ==> iff) P ->
  replays P rs1 m1 -> replays P rs2 m2 -> replays P (rs1 ++ rs2) (m1;; m2).
Proof.
  intros HP H1 H2 s r s' Hs H. unfold mbind, M_bind in H. destruct (m1 s) as [r1 s1] eqn:Hm1.
  destruct (H1 _ _ _ Hs Hm1) as (Hq1 & Hl1 & Hr1). inversion Hr1 as [? Hd|n e ? Hnf Hd|n e ? Hd]; subst.
  - apply H2 in H as (Hq2 & Hl2 & Hr2); [|by rewrite <- (proj1 Hq1)].
    split_and!; [by eapply quiet_trans|auto|].
    inversion Hr2 as [? Hd2|n e ? Hnf Hd2|n e ? Hd2]; subst.
    + constructor. by rewrite deliver_app, Hd.
    + apply (replayed_stopped _ _ (length rs1 + n)).
      * intros [Hf Hl]. apply Hnf. split; [by apply Hq1|auto].
      * by rewrite take_app_add, deliver_app, Hd.
    + apply (replayed_refused _ _ (length rs1 + n)).
      by rewrite take_app_add, deliver_app, Hd.
  - injection H as <- <-. split_and!; [done|done|].
    apply (replayed_stopped _ _ (n `min` length rs1)); [done|].
    rewrite take_app_le, <- take_take, firstn_all by lia. done.
  - injection H as <- <-. split_and!; [done|done|].
    apply (replayed_refused _ _ (n `min` length rs1)).
    rewrite take_app_le, <- take_take, firstn_all by lia. done.
Qed.

Lemma replays_poll P : replays P [] r_poll.
Proof.
  intros s r s' _ H. unfold r_poll, contextError, ctx_Err in H.
  destruct (rs_ctx s) as [|[err|] ctx] eqn:Hctx; simpl in H; injection H as <- <-;
    (split_and!; [apply quiet_refl| |]); simpl; rewrite ?Hctx;
    try (by inversion 1); try (by constructor).
  apply (replayed_stopped _ _ 0); [|done]. rewrite Hctx. intros [_ H]. by inversion H.
Qed.

Lemma replays_call P i c : replays P [(i, c)] (r_call fn i c).
Proof.
  intros s r s' _ H. unfold r_call in H. destruct (fn (rs_acc s) i c) as [a [e|]] eqn:Hfn;
    injection H as <- <-; (split_and!; [apply quiet_refl|done|]).
  - apply (replayed_refused _ _ 1). simpl. by rewrite Hfn.
  - constructor. simpl. by rewrite Hfn.
Qed.

Lemma selected_cons from i c rs :
  selected from ((i, c) :: rs) = (if from <=? i then [(i, c)] else []) ++ selected from rs.
Proof. unfold selected. rewrite filter_cons. simpl. case_decide; case_match; try lia; done. Qed.

Lemma selected_app from rs1 rs2 : selected from (rs1 ++ rs2) = selected from rs1 ++ selected from rs2.
Proof. apply filter_app. Qed.

Lemma replay_loop_spec P fuel seg from cs more offset want :
  Proper (wequiv ==> iff) P ->
  0 <= want -> want + len cs < 2 ^ 64 -> wf_cmds cs -> (length cs < fuel)%nat ->
  replays P (selected from (records want cs))
    (replay_loop fn fuel seg from (want + len cs - 1) (encode_from want cs ++ more) offset want).
Proof.
  intros HP. revert fuel offset want. induction cs as [|c cs IH];
    intros fuel offset want Hw Hb Hwf Hf; (destruct fuel as [|fuel]; [lia|]); cbn [replay_loop].
  { rewrite (proj2 (Z.leb_gt _ _)) by (unfold len; simpl; lia). apply replays_ret. }
  inversion Hwf as [|? ? Hc Hcs]; subst. rewrite len_cons in *. pose proof (len_nonneg cs).
  rewrite (proj2 (Z.leb_le _ _)) by lia.
  cbn [encode_from records]. rewrite <- app_assoc, decode_encode by (split; [unfold is_u64; lia|done]).
  rewrite Z.eqb_refl. cbn [negb]. rewrite selected_cons.
  apply (replays_seq P []); [done|apply replays_poll|].
  apply replays_seq; [done| |].
  - destruct (from <=? want); [apply replays_call|apply replays_ret].
  - rewrite drop_app_length' by (rewrite length_encodeRecord; unfold len; lia).
    rewrite u64_small by (unfold is_u64; lia).
    replace (want + (1 + len cs) - 1) with (want + 1 + len cs - 1) by lia.
    apply IH; [lia|lia|done|simpl in Hf; lia].
Qed.

(** A file that starts with [data]. *)
Definition file_starts (p : path) (data : bytes) (w : world) : Prop :=
  exists f more, file_of p w = Some f /\ f_data f = data ++ more.

#[export] Instance file_starts_proper p data : Proper (wequiv ==> iff) (file_starts p data).
Proof. intros w w' Hw. unfold file_starts. by setoid_rewrite Hw. Qed.

Lemma replaySegment_spec seg from last_ cs :
  0 <= first seg -> first seg + len cs < 2 ^ 64 -> wf_cmds cs ->
  last seg = first seg + len cs - 1 -> last seg <= last_ ->
  replays (file_starts (seg_path seg) (encode_from (first seg) cs))
    (selected from (records (first seg) cs)) (replaySegment fn seg from last_).
Proof.
  intros Hf Hb Hwf Hlast Hle s r s' (f & more & Hfile & Hdata) H.
  unfold replaySegment in H. unfold mbind, M_bind in H. rewrite wrapping_run in H. unfold r_io in H.
  destruct (os_ReadFile (seg_path seg) (rs_w s)) as [rd w1] eqn:Hrd.
  destruct (os_ReadFile_inv _ _ _ _ Hrd) as (Hq & [(f' & Hf' & ->)|(e & -> & Hnf)]).
  - rewrite Hfile in Hf'. injection Hf' as <-.
    rewrite Hdata, Hlast, Z.min_l in H by lia.
    apply (replay_loop_spec (fun _ => True)) in H as (Hq2 & Hl2 & Hr);
      [|solve_proper|done|done|done| |done].
    2:{ rewrite length_app. pose proof (encode_from_length (first seg) cs). lia. }
    simpl in *. split_and!; [by eapply quiet_trans|done|].
    inversion Hr as [? Hd|n e ? Hnf Hd|n e ? Hd]; subst; [by constructor| |by eapply replayed_refused].
    eapply replayed_stopped; [|done]. simpl in Hnf. intros [Hfl Hlv]. apply Hnf. split; [by apply Hq|done].
  - injection H as <- <-. split_and!; [done|done|].
    apply (replayed_stopped _ _ 0); [|done]. intros [Hfl _]. rewrite Hnf in Hfile by done. done.
Qed.
End replay_facts.
