(* ===== verification/LogView.v ===== *)
(** * What a log directory holds

    The abstract view of a command log: a sequence of commands from a base
    index, cut into segments, with what a failed write may have left behind it.
    [dir_repr] relates a view to the files of the directory, [log_repr] to the
    state of an open [Log]. *)

From stdpp Require Import prelude gmap strings list sorting.
From Stdlib Require Import ZArith Lia.
From S2P Require Import Prelude GoBytes GoStrings Kverr Config Record Fs FsFacts Segment Log Recovery LogRepr.

Local Open Scope Z_scope.

(** ** Views *)

(** [v_junk] is what an unacknowledged write left after the last record,
    [v_disk] the flushed contents of the active segment, and [v_orphan] an
    empty next segment that a failed rotation created, with whether its
    directory entry is durable. *)
Record view := View {
  v_base : Z;
  v_closed : list (list bytes);
  v_active : list bytes;
  v_junk : bytes;
  v_disk : bytes;
  v_orphan : option bool;
}.

Definition v_parts (v : view) : list (list bytes) := v_closed v ++ [v_active v].
(** The commands of the log, and the index after the last. *)
Definition v_cmds (v : view) : list bytes := concat (v_parts v).
Definition v_next (v : view) : Z := v_base v + len (v_cmds v).
(** The first index of the active segment, its records, its contents. *)
Definition v_start (v : view) : Z := v_base v + len (concat (v_closed v)).
Definition v_records (v : view) : bytes := encode_from (v_start v) (v_active v).
Definition v_data (v : view) : bytes := v_records v ++ v_junk v.

(** Each part with its first index. *)
Fixpoint starts (i : Z) (parts : list (list bytes)) : list (Z * list bytes) :=
  match parts with
  | [] => []
  | p :: ps => (i, p) :: starts (i + len p) ps
  end.

Lemma starts_app i ps qs : starts i (ps ++ qs) = starts i ps ++ starts (i + len (concat ps)) qs.
Proof.
  revert i. induction ps as [|p ps IH]; intros i; cbn [app starts concat].
  - by rewrite len_nil, Z.add_0_r.
  - by rewrite IH, len_app, Z.add_assoc.
Qed.

Lemma starts_snoc i ps p : starts i (ps ++ [p]) = starts i ps ++ [(i + len (concat ps), p)].
Proof. by rewrite starts_app. Qed.

(** Every part lies between the base and the end of the commands. *)
Lemma starts_range i ps j p :
  (j, p) ∈ starts i ps -> i <= j /\ j + len p <= i + len (concat ps).
Proof.
  revert i. induction ps as [|q ps IH]; intros i; cbn [starts concat]; [by intros ?%not_elem_of_nil|].
  rewrite len_app. pose proof (len_nonneg q). pose proof (len_nonneg (concat ps)).
  intros [[= -> ->]|Hin]%elem_of_cons; [lia|]. apply IH in Hin. lia.
Qed.

Lemma starts_Forall (P : list bytes -> Prop) i ps j p :
  Forall P ps -> (j, p) ∈ starts i ps -> P p.
Proof.
  intros Hps. revert i. induction Hps as [|q ps Hq _ IH]; intros i; cbn [starts];
    [by intros ?%not_elem_of_nil|].
  intros [[= -> ->]|Hin]%elem_of_cons; [done|by eapply IH].
Qed.

Lemma len_pos {A} (l : list A) : l <> [] -> 0 < len l.
Proof. destruct l; [done|]. rewrite len_cons. pose proof (len_nonneg l). lia. Qed.

(** Nonempty parts start at increasing indexes. *)
Lemma starts_sorted i ps p :
  Forall (fun q => q <> []) ps -> StronglySorted Z.lt (starts i (ps ++ [p])).*1.
Proof.
  intros Hne. revert i. induction Hne as [|q ps Hq _ IH]; intros i; cbn [app starts fmap list_fmap fst].
  { by repeat constructor. }
  constructor; [apply IH|]. apply Forall_forall. intros j ([j' r] & -> & Hj)%list_elem_of_fmap.
  apply starts_range in Hj. apply len_pos in Hq. simpl. lia.
Qed.

Record view_ok (v : view) : Prop := {
  ok_base : 1 <= v_base v;
  ok_bound : v_next v < 2 ^ 64;
  ok_wf : wf_cmds (v_cmds v);
  ok_closed : Forall (fun q => q <> []) (v_closed v);
  ok_junk : exists n c, len c <= maxCommandSize /\ v_junk v = take n (encodeRecord (v_next v) c);
  ok_orphan : is_Some (v_orphan v) -> v_junk v = [] /\ v_active v <> [];
}.

(** What may be on disk: no more than the records and the one write behind
    them that was not acknowledged. *)
Definition tail_ok (v : view) : Prop :=
  exists n c, len c <= maxCommandSize /\ v_junk v = take n (encodeRecord (v_next v) c)
    /\ v_disk v `prefix_of` v_records v ++ encodeRecord (v_next v) c.

Lemma v_cmds_split v : v_cmds v = concat (v_closed v) ++ v_active v.
Proof. unfold v_cmds, v_parts. rewrite concat_app. simpl. by rewrite app_nil_r. Qed.

Lemma v_next_start v : v_next v = v_start v + len (v_active v).
Proof. unfold v_next, v_start. rewrite v_cmds_split, len_app. lia. Qed.

(** ** Segment files *)

Definition seg_file (dir : string) (i : Z) : path := Path dir (segmentName i).

Lemma seg_file_inj dir i j : is_u64 i -> is_u64 j -> seg_file dir i = seg_file dir j -> i = j.
Proof. intros Hi Hj [= H]. by apply segmentName_inj in H. Qed.

Definition mk_segment (dir : string) (ip : Z * list bytes) : segment :=
  Segment ip.1 (ip.1 + len ip.2 - 1) (seg_file dir ip.1).

(** A directory entry that is a file with these contents. *)
Definition has_file (p : path) (data disk : bytes) (durable : bool) (w : world) : Prop :=
  entry_of p w = Some (Dirent (Regular (File data disk)) durable).

#[export] Instance has_file_proper p data disk b : Proper (wequiv ==> iff) (has_file p data disk b).
Proof. intros w w' Hw. unfold has_file. by rewrite Hw. Qed.

Lemma has_file_of p data disk b w : has_file p data disk b w -> file_of p w = Some (File data disk).
Proof. intros H. apply file_of_entry. by exists b. Qed.

(** A closed segment: its records and nothing else, all of it safe on disk when
    the directory is settled. *)
Definition closed_file (settled : Prop) (dir : string) (w : world) (ip : Z * list bytes) : Prop :=
  exists disk b, has_file (seg_file dir ip.1) (encode_from ip.1 ip.2) disk b w
    /\ (settled -> disk = encode_from ip.1 ip.2 /\ b = true).

(** The indexes that name files of the directory. *)
Definition v_firsts (v : view) : list Z :=
  (starts (v_base v) (v_parts v)).*1 ++ (if v_orphan v then [v_next v] else []).

(** [settled]: nothing but the tail of the active segment is at the mercy of a
    power loss. *)
Record dir_repr (settled : Prop) (dir : string) (w : world) (v : view) : Prop := {
  dir_ok : view_ok v;
  dir_exists : is_Some (dir_of dir w);
  dir_ghosts : settled -> ghosts_of dir w = ∅;
  dir_closed : Forall (closed_file settled dir w) (starts (v_base v) (v_closed v));
  dir_active : exists b, has_file (seg_file dir (v_start v)) (v_data v) (v_disk v) b w
                         /\ (settled -> b = true);
  dir_orphan : forall b, v_orphan v = Some b -> has_file (seg_file dir (v_next v)) [] [] b w;
  dir_only : forall name, is_Some (entry_of (Path dir name) w) ->
               exists i, i ∈ v_firsts v /\ name = segmentName i;
  dir_tail : settled -> tail_ok v;
  dir_rotating : settled -> is_Some (v_orphan v) -> v_disk v = v_records v;
}.

#[export] Instance dir_repr_proper settled dir : Proper (wequiv ==> eq ==> iff) (dir_repr settled dir).
Proof.
  assert (forall w w' v, wequiv w w' -> dir_repr settled dir w v -> dir_repr settled dir w' v) as H.
  { intros w w' v Hw []. split; try done.
    - by rewrite <- Hw.
    - by rewrite <- Hw.
    - eapply Forall_impl; [done|]. intros ip (disk & b & Hf & Hd). exists disk, b. by rewrite <- Hw.
    - by setoid_rewrite <- Hw.
    - intros b Hb. rewrite <- Hw. auto.
    - intros name. rewrite <- Hw. auto. }
  intros w w' Hw v ? <-. split; apply H; [done|by symmetry].
Qed.

(** An open log in a directory. *)
Record log_repr (settled : Prop) (l : Log) (w : world) (v : view) : Prop := {
  log_dir : dir_repr settled (lc_Dir (cfg l)) w v;
  log_segments : segments l = mk_segment (lc_Dir (cfg l)) <$> starts (v_base v) (v_parts v);
  log_last : lastIndex l = v_next v - 1;
  log_handle : h_path (active l) = seg_file (lc_Dir (cfg l)) (v_start v);
  log_open : failed l = None -> closed l = false -> h_open (active l) = true;
  log_healthy : failed l = None ->
    v_junk v = [] /\ v_orphan v = None /\ activeSize l = s64 (len (v_records v))
    /\ (settled -> v_disk v `prefix_of` v_records v);
  log_clean : settled -> failed l = None -> dirty l = false -> v_disk v = v_records v;
  log_always : lc_Fsync (cfg l) = FsyncAlways ->
    (failed l = None -> dirty l = false) /\ (settled -> v_disk v = v_records v);
}.

#[export] Instance log_repr_proper settled l : Proper (wequiv ==> eq ==> iff) (log_repr settled l).
Proof.
  assert (forall w w' v, wequiv w w' -> log_repr settled l w v -> log_repr settled l w' v) as H.
  { intros w w' v Hw []. split; try done. by rewrite <- Hw. }
  intros w w' Hw v ? <-. split; apply H; [done|by symmetry].
Qed.

(** ** Ranges *)
Section ranges.
Context (v : view) (Hv : view_ok v).

Lemma v_start_range : 1 <= v_start v /\ v_start v + len (v_active v) = v_next v /\ v_next v < 2 ^ 64.
Proof.
  pose proof (ok_base _ Hv). pose proof (len_nonneg (concat (v_closed v))).
  split_and!; [unfold v_start; lia|symmetry; apply v_next_start|apply (ok_bound _ Hv)].
Qed.

Lemma v_start_u64 : is_u64 (v_start v).
Proof. pose proof v_start_range. pose proof (len_nonneg (v_active v)). unfold is_u64. lia. Qed.

Lemma v_next_u64 : is_u64 (v_next v).
Proof. pose proof v_start_range. pose proof (len_nonneg (v_active v)). unfold is_u64. lia. Qed.

Lemma v_closed_below i p : (i, p) ∈ starts (v_base v) (v_closed v) -> 1 <= i < v_start v.
Proof.
  intros Hin. pose proof Hin as Hr. apply starts_range in Hr. pose proof (ok_base _ Hv).
  pose proof (starts_Forall _ _ _ _ _ (ok_closed _ Hv) Hin) as Hp.
  apply len_pos in Hp. unfold v_start. lia.
Qed.

Lemma v_closed_u64 i p : (i, p) ∈ starts (v_base v) (v_closed v) -> is_u64 i.
Proof.
  intros H%v_closed_below. pose proof v_start_u64 as Hs. unfold is_u64 in *. lia.
Qed.

Lemma v_wf_parts : wf_cmds (concat (v_closed v)) /\ wf_cmds (v_active v).
Proof. pose proof (ok_wf _ Hv) as H. rewrite v_cmds_split in H. by apply Forall_app in H. Qed.
End ranges.
