(* ===== verification/LogFacts.v ===== *)
(** * The command log keeps its view

    How each step of log.go moves the view of the directory and of the log. *)

From stdpp Require Import prelude gmap strings list sorting.
From Stdlib Require Import ZArith Lia.
From S2P Require Import Prelude GoBytes GoStrings Kverr Config Record Fs FsFacts Segment Log Recovery LogRepr ReplayFacts LogView.

Local Open Scope Z_scope.

(** ** Creating a segment file *)

(** The same node, at least as durable. *)
Definition same_entry (e e' : option dirent) : Prop :=
  match e, e' with
  | Some e, Some e' => d_node e = d_node e' /\ (d_durable e = true -> d_durable e' = true)
  | None, None => True
  | _, _ => False
  end.

(** [w'] is [w] with a new empty file at [p]. *)
Record made (p : path) (b : bool) (w w' : world) : Prop := {
  made_fresh : entry_of p w = None;
  made_entry : entry_of p w' = Some (Dirent (Regular (File [] [])) b);
  made_others : forall q, p <> q -> same_entry (entry_of q w) (entry_of q w');
  made_dirs : same_dirs w w';
  made_faultless : faultless w -> faultless w';
}.

Lemma same_entry_refl e : same_entry e e.
Proof. by destruct e. Qed.

Lemma created_made p w w' : entry_of p w = None -> created p w w' -> made p false w w'.
Proof.
  intros He (H & Hd & _ & Hf). split; [done| | |done|done].
  - rewrite H. by rewrite decide_True.
  - intros q Hq. rewrite H, decide_False by done. apply same_entry_refl.
Qed.

Lemma made_quiet p b w w1 w2 : made p b w w1 -> quiet w1 w2 -> made p b w w2.
Proof.
  intros [] Hq. pose proof Hq as (Hw & _ & Hf). split; [done| | | |auto].
  - by rewrite <- Hw.
  - intros q. rewrite <- Hw. auto.
  - eapply same_dirs_trans; [done|by apply quiet_same_dirs].
Qed.

Lemma made_flushed p b w w1 w2 : made p b w w1 -> flushed (p_dir p) w1 w2 -> made p true w w2.
Proof.
  intros [Hn He Ho Hd Hf] (H & Hd2 & _ & Hf2). split; [done| | |by eapply same_dirs_trans|auto].
  - rewrite H, decide_True, He by done. done.
  - intros q Hq. specialize (Ho q Hq). rewrite H. case_decide; [|done].
    destruct (entry_of q w) as [e|], (entry_of q w1) as [e1|]; simpl in *; try done.
    by destruct Ho as [-> _].
Qed.

Lemma syncDir_inv dir w r w' :
  syncDir dir w = (r, w') ->
  (r = Ok tt /\ exists w1 w2, quiet w w1 /\ flushed dir w1 w2 /\ quiet w2 w')
  \/ (exists e, r = Err e /\ (faultless w -> ~ is_Some (dir_of dir w))
      /\ (quiet w w' \/ exists w1 w2, quiet w w1 /\ flushed dir w1 w2 /\ quiet w2 w')).
Proof.
  unfold syncDir. intros H. unfold mbind at 1 in H. unfold M_bind at 1 in H. rewrite wrapping_run in H.
  destruct (dir_Open dir w) as [r1 w1] eqn:Ho.
  destruct (dir_Open_inv _ _ _ _ Ho) as (Hq1 & [->|(e & -> & Hnf)]).
  2:{ injection H as <- <-. right. eexists. split_and!; [done|done|by left]. }
  destruct (dir_Sync dir w1) as [r2 w2] eqn:Hs. rewrite (try_bind _ _ _ _ _ Hs) in H.
  destruct (dir_Close w2) as [r3 w3] eqn:Hc. rewrite (try_bind _ _ _ _ _ Hc) in H.
  destruct (dir_Close_inv _ _ _ Hc) as (Hq3 & Hr3).
  destruct (dir_Sync_inv _ _ _ _ Hs) as [(-> & Hfl)|(e & -> & Hq2 & Hnf)].
  - destruct Hr3 as [->|(e & -> & Hnf)]; injection H as <- <-; [left|right].
    + split; [done|]. by exists w1, w2.
    + eexists. split_and!; [done| |right; by exists w1, w2].
      intros Hf. exfalso. apply Hnf, Hfl, Hq1, Hf.
  - destruct r3; injection H as <- <-; right; eexists; (split_and!; [done| |left]).
    1,3: intros Hf; rewrite (wequiv_dir _ _ (proj1 Hq1)); apply Hnf, Hq1, Hf.
    1,2: eapply quiet_trans; [done|]; by eapply quiet_trans.
Qed.

(** Where every change of a directory is safe at once, as on a file system that
    journals it, the variants of [syncDir] for Unix and Windows do the same. *)
Lemma syncDir_variants dir d w :
  w_script w = [] -> dir_of dir w = Some d -> map_Forall (fun _ e => d_durable e = true) (d_entries d) ->
  d_ghosts d = ∅ -> w_fresh w = ∅ -> syncDir dir w = syncDir_windows dir w.
Proof.
  destruct w as [dirs script log fr]. cbn. intros -> Hd He Hg ->.
  assert (dir_flush d = d) as Hfl.
  { destruct d as [es gs]. cbn in *. subst gs. unfold dir_flush. cbn. f_equal. apply map_eq. intros n.
    rewrite lookup_fmap. destruct (es !! n) as [[nd b]|] eqn:Hn; [|done]. cbn. by rewrite (He n _ Hn : b = true). }
  cbv [syncDir syncDir_windows]. unfold wrapping, try, dir_Open, dir_Sync, dir_Close, call, syscall, mbind, M_bind, mret, M_ret.
  cbn. unfold dir_of in *. cbn in *. rewrite Hd. cbn. rewrite Hd, Hfl. unfold set_fresh, set_dir. cbn.
  by rewrite insert_id.
Qed.

Lemma createSegment_inv p w r w' :
  createSegment p (p_dir p) w = (r, w') ->
  (r = Ok (Handle p true) /\ made p true w w')
  \/ (exists e, r = Err e /\ quiet w w'
      /\ (faultless w -> is_Some (dir_of (p_dir p) w) -> is_Some (entry_of p w)))
  \/ (exists e b, r = Err e /\ made p b w w' /\ (faultless w -> ~ is_Some (dir_of (p_dir p) w))).
Proof.
  unfold createSegment. intros H. unfold mbind at 1 in H. unfold M_bind at 1 in H.
  rewrite wrapping_run in H. destruct (os_OpenFile_create_excl p w) as [r1 w1] eqn:Ho.
  destruct (os_OpenFile_create_excl_inv _ _ _ _ Ho) as [(He & -> & Hc)|(e & -> & Hq & Hnf)].
  2:{ injection H as <- <-. right; left. by eexists. }
  pose proof (created_made _ _ _ He Hc) as Hm.
  destruct (syncDir (p_dir p) w1) as [r2 w2] eqn:Hs. rewrite (try_bind _ _ _ _ _ Hs) in H.
  destruct (syncDir_inv _ _ _ _ Hs) as [(-> & w3 & w4 & Hq3 & Hf & Hq4)|(e & -> & Hnf & Hcase)].
  - injection H as <- <-. left. split; [done|].
    eapply made_quiet; [|done]. eapply made_flushed; [|done]. by eapply made_quiet.
  - destruct (file_Close (Handle p true) w2) as [r3 w3] eqn:Hcl.
    rewrite (try_bind _ _ _ _ _ Hcl) in H. injection H as <- <-.
    destruct (file_Close_inv _ _ _ _ Hcl) as (Hq3 & _). right; right.
    assert (faultless w -> ~ is_Some (dir_of (p_dir p) w)) as Hnf'.
    { intros Hfl. rewrite <- (proj1 (made_dirs _ _ _ _ Hm (p_dir p))).
      apply Hnf, (made_faultless _ _ _ _ Hm Hfl). }
    destruct Hcase as [Hq|(w4 & w5 & Hq4 & Hf & Hq5)].
    + exists e, false. split_and!; [done| |done]. eapply made_quiet; [|done]. by eapply made_quiet.
    + exists e, true. split_and!; [done| |done]. eapply made_quiet; [|done]. eapply made_quiet; [|done].
      eapply made_flushed; [|done]. by eapply made_quiet.
Qed.

(** ** Views that describe the same files *)

(** The view whose active segment has other records, junk and flushed bytes. *)
Definition with_active (v : view) (active : list bytes) (junk disk : bytes) (orphan : option bool) : view :=
  View (v_base v) (v_closed v) active junk disk orphan.

(** The orphan of a failed rotation as the active segment. *)
Definition shifted (v : view) : view :=
  View (v_base v) (v_closed v ++ [v_active v]) [] [] [] None.

Lemma shifted_facts v :
  v_cmds (shifted v) = v_cmds v /\ v_next (shifted v) = v_next v /\ v_start (shifted v) = v_next v
  /\ v_records (shifted v) = [] /\ v_data (shifted v) = [].
Proof.
  assert (v_cmds (shifted v) = v_cmds v) as H.
  { unfold v_cmds, v_parts. simpl. rewrite (concat_app _ [[]]). simpl. by rewrite app_nil_r. }
  split_and!; [done| | |done|done]; unfold v_next, v_start; simpl.
  - by rewrite H.
  - by rewrite concat_app, v_cmds_split; simpl; rewrite app_nil_r.
Qed.

(** No bytes behind the records. *)
Lemma tail_ok_prefix v : v_junk v = [] -> v_disk v `prefix_of` v_records v -> tail_ok v.
Proof.
  intros Hj Hd. exists 0%nat, []. rewrite take_0. split_and!; [vm_compute; discriminate|done|].
  by apply prefix_app_r.
Qed.

Lemma shifted_ok v : view_ok v -> v_active v <> [] -> view_ok (shifted v).
Proof.
  intros [] Ha. destruct (shifted_facts v) as (Hc & Hn & Hs & Hr & Hd).
  split; rewrite ?Hc, ?Hn; try done; simpl.
  - apply Forall_app. split; [done|by repeat constructor].
  - exists 0%nat, []. split; [vm_compute; discriminate|by rewrite take_0].
  - by intros [].
Qed.

Lemma dir_repr_shift settled dir w v b :
  dir_repr settled dir w v -> v_orphan v = Some b ->
  (settled -> b = true /\ v_disk v = v_records v) ->
  dir_repr settled dir w (shifted v).
Proof.
  intros [Hok Hex Hgh Hcl (ba & Hact & Hba) Hor Hon Htl Hrt] Hb Hset.
  destruct (ok_orphan _ Hok) as [Hjunk Hne]; [by rewrite Hb|].
  destruct (shifted_facts v) as (Hc & Hn & Hs & Hr & Hd).
  split; [by apply shifted_ok|done|done| | | | | |].
  - simpl. rewrite starts_snoc. apply Forall_app. split; [done|]. constructor; [|done].
    exists (v_disk v), ba. unfold v_data in Hact. rewrite Hjunk, app_nil_r in Hact.
    split; [done|]. intros H. split; [by apply Hset|by apply Hba].
  - exists b. rewrite Hs, Hd. split; [by apply Hor|apply Hset].
  - done.
  - intros name (i & Hi & ->)%Hon. exists i. split; [|done].
    unfold v_firsts in Hi |- *. rewrite Hb in Hi. simpl.
    replace (v_parts (shifted v)) with (v_parts v ++ [[]]) by done.
    rewrite starts_snoc, fmap_app, app_nil_r. exact Hi.
  - intros _. apply tail_ok_prefix; [done|apply prefix_nil].
  - by intros _ [].
Qed.

(** Rewriting the active segment in place. *)
Lemma dir_repr_rewrite settled dir w w' v active junk disk :
  dir_repr settled dir w v ->
  let v' := with_active v active junk disk (v_orphan v) in
  view_ok v' -> (v_orphan v = None \/ active = v_active v) ->
  (settled -> tail_ok v') -> (settled -> is_Some (v_orphan v) -> disk = v_records v') ->
  wrote (seg_file dir (v_start v)) (File (v_data v') disk) w w' ->
  dir_repr settled dir w' v'.
Proof.
  intros [Hok Hex Hgh Hcl (ba & Hact & Hba) Hor Hon Htl Hrt] v' Hok' Hoa Htl' Hrt' Hw.
  pose proof (wrote_same_dirs _ _ _ _ Hw dir) as [Hsd Hsg]. destruct Hw as (Hu & _ & _).
  assert (forall i d k b, is_u64 i -> i <> v_start v ->
    has_file (seg_file dir i) d k b w -> has_file (seg_file dir i) d k b w') as Hother.
  { intros i d k b Hi Hne Hf. unfold has_file. rewrite (updated_entry _ _ _ _ _ Hu), decide_False; [done|].
    intros Heq%seg_file_inj; [done|by apply v_start_u64|done]. }
  split; [done|by apply Hsd|auto| | | | |done|done].
  - apply Forall_forall. intros [i p] Hin. rewrite Forall_forall in Hcl.
    destruct (Hcl _ Hin) as (d & b & Hf & Hs). exists d, b. split; [|done].
    apply Hother; [by eapply (v_closed_u64 v)| |done]. apply (v_closed_below v) in Hin; [|done]. simpl. lia.
  - exists ba. split; [|done]. unfold has_file. change (v_start v') with (v_start v).
    rewrite (updated_entry _ _ _ _ _ Hu), decide_True, Hact by done. done.
  - intros b Hb. simpl in Hb. assert (active = v_active v) as -> by (destruct Hoa; congruence).
    destruct (ok_orphan _ Hok) as [_ Hne]; [by rewrite Hb|].
    change (v_next v') with (v_next v). apply Hother; [by apply v_next_u64| |by apply Hor].
    rewrite v_next_start. apply len_pos in Hne. lia.
  - intros name. rewrite (updated_entry _ _ _ _ _ Hu). intros Hn.
    assert (is_Some (entry_of (Path dir name) w)) as (i & Hi & ->)%Hon.
    { case_decide; [|done]. by apply fmap_is_Some in Hn. }
    exists i. split; [|done]. unfold v_firsts, v_parts in *. simpl. rewrite starts_snoc, fmap_app in *.
    destruct Hoa as [Ho| ->]; [|exact Hi]. rewrite Ho in Hi |- *. exact Hi.
Qed.

(** A new, empty segment file after the active one. *)
Lemma dir_repr_made settled dir w w' v b :
  dir_repr settled dir w v -> v_orphan v = None -> v_junk v = [] -> v_active v <> [] ->
  (settled -> v_disk v = v_records v) ->
  made (seg_file dir (v_next v)) b w w' ->
  dir_repr settled dir w' (with_active v (v_active v) [] (v_disk v) (Some b)).
Proof.
  intros [Hok Hex Hgh Hcl (ba & Hact & Hba) Hor Hon Htl Hrt] Hno Hj Hne Hdisk [Hf He Ho Hd _].
  set (v' := with_active v (v_active v) [] (v_disk v) (Some b)).
  assert (forall i d k b, is_u64 i -> i <> v_next v -> has_file (seg_file dir i) d k b w ->
    exists b', has_file (seg_file dir i) d k b' w' /\ (b = true -> b' = true)) as Hother.
  { intros i d k b0 Hi Hin Hif. assert (seg_file dir (v_next v) <> seg_file dir i) as Hdiff.
    { intros Heq%seg_file_inj; [by eapply Hin|by apply v_next_u64|done]. }
    specialize (Ho _ Hdiff). unfold has_file in *. rewrite Hif in Ho.
    destruct (entry_of (seg_file dir i) w') as [[n b1]|]; [|done].
    destruct Ho as [Ho1 Ho2]. simpl in *. subst n. by exists b1. }
  assert (v_data v' = v_data v) as Hdata by (unfold v_data; by rewrite Hj).
  split.
  - destruct Hok. split; try done; simpl.
    exists 0%nat, []. split; [vm_compute; discriminate|by rewrite take_0].
  - by apply Hd.
  - intros Hs. by apply Hd, Hgh.
  - apply Forall_forall. intros [i p] Hin. rewrite Forall_forall in Hcl.
    destruct (Hcl _ Hin) as (d & b0 & Hfi & Hs).
    apply Hother in Hfi as (b1 & Hfi & Hb1).
    + exists d, b1. split; [done|]. intros H. destruct (Hs H). auto.
    + by eapply (v_closed_u64 v).
    + apply (v_closed_below v) in Hin; [|done]. pose proof (v_start_range _ Hok).
      pose proof (len_nonneg (v_active v)). simpl. lia.
  - rewrite Hdata. apply Hother in Hact as (b1 & Hact & Hb1).
    + exists b1. split; [done|auto].
    + by apply v_start_u64.
    + rewrite v_next_start. apply len_pos in Hne. lia.
  - intros b0 [= <-]. done.
  - intros name Hn. destruct (decide (seg_file dir (v_next v) = Path dir name)) as [[= <-]|Hdiff].
    { exists (v_next v). split; [|done]. unfold v_firsts. simpl. apply elem_of_app. right. by left. }
    assert (is_Some (entry_of (Path dir name) w)) as (i & Hi & ->)%Hon.
    { specialize (Ho _ Hdiff). destruct Hn as [e Hn]. rewrite Hn in Ho.
      destruct (entry_of (Path dir name) w); [eauto|done]. }
    exists i. split; [|done]. unfold v_firsts in *. rewrite Hno, app_nil_r in Hi.
    apply elem_of_app. by left.
  - intros Hs. apply tail_ok_prefix; [done|]. simpl. by rewrite Hdisk.
  - intros Hs _. by apply Hdisk.
Qed.

(** No record is the start of another. *)
Lemma encode_prefix_inj i c c' :
  wf_record i c -> wf_record i c' -> encodeRecord i c `prefix_of` encodeRecord i c' -> c = c'.
Proof.
  intros Hc Hc' [rest Heq]. pose proof (decode_encode i c' [] Hc') as Hd.
  rewrite app_nil_r, Heq, decode_encode in Hd by done. by injection Hd.
Qed.

(** A whole record left after the last one is one more record. *)
Definition absorbed (v : view) (c : bytes) : view :=
  with_active v (v_active v ++ [c]) [] (v_disk v) (v_orphan v).

Lemma absorbed_facts v c :
  v_cmds (absorbed v c) = v_cmds v ++ [c] /\ v_next (absorbed v c) = v_next v + 1
  /\ v_start (absorbed v c) = v_start v
  /\ v_records (absorbed v c) = v_records v ++ encodeRecord (v_next v) c
  /\ v_data (absorbed v c) = v_records v ++ encodeRecord (v_next v) c.
Proof.
  assert (v_cmds (absorbed v c) = v_cmds v ++ [c]) as Hc.
  { rewrite !v_cmds_split. simpl. by rewrite app_assoc. }
  assert (v_records (absorbed v c) = v_records v ++ encodeRecord (v_next v) c) as Hr.
  { unfold v_records, v_start. simpl. rewrite encode_from_snoc, v_next_start. done. }
  split_and!; [done| |done|done|].
  - unfold v_next. rewrite Hc, len_app. simpl. unfold len. simpl. lia.
  - unfold v_data. by rewrite Hr, app_nil_r.
Qed.

Lemma absorbed_ok v c :
  view_ok v -> len c <= maxCommandSize -> v_next v + 1 < 2 ^ 64 -> v_orphan v = None ->
  v_junk v = encodeRecord (v_next v) c -> view_ok (absorbed v c).
Proof.
  intros Hok Hc Hb Ho Hj. destruct (absorbed_facts v c) as (Hcm & Hn & Hs & Hr & Hd).
  destruct Hok as [H1 H2 H3 H4 H5 H6]. split; rewrite ?Hcm, ?Hn; try done; simpl.
  - apply Forall_app. split; [done|]. by repeat constructor.
  - exists 0%nat, []. split; [vm_compute; discriminate|by rewrite take_0].
  - rewrite Ho. by intros [].
Qed.

Lemma dir_repr_absorb settled dir w v c :
  dir_repr settled dir w v -> len c <= maxCommandSize -> v_next v + 1 < 2 ^ 64 ->
  v_orphan v = None -> v_junk v = encodeRecord (v_next v) c ->
  dir_repr settled dir w (absorbed v c).
Proof.
  intros [Hok Hex Hgh Hcl (ba & Hact & Hba) Hor Hon Htl Hrt] Hc Hb Ho Hj.
  destruct (absorbed_facts v c) as (Hcm & Hn & Hs & Hr & Hd).
  split; [by apply absorbed_ok|done|done|done| | | | |].
  - exists ba. rewrite Hs, Hd. split; [|done]. unfold v_data in Hact. by rewrite Hj in Hact.
  - intros b. simpl. by rewrite Ho.
  - intros name (i & Hi & ->)%Hon. exists i. split; [|done].
    unfold v_firsts, v_parts in *. simpl. rewrite Ho, app_nil_r in *.
    rewrite starts_snoc, fmap_app in *. done.
  - intros (n & c' & Hc' & Hj' & Hpre)%Htl. apply tail_ok_prefix; [done|]. rewrite Hr.
    assert (c = c') as ->; [|done]. apply (encode_prefix_inj (v_next v)).
    + split; [by apply v_next_u64|done].
    + split; [by apply v_next_u64|done].
    + rewrite <- Hj, Hj'. apply prefix_take.
  - simpl. rewrite Ho. by intros _ [].
Qed.
