(* ===== verification/LogOps.v ===== *)
(** * The methods of the command log

    Each method of log.go, run on any world and any script of failures, as a
    move of the view: what an append adds, what a failure leaves. *)

From stdpp Require Import prelude gmap strings list sorting.
From Stdlib Require Import ZArith Lia.
From S2P Require Import Prelude GoBytes GoStrings Kverr Config Record Fs FsFacts Segment Log Recovery LogRepr ReplayFacts LogView LogFacts.

Local Open Scope Z_scope.

(** ** Failing *)

(** The fields a failure leaves alone. *)
Definition same_core (l l' : Log) : Prop :=
  cfg l' = cfg l /\ segments l' = segments l /\ lastIndex l' = lastIndex l
  /\ h_path (active l') = h_path (active l) /\ closed l' = closed l.

(** A healthy log that fails: its records stay, its tail may not be one. *)
Lemma log_repr_fail settled l l' w w' v junk disk orphan e :
  log_repr settled l w v -> same_core l l' -> failed l' = Some e ->
  let v' := with_active v (v_active v) junk disk orphan in
  dir_repr settled (lc_Dir (cfg l)) w' v' ->
  (settled -> lc_Fsync (cfg l) = FsyncAlways -> disk = v_records v) ->
  log_repr settled l' w' v'.
Proof.
  intros [] (Hc & Hs & Hl & Hp & Hcl) Hf v' Hd Hdisk.
  split; rewrite ?Hc, ?Hs, ?Hl, ?Hp; try done; try (by rewrite Hf).
  intros Ha. split; [by rewrite Hf|]. intros H. by apply Hdisk.
Qed.

(** ** sync *)

Definition flush (v : view) : view :=
  with_active v (v_active v) (v_junk v) (v_data v) (v_orphan v).

Lemma flush_ok v : view_ok v -> view_ok (flush v).
Proof. intros []. by split. Qed.

Lemma flush_tail v : view_ok v -> tail_ok (flush v).
Proof.
  intros Hok. destruct (ok_junk _ Hok) as (n & c & Hc & Hj). exists n, c. split_and!; [done|done|].
  simpl. unfold v_data. rewrite Hj. apply prefix_app, prefix_take.
Qed.

Lemma dir_repr_file settled dir w v :
  dir_repr settled dir w v -> file_of (seg_file dir (v_start v)) w = Some (File (v_data v) (v_disk v)).
Proof. intros H. destruct (dir_active _ _ _ _ H) as (b & Hb & _). by eapply has_file_of. Qed.

Lemma sync_run settled dir l w v r s' :
  dir_repr settled dir w v -> h_path (active l) = seg_file dir (v_start v) ->
  sync (St l w) = (r, s') ->
  (r = Ok tt /\ st_log s' = set_dirty false l /\ dir_repr settled dir (st_w s') (flush v)
     /\ (faultless w -> faultless (st_w s')))
  \/ (exists e, r = Err e /\ st_log s' = set_failed (Some e) l
        /\ dir_repr settled dir (st_w s') v /\ (h_open (active l) = true -> ~ faultless w)).
Proof.
  intros Hd Hp H. unfold sync in H. rewrite (bind_ok _ _ _ l (St l w)) in H by done.
  destruct (file_Sync (active l) w) as [rs w1] eqn:Hs.
  rewrite (try_bind _ _ _ rs (St l w1)) in H by (unfold io; simpl; by rewrite Hs).
  destruct (file_Sync_inv _ _ _ _ Hs) as [(f & _ & Hf & -> & Hw)|(e & -> & Hq & Hnf)];
    rewrite Hp, (dir_repr_file _ _ _ _ Hd) in *; [left|right].
  - injection Hf as <-. injection H as <- <-. simpl in *. split_and!; [done|done| |apply Hw].
    apply (dir_repr_rewrite settled dir w); [done|apply flush_ok, Hd|by right| | |done].
    + intros _. by apply flush_tail, Hd.
    + intros _ Ho. destruct (ok_orphan _ (dir_ok _ _ _ _ Hd) Ho) as [Hj _].
      change (v_records _) with (v_records v). unfold v_data. by rewrite Hj, app_nil_r.
  - injection H as <- <-. simpl. eexists. split_and!; [done|done|by rewrite <- (proj1 Hq)|].
    intros Ho Hfl. by specialize (Hnf Hfl Ho).
Qed.

(** ** rotate *)

Lemma log_repr_shift settled l l' w0 w v disk b :
  log_repr settled l w0 v ->
  dir_repr settled (lc_Dir (cfg l)) w (with_active v (v_active v) [] disk (Some b)) ->
  (settled -> b = true /\ disk = v_records v) ->
  cfg l' = cfg l -> lastIndex l' = lastIndex l -> failed l' = None -> dirty l' = false ->
  segments l' = segments l ++ [Segment (v_next v) (v_next v - 1) (seg_file (lc_Dir (cfg l)) (v_next v))] ->
  active l' = Handle (seg_file (lc_Dir (cfg l)) (v_next v)) true -> activeSize l' = 0 ->
  log_repr settled l' w (shifted v).
Proof.
  intros [Hd Hseg Hlast Hh Ho Hj Hcl Hal] Hmid Hb Hc Hl Hf Hdi Hs Ha Hsz.
  destruct (shifted_facts v) as (Hcm & Hn & Hst & Hr & Hda).
  apply (dir_repr_shift _ _ _ _ b) in Hmid; [|done|done].
  split; rewrite ?Hc, ?Hs, ?Hl, ?Ha, ?Hdi, ?Hsz, ?Hst, ?Hn, ?Hr, ?Hda; try done.
  rewrite Hseg. replace (v_parts (shifted v)) with (v_parts v ++ [[]]) by done.
  rewrite starts_snoc, fmap_app. f_equal. simpl. unfold mk_segment. simpl.
  unfold len at 1. simpl. by rewrite Z.add_0_r.
Qed.

Definition rotate_outcome settled (l : Log) (w : world) (v : view) (r : result error unit) (s' : st) : Prop :=
  cfg (st_log s') = cfg l /\ closed (st_log s') = closed l /\
  ((r = Ok tt /\ log_repr settled (st_log s') (st_w s') (shifted v) /\ failed (st_log s') = None
      /\ (faultless w -> faultless (st_w s')))
   \/ exists e disk orphan, r = Err e
      /\ log_repr settled (set_failed (Some e) (st_log s')) (st_w s')
           (with_active v (v_active v) [] disk orphan)
      /\ ~ faultless w).

(** The second half of [rotate], once the active segment is flushed. *)
Definition rotate_finish (next : Z) (l : Log) : LM unit :=
  r ← try (io (file_Close (active l)));
  upd (set_active (Handle (h_path (active l)) false));;
  match r with
  | Err err => fail (internal err "command log segment could not be closed")
  | Ok _ =>
      let p := Path (lc_Dir (cfg l)) (segmentName next) in
      f ← io (createSegment p (lc_Dir (cfg l)));
      upd (fun l => set_segments (segments l ++ [Segment next (u64 (next - 1)) p]) l);;
      upd (set_active f);;
      upd (set_activeSize 0)
  end.

(** No segment file carries the next index while the active one has records. *)
Lemma next_is_fresh settled dir w v :
  dir_repr settled dir w v -> v_orphan v = None -> v_active v <> [] ->
  entry_of (seg_file dir (v_next v)) w = None.
Proof.
  intros Hd Ho Hne. pose proof (dir_ok _ _ _ _ Hd) as Hok. apply eq_None_not_Some. intros Hs.
  destruct (dir_only _ _ _ _ Hd _ Hs) as (i & Hi & Hname). unfold v_firsts in Hi.
  rewrite Ho, app_nil_r in Hi. unfold v_parts in Hi. rewrite starts_snoc, fmap_app in Hi.
  apply len_pos in Hne. pose proof (v_next_start v) as Hns.
  apply elem_of_app in Hi as [([j p] & -> & Hin)%list_elem_of_fmap|Hi].
  - apply segmentName_inj in Hname; [|by apply v_next_u64|by eapply (v_closed_u64 v)].
    apply (v_closed_below v) in Hin; [|done]. simpl in *. lia.
  - simpl in Hi. apply list_elem_of_singleton in Hi as ->. fold (v_start v) in Hname.
    apply segmentName_inj in Hname; [lia|by apply v_next_u64|by apply v_start_u64].
Qed.

Lemma rotate_finish_run settled l lm w0 w v disk r s' :
  log_repr settled l w0 v -> failed l = None -> closed l = false -> v_active v <> [] ->
  same_core l lm -> failed lm = None -> dirty lm = false -> h_open (active lm) = true ->
  dir_repr settled (lc_Dir (cfg l)) w (with_active v (v_active v) [] disk None) ->
  (settled -> disk = v_records v) ->
  rotate_finish (v_next v) lm (St lm w) = (r, s') ->
  rotate_outcome settled l w v r s'.
Proof.
  intros HR Hf Hc Hne (Hcfg & Hsegs & Hli & Hpath & Hcl) Hfm Hdm Hom Hd Hdisk H. unfold rotate_finish in H.
  pose proof (dir_ok _ _ _ _ Hd) as Hok.
  destruct (file_Close (active lm) w) as [r1 w1] eqn:Hclose.
  rewrite (try_bind _ _ _ r1 (St lm w1)) in H by (unfold io; simpl; by rewrite Hclose).
  rewrite (bind_ok _ _ _ tt (St (set_active (Handle (h_path (active lm)) false) lm) w1)) in H by done.
  set (lc := set_active _ lm) in H.
  assert (forall w' e orphan,
    dir_repr settled (lc_Dir (cfg l)) w' (with_active v (v_active v) [] disk orphan) ->
    log_repr settled (set_failed (Some e) lc) w' (with_active v (v_active v) [] disk orphan)) as Hfail.
  { intros w' e orphan Hw'. eapply (log_repr_fail settled l); [done|by split_and!|done|done|auto]. }
  destruct (file_Close_inv _ _ _ _ Hclose) as (Hq & [->|(e & -> & Hnf)]).
  2:{ injection H as <- <-. split_and!; [done|simpl; congruence|]. right. do 3 eexists.
      simpl. split_and!; [done|apply Hfail; by rewrite <- (proj1 Hq)|].
      intros Hfl. apply Hnf in Hfl. congruence. }
  rewrite (proj1 Hq) in Hd. rewrite Hcfg in H.
  change (Path (lc_Dir (cfg l)) (segmentName (v_next v))) with (seg_file (lc_Dir (cfg l)) (v_next v)) in H.
  destruct (createSegment (seg_file (lc_Dir (cfg l)) (v_next v)) (lc_Dir (cfg l)) w1) as [r2 w2] eqn:Hcr.
  destruct (createSegment_inv _ _ _ _ Hcr) as [(-> & Hm)|[(e & -> & Hq2 & Hnf)|(e & b & -> & Hm & Hnf)]].
  - pose proof (dir_repr_made _ _ _ _ _ _ Hd eq_refl eq_refl Hne Hdisk Hm) as Hd2.
    rewrite (bind_ok _ _ _ (Handle (seg_file (lc_Dir (cfg l)) (v_next v)) true) (St lc w2)) in H
      by (unfold io; simpl; by rewrite Hcr).
    injection H as <- <-. split_and!; [done|simpl; congruence|]. left.
    split_and!; [done| |done|]; simpl.
    2:{ intros Hfl. apply (made_faultless _ _ _ _ Hm), Hq, Hfl. }
    apply (log_repr_shift settled l _ w0 _ v disk true); [done|done|auto|done|done|done|done| |done|done].
    simpl. rewrite Hsegs. do 3 f_equal. apply u64_small.
    pose proof (v_start_range _ (dir_ok _ _ _ _ (log_dir _ _ _ _ HR))).
    pose proof (len_nonneg (v_active v)). unfold is_u64. lia.
  - rewrite (bind_err _ _ _ e (St lc w2)) in H by (unfold io; simpl; by rewrite Hcr).
    injection H as <- <-. split_and!; [done|simpl; congruence|]. right. do 3 eexists.
    simpl. split_and!; [done|apply Hfail; by rewrite <- (proj1 Hq2)|].
    intros Hfl. destruct Hnf as [x Hx].
    + by apply Hq.
    + apply (dir_exists _ _ _ _ Hd).
    + pose proof (next_is_fresh _ _ _ _ Hd eq_refl Hne) as Hfresh.
      change (entry_of (seg_file (lc_Dir (cfg l)) (v_next v)) w1 = None) in Hfresh. congruence.
  - rewrite (bind_err _ _ _ e (St lc w2)) in H by (unfold io; simpl; by rewrite Hcr).
    injection H as <- <-. split_and!; [done|simpl; congruence|]. right. exists e, disk, (Some b).
    split_and!; [done|apply Hfail; exact (dir_repr_made _ _ _ _ _ _ Hd eq_refl eq_refl Hne Hdisk Hm)|].
    intros Hfl. apply Hnf; [by apply Hq|apply (dir_exists _ _ _ _ Hd)].
Qed.

Lemma rotate_run settled l w v r s' :
  log_repr settled l w v -> failed l = None -> closed l = false -> v_active v <> [] ->
  rotate (v_next v) (St l w) = (r, s') -> rotate_outcome settled l w v r s'.
Proof.
  intros HR Hf Hc Hne H. pose proof HR as [Hd Hseg Hlast Hh Ho Hj Hcl Hal].
  destruct (Hj Hf) as (Hjunk & Horph & _ & Hpre).
  assert (v = with_active v (v_active v) [] (v_disk v) None) as Hv.
  { destruct v; simpl in *. by subst. }
  unfold rotate in H. rewrite (bind_ok _ _ _ l (St l w)) in H by done.
  destruct (dirty l) eqn:Hdirty.
  2:{ rewrite (bind_ok _ _ _ tt (St l w)) in H by done. rewrite Hv in Hd.
      eapply (rotate_finish_run settled l l); try done; [auto|]. intros Hs. by apply Hcl. }
  destruct (sync (St l w)) as [r1 [l1 w1]] eqn:Hs.
  destruct (sync_run _ _ _ _ _ _ _ Hd Hh Hs) as [(-> & Hl1 & Hd1 & Hfl)|(e & -> & Hl1 & Hd1 & Hnf)];
    simpl in *; subst l1.
  - rewrite (bind_ok _ _ _ _ _ Hs) in H. unfold flush, v_data in Hd1. rewrite Hjunk, app_nil_r, Horph in Hd1.
    apply (rotate_finish_run settled l (set_dirty false l) w w1 v (v_records v)) in H; try done; [|by apply Ho].
    destruct H as (H1 & H2 & H3). split_and!; [done|done|].
    destruct H3 as [(? & ? & ? & ?)|(e & disk & orphan & ? & ? & ?)]; [left; split_and!; auto|right].
    exists e, disk, orphan. split_and!; auto.
  - rewrite (bind_err _ _ _ _ _ Hs) in H. injection H as <- <-. split_and!; [done|done|]. right.
    exists e, (v_disk v), None. rewrite Hv in Hd1. simpl.
    split_and!; [done| |by apply Hnf, Ho]. eapply (log_repr_fail settled l); [done|by split_and!|done|done|].
    intros H' Ha. by apply Hal.
Qed.

(** ** Append *)

(** Every segment of [v] is still there, possibly longer. *)
Definition grows (v v' : view) : Prop :=
  v_base v' = v_base v /\
  forall i p, (i, p) ∈ starts (v_base v) (v_parts v) ->
    exists q, (i, p ++ q) ∈ starts (v_base v') (v_parts v').

Lemma grows_refl v v' : v_base v' = v_base v -> v_parts v' = v_parts v -> grows v v'.
Proof. intros Hb Hp. split; [done|]. rewrite Hb, Hp. intros i p H. exists []. by rewrite app_nil_r. Qed.

Lemma grows_trans v1 v2 v3 : grows v1 v2 -> grows v2 v3 -> grows v1 v3.
Proof.
  intros [Hb1 H1] [Hb2 H2]. split; [congruence|]. intros i p (q & Hq)%H1.
  apply H2 in Hq as (q2 & Hq). exists (q ++ q2). by rewrite app_assoc.
Qed.

Lemma grows_shifted v : grows v (shifted v).
Proof.
  split; [done|]. intros i p Hin. exists []. rewrite app_nil_r.
  replace (v_parts (shifted v)) with (v_parts v ++ [[]]) by done.
  rewrite starts_snoc. apply elem_of_app. by left.
Qed.

Lemma grows_absorbed v c : grows v (absorbed v c).
Proof.
  split; [done|]. intros i p. unfold v_parts. simpl. rewrite !starts_snoc.
  intros [Hin|Hin]%elem_of_app.
  - exists []. rewrite app_nil_r. apply elem_of_app. by left.
  - apply list_elem_of_singleton in Hin as [= -> ->]. exists [c]. apply elem_of_app. right. by left.
Qed.

(** The second half of [Append]: write, flush when the policy says so, count. *)
Definition append_write (index : Z) (record : bytes) : LM Z :=
  l ← the_log;
  r ← try (io (file_Write (active l) record));
  match r with
  | Err err =>
      let e := internal err "command log write failed" in
      upd (set_failed (Some e));; fail e
  | Ok _ => mret tt
  end;;
  upd (fun l => set_activeSize (s64 (activeSize l + len record)) l);;
  upd (set_dirty true);;
  (if decide (lc_Fsync (cfg l) = FsyncAlways) then sync else mret tt);;
  upd (set_lastIndex index);;
  upd (fun l => set_segments (set_last_segment index (segments l)) l);;
  mret index.

(** What a healthy log does with a command: [c] becomes the next record, or
    the log fails with the error it returns, and keeps the records it had. *)
Definition append_outcome settled (l : Log) (w : world) (v : view) (c : bytes)
    (r : result error Z) (s' : st) : Prop :=
  cfg (st_log s') = cfg l /\ closed (st_log s') = closed l /\
  ((exists v', r = Ok (v_next v) /\ log_repr settled (st_log s') (st_w s') v'
      /\ v_cmds v' = v_cmds v ++ [c] /\ grows v v' /\ failed (st_log s') = None
      /\ (faultless w -> faultless (st_w s')))
   \/ exists e v', r = Err e /\ log_repr settled (st_log s') (st_w s') v'
      /\ failed (st_log s') = Some e /\ v_cmds v' = v_cmds v /\ grows v v' /\ ~ faultless w).

Lemma s64_add a b : s64 (s64 a + b) = s64 (a + b).
Proof.
  unfold s64. f_equal. replace ((a + 2 ^ 63) mod 2 ^ 64 - 2 ^ 63 + b + 2 ^ 63)
    with ((a + 2 ^ 63) mod 2 ^ 64 + b) by lia.
  rewrite Z.add_mod_idemp_l by lia. f_equal. lia.
Qed.

Lemma set_last_segment_mk dir i ps p c index :
  index = i + len (concat ps) + len p ->
  set_last_segment index (mk_segment dir <$> starts i (ps ++ [p]))
  = mk_segment dir <$> starts i (ps ++ [p ++ [c]]).
Proof.
  intros ->. unfold set_last_segment. rewrite !starts_snoc, !fmap_app, length_app. simpl.
  rewrite Nat.add_1_r. simpl. rewrite alter_app_r_alt by lia.
  rewrite Nat.sub_diag. simpl. f_equal. unfold mk_segment. simpl.
  do 2 f_equal. rewrite len_app. replace (len [c]) with 1 by done. lia.
Qed.

(** The active segment with bytes of the next record behind its records. *)
Lemma dir_repr_written settled dir w w' v c n :
  dir_repr settled dir w v -> v_junk v = [] -> v_orphan v = None -> len c <= maxCommandSize ->
  (settled -> v_disk v `prefix_of` v_records v) ->
  wrote (seg_file dir (v_start v)) (File (v_data v ++ take n (encodeRecord (v_next v) c)) (v_disk v)) w w' ->
  dir_repr settled dir w'
    (with_active v (v_active v) (take n (encodeRecord (v_next v) c)) (v_disk v) None).
Proof.
  intros Hd Hj Ho Hc Hp Hw. pose proof (dir_ok _ _ _ _ Hd) as [H1 H2 H3 H4 H5 H6].
  unfold v_data in *. rewrite Hj, app_nil_r in *. rewrite <- Ho.
  apply (dir_repr_rewrite settled dir w); [done| |by right| | |done].
  - split; try done; [by exists n, c|]. simpl. rewrite Ho. by intros [].
  - intros Hs. exists n, c. split_and!; [done|done|]. by apply prefix_app_r, Hp.
  - rewrite Ho. by intros _ [].
Qed.

(** The log after a write or a flush failed. *)
Lemma append_failed settled l l' w w' v c e junk :
  log_repr settled l w v ->
  dir_repr settled (lc_Dir (cfg l)) w' (with_active v (v_active v) junk (v_disk v) None) ->
  same_core l l' -> failed l' = Some e -> ~ faultless w ->
  append_outcome settled l w v c (Err e) (St l' w').
Proof.
  intros HR Hw' Hsame Hfe Hnf. pose proof Hsame as (Hx & _ & _ & _ & Hy).
  split_and!; [done|done|]. right. exists e, (with_active v (v_active v) junk (v_disk v) None).
  split_and!; [done| |done|by rewrite !v_cmds_split|by apply grows_refl|done].
  eapply (log_repr_fail settled l); [done|done|done|done|].
  intros H' Ha. by apply (log_always _ _ _ _ HR).
Qed.

(** The log after the record is written and counted; [d] is its dirty flag. *)
Lemma append_done settled l w w' v c disk d :
  log_repr settled l w v -> failed l = None -> v_next v + 1 < 2 ^ 64 -> len c <= maxCommandSize ->
  let rec := encodeRecord (v_next v) c in
  dir_repr settled (lc_Dir (cfg l)) w' (with_active v (v_active v) rec disk None) ->
  (settled -> disk `prefix_of` v_records v ++ rec) ->
  (d = false -> disk = v_records v ++ rec) -> (lc_Fsync (cfg l) = FsyncAlways -> d = false) ->
  (faultless w -> faultless w') ->
  append_outcome settled l w v c (Ok (v_next v))
    (St (set_segments (set_last_segment (v_next v) (segments l))
          (set_lastIndex (v_next v)
            (set_dirty d (set_activeSize (s64 (activeSize l + len rec)) l)))) w').
Proof.
  intros [Hd Hseg Hlast Hh Ho Hj Hcl Hal] Hf Hb Hlen rec Hw' Hpd Hdd Hda Hfl.
  destruct (Hj Hf) as (Hjunk & Horph & Hsize & Hpre). split_and!; [done|done|]. left.
  set (v1 := with_active v (v_active v) rec disk None) in *.
  exists (absorbed v1 c). destruct (absorbed_facts v1 c) as (Hcm & Hn & Hs & Hr & Hda').
  change (v_next v1) with (v_next v) in *. change (v_records v1) with (v_records v) in *.
  split_and!; [done| |by rewrite Hcm|by apply (grows_absorbed v)|done|done].
  split; simpl; try done.
  - by apply dir_repr_absorb.
  - rewrite Hseg. apply set_last_segment_mk. by rewrite v_next_start.
  - rewrite Hn. lia.
  - intros _. split_and!; [done|done| |by rewrite Hr]. by rewrite Hsize, s64_add, Hr, len_app.
  - intros _ _ ->. rewrite Hr. by apply Hdd.
  - intros Ha. split; [auto|]. intros _. rewrite Hr. by apply Hdd, Hda.
Qed.

Lemma append_write_run settled l w v c r s' :
  log_repr settled l w v -> failed l = None -> closed l = false ->
  v_next v + 1 < 2 ^ 64 -> len c <= maxCommandSize ->
  append_write (v_next v) (encodeRecord (v_next v) c) (St l w) = (r, s') ->
  append_outcome settled l w v c r s'.
Proof.
  intros HR Hf Hc Hb Hlen H. pose proof HR as [Hd _ _ Hh Ho Hj _ _].
  destruct (Hj Hf) as (Hjunk & Horph & _ & Hpre). set (rec := encodeRecord (v_next v) c) in *.
  unfold append_write in H. rewrite (bind_ok _ _ _ l (St l w)) in H by done.
  destruct (file_Write (active l) rec w) as [r1 w1] eqn:Hwr.
  rewrite (try_bind _ _ _ r1 (St l w1)) in H by (unfold io; simpl; by rewrite Hwr).
  destruct (file_Write_inv _ _ _ _ _ Hwr) as [(f & _ & Hfo & -> & Hw)|
    [(e & f & n & -> & Hnf & Hfo & Hw)|(e & -> & Hq & Hnf)]].
  2:{ rewrite Hh in Hfo, Hw. rewrite (dir_repr_file _ _ _ _ Hd) in Hfo. injection Hfo as <-.
      injection H as <- <-. eapply append_failed; [done| |by split_and!|done|done].
      by eapply dir_repr_written. }
  2:{ specialize (Hnf (Ho Hf Hc)). rewrite Hh, (dir_repr_file _ _ _ _ Hd) in Hnf. done. }
  rewrite Hh in Hfo, Hw. rewrite (dir_repr_file _ _ _ _ Hd) in Hfo. injection Hfo as <-.
  cbn [f_data f_disk] in Hw. rewrite <- (firstn_all rec) in Hw.
  pose proof (dir_repr_written _ _ _ _ _ _ _ Hd Hjunk Horph Hlen Hpre Hw) as Hd1.
  fold rec in Hd1. rewrite firstn_all in Hd1.
  rewrite (bind_ok _ _ _ tt (St l w1)) in H by done.
  set (l1 := set_dirty true (set_activeSize (s64 (activeSize l + len rec)) l)).
  change (((if decide (lc_Fsync (cfg l) = FsyncAlways) then sync else mret tt);;
           upd (set_lastIndex (v_next v));;
           upd (fun l => set_segments (set_last_segment (v_next v) (segments l)) l);;
           mret (v_next v)) (St l1 w1) = (r, s')) in H.
  destruct (decide (lc_Fsync (cfg l) = FsyncAlways)) as [Ha|Ha].
  2:{ injection H as <- <-. apply (append_done _ _ _ w1 _ _ (v_disk v) true); try done; [|apply Hw].
      intros Hs. by apply prefix_app_r, Hpre. }
  destruct (sync (St l1 w1)) as [r2 [l2 w2]] eqn:Hs.
  destruct (sync_run _ _ l1 _ _ _ _ Hd1 Hh Hs) as [(-> & Hl2 & Hd2 & Hfl)|(e & -> & Hl2 & Hd2 & Hnf)];
    simpl in Hl2; subst l2.
  - rewrite (bind_ok _ _ _ _ _ Hs) in H. injection H as <- <-.
    apply (append_done _ _ _ w2 _ _ (v_records v ++ rec) false); try done. intros Hfw. by apply Hfl, Hw.
  - rewrite (bind_err _ _ _ _ _ Hs) in H. injection H as <- <-.
    eapply append_failed; [done|exact Hd2|by split_and!|done|]. intros Hfw. by apply Hnf; [apply Ho|apply Hw].
Qed.

(** The checks in front of [Append], in source order. *)
Definition append_refusal (l : Log) (ctx : Context) (command : bytes) : option error :=
  match ctx_Err ctx with
  | Some err => Some (kv (Wrap (ReasonOf (Some err)) (Some err) ""))
  | None =>
      if maxCommandSize <? len command then
        Some (kv (New ReasonInvalidArgument
          ("command of " +:+ Itoa (len command) +:+ " bytes exceeds the "
           +:+ Itoa maxCommandSize +:+ "-byte record limit")))
      else if closed l then Some (internal errClosed "command log is closed")
      else (fun err => internal err "command log is unusable after an earlier failure") <$> failed l
  end.

Lemma Append_refused ctx c l w e :
  append_refusal l ctx c = Some e -> Append ctx c (St l w) = (Err e, St l w).
Proof.
  unfold append_refusal, Append, contextError. intros H.
  destruct (ctx_Err ctx) as [err|]; [injection H as <-; by apply bind_err|].
  rewrite (bind_ok _ _ _ tt (St l w)) by done.
  destruct (maxCommandSize <? len c); [injection H as <-; by apply bind_err|].
  rewrite (bind_ok _ _ _ tt (St l w)) by done. apply bind_err.
  unfold writable. rewrite (bind_ok _ _ _ l (St l w)) by done.
  destruct (closed l); [by injection H as <-|]. destruct (failed l); [by injection H as <-|done].
Qed.

Lemma refusal_None l ctx c :
  append_refusal l ctx c = None ->
  ctx_Err ctx = None /\ len c <= maxCommandSize /\ closed l = false /\ failed l = None.
Proof.
  unfold append_refusal. destruct (ctx_Err ctx); [done|]. destruct (Z.ltb_spec maxCommandSize (len c)); [done|].
  destruct (closed l); [done|]. by destruct (failed l).
Qed.

Lemma must_rotate_active settled l w v record :
  log_repr settled l w v -> failed l = None -> must_rotate l record = true -> v_active v <> [].
Proof.
  intros HR Hf [Hs%Z.ltb_lt _]%andb_true_iff Ha. destruct (log_healthy _ _ _ _ HR Hf) as (_ & _ & Hsz & _).
  rewrite Hsz in Hs. unfold v_records in Hs. by rewrite Ha in Hs.
Qed.

Lemma Append_run settled l w v ctx c r s' :
  log_repr settled l w v -> v_next v + 1 < 2 ^ 64 -> append_refusal l ctx c = None ->
  Append ctx c (St l w) = (r, s') -> append_outcome settled l w v c r s'.
Proof.
  intros HR Hb (Hctx & Hlen & Hc & Hf)%refusal_None H. unfold Append, contextError in H.
  rewrite Hctx, (proj2 (Z.ltb_ge _ _) Hlen) in H.
  rewrite (bind_ok _ _ _ tt (St l w)) in H by done. rewrite (bind_ok _ _ _ tt (St l w)) in H by done.
  rewrite (bind_ok _ _ _ tt (St l w)) in H.
  2:{ unfold writable. rewrite (bind_ok _ _ _ l (St l w)) by done. by rewrite Hc, Hf. }
  rewrite (bind_ok _ _ _ l (St l w)) in H by done.
  pose proof (v_next_u64 _ (dir_ok _ _ _ _ (log_dir _ _ _ _ HR))) as Hu.
  replace (u64 (lastIndex l + 1)) with (v_next v) in H.
  2:{ rewrite (log_last _ _ _ _ HR), Z.sub_add. by rewrite u64_small. }
  fold (append_write (v_next v) (encodeRecord (v_next v) c)) in H.
  destruct (must_rotate l (encodeRecord (v_next v) c)) eqn:Hrot.
  2:{ rewrite (bind_ok _ _ _ tt (St l w)) in H by done. by eapply append_write_run. }
  pose proof (must_rotate_active _ _ _ _ _ HR Hf Hrot) as Hne.
  destruct (rotate (v_next v) (St l w)) as [r1 [l1 w1]] eqn:Hro.
  destruct (rotate_run _ _ _ _ _ _ HR Hf Hc Hne Hro) as (Hcfg & Hcl & [(-> & HR1 & Hf1 & Hfl)|(e & disk & orphan & -> & HR1 & Hnf)]);
    simpl in *.
  - destruct (shifted_facts v) as (Hcm & Hn & _). rewrite <- Hn in H, Hb.
    rewrite (bind_ok _ _ _ tt (St l1 w1)) in H by (rewrite Hn; by rewrite (try_bind _ _ _ _ _ Hro)).
    apply (append_write_run settled) in H as (H1 & H2 & H3); [|done|done|congruence|done|done].
    split_and!; [congruence|congruence|]. rewrite Hn in H3.
    destruct H3 as [(v' & -> & HR' & Hcmds & Hg & Hf' & Hfl')|(e & v' & -> & HR' & Hf' & Hcmds & Hg & Hnf)];
      rewrite Hcm in Hcmds; apply (grows_trans v) in Hg; try apply grows_shifted;
      [left; exists v'|right; exists e, v']; split_and!; auto.
  - rewrite (bind_err _ _ _ e (St (set_failed (Some e) l1) w1)) in H by (by rewrite (try_bind _ _ _ _ _ Hro)).
    injection H as <- <-. split_and!; [done|done|]. right.
    eexists e, _. split_and!; [done|exact HR1|done|by rewrite !v_cmds_split|by apply grows_refl|done].
Qed.

(** ** Flushing in the background and closing *)

(** The script of failures and the log lines are no part of the view. *)
Lemma log_repr_dirs settled l w w' v :
  w_dirs w' = w_dirs w -> log_repr settled l w v -> log_repr settled l w' v.
Proof.
  intros Hd H. assert (wequiv w w') as Hw; [|by rewrite <- Hw].
  constructor. intros d. unfold dir_of. by rewrite Hd.
Qed.

(** A step that touches no record: the parts of the view stay. *)
Definition keeps settled (l : Log) (v : view) (s' : st) : Prop :=
  cfg (st_log s') = cfg l /\
  exists v', log_repr settled (st_log s') (st_w s') v' /\ v_base v' = v_base v /\ v_parts v' = v_parts v.

(** Flushing a healthy log, whatever its handle. *)
Lemma sync_keeps settled l w v r s' :
  log_repr settled l w v -> failed l = None -> sync (St l w) = (r, s') ->
  keeps settled l v s' /\ closed (st_log s') = closed l /\ active (st_log s') = active l
  /\ (r = Ok tt -> failed (st_log s') = None /\ dirty (st_log s') = false).
Proof.
  intros HR Hf Hs. pose proof HR as [Hd Hseg Hlast Hh Ho Hj Hcl Hal]. destruct s' as [l1 w1].
  destruct (Hj Hf) as (Hjunk & Horph & Hsize & Hpre).
  destruct (sync_run _ _ _ _ _ _ _ Hd Hh Hs) as [(-> & Hl1 & Hd1 & _)|(e & -> & Hl1 & Hd1 & _)];
    simpl in *; subst l1; (split_and!; [|done|done|done]).
  - split; [done|]. exists (flush v). split; [|done].
    assert (v_data v = v_records v) as Hdata by (unfold v_data; by rewrite Hjunk, app_nil_r).
    split; simpl; try done; rewrite Hdata; done.
  - split; [done|]. exists v. split; [|done].
    assert (v = with_active v (v_active v) (v_junk v) (v_disk v) (v_orphan v)) as Hv by (by destruct v).
    rewrite Hv in Hd1 |- *. eapply (log_repr_fail settled l); [done|by split_and!|done|done|].
    intros H' Ha. by apply Hal.
Qed.

Lemma syncIfDirty_run settled l w v r s' :
  log_repr settled l w v -> syncIfDirty (St l w) = (r, s') ->
  r = Ok tt /\ keeps settled l v s' /\ closed (st_log s') = closed l.
Proof.
  intros HR H. unfold syncIfDirty in H. rewrite (bind_ok _ _ _ l (St l w)) in H by done.
  destruct (negb (dirty l) || bool_decide (is_Some (failed l)) || closed l) eqn:Hskip.
  { injection H as <- <-. split_and!; [done| |done]. split; [done|]. by exists v. }
  apply orb_false_iff in Hskip as [Hskip _]. apply orb_false_iff in Hskip as [_ Hf%bool_decide_eq_false].
  destruct (sync (St l w)) as [r1 [l1 w1]] eqn:Hs. rewrite (try_bind _ _ _ _ _ Hs) in H.
  apply eq_None_not_Some in Hf.
  destruct (sync_keeps settled l w v _ _ HR Hf Hs) as ((Hcfg & v' & HR' & Hb & Hp) & Hc & _ & _).
  destruct r1 as [[]|e]; injection H as <- <-; (split_and!; [done| |done]); (split; [done|]);
    exists v'; (split; [|done]); [done|]. simpl in *. by apply (log_repr_dirs _ _ w1).
Qed.

Lemma log_repr_closed settled l w v : log_repr settled l w v -> log_repr settled (set_closed true l) w v.
Proof. intros []. by split. Qed.

Lemma log_repr_handle settled l w v b :
  log_repr settled l w v -> closed l = true ->
  log_repr settled (set_active (Handle (h_path (active l)) b) l) w v.
Proof. intros [] Hc. split; simpl; try done. intros _ Hc'. congruence. Qed.

Lemma Close_finish_run settled l w v r s' :
  log_repr settled l w v -> closed l = true -> Close_finish (St l w) = (r, s') ->
  closed (st_log s') = true /\ keeps settled l v s'
  /\ (r = Ok tt -> failed l = None -> failed (st_log s') = None /\ dirty (st_log s') = false).
Proof.
  intros HR Hc H. unfold Close_finish in H. rewrite (bind_ok _ _ _ l (St l w)) in H by done.
  assert (exists r1 l1 w1, (if bool_decide (failed l = None) && dirty l then try sync else mret (Ok tt)) (St l w)
      = (Ok r1, St l1 w1) /\ keeps settled l v (St l1 w1) /\ closed l1 = true
      /\ (r1 = Ok tt -> failed l = None -> failed l1 = None /\ dirty l1 = false)) as (r1 & l1 & w1 & H1 & Hk & Hc1 & Hok).
  { destruct (bool_decide_reflect (failed l = None)) as [Hf|Hf]; [destruct (dirty l) eqn:Hdi|]; simpl.
    2,3: exists (Ok tt), l, w; (split_and!; [done| |done|done]); (split; [done|]); by exists v.
    unfold try. destruct (sync (St l w)) as [r1 [l1 w1]] eqn:Hs. exists r1, l1, w1.
    destruct (sync_keeps settled l w v _ _ HR Hf Hs) as (Hk & Hcl & _ & Hr). simpl in *.
    split_and!; [done|done|congruence|auto]. }
  rewrite (bind_ok _ _ _ _ _ H1) in H. rewrite (bind_ok _ _ _ l1 (St l1 w1)) in H by done.
  destruct (file_Close (active l1) w1) as [r2 w2] eqn:Hcl.
  rewrite (try_bind _ _ _ r2 (St l1 w2)) in H by (unfold io; simpl; by rewrite Hcl).
  rewrite (bind_ok _ _ _ tt (St (set_active (Handle (h_path (active l1)) false) l1) w2)) in H by done.
  destruct (file_Close_inv _ _ _ _ Hcl) as ((Hq & _) & _).
  destruct Hk as (Hcfg & v' & HR' & Hb & Hp). simpl in *.
  assert (keeps settled l v (St (set_active (Handle (h_path (active l1)) false) l1) w2)) as Hk2.
  { split; [done|]. exists v'. split_and!; [|done|done]. simpl. rewrite <- Hq. by apply log_repr_handle. }
  destruct r2 as [[]|e]; unfold lift, fail in H; injection H as <- <-; split_and!; try done.
Qed.
