(* ===== verification/LogSpec.v ===== *)
(** * The command log as an append-only sequence

    The abstract specification of [Log]: a list of commands numbered from a
    base index, an append that extends it, a replay that reads it. The theorems
    show that log.go implements it under every script of system-call failures
    and every interleaving of its callers, the background syncer and Close. *)

From stdpp Require Import prelude gmap strings list sorting.
From Stdlib Require Import ZArith Lia.
From S2P Require Import Prelude GoBytes GoStrings Kverr Config Record Fs FsFacts Segment Log Recovery LogRepr ReplayFacts LogView LogFacts LogOps.

Local Open Scope Z_scope.

(** ** Interleavings

    One step of a log in use: a critical section of a method, or the world
    deciding which of the next system calls fail. A label is an acknowledged
    append. *)
Inductive step : st -> list (Z * bytes) -> st -> Prop :=
| step_append ctx c s i s' : Append ctx c s = (Ok i, s') -> step s [(i, c)] s'
| step_append_failed ctx c s e s' : Append ctx c s = (Err e, s') -> step s [] s'
| step_tick s r s' : syncIfDirty s = (r, s') -> step s [] s'
| step_close_begin s r s' : Close_begin s = (r, s') -> step s [] s'
| step_close_finish s r s' : closed (st_log s) = true -> Close_finish s = (r, s') -> step s [] s'
| step_env l w script : step (St l w) [] (St l (World (w_dirs w) script (w_log w) (w_fresh w))).

(** A run, with the appends it acknowledged in order. *)
Inductive run : st -> list (Z * bytes) -> st -> Prop :=
| run_refl s : run s [] s
| run_step s1 acks1 s2 acks2 s3 : step s1 acks1 s2 -> run s2 acks2 s3 -> run s1 (acks1 ++ acks2) s3.

(** One step on a represented log. *)
Lemma step_repr settled l w v acks s' :
  log_repr settled l w v -> v_next v + 1 < 2 ^ 64 -> step (St l w) acks s' ->
  exists v', log_repr settled (st_log s') (st_w s') v' /\ v_cmds v' = v_cmds v ++ acks.*2
    /\ acks = records (v_next v) acks.*2 /\ grows v v' /\ cfg (st_log s') = cfg l.
Proof.
  intros HR Hb Hstep.
  assert (forall s', keeps settled l v s' -> exists v', log_repr settled (st_log s') (st_w s') v'
    /\ v_cmds v' = v_cmds v ++ [] /\ grows v v' /\ cfg (st_log s') = cfg l) as Hkeep.
  { intros s2 (Hcfg & v' & HR' & Hbase & Hp). exists v'. rewrite app_nil_r.
    split_and!; [done|by unfold v_cmds; rewrite Hp|by apply grows_refl|done]. }
  inversion Hstep as [ctx c ? i ? HA|ctx c ? e ? HA|? r ? HT|? r ? HC|? r ? Hc HC|? ? script]; subst.
  - destruct (append_refusal l ctx c) as [e|] eqn:Href.
    { by rewrite (Append_refused _ _ _ _ _ Href) in HA. }
    destruct (Append_run settled l w v ctx c _ _ HR Hb Href HA) as (Hcfg & _ & [(v' & [= ->] & HR' & Hc & Hg & _)|(e & v' & ? & _)]); [|done].
    by exists v'.
  - destruct (append_refusal l ctx c) as [e'|] eqn:Href.
    { rewrite (Append_refused _ _ _ _ _ Href) in HA. injection HA as <- <-. exists v.
      simpl. rewrite app_nil_r. split_and!; try done. by apply grows_refl. }
    destruct (Append_run settled l w v ctx c _ _ HR Hb Href HA) as (Hcfg & _ & [(v' & ? & _)|(e' & v' & _ & HR' & _ & Hc & Hg & _)]); [done|].
    exists v'. simpl. by rewrite app_nil_r.
  - destruct (syncIfDirty_run settled l w v _ _ HR HT) as (_ & (v' & ?)%Hkeep & _). exists v'. naive_solver.
  - exists v. simpl. rewrite app_nil_r. unfold Close_begin in HC.
    rewrite (bind_ok _ _ _ l (St l w)) in HC by done.
    destruct (closed l); injection HC as <- <-; (split_and!; [|done|done|by apply grows_refl|done]); [done|].
    by apply log_repr_closed.
  - destruct (Close_finish_run settled l w v _ _ HR Hc HC) as (_ & (v' & ?)%Hkeep & _). exists v'. naive_solver.
  - exists v. simpl. rewrite app_nil_r. split_and!; [|done|done|by apply grows_refl|done].
    by apply (log_repr_dirs _ _ w).
Qed.

Lemma grows_cmds_bound v v' : v_cmds v `prefix_of` v_cmds v' -> len (v_cmds v) <= len (v_cmds v').
Proof. intros [k ->]. rewrite len_app. pose proof (len_nonneg k). lia. Qed.

Lemma run_repr settled l w v acks s' :
  log_repr settled l w v -> v_next v + len acks + 1 < 2 ^ 64 -> run (St l w) acks s' ->
  exists v', log_repr settled (st_log s') (st_w s') v' /\ v_cmds v' = v_cmds v ++ acks.*2
    /\ acks = records (v_next v) acks.*2 /\ grows v v' /\ cfg (st_log s') = cfg l.
Proof.
  intros HR Hb Hrun. remember (St l w) as s eqn:Hs. revert l w v Hs HR Hb.
  induction Hrun as [s|s1 acks1 s2 acks2 s3 Hst Hrun IH]; intros l w v -> HR Hb.
  { exists v. simpl. rewrite app_nil_r. split_and!; try done. by apply grows_refl. }
  rewrite len_app in Hb. pose proof (len_nonneg acks1). pose proof (len_nonneg acks2).
  destruct (step_repr settled l w v acks1 s2) as (v2 & HR2 & Hc2 & Ha2 & Hg2 & Hcfg2); [done|lia|done|].
  assert (v_next v2 = v_next v + len acks1) as Hn2.
  { unfold v_next. rewrite Hc2, len_app, (proj1 Hg2). unfold len. rewrite length_fmap. lia. }
  destruct s2 as [l2 w2]. destruct (IH l2 w2 v2) as (v3 & HR3 & Hc3 & Ha3 & Hg3 & Hcfg3); [done|done|lia|].
  exists v3. rewrite fmap_app, records_app. split_and!; [done| | |by eapply grows_trans|by rewrite Hcfg3].
  - by rewrite Hc3, Hc2, app_assoc.
  - f_equal; [done|]. rewrite Ha3 at 1. rewrite Hn2. do 2 f_equal. unfold len. by rewrite length_fmap.
Qed.

(** ** Replay *)

Definition snapshot_ok (dir : string) (i : Z) (parts : list (list bytes)) (w : world) : Prop :=
  Forall (fun ip => file_starts (seg_file dir ip.1) (encode_from ip.1 ip.2) w) (starts i parts).

#[export] Instance snapshot_ok_proper dir i parts : Proper (wequiv ==> iff) (snapshot_ok dir i parts).
Proof.
  intros w w' Hw. unfold snapshot_ok. rewrite !Forall_forall. split; intros H ip Hip;
    specialize (H ip Hip); by rewrite Hw in * || rewrite <- Hw in *.
Qed.

Section replay_spec.
Context {A : Type} (fn : A -> Z -> bytes -> A * option error).

Lemma replays_weaken (P Q : world -> Prop) rs (m : M error (replay_st A) unit) :
  (forall w, Q w -> P w) -> replays fn P rs m -> replays fn Q rs m.
Proof. intros HPQ H s r s' Hq. by apply H, HPQ. Qed.

Lemma selected_below from i cs : i + len cs <= from -> selected from (records i cs) = [].
Proof.
  revert i. induction cs as [|c cs IH]; intros i Hle; [done|]. cbn [records]. rewrite len_cons in Hle.
  pose proof (len_nonneg cs). rewrite selected_cons, (proj2 (Z.leb_gt _ _)) by lia. apply IH. lia.
Qed.

Lemma mk_segment_skip from last_ dir i p :
  (last (mk_segment dir (i, p)) <? from) || (last_ <? first (mk_segment dir (i, p))) = true ->
  i + len p - 1 <= last_ -> selected from (records i p) = [].
Proof.
  cbn [mk_segment Segment.last first fst snd]. intros [Hs%Z.ltb_lt|Hs%Z.ltb_lt]%orb_true_iff He.
  - apply selected_below. lia.
  - destruct p as [|c p]; [done|]. rewrite len_cons in He. pose proof (len_nonneg p). lia.
Qed.
Lemma replay_segments_spec dir from last_ i parts :
  0 <= i -> i + len (concat parts) < 2 ^ 64 -> wf_cmds (concat parts) ->
  last_ = i + len (concat parts) - 1 ->
  replays fn (snapshot_ok dir i parts) (selected from (records i (concat parts)))
    (replay_segments fn (mk_segment dir <$> starts i parts) from last_).
Proof.
  revert i. induction parts as [|p ps IH]; intros i Hi Hb Hwf Hlast; [apply replays_ret|].
  cbn [starts fmap list_fmap replay_segments concat] in *. rewrite records_app, selected_app.
  rewrite len_app in *. pose proof (len_nonneg p). pose proof (len_nonneg (concat ps)).
  apply Forall_app in Hwf as [Hwp Hwps].
  apply replays_seq; [apply _| |].
  - destruct (_ || _) eqn:Hskip.
    + rewrite (mk_segment_skip _ _ _ _ _ Hskip) by lia. apply replays_ret.
    + eapply replays_weaken; [|apply (replaySegment_spec fn (mk_segment dir (i, p)) from last_ p);
        simpl; [done|lia|done|lia|lia]].
      intros w Hw. by inversion Hw.
  - eapply replays_weaken; [|apply IH; [lia|lia|done|lia]]. intros w Hw. by inversion Hw.
Qed.
End replay_spec.

(** ** Reading while the log is in use *)

(** Every part of [parts] is a segment of [v], possibly longer there. *)
Definition covers (i : Z) (parts : list (list bytes)) (v : view) : Prop :=
  forall j p, (j, p) ∈ starts i parts -> exists q, (j, p ++ q) ∈ starts (v_base v) (v_parts v).

Lemma covers_grows i parts v v' : covers i parts v -> grows v v' -> covers i parts v'.
Proof.
  intros Hc [_ Hg] j p (q & Hq)%Hc. apply Hg in Hq as (q2 & Hq). exists (q ++ q2). by rewrite app_assoc.
Qed.

Lemma covers_refl v : covers (v_base v) (v_parts v) v.
Proof. intros j p H. exists []. by rewrite app_nil_r. Qed.

Lemma covers_snapshot settled dir w v i parts :
  dir_repr settled dir w v -> covers i parts v -> snapshot_ok dir i parts w.
Proof.
  intros [_ _ _ Hcl (b & Hact & _) _ _] Hc. apply Forall_forall. intros [j p] (q & Hq)%Hc.
  unfold v_parts in Hq. rewrite starts_snoc in Hq. apply elem_of_app in Hq as [Hq|Hq].
  - rewrite Forall_forall in Hcl. destruct (Hcl _ Hq) as (disk & b' & Hf & _).
    exists (File (encode_from j (p ++ q)) disk), (encode_from (j + len p) q).
    split; [by eapply has_file_of|]. apply encode_from_app.
  - apply list_elem_of_singleton in Hq as [= -> Hp].
    exists (File (v_data v) (v_disk v)), (encode_from (v_start v + len p) q ++ v_junk v).
    split; [by eapply has_file_of|]. simpl. unfold v_data, v_records.
    by rewrite <- Hp, encode_from_app, <- app_assoc.
Qed.

Section replay_interleaved.
Context {A : Type} (fn : A -> Z -> bytes -> A * option error) (from last_ : Z).

(** [Replay] over the segments of its snapshot, with any run of the other
    users of the log before every file it reads: [replay_il segs n s ctx a r a']
    ends with result [r] and callback state [a'] after [n] appends of others. *)
Inductive replay_il : list segment -> Z -> st -> Context -> A -> result error unit -> A -> Prop :=
| il_done s ctx a : replay_il [] 0 s ctx a (Ok tt) a
| il_run segs n s acks s' ctx a r a' :
    run s acks s' -> replay_il segs n s' ctx a r a' -> replay_il segs (len acks + n) s ctx a r a'
| il_skip seg segs n s ctx a r a' :
    (last seg <? from) || (last_ <? first seg) = true ->
    replay_il segs n s ctx a r a' -> replay_il (seg :: segs) n s ctx a r a'
| il_segment seg segs n l w ctx a rs r a' :
    (last seg <? from) || (last_ <? first seg) = false ->
    replaySegment fn seg from last_ (RSt w ctx a) = (Ok tt, rs) ->
    replay_il segs n (St l (rs_w rs)) (rs_ctx rs) (rs_acc rs) r a' ->
    replay_il (seg :: segs) n (St l w) ctx a r a'
| il_stop seg segs l w ctx a rs e :
    (last seg <? from) || (last_ <? first seg) = false ->
    replaySegment fn seg from last_ (RSt w ctx a) = (Err e, rs) ->
    replay_il (seg :: segs) 0 (St l w) ctx a (Err e) (rs_acc rs).

(** Everything was delivered, or a prefix of it. *)
Definition delivered (a : A) (rs : list (Z * bytes)) (r : result error unit) (a' : A) : Prop :=
  match r with
  | Ok _ => deliver fn a rs = (a', None)
  | Err e => exists n o, deliver fn a (take n rs) = (a', o)
                         /\ forall e', o = Some e' -> e = EWrapf "storage.Log.Replay: " e' ""
  end.

Lemma delivered_app a rs1 rs2 a1 r a' :
  deliver fn a rs1 = (a1, None) -> delivered a1 rs2 r a' -> delivered a (rs1 ++ rs2) r a'.
Proof.
  intros H1 H2. destruct r as [[]|e]; simpl in *.
  - by rewrite deliver_app, H1.
  - destruct H2 as (n & o & Hd & Ho). exists (length rs1 + n)%nat, o.
    by rewrite take_app_add, deliver_app, H1.
Qed.

Lemma replayed_stop_app s rs1 rs2 e s' :
  replayed fn s rs1 (Err e) s' -> delivered (rs_acc s) (rs1 ++ rs2) (Err e) (rs_acc s').
Proof.
  assert (forall n, take (n `min` length rs1) (rs1 ++ rs2) = take n rs1) as Htake.
  { intros n. by rewrite take_app_le, <- take_take, firstn_all by lia. }
  inversion 1 as [|n ? ? _ Hd|n e' ? Hd]; subst; exists (n `min` length rs1)%nat; eexists;
    rewrite Htake; (split; [done|]); [done|]. by intros ? [= ->].
Qed.

Lemma replay_il_count segs n s ctx a r a' : replay_il segs n s ctx a r a' -> 0 <= n.
Proof. induction 1 as [|? ? ? acks| | |]; try lia. pose proof (len_nonneg acks). lia. Qed.

Lemma replay_il_spec settled dir i parts segs n s ctx a r a' v :
  replay_il segs n s ctx a r a' ->
  segs = mk_segment dir <$> starts i parts -> lc_Dir (cfg (st_log s)) = dir ->
  log_repr settled (st_log s) (st_w s) v -> v_next v + n + 1 < 2 ^ 64 -> covers i parts v ->
  0 <= i -> i + len (concat parts) < 2 ^ 64 -> wf_cmds (concat parts) ->
  last_ = i + len (concat parts) - 1 ->
  delivered a (selected from (records i (concat parts))) r a'.
Proof.
  intros Hil. revert i parts v.
  induction Hil as [s ctx a|segs n s acks s' ctx a r a' Hrun Hil IH|seg segs n s ctx a r a' Hskip Hil IH
    |seg segs n l w ctx a rs r a' Hskip Hseg Hil IH|seg segs l w ctx a rs e Hskip Hseg];
    intros i parts v Hsegs Hdir HR Hn Hcov Hi Hb Hwf Hlast.
  { by destruct parts. }
  { destruct s as [l w]. pose proof (len_nonneg acks).
    pose proof (replay_il_count _ _ _ _ _ _ _ Hil).
    destruct (run_repr settled l w v acks s' HR) as (v' & HR' & Hc' & _ & Hg & Hcfg); [lia|done|].
    eapply (IH i parts v'); try done.
    - by rewrite Hcfg.
    - unfold v_next in *. rewrite Hc', (proj1 Hg), len_app. unfold len in *. rewrite length_fmap. lia.
    - by eapply covers_grows. }
  all: destruct parts as [|p ps]; [done|]; cbn [starts fmap list_fmap concat] in *.
  all: injection Hsegs as -> ->; rewrite len_app in *; apply Forall_app in Hwf as [Hwp Hwps].
  all: pose proof (len_nonneg p); pose proof (len_nonneg (concat ps)).
  all: assert (covers (i + len p) ps v) as Hcov' by (intros j q Hq; apply Hcov; by right).
  all: rewrite records_app, selected_app.
  - rewrite (mk_segment_skip _ _ _ _ _ Hskip) by lia. by eapply (IH (i + len p) ps v); try lia.
  - pose proof (covers_snapshot _ _ _ _ _ _ (log_dir _ _ _ _ HR) Hcov) as Hsnap. rewrite Hdir in Hsnap.
    inversion Hsnap as [|? ? Hfs _]; subst.
    apply (replaySegment_spec fn (mk_segment _ (i, p)) from _ p) in Hseg as ((Hw & _) & _ & Hr); simpl; try lia; try done.
    simpl in Hr. inversion Hr as [? Hd| |]; subst. eapply delivered_app; [done|].
    eapply (IH (i + len p) ps v); try done; try lia. simpl in *. by rewrite <- Hw.
  - pose proof (covers_snapshot _ _ _ _ _ _ (log_dir _ _ _ _ HR) Hcov) as Hsnap. rewrite Hdir in Hsnap.
    inversion Hsnap as [|? ? Hfs _]; subst.
    apply (replaySegment_spec fn (mk_segment _ (i, p)) from _ p) in Hseg as (_ & _ & Hr); simpl; try lia; try done.
    by apply (replayed_stop_app _ _ (selected from (records (i + len p) (concat ps)))) in Hr.
Qed.
End replay_interleaved.

(** ** Sticky failures *)

(** Once an append, a flush or a rotation failed, or the log was closed, no
    step acknowledges anything and the first failure stays. *)
Definition refusing (l : Log) : Prop := is_Some (failed l) \/ closed l = true.

Lemma sync_log s r s' :
  sync s = (r, s') ->
  st_log s' = set_dirty false (st_log s) \/ exists e, st_log s' = set_failed (Some e) (st_log s).
Proof.
  unfold sync. destruct s as [l w]. rewrite (bind_ok _ _ _ l (St l w)) by done. intros H.
  destruct (file_Sync (active l) w) as [r1 w1] eqn:Hs.
  rewrite (try_bind _ _ _ r1 (St l w1)) in H by (unfold io; simpl; by rewrite Hs).
  destruct r1; injection H as <- <-; [by left|right; eauto].
Qed.

Lemma Append_refusing l w ctx c r s' :
  refusing l -> Append ctx c (St l w) = (r, s') -> s' = St l w /\ exists e, r = Err e.
Proof.
  intros Hre H. destruct (append_refusal l ctx c) as [e|] eqn:Href.
  { rewrite (Append_refused _ _ _ _ _ Href) in H. injection H as <- <-. eauto. }
  apply refusal_None in Href as (_ & _ & Hc & Hf). destruct Hre as [[e He]|He]; congruence.
Qed.

Lemma Close_finish_log l w r s' :
  Close_finish (St l w) = (r, s') ->
  closed (st_log s') = closed l /\ (forall e, failed l = Some e -> failed (st_log s') = Some e).
Proof.
  unfold Close_finish. rewrite (bind_ok _ _ _ l (St l w)) by done. intros H.
  apply (f_equal snd) in H. simpl in H.
  assert (exists r1 l1 w1, (if bool_decide (failed l = None) && dirty l then try sync else mret (Ok tt)) (St l w)
      = (Ok r1, St l1 w1) /\ closed l1 = closed l /\ (forall e, failed l = Some e -> failed l1 = Some e))
    as (r1 & l1 & w1 & H1 & Hc & Hf).
  { destruct (bool_decide_reflect (failed l = None)) as [Hf|Hf]; [destruct (dirty l)|]; simpl;
      try (by exists (Ok tt), l, w).
    unfold try. destruct (sync (St l w)) as [r1 [l1 w1]] eqn:Hs. exists r1, l1, w1. split; [done|].
    destruct (sync_log _ _ _ Hs) as [Hl|(e & Hl)]; simpl in Hl; subst l1; rewrite Hf; done. }
  rewrite (bind_ok _ _ _ _ _ H1), (bind_ok _ _ _ l1 (St l1 w1)) in H by done.
  destruct (file_Close (active l1) w1) as [r2 w2] eqn:Hcl.
  rewrite (try_bind _ _ _ r2 (St l1 w2)) in H by (unfold io; simpl; by rewrite Hcl).
  destruct r2; subst s'; done.
Qed.

Lemma step_refusing l w acks s' :
  refusing l -> step (St l w) acks s' ->
  acks = [] /\ refusing (st_log s') /\ (forall e, failed l = Some e -> failed (st_log s') = Some e).
Proof.
  intros Hre Hstep.
  inversion Hstep as [ctx c ? i ? HA|ctx c ? e ? HA|? r ? HT|? r ? HC|? r ? Hc HC|? ? script]; subst.
  - by destruct (Append_refusing _ _ _ _ _ _ Hre HA) as (_ & e & ?).
  - by destruct (Append_refusing _ _ _ _ _ _ Hre HA) as (-> & _).
  - unfold syncIfDirty in HT. rewrite (bind_ok _ _ _ l (St l w)) in HT by done.
    assert (negb (dirty l) || bool_decide (is_Some (failed l)) || closed l = true) as Hskip.
    { destruct Hre as [Hf|Hc]; [rewrite (bool_decide_eq_true_2 _ Hf)|rewrite Hc];
        by rewrite ?orb_true_r, ?orb_true_l. }
    rewrite Hskip in HT. by injection HT as <- <-.
  - unfold Close_begin in HC. rewrite (bind_ok _ _ _ l (St l w)) in HC by done.
    destruct (closed l) eqn:Hcl; injection HC as <- <-; (split_and!; [done| |done]); [done|by right].
  - destruct (Close_finish_log _ _ _ _ HC) as [Hcl Hf]. split_and!; [done| |done].
    right. by rewrite Hcl.
  - done.
Qed.
