(* ===== verification/RecoveryFacts.v ===== *)
(** * Recovery reads back what was written

    Opening a directory that a log left behind, whole or cut short: which view
    recovery reaches, when it refuses, and what a failed attempt leaves. *)

From stdpp Require Import prelude gmap strings list sorting.
From Stdlib Require Import ZArith Lia.
From S2P Require Import Prelude GoBytes GoStrings Kverr Config Record Fs FsFacts Segment Log Recovery LogRepr ReplayFacts LogView LogFacts LogOps.

Local Open Scope Z_scope.

Lemma dir_repr_weaken (P Q : Prop) dir w v : (Q -> P) -> dir_repr P dir w v -> dir_repr Q dir w v.
Proof.
  intros HQP [Hok Hex Hgh Hcl (b & Hact & Hb) Hor Hon Htl Hrt]. split; auto.
  - eapply Forall_impl; [done|]. intros ip (disk & b' & Hf & Hs). exists disk, b'. auto.
  - exists b. auto.
Qed.

Lemma log_repr_weaken (P Q : Prop) l w v : (Q -> P) -> log_repr P l w v -> log_repr Q l w v.
Proof.
  intros HQP [Hd ? ? ? ? Hh Hc Ha]. split; auto.
  - by eapply dir_repr_weaken.
  - intros Hf. destruct (Hh Hf) as (? & ? & ? & Hp). split_and!; auto.
  - intros Hal. destruct (Ha Hal). auto.
Qed.

(** ** Listing *)

Lemma v_firsts_file settled dir w v i :
  dir_repr settled dir w v -> i ∈ v_firsts v ->
  is_u64 i /\ exists data disk b, has_file (seg_file dir i) data disk b w.
Proof.
  intros [Hok _ _ Hcl (b & Hact & _) Hor _ _ _] Hi. unfold v_firsts, v_parts in Hi.
  rewrite starts_snoc, fmap_app in Hi. apply elem_of_app in Hi as [Hi|Hi].
  2:{ destruct (v_orphan v) as [b'|]; [|by apply not_elem_of_nil in Hi].
      apply list_elem_of_singleton in Hi as ->. split; [by apply v_next_u64|eauto]. }
  apply elem_of_app in Hi as [([j p] & -> & Hin)%list_elem_of_fmap|Hi].
  - split; [by eapply (v_closed_u64 v)|]. rewrite Forall_forall in Hcl.
    destruct (Hcl _ Hin) as (disk & b' & Hf & _). eauto.
  - apply list_elem_of_singleton in Hi as ->. fold (v_start v). split; [by apply v_start_u64|eauto].
Qed.

Lemma v_firsts_sorted v : view_ok v -> StronglySorted Z.lt (v_firsts v).
Proof.
  intros Hok. unfold v_firsts. destruct (v_orphan v) as [b|] eqn:Ho.
  - destruct (ok_orphan _ Hok) as [_ Hne]; [by rewrite Ho|].
    assert ((starts (v_base v) (v_parts v)).*1 ++ [v_next v]
      = (starts (v_base v) (v_parts v ++ [[]])).*1) as ->.
    { by rewrite starts_snoc, fmap_app. }
    apply starts_sorted. apply Forall_app. split; [by apply ok_closed|by repeat constructor].
  - rewrite app_nil_r. by apply starts_sorted, ok_closed.
Qed.

Lemma listSegments_run settled dir w v r w' :
  dir_repr settled dir w v -> listSegments dir w = (r, w') ->
  quiet w w' /\ (r = Ok (fresh_segment dir <$> v_firsts v) \/ exists e, r = Err e /\ ~ faultless w).
Proof.
  intros Hd H. unfold listSegments in H. destruct (os_ReadDir dir w) as [r1 w1] eqn:Hrd.
  rewrite (try_bind _ _ _ _ _ Hrd) in H. destruct (dir_exists _ _ _ _ Hd) as [d Hdir].
  destruct (os_ReadDir_inv _ _ _ _ Hrd) as (Hq & [(d' & Hd' & ->)|(e & -> & Hnf)]).
  2:{ injection H as <- <-. split; [done|right]. eexists. split; [done|].
      intros Hfl. by rewrite Hnf in Hdir. }
  rewrite Hdir in Hd'. injection Hd' as <-.
  assert (forall name, entry_of (Path dir name) w = d_entries d !! name) as Hent.
  { intros name. unfold entry_of. simpl. by rewrite Hdir. }
  destruct (collect_sorted dir d (v_firsts v)) as (segs & Hcs & Hsort).
  - apply Forall_forall. intros i Hi. by apply (v_firsts_file _ _ _ _ _ Hd).
  - by apply v_firsts_sorted, Hd.
  - split.
    + intros name e He. rewrite <- Hent in He.
      destruct (dir_only _ _ _ _ Hd name) as (i & Hi & ->); [eauto|].
      destruct (v_firsts_file _ _ _ _ _ Hd Hi) as (_ & data & disk & b & Hf).
      unfold has_file, seg_file in Hf. rewrite Hf in He. injection He as <-. eauto.
    + intros i Hi. destruct (v_firsts_file _ _ _ _ _ Hd Hi) as (_ & data & disk & b & Hf).
      rewrite <- Hent. unfold has_file, seg_file in Hf. eauto.
  - rewrite Hcs in H. simpl in H. injection H as <- <-. rewrite Hsort. split; [done|by left].
Qed.

(** ** Verifying one segment *)

(** Reading a segment file, as verification and replay start. *)
Lemma read_run {S} p data disk b w :
  has_file p data disk b w ->
  forall (k : bytes -> IO S) r w',
    (x ← wrapping "command log segment could not be read" (os_ReadFile p); k x) w = (r, w') ->
    (exists w1, quiet w w1 /\ k data w1 = (r, w'))
    \/ (exists e, r = Err e /\ quiet w w' /\ ~ faultless w).
Proof.
  intros Hf k r w' H. unfold mbind, M_bind in H. rewrite wrapping_run in H.
  destruct (os_ReadFile p w) as [r1 w1] eqn:Hrd. apply has_file_of in Hf.
  destruct (os_ReadFile_inv _ _ _ _ Hrd) as (Hq & [(f & Hf' & ->)|(e & -> & Hnf)]).
  - rewrite Hf in Hf'. injection Hf' as <-. left. by exists w1.
  - injection H as <- <-. right. eexists. split_and!; [done|apply Hq..|].
    intros Hfl. rewrite Hnf in Hf by done. done.
Qed.

(** A segment of intact records: counted, and left as it is. *)
Lemma verifySegment_intact dir i p isLast disk b w r w' :
  1 <= i -> i + len p < 2 ^ 64 -> wf_cmds p ->
  has_file (seg_file dir i) (encode_from i p) disk b w ->
  verifySegment (fresh_segment dir i) isLast w = (r, w') ->
  quiet w w' /\ (r = Ok (mk_segment dir (i, p), s64 (len (encode_from i p))) \/ exists e, r = Err e /\ ~ faultless w).
Proof.
  intros Hi Hb Hwf Hf H. pose proof (len_nonneg p). unfold verifySegment in H.
  apply (read_run _ _ _ _ _ Hf) in H as [(w1 & Hq & H)|(e & -> & Hq & Hnf)].
  2:{ split; [done|]. right. by eexists. }
  cbn [first fresh_segment] in H. rewrite verify_data_ok in H by (unfold is_u64; lia || done).
  injection H as <- <-. split; [done|]. left. unfold mk_segment. simpl.
  unfold fresh_segment, seg_file. simpl. do 3 f_equal.
  rewrite (u64_small (i + len p)) by (unfold is_u64; lia). apply u64_small. unfold is_u64. lia.
Qed.

Lemma dir_repr_closed_intact settled dir w v i p :
  dir_repr settled dir w v -> (i, p) ∈ starts (v_base v) (v_closed v) ->
  1 <= i /\ i + len p < 2 ^ 64 /\ wf_cmds p
  /\ exists disk b, has_file (seg_file dir i) (encode_from i p) disk b w.
Proof.
  intros [Hok _ _ Hcl _ _ _ _ _] Hin. pose proof (v_closed_below _ Hok _ _ Hin).
  pose proof (starts_range _ _ _ _ Hin) as Hr. pose proof (v_start_range _ Hok) as Hs.
  pose proof (len_nonneg (v_active v)). fold (v_start v) in Hr. split_and!; [lia|lia| |].
  - eapply starts_Forall; [|done]. apply Forall_concat, (v_wf_parts _ Hok).
  - rewrite Forall_forall in Hcl. destruct (Hcl _ Hin) as (disk & b & Hf & _). eauto.
Qed.

(** ** The segments before the last *)

(** The index [verify_segments] compares the next first index with. *)
Definition prev_ok (prev : option Z) (i : Z) : Prop := prev = None \/ prev = Some (i - 1).

Lemma verify_segments_cons prev i dir segs w :
  prev_ok prev i -> is_u64 i ->
  verify_segments prev (fresh_segment dir i :: segs) w
  = (let isLast := match segs with [] => true | _ => false end in
     v ← verifySegment (fresh_segment dir i) isLast;
     let '(seg', size) := v in
     if isLast then mret ([seg'], size)
     else
       rest ← verify_segments (Some (last seg')) segs;
       let '(segs'', size') := rest in mret (seg' :: segs'', size')) w.
Proof.
  intros Hp Hi. cbn [verify_segments]. destruct Hp as [->| ->]; [done|].
  cbn [first fresh_segment]. by rewrite Z.sub_add, u64_small, Z.eqb_refl by done.
Qed.

Lemma verify_closed dir ps tl prev i w r w' :
  tl <> [] -> prev_ok prev i -> 1 <= i -> i + len (concat ps) < 2 ^ 64 -> wf_cmds (concat ps) ->
  (forall j p, (j, p) ∈ starts i ps -> exists disk b, has_file (seg_file dir j) (encode_from j p) disk b w) ->
  verify_segments prev ((fresh_segment dir <$> (starts i ps).*1) ++ tl) w = (r, w') ->
  (exists w1 prev' r1, quiet w w1 /\ prev_ok prev' (i + len (concat ps))
     /\ verify_segments prev' tl w1 = (r1, w')
     /\ r = result_map (fun x => ((mk_segment dir <$> starts i ps) ++ x.1, x.2)) r1)
  \/ (exists e, r = Err e /\ quiet w w' /\ ~ faultless w).
Proof.
  intros Htl. revert prev i w r w'. induction ps as [|p ps IH]; intros prev i w r w' Hprev Hi Hb Hwf Hfiles H.
  { left. exists w, prev, r. cbn [concat]. rewrite len_nil, Z.add_0_r.
    split_and!; [apply quiet_refl|done|done|]. by destruct r as [[]|]. }
  cbn [starts fmap list_fmap concat fst app] in *. rewrite len_app in *. apply Forall_app in Hwf as [Hwp Hwps].
  pose proof (len_nonneg p). pose proof (len_nonneg (concat ps)).
  rewrite verify_segments_cons in H; [|done|unfold is_u64; lia].
  destruct ((fresh_segment dir <$> (starts (i + len p) ps).*1) ++ tl) as [|sg sgs] eqn:Hrest.
  { apply app_nil in Hrest as [_ ?]. done. }
  rewrite <- Hrest in H. cbn zeta in H.
  destruct (Hfiles i p) as (disk & b & Hf); [by left|]. assert (i + len p < 2 ^ 64) as Hip by lia.
  unfold mbind at 1 in H. unfold M_bind at 1 in H.
  destruct (verifySegment (fresh_segment dir i) false w) as [r1 w1] eqn:Hv.
  destruct (verifySegment_intact _ _ _ _ _ _ _ _ _ Hi Hip Hwp Hf Hv) as (Hq & [->|(e & -> & Hnf)]).
  2:{ injection H as <- <-. right. by exists e. }
  destruct (verify_segments (Some (last (mk_segment dir (i, p))))
    ((fresh_segment dir <$> (starts (i + len p) ps).*1) ++ tl) w1) as [r2 w2] eqn:Hvs.
  pose proof Hvs as Hvs'. apply IH in Hvs' as [(w3 & prev' & r3 & Hq3 & Hp3 & Hv3 & ->)|(e & -> & Hq3 & Hnf)].
  - left. exists w3, prev', r3. unfold mbind, M_bind in H. rewrite Hvs in H. rewrite <- Z.add_assoc in Hp3.
    destruct r3 as [[]|]; injection H as <- <-; (split_and!; [by eapply quiet_trans|done|done|done]).
  - right. exists e. unfold mbind, M_bind in H. rewrite Hvs in H. injection H as <- <-.
    split_and!; [done|by eapply quiet_trans|]. intros Hfl. by apply Hnf, Hq.
  - right. simpl. done.
  - lia.
  - lia.
  - done.
  - intros j q Hjq. destruct (Hfiles j q) as (d2 & b2 & Hf2); [by right|]. exists d2, b2. by rewrite <- (proj1 Hq).
Qed.

(** ** The last segment *)

(** The bytes behind the records are part of a record. *)
Definition torn (v : view) : Prop :=
  exists n c, len c <= maxCommandSize /\ (0 < n < length (encodeRecord (v_next v) c))%nat
    /\ v_junk v = take n (encodeRecord (v_next v) c).

(** They contain an intact record of their own, with a later index. *)
Definition embeds (v : view) : Prop := torn v /\ later_record (v_junk v) (v_next v).

(** What recovery makes of a view. *)
Inductive recovered (v : view) : view -> Prop :=
| recovered_whole : v_junk v = [] -> v_orphan v = None -> recovered v v
| recovered_orphan b : v_orphan v = Some b -> recovered v (shifted v)
| recovered_complete c :
    len c <= maxCommandSize -> v_junk v = encodeRecord (v_next v) c -> v_orphan v = None ->
    recovered v (absorbed v c)
| recovered_torn :
    torn v -> ~ embeds v -> v_orphan v = None ->
    recovered v (with_active v (v_active v) [] (v_records v) None).

Lemma junk_cases v :
  view_ok v ->
  v_junk v = [] \/ (exists c, len c <= maxCommandSize /\ v_junk v = encodeRecord (v_next v) c) \/ torn v.
Proof.
  intros Hok. destruct (ok_junk _ Hok) as (n & c & Hc & Hj).
  destruct (decide (n = 0%nat)) as [->|Hn]; [left; by rewrite Hj, take_0|right].
  destruct (decide (n < length (encodeRecord (v_next v) c))%nat) as [Hlt|Hge].
  - right. exists n, c. split_and!; [done|lia|lia|done].
  - left. exists c. split; [done|]. by rewrite Hj, take_ge by lia.
Qed.

Lemma torn_orphan v : view_ok v -> torn v -> v_orphan v = None.
Proof.
  intros Hok (n & c & _ & Hn & Hj). apply eq_None_not_Some. intros [Hn0 _]%(ok_orphan _ Hok).
  rewrite Hn0 in Hj. apply (f_equal length) in Hj. rewrite length_take in Hj. simpl in Hj. lia.
Qed.

Definition truncated (v : view) (disk : bytes) : view := with_active v (v_active v) [] disk None.

Lemma truncated_ok v disk : view_ok v -> view_ok (truncated v disk).
Proof.
  intros []. split; try done; simpl; [|by intros []].
  exists 0%nat, []. split; [vm_compute; discriminate|by rewrite take_0].
Qed.

(** A directory whose tail is not worse than that of [v]. *)
Definition retryable settled dir w (v : view) : Prop :=
  exists junk disk, dir_repr settled dir w (with_active v (v_active v) junk disk (v_orphan v))
    /\ (junk = v_junk v \/ junk = []).

Lemma retryable_refl settled dir w v : dir_repr settled dir w v -> retryable settled dir w v.
Proof. intros H. exists (v_junk v), (v_disk v). split; [by destruct v|by left]. Qed.

Lemma dir_repr_truncated settled dir w w' v disk :
  dir_repr settled dir w v -> v_orphan v = None -> (disk = v_disk v \/ disk = v_records v) ->
  wrote (seg_file dir (v_start v)) (File (v_records v) disk) w w' ->
  dir_repr settled dir w' (truncated v disk).
Proof.
  intros Hd Ho Hdisk Hw. unfold truncated. rewrite <- Ho.
  apply (dir_repr_rewrite settled dir w); [done| |by right| | |].
  - rewrite Ho. by apply truncated_ok, Hd.
  - intros Hs. destruct Hdisk as [->| ->].
    + destruct (dir_tail _ _ _ _ Hd Hs) as (n & c & Hc & _ & Hp). exists 0%nat, c. by rewrite take_0.
    + by apply tail_ok_prefix.
  - rewrite Ho. by intros _ [].
  - unfold v_data. simpl. change (v_records (with_active _ _ _ _ _)) with (v_records v).
    by rewrite app_nil_r.
Qed.

(** [truncateTail] once the segment is truncated and open. *)
Definition flush_truncated (p : path) (offset : Z) (damage : error) : IO unit :=
  syncErr ← try (file_Sync (Handle p true));
  closeErr ← try (file_Close (Handle p true));
  match joined syncErr closeErr with
  | Some err => fail (internal err "truncated command log segment could not be flushed")
  | None =>
      emit (Line "WARN"
        "command log tail was damaged, probably by a crash during a write; truncated it"
        [("segment", p_base p); ("offset", Itoa offset); ("damage", error_text damage)])
  end.

Lemma retryable_truncated settled dir w v disk :
  v_orphan v = None -> dir_repr settled dir w (truncated v disk) -> retryable settled dir w v.
Proof. intros Ho Hd. exists [], disk. rewrite Ho. split; [done|by right]. Qed.

Lemma truncated_file settled dir w v disk :
  dir_repr settled dir w (truncated v disk) ->
  file_of (seg_file dir (v_start v)) w = Some (File (v_records v) disk).
Proof.
  intros Hd. pose proof (dir_repr_file _ _ _ _ Hd) as H.
  assert (v_data (truncated v disk) = v_records v) as Hdata by apply app_nil_r.
  by rewrite Hdata in H.
Qed.

Lemma flush_truncated_run settled dir w v disk dmg r w' :
  dir_repr settled dir w (truncated v disk) -> v_orphan v = None ->
  flush_truncated (seg_file dir (v_start v)) (len (v_records v)) dmg w = (r, w') ->
  (r = Ok tt /\ dir_repr settled dir w' (truncated v (v_records v)) /\ (faultless w -> faultless w'))
  \/ (exists e, r = Err e /\ retryable settled dir w' v /\ ~ faultless w).
Proof.
  intros Hd Ho H. unfold flush_truncated in H. pose proof (truncated_file _ _ _ _ _ Hd) as Hfile.
  destruct (file_Sync (Handle (seg_file dir (v_start v)) true) w) as [r3 w3] eqn:Hs.
  rewrite (try_bind _ _ _ _ _ Hs) in H.
  destruct (file_Close (Handle (seg_file dir (v_start v)) true) w3) as [r4 w4] eqn:Hc.
  rewrite (try_bind _ _ _ _ _ Hc) in H.
  destruct (file_Close_inv _ _ _ _ Hc) as (Hq4 & Hr4).
  destruct (file_Sync_inv _ _ _ _ Hs) as [(f & _ & Hf & -> & Hw3)|(e & -> & Hq3 & Hnf)]; cbn [h_path] in *.
  - rewrite Hfile in Hf. injection Hf as <-. cbn [f_data] in Hw3.
    apply (dir_repr_truncated settled) with (v := truncated v disk) in Hw3 as Hd3; [|done|done|by right].
    rewrite (proj1 Hq4) in Hd3. change (v_records (truncated _ _)) with (v_records v) in Hd3.
    destruct Hr4 as [->|(e & -> & Hnf)]; cbn [joined] in H; injection H as <- <-.
    + left. split_and!; [done| |intros; by apply Hq4, Hw3].
      eapply dir_repr_proper; [|done|exact Hd3]. constructor. done.
    + right. eexists. split_and!; [done|by eapply retryable_truncated|].
      intros Hf. apply Hw3, Hnf in Hf. done.
  - right. destruct r4; cbn [joined] in H; injection H as <- <-; eexists;
      (split_and!; [done|eapply retryable_truncated; [done|]; by rewrite <- (proj1 Hq4), <- (proj1 Hq3)|]);
      intros Hfl; by rewrite Hnf in Hfile.
Qed.

Lemma truncateTail_run settled dir w v dmg r w' :
  dir_repr settled dir w v -> v_orphan v = None ->
  truncateTail (seg_file dir (v_start v)) (len (v_records v)) dmg w = (r, w') ->
  (r = Ok tt /\ dir_repr settled dir w' (truncated v (v_records v)) /\ (faultless w -> faultless w'))
  \/ (exists e, r = Err e /\ retryable settled dir w' v /\ ~ faultless w).
Proof.
  intros Hd Ho H. unfold truncateTail in H. pose proof (dir_repr_file _ _ _ _ Hd) as Hfile.
  unfold mbind at 1 in H. unfold M_bind at 1 in H. rewrite wrapping_run in H.
  destruct (os_Truncate (seg_file dir (v_start v)) (len (v_records v)) w) as [r1 w1] eqn:Ht.
  destruct (os_Truncate_inv _ _ _ _ _ Ht) as [(f & Hf & -> & Hw)|(e & -> & Hq & Hnf)].
  2:{ injection H as <- <-. right. eexists. split_and!; [done| |].
      - apply retryable_refl. by rewrite <- (proj1 Hq).
      - intros Hfl. by rewrite Hnf in Hfile. }
  rewrite Hfile in Hf. injection Hf as <-. cbn [f_data f_disk] in Hw.
  unfold v_data in Hw. rewrite take_app_length' in Hw by (unfold len; lia).
  apply (dir_repr_truncated settled) in Hw as Hd1; [|done|done|by left].
  unfold mbind at 1 in H. unfold M_bind at 1 in H. rewrite wrapping_run in H.
  destruct (os_OpenFile_write (seg_file dir (v_start v)) w1) as [r2 w2] eqn:Hop.
  destruct (os_OpenFile_write_inv _ _ _ _ Hop) as (Hq2 & [(_ & ->)|(e & -> & Hnf)]).
  2:{ injection H as <- <-. right. eexists.
      split_and!; [done|eapply retryable_truncated; [done|]; by rewrite <- (proj1 Hq2)|].
      intros Hfl. apply truncated_file in Hd1. rewrite Hnf in Hd1 by apply Hw, Hfl. done. }
  rewrite (proj1 Hq2) in Hd1.
  destruct (flush_truncated_run _ _ _ _ _ _ _ _ Hd1 Ho H) as [(-> & ? & ?)|(e & -> & ? & Hnf)]; [left|right].
  - split_and!; [done|done|]. intros. by apply H1, Hq2, Hw.
  - exists e. split_and!; [done|done|]. intros Hfl. by apply Hnf, Hq2, Hw.
Qed.

Lemma errTornRecord_not_sequence : errors_Is errTornRecord errOutOfSequence = false.
Proof. vm_compute. reflexivity. Qed.

(** The segment of the active part of a view, and its size. *)
Definition active_segment (dir : string) (v : view) : segment * Z :=
  (mk_segment dir (v_start v, v_active v), s64 (len (v_records v))).

Definition last_outcome settled dir (w : world) (v : view) (r : result error (segment * Z)) (w' : world) : Prop :=
  (exists v', r = Ok (active_segment dir v') /\ recovered v v' /\ dir_repr settled dir w' v'
     /\ v_start v' = v_start v /\ retryable settled dir w' v /\ (faultless w -> faultless w'))
  \/ (exists e, r = Err e /\ retryable settled dir w' v /\ (~ faultless w \/ embeds v)).

Lemma verify_torn settled dir w v r w' :
  dir_repr settled dir w v -> torn v ->
  verifySegment (fresh_segment dir (v_start v)) true w = (r, w') -> last_outcome settled dir w v r w'.
Proof.
  intros Hd Ht H. pose proof (dir_ok _ _ _ _ Hd) as Hok. pose proof (torn_orphan _ Hok Ht) as Ho.
  destruct (dir_active _ _ _ _ Hd) as (b & Hf & _). unfold verifySegment in H.
  apply (read_run _ _ _ _ _ Hf) in H as [(w1 & Hq & H)|(e & -> & Hq & Hnf)].
  2:{ right. exists e. split_and!; [done|apply retryable_refl; by rewrite <- (proj1 Hq)|by left]. }
  rewrite (proj1 Hq) in Hd. pose proof Ht as (n & c & Hc & [Hn0 Hn] & Hj).
  pose proof (v_start_range _ Hok) as Hr. pose proof (len_nonneg (v_active v)).
  cbn [first fresh_segment seg_path] in H. unfold v_data, v_records in H.
  rewrite (verify_data_damaged _ _ _ errTornRecord) in H; [|by apply v_start_u64|apply (v_wf_parts _ Hok)| |].
  2:{ rewrite Hj. intros Hnil%(f_equal length). rewrite length_take in Hnil. simpl in Hnil. lia. }
  2:{ rewrite Hj. apply decode_torn; [|done]. split; [by apply v_next_u64|done]. }
  rewrite drop_app_length' in H by (unfold len; lia).
  rewrite (proj1 (proj2 Hr)), (u64_small (v_next v)) in H by (by apply v_next_u64).
  rewrite errTornRecord_not_sequence in H. cbn [negb orb] in H.
  destruct (hasLaterRecord (v_junk v) (v_next v)) eqn:Hlater.
  - injection H as <- <-. right. eexists. split_and!; [done|by apply retryable_refl|]. right.
    split; [done|]. apply hasLaterRecord_iff; [|done]. apply (v_next_u64 _ Hok).
  - assert (~ embeds v) as Hne.
    { intros [_ Hl]. rewrite <- hasLaterRecord_iff in Hl by apply (v_next_u64 _ Hok). by rewrite Hlater in Hl. }
    unfold mbind, M_bind in H. change (Path dir (segmentName (v_start v))) with (seg_file dir (v_start v)) in H.
    fold (v_records v) in H.
    destruct (truncateTail (seg_file dir (v_start v)) (len (v_records v)) errTornRecord w1) as [r2 w2] eqn:Htr.
    destruct (truncateTail_run _ _ _ _ _ _ _ Hd Ho Htr) as [(-> & Hd2 & Hfl)|(e & -> & Hre & Hnf)];
      injection H as <- <-; [left|right].
    + exists (truncated v (v_records v)). split_and!; [|by constructor|done|done|by eapply retryable_truncated|intros; by apply Hfl, Hq].
      unfold active_segment, mk_segment. simpl. do 3 f_equal.
      change (v_start (truncated _ _)) with (v_start v).
      rewrite (proj1 (proj2 Hr)). apply u64_small. unfold is_u64. lia.
    + exists e. split_and!; [done|done|]. left. intros Hfl2. by apply Hnf, Hq.
Qed.

Lemma verify_whole settled dir w v r w' :
  dir_repr settled dir w v -> v_junk v = [] ->
  verifySegment (fresh_segment dir (v_start v)) true w = (r, w') ->
  quiet w w' /\ (r = Ok (active_segment dir v) \/ exists e, r = Err e /\ ~ faultless w).
Proof.
  intros Hd Hj H. pose proof (dir_ok _ _ _ _ Hd) as Hok. pose proof (v_start_range _ Hok) as Hr.
  destruct (dir_active _ _ _ _ Hd) as (b & Hf & _). unfold v_data in Hf. rewrite Hj, app_nil_r in Hf.
  eapply verifySegment_intact; [| | |exact Hf|exact H]; [lia|lia|apply (v_wf_parts _ Hok)].
Qed.

Lemma verify_active settled dir w v r w' :
  dir_repr settled dir w v -> v_orphan v = None -> v_next v + 1 < 2 ^ 64 ->
  verifySegment (fresh_segment dir (v_start v)) true w = (r, w') -> last_outcome settled dir w v r w'.
Proof.
  intros Hd Ho Hb H. pose proof (dir_ok _ _ _ _ Hd) as Hok.
  assert (forall v1, recovered v v1 -> dir_repr settled dir w v1 -> v_junk v1 = [] ->
    v_start v1 = v_start v -> last_outcome settled dir w v r w') as Hwhole.
  { intros v1 Hrec Hd1 Hj1 Hs1. rewrite <- Hs1 in H.
    destruct (verify_whole _ _ _ _ _ _ Hd1 Hj1 H) as (Hq & [->|(e & -> & Hnf)]); [left|right].
    - exists v1. split_and!; [done|done|by rewrite <- (proj1 Hq)|done|apply retryable_refl; by rewrite <- (proj1 Hq)|apply Hq].
    - exists e. split_and!; [done|apply retryable_refl; by rewrite <- (proj1 Hq)|by left]. }
  destruct (junk_cases _ Hok) as [Hj|[(c & Hc & Hj)|Ht]]; [| |by apply verify_torn].
  - apply (Hwhole v); try done. by constructor.
  - apply (Hwhole (absorbed v c)); try done; [by constructor|by apply dir_repr_absorb].
Qed.

(** ** All segments *)

Definition segments_outcome settled dir (w : world) (v : view) (r : result error (list segment * Z)) (w' : world) : Prop :=
  (exists v', r = Ok (mk_segment dir <$> starts (v_base v') (v_parts v'), s64 (len (v_records v')))
     /\ recovered v v' /\ dir_repr (settled /\ (v_orphan v <> Some false)) dir w' v'
     /\ retryable settled dir w' v /\ (faultless w -> faultless w'))
  \/ (exists e, r = Err e /\ retryable settled dir w' v /\ (~ faultless w \/ embeds v)).

Lemma recovered_parts v v' :
  recovered v v' -> v_orphan v = None -> v_base v' = v_base v /\ v_closed v' = v_closed v.
Proof. intros [] Ho; try done. congruence. Qed.

Lemma verify_single prev i dir w r w' :
  prev_ok prev i -> is_u64 i -> verify_segments prev [fresh_segment dir i] w = (r, w') ->
  exists r1, verifySegment (fresh_segment dir i) true w = (r1, w')
    /\ r = result_map (fun x => ([x.1], x.2)) r1.
Proof.
  intros Hp Hi H. rewrite verify_segments_cons in H by done. cbn zeta in H. unfold mbind, M_bind in H.
  destruct (verifySegment (fresh_segment dir i) true w) as [r1 w1]. exists r1.
  by destruct r1 as [[seg size]|e]; injection H as <- <-.
Qed.

(** With an orphan, every segment of the view is closed and the orphan is last. *)
Lemma verify_with_orphan settled dir w v b r w' :
  dir_repr settled dir w v -> v_orphan v = Some b ->
  verify_segments None (fresh_segment dir <$> v_firsts v) w = (r, w') ->
  segments_outcome settled dir w v r w'.
Proof.
  intros Hd Ho H. pose proof (dir_ok _ _ _ _ Hd) as Hok. pose proof (v_start_range _ Hok) as Hr.
  destruct (ok_orphan _ Hok) as [Hj Hne]; [by rewrite Ho|]. pose proof (len_nonneg (v_active v)).
  unfold v_firsts in H. rewrite Ho, fmap_app in H.
  assert (forall w1, quiet w w1 -> dir_repr settled dir w1 v) as Hq by (intros w1 [Hw _]; by rewrite <- Hw).
  apply verify_closed in H as [(w1 & prev & r1 & Hq1 & Hp & Hv & ->)|(e & -> & Hq1 & Hnf)];
    [|right; exists e; by split_and!; [|apply retryable_refl, Hq|left]|done|by left|apply (ok_base _ Hok)
     |apply (ok_bound _ Hok)|apply (ok_wf _ Hok)|].
  2:{ intros j p. unfold v_parts. rewrite starts_snoc. intros [Hin|Hin]%elem_of_app.
      - by apply (dir_repr_closed_intact _ _ _ _ _ _ Hd Hin).
      - apply list_elem_of_singleton in Hin as [= -> ->]. destruct (dir_active _ _ _ _ Hd) as (b' & Hf & _).
        unfold v_data in Hf. rewrite Hj, app_nil_r in Hf. eauto. }
  apply verify_single in Hv as (r2 & Hv & ->); [|done|by apply v_next_u64].
  pose proof (dir_orphan _ _ _ _ (Hq _ Hq1) _ Ho) as Hf.
  apply (verifySegment_intact dir (v_next v) [] true [] b) in Hv as (Hq2 & [->|(e & -> & Hnf)]); [| |lia|rewrite len_nil; lia|constructor|done].
  - left. exists (shifted v). destruct (shifted_facts v) as (_ & _ & _ & Hrec & _).
    split_and!; [|by econstructor| |apply retryable_refl, Hq; by eapply quiet_trans|intros; by apply Hq2, Hq1].
    + cbn [result_map fst snd]. rewrite Hrec. do 2 f_equal. change (v_parts (shifted v)) with (v_parts v ++ [[]]).
      by rewrite starts_snoc, fmap_app.
    + rewrite <- (proj1 Hq2). eapply (dir_repr_shift _ _ _ v b); [|done|].
      * eapply dir_repr_weaken; [|by apply Hq]. tauto.
      * intros [Hs Hb]. destruct b; [|done]. split; [done|]. apply (dir_rotating _ _ _ _ Hd Hs). by rewrite Ho.
  - right. exists e. split_and!; [done|apply retryable_refl, Hq; by eapply quiet_trans|].
    left. intros Hfl. by apply Hnf, Hq1.
Qed.

Lemma verify_segments_run settled dir w v r w' :
  dir_repr settled dir w v -> v_next v + 1 < 2 ^ 64 ->
  verify_segments None (fresh_segment dir <$> v_firsts v) w = (r, w') ->
  segments_outcome settled dir w v r w'.
Proof.
  intros Hd Hb H. pose proof (dir_ok _ _ _ _ Hd) as Hok. pose proof (v_start_range _ Hok) as Hr.
  pose proof (len_nonneg (v_active v)).
  destruct (v_orphan v) as [b|] eqn:Ho; [by eapply verify_with_orphan|].
  unfold v_firsts, v_parts in H. rewrite Ho, app_nil_r, starts_snoc, !fmap_app in H. fold (v_start v) in H.
  apply verify_closed in H as [(w1 & prev & r1 & Hq1 & Hp & Hv & ->)|(e & -> & Hq1 & Hnf)];
    [| |done|by left|apply (ok_base _ Hok)|fold (v_start v); lia|apply (v_wf_parts _ Hok)
     |intros j p Hin; by apply (dir_repr_closed_intact _ _ _ _ _ _ Hd Hin)].
  2:{ right. exists e. split_and!; [done|apply retryable_refl; by rewrite <- (proj1 Hq1)|by left]. }
  rewrite (proj1 Hq1) in Hd.
  apply verify_single in Hv as (r2 & Hv & ->); [|done|by apply v_start_u64].
  destruct (verify_active _ _ _ _ _ _ Hd Ho Hb Hv) as [(v' & -> & Hrec & Hd' & Hs & Hre & Hfl)|(e & -> & Hre & Hc)].
  - left. exists v'. destruct (recovered_parts _ _ Hrec Ho) as [Hbase Hclosed].
    split_and!; [|done|eapply dir_repr_weaken; [|done]; tauto|done|intros; by apply Hfl, Hq1].
    cbn [result_map active_segment fst snd]. unfold v_parts. rewrite starts_snoc, fmap_app, Hbase, Hclosed.
    unfold v_start at 1. by rewrite Hbase, Hclosed.
  - right. exists e. split_and!; [done|done|]. destruct Hc as [Hnf|]; [left|by right].
    intros Hf. by apply Hnf, Hq1.
Qed.

(** ** recover and OpenLog *)

(** Everything the view holds is flushed. *)
Definition synced (v : view) : Prop := v_disk v = v_data v /\ v_orphan v <> Some false.

Lemma recovered_clean v v' :
  recovered v v' -> v_junk v' = [] /\ v_orphan v' = None /\ (synced v -> v_disk v' = v_records v').
Proof.
  intros [Hj Ho|b Ho|c Hc Hj Ho|Ht He Ho]; split_and!; try done.
  - intros [-> _]. unfold v_data. by rewrite Hj, app_nil_r.
  - intros [Hd _]. destruct (absorbed_facts v c) as (_ & _ & _ & -> & _). simpl.
    rewrite Hd. unfold v_data. by rewrite Hj.
Qed.

Lemma last_segment_starts dir i ps p :
  last_segment (mk_segment dir <$> starts i (ps ++ [p])) = mk_segment dir (i + len (concat ps), p).
Proof. rewrite starts_snoc, fmap_app. simpl. unfold last_segment. apply last_last. Qed.

Definition open_outcome settled (c : LogConfig) (w : world) (v : view) (r : result error Log) (w' : world) : Prop :=
  (exists l v', r = Ok l /\ cfg l = c /\ recovered v v' /\ log_repr (settled /\ synced v) l w' v'
     /\ failed l = None /\ closed l = false /\ (faultless w -> faultless w'))
  \/ (exists e, r = Err e /\ retryable settled (lc_Dir c) w' v /\ (~ faultless w \/ embeds v)).

Lemma recovered_log settled dir v v' l w :
  recovered v v' -> dir_repr (settled /\ v_orphan v <> Some false) dir w v' ->
  lc_Dir (cfg l) = dir -> segments l = mk_segment dir <$> starts (v_base v') (v_parts v') ->
  active l = Handle (seg_file dir (v_start v')) true -> activeSize l = s64 (len (v_records v')) ->
  lastIndex l = v_next v' - 1 -> dirty l = false -> failed l = None ->
  log_repr (settled /\ synced v) l w v'.
Proof.
  intros Hrec Hd <- Hs Ha Hsz Hl Hdi Hf. destruct (recovered_clean _ _ Hrec) as (Hj & Ho & Hsy).
  split; rewrite ?Ha; try done.
  - eapply dir_repr_weaken; [|done]. by intros [? []].
  - intros _. split_and!; [done|done|done|]. intros [_ ->%Hsy]. done.
  - intros [_ Hy] _ _. auto.
  - intros _. split; [done|]. intros [_ Hy]. auto.
Qed.

Lemma recover_run settled c w v r w' :
  dir_repr settled (lc_Dir c) w v -> v_next v + 1 < 2 ^ 64 ->
  recover (newLog c) w = (r, w') -> open_outcome settled c w v r w'.
Proof.
  intros Hd Hb H. unfold recover in H. cbn [cfg newLog] in H. unfold mbind at 1 in H. unfold M_bind at 1 in H.
  destruct (listSegments (lc_Dir c) w) as [r1 w1] eqn:Hl.
  destruct (listSegments_run _ _ _ _ _ _ Hd Hl) as (Hq & [->|(e & -> & Hnf)]).
  2:{ injection H as <- <-. right. exists e.
      split_and!; [done|apply retryable_refl; by rewrite <- (proj1 Hq)|by left]. }
  rewrite (proj1 Hq) in Hd.
  destruct (fresh_segment (lc_Dir c) <$> v_firsts v) as [|sg sgs] eqn:Hsegs.
  { apply fmap_nil_inv in Hsegs. unfold v_firsts, v_parts in Hsegs. rewrite starts_snoc, fmap_app in Hsegs.
    apply app_nil in Hsegs as [Hsegs _]. by apply app_nil in Hsegs as [_ ?]. }
  rewrite <- Hsegs in H. unfold mbind at 1 in H. unfold M_bind at 1 in H.
  destruct (verify_segments None (fresh_segment (lc_Dir c) <$> v_firsts v) w1) as [r2 w2] eqn:Hv.
  destruct (verify_segments_run _ _ _ _ _ _ Hd Hb Hv) as [(v' & -> & Hrec & Hd' & Hre & Hfl)|(e & -> & Hre & Hc)].
  2:{ injection H as <- <-. right. exists e. split_and!; [done|done|].
      destruct Hc as [Hnf|]; [left|by right]. intros Hf. by apply Hnf, Hq. }
  unfold v_parts in H. rewrite last_segment_starts in H. fold (v_start v') (v_parts v') in H.
  unfold mbind, M_bind in H. rewrite wrapping_run in H. cbn [seg_path mk_segment fst] in H.
  destruct (os_OpenFile_write (seg_file (lc_Dir c) (v_start v')) w2) as [r3 w3] eqn:Hop.
  destruct (os_OpenFile_write_inv _ _ _ _ Hop) as (Hq3 & [(_ & ->)|(e & -> & Hnf)]).
  - injection H as <- <-. left. do 2 eexists. split_and!; [done|done|exact Hrec| |done|done|intros; by apply Hq3, Hfl, Hq].
    eapply recovered_log; try done; [by rewrite <- (proj1 Hq3)|]. simpl. by rewrite v_next_start.
  - injection H as <- <-. right. eexists. split_and!; [done| |].
    + destruct Hre as (junk & disk & Hre & Hjunk). exists junk, disk. by rewrite <- (proj1 Hq3).
    + left. intros Hf. rewrite (dir_repr_file _ _ _ _ Hd') in Hnf. by specialize (Hnf (Hfl (proj2 (proj2 Hq) Hf))).
Qed.

Lemma OpenLog_run settled ctx c w v r w' :
  dir_repr settled (lc_Dir c) w v -> v_next v + 1 < 2 ^ 64 ->
  ctx_Err ctx = None -> LogConfig_Validate c = None ->
  OpenLog ctx c w = (r, w') -> open_outcome settled c w v r w'.
Proof.
  intros Hd Hb Hctx Hval H. unfold OpenLog, contextError in H. rewrite Hctx, Hval in H.
  rewrite (bind_ok _ _ _ tt w) in H by done. rewrite (bind_ok _ _ _ tt w) in H by done.
  unfold mbind at 1 in H. unfold M_bind at 1 in H. rewrite wrapping_run in H.
  destruct (dir_exists _ _ _ _ Hd) as [d Hdir].
  destruct (os_MkdirAll (lc_Dir c) w) as [r1 w1] eqn:Hmk.
  destruct (os_MkdirAll_inv _ _ _ _ Hmk) as [(d' & _ & -> & Hq)|[(Hn & _)|(e & -> & Hq & Hnf)]].
  2:{ by rewrite Hdir in Hn. }
  2:{ injection H as <- <-. right. eexists.
      split_and!; [done|apply retryable_refl; by rewrite <- (proj1 Hq)|by left]. }
  rewrite (proj1 Hq) in Hd. unfold mbind, M_bind in H.
  destruct (recover (newLog c) w1) as [r2 w2] eqn:Hrec.
  destruct (recover_run _ _ _ _ _ _ Hd Hb Hrec) as [(l & v' & -> & Hc & Hv & HR & Hf & Hcl & Hfl)|(e & -> & Hre & Hc)];
    injection H as <- <-.
  - left. do 2 eexists. split_and!; [done|done|done| |done|done|intros; by apply Hfl, Hq].
    destruct HR. by split.
  - right. exists e. split_and!; [done|done|]. destruct Hc as [Hnf|]; [left|by right].
    intros Hfw. by apply Hnf, Hq.
Qed.

(** ** A new log *)

Definition fresh_view : view := View 1 [] [] [] [] None.

(** No directory yet, or an empty one with no pending removals. *)
Definition no_entries (dir : string) (w : world) : Prop :=
  (forall name, entry_of (Path dir name) w = None) /\ ghosts_of dir w = ∅.

Lemma fresh_view_ok : view_ok fresh_view.
Proof.
  split; try done; [constructor| |by intros []].
  exists 0%nat, []. split; [vm_compute; discriminate|by rewrite take_0].
Qed.

Lemma fresh_dir_repr dir w w' :
  no_entries dir w -> is_Some (dir_of dir w) -> made (seg_file dir 1) true w w' ->
  dir_repr True dir w' fresh_view.
Proof.
  intros [Hn Hg] Hex [Hf He Ho Hd _].
  split; [apply fresh_view_ok|by apply Hd|intros _; by apply Hd| | | | | |].
  - constructor.
  - exists true. done.
  - done.
  - intros name Hname. destruct (decide (seg_file dir 1 = Path dir name)) as [[= <-]|Hne].
    { exists 1. split; [by left|done]. }
    specialize (Ho _ Hne). rewrite Hn in Ho. destruct Hname as [e Hname]. by rewrite Hname in Ho.
  - intros _. by apply tail_ok_prefix.
  - by intros _ [].
Qed.

Lemma dir_listing_empty d : d_entries d = ∅ -> dir_listing d = [].
Proof. intros H. unfold dir_listing. by rewrite H, map_to_list_empty. Qed.

Lemma recover_fresh c w r w' :
  no_entries (lc_Dir c) w -> is_Some (dir_of (lc_Dir c) w) -> recover (newLog c) w = (r, w') ->
  (exists l, r = Ok l /\ cfg l = c /\ log_repr True l w' fresh_view /\ failed l = None
     /\ closed l = false /\ (faultless w -> faultless w'))
  \/ (exists e, r = Err e /\ ~ faultless w).
Proof.
  intros Hn [d Hdir] H. unfold recover in H. cbn [cfg newLog] in H. unfold mbind at 1 in H. unfold M_bind at 1 in H.
  unfold listSegments in H. destruct (os_ReadDir (lc_Dir c) w) as [r1 w1] eqn:Hrd.
  rewrite (try_bind _ _ _ _ _ Hrd) in H.
  destruct (os_ReadDir_inv _ _ _ _ Hrd) as (Hq & [(d' & Hd' & ->)|(e & -> & Hnf)]).
  2:{ injection H as <- <-. right. eexists. split; [done|]. intros Hfl. by rewrite Hnf in Hdir. }
  rewrite Hdir in Hd'. injection Hd' as <-. rewrite dir_listing_empty in H.
  2:{ apply map_eq. intros name. rewrite lookup_empty. destruct Hn as [Hn _]. specialize (Hn name).
      unfold entry_of in Hn. simpl in Hn. by rewrite Hdir in Hn. }
  rewrite (bind_ok _ _ _ [] w1) in H by done. change (merge_sort seg_le []) with (@nil segment) in H.
  unfold startFirstSegment in H. cbn [mret M_ret cfg newLog] in H. unfold mbind, M_bind in H.
  change (Path (lc_Dir c) (segmentName 1)) with (seg_file (lc_Dir c) 1) in H.
  assert (no_entries (lc_Dir c) w1) as Hn1.
  { destruct Hn as [Hn Hg]. split; [intros name|]; by rewrite <- (proj1 Hq). }
  assert (is_Some (dir_of (lc_Dir c) w1)) as Hex by (rewrite <- (proj1 Hq); eauto).
  destruct (createSegment (seg_file (lc_Dir c) 1) (lc_Dir c) w1) as [r2 w2] eqn:Hcr.
  destruct (createSegment_inv _ _ _ _ Hcr) as [(-> & Hm)|[(e & -> & Hq2 & Hnf)|(e & b & -> & Hm & Hnf)]].
  - injection H as <- <-. left. eexists. split_and!; [done|done| |done|done|].
    + pose proof (fresh_dir_repr _ _ _ Hn1 Hex Hm). by split.
    + intros Hfl. by apply (made_faultless _ _ _ _ Hm), Hq.
  - injection H as <- <-. right. exists e. split; [done|]. intros Hfl. destruct Hnf as [x Hx].
    + by apply Hq.
    + done.
    + unfold seg_file in Hx. by rewrite (proj1 Hn1) in Hx.
  - injection H as <- <-. right. exists e. split; [done|]. intros Hfl. apply Hnf; [by apply Hq|done].
Qed.

Lemma OpenLog_fresh ctx c w r w' :
  no_entries (lc_Dir c) w -> ctx_Err ctx = None -> LogConfig_Validate c = None ->
  OpenLog ctx c w = (r, w') ->
  (exists l, r = Ok l /\ cfg l = c /\ log_repr True l w' fresh_view /\ failed l = None
     /\ closed l = false /\ (faultless w -> faultless w'))
  \/ (exists e, r = Err e /\ ~ faultless w).
Proof.
  intros Hn Hctx Hval H. unfold OpenLog, contextError in H. rewrite Hctx, Hval in H.
  rewrite (bind_ok _ _ _ tt w) in H by done. rewrite (bind_ok _ _ _ tt w) in H by done.
  unfold mbind at 1 in H. unfold M_bind at 1 in H. rewrite wrapping_run in H.
  destruct (os_MkdirAll (lc_Dir c) w) as [r1 w1] eqn:Hmk.
  assert ((exists e, r1 = Err e /\ ~ faultless w) \/ (r1 = Ok tt /\ no_entries (lc_Dir c) w1
    /\ is_Some (dir_of (lc_Dir c) w1) /\ (faultless w -> faultless w1)))
    as [(e & -> & Hnf)|(-> & Hn1 & Hex & Hfl)].
  { destruct Hn as [Hn Hg].
    destruct (os_MkdirAll_inv _ _ _ _ Hmk) as [(d & Hd & -> & Hq)|[(Hd & -> & Hd1 & _ & _ & Hfl)|(e & -> & Hq & Hnf)]].
    - right. split_and!; [done| |rewrite <- (proj1 Hq); eauto|apply Hq].
      split; [intros name|]; by rewrite <- (proj1 Hq).
    - right. split_and!; [done| |eauto|done].
      split; [intros name; unfold entry_of; simpl|unfold ghosts_of]; by rewrite Hd1.
    - left. eauto. }
  { injection H as <- <-. right. by eexists. }
  unfold mbind, M_bind in H. destruct (recover (newLog c) w1) as [r2 w2] eqn:Hrec.
  destruct (recover_fresh _ _ _ _ Hn1 Hex Hrec) as [(l & -> & Hc & HR & Hf & Hcl & Hfl2)|(e & -> & Hnf)];
    injection H as <- <-.
  - left. eexists. split_and!; [done|done| |done|done|auto]. destruct HR. by split.
  - right. exists e. auto.
Qed.
