(* ===== verification/Durability.v ===== *)
(** * Power loss

    What a log directory can look like after the power goes out, and that
    reopening it brings back every record that was flushed, in order. *)

From stdpp Require Import prelude gmap strings list sorting.
From Stdlib Require Import ZArith Lia.
From S2P Require Import Prelude GoBytes GoStrings Kverr Config Record Fs FsFacts Segment Log Recovery LogRepr ReplayFacts LogView LogFacts LogOps LogSpec RecoveryFacts.

Local Open Scope Z_scope.

(** ** Files *)

Lemma crash_content_flushed data c : crash_content (File data data) c -> c = data.
Proof.
  intros [[H1 H2]|[[H1 H2]|[H1 _]]]; simpl in *; [by apply (anti_symm prefix)..|by destruct H1].
Qed.

Lemma crash_lookup w w' p :
  crash w w' -> p_dir p ∉ w_fresh w ->
  crash_entry (entry_of p w) (ghosts_of (p_dir p) w !! p_base p) (entry_of p w').
Proof.
  intros [_ H] Hs. specialize (H (p_dir p)). unfold entry_of, ghosts_of, dir_of.
  destruct (w_dirs w !! p_dir p) as [d|], (w_dirs w' !! p_dir p) as [d'|]; try done.
  apply (proj2 H).
Qed.

(** What is there afterwards was there before, in whatever directory. *)
Lemma crash_present w w' p e' :
  crash w w' -> entry_of p w' = Some e' ->
  crash_entry (entry_of p w) (ghosts_of (p_dir p) w !! p_base p) (Some e').
Proof.
  intros [_ H] He. specialize (H (p_dir p)). revert He. unfold entry_of, ghosts_of, dir_of.
  destruct (w_dirs w !! p_dir p) as [d|], (w_dirs w' !! p_dir p) as [d'|]; try done.
  cbn. intros <-. apply (proj2 H).
Qed.

Lemma crash_has_file p data disk w w' :
  has_file p data disk true w -> crash w w' -> p_dir p ∉ w_fresh w ->
  exists c, has_file p c c true w' /\ crash_content (File data disk) c.
Proof.
  intros Hf Hc Hs. pose proof (crash_lookup _ _ p Hc Hs) as He. unfold has_file in *. rewrite Hf in He.
  destruct (entry_of p w') as [[[[data' disk']|] b']|]; simpl in He; try done.
  - destruct He as (-> & Hcc & Hd). simpl in *. subst disk'. by exists data'.
  - by destruct He as (_ & []).
Qed.

Lemma crash_flushed p data w w' :
  has_file p data data true w -> crash w w' -> p_dir p ∉ w_fresh w -> has_file p data data true w'.
Proof.
  intros Hf Hc Hs. destruct (crash_has_file _ _ _ _ _ Hf Hc Hs) as (c & Hc' & ->%crash_content_flushed). done.
Qed.

Lemma crash_only p w w' :
  crash w w' -> ghosts_of (p_dir p) w = ∅ -> is_Some (entry_of p w') -> is_Some (entry_of p w).
Proof.
  intros Hc Hg [e' He']. pose proof (crash_present _ _ p _ Hc He') as He.
  destruct (entry_of p w); [eauto|]. simpl in He. destruct He as (_ & n & Hn & _).
  by rewrite Hg, lookup_empty in Hn.
Qed.

Lemma crash_dirs w w' dir :
  crash w w' -> dir ∉ w_fresh w -> is_Some (dir_of dir w) -> is_Some (dir_of dir w') /\ ghosts_of dir w' = ∅.
Proof.
  intros [_ Hc] Hs [d Hd]. specialize (Hc dir). unfold dir_of, ghosts_of in *. rewrite Hd in Hc.
  unfold dir_of. destruct (w_dirs w' !! dir) as [d'|]; [|done]. split; [eauto|]. apply Hc.
Qed.

(** ** A cut through a run of records *)

Lemma encode_from_cut i cs x :
  x `prefix_of` encode_from i cs ->
  exists cs1 cs2 k, cs = cs1 ++ cs2
    /\ x = encode_from i cs1 ++ take k (encodeRecord (i + len cs1) (hd [] cs2))
    /\ (k < length (encodeRecord (i + len cs1) (hd [] cs2)))%nat.
Proof.
  assert (forall j c, (0 < length (encodeRecord j c))%nat) as Hpos.
  { intros. rewrite length_encodeRecord. lia. }
  revert i x. induction cs as [|c cs IH]; intros i x Hx.
  { apply prefix_nil_inv in Hx as ->. by exists [], [], 0%nat. }
  cbn [encode_from] in Hx. destruct (decide (length x < length (encodeRecord i c))%nat) as [Hlt|Hge].
  - exists [], (c :: cs), (length x). cbn [encode_from app hd]. rewrite len_nil, Z.add_0_r.
    split_and!; [done| |done]. destruct Hx as [y Hy]. apply (f_equal (take (length x))) in Hy.
    rewrite take_app_length, take_app_le in Hy by lia. by symmetry.
  - destruct Hx as [y Hy]. apply app_split in Hy as (x' & -> & Hy); [|lia].
    destruct (IH (i + 1) x') as (cs1 & cs2 & k & -> & -> & Hk); [by eexists|].
    exists (c :: cs1), cs2, k. cbn [app encode_from]. rewrite len_cons, Z.add_assoc, <- app_assoc. done.
Qed.

(** Whole records that survive a cut are among the records kept. *)
Lemma encode_from_keeps i cs cs1 cs2 k rest :
  (k < length (encodeRecord (i + len cs1) (hd [] cs2)))%nat -> cs1 ++ cs2 = cs ++ rest ->
  encode_from i cs `prefix_of` encode_from i cs1 ++ take k (encodeRecord (i + len cs1) (hd [] cs2)) ->
  cs `prefix_of` cs1.
Proof.
  intros Hk Heq Hp. destruct (decide (length cs <= length cs1)%nat) as [Hle|Hgt].
  { symmetry in Heq. apply app_split in Heq as (p & -> & _); [|done]. by apply prefix_app_r. }
  exfalso. apply app_split in Heq as (p & -> & ->); [|lia].
  destruct p as [|x p]; [rewrite app_nil_r in Hgt; lia|]. cbn [app hd] in *.
  apply prefix_length in Hp. rewrite length_app, length_take in Hp.
  rewrite encode_from_app in Hp. cbn [encode_from] in Hp. rewrite !length_app in Hp. lia.
Qed.

(** ** The directory after a power loss *)

(** The commands [cs] are safe: they are in closed segments, or their records in
    the active one are on disk. *)
Definition on_disk (v : view) (cs : list bytes) : Prop :=
  exists here, here `prefix_of` v_active v /\ encode_from (v_start v) here `prefix_of` v_disk v
    /\ cs `prefix_of` concat (v_closed v) ++ here.

Lemma on_disk_flushed v : v_disk v = v_records v -> on_disk v (v_cmds v).
Proof. intros Hd. exists (v_active v). rewrite v_cmds_split, Hd. done. Qed.

(** What is left of [v]: the same closed segments, and commands that end where
    the flushed ones end or later, the last being the interrupted one at most. *)
Record survives (v v' : view) : Prop := {
  survives_base : v_base v' = v_base v;
  survives_closed : v_closed v' = v_closed v;
  survives_prefix : exists c, len c <= maxCommandSize /\ v_cmds v' `prefix_of` v_cmds v ++ [c];
  survives_flushed cs : on_disk v cs -> cs `prefix_of` v_cmds v';
  survives_synced : synced v';
  survives_torn : v_junk v' = [] \/ torn v';
}.

(** Both what a process reads and what is on disk start the same contents. *)
Lemma crash_content_prefix v x :
  tail_ok v -> crash_content (File (v_data v) (v_disk v)) x ->
  exists c, len c <= maxCommandSize /\ x `prefix_of` encode_from (v_start v) (v_active v ++ [c])
    /\ (forall here, here `prefix_of` v_active v -> encode_from (v_start v) here `prefix_of` v_disk v ->
        encode_from (v_start v) here `prefix_of` x).
Proof.
  intros (n & c & Hc & Hj & Hd) Hx. exists c. rewrite encode_from_snoc, <- v_next_start.
  fold (v_records v) in *. unfold v_data in Hx. rewrite Hj in Hx.
  assert (v_records v ++ take n (encodeRecord (v_next v) c)
    `prefix_of` v_records v ++ encodeRecord (v_next v) c) as Hp by apply prefix_app, prefix_take.
  destruct Hx as [[H1 H2]|[[H1 H2]|[H1 H2]]]; simpl in *.
  - split_and!; [done|by etrans|]. intros here _ ?. by etrans.
  - split_and!; [done|by etrans|]. intros here [rest Hh] _. etrans; [|done]. apply prefix_app_r.
    unfold v_records. rewrite Hh, encode_from_app. by apply prefix_app_r.
  - by destruct (prefix_weak_total _ _ _ Hd Hp).
Qed.

(** The view of the active segment cut to [x]. *)
Lemma crash_view v x :
  view_ok v -> tail_ok v -> v_next v + 1 < 2 ^ 64 -> v_orphan v = None ->
  crash_content (File (v_data v) (v_disk v)) x ->
  exists v', view_ok v' /\ survives v v' /\ v_orphan v' = None /\ v_data v' = x /\ v_disk v' = x.
Proof.
  intros Hok Htl Hb Ho Hx. destruct (crash_content_prefix _ _ Htl Hx) as (c & Hc & Hp & Hfl).
  destruct (encode_from_cut _ _ _ Hp) as (cs1 & cs2 & k & Hcs & -> & Hk).
  set (rec := encodeRecord (v_start v + len cs1) (hd [] cs2)) in *.
  exists (View (v_base v) (v_closed v) cs1 (take k rec) (encode_from (v_start v) cs1 ++ take k rec) None).
  set (v' := View _ _ _ _ _ _).
  assert (v_start v' = v_start v) as Hs by done.
  assert (v_cmds v' `prefix_of` v_cmds v ++ [c]) as Hpre.
  { rewrite !v_cmds_split. simpl. rewrite <- app_assoc, Hcs. apply prefix_app. by apply prefix_app_r. }
  assert (wf_cmds (v_cmds v ++ [c])) as Hwf.
  { apply Forall_app. split; [apply (ok_wf _ Hok)|by repeat constructor]. }
  assert (wf_cmds cs2) as Hwf2.
  { rewrite v_cmds_split, <- app_assoc, Hcs in Hwf. by apply Forall_app in Hwf as [_ [_ ?]%Forall_app]. }
  assert (v_data v' = encode_from (v_start v) cs1 ++ take k rec) as Hdata by done.
  split_and!; [|split; try done|done|done|done].
  - split; simpl; try done; try apply Hok.
    + unfold v_next in *. apply prefix_length in Hpre. rewrite length_app in Hpre. simpl in *.
      change (v_base v') with (v_base v). unfold len in *. lia.
    + destruct Hpre as [y Hy]. rewrite Hy in Hwf. by apply Forall_app in Hwf as [? _].
    + exists k, (hd [] cs2). split; [|by rewrite (v_next_start v'), Hs].
      destruct Hwf2; [vm_compute; discriminate|done].
  - by exists c.
  - intros cs (here & [rest Hh] & Hd & Hcs'). etrans; [exact Hcs'|]. rewrite v_cmds_split. simpl.
    apply prefix_app. eapply (encode_from_keeps (v_start v)); [exact Hk| |].
    + rewrite <- Hcs, Hh. symmetry. apply app_assoc.
    + apply Hfl; [by exists rest|done].
  - destruct k as [|k]; [by left|right]. exists (S k), (hd [] cs2).
    rewrite (v_next_start v'), Hs. split_and!; [|lia|done|done].
    destruct Hwf2; [vm_compute; discriminate|done].
Qed.

(** Rebuilds [dir_repr] after a power loss, once the active segment is known. *)
Lemma crash_dir_repr dir w w' v v' :
  dir_repr True dir w v -> crash w w' -> dir ∉ w_fresh w -> view_ok v' ->
  v_base v' = v_base v -> v_closed v' = v_closed v -> synced v' -> tail_ok v' ->
  has_file (seg_file dir (v_start v)) (v_data v') (v_data v') true w' ->
  (forall b, v_orphan v' = Some b -> b = true /\ has_file (seg_file dir (v_next v')) [] [] true w'
     /\ v_junk v' = []) ->
  (forall i, i ∈ v_firsts v -> is_Some (entry_of (seg_file dir i) w') -> i ∈ v_firsts v') ->
  dir_repr True dir w' v'.
Proof.
  intros [Hok Hex Hgh Hcl _ _ Hon _ _] Hc Hsf Hok' Hb Hcd [Hsy Hsyo] Htl Hact Hor Hfirsts.
  destruct (crash_dirs _ _ _ Hc Hsf Hex) as [Hex' Hg'].
  split; [done|done|done| | | | |done|].
  - rewrite Hb, Hcd. eapply Forall_impl; [exact Hcl|]. intros ip (disk & b & Hf & Hs).
    destruct (Hs I) as [-> ->]. exists (encode_from ip.1 ip.2), true. split; [|done]. by eapply crash_flushed.
  - exists true. unfold v_start. rewrite Hb, Hcd, Hsy. by split.
  - intros b Hbo. destruct (Hor b Hbo) as (-> & ? & _). done.
  - intros name Hn. pose proof Hn as Hn'. apply (crash_only _ w) in Hn'; [|done|by apply Hgh].
    destruct (Hon _ Hn') as (i & Hi & ->). exists i. split; [by apply Hfirsts|done].
  - intros _ [b Hbo]. destruct (Hor b Hbo) as (_ & _ & Hj). rewrite Hsy. unfold v_data. by rewrite Hj, app_nil_r.
Qed.

Lemma v_firsts_closed v v' :
  v_base v' = v_base v -> v_closed v' = v_closed v -> v_orphan v = None ->
  forall i, i ∈ v_firsts v -> i ∈ v_firsts v'.
Proof.
  intros Hb Hc Ho i. unfold v_firsts, v_parts. rewrite Ho, !starts_snoc, !fmap_app, app_nil_r, Hb, Hc.
  intros Hi. apply elem_of_app. by left.
Qed.

Lemma synced_tail v : view_ok v -> v_disk v = v_data v -> tail_ok v.
Proof.
  intros Hok Hd. destruct (ok_junk _ Hok) as (n & c & Hc & Hj). exists n, c. split_and!; [done|done|].
  rewrite Hd. unfold v_data. rewrite Hj. apply prefix_app, prefix_take.
Qed.

(** A failed rotation: its empty segment may be gone. *)
Lemma crash_with_orphan dir w w' v b :
  dir_repr True dir w v -> crash w w' -> dir ∉ w_fresh w -> v_orphan v = Some b ->
  exists v', dir_repr True dir w' v' /\ survives v v'.
Proof.
  intros Hd Hc Hsf Ho. pose proof (dir_ok _ _ _ _ Hd) as Hok.
  destruct (ok_orphan _ Hok) as [Hj Hne]; [by rewrite Ho|].
  assert (v_disk v = v_records v) as Hdisk by (apply (dir_rotating _ _ _ _ Hd); [done|by rewrite Ho]).
  assert (v_data v = v_records v) as Hdata by (unfold v_data; by rewrite Hj, app_nil_r).
  destruct (dir_active _ _ _ _ Hd) as (ba & Hact & Hba). rewrite Hba, Hdata, Hdisk in Hact by done.
  pose proof (crash_flushed _ _ _ _ Hact Hc Hsf) as Hact'.
  pose proof (crash_lookup _ _ (seg_file dir (v_next v)) Hc Hsf) as He.
  rewrite (dir_orphan _ _ _ _ Hd _ Ho) in He.
  assert (forall o, o <> Some false -> view_ok (with_active v (v_active v) [] (v_records v) o)
    /\ survives v (with_active v (v_active v) [] (v_records v) o)) as Hv.
  { intros o Hof. destruct Hok. split; [split; try done; simpl|split; try done].
    - exists 0%nat, []. split; [vm_compute; discriminate|by rewrite take_0].
    - exists []. split; [vm_compute; discriminate|]. by apply prefix_app_r.
    - intros cs (here & Hh & _ & Hcs). etrans; [exact Hcs|]. rewrite v_cmds_split. by apply prefix_app.
    - unfold synced, v_data. simpl. by rewrite app_nil_r.
    - by left. }
  assert (forall o, v_data (with_active v (v_active v) [] (v_records v) o) = v_records v) as Hdo
    by (intros; apply app_nil_r).
  destruct (entry_of (seg_file dir (v_next v)) w') as [[[[d k]|] b']|] eqn:He'; simpl in He.
  - destruct He as (-> & Hcc & ->). simpl in *. apply crash_content_flushed in Hcc as ->.
    destruct (Hv (Some true)) as [Hok' Hs']; [done|].
    exists (with_active v (v_active v) [] (v_records v) (Some true)). split; [|done].
    eapply (crash_dir_repr dir w w' v); try done.
    + by apply tail_ok_prefix.
    + by rewrite Hdo.
    + intros o [= <-]. done.
    + intros i Hi _. unfold v_firsts in *. by rewrite Ho in Hi.
  - by destruct He as (_ & []).
  - destruct (Hv None) as [Hok' Hs']; [done|].
    exists (with_active v (v_active v) [] (v_records v) None). split; [|done].
    eapply (crash_dir_repr dir w w' v); try done.
    + by apply tail_ok_prefix.
    + by rewrite Hdo.
    + intros i Hi Hex. unfold v_firsts in *. rewrite Ho in Hi. rewrite app_nil_r.
      apply elem_of_app in Hi as [Hi|Hi]; [done|]. apply list_elem_of_singleton in Hi as ->.
      rewrite He' in Hex. by destruct Hex.
Qed.

Lemma crash_repr dir w w' v :
  dir_repr True dir w v -> v_next v + 1 < 2 ^ 64 -> crash w w' -> dir ∉ w_fresh w ->
  exists v', dir_repr True dir w' v' /\ survives v v'.
Proof.
  intros Hd Hb Hc Hfr. destruct (v_orphan v) as [b|] eqn:Ho; [by eapply crash_with_orphan|].
  pose proof (dir_ok _ _ _ _ Hd) as Hok.
  destruct (dir_active _ _ _ _ Hd) as (ba & Hact & Hba). rewrite Hba in Hact by done.
  destruct (crash_has_file _ _ _ _ _ Hact Hc Hfr) as (x & Hx & Hcc).
  destruct (crash_view v x) as (v' & Hok' & Hs & Ho' & Hda & Hdi); [done|by apply (dir_tail _ _ _ _ Hd)|done|done|done|].
  exists v'. split; [|done]. destruct Hs as [Hsb Hsc Hsp Hsf Hss _].
  eapply (crash_dir_repr dir w w' v); try done.
  - apply synced_tail; [done|]. by rewrite Hdi.
  - by rewrite Hda.
  - intros b Hb'. by rewrite Ho' in Hb'.
  - intros i Hi _. by eapply v_firsts_closed.
Qed.

(** ** Reopening after a power loss *)

Lemma recovered_cmds v v' :
  view_ok v -> recovered v v' -> v_junk v = [] \/ torn v ->
  v_base v' = v_base v /\ v_cmds v' = v_cmds v.
Proof.
  intros Hok [Hj Ho|b Ho|c Hc Hj Ho|Ht He Ho] Hcut; (split; [done|]).
  - done.
  - apply (shifted_facts v).
  - exfalso. destruct Hcut as [Hnil|(n & c' & Hc' & Hn & Hj')].
    { rewrite Hnil in Hj. by destruct (encodeRecord_nonempty (v_next v) c). }
    assert (c = c') as ->.
    { apply (encode_prefix_inj (v_next v)); [split; [by apply v_next_u64|done]..|].
      rewrite <- Hj, Hj'. apply prefix_take. }
    rewrite Hj in Hj'. apply (f_equal length) in Hj'. rewrite length_take in Hj'. lia.
  - by rewrite !v_cmds_split.
Qed.

(** Opening what a power loss left of [v]: the flushed commands are back. *)
Definition reopened (c : LogConfig) (v : view) (w w' : world) (r : result error Log) : Prop :=
  (exists l v', r = Ok l /\ cfg l = c /\ log_repr True l w' v' /\ v_base v' = v_base v
     /\ (exists c, v_cmds v' `prefix_of` v_cmds v ++ [c])
     /\ (forall cs, on_disk v cs -> cs `prefix_of` v_cmds v')
     /\ failed l = None /\ closed l = false)
  \/ (exists e, r = Err e /\ (~ faultless w \/ exists v1, dir_repr True (lc_Dir c) w v1 /\ embeds v1)).

Lemma reopen_crash c w w1 v r w2 :
  dir_repr True (lc_Dir c) w v -> v_next v + 2 < 2 ^ 64 -> LogConfig_Validate c = None ->
  crash w w1 -> lc_Dir c ∉ w_fresh w -> OpenLog [] c w1 = (r, w2) -> reopened c v w1 w2 r.
Proof.
  intros Hd Hb Hval Hc Hfr Hop. destruct (crash_repr _ _ _ _ Hd ltac:(lia) Hc Hfr) as (v1 & Hd1 & Hs).
  destruct Hs as [Hsb Hsc (c1 & Hc1 & Hsp) Hsf Hss Hst].
  assert (v_next v1 + 1 < 2 ^ 64) as Hb1.
  { unfold v_next in *. rewrite Hsb. apply prefix_length in Hsp. rewrite length_app in Hsp.
    unfold len in *. simpl in Hsp. lia. }
  destruct (OpenLog_run _ [] _ _ _ _ _ Hd1 Hb1 eq_refl Hval Hop)
    as [(l & v2 & -> & Hcfg & Hrec & HR & Hf & Hcl & _)|(e & -> & _ & Hcause)]; [left|right].
  - destruct (recovered_cmds _ _ (dir_ok _ _ _ _ Hd1) Hrec Hst) as [Hbase Hcmds].
    exists l, v2. rewrite Hcmds, Hbase. split_and!; try done; [|by exists c1].
    by eapply log_repr_weaken; [|exact HR].
  - exists e. split; [done|]. destruct Hcause as [|He]; [by left|right]. by exists v1.
Qed.

(** ** Worlds a power loss does not change *)

(** Every file and every directory entry is flushed. *)
Definition flushed_world (w : world) : bool :=
  bool_decide (w_fresh w = ∅) &&
  forallb (fun x : string * directory =>
    let d := x.2 in
    match map_to_list (d_ghosts d) with [] => true | _ => false end
    && forallb (fun e : string * dirent =>
         d_durable e.2 && match d_node e.2 with
                          | Regular f => bool_decide (f_disk f = f_data f)
                          | Irregular => true
                          end) (map_to_list (d_entries d)))
    (map_to_list (w_dirs w)).

Lemma crash_flushed_world w : flushed_world w = true -> crash w w.
Proof.
  unfold flushed_world. intros [Hfr%bool_decide_eq_true H]%andb_true_iff. split; [done|].
  intros dir. destruct (w_dirs w !! dir) as [d|] eqn:Hd; [|done]. rewrite forallb_forall in H.
  specialize (H (dir, d)). rewrite <- list_elem_of_In, elem_of_map_to_list in H.
  apply H, andb_true_iff in Hd as [Hg He]. simpl in *. clear H.
  split.
  - apply map_to_list_empty_iff. by destruct (map_to_list (d_ghosts d)).
  - intros name. destruct (d_entries d !! name) as [e|] eqn:Hn; [|done].
    rewrite forallb_forall in He. specialize (He (name, e)).
    rewrite <- list_elem_of_In, elem_of_map_to_list in He.
    apply He, andb_true_iff in Hn as [Hdu Hf]. simpl in *. split; [done|].
    destruct (d_node e) as [f|]; [|done]. apply bool_decide_eq_true in Hf. simpl.
    split; [|done]. left. by rewrite Hf.
Qed.

(** ** The worst power loss

    Everything that was not flushed is gone, fresh directories included. *)
Definition lose_node (n : node) : node :=
  match n with
  | Regular f => Regular (File (f_disk f) (f_disk f))
  | Irregular => Irregular
  end.

Definition lose_dir (d : directory) : directory :=
  Dir (omap (fun e => if d_durable e then Some (Dirent (lose_node (d_node e)) true) else None) (d_entries d)) ∅.

Definition lose_unflushed (w : world) : world :=
  World (lose_dir <$> filter (fun x => x.1 ∉ w_fresh w) (w_dirs w)) [] [] ∅.

Lemma crash_content_disk f : crash_content f (f_disk f).
Proof.
  unfold crash_content. destruct (decide (f_disk f `prefix_of` f_data f)); [by left|].
  destruct (decide (f_data f `prefix_of` f_disk f)); [right; by left|]. right; by right.
Qed.

Lemma crash_lose_unflushed w : crash w (lose_unflushed w).
Proof.
  split; [done|]. intros dir. unfold lose_unflushed. simpl. rewrite lookup_fmap.
  destruct (w_dirs w !! dir) as [d|] eqn:Hd; [|by rewrite map_lookup_filter, Hd].
  destruct (decide (dir ∈ w_fresh w)) as [Hf|Hf].
  { rewrite map_lookup_filter_None_2; [done|]. right. intros d' _. cbn. by intros Hn. }
  rewrite (map_lookup_filter_Some_2 _ _ _ _ Hd Hf). cbn. split; [done|]. intros name. simpl. rewrite lookup_omap.
  destruct (d_entries d !! name) as [[n []]|]; simpl; [|done|done]. split; [done|].
  destruct n as [f|]; [|done]. split; [apply crash_content_disk|done].
Qed.
