(* ===== verification/LogTheorems.v ===== *)
(** * What the command log promises

    The properties of internal/storage/log.go and log_recovery.go, stated on
    the definitions of Log.v and Recovery.v. *)

From stdpp Require Import prelude gmap strings list sorting.
From Stdlib Require Import ZArith Lia.
From S2P Require Import Prelude GoBytes GoStrings Kverr Config Record Fs FsFacts Segment Log Recovery LogRepr ReplayFacts LogView LogFacts LogOps LogSpec RecoveryFacts Durability.

Local Open Scope Z_scope.

(** ** A log to try them on *)

(** An empty directory [log] that a power loss does not take away. *)
Definition empty_world : world := World {["log" := Dir ∅ ∅]} [] [] ∅.

(** The new log of [demo_cfg] (64-byte segments, always flushed). *)
Definition demo_state : st :=
  match OpenLog [] demo_cfg empty_world with
  | (Ok l, w) => St l w
  | (Err _, w) => St (newLog demo_cfg) w
  end.

Definition demo_log : Log := st_log demo_state.
Definition demo_world : world := st_w demo_state.

Lemma demo_no_entries dir : no_entries dir empty_world.
Proof.
  split; [intros name|]; unfold entry_of, ghosts_of, dir_of; cbn [p_dir w_dirs empty_world];
    destruct (decide (dir = "log")) as [->|Hne]; [done|by rewrite lookup_singleton_ne|done|];
    by rewrite lookup_singleton_ne.
Qed.

Lemma demo_repr : log_repr True demo_log demo_world fresh_view /\ faultless demo_world.
Proof.
  destruct (OpenLog [] demo_cfg empty_world) as [r w] eqn:Hop.
  unfold demo_log, demo_world, demo_state. rewrite Hop.
  destruct (OpenLog_fresh [] demo_cfg empty_world r w) as [(l & -> & _ & HR & _ & _ & Hfl)|(e & -> & Hnf)];
    [apply demo_no_entries|done|done|done| |].
  - split; [done|]. apply Hfl, faultless_nil.
  - destruct Hnf. apply faultless_nil.
Qed.

Definition demo_cmd : bytes := String.list_byte_of_string "put".

(** The log after one append. *)
Definition demo_state1 : st := (Append [] demo_cmd demo_state).2.

Lemma demo_run1 : run (St demo_log demo_world) [(1, demo_cmd)] (St (st_log demo_state1) (st_w demo_state1)).
Proof.
  eapply (run_step _ [(1, demo_cmd)] _ [] _); [|apply run_refl].
  eapply (step_append []). vm_compute. reflexivity.
Qed.

Lemma demo_repr1 :
  exists v, log_repr True (st_log demo_state1) (st_w demo_state1) v
    /\ v_next v = 2 /\ records (v_base v) (v_cmds v) = [(1, demo_cmd)].
Proof.
  destruct (run_repr True demo_log demo_world fresh_view [(1, demo_cmd)] _ (proj1 demo_repr) ltac:(vm_compute; reflexivity) demo_run1)
    as (v & HR & Hc & _ & [Hb _] & _).
  exists v. split; [exact HR|]. unfold v_next. rewrite Hc, Hb. split; reflexivity.
Qed.

(** ** Appending *)

(** C2: [Append] on every branch. A cancelled context, an oversized command, a
    closed or failed log refuse the command and change nothing. Otherwise the
    command becomes the record at the next index, after the records there were
    and in a new segment when the active one is full; or some system call
    failed, the log carries that failure, returns it, and holds exactly the
    records it had. Without failing calls it always succeeds. *)
Theorem Append_refines settled l w v ctx c r s' :
  log_repr settled l w v -> v_next v + 1 < 2 ^ 64 -> Append ctx c (St l w) = (r, s') ->
  match append_refusal l ctx c with
  | Some e => r = Err e /\ s' = St l w
  | None => append_outcome settled l w v c r s'
  end.
Proof.
  intros HR Hb H. destruct (append_refusal l ctx c) as [e|] eqn:Href.
  - rewrite (Append_refused _ _ _ _ _ Href) in H. by injection H as <- <-.
  - by eapply Append_run.
Qed.

Lemma Append_refines_witness :
  append_outcome True demo_log demo_world fresh_view demo_cmd
    (Append [] demo_cmd demo_state).1 (Append [] demo_cmd demo_state).2.
Proof.
  apply (Append_refines True demo_log demo_world fresh_view [] demo_cmd);
    [apply demo_repr|vm_compute; reflexivity|]. apply surjective_pairing.
Defined.

(** C5: a log in use, under any interleaving of appends, background flushes and
    Close, and any system-call failures: the acknowledged appends are numbered
    consecutively from the index after the last record, and the log holds
    exactly the records it had followed by them, in order. *)
Theorem run_refines settled l w v acks s' :
  log_repr settled l w v -> v_next v + len acks + 1 < 2 ^ 64 -> run (St l w) acks s' ->
  acks = records (v_next v) acks.*2 /\
  exists v', log_repr settled (st_log s') (st_w s') v' /\ v_base v' = v_base v
    /\ v_cmds v' = v_cmds v ++ acks.*2.
Proof.
  intros HR Hb Hrun. destruct (run_repr _ _ _ _ _ _ HR Hb Hrun) as (v' & HR' & Hc & Ha & [Hg _] & _).
  split; [done|]. by exists v'.
Qed.

Lemma run_refines_witness :
  let s' := (Append [] demo_cmd demo_state).2 in
  exists v', log_repr True (st_log s') (st_w s') v' /\ v_base v' = 1 /\ v_cmds v' = [demo_cmd].
Proof.
  apply (run_refines True demo_log demo_world fresh_view [(1, demo_cmd)]);
    [apply demo_repr|vm_compute; reflexivity|].
  eapply (run_step _ [(1, demo_cmd)] _ [] _); [|apply run_refl].
  eapply (step_append []). vm_compute. reflexivity.
Defined.

(** C8: the first failure is final: once a write, a flush or a rotation failed,
    or the log was closed, no later step acknowledges an append, and the stored
    failure is never replaced. *)
Theorem failure_is_sticky l w acks s' :
  refusing l -> run (St l w) acks s' ->
  acks = [] /\ (forall e, failed l = Some e -> failed (st_log s') = Some e).
Proof.
  intros Hre Hrun. remember (St l w) as s eqn:Hs. revert l w Hs Hre.
  induction Hrun as [s|s1 acks1 s2 acks2 s3 Hst Hrun IH]; intros l w -> Hre; [done|].
  destruct (step_refusing _ _ _ _ Hre Hst) as (-> & Hre2 & Hf2). destruct s2 as [l2 w2].
  destruct (IH l2 w2) as [-> Hf3]; [done|done|]. split; [done|]. intros e He. by apply Hf3, Hf2.
Qed.

(** A log whose first write failed. *)
Definition failed_state : st :=
  (Append [] demo_cmd (St demo_log (World (w_dirs demo_world) [FailWith "disk full" 5] [] ∅))).2.

Lemma failure_is_sticky_witness :
  exists e, failed (st_log (Append [] demo_cmd failed_state).2) = Some e.
Proof.
  eexists. eapply (failure_is_sticky (st_log failed_state) (st_w failed_state) []).
  - left. vm_compute. eauto.
  - eapply (run_step _ [] _ [] _); [|apply run_refl].
    eapply (step_append_failed [] demo_cmd). vm_compute. reflexivity.
  - vm_compute. reflexivity.
Defined.

(** ** Replaying *)

(** C7: [Replay] delivers, to a callback with state, exactly the records from
    index [from] to the last one of its snapshot, in order and each once, even
    when the log is used between the snapshot and the reads; it fails only at
    the callback's first error, which it returns wrapped. Total: with no
    failing system call and a live context, the result is the callback's. *)
Theorem Replay_snapshot_correct {A} (fn : A -> Z -> bytes -> A * option error)
    settled l w v acks s' from ctx a :
  log_repr settled l w v -> v_next v + len acks + 1 < 2 ^ 64 -> run (St l w) acks s' ->
  faultless (st_w s') -> live ctx ->
  let '(a', stop) := deliver fn a (selected from (records (v_base v) (v_cmds v))) in
  exists rs, rs_acc rs = a' /\
    Replay_snapshot fn (segments l) (lastIndex l) from ctx a (st_w s')
    = (match stop with
       | None => Ok tt
       | Some e => Err (EWrapf "storage.Log.Replay: " e "")
       end, rs).
Proof.
  intros HR Hb Hrun Hfl Hlive. destruct (run_repr _ _ _ _ _ _ HR Hb Hrun) as (v' & HR' & _ & _ & Hg & Hcfg).
  pose proof (dir_ok _ _ _ _ (log_dir _ _ _ _ HR)) as Hok.
  pose proof (covers_snapshot _ _ _ _ _ _ (log_dir _ _ _ _ HR') (covers_grows _ _ _ _ (covers_refl v) Hg)) as Hsnap.
  rewrite Hcfg in Hsnap. unfold Replay_snapshot. rewrite (log_segments _ _ _ _ HR).
  destruct (replay_segments fn _ from (lastIndex l) _) as [r rs] eqn:Hr.
  apply (replay_segments_spec fn) in Hr as (_ & _ & Hrep);
    [|pose proof (ok_base _ Hok); lia|apply (ok_bound _ Hok)|apply (ok_wf _ Hok)|apply (log_last _ _ _ _ HR)|done].
  fold (v_cmds v) in Hrep. inversion Hrep as [? Hd|n e ? Hnf Hd|n e ? Hd]; subst; simpl in *.
  - rewrite Hd. by exists rs.
  - by destruct Hnf.
  - rewrite <- (take_drop n (selected from (records (v_base v) (v_cmds v)))), deliver_app, Hd. by exists rs.
Qed.

(** The log after two appends: a snapshot of the first has one record. *)
Definition demo_state2 : st := (Append [] demo_cmd demo_state1).2.

Lemma demo_run2 : run (St (st_log demo_state1) (st_w demo_state1)) [(2, demo_cmd)] demo_state2.
Proof.
  eapply (run_step _ [(2, demo_cmd)] _ [] _); [|apply run_refl].
  eapply (step_append []). vm_compute. reflexivity.
Qed.

Lemma Replay_snapshot_correct_witness :
  exists rs, rs_acc rs = [(1, demo_cmd)] /\
    Replay_snapshot collect (segments (st_log demo_state1)) (lastIndex (st_log demo_state1)) 1 [None] []
      (st_w demo_state2) = (Ok tt, rs).
Proof.
  destruct demo_repr1 as (v & HR & Hn & Hrec).
  pose proof (Replay_snapshot_correct collect True (st_log demo_state1) (st_w demo_state1) v [(2, demo_cmd)]
    demo_state2 1 [None] [] HR ltac:(rewrite Hn; reflexivity) demo_run2 ltac:(vm_compute; constructor)
    ltac:(by repeat constructor)) as H.
  rewrite Hrec in H. exact H.
Defined.

(** C6: [Replay] while the log is in use, every file read at its own moment,
    with any appends, flushes, rotations and a Close in between and any
    system-call failures: the callback has seen a prefix of the records of the
    snapshot, all of them when [Replay] returns nil, and nothing else. *)
Theorem Replay_concurrent {A} (fn : A -> Z -> bytes -> A * option error)
    settled l w v from n ctx a r a' :
  log_repr settled l w v -> v_next v + n + 1 < 2 ^ 64 ->
  replay_il fn from (lastIndex l) (segments l) n (St l w) ctx a r a' ->
  delivered fn a (selected from (records (v_base v) (v_cmds v))) r a'.
Proof.
  intros HR Hb Hil. pose proof (dir_ok _ _ _ _ (log_dir _ _ _ _ HR)) as Hok.
  eapply (replay_il_spec fn from (lastIndex l) settled); [exact Hil|apply (log_segments _ _ _ _ HR)|done|exact HR
    |done|apply covers_refl|pose proof (ok_base _ Hok); lia|apply (ok_bound _ Hok)|apply (ok_wf _ Hok)|].
  apply (log_last _ _ _ _ HR).
Qed.

(** The second append comes between the snapshot of the first and its read. *)
Lemma Replay_concurrent_witness : delivered collect [] [(1, demo_cmd)] (Ok tt) [(1, demo_cmd)].
Proof.
  destruct demo_repr1 as (v & HR & Hn & Hrec).
  pose proof (Replay_concurrent collect True (st_log demo_state1) (st_w demo_state1) v 1 1 [] []
    (Ok tt) [(1, demo_cmd)] HR ltac:(rewrite Hn; reflexivity)) as H.
  rewrite Hrec in H. apply H.
  eapply (il_run _ _ _ _ 0 _ [(2, demo_cmd)]); [exact demo_run2|].
  assert (demo_state2 = St (st_log demo_state2) (st_w demo_state2)) as -> by (by destruct demo_state2).
  eapply il_segment; [vm_compute; reflexivity|vm_compute; reflexivity|]. apply il_done.
Defined.

(** ** Opening *)

(** A directory without segments opens as an empty log whose next index is
    1, with its first segment file durable; it fails only when a system call
    does. *)
Theorem OpenLog_empty ctx c w r w' :
  no_entries (lc_Dir c) w -> ctx_Err ctx = None -> LogConfig_Validate c = None ->
  OpenLog ctx c w = (r, w') ->
  (exists l, r = Ok l /\ cfg l = c /\ log_repr True l w' fresh_view /\ failed l = None
     /\ closed l = false /\ (faultless w -> faultless w'))
  \/ (exists e, r = Err e /\ ~ faultless w).
Proof. apply OpenLog_fresh. Qed.

Lemma OpenLog_empty_witness : log_repr True demo_log demo_world fresh_view.
Proof.
  destruct (OpenLog_empty [] demo_cfg empty_world (Ok demo_log) demo_world
    (demo_no_entries _) eq_refl eq_refl ltac:(vm_compute; reflexivity))
    as [(l & Hl & _ & HR & _)|(e & He & _)]; [|discriminate].
  injection Hl as Hl. rewrite Hl. exact HR.
Defined.

(** C3: opening a directory a log left behind, at any moment and under any
    system-call failures. The log that opens holds the records there were;
    one more when the write that was not acknowledged is complete; a torn
    write is cut off, and an empty segment of an interrupted rotation becomes
    the active one. It fails only when a system call fails or the torn write
    contains an intact later record, and a failed attempt leaves a directory
    that is no worse. *)
Theorem OpenLog_recovers settled ctx c w v r w' :
  dir_repr settled (lc_Dir c) w v -> v_next v + 1 < 2 ^ 64 ->
  ctx_Err ctx = None -> LogConfig_Validate c = None ->
  OpenLog ctx c w = (r, w') -> open_outcome settled c w v r w'.
Proof. apply OpenLog_run. Qed.

Lemma OpenLog_recovers_witness :
  open_outcome True demo_cfg demo_world fresh_view
    (OpenLog [] demo_cfg demo_world).1 (OpenLog [] demo_cfg demo_world).2.
Proof.
  apply (OpenLog_recovers True []);
    [apply (log_dir _ _ _ _ (proj1 demo_repr))|vm_compute; reflexivity|reflexivity|reflexivity|].
  apply surjective_pairing.
Defined.

(** C1: power loss. A settled log ([log_repr True]: what it held when it was
    opened was on disk, as in a new directory, after a power loss, or after a
    [Close] that returned nil) is used in any way, by any interleaving and with
    any failures. The power goes at any point, when the entry of the log
    directory itself is safe, and the log is opened again: its commands are a
    prefix of what was appended, plus at most the one that was being written,
    it is settled, and under the always policy no acknowledged command is
    missing. Opening fails only when a system call does or when the torn write
    contains an intact later record. Without these conditions commands can be
    lost: see [unflushed_record_breaks_log], [acknowledged_lost_with_entry] and
    [acknowledged_lost_with_directory]. *)
Theorem acknowledged_survive_power_loss l w v acks l1 w1 w2 r w3 :
  log_repr True l w v -> v_next v + len acks + 2 < 2 ^ 64 -> LogConfig_Validate (cfg l) = None ->
  run (St l w) acks (St l1 w1) -> crash w1 w2 -> lc_Dir (cfg l) ∉ w_fresh w1 ->
  OpenLog [] (cfg l) w2 = (r, w3) ->
  match r with
  | Ok l3 => exists v3, log_repr True l3 w3 v3 /\ v_base v3 = v_base v
      /\ (exists c, v_cmds v3 `prefix_of` (v_cmds v ++ acks.*2) ++ [c])
      /\ (lc_Fsync (cfg l) = FsyncAlways -> v_cmds v ++ acks.*2 `prefix_of` v_cmds v3)
  | Err e => ~ faultless w2 \/ exists v2, dir_repr True (lc_Dir (cfg l)) w2 v2 /\ embeds v2
  end.
Proof.
  intros HR Hb Hval Hrun Hc Hfr Hop. assert (v_next v + len acks + 1 < 2 ^ 64) as Hb' by lia.
  destruct (run_repr _ _ _ _ _ _ HR Hb' Hrun) as (v1 & HR1 & Hcmds & _ & [Hbase _] & Hcfg).
  simpl in *. rewrite <- Hcfg in Hval, Hop, Hfr |- *.
  assert (v_next v1 + 2 < 2 ^ 64) as Hb1.
  { unfold v_next in *. rewrite Hbase, Hcmds, len_app. unfold len in *. rewrite length_fmap. lia. }
  destruct (reopen_crash _ _ _ _ _ _ (log_dir _ _ _ _ HR1) Hb1 Hval Hc Hfr Hop)
    as [(l3 & v3 & -> & _ & HR3 & Hb3 & Hp & Hf & _)|(e & -> & Hcause)]; [|done].
  exists v3. rewrite <- Hcmds. split_and!; [done|congruence|done|].
  intros Ha. apply Hf, on_disk_flushed, (log_always _ _ _ _ HR1); done.
Qed.

Lemma acknowledged_survive_power_loss_witness :
  exists l3 w3 v3, OpenLog [] demo_cfg (st_w demo_state1) = (Ok l3, w3)
    /\ log_repr True l3 w3 v3 /\ [demo_cmd] `prefix_of` v_cmds v3.
Proof.
  destruct (OpenLog [] demo_cfg (st_w demo_state1)) as [[l3|e] w3] eqn:Hop;
    [|vm_compute in Hop; discriminate Hop].
  destruct (acknowledged_survive_power_loss demo_log demo_world fresh_view [(1, demo_cmd)]
    (st_log demo_state1) (st_w demo_state1) (st_w demo_state1) (Ok l3) w3)
    as (v3 & HR & _ & _ & Hp).
  - apply demo_repr.
  - vm_compute. reflexivity.
  - reflexivity.
  - exact demo_run1.
  - apply crash_flushed_world. vm_compute. reflexivity.
  - vm_compute. set_solver.
  - exact Hop.
  - exists l3, w3, v3. split_and!; [done|exact HR|]. apply Hp. reflexivity.
Defined.

(** C9: [Close] that returns nil on a settled, healthy log leaves every record
    flushed, under every policy, and keeps them all; closing again does nothing.
    A log is settled ([log_repr True]) when what it held when it was opened was
    on disk; of records that recovery found only in memory this is not true, see
    [Close_trusts_recovery]. *)
Theorem Close_flushes l w v s' :
  log_repr True l w v -> failed l = None -> closed l = false -> Close (St l w) = (Ok tt, s') ->
  (exists v', log_repr True (st_log s') (st_w s') v' /\ v_base v' = v_base v /\ v_cmds v' = v_cmds v
     /\ v_disk v' = v_records v')
  /\ Close s' = (Ok tt, s').
Proof.
  intros HR Hf Hc H. unfold Close in H. rewrite (bind_ok _ _ _ true (St (set_closed true l) w)) in H.
  2:{ unfold Close_begin. rewrite (bind_ok _ _ _ l (St l w)) by done. by rewrite Hc. }
  destruct (Close_finish_run True (set_closed true l) w v _ _ (log_repr_closed _ _ _ _ HR) eq_refl H)
    as (Hcl & (_ & v' & HR' & Hb & Hp) & Hok).
  destruct (Hok eq_refl Hf) as [Hf' Hd']. split.
  - exists v'. split_and!; [done|done|by unfold v_cmds; rewrite Hp|]. by apply (log_clean _ _ _ _ HR').
  - destruct s' as [l1 w1]. unfold Close. rewrite (bind_ok _ _ _ false (St l1 w1)); [done|].
    unfold Close_begin. rewrite (bind_ok _ _ _ l1 (St l1 w1)) by done. simpl in Hcl. by rewrite Hcl.
Qed.

Lemma Close_flushes_witness : Close (Close demo_state).2 = (Ok tt, (Close demo_state).2).
Proof.
  apply (Close_flushes demo_log demo_world fresh_view);
    [apply demo_repr|vm_compute; reflexivity|vm_compute; reflexivity|vm_compute; reflexivity].
Defined.

(** ** Any segment file at all *)

Lemma has_file_wrote p f data disk b w w' :
  has_file p data disk b w -> wrote p f w w' -> has_file p (f_data f) (f_disk f) b w'.
Proof.
  intros Hf (Hu & _). unfold has_file. rewrite (updated_entry _ _ _ _ _ Hu), decide_True, Hf by done.
  by destruct f.
Qed.

Lemma truncateTail_file p n dmg data disk b w r w' :
  has_file p data disk b w -> truncateTail p (Z.of_nat n) dmg w = (r, w') ->
  (r = Ok tt /\ has_file p (take n data) (take n data) b w') \/ (exists e, r = Err e /\ ~ faultless w).
Proof.
  intros Hf H. unfold truncateTail in H. unfold mbind at 1 in H. unfold M_bind at 1 in H.
  rewrite wrapping_run in H. destruct (os_Truncate p (Z.of_nat n) w) as [r1 w1] eqn:Ht.
  pose proof (has_file_of _ _ _ _ _ Hf) as Hfo.
  destruct (os_Truncate_inv _ _ _ _ _ Ht) as [(f & Hf' & -> & Hw)|(e & -> & Hq & Hnf)].
  2:{ injection H as <- <-. right. eexists. split; [done|]. intros Hfl. by rewrite Hnf in Hfo. }
  rewrite Hfo in Hf'. injection Hf' as <-. apply (has_file_wrote _ _ _ _ _ _ _ Hf) in Hw as Hf1.
  simpl in Hf1. rewrite Nat2Z.id in Hf1.
  unfold mbind at 1 in H. unfold M_bind at 1 in H. rewrite wrapping_run in H.
  destruct (os_OpenFile_write p w1) as [r2 w2] eqn:Hop. pose proof (has_file_of _ _ _ _ _ Hf1) as Hfo1.
  destruct (os_OpenFile_write_inv _ _ _ _ Hop) as (Hq2 & [(_ & ->)|(e & -> & Hnf)]).
  2:{ injection H as <- <-. right. eexists. split; [done|]. intros Hfl.
      rewrite Hnf in Hfo1 by apply Hw, Hfl. done. }
  rewrite (proj1 Hq2) in Hf1, Hfo1. destruct (file_Sync (Handle p true) w2) as [r3 w3] eqn:Hs.
  rewrite (try_bind _ _ _ _ _ Hs) in H. destruct (file_Close (Handle p true) w3) as [r4 w4] eqn:Hc.
  rewrite (try_bind _ _ _ _ _ Hc) in H. destruct (file_Close_inv _ _ _ _ Hc) as (Hq4 & Hr4).
  destruct (file_Sync_inv _ _ _ _ Hs) as [(f & _ & Hf' & -> & Hw3)|(e & -> & Hq3 & Hnf)]; cbn [h_path] in *.
  - rewrite Hfo1 in Hf'. injection Hf' as <-. apply (has_file_wrote _ _ _ _ _ _ _ Hf1) in Hw3 as Hf3.
    destruct Hr4 as [->|(e & -> & Hnf)]; cbn [joined] in H; injection H as <- <-.
    + left. split; [done|]. simpl in Hf3. rewrite (proj1 Hq4) in Hf3. exact Hf3.
    + right. eexists. split; [done|]. intros Hfl. apply Hw, Hq2, Hw3, Hnf in Hfl. done.
  - right. destruct r4; cbn [joined] in H; injection H as <- <-; eexists; (split; [done|]); intros Hfl;
      rewrite Hnf in Hfo1; try done; by apply Hq2, Hw.
Qed.

(** C4: what recovery makes of any segment file. Its contents split into intact
    records in sequence and a rest. With no rest the segment is accepted as it
    is. Otherwise it is accepted only as the last segment, when the rest starts
    with bytes that are no record and no later record follows; it is then cut
    to the intact records and flushed. Any other damage is reported as
    corruption, naming the offset, and nothing else fails but system calls. *)
Theorem verifySegment_classifies seg isLast data disk b w r w' :
  has_file (seg_path seg) data disk b w -> is_u64 (first seg) ->
  verifySegment seg isLast w = (r, w') ->
  exists cs rest dmg,
    let good := encode_from (first seg) cs in
    let next := u64 (first seg + len cs) in
    data = good ++ rest /\ wf_cmds cs /\ damage_at next rest dmg /\
    match r with
    | Ok (seg', size) =>
        seg' = Segment (first seg) (u64 (next - 1)) (seg_path seg) /\ size = s64 (len good)
        /\ forall d, dmg = Some d ->
             isLast = true /\ errors_Is d errOutOfSequence = false /\ ~ later_record rest next
             /\ has_file (seg_path seg) good good b w'
    | Err e =>
        ~ faultless w
        \/ exists d, dmg = Some d /\ e = corruption (seg_path seg) (len good) d
             /\ (isLast = false \/ errors_Is d errOutOfSequence = true \/ later_record rest next)
    end.
Proof.
  intros Hf Hi H. unfold verifySegment in H.
  destruct (verify_data data (first seg)) as [[offset next] dmg] eqn:Hv.
  destruct (verify_data_sound _ _ _ _ _ Hi Hv) as (cs & rest & Hdata & Hwf & Hoff & Hnext & Hdmg).
  exists cs, rest, dmg. cbn zeta. rewrite Z.add_0_l in Hoff. rewrite <- Hnext.
  split_and!; [done|done|done|].
  apply (read_run _ _ _ _ _ Hf) in H as [(w1 & Hq & H)|(e & -> & Hq & Hnf)]; [|by left].
  rewrite Hv in H. cbn zeta in H. destruct dmg as [d|].
  2:{ injection H as <- <-. rewrite Hoff. split_and!; [done|done|]. by intros d. }
  assert (0 <= next) as Hn0 by (rewrite Hnext; apply u64_range).
  rewrite Hoff, Hdata, drop_app_length' in H by (unfold len; lia).
  rewrite (proj1 Hq) in Hf.
  destruct (negb isLast || errors_Is d errOutOfSequence || hasLaterRecord rest next) eqn:Hbad.
  - injection H as <- <-. right. exists d. split_and!; [done|done|].
    rewrite <- hasLaterRecord_iff by done.
    destruct isLast; [|by left]. right. by apply orb_true_iff in Hbad.
  - apply orb_false_iff in Hbad as [[Hl Ho]%orb_false_iff Hlater]. apply negb_false_iff in Hl as ->.
    unfold mbind, M_bind in H. unfold len at 1 in H.
    destruct (truncateTail (seg_path seg) _ d w1) as [r2 w2] eqn:Htr.
    destruct (truncateTail_file _ _ _ _ _ _ _ _ _ Hf Htr) as [(-> & Hf2)|(e & -> & Hnf)];
      injection H as <- <-.
    + split_and!; [done|done|]. intros d' [= <-]. split_and!; [done|done| |].
      * rewrite <- hasLaterRecord_iff by done. by rewrite Hlater.
      * by rewrite Hdata, take_app_length in Hf2.
    + left. intros Hfl. by apply Hnf, Hq.
Qed.

(** A segment of two records, the second torn. *)
Definition torn_data : bytes := take 30 (encode_from 1 [demo_cmd; demo_cmd]).
Definition torn_world : world :=
  World {["log" := Dir {[segmentName 1 := Dirent (Regular (File torn_data torn_data)) true]} ∅]} [] [] ∅.

Lemma verifySegment_classifies_witness :
  exists cs rest dmg, torn_data = encode_from 1 cs ++ rest
    /\ wf_cmds cs /\ damage_at (u64 (1 + len cs)) rest dmg.
Proof.
  destruct (verifySegment_classifies (fresh_segment "log" 1) true torn_data torn_data true torn_world
    (verifySegment (fresh_segment "log" 1) true torn_world).1
    (verifySegment (fresh_segment "log" 1) true torn_world).2) as (cs & rest & dmg & H1 & H2 & H3 & _).
  - vm_compute. reflexivity.
  - split; vm_compute; [discriminate|reflexivity].
  - apply surjective_pairing.
  - exists cs, rest, dmg. split_and!; [exact H1|exact H2|exact H3].
Defined.

(** ** Where recovery does not keep its promise *)

(** [s] with no pending failures. *)
Definition reliable (w : world) : world := World (w_dirs w) [] [] (w_fresh w).
Definition failing (script : list outcome) (s : st) : st :=
  St (st_log s) (World (w_dirs (st_w s)) script [] (w_fresh (st_w s))).

(** A command whose value is a log record of its own. *)
Definition record_as_value : bytes := encodeRecord 3 [] ++ replicate 8 Byte.x00.

(** A torn write can keep the node from starting. One command is
    acknowledged; the write of a second, whose value contains the bytes of a
    record with a later index, stops after 32 of its 40 bytes. That is a torn
    tail, but the search for later records finds the value, and [OpenLog]
    reports corruption instead of truncating. *)
Theorem torn_write_blocks_open :
  let s2 := (Append [] record_as_value (failing [FailWith "no space left" 32] demo_state1)).2 in
  lastIndex (st_log s2) = 1
  /\ (exists f, file_of (seg_file "log" 1) (st_w s2) = Some f
        /\ f_data f = encodeRecord 1 demo_cmd ++ take 32 (encodeRecord 2 record_as_value))
  /\ (exists e, (OpenLog [] demo_cfg (reliable (st_w s2))).1
        = Err (corruption (seg_file "log" 1) 19 e) /\ e = errTornRecord).
Proof.
  vm_compute. split_and!; [reflexivity|eexists; split; reflexivity|eexists; split; reflexivity].
Qed.

(** The first open of a new directory fails when it flushes the directory. *)
Definition failing_flush : world :=
  World (w_dirs empty_world) [Succeed; Succeed; Succeed; Succeed; FailWith "input/output error" 0] [] ∅.
Definition unflushed_entry : world := (OpenLog [] demo_cfg failing_flush).2.

(** Recovery does not flush the directory. The flush of the directory
    entry of a new segment fails; opening again succeeds without repeating it;
    an append under the always policy is acknowledged with index 1; a power
    loss then takes the file with it, and the log opens empty. *)
Theorem acknowledged_lost_with_entry :
  is_ok (OpenLog [] demo_cfg failing_flush).1 = false
  /\ exists l w s', OpenLog [] demo_cfg (reliable unflushed_entry) = (Ok l, w)
    /\ Append [] demo_cmd (St l w) = (Ok 1, s') /\ lc_Fsync (cfg l) = FsyncAlways
    /\ crash (st_w s') (lose_unflushed (st_w s'))
    /\ exists l2 w2, OpenLog [] demo_cfg (lose_unflushed (st_w s')) = (Ok l2, w2) /\ lastIndex l2 = 0.
Proof.
  split; [vm_compute; reflexivity|].
  do 3 eexists. split; [vm_compute; reflexivity|]. split; [vm_compute; reflexivity|].
  split; [reflexivity|]. split; [apply crash_lose_unflushed|].
  do 2 eexists. split; [vm_compute; reflexivity|reflexivity].
Qed.

(** A process that stopped between the write and the flush of its second
    record: the record is complete but only in memory. *)
Definition unflushed_record : world :=
  st_w (Append [] demo_cmd (failing [Succeed; FailWith "killed" 0] demo_state1)).2.

(** Recovery does not flush the records it accepts. A process stops after
    writing its second record and before flushing it; the log is opened again
    and counts it; the next append needs a new segment, which is started
    without flushing the old one, and is acknowledged with index 3. After a
    power loss the second record is gone, the segments no longer join, and the
    log refuses to open: the acknowledged records are out of reach. *)
Theorem unflushed_record_breaks_log :
  exists l w s', OpenLog [] demo_cfg (reliable unflushed_record) = (Ok l, w) /\ lastIndex l = 2
    /\ Append [] (replicate 20 Byte.x41) (St l w) = (Ok 3, s') /\ lc_Fsync (cfg l) = FsyncAlways
    /\ crash (st_w s') (lose_unflushed (st_w s'))
    /\ exists e, (OpenLog [] demo_cfg (lose_unflushed (st_w s'))).1 = Err (corruption (seg_file "log" 3) 0 e).
Proof.
  do 3 eexists. split; [vm_compute; reflexivity|]. split; [vm_compute; reflexivity|].
  split; [vm_compute; reflexivity|]. split; [reflexivity|]. split; [apply crash_lose_unflushed|].
  eexists. vm_compute. reflexivity.
Qed.

(** Nor does [Close] flush them: of the two records of the log that recovery
    accepted, only the first is on disk after a [Close] that returned nil. *)
Theorem Close_trusts_recovery :
  exists l w s', OpenLog [] demo_cfg (reliable unflushed_record) = (Ok l, w) /\ lastIndex l = 2
    /\ failed l = None /\ closed l = false /\ Close (St l w) = (Ok tt, s')
    /\ exists f, file_of (seg_file "log" 1) (st_w s') = Some f
      /\ f_data f = encode_from 1 [demo_cmd; demo_cmd] /\ f_disk f = encode_from 1 [demo_cmd].
Proof.
  do 3 eexists. split; [vm_compute; reflexivity|]. do 3 (split; [vm_compute; reflexivity|]).
  split; [vm_compute; reflexivity|]. eexists. split; [vm_compute; reflexivity|]. split; vm_compute; reflexivity.
Qed.

(** [OpenLog] makes its directory and flushes what is in it, but not the
    directory above. An append under the always policy is acknowledged; a power
    loss then takes the directory, and the log opens empty. *)
Definition no_log_directory : world := World {["data" := Dir ∅ ∅]} [] [] ∅.
Definition nested_cfg : LogConfig := mkLogConfig "data/log" 64 FsyncAlways 0.

Theorem acknowledged_lost_with_directory :
  exists l w s', OpenLog [] nested_cfg no_log_directory = (Ok l, w)
    /\ Append [] demo_cmd (St l w) = (Ok 1, s') /\ lc_Fsync (cfg l) = FsyncAlways
    /\ crash (st_w s') (lose_unflushed (st_w s'))
    /\ exists l2 w2, OpenLog [] nested_cfg (lose_unflushed (st_w s')) = (Ok l2, w2) /\ lastIndex l2 = 0.
Proof.
  do 3 eexists. split; [vm_compute; reflexivity|]. split; [vm_compute; reflexivity|].
  split; [reflexivity|]. split; [apply crash_lose_unflushed|].
  do 2 eexists. split; [vm_compute; reflexivity|reflexivity].
Qed.
