(* ===== verification/Engine.v ===== *)
(** * The storage engine interface (internal/storage/engine.go)

    Batches, the [Engine] and [Iterator] interfaces as a class of operations,
    and the contract an implementation promises, as laws over an abstract map
    from keys to values. *)

From stdpp Require Import prelude gmap list sorting strings.
From Stdlib Require Import ZArith Lia.
From S2P Require Import Prelude GoBytes GoStrings Kverr Record Fs Segment Log.

Local Open Scope Z_scope.

(** ** Batches *)

Record Op := mkOp { op_Key : bytes; op_Value : bytes; op_Delete : bool }.

Record Batch := mkBatch { ops : list Op }.

Definition emptyBatch : Batch := mkBatch [].
Definition Batch_Set (b : Batch) (key value : bytes) : Batch :=
  mkBatch (ops b ++ [mkOp key value false]).
Definition Batch_Delete (b : Batch) (key : bytes) : Batch :=
  mkBatch (ops b ++ [mkOp key [] true]).
Definition Batch_Len (b : Batch) : Z := len (ops b).
Definition Batch_Ops (b : Batch) : list Op := ops b.

(** ** The abstract engine: a map *)

Abbreviation contents := (gmap bytes bytes).

Definition apply_op (m : contents) (op : Op) : contents :=
  if op_Delete op then delete (op_Key op) m else <[op_Key op := op_Value op]> m.

(** The operations in order: later writes to a key win. *)
Definition apply_batch (m : contents) (b : Batch) : contents := foldl apply_op m (Batch_Ops b).

(** Keys in [[lower, upper)]; a nil bound leaves that side open. *)
Definition in_range (lower upper : option bytes) (key : bytes) : bool :=
  match lower with
  | Some l => match bytes_Compare key l with Lt => false | _ => true end
  | None => true
  end &&
  match upper with
  | Some u => match bytes_Compare key u with Lt => true | _ => false end
  | None => true
  end.

(** Ascending by unsigned bytes. *)
Definition entry_le (a b : bytes * bytes) : Prop := bytes_le a.1 b.1.
#[export] Instance entry_le_dec : RelDecision entry_le.
Proof. intros a b. unfold entry_le. apply _. Defined.
#[export] Instance entry_le_total : Total entry_le.
Proof. intros a b. unfold entry_le. apply bytes_le_total. Qed.
#[export] Instance entry_le_trans : Transitive entry_le.
Proof. intros a b c. unfold entry_le. intros. by etrans. Qed.

(** What an iteration shows: the entries of the range, each once, ascending. *)
Definition shows (m : contents) (lower upper : option bytes) (es : list (bytes * bytes)) : Prop :=
  StronglySorted (fun a b => bytes_lt a.1 b.1) es
  /\ forall k v, (k, v) ∈ es <-> m !! k = Some v /\ in_range lower upper k = true.

(** ** The interface *)

(** [Get]'s [(value, ok)] is an option. An iterator's [Key] or [Value] away
    from an entry is [None]. *)
Class Engine (E It : Type) := {
  Get : Context -> bytes -> M error E (option bytes);
  Apply : Context -> Batch -> bool -> M error E unit;
  NewIterator : Context -> option bytes -> option bytes -> M error E It;
  Engine_Close : M error E unit;
  Next : It -> bool * It;
  Key : It -> option bytes;
  Value : It -> option bytes;
  Iter_Err : It -> option error;
  Iter_Close : It -> option error;
}.

(** What an implementation promises. [holds e m]: the engine is open with the
    contents [m]; [ended e]: it was closed. [ahead it es]: the iterator still
    has [es] in front of it. Operations of a [fallible] engine may fail on
    their own, with an INTERNAL error, and then change nothing but, for a
    batch, all or none of it. *)
Class EngineSpec E It `{Engine E It} := {
  holds : E -> contents -> Prop;
  ended : E -> Prop;
  ahead : It -> list (bytes * bytes) -> Prop;
  fallible : Prop;

  Get_live ctx k e m r e' :
    holds e m -> ctx_Err ctx = None -> Get ctx k e = (r, e') ->
    holds e' m /\ (r = Ok (m !! k) \/ fallible /\ exists err, r = Err (kv err) /\ reason err = ReasonInternal);
  Apply_live ctx b sync e m r e' :
    holds e m -> ctx_Err ctx = None -> Apply ctx b sync e = (r, e') ->
    (r = Ok tt /\ holds e' (apply_batch m b))
    \/ (fallible /\ (exists err, r = Err (kv err) /\ reason err = ReasonInternal)
        /\ (holds e' m \/ holds e' (apply_batch m b)));
  NewIterator_live ctx lower upper e m r e' :
    holds e m -> ctx_Err ctx = None -> NewIterator ctx lower upper e = (r, e') ->
    holds e' m /\ ((exists it es, r = Ok it /\ ahead it es /\ shows m lower upper es)
                   \/ fallible /\ exists err, r = Err (kv err) /\ reason err = ReasonInternal);
  Next_ahead it es ok it' :
    ahead it es -> Next it = (ok, it') ->
    match es with
    | [] => ok = false /\ ahead it' [] /\ (Iter_Err it' = None \/ fallible)
    | (k, v) :: es' =>
        (ok = true /\ Key it' = Some k /\ Value it' = Some v /\ ahead it' es')
        \/ (fallible /\ ok = false /\ is_Some (Iter_Err it'))
    end;
  Iter_Close_ahead it es : ahead it es -> Iter_Close it = None \/ fallible;

  (** A done context or a closed engine stops every operation before it
      starts. *)
  refused_ctx ctx err e m :
    holds e m -> ctx_Err ctx = Some err ->
    let refusal := kv (Wrap (ReasonOf (Some err)) (Some err) "") in
    (forall k, Get ctx k e = (Err refusal, e))
    /\ (forall b s, Apply ctx b s e = (Err refusal, e))
    /\ (forall l u, NewIterator ctx l u e = (Err refusal, e));
  refused_closed ctx e :
    ended e ->
    (forall k, exists err, Get ctx k e = (Err (kv err), e) /\ reason err = ReasonInternal)
    /\ (forall b s, exists err, Apply ctx b s e = (Err (kv err), e) /\ reason err = ReasonInternal)
    /\ (forall l u, exists err, NewIterator ctx l u e = (Err (kv err), e) /\ reason err = ReasonInternal)
    /\ Engine_Close e = (Ok tt, e);
  Close_ends e m r e' :
    holds e m -> Engine_Close e = (r, e') -> ended e' /\ (r = Ok tt \/ fallible);
}.

(** ** Batches as maps *)

(** The last operation on a key decides it. *)
Fixpoint last_op (k : bytes) (l : list Op) : option Op :=
  match l with
  | [] => None
  | op :: l' =>
      match last_op k l' with
      | Some o => Some o
      | None => if decide (op_Key op = k) then Some op else None
      end
  end.

Lemma foldl_apply_lookup l m k :
  foldl apply_op m l !! k
  = match last_op k l with
    | Some op => if op_Delete op then None else Some (op_Value op)
    | None => m !! k
    end.
Proof.
  revert m. induction l as [|op l IH]; intros m; [done|]. cbn [foldl last_op]. rewrite IH.
  destruct (last_op k l) as [o|]; [done|]. unfold apply_op. case_decide as Hk; subst.
  - destruct (op_Delete op); [by rewrite lookup_delete_eq|by rewrite lookup_insert_eq].
  - destruct (op_Delete op); [by rewrite lookup_delete_ne|by rewrite lookup_insert_ne].
Qed.

(** ** Iterations *)

Lemma bytes_lt_key_irrefl (es : list (bytes * bytes)) e :
  Forall (fun b => bytes_lt e.1 b.1) es -> e ∉ es.
Proof.
  intros H Hin. rewrite Forall_forall in H. specialize (H _ Hin).
  by apply (irreflexivity bytes_lt) in H.
Qed.

(** There is one list an iteration can show. *)
Lemma shows_unique m lower upper es es' : shows m lower upper es -> shows m lower upper es' -> es = es'.
Proof.
  intros [Hs H] [Hs' H']. assert (forall e, e ∈ es <-> e ∈ es') as Hiff.
  { intros [k v]. by rewrite H, H'. }
  clear H H'. revert es' Hs' Hiff. induction Hs as [|e es Hs IH He]; intros es' Hs' Hiff.
  { destruct es' as [|e' es']; [done|]. by destruct (not_elem_of_nil e'); apply Hiff; left. }
  destruct Hs' as [|e' es' Hs' He'].
  { by destruct (not_elem_of_nil e); apply Hiff; left. }
  assert (e = e') as ->.
  { rewrite Forall_forall in He, He'.
    assert (e ∈ e' :: es') as [->|H1]%elem_of_cons by (apply Hiff; by left); [done|].
    assert (e' ∈ e :: es) as [->|H2]%elem_of_cons by (apply Hiff; by left); [done|].
    specialize (He _ H2). specialize (He' _ H1). simpl in *.
    exfalso. apply (irreflexivity bytes_lt e.1). by etrans. }
  f_equal. apply IH; [done|]. intros x. split; intros Hx.
  - assert (x ∈ e' :: es') as [->|]%elem_of_cons by (apply Hiff; by right); [|done].
    by apply bytes_lt_key_irrefl in He.
  - assert (x ∈ e' :: es) as [->|]%elem_of_cons by (apply Hiff; by right); [|done].
    by apply bytes_lt_key_irrefl in He'.
Qed.

(** The list itself: the entries of the map in any order, filtered and sorted. *)
Definition sorted_range (lower upper : option bytes) (visited : list (bytes * bytes)) : list (bytes * bytes) :=
  merge_sort entry_le (filter (fun e => in_range lower upper e.1) visited).

Lemma sorted_strict (es : list (bytes * bytes)) :
  NoDup es.*1 -> StronglySorted entry_le es -> StronglySorted (fun a b => bytes_lt a.1 b.1) es.
Proof.
  intros Hnd Hs. induction Hs as [|e es Hs IH He]; [constructor|].
  cbn [fmap list_fmap] in Hnd. apply NoDup_cons in Hnd as [Hne Hnd]. constructor; [by apply IH|].
  rewrite Forall_forall in *. intros x Hx. specialize (He _ Hx). unfold entry_le in He.
  apply bytes_le_lt_eq in He as [He|He]; [done|]. destruct Hne. rewrite He. by apply list_elem_of_fmap_2.
Qed.

(** The entries of the range, sorted in any way. *)
Lemma sorted_shows m lower upper es :
  es ≡ₚ filter (fun e => in_range lower upper e.1) (map_to_list m) -> StronglySorted entry_le es ->
  shows m lower upper es.
Proof.
  intros Hp Hs. split.
  - apply sorted_strict; [|done]. rewrite Hp. apply (sublist_NoDup _ (map_to_list m).*1).
    + apply NoDup_fst_map_to_list.
    + apply fmap_sublist, sublist_filter.
  - intros k v. rewrite Hp, list_elem_of_filter, elem_of_map_to_list. simpl. rewrite Is_true_true. tauto.
Qed.

Lemma sorted_range_shows m lower upper visited :
  visited ≡ₚ map_to_list m -> shows m lower upper (sorted_range lower upper visited).
Proof.
  intros Hv. apply sorted_shows; [|apply StronglySorted_merge_sort; apply _].
  unfold sorted_range. by rewrite merge_sort_Permutation, Hv.
Qed.
