(* ===== verification/MemEngine.v ===== *)
(** * The in-memory engine (internal/storage/storagetest/memengine.go)

    Its state, its operations, and that it implements the engine interface
    without failing on its own. *)

From stdpp Require Import prelude gmap list sorting strings.
From Stdlib Require Import ZArith Lia.
From S2P Require Import Prelude GoBytes GoStrings Kverr Record Fs Segment Log Engine.

Local Open Scope Z_scope.

(** [mem_data] of a closed engine is Go's nil map. *)
Record MemEngine := mkMemEngine { mem_data : contents; mem_closed : bool }.

Definition NewMemEngine : MemEngine := mkMemEngine ∅ false.

Definition errMemClosed : error := ESentinel "closed".

Definition MemEngine_usable (ctx : Context) : M error MemEngine unit := fun e =>
  if mem_closed e then (Err (internal errMemClosed "storage engine is closed"), e)
  else match ctx_Err ctx with
       | Some err => (Err (kv (Wrap (ReasonOf (Some err)) (Some err) "")), e)
       | None => (Ok tt, e)
       end.

Definition MemEngine_Get (ctx : Context) (key : bytes) : M error MemEngine (option bytes) :=
  MemEngine_usable ctx;;
  e ← get_state;
  mret (mem_data e !! key).

(** The loop over the operations of the batch. *)
Definition MemEngine_apply_ops (l : list Op) (data : contents) : contents :=
  foldl (fun d op => if op_Delete op then delete (op_Key op) d else <[op_Key op := op_Value op]> d) data l.

Definition MemEngine_Apply (ctx : Context) (b : Batch) (sync : bool) : M error MemEngine unit :=
  MemEngine_usable ctx;;
  modify (fun e => mkMemEngine (MemEngine_apply_ops (Batch_Ops b) (mem_data e)) (mem_closed e)).

(** A snapshot of entries and the position in it; -1 before the first. *)
Record memIterator := mkMemIterator { mi_entries : list (bytes * bytes); mi_pos : Z }.

(** The loop over the map, in whatever order Go visits it ([visited]). *)
Fixpoint collect_range (lower upper : option bytes) (visited : list (bytes * bytes)) : list (bytes * bytes) :=
  match visited with
  | [] => []
  | (key, v) :: rest =>
      if match lower with Some l => bool_decide (bytes_Compare key l = Lt) | None => false end
      then collect_range lower upper rest
      else if match upper with Some u => bool_decide (bytes_Compare key u <> Lt) | None => false end
      then collect_range lower upper rest
      else (key, v) :: collect_range lower upper rest
  end.

Definition MemEngine_NewIterator (ctx : Context) (lower upper : option bytes) : M error MemEngine memIterator :=
  MemEngine_usable ctx;;
  e ← get_state;
  let entries := collect_range lower upper (map_to_list (mem_data e)) in
  mret (mkMemIterator (merge_sort entry_le entries) (-1)).

Definition MemEngine_Close : M error MemEngine unit := fun _ => (Ok tt, mkMemEngine ∅ true).

Definition memIterator_Next (i : memIterator) : bool * memIterator :=
  let pos := if mi_pos i <? len (mi_entries i) then mi_pos i + 1 else mi_pos i in
  (pos <? len (mi_entries i), mkMemIterator (mi_entries i) pos).

(** [i.entries[i.pos]]; [None] where Go panics. *)
Definition memIterator_entry (i : memIterator) : option (bytes * bytes) :=
  if mi_pos i <? 0 then None else mi_entries i !! Z.to_nat (mi_pos i).

Definition memIterator_Key (i : memIterator) : option bytes := fst <$> memIterator_entry i.
Definition memIterator_Value (i : memIterator) : option bytes := snd <$> memIterator_entry i.
Definition memIterator_Err (i : memIterator) : option error := None.
Definition memIterator_Close (i : memIterator) : option error := None.

#[export] Instance MemEngine_Engine : Engine MemEngine memIterator := {
  Get := MemEngine_Get;
  Apply := MemEngine_Apply;
  NewIterator := MemEngine_NewIterator;
  Engine_Close := MemEngine_Close;
  Next := memIterator_Next;
  Key := memIterator_Key;
  Value := memIterator_Value;
  Iter_Err := memIterator_Err;
  Iter_Close := memIterator_Close;
}.

(** ** The order of the map does not matter *)

Lemma collect_range_filter lower upper visited :
  collect_range lower upper visited = filter (fun e => in_range lower upper e.1) visited.
Proof.
  induction visited as [|[k v] rest IH]; [done|]. cbn [collect_range]. rewrite filter_cons, IH. simpl.
  unfold in_range. destruct lower as [l|], upper as [u|]; simpl;
    try destruct (bytes_Compare k l); try destruct (bytes_Compare k u); done.
Qed.

(** Any order of visiting the map gives the same snapshot. *)
Lemma snapshot_order lower upper m visited :
  visited ≡ₚ map_to_list m ->
  merge_sort entry_le (collect_range lower upper visited)
  = merge_sort entry_le (collect_range lower upper (map_to_list m)).
Proof.
  intros Hv. rewrite !collect_range_filter.
  eapply shows_unique; apply sorted_range_shows; [exact Hv|done].
Qed.

(** ** The contract *)

Definition mem_ahead (i : memIterator) (es : list (bytes * bytes)) : Prop :=
  -1 <= mi_pos i <= len (mi_entries i) /\ es = drop (Z.to_nat (mi_pos i + 1)) (mi_entries i).

Lemma mem_Next it es ok it' :
  mem_ahead it es -> memIterator_Next it = (ok, it') ->
  match es with
  | [] => ok = false /\ mem_ahead it' []
  | (k, v) :: es' => ok = true /\ memIterator_entry it' = Some (k, v) /\ mem_ahead it' es'
  end.
Proof.
  intros [Hpos ->] [= <- <-]. unfold mem_ahead, memIterator_entry. simpl. destruct it as [l pos]. simpl in *.
  destruct (drop (Z.to_nat (pos + 1)) l) as [|[k v] es] eqn:Hd.
  - assert (len l <= pos + 1) as Hlen.
    { apply (f_equal length) in Hd. rewrite length_drop in Hd. unfold len. simpl in Hd. lia. }
    destruct (Z.ltb_spec pos (len l)); (split; [apply Z.ltb_ge; lia|]); (split; [lia|]);
      symmetry; apply drop_ge; unfold len in *; lia.
  - assert (pos + 1 < len l) as Hlen.
    { apply (f_equal length) in Hd. rewrite length_drop in Hd. unfold len. simpl in Hd. lia. }
    rewrite (proj2 (Z.ltb_lt pos (len l))) by lia. split_and!; [by apply Z.ltb_lt| |lia|lia|].
    + rewrite (proj2 (Z.ltb_ge (pos + 1) 0)) by lia.
      rewrite <- (Nat.add_0_r (Z.to_nat (pos + 1))), <- lookup_drop, Hd. done.
    + replace (Z.to_nat (pos + 1 + 1)) with (Z.to_nat (pos + 1) + 1)%nat by lia.
      by rewrite <- drop_drop, Hd.
Qed.

#[export] Instance MemEngine_spec : EngineSpec MemEngine memIterator.
Proof.
  refine {|
    holds e m := mem_data e = m /\ mem_closed e = false;
    ended e := mem_closed e = true /\ mem_data e = ∅;
    ahead := mem_ahead;
    fallible := False;
  |}.
  - intros ctx k [d c] m r e' [Hd Hc] Hctx H. simpl in *. subst.
    unfold MemEngine_Get, MemEngine_usable, mbind, M_bind in H. simpl in H. rewrite Hctx in H.
    injection H as <- <-. split; [done|by left].
  - intros ctx b sync [d c] m r e' [Hd Hc] Hctx H. simpl in *. subst.
    unfold MemEngine_Apply, MemEngine_usable, mbind, M_bind in H. simpl in H. rewrite Hctx in H.
    injection H as <- <-. left. done.
  - intros ctx lower upper [d c] m r e' [Hd Hc] Hctx H. simpl in *. subst.
    unfold MemEngine_NewIterator, MemEngine_usable, mbind, M_bind in H. simpl in H. rewrite Hctx in H.
    injection H as <- <-. split; [done|left]. do 2 eexists. split_and!; [done| |].
    + split; [simpl; unfold len; lia|done].
    + simpl. rewrite collect_range_filter. by apply sorted_range_shows.
  - intros it es ok it' Ha Hn. pose proof (mem_Next _ _ _ _ Ha Hn) as H. destruct es as [|[k v] es].
    + destruct H as [-> Ha']. split_and!; [done|done|by left].
    + left. destruct H as (-> & He & Ha'). simpl. unfold memIterator_Key, memIterator_Value. by rewrite He.
  - by left.
  - intros ctx err [d c] m [Hd Hc] Hctx. simpl in *. subst. split_and!; intros; unfold MemEngine_Get,
      MemEngine_Apply, MemEngine_NewIterator, MemEngine_usable, mbind, M_bind; simpl; by rewrite Hctx.
  - intros ctx [d c] [Hc Hd]. simpl in *. subst. split_and!; [intros; eexists; by split..|done].
  - intros e m r e' _ [= <- <-]. split; [done|by left].
Defined.

(** C25: the in-memory engine implements the engine contract, with operations
    that never fail on their own. On an open engine and a live context, a read
    sees the last write of each key in batch order, and an iterator shows exactly
    the keys of its range at creation, ascending by unsigned bytes whatever order
    Go visits the map in, one for each [Next]. A context that is done stops every
    operation with its error, and after [Close] every operation is refused as
    INTERNAL and [Close] is harmless; neither changes the engine. *)
Theorem MemEngine_correct ctx b sync lower upper key visited e m :
  holds e m -> visited ≡ₚ map_to_list m ->
  match ctx_Err ctx with
  | None =>
      MemEngine_Get ctx key e = (Ok (m !! key), e)
      /\ (exists e', MemEngine_Apply ctx b sync e = (Ok tt, e') /\ holds e' (apply_batch m b)
            /\ forall k, apply_batch m b !! k
                 = match last_op k (Batch_Ops b) with
                   | Some op => if op_Delete op then None else Some (op_Value op)
                   | None => m !! k
                   end)
      /\ (exists it, MemEngine_NewIterator ctx lower upper e = (Ok it, e)
            /\ mi_entries it = merge_sort entry_le (collect_range lower upper visited)
            /\ shows m lower upper (mi_entries it) /\ mem_ahead it (mi_entries it))
  | Some err =>
      let refusal := kv (Wrap (ReasonOf (Some err)) (Some err) "") in
      MemEngine_Get ctx key e = (Err refusal, e) /\ MemEngine_Apply ctx b sync e = (Err refusal, e)
      /\ MemEngine_NewIterator ctx lower upper e = (Err refusal, e)
  end
  /\ (forall it k v es ok it', mem_ahead it ((k, v) :: es) -> memIterator_Next it = (ok, it') ->
       ok = true /\ memIterator_Key it' = Some k /\ memIterator_Value it' = Some v /\ mem_ahead it' es)
  /\ (forall it ok it', mem_ahead it [] -> memIterator_Next it = (ok, it') -> ok = false /\ mem_ahead it' [])
  /\ (exists e', MemEngine_Close e = (Ok tt, e') /\
       let refusal := internal (ESentinel "closed") "storage engine is closed" in
       MemEngine_Get ctx key e' = (Err refusal, e') /\ MemEngine_Apply ctx b sync e' = (Err refusal, e')
       /\ MemEngine_NewIterator ctx lower upper e' = (Err refusal, e') /\ MemEngine_Close e' = (Ok tt, e')).
Proof.
  intros [Hd Hc] Hv. destruct e as [d c]. simpl in *. subst. split; [|split_and!].
  - unfold MemEngine_Get, MemEngine_Apply, MemEngine_NewIterator, MemEngine_usable, mbind, M_bind. simpl.
    destruct (ctx_Err ctx) as [err|]; [done|]. split_and!; [done| |].
    + exists (mkMemEngine (apply_batch m b) false). split_and!; [done..|intros k; apply foldl_apply_lookup].
    + eexists. split_and!; [done|simpl; symmetry; by apply snapshot_order| |].
      * simpl. rewrite collect_range_filter. by apply sorted_range_shows.
      * split; [simpl; unfold len; lia|done].
  - intros it k v es ok it' Ha Hn. destruct (mem_Next _ _ _ _ Ha Hn) as (-> & He & Ha').
    unfold memIterator_Key, memIterator_Value. by rewrite He.
  - intros it ok it' Ha Hn. exact (mem_Next _ _ _ _ Ha Hn).
  - eexists. split; [done|]. by split_and!.
Qed.

Definition one_key : contents := {[ [Byte.x61] := [Byte.x62] ]}.

Lemma MemEngine_correct_witness :
  MemEngine_Get [] [Byte.x61] (mkMemEngine one_key false)
  = (Ok (Some [Byte.x62]), mkMemEngine one_key false).
Proof.
  destruct (MemEngine_correct [] emptyBatch true None None [Byte.x61] (map_to_list one_key)
    (mkMemEngine one_key false) one_key) as [[H _] _]; [split; reflexivity|reflexivity|].
  rewrite H. vm_compute. reflexivity.
Defined.
