(* ===== verification/EngineContract.v ===== *)
(** * The engine contract suite (internal/storage/storagetest/contract.go)

    The tests every engine must pass, as programs over the engine interface:
    [require] stops with an error, [assert] counts into the verdict. They are
    proved to pass for every engine that keeps the interface's laws and does
    not fail on its own, so the laws are at least as strong as the suite. *)

From stdpp Require Import prelude gmap list sorting strings.
From Stdlib Require Import ZArith Lia.
From S2P Require Import Prelude GoBytes GoStrings Kverr Record Fs Segment Log Engine MemEngine.

Local Open Scope Z_scope.

(** A string literal as bytes. *)
Definition B (s : string) : bytes := String.list_byte_of_string s.

Section contract.
Context {E It : Type} `{EngineSpec E It}.

Abbreviation T := (M error E).

(** [context.Background()] and a canceled context. *)
Definition background : Context := [].
Definition canceled : Context := [Some ECanceled].

Definition set_key (key value : bytes) : T unit :=
  Apply background (Batch_Set emptyBatch key value) true.

Definition get_key (key : bytes) : T (option bytes) := Get background key.

(** The loop over an iterator, with an assertion on each entry ([check]); a run
    of more than [fuel] keys is an error. *)
Fixpoint scan_loop (check : It -> bool) (fuel : nat) (it : It) (keys : list bytes) (good : bool)
    : option (list bytes * bool * It) :=
  match fuel with
  | O => None
  | S fuel' =>
      match Next it with
      | (false, it') => Some (keys, good, it')
      | (true, it') =>
          match Key it' with
          | Some k => scan_loop check fuel' it' (keys ++ [k]) (good && check it')
          | None => None
          end
      end
  end.

(** [require.NoError]. *)
Definition NoError (err : option error) : T unit :=
  match err with None => mret tt | Some e => fail e end.

(** The loop and what follows it: no error, and a close without one. *)
Definition scan_rest (check : It -> bool) (fuel : nat) (it : It) : T (list bytes * bool) :=
  match scan_loop check fuel it [] true with
  | Some (keys, good, it') =>
      NoError (Iter_Err it');;
      NoError (Iter_Close it');;
      mret (keys, good)
  | None => fail (ESentinel "scan")
  end.

Definition scan (fuel : nat) (lower upper : option bytes) : T (list bytes) :=
  it ← NewIterator background lower upper;
  r ← scan_rest (fun _ => true) fuel it;
  mret r.1.

Definition same (a b : list bytes) : bool := bool_decide (a = b).

Definition contractMissingKey : T bool :=
  r ← get_key (B "absent");
  mret (bool_decide (r = None)).

Definition contractSetOverwriteDelete : T bool :=
  set_key (B "k") (B "v1");;
  r1 ← get_key (B "k");
  set_key (B "k") (B "v2");;
  r2 ← get_key (B "k");
  Apply background (Batch_Delete emptyBatch (B "k")) true;;
  r3 ← get_key (B "k");
  mret (bool_decide (r1 = Some (B "v1")) && bool_decide (default [] r2 = B "v2") && bool_decide (r3 = None)).

Definition contractBatch : T bool :=
  set_key (B "gone") (B "x");;
  let b := Batch_Delete (Batch_Set (Batch_Set emptyBatch (B "a") (B "1")) (B "b") (B "2")) (B "gone") in
  Apply background b false;;
  keys ← scan 10 None None;
  mret ((Batch_Len b =? 3) && same keys [B "a"; B "b"]).

Definition contractLastOpWins : T bool :=
  let b := Batch_Set (Batch_Delete (Batch_Set emptyBatch (B "k") (B "first")) (B "k")) (B "k") (B "last") in
  Apply background b true;;
  r ← get_key (B "k");
  mret (bool_decide (default [] r = B "last")).

(** Keys that only sort right as unsigned bytes. *)
Definition set_all (keys : list bytes) : T unit :=
  foldr (fun k rest => set_key k (B "v");; rest) (mret tt) keys.

Definition contractUnsignedOrder : T bool :=
  set_all [[Byte.xff]; B "b"; [Byte.x00]; B "a"; [Byte.x80]; B "ab"];;
  keys ← scan 10 None None;
  mret (same keys [[Byte.x00]; B "a"; B "ab"; B "b"; [Byte.x80]; [Byte.xff]]).

Definition contractBounds : T bool :=
  set_all [B "a"; B "b"; B "c"; B "d"];;
  k1 ← scan 10 (Some (B "b")) (Some (B "d"));
  k2 ← scan 10 (Some (B "c")) None;
  k3 ← scan 10 None (Some (B "b"));
  k4 ← scan 10 (Some (B "b")) (Some (B "b"));
  mret (same k1 [B "b"; B "c"] && same k2 [B "c"; B "d"] && same k3 [B "a"] && same k4 []).

Definition contractSnapshot : T bool :=
  set_key (B "a") (B "v");;
  it ← NewIterator background None None;
  set_key (B "b") (B "v");;
  r ← scan_rest (fun it => bool_decide (Value it = Some (B "v"))) 10 it;
  mret (r.2 && same r.1 [B "a"]).

Definition contractEmptyIteration : T bool :=
  keys ← scan 10 None None;
  mret (same keys []).

(** Whether a call failed with this reason. *)
Definition failed_with {A} (r : Reason) (x : result error A) : bool :=
  match x with Err err => bool_decide (ReasonOf (Some err) = r) | Ok _ => false end.

Definition contractCanceledContext : T bool :=
  r1 ← try (Get canceled (B "k"));
  r2 ← try (Apply canceled emptyBatch true);
  r3 ← try (NewIterator canceled None None);
  mret (failed_with ReasonCanceled r1 && failed_with ReasonCanceled r2 && failed_with ReasonCanceled r3).

Definition contractClosed : T bool :=
  Engine_Close;;
  Engine_Close;;
  r1 ← try (Get background (B "k"));
  r2 ← try (Apply background emptyBatch true);
  r3 ← try (NewIterator background None None);
  mret (negb (is_ok r1) && negb (is_ok r2) && negb (is_ok r3)).

(** The suite; each test gets a fresh engine. *)
Definition RunEngineContract : list (T bool) :=
  [contractMissingKey; contractSetOverwriteDelete; contractBatch; contractLastOpWins;
   contractUnsignedOrder; contractBounds; contractSnapshot; contractEmptyIteration;
   contractCanceledContext; contractClosed].

(** ** Every lawful engine passes *)
Hypothesis infallible : ~ fallible.

(** A step of a test from known contents: it succeeds with [a] and leaves [m']. *)
Definition yields {A} (p : T A) (m : contents) (a : A) (m' : contents) : Prop :=
  forall e, holds e m -> exists e', p e = (Ok a, e') /\ holds e' m'.

Lemma yields_bind {A C} (p : T A) (k : A -> T C) m a m1 c m2 :
  yields p m a m1 -> yields (k a) m1 c m2 -> yields (p ≫= k) m c m2.
Proof.
  intros Hp Hk e He. destruct (Hp e He) as (e1 & Hr & He1). destruct (Hk e1 He1) as (e2 & Hr2 & He2).
  exists e2. split; [|done]. by rewrite (bind_ok _ _ _ _ _ Hr).
Qed.

Lemma yields_ret {A} (a a' : A) m : a = a' -> yields (mret a) m a' m.
Proof. intros -> e He. by exists e. Qed.

Lemma yields_Apply b sync m : yields (Apply background b sync) m tt (apply_batch m b).
Proof.
  intros e He. destruct (Apply background b sync e) as [r e'] eqn:Hr.
  destruct (Apply_live background b sync e m r e' He eq_refl Hr) as [[-> He']|[Hf _]]; [eauto|contradiction].
Qed.

Lemma yields_set_all keys : forall m,
  yields (set_all keys) m tt (foldl (fun m k => apply_batch m (Batch_Set emptyBatch k (B "v"))) m keys).
Proof.
  induction keys as [|k keys IH]; intros m; simpl; [by apply yields_ret|].
  eapply yields_bind; [apply yields_Apply|]. apply IH.
Qed.

Lemma yields_get k m : yields (get_key k) m (m !! k) m.
Proof.
  intros e He. unfold get_key. destruct (Get background k e) as [r e'] eqn:Hr.
  destruct (Get_live background k e m r e' He eq_refl Hr) as [He' [->|[Hf _]]]; [eauto|contradiction].
Qed.

(** A check that passes on every iterator that shows one of the entries. *)
Definition checks (check : It -> bool) (es : list (bytes * bytes)) : Prop :=
  forall it k v, (k, v) ∈ es -> Key it = Some k -> Value it = Some v -> check it = true.

(** An iterator with [es] ahead lists their keys. *)
Lemma scan_loop_ahead check es : forall it fuel keys,
  checks check es -> ahead it es -> (length es < fuel)%nat ->
  exists it', scan_loop check fuel it keys true = Some (keys ++ es.*1, true, it')
    /\ Iter_Err it' = None /\ Iter_Close it' = None.
Proof.
  induction es as [|[k v] es IH]; intros it fuel keys Hck Ha Hf; (destruct fuel as [|fuel]; [simpl in Hf; lia|]);
    cbn [scan_loop]; destruct (Next it) as [ok it'] eqn:Hn; pose proof (Next_ahead _ _ _ _ Ha Hn) as H'; simpl in H'.
  - destruct H' as (-> & Ha' & [He|Hf']); [|contradiction]. exists it'. rewrite app_nil_r.
    destruct (Iter_Close_ahead _ _ Ha'); [done|contradiction].
  - destruct H' as [(-> & Hk & Hv & Ha')|[Hf' _]]; [|contradiction].
    rewrite Hk, (Hck it' k v (list_elem_of_here _ _) Hk Hv).
    destruct (IH it' fuel (keys ++ [k])) as (it2 & Hs & He); [|done|simpl in Hf; lia|].
    { intros i k' v' Hin. apply Hck. by apply list_elem_of_further. }
    exists it2. split; [|done]. cbn [andb]. by rewrite Hs, <- app_assoc.
Qed.

Lemma yields_NewIterator lower upper m :
  forall e, holds e m -> exists it e', NewIterator background lower upper e = (Ok it, e') /\ holds e' m
    /\ ahead it (sorted_range lower upper (map_to_list m)).
Proof.
  intros e He. destruct (NewIterator background lower upper e) as [r e'] eqn:Hr.
  destruct (NewIterator_live background lower upper e m r e' He eq_refl Hr) as [He' [(it & es & -> & Ha & Hs)|[Hf _]]];
    [|contradiction].
  exists it, e'. split_and!; [done|done|].
  by rewrite (shows_unique _ _ _ _ _ (sorted_range_shows m lower upper (map_to_list m) ltac:(done)) Hs).
Qed.

Lemma yields_scan_rest check fuel it es m :
  checks check es -> ahead it es -> (length es < fuel)%nat -> yields (scan_rest check fuel it) m (es.*1, true) m.
Proof.
  intros Hck Ha Hf e He. destruct (scan_loop_ahead check es it fuel [] Hck Ha Hf) as (it' & Hs & Herr & Hcl).
  exists e. unfold scan_rest. by rewrite Hs, Herr, Hcl.
Qed.

Lemma yields_scan fuel lower upper m es :
  sorted_range lower upper (map_to_list m) = es -> (length es < fuel)%nat ->
  yields (scan fuel lower upper) m es.*1 m.
Proof.
  intros <- Hf e He. destruct (yields_NewIterator lower upper m e He) as (it & e1 & Hn & He1 & Ha).
  unfold scan. rewrite (bind_ok _ _ _ _ _ Hn).
  apply (yields_bind _ _ m (_, true) m _ m (yields_scan_rest (fun _ => true) fuel it _ m (fun _ _ _ _ _ _ => eq_refl) Ha Hf));
    [by apply yields_ret|done].
Qed.

Ltac run_contract :=
  repeat first
    [ eapply yields_bind; [apply yields_Apply|]
    | eapply yields_bind; [apply yields_set_all|]
    | eapply yields_bind; [apply yields_get|]
    | eapply yields_bind; [eapply yields_scan; [vm_compute; reflexivity|simpl; lia]|] ];
  apply yields_ret; vm_compute; reflexivity.

Definition passes (p : T bool) : Prop := forall e, holds e ∅ -> exists e', p e = (Ok true, e').

Lemma yields_passes p m : yields p ∅ true m -> passes p.
Proof. intros Hp e He. destruct (Hp e He) as (e' & Hr & _). eauto. Qed.

Lemma snapshot_passes : passes contractSnapshot.
Proof.
  intros e He. destruct (yields_Apply (Batch_Set emptyBatch (B "a") (B "v")) true ∅ e He) as (e1 & H1 & He1).
  destruct (yields_NewIterator None None _ e1 He1) as (it & e2 & H2 & He2 & Ha).
  destruct (yields_Apply (Batch_Set emptyBatch (B "b") (B "v")) true _ e2 He2) as (e3 & H3 & He3).
  assert (checks (fun it => bool_decide (Value it = Some (B "v")))
    (sorted_range None None (map_to_list (apply_batch ∅ (Batch_Set emptyBatch (B "a") (B "v")))))) as Hck.
  { intros i k v Hin _ Hv. apply bool_decide_eq_true. rewrite Hv. vm_compute in Hin.
    apply list_elem_of_singleton in Hin. by injection Hin as _ ->. }
  destruct (yields_scan_rest _ 10 it _ _ Hck Ha ltac:(vm_compute; lia) e3 He3) as (e4 & H4 & He4).
  exists e4. unfold contractSnapshot, set_key.
  rewrite (bind_ok _ _ _ _ _ H1), (bind_ok _ _ _ _ _ H2), (bind_ok _ _ _ _ _ H3), (bind_ok _ _ _ _ _ H4).
  vm_compute. reflexivity.
Qed.

Lemma try_run {A C} (p : T A) (k : result error A -> T C) e r e' :
  p e = (r, e') -> (try p ≫= k) e = k r e'.
Proof. intros Hp. unfold try, mbind, M_bind. by rewrite Hp. Qed.

Lemma canceled_passes : passes contractCanceledContext.
Proof.
  intros e He. destruct (refused_ctx canceled ECanceled e ∅ He eq_refl) as (Hg & Ha & Hn).
  exists e. unfold contractCanceledContext.
  rewrite (try_run _ _ _ _ _ (Hg (B "k"))), (try_run _ _ _ _ _ (Ha emptyBatch true)),
    (try_run _ _ _ _ _ (Hn None None)). vm_compute. reflexivity.
Qed.

Lemma closed_passes : passes contractClosed.
Proof.
  intros e He. destruct (Engine_Close e) as [r e1] eqn:Hc.
  destruct (Close_ends e ∅ r e1 He Hc) as [He1 [->|Hf]]; [|contradiction].
  destruct (refused_closed background e1 He1) as (Hg & Ha & Hn & Hc2).
  destruct (Hg (B "k")) as (x1 & H1 & _), (Ha emptyBatch true) as (x2 & H2 & _), (Hn None None) as (x3 & H3 & _).
  exists e1. unfold contractClosed. rewrite (bind_ok _ _ _ _ _ Hc), (bind_ok _ _ _ _ _ Hc2).
  by rewrite (try_run _ _ _ _ _ H1), (try_run _ _ _ _ _ H2), (try_run _ _ _ _ _ H3).
Qed.

(** C26: the engine interface's laws are as strong as the contract suite: every
    engine that keeps them and does not fail on its own passes every test of
    RunEngineContract (that of aliasing is in Slices.v) from an empty engine, ordering,
    bounds, snapshots, cancellation and closing included. *)
Theorem RunEngineContract_passes : Forall passes RunEngineContract.
Proof.
  unfold RunEngineContract. repeat (apply Forall_cons_2); [| | | | | |apply snapshot_passes| |
    apply canceled_passes|apply closed_passes|apply Forall_nil_2]; eapply yields_passes.
  - unfold contractMissingKey. run_contract.
  - unfold contractSetOverwriteDelete, set_key. run_contract.
  - unfold contractBatch, set_key. run_contract.
  - unfold contractLastOpWins. run_contract.
  - unfold contractUnsignedOrder. run_contract.
  - unfold contractBounds. run_contract.
  - unfold contractEmptyIteration. run_contract.
Qed.
End contract.

Lemma RunEngineContract_passes_witness :
  exists e', (contractBounds (It := memIterator)) NewMemEngine = (Ok true, e').
Proof.
  pose proof (RunEngineContract_passes (E := MemEngine) (It := memIterator) (fun H => H)) as H.
  apply (Forall_lookup_1 _ _ 5 _ H eq_refl). split; reflexivity.
Defined.
