(* ===== verification/Slices.v ===== *)
(** * Shared slices (engine.go, memengine.go and contract.go)

    Engine.v treats keys and values as immutable. In Go they are slices that
    caller and engine could share, and the sources copy them ([slices.Clone])
    so that they do not. Here a slice is nil or points to an array of a store,
    batches and the in-memory engine keep slices, and a caller may overwrite
    every array it ever made or was given. The theorem is that the values of
    Engine.v are a faithful model of that: no engine that keeps the laws below,
    and the in-memory engine is one, ever shows such a write. *)

From stdpp Require Import prelude gmap list strings.
From Stdlib Require Import ZArith Lia.
From S2P Require Import Prelude GoBytes GoStrings Kverr Record Fs Segment Log Engine MemEngine EngineContract.

(** ** The store *)

Abbreviation arrays := (gmap nat bytes).
Abbreviation slice := (option nat).

(** The bytes of a slice now. *)
Definition read (h : arrays) (s : slice) : bytes := default [] (s ≫= (h !!.)).
Arguments read : simpl never.

(** A new array, as [[]byte("...")] makes one. *)
Definition make (bs : bytes) (h : arrays) : slice * arrays :=
  let l := fresh (dom h) in (Some l, <[l := bs]> h).

(** [slices.Clone]; nil stays nil. *)
Definition slices_Clone (s : slice) (h : arrays) : slice * arrays :=
  match s with None => (None, h) | Some _ => make (read h s) h end.

(** ** Batches *)

Record sharedOp := mkSharedOp { so_Key : slice; so_Value : slice; so_Delete : bool }.

Definition shared_Set (key value : slice) (b : list sharedOp) (h : arrays) : list sharedOp * arrays :=
  let '(k, h1) := slices_Clone key h in
  let '(v, h2) := slices_Clone value h1 in
  (b ++ [mkSharedOp k v false], h2).

Definition shared_Delete (key : slice) (b : list sharedOp) (h : arrays) : list sharedOp * arrays :=
  let '(k, h1) := slices_Clone key h in (b ++ [mkSharedOp k None true], h1).

(** A slice, and the slices of an operation, of this store. *)
Definition valid (h : arrays) (s : slice) : Prop := forall l, s = Some l -> l ∈ dom h.
Definition valid_op (h : arrays) (op : sharedOp) : Prop := valid h (so_Key op) /\ valid h (so_Value op).

(** The operation as the value model has it. *)
Definition op_of (h : arrays) (op : sharedOp) : Op :=
  mkOp (read h (so_Key op)) (read h (so_Value op)) (so_Delete op).

(** ** The interface *)

(** [Get] returns [(value, ok)]. *)
Class SharedEngine (E : Type) := {
  shared_Get : Context -> slice -> M error (arrays * E) (slice * bool);
  shared_Apply : Context -> list sharedOp -> bool -> M error (arrays * E) unit;
}.

(** What a call does to the store: it may add arrays and change those the engine
    owns; the engine then owns what it had and new ones. *)
Record keeps_apart (owns owns' : gset nat) (h h' : arrays) : Prop := {
  ka_dom : dom h ⊆ dom h';
  ka_same l : l ∈ dom h -> l ∉ owns -> h' !! l = h !! l;
  ka_new : owns' ⊆ owns ∪ (dom h' ∖ dom h);
  ka_owned : owns' ⊆ dom h';
}.

Definition locs (s : slice) : gset nat := match s with Some l => {[l]} | None => ∅ end.
Definition op_locs (op : sharedOp) : gset nat := locs (so_Key op) ∪ locs (so_Value op).

(** [shared_holds h e m]: the engine is open with the contents [m], which
    depend on the arrays it owns only. A [shared_fallible] engine may fail; a
    batch whose write failed is applied whole or not at all. *)
Class SharedSpec E `{SharedEngine E} := {
  shared_holds : arrays -> E -> contents -> Prop;
  shared_owns : E -> gset nat;
  shared_fallible : Prop;

  shared_frame h h' e m :
    shared_holds h e m -> (forall l, l ∈ shared_owns e -> h' !! l = h !! l) -> shared_holds h' e m;
  shared_Get_live ctx k h e m r h' e' :
    shared_holds h e m -> shared_owns e ⊆ dom h -> locs k ⊆ dom h ∖ shared_owns e -> ctx_Err ctx = None ->
    shared_Get ctx k (h, e) = (r, (h', e')) ->
    keeps_apart (shared_owns e) (shared_owns e') h h' /\ shared_holds h' e' m
    /\ match r with
       | Ok (v, ok) => ok = bool_decide (is_Some (m !! read h k)) /\ read h' v = default [] (m !! read h k)
           /\ locs v ⊆ dom h' ∖ dom h ∖ shared_owns e'
       | Err _ => shared_fallible
       end;
  shared_Apply_live ctx b sync h e m r h' e' :
    shared_holds h e m -> shared_owns e ⊆ dom h -> Forall (fun op => op_locs op ⊆ dom h ∖ shared_owns e) b ->
    ctx_Err ctx = None -> shared_Apply ctx b sync (h, e) = (r, (h', e')) ->
    let applied := foldl apply_op m (op_of h <$> b) in
    keeps_apart (shared_owns e) (shared_owns e') h h'
    /\ match r with
       | Ok _ => shared_holds h' e' applied
       | Err _ => shared_fallible /\ (shared_holds h' e' m \/ shared_holds h' e' applied)
       end;
  shared_refused ctx err h e m :
    shared_holds h e m -> ctx_Err ctx = Some err ->
    let refusal := kv (Wrap (ReasonOf (Some err)) (Some err) "") in
    (forall k, shared_Get ctx k (h, e) = (Err refusal, (h, e)))
    /\ (forall b s, shared_Apply ctx b s (h, e) = (Err refusal, (h, e)));
}.

(** ** The in-memory engine *)

(** [e.data]; Go converts the key to a string, which copies it. *)
Record sharedMem := mkSharedMem { sm_data : gmap bytes slice; sm_closed : bool }.

Definition sharedMem_usable (ctx : Context) : M error (arrays * sharedMem) unit := fun '(h, e) =>
  if sm_closed e then (Err (internal errMemClosed "storage engine is closed"), (h, e))
  else match ctx_Err ctx with
       | Some err => (Err (kv (Wrap (ReasonOf (Some err)) (Some err) "")), (h, e))
       | None => (Ok tt, (h, e))
       end.

Definition sharedMem_Get (ctx : Context) (key : slice) : M error (arrays * sharedMem) (slice * bool) :=
  sharedMem_usable ctx;;
  '(h, e) ← get_state;
  let found := sm_data e !! read h key in
  let '(copy, h') := slices_Clone (default None found) h in
  put_state (h', e);;
  mret (copy, bool_decide (is_Some found)).

(** The loop over the operations of the batch. *)
Fixpoint sharedMem_apply_ops (l : list sharedOp) (h : arrays) (data : gmap bytes slice)
    : arrays * gmap bytes slice :=
  match l with
  | [] => (h, data)
  | op :: l' =>
      if so_Delete op then sharedMem_apply_ops l' h (delete (read h (so_Key op)) data)
      else let '(copy, h') := slices_Clone (so_Value op) h in
           sharedMem_apply_ops l' h' (<[read h' (so_Key op) := copy]> data)
  end.

Definition sharedMem_Apply (ctx : Context) (b : list sharedOp) (sync : bool) : M error (arrays * sharedMem) unit :=
  sharedMem_usable ctx;;
  '(h, e) ← get_state;
  let '(h', data) := sharedMem_apply_ops b h (sm_data e) in
  put_state (h', mkSharedMem data (sm_closed e)).

#[export] Instance sharedMem_SharedEngine : SharedEngine sharedMem := {
  shared_Get := sharedMem_Get;
  shared_Apply := sharedMem_Apply;
}.

(** ** Slices in a changing store *)

Lemma keeps_apart_trans owns1 owns2 owns3 h1 h2 h3 :
  keeps_apart owns1 owns2 h1 h2 -> keeps_apart owns2 owns3 h2 h3 -> keeps_apart owns1 owns3 h1 h3.
Proof.
  intros [Hd1 Hs1 Hn1 Ho1] [Hd2 Hs2 Hn2 Ho2]. split; [set_solver| |set_solver|done].
  intros l Hl Hno. rewrite Hs2, Hs1 by set_solver. done.
Qed.

Lemma keeps_apart_grows owns h h' : h ⊆ h' -> owns ⊆ dom h -> keeps_apart owns owns h h'.
Proof.
  intros Hs Ho. pose proof (subseteq_dom _ _ Hs). split; [done| |set_solver|set_solver].
  intros l [x Hx]%elem_of_dom _. by rewrite Hx, (lookup_weaken _ _ _ _ Hx Hs).
Qed.

(** A slice the engine does not own reads as before. *)
Lemma read_apart owns owns' h h' s : keeps_apart owns owns' h h' -> locs s ⊆ dom h ∖ owns -> read h' s = read h s.
Proof.
  intros Hk Hl. destruct s as [l|]; [|done]. cbn in Hl. unfold read. cbn. rewrite (ka_same _ _ _ _ Hk); set_solver.
Qed.

Lemma op_of_apart owns owns' h h' op :
  keeps_apart owns owns' h h' -> op_locs op ⊆ dom h ∖ owns -> op_of h' op = op_of h op.
Proof.
  unfold op_locs. intros Hk Hl. unfold op_of. rewrite !(read_apart owns owns' h h') by (done || set_solver). done.
Qed.

Lemma locs_valid (h : arrays) s : locs s ⊆ dom h -> valid h s.
Proof. intros Hs l ->. cbn in Hs. set_solver. Qed.

Lemma locs_valid_op h op : op_locs op ⊆ dom h -> valid_op h op.
Proof. unfold op_locs. intros Hs. split; apply locs_valid; set_solver. Qed.

(** It stays apart. *)
Lemma apart_later owns owns' h h' (ls : gset nat) :
  keeps_apart owns owns' h h' -> ls ⊆ dom h ∖ owns -> ls ⊆ dom h' ∖ owns'.
Proof. intros [] Hl. set_solver. Qed.

Lemma read_mono h h' s : h ⊆ h' -> valid h s -> read h' s = read h s.
Proof.
  intros Hs Hv. destruct s as [l|]; [|done]. unfold read. cbn.
  destruct (proj1 (elem_of_dom h l) (Hv l eq_refl)) as [bs Hl].
  by rewrite Hl, (lookup_weaken _ _ _ _ Hl Hs).
Qed.

Lemma valid_mono h h' s : h ⊆ h' -> valid h s -> valid h' s.
Proof. intros Hs Hv l Hl. apply (subseteq_dom _ _ Hs), Hv, Hl. Qed.

Lemma op_of_mono h h' op : h ⊆ h' -> valid_op h op -> op_of h' op = op_of h op.
Proof. intros Hs [Hk Hv]. unfold op_of. by rewrite !(read_mono h h') by done. Qed.

Lemma valid_op_mono h h' op : h ⊆ h' -> valid_op h op -> valid_op h' op.
Proof. intros Hs []. split; by eapply valid_mono. Qed.

(** A new slice [s'] of the bytes [bs]. *)
Record new_slice (bs : bytes) (h : arrays) (s' : slice) (h' : arrays) : Prop := {
  new_grows : h ⊆ h';
  new_read : read h' s' = bs;
  new_valid : valid h' s';
  new_fresh : forall l, s' = Some l -> l ∉ dom h;
  new_only : forall l, l ∈ dom h' -> l ∈ dom h \/ s' = Some l;
}.

Lemma make_new bs h s' h' : make bs h = (s', h') -> new_slice bs h s' h'.
Proof.
  unfold make. pose proof (is_fresh (dom h)) as Hf. intros [= <- <-]. split.
  - by apply insert_subseteq, not_elem_of_dom.
  - unfold read. cbn. by rewrite lookup_insert_eq.
  - intros l [= <-]. set_solver.
  - by intros l [= <-].
  - intros l. rewrite dom_insert. set_solver.
Qed.

Lemma Clone_new s h s' h' : slices_Clone s h = (s', h') -> new_slice (read h s) h s' h'.
Proof.
  destruct s as [l|]; [apply make_new|]. intros [= <- <-]. split; try done. intros l. by left.
Qed.

(** ** The in-memory engine keeps the laws *)

Definition mem_owns (data : gmap bytes slice) : gset nat := list_to_set (omap snd (map_to_list data)).

Lemma elem_of_mem_owns data l : l ∈ mem_owns data <-> exists k, data !! k = Some (Some l).
Proof.
  unfold mem_owns. rewrite elem_of_list_to_set, list_elem_of_omap. split.
  - intros ([k s] & Hk & Hs). cbn in Hs. subst s. exists k. by apply elem_of_map_to_list.
  - intros [k Hk]. exists (k, Some l). split; [by apply elem_of_map_to_list|done].
Qed.

Definition mem_holds (h : arrays) (data : gmap bytes slice) (m : contents) : Prop :=
  mem_owns data ⊆ dom h /\ m = read h <$> data.

Lemma mem_valid h data m k s : mem_holds h data m -> data !! k = Some s -> valid h s.
Proof. intros [Hd _] Hk l ->. apply Hd, elem_of_mem_owns. eauto. Qed.

Lemma mem_frame h h' data m :
  mem_holds h data m -> (forall l, l ∈ mem_owns data -> h' !! l = h !! l) -> mem_holds h' data m.
Proof.
  intros [Hd ->] Hf. split.
  - intros l Hl. rewrite elem_of_dom, Hf by done. by apply elem_of_dom, Hd.
  - apply map_fmap_ext. intros k [l|] Hk; [|done]. unfold read. cbn. rewrite Hf; [done|].
    apply elem_of_mem_owns. eauto.
Qed.

Lemma mem_frame_grows h h' data m : mem_holds h data m -> h ⊆ h' -> mem_holds h' data m.
Proof.
  intros Hm Hs. apply (mem_frame h); [done|]. intros l Hl%(proj1 Hm)%elem_of_dom.
  destruct Hl as [bs Hl]. by rewrite Hl, (lookup_weaken _ _ _ _ Hl Hs).
Qed.

Lemma mem_owns_insert data k s l :
  l ∈ mem_owns (<[k := s]> data) -> l ∈ mem_owns data \/ s = Some l.
Proof.
  rewrite !elem_of_mem_owns. intros [k' Hk']. rewrite lookup_insert in Hk'. case_decide; [|eauto].
  injection Hk' as ->. by right.
Qed.

Lemma mem_owns_delete data k : mem_owns (delete k data) ⊆ mem_owns data.
Proof.
  intros l. rewrite !elem_of_mem_owns. intros [k' [_ Hk']%lookup_delete_Some]. eauto.
Qed.

Lemma mem_apply_ops_spec l h data m h' data' :
  mem_holds h data m -> Forall (valid_op h) l -> sharedMem_apply_ops l h data = (h', data') ->
  h ⊆ h' /\ keeps_apart (mem_owns data) (mem_owns data') h h'
  /\ mem_holds h' data' (foldl apply_op m (op_of h <$> l)).
Proof.
  revert h data m. induction l as [|op l IH]; intros h data m Hm Hv; cbn.
  { intros [= <- <-]. split_and!; [done| |done]. by apply keeps_apart_grows; [|apply Hm]. }
  apply Forall_cons in Hv as [Hop Hl].
  assert (forall h1 data1, h ⊆ h1 -> mem_holds h1 data1 (apply_op m (op_of h op)) ->
    mem_owns data1 ⊆ mem_owns data ∪ (dom h1 ∖ dom h) ->
    sharedMem_apply_ops l h1 data1 = (h', data') ->
    h ⊆ h' /\ keeps_apart (mem_owns data) (mem_owns data') h h'
    /\ mem_holds h' data' (foldl apply_op (apply_op m (op_of h op)) (op_of h <$> l))) as Hnext.
  { intros h1 data1 Hs Hm1 Ho Hr.
    destruct (IH h1 data1 _ Hm1) as (Hs' & Hka & Hm');
      [by eapply Forall_impl; [exact Hl|intros; eapply valid_op_mono]|exact Hr|]. split_and!.
    - by etrans.
    - eapply keeps_apart_trans; [|exact Hka]. pose proof (keeps_apart_grows (mem_owns data) h h1 Hs (proj1 Hm)) as [].
      split; [done|done|done|apply Hm1].
    - erewrite list_fmap_ext; [exact Hm'|]. intros i op' Hi. symmetry. apply op_of_mono; [done|].
      by eapply Forall_lookup_1. }
  destruct (so_Delete op) eqn:Hdel.
  - pose proof (mem_owns_delete data (read h (so_Key op))) as Ho.
    apply Hnext; [done| |set_solver]. destruct Hm as [Hd ->]. split; [set_solver|].
    unfold apply_op. cbn. by rewrite Hdel, fmap_delete.
  - destruct (slices_Clone (so_Value op) h) as [copy h1] eqn:Hc. apply Clone_new in Hc as [Hs Hr Hcv Hf _].
    rewrite (read_mono h h1 (so_Key op)) by (done || apply Hop).
    assert (forall l, l ∈ mem_owns (<[read h (so_Key op) := copy]> data) -> l ∈ mem_owns data \/ copy = Some l)
      as Ho by (intros l'; apply mem_owns_insert).
    destruct (mem_frame_grows h h1 data m Hm Hs) as [Hd ->]. apply Hnext; [done| |].
    + split; [intros l' [?|Hcl]%Ho; [set_solver|by apply Hcv]|].
      unfold apply_op. cbn. by rewrite Hdel, fmap_insert, Hr.
    + intros l' [?|Hcl]%Ho; [set_solver|]. apply elem_of_union_r, elem_of_difference.
      split; [by apply Hcv|by apply Hf].
Qed.

#[export, refine] Instance sharedMem_SharedSpec : SharedSpec sharedMem := {
  shared_holds h e m := sm_closed e = false /\ mem_holds h (sm_data e) m;
  shared_owns e := mem_owns (sm_data e);
  shared_fallible := False;
}.
Proof.
  - intros h h' e m [Hc Hm] Hf. split; [done|]. by eapply mem_frame.
  - intros ctx k h e m r h' e' [Hc Hm] Ho _ Hctx. cbn. unfold sharedMem_Get, sharedMem_usable, get_state, put_state.
    unfold mbind, M_bind, mret, M_ret. rewrite Hc, Hctx.
    destruct (slices_Clone _ h) as [copy h1] eqn:Hcl. apply Clone_new in Hcl as [Hs Hr Hv Hf _].
    intros [= <- <- <-]. split; [by apply keeps_apart_grows|]. split; [split; [done|by eapply mem_frame_grows]|].
    destruct Hm as [Hd ->]. rewrite lookup_fmap. split_and!.
    + apply bool_decide_ext. by rewrite fmap_is_Some.
    + rewrite Hr. by destruct (sm_data e !! read h k).
    + destruct copy as [l|]; cbn; [|set_solver]. specialize (Hv l eq_refl). specialize (Hf l eq_refl). set_solver.
  - intros ctx b sync h e m r h' e' [Hc Hm] Ho Hv Hctx. cbn.
    unfold sharedMem_Apply, sharedMem_usable, get_state, put_state, mbind, M_bind. rewrite Hc, Hctx.
    destruct (sharedMem_apply_ops b h (sm_data e)) as [h1 data] eqn:Ha. intros [= <- <- <-].
    destruct (mem_apply_ops_spec b h (sm_data e) m h1 data Hm) as (_ & ? & ?); [|done|done].
    eapply Forall_impl; [exact Hv|]. intros op Hop. apply locs_valid_op. set_solver.
  - intros ctx err h e m [Hc Hm] Hctx. cbn.
    unfold sharedMem_Get, sharedMem_Apply, sharedMem_usable, mbind, M_bind. rewrite Hc, Hctx. done.
Defined.

(** ** Callers *)

(** The store, the engine, the caller's batches and the arrays it knows. *)
Record client (E : Type) := mkClient {
  c_h : arrays;
  c_e : E;
  c_batches : gmap nat (list sharedOp);
  c_known : gset nat;
}.
Arguments mkClient {E} _ _ _ _.
Arguments c_h {E} _.
Arguments c_e {E} _.
Arguments c_batches {E} _.
Arguments c_known {E} _.

Section client.
Context {E : Type} `{SharedEngine E}.

Abbreviation C := (M error (client E)).

Definition batch_of (c : client E) (i : nat) : list sharedOp := default [] (c_batches c !! i).

(** A slice of its own. *)
Definition c_make (bs : bytes) : C slice := fun c =>
  let '(s, h) := make bs (c_h c) in
  (Ok s, mkClient h (c_e c) (c_batches c) (locs s ∪ c_known c)).

(** [s[0] = x], and so on: the array of the slice gets other bytes. *)
Definition c_write (s : slice) (bs : bytes) : C unit := fun c =>
  (Ok tt, mkClient (match s with Some l => <[l := bs]> (c_h c) | None => c_h c end)
            (c_e c) (c_batches c) (c_known c)).

Definition c_read (s : slice) : C bytes := fun c => (Ok (read (c_h c) s), c).

(** [b.Set(key, value)] and [b.Delete(key)] on the batch [i]. *)
Definition c_set (i : nat) (key value : slice) : C unit := fun c =>
  let '(b, h) := shared_Set key value (batch_of c i) (c_h c) in
  (Ok tt, mkClient h (c_e c) (<[i := b]> (c_batches c)) (c_known c)).
Definition c_delete (i : nat) (key : slice) : C unit := fun c =>
  let '(b, h) := shared_Delete key (batch_of c i) (c_h c) in
  (Ok tt, mkClient h (c_e c) (<[i := b]> (c_batches c)) (c_known c)).

Definition c_apply (ctx : Context) (i : nat) (sync : bool) : C unit := fun c =>
  let '(r, (h, e)) := shared_Apply ctx (batch_of c i) sync (c_h c, c_e c) in
  (r, mkClient h e (c_batches c) (c_known c)).

(** The value [Get] returns is the caller's. *)
Definition c_get (ctx : Context) (key : slice) : C (slice * bool) := fun c =>
  let '(r, (h, e)) := shared_Get ctx key (c_h c, c_e c) in
  (r, mkClient h e (c_batches c)
        (match r with Ok (v, _) => locs v ∪ c_known c | Err _ => c_known c end)).

(** Whether a batch was applied, refused because the context was done, or its
    write failed. *)
Inductive applied := Applied | Refused | Failed.

Definition outcome (ctx : Context) (r : result error unit) : applied :=
  match r, ctx_Err ctx with Ok _, _ => Applied | _, Some _ => Refused | _, None => Failed end.

(** What a caller's call was, in values at the time of the call. *)
Inductive call :=
| CSet (i : nat) (key value : bytes) | CDelete (i : nat) (key : bytes)
| CApply (i : nat) (how : applied) | CGet (key : bytes) (value : option bytes).

Definition knows (c : client E) (s : slice) : Prop := locs s ⊆ c_known c.

Inductive client_step : client E -> list call -> client E -> Prop :=
| cs_make c bs r c' : c_make bs c = (r, c') -> client_step c [] c'
| cs_write c s bs r c' : knows c s -> c_write s bs c = (r, c') -> client_step c [] c'
| cs_set c i k v r c' :
    knows c k -> knows c v -> c_set i k v c = (r, c') ->
    client_step c [CSet i (read (c_h c) k) (read (c_h c) v)] c'
| cs_delete c i k r c' :
    knows c k -> c_delete i k c = (r, c') -> client_step c [CDelete i (read (c_h c) k)] c'
| cs_apply c ctx i sync r c' :
    c_apply ctx i sync c = (r, c') ->
    client_step c [CApply i (outcome ctx r)] c'
| cs_get c ctx k v ok c' :
    knows c k -> c_get ctx k c = (Ok (v, ok), c') ->
    client_step c [CGet (read (c_h c) k) (if ok : bool then Some (read (c_h c') v) else None)] c'
| cs_get_failed c ctx k err c' : knows c k -> c_get ctx k c = (Err err, c') -> client_step c [] c'.

Inductive client_run : client E -> list call -> client E -> Prop :=
| cr_nil c : client_run c [] c
| cr_step c1 l1 c2 l2 c3 : client_step c1 l1 c2 -> client_run c2 l2 c3 -> client_run c1 (l1 ++ l2) c3.
End client.

(** The same calls on values: what a state may become, nothing when the call could
    not have had this result. *)
Definition on_values (k : call) (a : contents * gmap nat Batch) : list (contents * gmap nat Batch) :=
  let '(m, bs) := a in
  let batch i := default emptyBatch (bs !! i) in
  match k with
  | CSet i key value => [(m, <[i := Batch_Set (batch i) key value]> bs)]
  | CDelete i key => [(m, <[i := Batch_Delete (batch i) key]> bs)]
  | CApply i Applied => [(apply_batch m (batch i), bs)]
  | CApply i Refused => [(m, bs)]
  | CApply i Failed => [(m, bs); (apply_batch m (batch i), bs)]
  | CGet key r => if decide (r = m !! key) then [(m, bs)] else []
  end.

Definition run_values (ks : list call) (a : contents * gmap nat Batch) : list (contents * gmap nat Batch) :=
  possible on_values ks a.

(** The test [contractValuesAreCopies]. *)
Definition contractValuesAreCopies {E} `{SharedEngine E} : M error (client E) bool :=
  key ← c_make (B "k");
  value ← c_make (B "original");
  c_set 0 key value;;
  c_write value (B "Xriginal");;
  c_write key (B "X");;
  c_apply background 0 true;;
  k ← c_make (B "k");
  '(got, ok) ← c_get background k;
  text ← c_read got;
  c_write got (B "Yriginal");;
  k ← c_make (B "k");
  '(again, _) ← c_get background k;
  text' ← c_read again;
  mret (ok && bool_decide (text = B "original") && bool_decide (text' = B "original")).

(** ** Nothing a caller writes is seen *)

Section copies.
Context {E : Type} `{SharedSpec E}.

(** Caller and engine agree on the values, and share no array. *)
Record apart (c : client E) (a : contents * gmap nat Batch) : Prop := {
  ap_holds : shared_holds (c_h c) (c_e c) a.1;
  ap_owns : shared_owns (c_e c) ⊆ dom (c_h c) ∖ c_known c;
  ap_known : c_known c ⊆ dom (c_h c);
  ap_ops i op : op ∈ batch_of c i -> op_locs op ⊆ dom (c_h c) ∖ c_known c ∖ shared_owns (c_e c);
  ap_batches i : default emptyBatch (a.2 !! i) = mkBatch (op_of (c_h c) <$> batch_of c i);
}.

(** New arrays may go to the caller or the engine. *)
Lemma apart_grow c m bs h' e' m' known' :
  apart c (m, bs) -> keeps_apart (shared_owns (c_e c)) (shared_owns e') (c_h c) h' -> shared_holds h' e' m' ->
  c_known c ⊆ known' -> known' ⊆ c_known c ∪ (dom h' ∖ dom (c_h c)) -> shared_owns e' ## known' ->
  apart (mkClient h' e' (c_batches c) known') (m', bs).
Proof.
  intros [Hh Ho Hk Hop Hb] Hka Hh' Hk1 Hk2 Hdis. cbn in *. pose proof (ka_dom _ _ _ _ Hka) as Hdom.
  pose proof (ka_owned _ _ _ _ Hka) as Hd'. split; cbn; [done|set_solver|set_solver| |].
  - intros i op Hin. apply Hop in Hin. pose proof (ka_new _ _ _ _ Hka). set_solver.
  - intros i. rewrite Hb. f_equal. apply list_fmap_ext. intros j op Hj%list_elem_of_lookup_2%Hop.
    symmetry. eapply op_of_apart; [exact Hka|]. set_solver.
Qed.

Lemma apart_new c m bs bytes s h' :
  apart c (m, bs) -> new_slice bytes (c_h c) s h' ->
  apart (mkClient h' (c_e c) (c_batches c) (c_known c)) (m, bs)
  /\ apart (mkClient h' (c_e c) (c_batches c) (locs s ∪ c_known c)) (m, bs)
  /\ locs s ⊆ dom h' ∖ c_known c ∖ shared_owns (c_e c).
Proof.
  intros Ha [Hs Hr Hv Hf _]. pose proof Ha as [Hh Ho Hk _ _]. cbn in *.
  pose proof (subseteq_dom _ _ Hs) as Hdom.
  assert (keeps_apart (shared_owns (c_e c)) (shared_owns (c_e c)) (c_h c) h') as Hka
    by (apply keeps_apart_grows; set_solver).
  assert (shared_holds h' (c_e c) m) as Hh'.
  { apply (shared_frame (c_h c)); [done|]. intros l Hl. assert (l ∈ dom (c_h c)) as [v Hl']%elem_of_dom by set_solver.
    by rewrite Hl', (lookup_weaken _ _ _ _ Hl' Hs). }
  assert (locs s ⊆ dom h' ∖ dom (c_h c)) as Hl.
  { destruct s as [l|]; cbn; [|set_solver]. specialize (Hv l eq_refl). specialize (Hf l eq_refl). set_solver. }
  split_and!; [apply (apart_grow c m)|apply (apart_grow c m)|]; try done; set_solver.
Qed.

Lemma apart_add c m bs i op :
  apart c (m, bs) -> op_locs op ⊆ dom (c_h c) ∖ c_known c ∖ shared_owns (c_e c) ->
  apart (mkClient (c_h c) (c_e c) (<[i := batch_of c i ++ [op]]> (c_batches c)) (c_known c))
    (m, <[i := mkBatch (ops (default emptyBatch (bs !! i)) ++ [op_of (c_h c) op])]> bs).
Proof.
  intros [Hh Ho Hk Hop Hb] Hl. cbn in *. split; cbn; [done..| |].
  - intros j op'. unfold batch_of at 1. cbn. rewrite lookup_insert. case_decide; cbn; [|apply Hop].
    intros [Hin| ->%list_elem_of_singleton]%elem_of_app; [by eapply Hop|done].
  - intros j. unfold batch_of at 1. cbn. rewrite !lookup_insert. case_decide; [subst j|apply Hb].
    cbn. by rewrite Hb, fmap_app.
Qed.

(** *** Each call *)

Lemma apart_make c a bs r c' : apart c a -> c_make bs c = (r, c') ->
  apart c' a /\ exists s, r = Ok s /\ knows c' s /\ read (c_h c') s = bs.
Proof.
  destruct a as [m b]. intros Ha. unfold c_make.
  destruct (make bs (c_h c)) as [s h] eqn:Hm. apply make_new in Hm. intros [= <- <-].
  destruct (apart_new c m b bs s h Ha Hm) as (_ & ? & _). split; [done|]. exists s.
  split_and!; [done|unfold knows; cbn; set_solver|apply Hm].
Qed.

Lemma apart_write c a s bs r c' :
  apart c a -> knows c s -> c_write s bs c = (r, c') -> apart c' a /\ r = Ok tt.
Proof.
  intros [Hh Ho Hk Hop Hb] Hs [= <- <-]. split; [|done]. destruct s as [l|]; [|by split].
  unfold knows in Hs. cbn in Hs.
  assert (forall s, locs s ⊆ dom (c_h c) ∖ c_known c -> read (<[l := bs]> (c_h c)) s = read (c_h c) s) as Hr.
  { intros [l'|] Hl'; [|done]. cbn in Hl'. unfold read. cbn. rewrite lookup_insert_ne; [done|]. set_solver. }
  split; cbn; [|rewrite dom_insert; set_solver..| |].
  - apply (shared_frame (c_h c)); [done|]. intros l' Hl'. apply lookup_insert_ne. set_solver.
  - intros i op Hin%Hop. rewrite dom_insert. set_solver.
  - intros i. rewrite Hb. f_equal. apply list_fmap_ext. intros j op Hj%list_elem_of_lookup_2%Hop.
    unfold op_of, op_locs in *. rewrite !Hr by set_solver. done.
Qed.

Lemma apart_set c m b i k v r c' :
  apart c (m, b) -> knows c k -> knows c v -> c_set i k v c = (r, c') ->
  r = Ok tt /\ c_known c' = c_known c /\
  apart c' (m, <[i := Batch_Set (default emptyBatch (b !! i)) (read (c_h c) k) (read (c_h c) v)]> b).
Proof.
  intros Ha Hk Hv. unfold c_set, shared_Set.
  destruct (slices_Clone k (c_h c)) as [k' h1] eqn:Hck. destruct (slices_Clone v h1) as [v' h2] eqn:Hcv.
  intros [= <- <-]. split; [done|]. split; [done|].
  apply Clone_new in Hck. apply Clone_new in Hcv.
  destruct (apart_new c m b _ k' h1 Ha Hck) as (Ha1 & _ & Hl1).
  destruct (apart_new (mkClient h1 (c_e c) (c_batches c) (c_known c)) m b _ v' h2 Ha1 Hcv) as (Ha2 & _ & Hl2).
  cbn in Hl2. pose proof (subseteq_dom _ _ (new_grows _ _ _ _ Hcv)) as Hdom.
  pose proof (apart_add _ m b i (mkSharedOp k' v' false) Ha2) as Hadd. unfold op_locs in Hadd. cbn in Hadd.
  specialize (Hadd ltac:(set_solver)). unfold Batch_Set. unfold op_of in Hadd. cbn in Hadd.
  rewrite (new_read _ _ _ _ Hcv), (read_mono h1 h2 k'), (new_read _ _ _ _ Hck) in Hadd
    by (apply Hcv || apply Hck).
  rewrite (read_mono (c_h c) h1 v) in Hadd; [exact Hadd|apply Hck|].
  apply locs_valid. unfold knows in Hv. pose proof (ap_known _ _ Ha). set_solver.
Qed.

Lemma apart_delete c m b i k r c' :
  apart c (m, b) -> knows c k -> c_delete i k c = (r, c') ->
  apart c' (m, <[i := Batch_Delete (default emptyBatch (b !! i)) (read (c_h c) k)]> b).
Proof.
  intros Ha Hk. unfold c_delete, shared_Delete. destruct (slices_Clone k (c_h c)) as [k' h1] eqn:Hck.
  intros [= <- <-]. apply Clone_new in Hck. destruct (apart_new c m b _ k' h1 Ha Hck) as (Ha1 & _ & Hl1).
  pose proof (apart_add _ m b i (mkSharedOp k' None true) Ha1) as Hadd. unfold op_locs in Hadd. cbn in Hadd.
  specialize (Hadd ltac:(set_solver)). unfold op_of in Hadd. cbn in Hadd.
  by rewrite (new_read _ _ _ _ Hck) in Hadd.
Qed.

Lemma apart_apply c m b ctx i sync r c' :
  apart c (m, b) -> c_apply ctx i sync c = (r, c') ->
  c_known c' = c_known c
  /\ (exists a, a ∈ on_values (CApply i (outcome ctx r)) (m, b) /\ apart c' a)
  /\ (ctx_Err ctx = None -> r = Ok tt \/ shared_fallible /\ is_ok r = false).
Proof.
  intros Ha. unfold c_apply. destruct (shared_Apply _ _ _ _) as [r' [h e]] eqn:Hap. intros [= <- <-].
  split; [done|]. pose proof Ha as [Hh Ho Hk Hop Hb]. cbn in Hh, Ho, Hk, Hop, Hb.
  unfold outcome. destruct (ctx_Err ctx) as [err|] eqn:Hctx.
  { destruct (shared_refused ctx err _ _ _ Hh Hctx) as [_ Hr]. rewrite Hr in Hap.
    injection Hap as <- <- <-. split; [|done]. exists (m, b). split; [by left|by destruct c]. }
  destruct (shared_Apply_live ctx (batch_of c i) sync _ _ _ r' h e Hh) as [Hka Hh']; [set_solver| |done|done|].
  { apply Forall_forall. intros op Hin%Hop. set_solver. }
  assert (forall m', shared_holds h e m' -> apart (mkClient h e (c_batches c) (c_known c)) (m', b)) as Hgo.
  { intros m' Hm'. apply (apart_grow c m); [done|done|done|done|set_solver|].
    pose proof (ka_new _ _ _ _ Hka). set_solver. }
  assert (apply_batch m (default emptyBatch (b !! i)) = foldl apply_op m (op_of (c_h c) <$> batch_of c i)) as Hab
    by (unfold apply_batch; by rewrite Hb).
  cbn. rewrite Hab. destruct r' as [[]|err].
  - split; [|by auto]. eexists. split; [by left|by apply Hgo].
  - destruct Hh' as [Hfal [Hh'|Hh']]; (split; [|by auto]); eexists; (split; [|by apply Hgo]); set_solver.
Qed.

Lemma apart_get c m b ctx k r c' :
  apart c (m, b) -> knows c k -> c_get ctx k c = (r, c') ->
  apart c' (m, b) /\ c_known c ⊆ c_known c'
  /\ (ctx_Err ctx = None -> is_ok r = true \/ shared_fallible)
  /\ forall v ok, r = Ok (v, ok) -> knows c' v
     /\ (if ok then Some (read (c_h c') v) else None) = m !! read (c_h c) k.
Proof.
  intros Ha Hkn. unfold c_get. destruct (shared_Get _ _ _) as [r' [h e]] eqn:Hg. intros [= <- <-].
  pose proof Ha as [Hh Ho Hk _ _]. cbn in Hh, Ho, Hk. unfold knows in Hkn.
  destruct (ctx_Err ctx) as [err|] eqn:Hctx.
  { destruct (shared_refused ctx err _ _ _ Hh Hctx) as [Hr _]. rewrite Hr in Hg.
    injection Hg as <- <- <-. split; [by destruct c|]. done. }
  destruct (shared_Get_live ctx k _ _ _ r' h e Hh) as (Hka & Hh' & Hr); [set_solver|set_solver|done|done|].
  pose proof (ka_new _ _ _ _ Hka) as Hnew. destruct r' as [[v ok]|err]; cbn.
  - destruct Hr as (-> & Hr & Hl). split_and!; [|set_solver|by left|].
    + apply (apart_grow c m); [done..|set_solver|set_solver|]. set_solver.
    + intros v' ok' [= <- <-]. split; [unfold knows; cbn; set_solver|]. rewrite Hr.
      by destruct (m !! read (c_h c) k).
  - split_and!; [|done|by right|done]. apply (apart_grow c m); [done..|set_solver|]. set_solver.
Qed.

Lemma client_step_values c a ks c' :
  apart c a -> client_step c ks c' -> exists a', a' ∈ run_values ks a /\ apart c' a'.
Proof.
  destruct a as [m b]. intros Ha Hs.
  inversion Hs as [? bs r ? Hc|? s bs r ? Hk Hc|? i k v r ? Hk Hv Hc|? i k r ? Hk Hc|? ctx i sync r ? Hc
    |? ctx k v ok ? Hk Hc|? ctx k err ? Hk Hc]; subst.
  - eexists. split; [by left|]. by apply (apart_make _ _ _ _ _ Ha Hc).
  - eexists. split; [by left|]. by eapply apart_write.
  - eexists. split; [by left|]. by apply (apart_set _ _ _ _ _ _ _ _ Ha Hk Hv Hc).
  - eexists. split; [by left|]. by eapply apart_delete.
  - destruct (apart_apply _ _ _ _ _ _ _ _ Ha Hc) as (_ & (a & Hin & Ha') & _).
    exists a. split; [|done]. by apply elem_of_possible_1.
  - destruct (apart_get _ _ _ _ _ _ _ Ha Hk Hc) as (Ha' & _ & _ & Hr). destruct (Hr v ok eq_refl) as [_ Hv].
    exists (m, b). split; [|done]. apply elem_of_possible_1. cbn. rewrite Hv, decide_True by done. by left.
  - eexists. split; [by left|]. by apply (apart_get _ _ _ _ _ _ _ Ha Hk Hc).
Qed.

Lemma client_run_values c a ks c' :
  apart c a -> client_run c ks c' -> exists a', a' ∈ run_values ks a /\ apart c' a'.
Proof.
  intros Ha Hr. revert a Ha. induction Hr as [c|c1 l1 c2 l2 c3 Hs _ IH]; intros a Ha; [exists a; by split; [left|]|].
  destruct (client_step_values c1 a l1 c2 Ha Hs) as (a2 & Hv & Ha2). destruct (IH a2 Ha2) as (a3 & Hv3 & Ha3).
  exists a3. split; [|done]. by eapply elem_of_possible_app.
Qed.

(** A call that succeeds, or fails when it may. *)
Definition or_fails {A} (r : result error A) (P : A -> Prop) : Prop :=
  match r with Ok a => P a | Err _ => shared_fallible end.

Lemma get_live c m b k bs v r c' :
  apart c (m, b) -> knows c k -> read (c_h c) k = bs -> m !! bs = Some v -> c_get background k c = (r, c') ->
  or_fails r (fun '(s, ok) => ok = true /\ apart c' (m, b) /\ knows c' s /\ read (c_h c') s = v).
Proof.
  intros Ha Hkn Hk Hm Hg. destruct (apart_get _ _ _ _ _ _ _ Ha Hkn Hg) as (Ha' & _ & Hok & Hr).
  destruct (Hok eq_refl) as [?|Hf]; destruct r as [[s ok]|err]; cbn; try done;
    (destruct (Hr s ok eq_refl) as [Hs Hv]; rewrite Hk, Hm in Hv; destruct ok; [|done]; by injection Hv as Hv).
Qed.

Lemma make_live c a bs :
  apart c a -> exists s c', c_make bs c = (Ok s, c') /\ apart c' a /\ knows c' s /\ read (c_h c') s = bs
    /\ forall s', knows c s' -> knows c' s' /\ read (c_h c') s' = read (c_h c) s'.
Proof.
  intros Ha. destruct (c_make bs c) as [r c'] eqn:Hm.
  destruct (apart_make _ _ _ _ _ Ha Hm) as (Ha' & s & -> & Hs & Hr). exists s, c'. split_and!; try done.
  intros s' Hs'. unfold c_make in Hm. destruct (make bs (c_h c)) as [s1 h1] eqn:Hmk.
  injection Hm as -> <-. apply make_new in Hmk. unfold knows in *. cbn in *. split; [set_solver|].
  apply read_mono; [apply Hmk|]. apply locs_valid. pose proof (ap_known _ _ Ha). set_solver.
Qed.

Lemma write_live c a s bs : apart c a -> knows c s ->
  exists c', c_write s bs c = (Ok tt, c') /\ apart c' a /\ c_known c' = c_known c.
Proof.
  intros Ha Hs. eexists. split; [reflexivity|]. split; [|done].
  by apply (apart_write c a s bs (Ok tt) _ Ha Hs).
Qed.

(** The rest of a monadic run after a call that may fail. *)
Lemma bind_or_fails {A B} (x : M error (client E) A) (f : A -> M error (client E) B) c (P : B -> Prop) :
  (forall r c', x c = (r, c') -> or_fails r (fun a => or_fails (f a c').1 P)) -> or_fails ((x ≫= f) c).1 P.
Proof.
  intros Hx. unfold mbind, M_bind. destruct (x c) as [[a|err] c'] eqn:Hxc; exact (Hx _ _ eq_refl).
Qed.

Lemma copies_test_passes h e :
  apart (mkClient h e ∅ ∅) (∅, ∅) -> or_fails (contractValuesAreCopies (mkClient h e ∅ ∅)).1 (fun ok => ok = true).
Proof.
  intros Ha. unfold contractValuesAreCopies.
  destruct (make_live _ _ (B "k") Ha) as (key & c1 & Hc1 & Ha1 & Hk1 & Hr1 & _).
  rewrite (bind_ok _ _ _ _ _ Hc1).
  destruct (make_live _ _ (B "original") Ha1) as (value & c2 & Hc2 & Ha2 & Hk2 & Hr2 & Hkeep).
  rewrite (bind_ok _ _ _ _ _ Hc2). destruct (Hkeep key Hk1) as [Hk1' Hr1']. rewrite Hr1 in Hr1'.
  destruct (c_set 0 key value c2) as [r3 c3] eqn:Hc3.
  destruct (apart_set _ _ _ _ _ _ _ _ Ha2 Hk1' Hk2 Hc3) as (-> & Hkn3 & Ha3). rewrite (bind_ok _ _ _ _ _ Hc3).
  rewrite Hr1', Hr2 in Ha3. unfold knows in Hk1', Hk2. rewrite <- Hkn3 in Hk1', Hk2.
  destruct (write_live _ _ value (B "Xriginal") Ha3 Hk2) as (c4 & Hc4 & Ha4 & Hkn4).
  rewrite (bind_ok _ _ _ _ _ Hc4). rewrite <- Hkn4 in Hk1'.
  destruct (write_live _ _ key (B "X") Ha4 Hk1') as (c5 & Hc5 & Ha5 & _). rewrite (bind_ok _ _ _ _ _ Hc5).
  apply bind_or_fails. intros r6 c6 Hc6.
  destruct (apart_apply _ _ _ _ _ _ _ _ Ha5 Hc6) as (_ & (a6 & Hin & Ha6) & Hok).
  destruct (Hok eq_refl) as [->|[Hf Hr6]]; [|by destruct r6].
  apply list_elem_of_singleton in Hin as ->. cbn [or_fails]. set (m := apply_batch _ _) in Ha6.
  assert (m !! B "k" = Some (B "original")) as Hm by reflexivity.
  destruct (make_live _ _ (B "k") Ha6) as (k & c7 & Hc7 & Ha7 & Hk7 & Hr7 & _). rewrite (bind_ok _ _ _ _ _ Hc7).
  apply bind_or_fails. intros r8 c8 Hc8. pose proof (get_live _ _ _ k _ _ _ _ Ha7 Hk7 Hr7 Hm Hc8) as Hg8.
  destruct r8 as [[got ok]|]; [|done]. destruct Hg8 as (-> & Ha8 & Hk8 & Hr8). cbn [or_fails].
  rewrite (bind_ok (c_read got) _ _ _ _ eq_refl), Hr8.
  destruct (write_live _ _ got (B "Yriginal") Ha8 Hk8) as (c9 & Hc9 & Ha9 & _). rewrite (bind_ok _ _ _ _ _ Hc9).
  destruct (make_live _ _ (B "k") Ha9) as (k2 & c10 & Hc10 & Ha10 & Hk10 & Hr10 & _).
  rewrite (bind_ok _ _ _ _ _ Hc10).
  apply bind_or_fails. intros r11 c11 Hc11. pose proof (get_live _ _ _ k2 _ _ _ _ Ha10 Hk10 Hr10 Hm Hc11) as Hg11.
  destruct r11 as [[again ok]|]; [|done]. destruct Hg11 as (_ & _ & _ & Hr11). cbn [or_fails].
  by rewrite (bind_ok (c_read again) _ _ _ _ eq_refl), Hr11.
Qed.

Lemma apart_empty h e :
  shared_holds h e ∅ -> shared_owns e ⊆ dom h -> apart (mkClient h e ∅ ∅) (∅, ∅).
Proof.
  intros Hh Ho. split; cbn; [done|set_solver|set_solver| |].
  - intros i op. unfold batch_of. cbn. rewrite lookup_empty. cbn. set_solver.
  - intros i. unfold batch_of. cbn. by rewrite !lookup_empty.
Qed.

(** Both parts of what the copies guarantee. *)
Lemma copies_hold h e :
  shared_holds h e ∅ -> shared_owns e ⊆ dom h ->
  (forall ks c', client_run (mkClient h e ∅ ∅) ks c' ->
     exists m bs, (m, bs) ∈ run_values ks (∅, ∅) /\ shared_holds (c_h c') (c_e c') m)
  /\ or_fails (contractValuesAreCopies (mkClient h e ∅ ∅)).1 (fun ok => ok = true).
Proof.
  intros Hh Ho. pose proof (apart_empty h e Hh Ho) as Ha. split; [|by apply copies_test_passes].
  intros ks c' Hr. destruct (client_run_values _ _ _ _ Ha Hr) as ([m bs] & Hv & Ha').
  exists m, bs. split; [done|]. apply Ha'.
Qed.
End copies.

(** C27: Keys and values are copied wherever they cross the engine interface. A
    caller builds batches from its slices, applies them, reads values, and
    overwrites any array it made or was given at any point in between, and the
    engine may overwrite its own. Every read then returns what the same calls on
    immutable values return, with the values the slices had when they were
    passed, where a batch whose write failed was applied whole or not at all:
    writes of the caller never reach a batch or the engine. The contract test
    that tries this passes on every such engine, or reports that a call failed
    if the engine may fail. *)
Theorem values_are_copies E `{SharedSpec E} h (e : E) :
  shared_holds h e ∅ -> shared_owns e ⊆ dom h ->
  (forall ks c', client_run (mkClient h e ∅ ∅) ks c' ->
     exists m bs, (m, bs) ∈ run_values ks (∅, ∅) /\ shared_holds (c_h c') (c_e c') m)
  /\ match (contractValuesAreCopies (mkClient h e ∅ ∅)).1 with
     | Ok passed => passed = true
     | Err _ => shared_fallible
     end.
Proof. intros Hh Ho. exact (copies_hold h e Hh Ho). Qed.

Lemma values_are_copies_witness :
  (contractValuesAreCopies (mkClient ∅ (mkSharedMem ∅ false) ∅ ∅)).1 = Ok true.
Proof.
  destruct (values_are_copies sharedMem ∅ (mkSharedMem ∅ false)) as [_ H].
  - split; [reflexivity|]. split; [set_solver|reflexivity].
  - set_solver.
  - destruct (contractValuesAreCopies _).1 as [[]|]; [reflexivity|discriminate H|destruct H].
Defined.
