(* ===== verification/IterSlices.v ===== *)
(** * Iterators over shared slices (engine.go and memengine.go)

    What Slices.v is for [Get] and [Apply], for iterators: their keys and values
    are slices of the engine, valid until the next call of [Next], and the bounds
    are slices of the caller, which it may reuse at once. *)

From stdpp Require Import prelude gmap list sorting strings.
From Stdlib Require Import ZArith Lia.
From S2P Require Import Prelude GoBytes GoStrings Kverr Record Fs Segment Log Engine MemEngine EngineContract Slices.

Local Open Scope Z_scope.

(** ** The interface *)

(** The methods of [Iterator], and the arrays they work on. [Key] and [Value] return
    [None] where Go would panic. *)
Class SharedIterator (It : Type) := {
  shared_Next : It -> arrays -> bool * (It * arrays);
  shared_Key : It -> option slice;
  shared_Value : It -> option slice;
  shared_Err : It -> option error;
}.

(** The method of [Engine] that makes one. *)
Class SharedIterators (E It : Type) := {
  shared_NewIterator : Context -> slice -> slice -> M error (arrays * E) It;
}.

(** A nil bound leaves its side open. *)
Definition bound (h : arrays) (s : slice) : option bytes := match s with Some _ => Some (read h s) | None => None end.

Definition entry : Type := bytes * bytes.

(** The iterator stands on [cur]: what [Key] and [Value] return reads so, and is an
    array of the iterator. *)
Definition stands_on {It} `{SharedIterator It} (owns : gset nat) (h : arrays) (it : It) (cur : entry) : Prop :=
  exists k v, shared_Key it = Some k /\ shared_Value it = Some v /\ locs k ∪ locs v ⊆ owns
    /\ read h k = cur.1 /\ read h v = cur.2.

(** [iter_ahead h it es]: [es] is still to come, which depends on the arrays of the
    iterator only. *)
Class SharedIterLaws It `{SharedIterator It} := {
  iter_ahead : arrays -> It -> list entry -> Prop;
  iter_owns : It -> gset nat;
  iter_fallible : Prop;

  iter_frame h h' it es :
    iter_ahead h it es -> (forall l, l ∈ iter_owns it -> h' !! l = h !! l) -> iter_ahead h' it es;
  Next_live h it es ok it' h' :
    iter_ahead h it es -> iter_owns it ⊆ dom h -> shared_Next it h = (ok, (it', h')) ->
    keeps_apart (iter_owns it) (iter_owns it') h h'
    /\ match es with
       | [] => ok = false /\ iter_ahead h' it' [] /\ (shared_Err it' = None \/ iter_fallible)
       | e :: es' => (ok = true /\ stands_on (iter_owns it') h' it' e /\ iter_ahead h' it' es')
           \/ (ok = false /\ iter_fallible /\ is_Some (shared_Err it'))
       end;
}.

Class SharedIterSpec E It `{SharedSpec E} `{SharedIterLaws It} `{!SharedIterators E It} := {
  NewIterator_live ctx lower upper h e m r h' e' :
    shared_holds h e m -> shared_owns e ⊆ dom h -> locs lower ∪ locs upper ⊆ dom h ∖ shared_owns e ->
    ctx_Err ctx = None -> shared_NewIterator ctx lower upper (h, e) = (r, (h', e')) ->
    keeps_apart (shared_owns e) (shared_owns e') h h' /\ shared_holds h' e' m
    /\ match r with
       | Ok it => iter_owns it ⊆ dom h' ∖ dom h ∖ shared_owns e'
           /\ exists es, iter_ahead h' it es /\ shows m (bound h lower) (bound h upper) es
       | Err _ => shared_fallible
       end;
  NewIterator_refused ctx err lower upper h e m :
    shared_holds h e m -> ctx_Err ctx = Some err ->
    shared_NewIterator ctx lower upper (h, e) = (Err (kv (Wrap (ReasonOf (Some err)) (Some err) "")), (h, e));
}.

(** ** The in-memory engine *)

Record sharedMemIterator := mkSharedMemIterator { si_entries : list (slice * slice); si_pos : Z }.

Definition read_entry (h : arrays) (e : slice * slice) : entry := (read h e.1, read h e.2).

(** The loop over the map, in the order [visited]: [[]byte(k)] makes a new slice. *)
Fixpoint shared_collect (lower upper : slice) (visited : list (bytes * slice)) (h : arrays)
    : list (slice * slice) * arrays :=
  match visited with
  | [] => ([], h)
  | (k, v) :: rest =>
      let '(key, h1) := make k h in
      if match lower with Some _ => bool_decide (bytes_Compare (read h1 key) (read h1 lower) = Lt) | None => false end
      then shared_collect lower upper rest h1
      else if match upper with Some _ => bool_decide (bytes_Compare (read h1 key) (read h1 upper) <> Lt) | None => false end
      then shared_collect lower upper rest h1
      else let '(value, h2) := slices_Clone v h1 in
           let '(entries, h3) := shared_collect lower upper rest h2 in
           ((key, value) :: entries, h3)
  end.

(** [sort.Slice] by what the keys read. *)
Definition entry_order (h : arrays) (a b : slice * slice) : Prop := entry_le (read_entry h a) (read_entry h b).
#[export] Instance entry_order_dec h : RelDecision (entry_order h).
Proof. intros a b. unfold entry_order. apply _. Defined.
#[export] Instance entry_order_total h : Total (entry_order h).
Proof. intros a b. unfold entry_order. apply entry_le_total. Qed.
#[export] Instance entry_order_trans h : Transitive (entry_order h).
Proof. intros a b c. unfold entry_order. apply entry_le_trans. Qed.

Definition sharedMem_NewIterator (ctx : Context) (lower upper : slice) : M error (arrays * sharedMem) sharedMemIterator :=
  sharedMem_usable ctx;;
  '(h, e) ← get_state;
  let '(entries, h') := shared_collect lower upper (map_to_list (sm_data e)) h in
  put_state (h', e);;
  mret (mkSharedMemIterator (merge_sort (entry_order h') entries) (-1)).

Definition sharedMemIterator_Next (i : sharedMemIterator) (h : arrays) : bool * (sharedMemIterator * arrays) :=
  let pos := if si_pos i <? len (si_entries i) then si_pos i + 1 else si_pos i in
  (pos <? len (si_entries i), (mkSharedMemIterator (si_entries i) pos, h)).

(** [i.entries[i.pos]] *)
Definition sharedMemIterator_entry (i : sharedMemIterator) : option (slice * slice) :=
  if si_pos i <? 0 then None else si_entries i !! Z.to_nat (si_pos i).

Definition sharedMemIterator_Key (i : sharedMemIterator) : option slice := fst <$> sharedMemIterator_entry i.
Definition sharedMemIterator_Value (i : sharedMemIterator) : option slice := snd <$> sharedMemIterator_entry i.

#[export] Instance sharedMem_SharedIterators : SharedIterators sharedMem sharedMemIterator := {
  shared_NewIterator := sharedMem_NewIterator;
}.

#[export] Instance sharedMemIterator_SharedIterator : SharedIterator sharedMemIterator := {
  shared_Next := sharedMemIterator_Next;
  shared_Key := sharedMemIterator_Key;
  shared_Value := sharedMemIterator_Value;
  shared_Err _ := None;
}.

(** *** The snapshot *)

Definition entries_locs (es : list (slice * slice)) : gset nat := ⋃ ((fun e => locs e.1 ∪ locs e.2) <$> es).
Arguments entries_locs : simpl never.

Lemma elem_of_entries_locs es l : l ∈ entries_locs es <-> exists e, e ∈ es /\ l ∈ locs e.1 ∪ locs e.2.
Proof.
  unfold entries_locs. rewrite elem_of_union_list. setoid_rewrite list_elem_of_fmap. naive_solver.
Qed.

Lemma read_entries_frame h h' es :
  (forall l, l ∈ entries_locs es -> h' !! l = h !! l) -> read_entry h' <$> es = read_entry h <$> es.
Proof.
  intros Hf. apply list_fmap_ext. intros i e He%list_elem_of_lookup_2. unfold read_entry.
  assert (forall s, locs s ⊆ locs e.1 ∪ locs e.2 -> read h' s = read h s) as Hr.
  { intros [l|] Hl; [|done]. unfold read. cbn. cbn in Hl. rewrite Hf; [done|]. apply elem_of_entries_locs.
    exists e. split; [done|]. set_solver. }
  by rewrite !Hr by set_solver.
Qed.

Lemma bound_mono h h' s : h ⊆ h' -> valid h s -> bound h' s = bound h s.
Proof. intros Hs Hv. destruct s as [l|]; [|done]. unfold bound. by rewrite (read_mono h h'). Qed.

Lemma new_locs bs h s h' : new_slice bs h s h' -> locs s ⊆ dom h' ∖ dom h.
Proof.
  intros [_ _ Hv Hf _]. destruct s as [l|]; cbn; [|set_solver].
  specialize (Hv l eq_refl). specialize (Hf l eq_refl). set_solver.
Qed.

(** The loop collects new slices of the entries in range. *)
Lemma shared_collect_spec lower upper visited : forall h es h',
  valid h lower -> valid h upper -> Forall (fun kv => valid h kv.2) visited ->
  shared_collect lower upper visited h = (es, h') ->
  h ⊆ h' /\ entries_locs es ⊆ dom h' ∖ dom h
  /\ read_entry h' <$> es
     = collect_range (bound h lower) (bound h upper) ((fun kv => (kv.1, read h kv.2)) <$> visited).
Proof.
  induction visited as [|[k v] rest IH]; intros h es h' Hl Hu Hv; cbn [shared_collect].
  { intros [= <- <-]. split_and!; [done|by apply empty_subseteq|done]. }
  apply Forall_cons in Hv as [Hv Hrest]. cbn in Hv.
  destruct (make k h) as [key h1] eqn:Hm. apply make_new in Hm as Hnew. pose proof Hnew as [Hs1 Hr1 Hv1 _ _].
  assert (forall h2 es2, h ⊆ h2 -> shared_collect lower upper rest h2 = (es2, h') ->
    h ⊆ h' /\ h2 ⊆ h' /\ entries_locs es2 ⊆ dom h' ∖ dom h2
    /\ read_entry h' <$> es2
       = collect_range (bound h lower) (bound h upper) ((fun kv => (kv.1, read h kv.2)) <$> rest)) as Hgo.
  { intros h2 es2 Hs2 Hc. destruct (IH h2 es2 h') as (Hs' & Hn & Hr); [by eapply valid_mono..| |done|].
    - eapply Forall_impl; [exact Hrest|]. intros kv Hkv. by eapply valid_mono.
    - split_and!; [by etrans|done|done|]. rewrite Hr. rewrite !(bound_mono h h2) by done. f_equal.
      apply list_fmap_ext. intros i kv Hi. f_equal. apply read_mono; [done|]. exact (Forall_lookup_1 _ _ _ _ Hrest Hi). }
  pose proof (subseteq_dom _ _ Hs1) as Hd1.
  rewrite Hr1, (read_mono h h1 lower), (read_mono h h1 upper) by done. cbn [fmap list_fmap collect_range fst snd].
  set (below := match lower with Some _ => _ | None => false end). set (above := match upper with Some _ => _ | None => false end).
  replace (match bound h lower with Some l => bool_decide (bytes_Compare k l = Lt) | None => false end) with below
    by (by destruct lower).
  replace (match bound h upper with Some u => bool_decide (bytes_Compare k u <> Lt) | None => false end) with above
    by (by destruct upper).
  destruct below; [|destruct above].
  1,2: intros Hc; destruct (Hgo h1 es Hs1 Hc) as (? & ? & ? & ?); split_and!; [done|set_solver|done].
  destruct (slices_Clone v h1) as [value h2] eqn:Hcl. apply Clone_new in Hcl as Hnew2. pose proof Hnew2 as [Hs2 Hr2 Hv2 _ _].
  destruct (shared_collect lower upper rest h2) as [es2 h3] eqn:Hc. intros [= <- <-].
  destruct (Hgo h2 es2 ltac:(by etrans) Hc) as (Hs & Hs3 & Hn & Hr). pose proof (subseteq_dom _ _ Hs2) as Hd2.
  pose proof (subseteq_dom _ _ Hs3) as Hd3. split_and!; [done| |].
  - pose proof (new_locs _ _ _ _ Hnew). pose proof (new_locs _ _ _ _ Hnew2).
    unfold entries_locs. cbn. fold (entries_locs es2). set_solver.
  - cbn. rewrite Hr. f_equal. unfold read_entry. cbn. f_equal.
    + rewrite (read_mono h2 h3) by (done || by eapply valid_mono). by rewrite (read_mono h1 h2).
    + by rewrite (read_mono h2 h3), Hr2, (read_mono h h1).
Qed.

Lemma StronglySorted_fmap {A B} (f : A -> B) (R : relation B) (l : list A) :
  StronglySorted (fun x y => R (f x) (f y)) l -> StronglySorted R (f <$> l).
Proof.
  induction 1 as [|x l Hs IH Hx]; cbn; constructor; [done|]. by apply Forall_fmap.
Qed.

Lemma collected_shows lower upper (h h' : arrays) data m es :
  m = read h <$> data -> read_entry h' <$> es
    = collect_range lower upper ((fun kv => (kv.1, read h kv.2)) <$> map_to_list data) ->
  shows m lower upper (read_entry h' <$> merge_sort (entry_order h') es).
Proof.
  intros -> Hes. apply sorted_shows.
  - rewrite merge_sort_Permutation, Hes, collect_range_filter. by rewrite map_to_list_fmap.
  - apply StronglySorted_fmap. exact (StronglySorted_merge_sort (entry_order h') es).
Qed.

Lemma entries_locs_perm es es' : es ≡ₚ es' -> entries_locs es = entries_locs es'.
Proof.
  intros Hp. apply set_eq. intros l. rewrite !elem_of_entries_locs. by setoid_rewrite Hp.
Qed.

(** The iterator of MemEngine.v that this one is. *)
Definition mem_view (h : arrays) (i : sharedMemIterator) : memIterator :=
  mkMemIterator (read_entry h <$> si_entries i) (si_pos i).

Lemma mem_view_Next h i ok i' h' :
  sharedMemIterator_Next i h = (ok, (i', h')) -> h' = h /\ si_entries i' = si_entries i
  /\ memIterator_Next (mem_view h i) = (ok, mem_view h i').
Proof.
  unfold sharedMemIterator_Next, memIterator_Next, mem_view. intros [= <- <- <-]. cbn. unfold len.
  by rewrite length_fmap.
Qed.

Lemma mem_view_entry h i e :
  memIterator_entry (mem_view h i) = Some e ->
  exists kv, sharedMemIterator_entry i = Some kv /\ read_entry h kv = e /\ kv ∈ si_entries i.
Proof.
  unfold memIterator_entry, sharedMemIterator_entry. cbn. destruct (si_pos i <? 0); [done|].
  rewrite list_lookup_fmap. destruct (si_entries i !! _) as [kv|] eqn:Hkv; [|done]. intros [= <-].
  exists kv. split_and!; [done|done|by eapply list_elem_of_lookup_2].
Qed.

#[export] Instance sharedMemIterator_SharedIterLaws : SharedIterLaws sharedMemIterator.
Proof.
  refine {| iter_ahead h it es := mem_ahead (mem_view h it) es; iter_owns it := entries_locs (si_entries it);
            iter_fallible := False |}.
  - intros h h' it es Ha Hf. unfold mem_view in *. by rewrite (read_entries_frame h h') by done.
  - intros h it es ok it' h' Ha Ho Hn. cbn in Hn. apply mem_view_Next in Hn as (-> & He & Hn).
    split; [rewrite He; by apply keeps_apart_grows|]. pose proof (mem_Next _ _ _ _ Ha Hn) as Hx.
    destruct es as [|[k v] es].
    + destruct Hx as [-> Hx]. split_and!; [done|done|by left].
    + left. destruct Hx as (-> & Hcur & Hx). split_and!; [done| |done].
      apply mem_view_entry in Hcur as (kv & Hkv & [= <- <-] & Hin). exists kv.1, kv.2. cbn.
      unfold sharedMemIterator_Key, sharedMemIterator_Value. rewrite Hkv. split_and!; [done..| |done|done].
      intros l Hl. apply elem_of_entries_locs. by exists kv.
Defined.

#[export] Instance sharedMem_SharedIterSpec : SharedIterSpec sharedMem sharedMemIterator.
Proof.
  split.
  - intros ctx lower upper h e m r h' e' [Hc Hm] Ho Hb Hctx. cbn. unfold sharedMem_NewIterator, sharedMem_usable.
    unfold get_state, put_state, mbind, M_bind, mret, M_ret. rewrite Hc, Hctx.
    destruct (shared_collect lower upper (map_to_list (sm_data e)) h) as [es h1] eqn:Hcol. intros [= <- <- <-].
    assert (locs lower ⊆ dom h /\ locs upper ⊆ dom h) as [Hlo Hup] by (cbn in Hb; set_solver).
    apply shared_collect_spec in Hcol as (Hs & Hn & Hr); [|by apply locs_valid..|].
    2:{ apply Forall_forall. intros [k v] Hin%elem_of_map_to_list. by eapply mem_valid. }
    split; [by apply keeps_apart_grows|]. split; [split; [done|by eapply mem_frame_grows]|].
    cbn. split.
    + rewrite (entries_locs_perm _ es) by (by rewrite merge_sort_Permutation). cbn in Ho. set_solver.
    + eexists. split; [|eapply collected_shows; [apply Hm|exact Hr]].
      unfold mem_ahead, mem_view. cbn. unfold len. split; [lia|done].
  - intros ctx err lower upper h e m [Hc _] Hctx. cbn.
    unfold sharedMem_NewIterator, sharedMem_usable, mbind, M_bind. by rewrite Hc, Hctx.
Qed.

(** ** Readers *)

(** The store, the engine, the caller's iterators, each with whether its last [Next]
    returned true, and the arrays the caller knows. *)
Record reader (E It : Type) := mkReader {
  r_h : arrays;
  r_e : E;
  r_iters : gmap nat (It * bool);
  r_known : gset nat;
}.
Arguments mkReader {E It} _ _ _ _.
Arguments r_h {E It} _.
Arguments r_e {E It} _.
Arguments r_iters {E It} _.
Arguments r_known {E It} _.

(** What a caller asked and saw, in values at the time of the call. *)
Inductive ask :=
| QApply (ops : list Op) (how : applied)
| QGet (key : bytes) (value : option bytes)
| QNewIterator (i : nat) (lower upper : option bytes)
| QNext (i : nat) (ok : bool)
| QNextFailed (i : nat)
| QEntry (i : nat) (key value : bytes).

Section reader.
Context {E It : Type} `{SharedEngine E} `{SharedIterator It} `{!SharedIterators E It}.

(** The caller makes slices and overwrites those it made or got from [Get], applies
    operations, reads, and moves iterators; it looks at the key and value of an
    iterator after a [Next] that returned true, at any time before the next one. *)
Inductive reader_step : reader E It -> list ask -> reader E It -> Prop :=
| rs_make c bs s h : make bs (r_h c) = (s, h) ->
    reader_step c [] (mkReader h (r_e c) (r_iters c) (locs s ∪ r_known c))
| rs_write c l bs : l ∈ r_known c ->
    reader_step c [] (mkReader (<[l := bs]> (r_h c)) (r_e c) (r_iters c) (r_known c))
| rs_apply c ctx b sync r h e :
    Forall (fun op => op_locs op ⊆ r_known c) b -> shared_Apply ctx b sync (r_h c, r_e c) = (r, (h, e)) ->
    reader_step c [QApply (op_of (r_h c) <$> b) (outcome ctx r)] (mkReader h e (r_iters c) (r_known c))
| rs_get c ctx k v ok h e :
    locs k ⊆ r_known c -> shared_Get ctx k (r_h c, r_e c) = (Ok (v, ok), (h, e)) ->
    reader_step c [QGet (read (r_h c) k) (if ok : bool then Some (read h v) else None)]
      (mkReader h e (r_iters c) (locs v ∪ r_known c))
| rs_get_failed c ctx k err h e :
    locs k ⊆ r_known c -> shared_Get ctx k (r_h c, r_e c) = (Err err, (h, e)) ->
    reader_step c [] (mkReader h e (r_iters c) (r_known c))
| rs_new c ctx i lower upper it h e lo up :
    locs lower ∪ locs upper ⊆ r_known c -> bound (r_h c) lower = lo -> bound (r_h c) upper = up ->
    shared_NewIterator ctx lower upper (r_h c, r_e c) = (Ok it, (h, e)) ->
    reader_step c [QNewIterator i lo up]
      (mkReader h e (<[i := (it, false)]> (r_iters c)) (r_known c))
| rs_new_failed c ctx lower upper err h e :
    locs lower ∪ locs upper ⊆ r_known c -> shared_NewIterator ctx lower upper (r_h c, r_e c) = (Err err, (h, e)) ->
    reader_step c [] (mkReader h e (r_iters c) (r_known c))
| rs_next c i it on ok it' h :
    r_iters c !! i = Some (it, on) -> shared_Next it (r_h c) = (ok, (it', h)) -> (ok = true \/ shared_Err it' = None) ->
    reader_step c [QNext i ok] (mkReader h (r_e c) (<[i := (it', ok)]> (r_iters c)) (r_known c))
| rs_next_failed c i it on it' h err :
    r_iters c !! i = Some (it, on) -> shared_Next it (r_h c) = (false, (it', h)) -> shared_Err it' = Some err ->
    reader_step c [QNextFailed i] (mkReader h (r_e c) (delete i (r_iters c)) (r_known c))
| rs_entry c i it k v key value :
    r_iters c !! i = Some (it, true) -> shared_Key it = Some k -> shared_Value it = Some v ->
    read (r_h c) k = key -> read (r_h c) v = value -> reader_step c [QEntry i key value] c.

Inductive reader_run : reader E It -> list ask -> reader E It -> Prop :=
| rr_nil c : reader_run c [] c
| rr_step c1 l1 c2 l2 c3 : reader_step c1 l1 c2 -> reader_run c2 l2 c3 -> reader_run c1 (l1 ++ l2) c3.
End reader.

(** The same on values: an iterator is the entry it stands on and those to come. *)
Abbreviation reading := (contents * gmap nat (option entry * list entry))%type.

Definition on_reading (q : ask) (a : reading) : list reading :=
  let '(m, its) := a in
  match q with
  | QApply ops Applied => [(foldl apply_op m ops, its)]
  | QApply ops Refused => [(m, its)]
  | QApply ops Failed => [(m, its); (foldl apply_op m ops, its)]
  | QGet key r => if decide (r = m !! key) then [(m, its)] else []
  | QNewIterator i lower upper => [(m, <[i := (None, sorted_range lower upper (map_to_list m))]> its)]
  | QNext i ok =>
      match ok, its !! i with
      | true, Some (_, e :: es) => [(m, <[i := (Some e, es)]> its)]
      | false, Some (_, []) => [(m, <[i := (None, [])]> its)]
      | _, _ => []
      end
  | QNextFailed i => [(m, delete i its)]
  | QEntry i key value =>
      match its !! i with
      | Some (Some e, _) => if decide (e = (key, value)) then [(m, its)] else []
      | _ => []
      end
  end.

Definition run_reading (qs : list ask) (a : reading) : list reading :=
  possible on_reading qs a.

(** ** Iterators are snapshots *)

Section snapshots.
Context {E It : Type} `{SharedIterSpec E It}.

(** The iterator [it] is what the values say, with arrays of its own. *)
Definition iter_is (h : arrays) (others : gset nat) (x : It * bool) (y : option entry * list entry) : Prop :=
  iter_ahead h x.1 y.2 /\ iter_owns x.1 ⊆ dom h ∖ others
  /\ (if x.2 then exists e, y.1 = Some e /\ stands_on (iter_owns x.1) h x.1 e else y.1 = None).

Record rapart (c : reader E It) (a : reading) : Prop := {
  ra_holds : shared_holds (r_h c) (r_e c) a.1;
  ra_owns : shared_owns (r_e c) ⊆ dom (r_h c) ∖ r_known c;
  ra_known : r_known c ⊆ dom (r_h c);
  ra_iters i : option_Forall2 (iter_is (r_h c) (r_known c ∪ shared_owns (r_e c))) (r_iters c !! i) (a.2 !! i);
  ra_disjoint i j x y : i <> j -> r_iters c !! i = Some x -> r_iters c !! j = Some y -> iter_owns x.1 ## iter_owns y.1;
}.

Lemma stands_on_frame (owns : gset nat) (h h' : arrays) (it : It) e :
  (forall l, l ∈ owns -> h' !! l = h !! l) -> stands_on owns h it e -> stands_on owns h' it e.
Proof.
  intros Hf (k & v & Hk & Hv & Hl & Hrk & Hrv). exists k, v.
  assert (forall s, locs s ⊆ owns -> read h' s = read h s) as Hr.
  { intros [l|] Hs; [|done]. unfold read. cbn. cbn in Hs. rewrite Hf; [done|]. set_solver. }
  split_and!; [done..| |]; rewrite Hr; done || set_solver.
Qed.

Lemma iter_is_frame h h' others others' x y :
  (forall l, l ∈ iter_owns x.1 -> h' !! l = h !! l) -> iter_owns x.1 ⊆ dom h' ∖ others' ->
  iter_is h others x y -> iter_is h' others' x y.
Proof.
  intros Hf Ho (Ha & _ & Hc). split_and!; [by eapply iter_frame|done|].
  destruct x.2; [|done]. destruct Hc as (e & He & Hs). exists e. split; [done|]. by eapply stands_on_frame.
Qed.

Lemma ra_owned c a i x : rapart c a -> r_iters c !! i = Some x ->
  iter_owns x.1 ⊆ dom (r_h c) ∖ (r_known c ∪ shared_owns (r_e c)).
Proof. intros Ha Hx. pose proof (ra_iters _ _ Ha i) as Hi. rewrite Hx in Hi. inversion Hi as [? ? (_ & ? & _)|]. done. Qed.

(** A step of the caller or the engine leaves the iterators alone. *)
Lemma rapart_other c m its h' e' m' known' :
  rapart c (m, its) -> dom (r_h c) ⊆ dom h' ->
  (forall l, l ∈ dom (r_h c) ∖ (r_known c ∪ shared_owns (r_e c)) -> h' !! l = r_h c !! l) ->
  shared_holds h' e' m' -> shared_owns e' ⊆ dom h' ∖ known' -> known' ⊆ dom h' ->
  known' ∪ shared_owns e' ⊆ r_known c ∪ shared_owns (r_e c) ∪ (dom h' ∖ dom (r_h c)) ->
  rapart (mkReader h' e' (r_iters c) known') (m', its).
Proof.
  intros Ha Hd Hs Hh Ho Hk Hnew. split; cbn; [done|done|done| |apply Ha].
  intros i. pose proof (ra_iters _ _ Ha i) as Hi. cbn in Hi.
  destruct (r_iters c !! i) as [x|] eqn:Hx; inversion Hi as [? y Hxy|]; subst; constructor.
  pose proof (ra_owned _ _ _ _ Ha Hx) as Hox. eapply iter_is_frame; [| |exact Hxy].
  - intros l Hl. apply Hs. set_solver.
  - set_solver.
Qed.

Lemma rapart_call c m its h' e' m' known' :
  rapart c (m, its) -> keeps_apart (shared_owns (r_e c)) (shared_owns e') (r_h c) h' -> shared_holds h' e' m' ->
  r_known c ⊆ known' -> known' ⊆ r_known c ∪ (dom h' ∖ dom (r_h c) ∖ shared_owns e') ->
  rapart (mkReader h' e' (r_iters c) known') (m', its).
Proof.
  intros Ha Hka Hh Hk1 Hk2. destruct Hka as [Hd Hs Hn Ho]. pose proof (ra_owns _ _ Ha). pose proof (ra_known _ _ Ha).
  apply (rapart_other c m its); [done|done| |done|set_solver|set_solver|set_solver].
  intros l Hl. apply Hs; set_solver.
Qed.

(** A new iterator, with new arrays. *)
Lemma rapart_add c m its i it es :
  rapart c (m, its) -> iter_ahead (r_h c) it es -> iter_owns it ⊆ dom (r_h c) ∖ (r_known c ∪ shared_owns (r_e c)) ->
  (forall j x, r_iters c !! j = Some x -> iter_owns it ## iter_owns x.1) ->
  rapart (mkReader (r_h c) (r_e c) (<[i := (it, false)]> (r_iters c)) (r_known c)) (m, <[i := (None, es)]> its).
Proof.
  intros [Hh Ho Hk Hi Hd] Hit Hown Hdis. split; cbn; [done..| |].
  - intros j. rewrite !lookup_insert. case_decide; [|apply Hi]. constructor. by split_and!.
  - intros j1 j2 x y Hne. rewrite !lookup_insert. repeat case_decide; subst; try done; [| |by apply Hd].
    + intros [= <-] Hy. by eapply Hdis.
    + intros Hx [= <-]. symmetry. by eapply Hdis.
Qed.

(** A move of the iterator [i]. *)
Lemma rapart_next c m its i x h' (y' : option ((It * bool) * (option entry * list entry))) :
  rapart c (m, its) -> r_iters c !! i = Some x ->
  (forall x', y' = Some x' -> keeps_apart (iter_owns x.1) (iter_owns x'.1.1) (r_h c) h'
     /\ iter_ahead h' x'.1.1 x'.2.2
     /\ (if x'.1.2 then exists e, x'.2.1 = Some e /\ stands_on (iter_owns x'.1.1) h' x'.1.1 e else x'.2.1 = None)) ->
  (exists owns', keeps_apart (iter_owns x.1) owns' (r_h c) h') ->
  rapart (mkReader h' (r_e c) (partial_alter (fun _ => fst <$> y') i (r_iters c)) (r_known c))
    (m, partial_alter (fun _ => snd <$> y') i its).
Proof.
  intros Ha Hx Hnew [owns' Hka]. pose proof (ra_owned _ _ _ _ Ha Hx) as Hox.
  pose proof Ha as [Hh Ho Hk Hi Hd]. cbn in Hh, Hi.
  assert (forall l, l ∈ dom (r_h c) -> l ∉ iter_owns x.1 -> h' !! l = r_h c !! l) as Hsame by apply Hka.
  pose proof (ka_dom _ _ _ _ Hka) as Hdom.
  assert (forall j y, j <> i -> r_iters c !! j = Some y ->
    iter_owns y.1 ⊆ dom (r_h c) ∖ (r_known c ∪ shared_owns (r_e c)) ∖ iter_owns x.1) as Hother.
  { intros j y Hne Hy. pose proof (ra_owned _ _ _ _ Ha Hy). pose proof (Hd j i y x Hne Hy Hx). set_solver. }
  split; cbn; [|set_solver|set_solver| |].
  - apply (shared_frame (r_h c)); [done|]. intros l Hl. apply Hsame; set_solver.
  - intros j. destruct (decide (i = j)) as [<-|Hne].
    + rewrite !lookup_partial_alter_eq. destruct y' as [[[it' on] [cur es]]|]; constructor.
      destruct (Hnew _ eq_refl) as (Hka' & Hahead & Hcur). cbn in *.
      split_and!; [done| |done]. cbn. destruct Hka' as [_ _ Hn Hown].
      clear -Hn Hown Hox Hk Ho Hdom. set_solver.
    + rewrite !lookup_partial_alter_ne by done. specialize (Hi j).
      destruct (r_iters c !! j) as [y|] eqn:Hy; inversion Hi as [? z Hyz|]; subst; constructor.
      pose proof (Hother j y ltac:(done) Hy) as Hoy. eapply iter_is_frame; [| |exact Hyz]; [|set_solver].
      intros l Hl. apply Hsame; set_solver.
  - assert (forall j y x', j <> i -> r_iters c !! j = Some y -> y' = Some x' -> iter_owns x'.1.1 ## iter_owns y.1) as Hdis.
    { intros j y x' Hne Hy ->. destruct (Hnew _ eq_refl) as ([_ _ Hn _] & _). pose proof (Hother j y Hne Hy) as Hoy.
      clear -Hn Hoy. set_solver. }
    intros j1 j2 y z Hne. destruct (decide (i = j1)) as [<-|], (decide (i = j2)) as [<-|]; try done;
      rewrite ?lookup_partial_alter_eq, ?lookup_partial_alter_ne by done.
    + intros (x' & Hx' & ->)%fmap_Some Hz. by eapply Hdis.
    + intros Hy (x' & Hx' & ->)%fmap_Some. symmetry. by eapply Hdis.
    + by apply Hd.
Qed.

(** *** Each step *)

(** What a call of Apply leaves. *)
Lemma rapart_apply c m its ctx b sync r h e :
  rapart c (m, its) -> Forall (fun op => op_locs op ⊆ r_known c) b ->
  shared_Apply ctx b sync (r_h c, r_e c) = (r, (h, e)) ->
  exists a', a' ∈ on_reading (QApply (op_of (r_h c) <$> b) (outcome ctx r)) (m, its)
    /\ rapart (mkReader h e (r_iters c) (r_known c)) a'.
Proof.
  intros Ha Hb Hap. pose proof (ra_holds _ _ Ha) as Hh. cbn in Hh. unfold outcome.
  destruct (ctx_Err ctx) as [err|] eqn:Hctx.
  { destruct (shared_refused ctx err _ _ _ Hh Hctx) as [_ Hr]. rewrite Hr in Hap. injection Hap as <- <- <-.
    exists (m, its). split; [by left|by destruct c]. }
  pose proof (ra_owns _ _ Ha). pose proof (ra_known _ _ Ha).
  destruct (shared_Apply_live ctx b sync _ _ _ r h e Hh) as [Hka Hh']; [set_solver| |done|done|].
  { eapply Forall_impl; [exact Hb|]. intros op Hop. set_solver. }
  assert (forall m', shared_holds h e m' -> rapart (mkReader h e (r_iters c) (r_known c)) (m', its)) as Hgo.
  { intros m' Hm'. by eapply rapart_call; [| | |done|set_solver]. }
  destruct r as [[]|err].
  - eexists. split; [by left|]. by apply Hgo.
  - destruct Hh' as [_ [Hh'|Hh']]; eexists; (split; [|by apply Hgo]); cbn; set_solver.
Qed.

Lemma rapart_get c m its ctx k r h e :
  rapart c (m, its) -> locs k ⊆ r_known c -> shared_Get ctx k (r_h c, r_e c) = (r, (h, e)) ->
  match r with
  | Ok (v, ok) => rapart (mkReader h e (r_iters c) (locs v ∪ r_known c)) (m, its)
      /\ (if ok then Some (read h v) else None) = m !! read (r_h c) k
  | Err _ => rapart (mkReader h e (r_iters c) (r_known c)) (m, its)
  end.
Proof.
  intros Ha Hk Hg. pose proof (ra_holds _ _ Ha) as Hh. cbn in Hh.
  destruct (ctx_Err ctx) as [err|] eqn:Hctx.
  { destruct (shared_refused ctx err _ _ _ Hh Hctx) as [Hr _]. rewrite Hr in Hg. injection Hg as <- <- <-.
    by destruct c. }
  pose proof (ra_owns _ _ Ha). pose proof (ra_known _ _ Ha).
  destruct (shared_Get_live ctx k _ _ _ r h e Hh) as (Hka & Hh' & Hr); [set_solver|set_solver|done|done|].
  destruct r as [[v ok]|err].
  - destruct Hr as (-> & Hr & Hl). split; [eapply rapart_call; [done|done|done|set_solver|set_solver]|].
    rewrite Hr. by destruct (m !! read (r_h c) k).
  - by eapply rapart_call; [| | |done|set_solver].
Qed.

Lemma rapart_new c m its ctx i lower upper r h e :
  rapart c (m, its) -> locs lower ∪ locs upper ⊆ r_known c ->
  shared_NewIterator ctx lower upper (r_h c, r_e c) = (r, (h, e)) ->
  match r with
  | Ok it => rapart (mkReader h e (<[i := (it, false)]> (r_iters c)) (r_known c))
      (m, <[i := (None, sorted_range (bound (r_h c) lower) (bound (r_h c) upper) (map_to_list m))]> its)
  | Err _ => rapart (mkReader h e (r_iters c) (r_known c)) (m, its)
  end.
Proof.
  intros Ha Hb Hn. pose proof (ra_holds _ _ Ha) as Hh. cbn in Hh.
  destruct (ctx_Err ctx) as [err|] eqn:Hctx.
  { rewrite (NewIterator_refused ctx err lower upper _ _ _ Hh Hctx) in Hn. injection Hn as <- <- <-. by destruct c. }
  pose proof (ra_owns _ _ Ha). pose proof (ra_known _ _ Ha).
  destruct (NewIterator_live ctx lower upper _ _ _ r h e Hh) as (Hka & Hh' & Hr); [set_solver|set_solver|done|done|].
  assert (rapart (mkReader h e (r_iters c) (r_known c)) (m, its)) as Ha'
    by (by eapply rapart_call; [| | |done|set_solver]).
  destruct r as [it|err]; [|done]. destruct Hr as (Hown & es & Hes & Hsh).
  rewrite (shows_unique _ _ _ _ _ (sorted_range_shows m (bound (r_h c) lower) (bound (r_h c) upper) _ ltac:(done)) Hsh).
  apply (rapart_add (mkReader h e (r_iters c) (r_known c))); cbn; [done|done|set_solver|].
  intros j x Hx. pose proof (ra_owned _ _ _ _ Ha Hx). set_solver.
Qed.

Lemma rapart_Next c m its i it on ok it' h :
  rapart c (m, its) -> r_iters c !! i = Some (it, on) -> shared_Next it (r_h c) = (ok, (it', h)) ->
  (ok = true \/ shared_Err it' = None) ->
  exists a', a' ∈ on_reading (QNext i ok) (m, its)
    /\ rapart (mkReader h (r_e c) (<[i := (it', ok)]> (r_iters c)) (r_known c)) a'.
Proof.
  intros Ha Hi Hn Hok. pose proof (ra_iters _ _ Ha i) as Hit. rewrite Hi in Hit. cbn in Hit.
  inversion Hit as [? [cur es] (Hahead & Hown & _) E1 E2|]; subst. cbn in Hahead, Hown.
  destruct (Next_live _ _ _ _ _ _ Hahead ltac:(set_solver) Hn) as [Hka Hx].
  destruct es as [|e es].
  - destruct Hx as (-> & Hx & _). exists (m, <[i := (None, [])]> its). cbn. rewrite <- E2. split; [by left|].
    apply (rapart_next c m its i (it, on) h (Some ((it', false), (None, [])))); [done|done| |by eexists].
    by intros x' [= <-].
  - destruct Hx as [(-> & Hst & Hx)|(-> & _ & [err Herr])]; [|destruct Hok; congruence].
    exists (m, <[i := (Some e, es)]> its). cbn. rewrite <- E2. split; [by left|].
    apply (rapart_next c m its i (it, on) h (Some ((it', true), (Some e, es)))); [done|done| |by eexists].
    intros x' [= <-]. split_and!; [done|done|]. by exists e.
Qed.

Lemma rapart_Next_failed c m its i it on ok it' h :
  rapart c (m, its) -> r_iters c !! i = Some (it, on) -> shared_Next it (r_h c) = (ok, (it', h)) ->
  rapart (mkReader h (r_e c) (delete i (r_iters c)) (r_known c)) (m, delete i its).
Proof.
  intros Ha Hi Hn. pose proof (ra_iters _ _ Ha i) as Hit. rewrite Hi in Hit. cbn in Hit.
  inversion Hit as [? [cur es] (Hahead & Hown & _) E1 E2|]; subst. cbn in Hahead, Hown.
  destruct (Next_live _ _ _ _ _ _ Hahead ltac:(set_solver) Hn) as [Hka _].
  apply (rapart_next c m its i (it, on) h None); [done|done|done|by eexists].
Qed.

Lemma rapart_entry c m its i it k v :
  rapart c (m, its) -> r_iters c !! i = Some (it, true) -> shared_Key it = Some k -> shared_Value it = Some v ->
  (m, its) ∈ on_reading (QEntry i (read (r_h c) k) (read (r_h c) v)) (m, its).
Proof.
  intros Ha Hi Hk Hv. pose proof (ra_iters _ _ Ha i) as Hit. rewrite Hi in Hit. cbn in Hit.
  inversion Hit as [? [cur es] (_ & _ & Hcur) E1 E2|]; subst. cbn in Hcur.
  destruct Hcur as ([key value] & -> & k' & v' & Hk' & Hv' & _ & Hrk & Hrv). cbn in Hrk, Hrv.
  assert (its !! i = Some (Some (key, value), es)) as Hits by (symmetry; exact E2). unfold on_reading. rewrite Hits.
  rewrite Hk in Hk'. rewrite Hv in Hv'. injection Hk' as <-. injection Hv' as <-.
  rewrite decide_True by congruence. by left.
Qed.

Lemma reader_step_values c a qs c' :
  rapart c a -> reader_step c qs c' -> exists a', a' ∈ run_reading qs a /\ rapart c' a'.
Proof.
  destruct a as [m its]. intros Ha Hs. pose proof (ra_owns _ _ Ha) as Ho. pose proof (ra_known _ _ Ha) as Hkn.
  destruct Hs as [c bs s h Hm|c l bs Hl|c ctx b sync r h e Hb Hap|c ctx k v ok h e Hk Hg|c ctx k err h e Hk Hg
    |c ctx i lower upper it h e lo up Hb <- <- Hn|c ctx lower upper err h e Hb Hn|c i it on ok it' h Hi Hn Hok
    |c i it on it' h err Hi Hn Herr|c i it k v key value Hi Hk Hv <- <-].
  - apply make_new in Hm as Hnew. exists (m, its). split; [by left|]. pose proof (new_locs _ _ _ _ Hnew).
    pose proof (new_grows _ _ _ _ Hnew) as Hgr.
    eapply rapart_call; [done|by apply keeps_apart_grows; [|set_solver]| |set_solver|set_solver].
    apply (shared_frame (r_h c)); [apply Ha|]. intros x Hx. assert (x ∈ dom (r_h c)) as [w Hw]%elem_of_dom by set_solver.
    by rewrite Hw, (lookup_weaken _ _ _ _ Hw Hgr).
  - exists (m, its). split; [by left|].
    apply (rapart_other c m its); [done|set_solver| | |set_solver|set_solver|set_solver].
    + intros x Hx. apply lookup_insert_ne. set_solver.
    + apply (shared_frame (r_h c)); [apply Ha|]. intros x Hx. apply lookup_insert_ne. set_solver.
  - destruct (rapart_apply _ _ _ _ _ _ _ _ _ Ha Hb Hap) as (a' & Hin & Ha'). exists a'. split; [|done]. by apply elem_of_possible_1.
  - destruct (rapart_get _ _ _ _ _ _ _ _ Ha Hk Hg) as [Ha' Hv]. exists (m, its). split; [|done].
    apply elem_of_possible_1. cbn. rewrite decide_True by done. by left.
  - exists (m, its). split; [by left|]. exact (rapart_get _ _ _ _ _ _ _ _ Ha Hk Hg).
  - eexists. split; [|exact (rapart_new _ _ _ _ i _ _ _ _ _ Ha Hb Hn)]. apply elem_of_possible_1. by left.
  - exists (m, its). split; [by left|]. exact (rapart_new _ _ _ _ 0%nat _ _ _ _ _ Ha Hb Hn).
  - destruct (rapart_Next _ _ _ _ _ _ _ _ _ Ha Hi Hn Hok) as (a' & Hin & Ha'). exists a'. split; [|done]. by apply elem_of_possible_1.
  - eexists. split; [|exact (rapart_Next_failed _ _ _ _ _ _ _ _ _ Ha Hi Hn)]. apply elem_of_possible_1. by left.
  - exists (m, its). split; [|done]. apply elem_of_possible_1. by eapply rapart_entry.
Qed.

Lemma reader_run_values c a qs c' :
  rapart c a -> reader_run c qs c' -> exists a', a' ∈ run_reading qs a /\ rapart c' a'.
Proof.
  intros Ha Hr. revert a Ha. induction Hr as [c|c1 l1 c2 l2 c3 Hs _ IH]; intros a Ha; [exists a; by split; [left|]|].
  destruct (reader_step_values c1 a l1 c2 Ha Hs) as (a2 & Hv & Ha2). destruct (IH a2 Ha2) as (a3 & Hv3 & Ha3).
  exists a3. split; [|done]. by eapply elem_of_possible_app.
Qed.

(** A reader that starts on an engine with nothing in its hands. *)
Lemma rapart_start h (e : E) m :
  shared_holds h e m -> shared_owns e ⊆ dom h -> rapart (mkReader h e (∅ : gmap nat (It * bool)) ∅) (m, ∅).
Proof.
  intros Hh Ho. split; cbn; [done|set_solver|set_solver| |].
  - intros i. rewrite !lookup_empty. constructor.
  - intros i j x y _. by rewrite lookup_empty.
Qed.
End snapshots.

(** C28: Iterators are snapshots, and their slices stay valid until the next [Next].
    A caller applies operations, reads values, creates iterators from bounds it may
    reuse at once, moves them in any order, and overwrites any array it made or was
    given. On every engine that keeps the laws, each iterator shows exactly the keys
    of its range at its creation, ascending, with the values they had then; [Next]
    returns false at the end and not before, except that it may report an error;
    and the key and value of an iterator read the same from one [Next] to the next,
    whatever happens in between. *)
Theorem iterators_are_snapshots E It `{SharedIterSpec E It} h (e : E) m qs (c' : reader E It) :
  shared_holds h e m -> shared_owns e ⊆ dom h -> reader_run (mkReader h e ∅ ∅) qs c' ->
  exists m' its, (m', its) ∈ run_reading qs (m, ∅) /\ shared_holds (r_h c') (r_e c') m'.
Proof.
  intros Hh Ho Hr. destruct (reader_run_values _ _ _ _ (rapart_start h e m Hh Ho) Hr) as ([m' its] & Hin & Ha).
  exists m', its. split; [done|]. apply Ha.
Qed.

(** An iterator over one key, whose lower bound is overwritten before it is moved. *)
Definition start_reader : reader sharedMem sharedMemIterator :=
  mkReader {[0%nat := B "v"]} (mkSharedMem {[B "k" := Some 0%nat]} false) ∅ ∅.
Definition bound_reader : reader sharedMem sharedMemIterator :=
  let '(s, h) := make (B "a") (r_h start_reader) in mkReader h (r_e start_reader) ∅ (locs s ∪ ∅).
Definition iter_reader : reader sharedMem sharedMemIterator :=
  match sharedMem_NewIterator background (Some 1%nat) None (r_h bound_reader, r_e bound_reader) with
  | (Ok it, (h, e)) => mkReader h e (<[0%nat := (it, false)]> ∅) (r_known bound_reader)
  | (Err _, _) => bound_reader
  end.
Definition written_reader : reader sharedMem sharedMemIterator :=
  mkReader (<[1%nat := B "z"]> (r_h iter_reader)) (r_e iter_reader) (r_iters iter_reader) (r_known iter_reader).
Definition moved_reader : reader sharedMem sharedMemIterator :=
  match r_iters written_reader !! 0%nat with
  | Some (it, _) =>
      let '(ok, (it', h)) := sharedMemIterator_Next it (r_h written_reader) in
      mkReader h (r_e written_reader) (<[0%nat := (it', ok)]> (r_iters written_reader)) (r_known written_reader)
  | None => written_reader
  end.

Lemma reader_scene :
  reader_run start_reader [QNewIterator 0 (Some (B "a")) None; QNext 0 true; QEntry 0 (B "k") (B "v")] moved_reader.
Proof.
  apply (rr_step start_reader [] bound_reader); [by apply (rs_make start_reader (B "a"))|].
  apply (rr_step bound_reader [QNewIterator 0 (Some (B "a")) None] iter_reader).
  { eapply (rs_new bound_reader background 0 (Some 1%nat) None); vm_compute; [done|reflexivity..]. }
  apply (rr_step iter_reader [] written_reader); [by apply (rs_write iter_reader 1%nat); vm_compute|].
  apply (rr_step written_reader [QNext 0 true] moved_reader).
  { eapply (rs_next written_reader 0%nat _ _ true); [vm_compute; reflexivity..|by left]. }
  apply (rr_step moved_reader [QEntry 0 (B "k") (B "v")] moved_reader); [|apply rr_nil].
  eapply (rs_entry moved_reader 0%nat); vm_compute; reflexivity.
Qed.

Lemma start_owned : mem_owns (sm_data (r_e start_reader)) ⊆ dom (r_h start_reader).
Proof.
  intros l [k Hk]%elem_of_mem_owns. cbn [start_reader r_e sm_data] in Hk.
  apply lookup_singleton_Some in Hk as [_ [= <-]]. vm_compute. reflexivity.
Qed.

Lemma iterators_are_snapshots_witness :
  exists m' its,
    (m', its) ∈ run_reading [QNewIterator 0 (Some (B "a")) None; QNext 0 true; QEntry 0 (B "k") (B "v")]
                  ({[B "k" := B "v"]}, ∅)
    /\ shared_holds (r_h moved_reader) (r_e moved_reader) m'.
Proof.
  apply (iterators_are_snapshots sharedMem sharedMemIterator (r_h start_reader) (r_e start_reader) {[B "k" := B "v"]}).
  - split; [reflexivity|]. split; [exact start_owned|reflexivity].
  - exact start_owned.
  - exact reader_scene.
Defined.
