(* ===== verification/Pebble.v ===== *)
(** * The Pebble engine (internal/storage/pebble.go)

    The adapter that makes a Pebble database a storage engine. The Pebble
    library is not part of the repository: its operations are the class
    [PebbleAPI] the definitions take as a parameter, and [PebbleLaws] states
    the documented behaviour the adapter relies on. *)

From stdpp Require Import prelude gmap list sorting strings.
From Stdlib Require Import ZArith Lia.
From S2P Require Import Prelude GoBytes GoStrings Kverr Record Fs Segment Log Engine MemEngine.

Local Open Scope Z_scope.

(** ** The library *)

(** [pi_*] are the methods of [pebble.Iterator]; a [Key] away from an entry is
    [None]. *)
Class PebbleAPI (DB PB PIter : Type) := {
  pebble_Open : string -> result error DB;
  db_Get : bytes -> M error DB bytes;
  closer_Close : M error DB unit;
  NewBatch : PB;
  pb_Set : bytes -> bytes -> PB -> result error PB;
  pb_Delete : bytes -> PB -> result error PB;
  pb_Commit : bool -> PB -> M error DB unit;
  db_NewIter : option bytes -> option bytes -> M error DB PIter;
  db_Close : M error DB unit;
  pi_First : PIter -> bool * PIter;
  pi_Next : PIter -> bool * PIter;
  pi_Key : PIter -> option bytes;
  pi_ValueAndErr : PIter -> result error bytes;
  pi_Error : PIter -> option error;
  pi_Close : PIter -> option error;
  ErrNotFound : error;
}.

(** ** The adapter *)
Section pebble.
Context {DB PB PIter : Type} `{PebbleAPI DB PB PIter}.

Record Pebble := mkPebble { p_db : DB; p_closed : bool }.

Definition OpenPebble (ctx : Context) (dir : string) : result error Pebble :=
  match ctx_Err ctx with
  | Some err => Err (kv (Wrap (ReasonOf (Some err)) (Some err) ""))
  | None =>
      match pebble_Open dir with
      | Err err => Err (internal err "storage engine could not be opened")
      | Ok db => Ok (mkPebble db false)
      end
  end.

(** A call on the database. *)
Definition on_db {A} (m : M error DB A) : M error Pebble A := fun p =>
  let '(r, db) := m (p_db p) in (r, mkPebble db (p_closed p)).

Definition Pebble_usable (ctx : Context) : M error Pebble unit :=
  p ← get_state;
  if p_closed p then fail (internal errClosed "storage engine is closed")
  else contextError ctx.

Definition Pebble_Get (ctx : Context) (key : bytes) : M error Pebble (option bytes) :=
  Pebble_usable ctx;;
  r ← try (on_db (db_Get key));
  match r with
  | Err err =>
      if errors_Is err ErrNotFound then mret None
      else fail (internal err "storage engine read failed")
  | Ok value =>
      c ← try (on_db closer_Close);
      match c with
      | Err err => fail (internal err "storage engine read failed")
      | Ok _ => mret (Some value)
      end
  end.

(** The loop that fills the Pebble batch. *)
Fixpoint fill_batch (l : list Op) (pb : PB) : result error PB :=
  match l with
  | [] => Ok pb
  | op :: l' =>
      match (if op_Delete op then pb_Delete (op_Key op) pb else pb_Set (op_Key op) (op_Value op) pb) with
      | Err err => Err err
      | Ok pb' => fill_batch l' pb'
      end
  end.

Definition Pebble_Apply (ctx : Context) (b : Batch) (sync : bool) : M error Pebble unit :=
  Pebble_usable ctx;;
  match fill_batch (Batch_Ops b) NewBatch with
  | Err err => fail (internal err "storage engine batch could not be built")
  | Ok pb => wrapping "storage engine write failed" (on_db (pb_Commit sync pb))
  end.

(** [pi_started]: the first [Next] positions the iterator. *)
Record pebbleIterator := mkPebbleIterator {
  pi_it : PIter; pi_started : bool; pi_value : option bytes; pi_err : option error
}.

Definition Pebble_NewIterator (ctx : Context) (lower upper : option bytes) : M error Pebble pebbleIterator :=
  Pebble_usable ctx;;
  it ← wrapping "storage engine iterator could not be created" (on_db (db_NewIter lower upper));
  mret (mkPebbleIterator it false None None).

Definition Pebble_Close : M error Pebble unit :=
  p ← get_state;
  put_state (mkPebble (p_db p) true);;
  if p_closed p then mret tt
  else wrapping "storage engine could not be closed" (on_db db_Close).

Definition pebbleIterator_Next (i : pebbleIterator) : bool * pebbleIterator :=
  let '(ok, it) := if pi_started i then pi_Next (pi_it i) else pi_First (pi_it i) in
  if negb ok then (false, mkPebbleIterator it true (pi_value i) (pi_err i))
  else match pi_ValueAndErr it with
       | Err err => (false, mkPebbleIterator it true (pi_value i) (Some err))
       | Ok value => (true, mkPebbleIterator it true (Some value) (pi_err i))
       end.

Definition pebbleIterator_Key (i : pebbleIterator) : option bytes := pi_Key (pi_it i).
Definition pebbleIterator_Value (i : pebbleIterator) : option bytes := pi_value i.

Definition pebbleIterator_Err (i : pebbleIterator) : option error :=
  let err := match pi_err i with None => pi_Error (pi_it i) | Some e => Some e end in
  (fun err => internal err "storage engine iteration failed") <$> err.

Definition pebbleIterator_Close (i : pebbleIterator) : option error :=
  (fun err => internal err "storage engine iterator could not be closed") <$> pi_Close (pi_it i).

#[export] Instance Pebble_Engine : Engine Pebble pebbleIterator := {
  Get := Pebble_Get;
  Apply := Pebble_Apply;
  NewIterator := Pebble_NewIterator;
  Engine_Close := Pebble_Close;
  Next := pebbleIterator_Next;
  Key := pebbleIterator_Key;
  Value := pebbleIterator_Value;
  Iter_Err := pebbleIterator_Err;
  Iter_Close := pebbleIterator_Close;
}.
End pebble.
Arguments Pebble : clear implicits.
Arguments pebbleIterator : clear implicits.

(** ** Its messages *)

(** What a [pebbleLogger] method does: a log line, and whether the process exits. *)
Definition pebbleLogger_Infof (text : string) : logline * bool :=
  (Line "DEBUG" text [("component", "pebble")], false).
Definition pebbleLogger_Errorf (text : string) : logline * bool :=
  (Line "ERROR" text [("component", "pebble")], false).
Definition pebbleLogger_Fatalf (text : string) : logline * bool :=
  (Line "ERROR" text [("component", "pebble"); ("fatal", "true")], true).

(** ** What the adapter relies on *)

(** [stored db] are the contents of an open database, [recorded pb] the
    operations of a batch. [unpositioned it es]: a new iterator over [es];
    [at_entry it e es]: it stands on [e] with [es] to come; [exhausted it]: it
    is past the end. Calls of a [faulty] library may fail at any time, with an
    error other than [ErrNotFound]; without faults none does. [durable db] are
    the contents a power loss leaves. *)
Class PebbleLaws DB PB PIter `{PebbleAPI DB PB PIter} := {
  faulty : Prop;
  stored : DB -> contents;
  durable : DB -> contents;
  recorded : PB -> list Op;
  unpositioned : PIter -> list (bytes * bytes) -> Prop;
  at_entry : PIter -> bytes * bytes -> list (bytes * bytes) -> Prop;
  exhausted : PIter -> Prop;

  law_Get k db r db' :
    db_Get k db = (r, db') -> stored db' = stored db /\
    match r with
    | Ok v => stored db !! k = Some v
    | Err e => if errors_Is e ErrNotFound then stored db !! k = None else faulty
    end;
  law_closer db r db' :
    closer_Close db = (r, db') -> stored db' = stored db /\ (r = Ok tt \/ faulty);
  law_NewBatch : recorded NewBatch = [];
  law_Set k v pb r : pb_Set k v pb = r ->
    match r with Ok pb' => recorded pb' = recorded pb ++ [mkOp k v false] | Err _ => faulty end;
  law_Delete k pb r : pb_Delete k pb = r ->
    match r with Ok pb' => recorded pb' = recorded pb ++ [mkOp k [] true] | Err _ => faulty end;
  law_Commit sync pb db r db' :
    pb_Commit sync pb db = (r, db') ->
    let applied := foldl apply_op (stored db) (recorded pb) in
    match r with
    | Ok _ => stored db' = applied /\ (sync = true -> durable db' = applied)
    | Err _ => faulty /\ (stored db' = stored db \/ stored db' = applied)
    end;
  law_NewIter lower upper db r db' :
    db_NewIter lower upper db = (r, db') -> stored db' = stored db /\
    match r with
    | Ok it => exists es, unpositioned it es /\ shows (stored db) lower upper es
    | Err _ => faulty
    end;
  law_Close db r db' : db_Close db = (r, db') -> r = Ok tt \/ faulty;
  law_First it es ok it' :
    unpositioned it es -> pi_First it = (ok, it') ->
    match es with
    | [] => ok = false /\ exhausted it'
    | e :: es' => (ok = true /\ at_entry it' e es') \/ (faulty /\ ok = false /\ is_Some (pi_Error it'))
    end;
  law_Next it e0 es ok it' :
    at_entry it e0 es -> pi_Next it = (ok, it') ->
    match es with
    | [] => ok = false /\ exhausted it'
    | e :: es' => (ok = true /\ at_entry it' e es') \/ (faulty /\ ok = false /\ is_Some (pi_Error it'))
    end;
  law_Next_exhausted it ok it' : exhausted it -> pi_Next it = (ok, it') -> ok = false /\ exhausted it';
  law_exhausted it : exhausted it -> pi_Error it = None \/ faulty;
  law_entry it e es :
    at_entry it e es -> pi_Key it = Some e.1 /\
    match pi_ValueAndErr it with Ok v => v = e.2 | Err _ => faulty end;
  law_iter_Close it : pi_Close it = None \/ faulty;
}.

(** ** The adapter keeps the engine contract *)
Section pebble_spec.
Context {DB PB PIter : Type} `{PebbleLaws DB PB PIter}.

Lemma fill_batch_applied l : forall pb pb' m,
  fill_batch l pb = Ok pb' -> foldl apply_op m (recorded pb') = foldl apply_op (foldl apply_op m (recorded pb)) l.
Proof.
  induction l as [|op l IH]; intros pb pb' m Hf; [by injection Hf as ->|]. cbn [fill_batch] in Hf.
  destruct (if op_Delete op then _ else _) as [pb1|] eqn:Hop; [|done].
  rewrite (IH _ _ _ Hf). cbn [foldl]. f_equal. destruct op as [k v []]; cbn [op_Delete op_Key op_Value] in Hop.
  - by rewrite (law_Delete _ _ _ Hop), foldl_app.
  - by rewrite (law_Set _ _ _ _ Hop), foldl_app.
Qed.

Lemma fill_batch_fails l : forall pb e, fill_batch l pb = Err e -> faulty.
Proof.
  induction l as [|op l IH]; intros pb e Hf; [done|]. cbn [fill_batch] in Hf.
  destruct (if op_Delete op then _ else _) as [pb1|e1] eqn:Hop; [by eapply IH|].
  destruct (op_Delete op); [exact (law_Delete _ _ _ Hop)|exact (law_Set _ _ _ _ Hop)].
Qed.

Definition p_holds (p : Pebble DB) (m : contents) : Prop := stored (p_db p) = m /\ p_closed p = false.

Definition p_ahead (i : pebbleIterator PIter) (es : list (bytes * bytes)) : Prop :=
  pi_err i = None /\
  ((pi_started i = false /\ unpositioned (pi_it i) es)
   \/ (pi_started i = true /\ ((exists e, at_entry (pi_it i) e es) \/ es = [] /\ exhausted (pi_it i)))).

(** An error of the library, passed on as INTERNAL. *)
Definition is_internal {A} (r : result error A) : Prop :=
  faulty /\ exists err, r = Err (kv err) /\ reason err = ReasonInternal.

Lemma is_internal_wrap {A} err text : faulty -> is_internal (@Err error A (internal err text)).
Proof. intros Hf. split; [done|]. eexists. split; [done|]. reflexivity. Qed.

Lemma Pebble_live {A} ctx (k : M error (Pebble DB) A) p m :
  p_holds p m -> ctx_Err ctx = None -> (Pebble_usable ctx;; k) p = k p.
Proof.
  intros [_ Hc] Hctx. refine (bind_ok _ (fun _ => k) p tt p _). unfold Pebble_usable. rewrite (bind_ok _ _ _ p p) by done.
  rewrite Hc. unfold contextError. by rewrite Hctx.
Qed.

Lemma Pebble_Get_spec ctx k p m r p' :
  p_holds p m -> ctx_Err ctx = None -> Pebble_Get ctx k p = (r, p') ->
  p_holds p' m /\ (r = Ok (m !! k) \/ is_internal r).
Proof.
  intros Hp Hctx Hr. unfold Pebble_Get in Hr. rewrite (Pebble_live _ _ _ _ Hp Hctx) in Hr.
  destruct Hp as [<- Hc]. destruct (db_Get k (p_db p)) as [r1 db1] eqn:Hg.
  unfold try in Hr. unfold mbind at 1 in Hr. unfold M_bind at 1 in Hr. unfold on_db at 1 in Hr. rewrite Hg in Hr.
  apply law_Get in Hg as [Hs Hg]. destruct r1 as [v|e].
  - unfold mbind, M_bind, on_db in Hr. cbn [p_db] in Hr.
    destruct (closer_Close db1) as [[[]|e] db2] eqn:Hcl; apply law_closer in Hcl as [Hcl Hcf]; injection Hr as <- <-;
      (split; [split; [simpl; congruence|done]|]); [left; by rewrite Hg|right; apply is_internal_wrap].
    by destruct Hcf.
  - destruct (errors_Is e ErrNotFound); injection Hr as <- <-;
      (split; [split; [simpl; congruence|done]|]); [left; by rewrite Hg|right; by apply is_internal_wrap].
Qed.

Lemma Pebble_Apply_spec ctx b sync p m r p' :
  p_holds p m -> ctx_Err ctx = None -> Pebble_Apply ctx b sync p = (r, p') ->
  (r = Ok tt /\ p_holds p' (apply_batch m b) /\ (sync = true -> durable (p_db p') = apply_batch m b))
  \/ (is_internal r /\ (p_holds p' m \/ p_holds p' (apply_batch m b))).
Proof.
  intros Hp Hctx Hr. unfold Pebble_Apply in Hr. rewrite (Pebble_live _ _ _ _ Hp Hctx) in Hr.
  destruct (fill_batch (Batch_Ops b) NewBatch) as [pb|e] eqn:Hf.
  2:{ injection Hr as <- <-. right. split; [by apply is_internal_wrap, (fill_batch_fails _ _ _ Hf)|by left]. }
  destruct Hp as [<- Hc]. apply (fill_batch_applied _ _ _ (stored (p_db p))) in Hf.
  rewrite law_NewBatch in Hf. cbn [foldl] in Hf.
  unfold wrapping, try, mbind, M_bind, on_db in Hr.
  destruct (pb_Commit sync pb (p_db p)) as [r1 db1] eqn:Hcm. apply law_Commit in Hcm. cbn zeta in Hcm.
  rewrite Hf in Hcm. destruct r1 as [[]|e]; injection Hr as <- <-; [left|right].
  - destruct Hcm as [Hst Hdu]. by split_and!.
  - destruct Hcm as [Hfy Hst]. split; [by apply is_internal_wrap|]. by destruct Hst; [left|right].
Qed.

Lemma Pebble_NewIterator_spec ctx lower upper p m r p' :
  p_holds p m -> ctx_Err ctx = None -> Pebble_NewIterator ctx lower upper p = (r, p') ->
  p_holds p' m /\ ((exists it es, r = Ok it /\ p_ahead it es /\ shows m lower upper es) \/ is_internal r).
Proof.
  intros Hp Hctx Hr. unfold Pebble_NewIterator in Hr. rewrite (Pebble_live _ _ _ _ Hp Hctx) in Hr.
  destruct Hp as [<- Hc]. unfold wrapping, try, mbind, M_bind, on_db in Hr.
  destruct (db_NewIter lower upper (p_db p)) as [r1 db1] eqn:Hn. apply law_NewIter in Hn as [Hs Hn].
  destruct r1 as [it|e]; injection Hr as <- <-; (split; [by split|]); [left|right; by apply is_internal_wrap].
  destruct Hn as (es & Hu & Hsh). exists (mkPebbleIterator it false None None), es.
  split_and!; [done| |done]. split; [done|]. by left.
Qed.

Lemma pebbleIterator_Next_spec i es ok i' :
  p_ahead i es -> pebbleIterator_Next i = (ok, i') ->
  match es with
  | [] => ok = false /\ p_ahead i' [] /\ (pebbleIterator_Err i' = None \/ faulty)
  | (k, v) :: es' =>
      (ok = true /\ pebbleIterator_Key i' = Some k /\ pebbleIterator_Value i' = Some v /\ p_ahead i' es')
      \/ (faulty /\ ok = false /\ is_Some (pebbleIterator_Err i'))
  end.
Proof.
  intros [He Ha] Hn. unfold pebbleIterator_Next in Hn.
  destruct (if pi_started i then _ else _) as [ok1 it1] eqn:Hm.
  assert (match es with
          | [] => ok1 = false /\ exhausted it1
          | e :: es' => (ok1 = true /\ at_entry it1 e es') \/ (faulty /\ ok1 = false /\ is_Some (pi_Error it1))
          end) as Hstep.
  { destruct Ha as [[Hs Hu]|[Hs [(e & Hat)|[-> Hex]]]]; rewrite Hs in Hm.
    - by eapply law_First.
    - by eapply law_Next.
    - by eapply law_Next_exhausted. }
  destruct es as [|[k v] es].
  - destruct Hstep as [-> Hex]. injection Hn as <- <-. split_and!; [done| |].
    + split; [done|]. right. split; [done|]. by right.
    + unfold pebbleIterator_Err. simpl. rewrite He. destruct (law_exhausted _ Hex) as [->|]; auto.
  - destruct Hstep as [[-> Hat]|(Hfy & -> & Herr)]; cbn [negb] in Hn.
    + destruct (law_entry _ _ _ Hat) as [Hk Hv].
      destruct (pi_ValueAndErr it1) as [v1|err]; injection Hn as <- <-; [left|right].
      * subst v1. split_and!; [done|done|done|]. split; [done|]. right. split; [done|]. left. eauto.
      * split_and!; [done|done|]. by eexists.
    + injection Hn as <- <-. right. split_and!; [done|done|]. unfold pebbleIterator_Err. simpl. rewrite He.
      destruct Herr as [err ->]. by eexists.
Qed.

Lemma Pebble_Close_spec p m r p' :
  p_holds p m -> Pebble_Close p = (r, p') -> (r = Ok tt \/ is_internal r) /\ p_closed p' = true.
Proof.
  intros [_ Hc] Hr. unfold Pebble_Close in Hr. rewrite (bind_ok _ _ _ p p) in Hr by done.
  rewrite (bind_ok _ _ _ tt (mkPebble (p_db p) true)) in Hr by done.
  rewrite Hc in Hr. unfold wrapping, try, mbind, M_bind, on_db in Hr. simpl in Hr.
  destruct (db_Close (p_db p)) as [[[]|e] db'] eqn:Hcl; apply law_Close in Hcl; injection Hr as <- <-;
    (split; [|done]); [by left|right; apply is_internal_wrap; by destruct Hcl].
Qed.

Lemma Pebble_closed ctx (p : Pebble DB) :
  p_closed p = true ->
  let refusal := internal errClosed "storage engine is closed" in
  (forall key, Pebble_Get ctx key p = (Err refusal, p))
  /\ (forall b sync, Pebble_Apply ctx b sync p = (Err refusal, p))
  /\ (forall lower upper, Pebble_NewIterator ctx lower upper p = (Err refusal, p))
  /\ Pebble_Close p = (Ok tt, p).
Proof.
  intros Hc. assert (forall A (k : unit -> M error (Pebble DB) A), (Pebble_usable ctx ≫= k) p
    = (Err (internal errClosed "storage engine is closed"), p)) as Hr.
  { intros A k. apply bind_err. unfold Pebble_usable. rewrite (bind_ok _ _ _ p p) by done. by rewrite Hc. }
  split_and!; [intros; apply Hr..|]. unfold Pebble_Close. rewrite (bind_ok _ _ _ p p) by done.
  rewrite (bind_ok _ _ _ tt (mkPebble (p_db p) true)) by done. rewrite Hc. by destruct p as [db c]; simpl in *; subst.
Qed.

#[export] Instance Pebble_spec : EngineSpec (Pebble DB) (pebbleIterator PIter).
Proof.
  refine {| holds := p_holds; ended p := p_closed p = true; ahead := p_ahead; fallible := faulty |}.
  - intros ctx k p m r p' Hp Hctx Hr. destruct (Pebble_Get_spec _ _ _ _ _ _ Hp Hctx Hr) as [? [?|[? ?]]]; auto.
  - intros ctx b s p m r p' Hp Hctx Hr. destruct (Pebble_Apply_spec _ _ _ _ _ _ _ Hp Hctx Hr) as [(? & ? & _)|[[? ?] ?]]; auto.
  - intros ctx l u p m r p' Hp Hctx Hr. destruct (Pebble_NewIterator_spec _ _ _ _ _ _ _ Hp Hctx Hr) as [? [?|[? ?]]]; auto.
  - intros it es ok it' Ha Hn. pose proof (pebbleIterator_Next_spec _ _ _ _ Ha Hn) as Hs.
    by destruct es as [|[k v] es].
  - intros it es _. unfold Iter_Close, Pebble_Engine, pebbleIterator_Close.
    destruct (law_iter_Close (pi_it it)) as [->|]; [by left|by right].
  - intros ctx err p m [Hs Hc] Hctx. split_and!; intros; apply bind_err; unfold Pebble_usable;
      rewrite (bind_ok _ _ _ p p) by done; rewrite Hc; unfold contextError; by rewrite Hctx.
  - intros ctx p Hc. destruct (Pebble_closed ctx p Hc) as (Hg & Ha & Hn & Hcl). split_and!; [..|exact Hcl];
      intros; exists (Wrap ReasonInternal (Some errClosed) "storage engine is closed"); (split; [|reflexivity]);
      [apply Hg|apply Ha|apply Hn].
  - intros p m r p' Hp Hr. destruct (Pebble_Close_spec _ _ _ _ Hp Hr) as [[->|[? _]] Hc]; auto.
Defined.
End pebble_spec.

(** ** A database to try it on

    Pebble's operations on a plain map, which keep the laws. *)
Record map_iter := mkMapIter { mit_now : option (bytes * bytes); mit_rest : list (bytes * bytes) }.

Definition map_step (it : map_iter) : bool * map_iter :=
  match mit_rest it with
  | [] => (false, mkMapIter None [])
  | e :: es => (true, mkMapIter (Some e) es)
  end.

#[export] Instance map_pebble : PebbleAPI contents (list Op) map_iter := {
  pebble_Open _ := Ok ∅;
  db_Get k db := (match db !! k with Some v => Ok v | None => Err (ESentinel "pebble: not found") end, db);
  closer_Close db := (Ok tt, db);
  NewBatch := [];
  pb_Set k v pb := Ok (pb ++ [mkOp k v false]);
  pb_Delete k pb := Ok (pb ++ [mkOp k [] true]);
  pb_Commit _ pb db := (Ok tt, foldl apply_op db pb);
  db_NewIter l u db := (Ok (mkMapIter None (sorted_range l u (map_to_list db))), db);
  db_Close db := (Ok tt, db);
  pi_First := map_step;
  pi_Next := map_step;
  pi_Key it := fst <$> mit_now it;
  pi_ValueAndErr it := match mit_now it with Some e => Ok e.2 | None => Err (ESentinel "invalid") end;
  pi_Error _ := None;
  pi_Close _ := None;
  ErrNotFound := ESentinel "pebble: not found";
}.

#[export] Instance map_pebble_laws : PebbleLaws contents (list Op) map_iter.
Proof.
  refine {| faulty := False; stored db := db; durable db := db; recorded pb := pb;
            unpositioned it es := mit_rest it = es;
            at_entry it e es := mit_now it = Some e /\ mit_rest it = es;
            exhausted it := mit_rest it = [] |}.
  - intros k db r db' [= <- <-]. split; [done|]. by destruct (db !! k).
  - intros db r db' [= <- <-]. auto.
  - done.
  - by intros k v pb r <-.
  - by intros k pb r <-.
  - by intros sync pb db r db' [= <- <-].
  - intros l u db r db' [= <- <-]. split; [done|]. eexists. split; [done|]. by apply sorted_range_shows.
  - intros db r db' [= <- <-]. by left.
  - intros it es ok it' <- Hf. simpl in Hf. unfold map_step in Hf.
    destruct (mit_rest it); injection Hf as <- <-; [done|by left].
  - intros it e0 es ok it' [_ <-] Hf. simpl in Hf. unfold map_step in Hf.
    destruct (mit_rest it); injection Hf as <- <-; [done|by left].
  - intros it ok it' He Hf. simpl in Hf. unfold map_step in Hf. rewrite He in Hf. by injection Hf as <- <-.
  - by left.
  - intros it e es [He _]. simpl. by rewrite He.
  - by left.
Defined.

(** C23: over any database that behaves as Pebble documents, the adapter keeps
    the engine contract. On an open engine and a live context: a read returns
    the stored value, or says that the key is absent; a batch is applied whole,
    and is durable when [sync] is set; an iterator shows its range in order, its
    first [Next] moving to the first entry. Any other outcome is an INTERNAL
    error and happens only when a call of the library failed; then a batch is
    applied whole or not at all, and an iteration ends with an error instead of
    a wrong entry. A context that is done stops every operation with its error
    before it reaches the database, and so does an engine that was closed,
    whose [Close] is harmless. *)
Theorem Pebble_correct DB PB PIter `{PebbleLaws DB PB PIter} ctx b sync lower upper key (p : Pebble DB) m :
  holds p m ->
  match ctx_Err ctx with
  | None =>
      (forall r p', Pebble_Get ctx key p = (r, p') -> holds p' m /\ (r = Ok (m !! key) \/ is_internal r))
      /\ (forall r p', Pebble_Apply ctx b sync p = (r, p') ->
            (r = Ok tt /\ holds p' (apply_batch m b) /\ (sync = true -> durable (p_db p') = apply_batch m b))
            \/ (is_internal r /\ (holds p' m \/ holds p' (apply_batch m b))))
      /\ (forall r p', Pebble_NewIterator ctx lower upper p = (r, p') ->
            holds p' m /\ ((exists it es, r = Ok it /\ p_ahead it es /\ shows m lower upper es) \/ is_internal r))
  | Some err =>
      let refusal := kv (Wrap (ReasonOf (Some err)) (Some err) "") in
      Pebble_Get ctx key p = (Err refusal, p) /\ Pebble_Apply ctx b sync p = (Err refusal, p)
      /\ Pebble_NewIterator ctx lower upper p = (Err refusal, p)
  end
  /\ (forall it k v es ok it', p_ahead it ((k, v) :: es) -> pebbleIterator_Next it = (ok, it') ->
        (ok = true /\ pebbleIterator_Key it' = Some k /\ pebbleIterator_Value it' = Some v /\ p_ahead it' es)
        \/ (faulty /\ ok = false /\ is_Some (pebbleIterator_Err it')))
  /\ (forall it ok it', p_ahead it [] -> pebbleIterator_Next it = (ok, it') ->
        ok = false /\ (pebbleIterator_Err it' = None \/ faulty))
  /\ (forall r p', Pebble_Close p = (r, p') -> (r = Ok tt \/ is_internal r) /\
        let refusal := internal errClosed "storage engine is closed" in
        Pebble_Get ctx key p' = (Err refusal, p') /\ Pebble_Apply ctx b sync p' = (Err refusal, p')
        /\ Pebble_NewIterator ctx lower upper p' = (Err refusal, p') /\ Pebble_Close p' = (Ok tt, p')).
Proof.
  intros Hp. split; [|split_and!].
  - destruct (ctx_Err ctx) as [err|] eqn:Hctx.
    { destruct (refused_ctx ctx err p m Hp Hctx) as (Hg & Ha & Hn). split_and!; [apply Hg|apply Ha|apply Hn]. }
    split_and!; intros r p'; [by apply Pebble_Get_spec|by apply Pebble_Apply_spec|by apply Pebble_NewIterator_spec].
  - intros it k v es ok it' Ha Hn. exact (pebbleIterator_Next_spec _ _ _ _ Ha Hn).
  - intros it ok it' Ha Hn. destruct (pebbleIterator_Next_spec _ _ _ _ Ha Hn) as (-> & _ & He). by split.
  - intros r p' Hc. destruct (Pebble_Close_spec _ _ _ _ Hp Hc) as [Hr Hcl]. split; [done|].
    destruct (Pebble_closed ctx p' Hcl) as (Hg & Ha & Hn & Hc2). by split_and!.
Qed.

Lemma Pebble_correct_witness :
  (Pebble_Get [] [Byte.x7a] (mkPebble one_key false)).1 = Ok None.
Proof.
  destruct (Pebble_correct contents (list Op) map_iter [] emptyBatch true None None [Byte.x7a]
    (mkPebble one_key false) one_key) as [[H _] _]; [split; reflexivity|].
  destruct (H _ _ (surjective_pairing _)) as [_ [Hr|[[] _]]]. exact Hr.
Defined.
