(* ===== verification/PebbleSlices.v ===== *)
(** * The Pebble adapter over shared slices (internal/storage/pebble.go)

    Pebble.v treats keys and values as immutable. Here they are slices, as in
    Slices.v, and the library has buffers of its own: what its [Get] returns is
    one of them and may be overwritten as soon as the closer is closed. The
    adapter copies it first; and it copies the bounds of an iterator, which the
    library keeps. So it keeps the promises of the engine interface. *)

From stdpp Require Import prelude gmap list sorting strings.
From Stdlib Require Import ZArith Lia.
From S2P Require Import Prelude GoBytes GoStrings Kverr Record Fs Segment Log Engine MemEngine EngineContract Slices IterSlices Pebble.

(** ** The library *)

(** Batches are pointers. [NewBatch] does not fail. *)
Class SharedPebbleAPI (DB PB : Type) := {
  sdb_Get : slice -> M error (arrays * DB) slice;
  scloser_Close : M error (arrays * DB) unit;
  sdb_NewBatch : arrays * DB -> PB * (arrays * DB);
  spb_Set : PB -> slice -> slice -> M error (arrays * DB) unit;
  spb_Delete : PB -> slice -> M error (arrays * DB) unit;
  spb_Commit : PB -> bool -> M error (arrays * DB) unit;
  spb_Close : PB -> M error (arrays * DB) unit;
  sErrNotFound : error;
}.

(** Its iterators. *)
Class SharedPebbleIterAPI (DB PIter : Type) := {
  sdb_NewIter : slice -> slice -> M error (arrays * DB) PIter;
  spi_First : PIter -> arrays -> bool * (PIter * arrays);
  spi_Next : PIter -> arrays -> bool * (PIter * arrays);
  spi_Key : PIter -> slice;
  spi_ValueAndErr : PIter -> result error slice;
  spi_Error : PIter -> option error;
}.

(** ** The adapter *)

Record sharedPebbleIterator (PIter : Type) := mkSharedPebbleIterator {
  spi_it : PIter; spi_started : bool; spi_value : slice; spi_err : option error
}.
Arguments mkSharedPebbleIterator {PIter}.
Arguments spi_it {PIter}.
Arguments spi_started {PIter}.
Arguments spi_value {PIter}.
Arguments spi_err {PIter}.

Section adapter.
Context {DB PB : Type} `{SharedPebbleAPI DB PB}.

Record sharedPebble := mkSharedPebble { sp_db : DB; sp_closed : bool }.

Abbreviation PM := (M error (arrays * sharedPebble)).

(** A call on the database. *)
Definition with_db {A} (m : M error (arrays * DB) A) : PM A := fun '(h, p) =>
  let '(r, (h', db)) := m (h, sp_db p) in (r, (h', mkSharedPebble db (sp_closed p))).

Definition sharedPebble_usable (ctx : Context) : PM unit :=
  '(_, p) ← get_state;
  if sp_closed p then fail (internal errClosed "storage engine is closed")
  else contextError ctx.

Definition sharedPebble_Get (ctx : Context) (key : slice) : PM (slice * bool) :=
  sharedPebble_usable ctx;;
  r ← try (with_db (sdb_Get key));
  match r with
  | Err err =>
      if errors_Is err sErrNotFound then mret (None, false)
      else fail (internal err "storage engine read failed")
  | Ok value =>
      '(h, p) ← get_state;
      let '(copy, h') := slices_Clone value h in
      put_state (h', p);;
      c ← try (with_db scloser_Close);
      match c with
      | Err err => fail (internal err "storage engine read failed")
      | Ok _ => mret (copy, true)
      end
  end.

(** The loop that fills the Pebble batch. *)
Fixpoint fill_shared_batch (l : list sharedOp) (pb : PB) : PM unit :=
  match l with
  | [] => mret tt
  | op :: l' =>
      wrapping "storage engine batch could not be built"
        (with_db (if so_Delete op then spb_Delete pb (so_Key op) else spb_Set pb (so_Key op) (so_Value op)));;
      fill_shared_batch l' pb
  end.

(** The deferred [pb.Close] runs last whatever happened; its error is dropped. *)
Definition sharedPebble_Apply (ctx : Context) (b : list sharedOp) (sync : bool) : PM unit :=
  sharedPebble_usable ctx;;
  pb ← with_db (fun s => let '(pb, s') := sdb_NewBatch s in (Ok pb, s'));
  r ← try (fill_shared_batch b pb;;
           wrapping "storage engine write failed" (with_db (spb_Commit pb sync)));
  try (with_db (spb_Close pb));;
  match r with Ok _ => mret tt | Err err => fail err end.

#[export] Instance sharedPebble_SharedEngine : SharedEngine sharedPebble := {
  shared_Get := sharedPebble_Get;
  shared_Apply := sharedPebble_Apply;
}.

Context {PIter : Type} `{!SharedPebbleIterAPI DB PIter}.

Definition sharedPebble_NewIterator (ctx : Context) (lower upper : slice) : PM (sharedPebbleIterator PIter) :=
  sharedPebble_usable ctx;;
  '(h, p) ← get_state;
  let '(lo, h1) := slices_Clone lower h in
  let '(up, h2) := slices_Clone upper h1 in
  put_state (h2, p);;
  it ← wrapping "storage engine iterator could not be created" (with_db (sdb_NewIter lo up));
  mret (mkSharedPebbleIterator it false None None).

Definition sharedPebbleIterator_Next (i : sharedPebbleIterator PIter) (h : arrays)
    : bool * (sharedPebbleIterator PIter * arrays) :=
  let '(ok, (it, h')) := if spi_started i then spi_Next (spi_it i) h else spi_First (spi_it i) h in
  if negb ok then (false, (mkSharedPebbleIterator it true (spi_value i) (spi_err i), h'))
  else match spi_ValueAndErr it with
       | Err err => (false, (mkSharedPebbleIterator it true (spi_value i) (Some err), h'))
       | Ok value => (true, (mkSharedPebbleIterator it true value (spi_err i), h'))
       end.

Definition sharedPebbleIterator_Key (i : sharedPebbleIterator PIter) : option slice := Some (spi_Key (spi_it i)).
Definition sharedPebbleIterator_Value (i : sharedPebbleIterator PIter) : option slice := Some (spi_value i).

Definition sharedPebbleIterator_Err (i : sharedPebbleIterator PIter) : option error :=
  let err := match spi_err i with None => spi_Error (spi_it i) | Some e => Some e end in
  (fun err => internal err "storage engine iteration failed") <$> err.

#[export] Instance sharedPebbleIterator_SharedIterator : SharedIterator (sharedPebbleIterator PIter) := {
  shared_Next := sharedPebbleIterator_Next;
  shared_Key := sharedPebbleIterator_Key;
  shared_Value := sharedPebbleIterator_Value;
  shared_Err := sharedPebbleIterator_Err;
}.

#[export] Instance sharedPebble_SharedIterators : SharedIterators sharedPebble (sharedPebbleIterator PIter) := {
  shared_NewIterator := sharedPebble_NewIterator;
}.
End adapter.
Arguments sharedPebble : clear implicits.

(** ** What the adapter relies on *)

(** [sstored h db] are the contents of an open database and [srecorded h db pb] the
    operations of a batch; [sowns db] are the arrays of the library. *)
Class SharedPebbleLaws DB PB `{SharedPebbleAPI DB PB} := {
  sstored : arrays -> DB -> contents;
  srecorded : arrays -> DB -> PB -> list Op;
  sowns : DB -> gset nat;

  slaw_frame h h' db : (forall l, l ∈ sowns db -> h' !! l = h !! l) -> sstored h' db = sstored h db;
  slaw_Get k h db r h' db' :
    sowns db ⊆ dom h -> locs k ⊆ dom h ∖ sowns db -> sdb_Get k (h, db) = (r, (h', db')) ->
    keeps_apart (sowns db) (sowns db') h h' /\ sstored h' db' = sstored h db
    /\ match r with
       | Ok v => locs v ⊆ dom h' /\ sstored h db !! read h k = Some (read h' v)
       | Err e => errors_Is e sErrNotFound = true -> sstored h db !! read h k = None
       end;
  slaw_closer h db r h' db' :
    sowns db ⊆ dom h -> scloser_Close (h, db) = (r, (h', db')) ->
    keeps_apart (sowns db) (sowns db') h h' /\ sstored h' db' = sstored h db;
  slaw_NewBatch h db pb h' db' :
    sowns db ⊆ dom h -> sdb_NewBatch (h, db) = (pb, (h', db')) ->
    keeps_apart (sowns db) (sowns db') h h' /\ sstored h' db' = sstored h db /\ srecorded h' db' pb = [];
  slaw_Set pb k v h db r h' db' :
    sowns db ⊆ dom h -> locs k ∪ locs v ⊆ dom h ∖ sowns db -> spb_Set pb k v (h, db) = (r, (h', db')) ->
    keeps_apart (sowns db) (sowns db') h h' /\ sstored h' db' = sstored h db
    /\ (is_ok r = true -> srecorded h' db' pb = srecorded h db pb ++ [mkOp (read h k) (read h v) false]);
  slaw_Delete pb k h db r h' db' :
    sowns db ⊆ dom h -> locs k ⊆ dom h ∖ sowns db -> spb_Delete pb k (h, db) = (r, (h', db')) ->
    keeps_apart (sowns db) (sowns db') h h' /\ sstored h' db' = sstored h db
    /\ (is_ok r = true -> srecorded h' db' pb = srecorded h db pb ++ [mkOp (read h k) [] true]);
  slaw_Commit pb sync h db r h' db' :
    sowns db ⊆ dom h -> spb_Commit pb sync (h, db) = (r, (h', db')) ->
    let applied := foldl apply_op (sstored h db) (srecorded h db pb) in
    keeps_apart (sowns db) (sowns db') h h'
    /\ match r with
       | Ok _ => sstored h' db' = applied
       | Err _ => sstored h' db' = sstored h db \/ sstored h' db' = applied
       end;
  slaw_pb_Close pb h db r h' db' :
    sowns db ⊆ dom h -> spb_Close pb (h, db) = (r, (h', db')) ->
    keeps_apart (sowns db) (sowns db') h h' /\ sstored h' db' = sstored h db;
}.

(** [piter_owns it] are the arrays of an iterator, its bounds among them; what it
    shows depends on them only. A move may overwrite them. *)
Class SharedPebbleIterLaws DB PB PIter `{SharedPebbleLaws DB PB} `{!SharedPebbleIterAPI DB PIter} := {
  piter_owns : PIter -> gset nat;
  sunpositioned : arrays -> PIter -> list entry -> Prop;
  sat_entry : arrays -> PIter -> entry -> list entry -> Prop;
  sexhausted : arrays -> PIter -> Prop;

  slaw_iter_frame h h' it :
    (forall l, l ∈ piter_owns it -> h' !! l = h !! l) ->
    (forall es, sunpositioned h it es -> sunpositioned h' it es)
    /\ (forall e es, sat_entry h it e es -> sat_entry h' it e es)
    /\ (sexhausted h it -> sexhausted h' it);
  slaw_NewIter lower upper h db r h' db' :
    sowns db ⊆ dom h -> locs lower ∪ locs upper ⊆ dom h ∖ sowns db -> sdb_NewIter lower upper (h, db) = (r, (h', db')) ->
    keeps_apart (sowns db) (sowns db') h h' /\ sstored h' db' = sstored h db
    /\ match r with
       | Ok it => piter_owns it ⊆ locs lower ∪ locs upper ∪ (dom h' ∖ dom h ∖ sowns db')
           /\ exists es, sunpositioned h' it es /\ shows (sstored h db) (bound h lower) (bound h upper) es
       | Err _ => True
       end;
  slaw_First h it es ok it' h' :
    sunpositioned h it es -> piter_owns it ⊆ dom h -> spi_First it h = (ok, (it', h')) ->
    keeps_apart (piter_owns it) (piter_owns it') h h'
    /\ match es with
       | [] => ok = false /\ sexhausted h' it'
       | e :: es' => (ok = true /\ sat_entry h' it' e es') \/ (ok = false /\ is_Some (spi_Error it'))
       end;
  slaw_Next h it e0 es ok it' h' :
    sat_entry h it e0 es -> piter_owns it ⊆ dom h -> spi_Next it h = (ok, (it', h')) ->
    keeps_apart (piter_owns it) (piter_owns it') h h'
    /\ match es with
       | [] => ok = false /\ sexhausted h' it'
       | e :: es' => (ok = true /\ sat_entry h' it' e es') \/ (ok = false /\ is_Some (spi_Error it'))
       end;
  slaw_Next_exhausted h it ok it' h' :
    sexhausted h it -> piter_owns it ⊆ dom h -> spi_Next it h = (ok, (it', h')) ->
    keeps_apart (piter_owns it) (piter_owns it') h h' /\ ok = false /\ sexhausted h' it';
  slaw_entry h it e es :
    sat_entry h it e es -> locs (spi_Key it) ⊆ piter_owns it /\ read h (spi_Key it) = e.1
    /\ forall v, spi_ValueAndErr it = Ok v -> locs v ⊆ piter_owns it /\ read h v = e.2;
}.

(** ** The adapter keeps the laws of shared slices *)
Section adapter_spec.
Context {DB PB : Type} `{SharedPebbleLaws DB PB}.

Definition sp_holds (h : arrays) (p : sharedPebble DB) (m : contents) : Prop :=
  sp_closed p = false /\ sstored h (sp_db p) = m.
Definition sp_owns (p : sharedPebble DB) : gset nat := sowns (sp_db p).

Lemma with_db_inv {A} (m : M error (arrays * DB) A) h p r h' p' :
  with_db m (h, p) = (r, (h', p')) ->
  exists db', m (h, sp_db p) = (r, (h', db')) /\ p' = mkSharedPebble db' (sp_closed p).
Proof. cbn. destruct (m (h, sp_db p)) as [r1 [h1 db1]]. intros [= <- <- <-]. by exists db1. Qed.

(** The adapter works with a live context. *)
Lemma sp_live {A} ctx (k : M error (arrays * sharedPebble DB) A) h p :
  sp_closed p = false -> ctx_Err ctx = None -> (sharedPebble_usable ctx;; k) (h, p) = k (h, p).
Proof.
  intros Hc Hctx. refine (bind_ok _ (fun _ => k) (h, p) tt (h, p) _). unfold sharedPebble_usable.
  rewrite (bind_ok _ _ _ (h, p) (h, p)) by done. rewrite Hc. unfold contextError. by rewrite Hctx.
Qed.

(** The copy of the library's value outlives the closer. *)
Lemma sp_Get_spec ctx k h p m r h' p' :
  sp_holds h p m -> sp_owns p ⊆ dom h -> locs k ⊆ dom h ∖ sp_owns p -> ctx_Err ctx = None ->
  sharedPebble_Get ctx k (h, p) = (r, (h', p')) ->
  keeps_apart (sp_owns p) (sp_owns p') h h' /\ sp_holds h' p' m
  /\ match r with
     | Ok (v, ok) => ok = bool_decide (is_Some (m !! read h k)) /\ read h' v = default [] (m !! read h k)
         /\ locs v ⊆ dom h' ∖ dom h ∖ sp_owns p'
     | Err _ => True
     end.
Proof.
  intros [Hc <-] Ho Hk Hctx Hr. unfold sharedPebble_Get in Hr. rewrite (sp_live _ _ _ _ Hc Hctx) in Hr.
  destruct (with_db (sdb_Get k) (h, p)) as [r1 [h1 p1]] eqn:Hg. rewrite (try_bind _ _ _ _ _ Hg) in Hr.
  apply with_db_inv in Hg as (db1 & Hg & ->). destruct (slaw_Get _ _ _ _ _ _ Ho Hk Hg) as (Hka1 & Hs1 & Hv).
  destruct r1 as [v|err].
  - rewrite (bind_ok _ _ _ (h1, mkSharedPebble db1 (sp_closed p)) (h1, mkSharedPebble db1 (sp_closed p))) in Hr by done.
    destruct (slices_Clone v h1) as [copy h2] eqn:Hcl. apply Clone_new in Hcl as [Hgr Hrd Hval Hfr _].
    rewrite (bind_ok _ _ _ tt (h2, mkSharedPebble db1 (sp_closed p))) in Hr by done.
    destruct (with_db scloser_Close (h2, mkSharedPebble db1 (sp_closed p))) as [r2 [h3 p3]] eqn:Hcc.
    rewrite (try_bind _ _ _ _ _ Hcc) in Hr. apply with_db_inv in Hcc as (db3 & Hcc & ->). cbn in Hcc.
    pose proof (keeps_apart_grows (sowns db1) h1 h2 Hgr (ka_owned _ _ _ _ Hka1)) as Hka2.
    destruct (slaw_closer _ _ _ _ _ (ka_owned _ _ _ _ Hka2) Hcc) as [Hka3 Hs3].
    assert (sstored h2 db1 = sstored h1 db1) as Hs2.
    { apply slaw_frame. intros l [x Hx]%(ka_owned _ _ _ _ Hka1)%elem_of_dom. by rewrite Hx, (lookup_weaken _ _ _ _ Hx Hgr). }
    pose proof (keeps_apart_trans _ _ _ _ _ _ Hka1 (keeps_apart_trans _ _ _ _ _ _ Hka2 Hka3)) as Hka.
    assert (locs copy ⊆ dom h2 ∖ dom h1) as Hcopy.
    { destruct copy as [l|]; cbn; [|set_solver]. specialize (Hval l eq_refl). specialize (Hfr l eq_refl). set_solver. }
    pose proof (ka_owned _ _ _ _ Hka1) as Ho1. pose proof (ka_dom _ _ _ _ Hka1) as Hd1.
    assert (locs copy ⊆ dom h2 ∖ sowns db1) as Hapart by set_solver.
    destruct r2 as [[]|err]; injection Hr as <- <- <-; (split; [done|]); (split; [split; cbn; congruence|]); [|done].
    destruct Hv as [_ Hv]. rewrite Hv. split_and!; [by rewrite bool_decide_eq_true_2| |].
    + cbn. by rewrite (read_apart _ _ _ _ _ Hka3 Hapart).
    + pose proof (apart_later _ _ _ _ _ Hka3 Hapart). unfold sp_owns. cbn. set_solver.
  - destruct (errors_Is err sErrNotFound) eqn:He; injection Hr as <- <- <-;
      (split; [done|]); (split; [split; cbn; congruence|]); [|done].
    rewrite (Hv eq_refl). split_and!; [by rewrite bool_decide_eq_false_2 by (by intros [])|done|set_solver].
Qed.

Lemma fill_shared_spec l pb m : forall h p r h' p',
  sp_owns p ⊆ dom h -> Forall (fun op => op_locs op ⊆ dom h ∖ sp_owns p) l ->
  fill_shared_batch l pb (h, p) = (r, (h', p')) ->
  keeps_apart (sp_owns p) (sp_owns p') h h' /\ sp_closed p' = sp_closed p
  /\ sstored h' (sp_db p') = sstored h (sp_db p)
  /\ (is_ok r = true -> foldl apply_op m (srecorded h' (sp_db p') pb)
        = foldl apply_op (foldl apply_op m (srecorded h (sp_db p) pb)) (op_of h <$> l)).
Proof.
  induction l as [|op l IH]; intros h p r h' p' Ho Hl Hf.
  { injection Hf as <- <- <-. split; [by apply keeps_apart_grows|done]. }
  apply Forall_cons in Hl as [Hop Hl]. cbn [fill_shared_batch] in Hf.
  destruct (with_db (if so_Delete op then spb_Delete pb (so_Key op) else spb_Set pb (so_Key op) (so_Value op)) (h, p))
    as [r1 [h1 p1]] eqn:Hw.
  pose proof Hw as Hw'. apply with_db_inv in Hw' as (db1 & Hc & ->).
  assert (keeps_apart (sp_owns p) (sowns db1) h h1 /\ sstored h1 db1 = sstored h (sp_db p)
    /\ (is_ok r1 = true -> foldl apply_op m (srecorded h1 db1 pb)
          = apply_op (foldl apply_op m (srecorded h (sp_db p) pb)) (op_of h op))) as (Hka & Hs & Hrec).
  { unfold op_locs in Hop. destruct (so_Delete op) eqn:Hdel.
    - destruct (slaw_Delete pb (so_Key op) h (sp_db p) r1 h1 db1 Ho) as (? & ? & Hrec); [set_solver|done|].
      split_and!; [done..|].
      intros Hok. rewrite (Hrec Hok), foldl_app. cbn. unfold apply_op, op_of. cbn. by rewrite Hdel.
    - destruct (slaw_Set _ _ _ _ _ _ _ _ Ho Hop Hc) as (? & ? & Hrec). split_and!; [done..|].
      intros Hok. rewrite (Hrec Hok), foldl_app. cbn. unfold apply_op, op_of. cbn. by rewrite Hdel. }
  destruct r1 as [[]|err].
  - rewrite (bind_ok _ _ _ tt (h1, mkSharedPebble db1 (sp_closed p))) in Hf
      by (by rewrite wrapping_run, Hw).
    destruct (IH h1 (mkSharedPebble db1 (sp_closed p)) r h' p' (ka_owned _ _ _ _ Hka)) as (Hka' & Hc' & Hs' & Hrec'); [|done|].
    { eapply Forall_impl; [exact Hl|]. intros op' Hop'. by eapply apart_later. }
    split_and!; [by eapply keeps_apart_trans|done|by rewrite Hs'|]. intros Hok. rewrite (Hrec' Hok). cbn [sp_db fmap list_fmap foldl].
    rewrite (Hrec eq_refl). f_equal. apply list_fmap_ext. intros i op' Hi. eapply op_of_apart; [exact Hka|].
    exact (Forall_lookup_1 _ _ _ _ Hl Hi).
  - rewrite (bind_err _ _ _ (internal err "storage engine batch could not be built") (h1, mkSharedPebble db1 (sp_closed p))) in Hf
      by (by rewrite wrapping_run, Hw).
    injection Hf as <- <- <-. by split_and!.
Qed.

Lemma sp_Apply_spec ctx b sync h p m r h' p' :
  sp_holds h p m -> sp_owns p ⊆ dom h -> Forall (fun op => op_locs op ⊆ dom h ∖ sp_owns p) b ->
  ctx_Err ctx = None -> sharedPebble_Apply ctx b sync (h, p) = (r, (h', p')) ->
  let applied := foldl apply_op m (op_of h <$> b) in
  keeps_apart (sp_owns p) (sp_owns p') h h'
  /\ match r with
     | Ok _ => sp_holds h' p' applied
     | Err _ => True /\ (sp_holds h' p' m \/ sp_holds h' p' applied)
     end.
Proof.
  intros [Hc <-] Ho Hb Hctx Hr. unfold sharedPebble_Apply in Hr. rewrite (sp_live _ _ _ _ Hc Hctx) in Hr.
  destruct (sdb_NewBatch (h, sp_db p)) as [pb [h1 db1]] eqn:Hn. destruct (slaw_NewBatch _ _ _ _ _ Ho Hn) as (Hka1 & Hs1 & Hrec1).
  rewrite (bind_ok _ _ _ pb (h1, mkSharedPebble db1 (sp_closed p))) in Hr by (cbn; by rewrite Hn).
  destruct ((fill_shared_batch b pb;; wrapping "storage engine write failed" (with_db (spb_Commit pb sync)))
    (h1, mkSharedPebble db1 (sp_closed p))) as [r2 [h3 p3]] eqn:Hf. rewrite (try_bind _ _ _ _ _ Hf) in Hr.
  set (applied := foldl apply_op (sstored h (sp_db p)) (op_of h <$> b)).
  assert (keeps_apart (sp_owns p) (sp_owns p3) h h3 /\ sp_closed p3 = false
    /\ match r2 with
       | Ok _ => sstored h3 (sp_db p3) = applied
       | Err _ => sstored h3 (sp_db p3) = sstored h (sp_db p) \/ sstored h3 (sp_db p3) = applied
       end) as (Hka3 & Hc3 & Hs3).
  { destruct (fill_shared_batch b pb (h1, mkSharedPebble db1 (sp_closed p))) as [r4 [h2 p2]] eqn:Hfill.
    destruct (fill_shared_spec b pb (sstored h (sp_db p)) h1 (mkSharedPebble db1 (sp_closed p)) r4 h2 p2
      (ka_owned _ _ _ _ Hka1)) as (Hka2 & Hc2 & Hs2 & Hrec2); [|done|].
    { eapply Forall_impl; [exact Hb|]. intros op Hop. by eapply apart_later. }
    pose proof (keeps_apart_trans _ _ _ _ _ _ Hka1 Hka2) as Hka12. cbn in Hs2, Hc2, Hrec2. rewrite Hrec1 in Hrec2.
    assert ((op_of h1 <$> b) = (op_of h <$> b)) as Hops.
    { apply list_fmap_ext. intros i op Hi. eapply op_of_apart; [exact Hka1|]. exact (Forall_lookup_1 _ _ _ _ Hb Hi). }
    destruct r4 as [[]|err].
    - rewrite (bind_ok _ _ _ _ _ Hfill), wrapping_run in Hf.
      destruct (with_db (spb_Commit pb sync) (h2, p2)) as [r5 [h5 p5]] eqn:Hcm.
      apply with_db_inv in Hcm as (db5 & Hcm & ->).
      destruct (slaw_Commit _ _ _ _ _ _ _ (ka_owned _ _ _ _ Hka2) Hcm) as [Hka5 Hs5].
      rewrite Hs2, Hs1, (Hrec2 eq_refl), Hops in Hs5. cbn [foldl] in Hs5.
      destruct r5; injection Hf as <- <- <-; (split; [by eapply keeps_apart_trans|]); cbn; split; congruence || done.
    - rewrite (bind_err _ _ _ _ _ Hfill) in Hf. injection Hf as <- <- <-.
      split; [done|]. split; [congruence|]. left. congruence. }
  destruct (with_db (spb_Close pb) (h3, p3)) as [r6 [h6 p6]] eqn:Hcl. rewrite (try_bind _ _ _ _ _ Hcl) in Hr.
  apply with_db_inv in Hcl as (db6 & Hcl & ->).
  destruct (slaw_pb_Close _ _ _ _ _ _ (ka_owned _ _ _ _ Hka3) Hcl) as [Hka6 Hs6].
  pose proof (keeps_apart_trans _ _ _ _ _ _ Hka3 Hka6) as Hka. unfold sp_holds.
  destruct r2; injection Hr as <- <- <-; (split; [done|]); cbn; rewrite Hs6; [done|].
  split; [done|]. by destruct Hs3; [left|right].
Qed.

#[export] Instance sharedPebble_SharedSpec : SharedSpec (sharedPebble DB).
Proof.
  refine {| shared_holds := sp_holds; shared_owns := sp_owns; shared_fallible := True |}.
  - intros h h' p m [Hc <-] Hf. split; [done|]. by apply slaw_frame.
  - exact sp_Get_spec.
  - exact sp_Apply_spec.
  - intros ctx err h p m [Hc _] Hctx. split; intros; apply bind_err; unfold sharedPebble_usable;
      rewrite (bind_ok _ _ _ (h, p) (h, p)) by done; rewrite Hc; unfold contextError; by rewrite Hctx.
Defined.
End adapter_spec.

(** *** Iterators *)
Section iterator_spec.
Context {DB PB PIter : Type} `{SharedPebbleIterLaws DB PB PIter}.

Definition spi_ahead (h : arrays) (i : sharedPebbleIterator PIter) (es : list entry) : Prop :=
  spi_err i = None /\
  ((spi_started i = false /\ sunpositioned h (spi_it i) es)
   \/ (spi_started i = true /\ ((exists e, sat_entry h (spi_it i) e es) \/ es = [] /\ sexhausted h (spi_it i)))).

(** A move of the library's iterator, first or not. *)
Lemma spi_move h i es ok it h' :
  spi_ahead h i es -> piter_owns (spi_it i) ⊆ dom h ->
  (if spi_started i then spi_Next (spi_it i) h else spi_First (spi_it i) h) = (ok, (it, h')) ->
  keeps_apart (piter_owns (spi_it i)) (piter_owns it) h h'
  /\ match es with
     | [] => ok = false /\ sexhausted h' it
     | e :: es' => (ok = true /\ sat_entry h' it e es') \/ (ok = false /\ is_Some (spi_Error it))
     end.
Proof.
  intros [_ [[-> Hu]|[-> [(e0 & Hat)|[-> Hex]]]]] Ho Hm.
  - by eapply slaw_First.
  - by eapply slaw_Next.
  - by eapply slaw_Next_exhausted.
Qed.

#[export] Instance sharedPebbleIterator_SharedIterLaws : SharedIterLaws (sharedPebbleIterator PIter).
Proof.
  refine {| iter_ahead := spi_ahead; iter_owns i := piter_owns (spi_it i); iter_fallible := True |}.
  - intros h h' i es [He Ha] Hf. destruct (slaw_iter_frame h h' (spi_it i) Hf) as (Hf1 & Hf2 & Hf3). split; [done|].
    destruct Ha as [[? Hu]|[? [(e & Hat)|[? Hex]]]]; [left; by split; [|apply Hf1]|right..]; (split; [done|]).
    + left. exists e. by apply Hf2.
    + right. by split; [|apply Hf3].
  - intros h i es ok i' h' Ha Ho. pose proof (proj1 Ha) as He. cbn. unfold sharedPebbleIterator_Next.
    destruct (if spi_started i then _ else _) as [ok1 [it h1]] eqn:Hm.
    destruct (spi_move _ _ _ _ _ _ Ha Ho Hm) as [Hka Hx]. destruct es as [|e es].
    + destruct Hx as [-> Hx]. intros [= <- <- <-]. split_and!; [done|done| |by right].
      split; [done|]. right. split; [done|]. by right.
    + destruct Hx as [[-> Hat]|[-> [err Herr]]]; cbn [negb].
      * destruct (slaw_entry _ _ _ _ Hat) as (Hlk & Hrk & Hv). destruct (spi_ValueAndErr it) as [v|err]; intros [= <- <- <-].
        -- destruct (Hv v eq_refl) as [Hlv Hrv]. split; [done|]. left. split_and!; [done| |].
           ++ exists (spi_Key it), v. cbn. split_and!; [done|done|set_solver|done|done].
           ++ split; [done|]. right. split; [done|]. left. by exists e.
        -- split; [done|]. right. split_and!; [done|done|]. by eexists.
      * intros [= <- <- <-]. split; [done|]. right. split_and!; [done|done|].
        unfold sharedPebbleIterator_Err. cbn. rewrite He, Herr. by eexists.
Defined.

Lemma Clone_bound s h s' h' : slices_Clone s h = (s', h') -> bound h' s' = bound h s.
Proof.
  intros Hc. apply Clone_new in Hc as Hn. pose proof (new_read _ _ _ _ Hn) as Hr.
  destruct s as [l|]; cbn in Hc; [|by injection Hc as <- <-]. unfold make in Hc. injection Hc as <- <-.
  cbn. by rewrite Hr.
Qed.

(** The bounds the library gets are its own. *)
Lemma cloned_bounds lower upper h lo h1 up h2 :
  locs upper ⊆ dom h -> slices_Clone lower h = (lo, h1) -> slices_Clone upper h1 = (up, h2) ->
  h ⊆ h2 /\ locs lo ∪ locs up ⊆ dom h2 ∖ dom h /\ bound h2 lo = bound h lower /\ bound h2 up = bound h upper.
Proof.
  intros Hu Hlo Hup. apply Clone_new in Hlo as Hnl. apply Clone_new in Hup as Hnu.
  pose proof (new_locs _ _ _ _ Hnl). pose proof (new_locs _ _ _ _ Hnu).
  pose proof (new_grows _ _ _ _ Hnl) as Hg1. pose proof (new_grows _ _ _ _ Hnu) as Hg2.
  pose proof (subseteq_dom _ _ Hg1). pose proof (subseteq_dom _ _ Hg2).
  split_and!; [by etrans|set_solver| |].
  - rewrite <- (Clone_bound _ _ _ _ Hlo). apply bound_mono; [done|]. apply Hnl.
  - rewrite (Clone_bound _ _ _ _ Hup). by apply bound_mono; [|apply locs_valid].
Qed.

Lemma sp_NewIterator_spec ctx lower upper h p m r h' p' :
  sp_holds h p m -> sp_owns p ⊆ dom h -> locs lower ∪ locs upper ⊆ dom h ∖ sp_owns p -> ctx_Err ctx = None ->
  sharedPebble_NewIterator ctx lower upper (h, p) = (r, (h', p')) ->
  keeps_apart (sp_owns p) (sp_owns p') h h' /\ sp_holds h' p' m
  /\ match r with
     | Ok it => piter_owns (spi_it it) ⊆ dom h' ∖ dom h ∖ sp_owns p'
         /\ exists es, spi_ahead h' it es /\ shows m (bound h lower) (bound h upper) es
     | Err _ => True
     end.
Proof.
  intros [Hc <-] Ho Hb Hctx Hr. unfold sharedPebble_NewIterator in Hr.
  rewrite (sp_live _ _ _ _ Hc Hctx) in Hr. rewrite (bind_ok _ _ _ (h, p) (h, p)) in Hr by done.
  destruct (slices_Clone lower h) as [lo h1] eqn:Hlo. destruct (slices_Clone upper h1) as [up h2] eqn:Hup.
  rewrite (bind_ok _ _ _ tt (h2, p)) in Hr by done.
  destruct (cloned_bounds lower upper h lo h1 up h2) as (Hg & Hl & Hbl & Hbu); [set_solver|done|done|].
  pose proof (keeps_apart_grows (sp_owns p) h h2 Hg Ho) as Hka.
  assert (sstored h2 (sp_db p) = sstored h (sp_db p)) as Hs2.
  { apply slaw_frame. intros l Hol. apply Ho in Hol as [x Hx]%elem_of_dom. by rewrite Hx, (lookup_weaken _ _ _ _ Hx Hg). }
  destruct (with_db (sdb_NewIter lo up) (h2, p)) as [r3 [h3 p3]] eqn:Hn.
  pose proof (wrapping_run "storage engine iterator could not be created" (with_db (sdb_NewIter lo up)) (h2, p)) as Hw.
  rewrite Hn in Hw. apply with_db_inv in Hn as (db3 & Hn & ->).
  destruct (slaw_NewIter lo up h2 (sp_db p) r3 h3 db3 (ka_owned _ _ _ _ Hka)) as (Hka3 & Hs3 & Hx);
    [unfold sp_owns in Ho; set_solver|done|].
  pose proof (keeps_apart_trans _ _ _ _ _ _ Hka Hka3) as Hka13. destruct r3 as [it|err].
  - rewrite (bind_ok _ _ _ _ _ Hw) in Hr. injection Hr as <- <- <-. split; [done|]. split; [split; cbn; congruence|].
    destruct Hx as (Hown & es & Hu & Hsh). rewrite Hbl, Hbu, Hs2 in Hsh. split.
    + pose proof (ka_dom _ _ _ _ Hka) as Hd. pose proof (ka_dom _ _ _ _ Hka3) as Hd3.
      pose proof (ka_new _ _ _ _ Hka3) as Hn3. unfold sp_owns in *. cbn. clear -Hown Hl Ho Hd Hd3 Hn3. set_solver.
    + exists es. split; [|done]. split; [done|]. by left.
  - rewrite (bind_err _ _ _ _ _ Hw) in Hr. injection Hr as <- <- <-. split; [done|]. split; [split; cbn; congruence|done].
Qed.

#[export] Instance sharedPebble_SharedIterSpec : SharedIterSpec (sharedPebble DB) (sharedPebbleIterator PIter).
Proof.
  split; [exact sp_NewIterator_spec|]. intros ctx err lower upper h p m [Hc _] Hctx. apply bind_err.
  unfold sharedPebble_usable. rewrite (bind_ok _ _ _ (h, p) (h, p)) by done. rewrite Hc. unfold contextError. by rewrite Hctx.
Qed.
End iterator_spec.

(** C24: The Pebble adapter copies what crosses it. Over any library that behaves as
    Pebble documents, may fail at any call, may keep and overwrite buffers of its
    own, may reuse the value it returned once its closer is closed, and keeps the
    bounds of its iterators: whatever a caller overwrites of the slices it made,
    passed or received, every read and every iteration returns what the same calls
    on immutable values return, where a batch whose write failed was applied whole
    or not at all. The contract test that tries this passes or reports that a call
    failed. *)
Theorem Pebble_copies DB PB PIter `{SharedPebbleIterLaws DB PB PIter} h (p : sharedPebble DB) :
  sp_closed p = false -> sstored h (sp_db p) = ∅ -> sowns (sp_db p) ⊆ dom h ->
  (forall ks c', client_run (mkClient h p ∅ ∅) ks c' ->
     exists m bs, (m, bs) ∈ run_values ks (∅, ∅) /\ sstored (c_h c') (sp_db (c_e c')) = m)
  /\ (forall qs (c' : reader (sharedPebble DB) (sharedPebbleIterator PIter)),
     reader_run (mkReader h p ∅ ∅) qs c' ->
     exists m its, (m, its) ∈ run_reading qs (∅, ∅) /\ sstored (r_h c') (sp_db (r_e c')) = m)
  /\ forall passed, (contractValuesAreCopies (mkClient h p ∅ ∅)).1 = Ok passed -> passed = true.
Proof.
  intros Hc Hs Ho. assert (shared_holds h p ∅) as Hh by (by split).
  destruct (copies_hold h p Hh Ho) as [Hrun Htest]. split_and!.
  - intros ks c' Hr. destruct (Hrun ks c' Hr) as (m & bs & Hin & _ & Hm). by exists m, bs.
  - intros qs c' Hr. destruct (reader_run_values _ _ _ _ (rapart_start h p ∅ Hh Ho) Hr) as ([m its] & Hin & Ha).
    exists m, its. split; [done|]. apply (ra_holds _ _ Ha).
  - intros passed Hp. by rewrite Hp in Htest.
Qed.

(** ** A library to try it on

    One batch, and one buffer for all values, which closing a value overwrites. An
    iterator keeps its bounds and looks at them in every move; a buffer each for
    keys and values. *)
Record buffered := mkBuffered { bu_data : contents; bu_ops : list Op; bu_buffer : nat }.

#[export] Instance buffered_pebble : SharedPebbleAPI buffered unit := {
  sdb_Get k := fun '(h, db) =>
    match bu_data db !! read h k with
    | Some v => (Ok (Some (bu_buffer db)), (<[bu_buffer db := v]> h, db))
    | None => (Err (ESentinel "pebble: not found"), (h, db))
    end;
  scloser_Close := fun '(h, db) => (Ok tt, (<[bu_buffer db := B "stale"]> h, db));
  sdb_NewBatch := fun '(h, db) => (tt, (h, mkBuffered (bu_data db) [] (bu_buffer db)));
  spb_Set _ k v := fun '(h, db) =>
    (Ok tt, (h, mkBuffered (bu_data db) (bu_ops db ++ [mkOp (read h k) (read h v) false]) (bu_buffer db)));
  spb_Delete _ k := fun '(h, db) =>
    (Ok tt, (h, mkBuffered (bu_data db) (bu_ops db ++ [mkOp (read h k) [] true]) (bu_buffer db)));
  spb_Commit _ _ := fun '(h, db) =>
    (Ok tt, (h, mkBuffered (foldl apply_op (bu_data db) (bu_ops db)) (bu_ops db) (bu_buffer db)));
  spb_Close _ := fun s => (Ok tt, s);
  sErrNotFound := ESentinel "pebble: not found";
}.

Lemma overwrites l bs (h : arrays) : {[l]} ⊆ dom h -> keeps_apart {[l]} {[l]} h (<[l := bs]> h).
Proof.
  intros Hl. split; [set_solver| |set_solver|set_solver]. intros l' _ Hne. apply lookup_insert_ne. set_solver.
Qed.

#[export] Instance buffered_pebble_laws : SharedPebbleLaws buffered unit.
Proof.
  refine {| sstored _ db := bu_data db; srecorded _ db _ := bu_ops db; sowns db := {[bu_buffer db]} |}.
  - done.
  - intros k h db r h' db' Ho Hk. cbn. destruct (bu_data db !! read h k) as [v|] eqn:Hv; intros [= <- <- <-].
    + split_and!; [by apply overwrites|done|cbn; set_solver|]. unfold read. cbn. by rewrite lookup_insert_eq.
    + split_and!; [by apply keeps_apart_grows|done|done].
  - intros h db r h' db' Ho [= <- <- <-]. split; [by apply overwrites|done].
  - intros h db pb h' db' Ho [= <- <- <-]. split_and!; [by apply keeps_apart_grows|done..].
  - intros pb k v h db r h' db' Ho Hk [= <- <- <-]. split_and!; [by apply keeps_apart_grows|done..].
  - intros pb k h db r h' db' Ho Hk [= <- <- <-]. split_and!; [by apply keeps_apart_grows|done..].
  - intros pb sync h db r h' db' Ho [= <- <- <-]. split; [by apply keeps_apart_grows|done].
  - intros pb h db r h' db' Ho [= <- <- <-]. split; [by apply keeps_apart_grows|done].
Defined.

Record buffered_iter := mkBufferedIter {
  bi_rest : list entry; bi_lower : slice; bi_upper : slice; bi_key : nat; bi_value : nat
}.

Definition bi_left (h : arrays) (it : buffered_iter) : list entry :=
  filter (fun e => in_range (bound h (bi_lower it)) (bound h (bi_upper it)) e.1) (bi_rest it).

Definition bi_move (it : buffered_iter) (h : arrays) : bool * (buffered_iter * arrays) :=
  match bi_left h it with
  | [] => (false, (mkBufferedIter [] (bi_lower it) (bi_upper it) (bi_key it) (bi_value it), h))
  | e :: es => (true, (mkBufferedIter es (bi_lower it) (bi_upper it) (bi_key it) (bi_value it),
                  <[bi_key it := e.1]> (<[bi_value it := e.2]> h)))
  end.

#[export] Instance buffered_pebble_iter : SharedPebbleIterAPI buffered buffered_iter := {
  sdb_NewIter lower upper := fun '(h, db) =>
    let k := fresh (dom h) in
    let v := fresh ({[k]} ∪ dom h) in
    (Ok (mkBufferedIter (merge_sort entry_le (map_to_list (bu_data db))) lower upper k v),
     (<[v := []]> (<[k := []]> h), db));
  spi_First := bi_move;
  spi_Next := bi_move;
  spi_Key it := Some (bi_key it);
  spi_ValueAndErr it := Ok (Some (bi_value it));
  spi_Error _ := None;
}.

Definition bi_bounds (it : buffered_iter) : gset nat := locs (bi_lower it) ∪ locs (bi_upper it).
Definition bi_sane (it : buffered_iter) : Prop :=
  bi_key it <> bi_value it /\ bi_key it ∉ bi_bounds it /\ bi_value it ∉ bi_bounds it.
Definition bi_owns (it : buffered_iter) : gset nat := {[bi_key it; bi_value it]} ∪ bi_bounds it.

Lemma bound_frame (h h' : arrays) s : (forall l, l ∈ locs s -> h' !! l = h !! l) -> bound h' s = bound h s.
Proof. intros Hf. destruct s as [l|]; [|done]. cbn. unfold read. cbn. rewrite Hf; [done|set_solver]. Qed.

Lemma bi_left_frame h h' it : (forall l, l ∈ bi_bounds it -> h' !! l = h !! l) -> bi_left h' it = bi_left h it.
Proof.
  unfold bi_bounds, bi_left. intros Hf. by rewrite !(bound_frame h h') by (intros l Hl; apply Hf; set_solver).
Qed.

Lemma StronglySorted_filter {A} (R : relation A) (P : A -> Prop) `{!forall x, Decision (P x)} (l : list A) :
  StronglySorted R l -> StronglySorted R (filter P l).
Proof.
  induction 1 as [|x l Hs IH Hx]; [constructor|]. rewrite filter_cons. case_decide; [|done].
  constructor; [done|]. apply Forall_forall. intros y [_ Hy]%list_elem_of_filter. by eapply Forall_forall in Hx.
Qed.

(** The entries of the range, in order. *)
Lemma bi_all_shows m lower upper :
  shows m lower upper (filter (fun e => in_range lower upper e.1) (merge_sort entry_le (map_to_list m))).
Proof.
  apply sorted_shows; [by rewrite merge_sort_Permutation|].
  apply StronglySorted_filter, StronglySorted_merge_sort; apply _.
Qed.

Lemma filter_all {A} (P : A -> Prop) `{!forall x, Decision (P x)} (l : list A) : Forall P l -> filter P l = l.
Proof. induction 1 as [|x l Hx _ IH]; [done|]. by rewrite filter_cons, decide_True, IH by done. Qed.

(** A move of a sane iterator. *)
Lemma bi_move_spec h it ok it' h' :
  bi_sane it -> bi_owns it ⊆ dom h -> bi_move it h = (ok, (it', h')) ->
  bi_sane it' /\ keeps_apart (bi_owns it) (bi_owns it') h h'
  /\ match bi_left h it with
     | [] => ok = false /\ bi_left h' it' = []
     | e :: es => ok = true /\ bi_left h' it' = es /\ h' !! bi_key it' = Some e.1 /\ h' !! bi_value it' = Some e.2
     end.
Proof.
  intros (Hkv & Hk & Hv) Ho. unfold bi_move. destruct (bi_left h it) as [|e es] eqn:Hl; intros [= <- <- <-].
  { split; [done|]. split; [by apply keeps_apart_grows|done]. }
  split; [done|]. split; [|split_and!; [done| |by rewrite lookup_insert_eq|]].
  - unfold bi_owns in *. cbn. split; [set_solver| |set_solver|set_solver].
    intros l _ Hne. rewrite !lookup_insert_ne by set_solver. done.
  - rewrite (bi_left_frame h).
    + unfold bi_left in *. cbn. assert (Forall (fun e => in_range (bound h (bi_lower it)) (bound h (bi_upper it)) e.1) (e :: es)) as [_ Hes]%Forall_cons.
      { rewrite <- Hl. apply Forall_forall. by intros x [? _]%list_elem_of_filter. }
      by apply filter_all.
    + unfold bi_bounds. cbn. intros l Hin. unfold bi_bounds in Hk, Hv. rewrite !lookup_insert_ne by set_solver. done.
  - cbn. rewrite lookup_insert_ne by done. by rewrite lookup_insert_eq.
Qed.

#[export] Instance buffered_pebble_iter_laws : SharedPebbleIterLaws buffered unit buffered_iter.
Proof.
  refine {| piter_owns := bi_owns;
            sunpositioned h it es := bi_sane it /\ bi_left h it = es;
            sat_entry h it e es := bi_sane it /\ bi_left h it = es /\ h !! bi_key it = Some e.1 /\ h !! bi_value it = Some e.2;
            sexhausted h it := bi_sane it /\ bi_left h it = [] |}.
  - intros h h' it Hf. assert (bi_left h' it = bi_left h it) as ->.
    { apply bi_left_frame. intros l Hl. apply Hf. unfold bi_owns. set_solver. }
    rewrite !Hf by (unfold bi_owns; set_solver). done.
  - intros lower upper h db r h' db' Ho Hb. cbn. pose proof (is_fresh (dom h)) as Hfk.
    set (k := fresh (dom h)) in *. pose proof (is_fresh ({[k]} ∪ dom h)) as Hfv. set (v := fresh ({[k]} ∪ dom h)) in *.
    intros [= <- <- <-]. assert (h ⊆ <[v := []]> (<[k := []]> h)) as Hg.
    { etrans; [|apply insert_subseteq, not_elem_of_dom; set_solver]. apply insert_subseteq, not_elem_of_dom. set_solver. }
    split; [by apply keeps_apart_grows|]. split; [done|]. split.
    + unfold bi_owns, bi_bounds. cbn in *. set_solver.
    + eexists. split; [split; [|done]|].
      * unfold bi_sane, bi_bounds. cbn. split_and!; set_solver.
      * unfold bi_left. cbn [bi_lower bi_upper bi_rest]. cbn in Hb.
        rewrite (bound_mono h _ lower Hg), (bound_mono h _ upper Hg) by (apply locs_valid; set_solver). apply bi_all_shows.
  - intros h it es ok it' h' [Hs <-] Ho Hm. destruct (bi_move_spec _ _ _ _ _ Hs Ho Hm) as (Hs' & Hka & Hx).
    split; [done|]. destruct (bi_left h it); [naive_solver|]. left. naive_solver.
  - intros h it e0 es ok it' h' (Hs & <- & _) Ho Hm. destruct (bi_move_spec _ _ _ _ _ Hs Ho Hm) as (Hs' & Hka & Hx).
    split; [done|]. destruct (bi_left h it); [naive_solver|]. left. naive_solver.
  - intros h it ok it' h' [Hs He] Ho Hm. destruct (bi_move_spec _ _ _ _ _ Hs Ho Hm) as (Hs' & Hka & Hx).
    rewrite He in Hx. naive_solver.
  - intros h it e es (_ & _ & Hk & Hv). unfold bi_owns. cbn. split_and!; [set_solver|unfold read; cbn; by rewrite Hk|].
    intros v [= <-]. split; [set_solver|]. unfold read. cbn. by rewrite Hv.
Defined.
(** The test, on that library. *)
Lemma Pebble_copies_witness :
  let p := mkSharedPebble (mkBuffered ∅ [] 0) false in
  (contractValuesAreCopies (mkClient {[0%nat := B "stale"]} p ∅ ∅)).1 = Ok true.
Proof.
  intros p. destruct (contractValuesAreCopies (mkClient {[0%nat := B "stale"]} p ∅ ∅)).1 as [passed|e] eqn:Ht.
  - f_equal. refine (proj2 (proj2 (Pebble_copies buffered unit buffered_iter {[0%nat := B "stale"]} p _ _ _)) passed Ht).
    + reflexivity.
    + reflexivity.
    + cbn. set_solver.
  - vm_compute in Ht. discriminate Ht.
Defined.
