(* ===== verification/DataDir.v ===== *)
(** * The data directory (internal/storage/version.go)

    The format marker, its creation by write, flush and rename, and the check
    every start makes. *)

From stdpp Require Import prelude gmap strings list sorting.
From Stdlib Require Import ZArith Lia.
From S2P Require Import Prelude GoBytes GoStrings Kverr Record Fs FsFacts Segment Log LogRepr LogFacts Durability.

Local Open Scope Z_scope.

Definition FormatVersion : Z := 1.
Definition versionFile : string := "storage_version".
Definition logDir : string := "log".
Definition engineDir : string := "engine".

(** [filepath.Join] of a clean directory and a name. *)
Definition LogDir (dataDir : string) : string := dataDir +:+ "/" +:+ logDir.
Definition EngineDir (dataDir : string) : string := dataDir +:+ "/" +:+ engineDir.

(** [errors.Join] of results. *)
Definition join_errors (rs : list (result error unit)) : option error :=
  match omap (fun r => match r with Err e => Some e | Ok _ => None end) rs with
  | [] => None
  | es => Some (EJoin es)
  end.

Definition writeFileAtomic (dir name : string) (content : bytes) : IO unit :=
  let p := Path dir name in
  let tmp := Path dir (name +:+ ".tmp") in
  f ← wrapping (name +:+ " could not be created") (os_OpenFile_create_trunc tmp);
  writeErr ← try (file_Write f content);
  syncErr ← try (file_Sync f);
  closeErr ← try (file_Close f);
  match join_errors [writeErr; syncErr; closeErr] with
  | Some err => fail (internal err (name +:+ " could not be written"))
  | None =>
      wrapping (name +:+ " could not be put in place") (os_Rename tmp p);;
      syncDir dir
  end.

Definition marker : bytes := String.list_byte_of_string (Itoa FormatVersion +:+ String (Ascii.ascii_of_nat 10) "").

Definition refuse (text : string) : error := kv (New ReasonInternal text).

Definition initializeDataDir (dir : string) : IO unit :=
  entries ← wrapping "data directory could not be read" (os_ReadDir dir);
  if forallb (fun e => bool_decide (e.1 = versionFile +:+ ".tmp")) entries
  then writeFileAtomic dir versionFile marker
  else fail (refuse ("data directory " +:+ dir
         +:+ " contains data but no storage_version marker; refusing to use it")).

Definition checkVersion (dir : string) (content : string) : option error :=
  match Atoi (TrimSpace content) with
  | Err _ =>
      Some (refuse ("data directory " +:+ dir +:+ " has an unreadable storage_version marker " +:+ Quote content))
  | Ok version =>
      if negb (version =? FormatVersion) then
        Some (refuse ("data directory " +:+ dir +:+ " uses storage format " +:+ Itoa version
                      +:+ ", but this binary supports only format " +:+ Itoa FormatVersion))
      else None
  end.

Definition PrepareDataDir (dir : string) : IO unit :=
  wrapping "data directory could not be created" (os_MkdirAll dir);;
  r ← try (os_ReadFile (Path dir versionFile));
  match r with
  | Ok content =>
      match checkVersion dir (String.string_of_list_byte content) with
      | Some err => fail err
      | None => mret tt
      end
  | Err err =>
      if errors_Is err ENotExist then initializeDataDir dir
      else fail (internal err "storage_version marker could not be read")
  end.

(** ** The calls it adds *)

(** Nothing changed but the entry at [p], and possibly durability. *)
Definition elsewhere (p : path) (w w' : world) : Prop :=
  (forall q, p <> q -> same_entry (entry_of q w) (entry_of q w'))
  /\ (forall d, ghosts_of d w' = ghosts_of d w)
  /\ (forall d, is_Some (dir_of d w') <-> is_Some (dir_of d w))
  /\ (faultless w -> faultless w').

Lemma quiet_elsewhere p w w' : quiet w w' -> elsewhere p w w'.
Proof.
  intros (Hw & _ & Hf). split_and!; [| | |done]; intros; rewrite <- Hw; [apply same_entry_refl|done|done].
Qed.

Lemma same_entry_trans e1 e2 e3 : same_entry e1 e2 -> same_entry e2 e3 -> same_entry e1 e3.
Proof. destruct e1, e2, e3; simpl; try done. intros [-> ?] [-> ?]. auto. Qed.

Lemma elsewhere_trans p w1 w2 w3 : elsewhere p w1 w2 -> elsewhere p w2 w3 -> elsewhere p w1 w3.
Proof.
  intros (H1 & H2 & H3 & H4) (H5 & H6 & H7 & H8). split_and!.
  - intros q Hq. eapply same_entry_trans; auto.
  - intros d. by rewrite H6.
  - intros d. by rewrite H7.
  - auto.
Qed.

Lemma set_dir_elsewhere p d x w :
  dir_of (p_dir p) w = Some d -> d_ghosts x = d_ghosts d ->
  (forall n, n <> p_base p -> d_entries x !! n = d_entries d !! n) ->
  elsewhere p w (set_dir (p_dir p) x w).
Proof.
  intros Hd Hg He. split_and!; [| | |done].
  - intros q Hq. rewrite (entry_of_set_dir _ _ _ _ _ Hd). case_decide as Hdir; [|apply same_entry_refl].
    rewrite He; [|intros Hb; apply Hq; destruct p, q; simpl in *; congruence].
    unfold entry_of. rewrite Hdir, Hd. apply same_entry_refl.
  - intros d'. unfold ghosts_of. rewrite dir_of_set_dir. case_decide as Hdd; [|done]. subst. rewrite Hd. simpl. by rewrite Hg.
  - intros d'. rewrite dir_of_set_dir. case_decide as Hdd; [|done]. subst. rewrite Hd. split; eauto.
Qed.

Lemma wrote_elsewhere p f w w' : wrote p f w w' -> elsewhere p w w'.
Proof.
  intros (Hu & _ & Hf). unfold updated in Hu.
  assert (elsewhere p w (set_file p f w)) as (H1 & H2 & H3 & H4).
  { unfold set_file. destruct (dir_of (p_dir p) w) as [d|] eqn:Hd; [|by apply quiet_elsewhere, quiet_refl].
    apply (set_dir_elsewhere _ d); [done|done|]. intros n Hn. simpl. by rewrite lookup_alter_ne. }
  split_and!; [| | |done]; intros; rewrite <- Hu; auto.
Qed.

Lemma create_trunc_inv p w r w' :
  os_OpenFile_create_trunc p w = (r, w') ->
  elsewhere p w w' /\
  ((r = Ok (Handle p true) /\ exists disk, file_of p w' = Some (File [] disk))
   \/ (exists e, r = Err e /\ (faultless w -> is_Some (dir_of (p_dir p) w) ->
         exists b, entry_of p w = Some (Dirent Irregular b)))).
Proof.
  intros [(e & -> & Hnf & Hq)|(w1 & Hq & H)]%call_cases.
  { split; [by apply quiet_elsewhere|]. right. exists e. split; [done|]. intros. contradiction. }
  apply (quiet_elsewhere p) in Hq as Hel. pose proof Hq as (Hw & _).
  destruct (dir_of (p_dir p) w1) as [d|] eqn:Hd.
  2:{ injection H as <- <-. split; [done|]. right. eexists. split; [done|]. intros _ Hx.
      rewrite (wequiv_dir _ _ Hw), Hd in Hx. by destruct Hx. }
  assert (entry_of p w1 = d_entries d !! p_base p) as He by (unfold entry_of; by rewrite Hd).
  destruct (d_entries d !! p_base p) as [[[f|] b]|] eqn:Hx; injection H as <- <-.
  - pose proof (set_file_wrote p (File [] (f_disk f)) _ _ (quiet_refl w1)) as Hwr.
    split; [eapply elsewhere_trans; [done|by eapply wrote_elsewhere]|]. left. split; [done|]. exists (f_disk f).
    eapply updated_file_eq; [apply Hwr|]. apply file_of_entry. eauto.
  - split; [done|]. right. eexists. split; [done|]. intros. exists b. by rewrite Hw, He.
  - split.
    + eapply elsewhere_trans; [done|]. apply (set_dir_elsewhere _ d); [done|done|].
      intros n Hn. simpl. by rewrite lookup_insert_ne.
    + left. split; [done|]. exists []. apply file_of_entry. exists false.
      rewrite (entry_of_set_dir _ _ _ _ _ Hd), decide_True by done. simpl. by rewrite lookup_insert_eq.
Qed.

Lemma os_Rename_inv tmp p w r w' n :
  p_dir tmp = p_dir p -> p_base tmp <> p_base p -> file_of tmp w = Some n ->
  os_Rename tmp p w = (r, w') ->
  (r = Ok tt /\ entry_of p w' = Some (Dirent (Regular n) false)
     /\ is_Some (dir_of (p_dir p) w') /\ (faultless w -> faultless w'))
  \/ (exists e, r = Err e /\ quiet w w' /\ ~ faultless w).
Proof.
  intros Hdir Hne Hf [(e & -> & Hnf & Hq)|(w1 & Hq & H)]%call_cases.
  { right. by exists e. }
  pose proof Hq as (Hw & _ & Hfl). rewrite Hw in Hf. apply file_of_entry in Hf as [b Hf].
  unfold entry_of in Hf. destruct (dir_of (p_dir tmp) w1) as [d|] eqn:Hd; [|done]. simpl in Hf.
  rewrite Hf in H. injection H as <- <-. left. rewrite <- Hdir. split_and!; [done| | |done].
  - rewrite (entry_of_set_dir _ _ _ _ _ Hd), decide_True by done. simpl. by rewrite lookup_insert_eq.
  - rewrite dir_of_set_dir, decide_True by done. eauto.
Qed.

(** ** Writing a file atomically *)

(** The write, flush and close of the temporary file. *)
Lemma write_tmp_run tmp content disk w r1 w1 r2 w2 r3 w3 :
  file_of tmp w = Some (File [] disk) ->
  file_Write (Handle tmp true) content w = (r1, w1) ->
  file_Sync (Handle tmp true) w1 = (r2, w2) -> file_Close (Handle tmp true) w2 = (r3, w3) ->
  elsewhere tmp w w3 /\
  ((r1 = Ok tt /\ r2 = Ok tt /\ r3 = Ok tt /\ file_of tmp w3 = Some (File content content))
   \/ (is_Some (join_errors [r1; r2; r3]) /\ ~ faultless w)).
Proof.
  intros Hf H1 H2 H3. destruct (file_Close_inv _ _ _ _ H3) as (Hq3 & Hr3).
  assert (elsewhere tmp w w1 /\ ((r1 = Ok tt /\ file_of tmp w1 = Some (File content disk))
    \/ (exists e, r1 = Err e) /\ ~ faultless w)) as [He1 Hr1].
  { destruct (file_Write_inv _ _ _ _ _ H1) as [(f & _ & Hf' & -> & Hw)|[(e & f & n & -> & Hnf & Hf' & Hw)|(e & -> & Hq & Hn)]];
      cbn [h_path h_open] in *.
    - split; [by eapply wrote_elsewhere|left]. split; [done|]. rewrite Hf in Hf'. injection Hf' as <-.
      eapply updated_file_eq; [apply Hw|done].
    - split; [by eapply wrote_elsewhere|right]. eauto.
    - rewrite Hn in Hf by done. done. }
  assert (elsewhere tmp w1 w2) as He2.
  { destruct (file_Sync_inv _ _ _ _ H2) as [(f & _ & _ & _ & Hw)|(e & _ & Hq & _)];
      [by eapply wrote_elsewhere|by apply quiet_elsewhere]. }
  split; [eapply elsewhere_trans; [done|]; eapply elsewhere_trans; [done|by apply quiet_elsewhere]|].
  destruct Hr1 as [(-> & Hf1)|((e & ->) & Hnf)]; [|right; split; [by destruct r2, r3; eexists|done]].
  destruct (file_Sync_inv _ _ _ _ H2) as [(f & _ & Hf' & -> & Hw)|(e & -> & Hq & Hn)]; cbn [h_path h_open] in *.
  - rewrite Hf1 in Hf'. injection Hf' as <-. destruct Hr3 as [->|(e & -> & Hn)].
    + left. split_and!; try done. rewrite <- (proj1 Hq3). eapply updated_file_eq; [apply Hw|done].
    + right. split; [by eexists|]. intros Hfl. apply He1, He2, Hn in Hfl. done.
  - right. split; [by destruct r3; eexists|]. intros Hfl. rewrite Hn in Hf1; [done|by apply He1|done].
Qed.

(** A file with this content. *)
Definition has_content (p : path) (content : bytes) (w : world) : Prop :=
  exists disk b, entry_of p w = Some (Dirent (Regular (File content disk)) b).

(** No trace of the file, or all of it. *)
Definition whole_or_absent (dir name : string) (content : bytes) (w : world) : Prop :=
  (entry_of (Path dir name) w = None /\ ghosts_of dir w !! name = None)
  \/ exists b, entry_of (Path dir name) w = Some (Dirent (Regular (File content content)) b).

Lemma tmp_ne dir name : Path dir (name +:+ ".tmp") <> Path dir name.
Proof.
  intros [= H]. induction name as [|c name IH]; cbn [String.append] in H; [done|].
  injection H as H. auto.
Qed.

Lemma elsewhere_absent dir name w w' :
  elsewhere (Path dir (name +:+ ".tmp")) w w' ->
  entry_of (Path dir name) w = None -> ghosts_of dir w !! name = None ->
  entry_of (Path dir name) w' = None /\ ghosts_of dir w' !! name = None.
Proof.
  intros (He & Hg & _) Hn Hgh. rewrite Hg. split; [|done].
  specialize (He _ (tmp_ne dir name)). rewrite Hn in He. by destruct (entry_of (Path dir name) w').
Qed.

Lemma flushed_entry dir name n b w w1 w2 w' :
  entry_of (Path dir name) w = Some (Dirent n b) -> quiet w w1 -> flushed dir w1 w2 -> quiet w2 w' ->
  entry_of (Path dir name) w' = Some (Dirent n true).
Proof.
  intros He (Hq1 & _) (Hf & _) (Hq2 & _). rewrite <- Hq2, Hf, decide_True, <- Hq1, He by done. done.
Qed.

Lemma writeFileAtomic_run dir name content w r w' :
  entry_of (Path dir name) w = None -> ghosts_of dir w !! name = None ->
  writeFileAtomic dir name content w = (r, w') ->
  whole_or_absent dir name content w' /\
  ((r = Ok tt /\ entry_of (Path dir name) w' = Some (Dirent (Regular (File content content)) true)
     /\ (faultless w -> faultless w'))
   \/ (exists e, r = Err e /\ (faultless w -> is_Some (dir_of dir w) ->
         exists b, entry_of (Path dir (name +:+ ".tmp")) w = Some (Dirent Irregular b)))).
Proof.
  intros Hn Hg H. unfold writeFileAtomic in H. set (tmp := Path dir (name +:+ ".tmp")) in *.
  unfold mbind at 1 in H. unfold M_bind at 1 in H. rewrite wrapping_run in H.
  destruct (os_OpenFile_create_trunc tmp w) as [r0 w0] eqn:Hc.
  destruct (create_trunc_inv _ _ _ _ Hc) as (He0 & [(-> & disk & Hf0)|(e & -> & Hnf)]).
  2:{ injection H as <- <-. split; [left; by apply (elsewhere_absent _ _ w)|]. right. eexists. by split. }
  destruct (file_Write (Handle tmp true) content w0) as [r1 w1] eqn:H1. rewrite (try_bind _ _ _ _ _ H1) in H.
  destruct (file_Sync (Handle tmp true) w1) as [r2 w2] eqn:H2. rewrite (try_bind _ _ _ _ _ H2) in H.
  destruct (file_Close (Handle tmp true) w2) as [r3 w3] eqn:H3. rewrite (try_bind _ _ _ _ _ H3) in H.
  destruct (write_tmp_run _ _ _ _ _ _ _ _ _ _ Hf0 H1 H2 H3) as (He3 & Hcase).
  pose proof (elsewhere_trans _ _ _ _ He0 He3) as He.
  destruct (elsewhere_absent _ _ _ _ He Hn Hg) as [Hn3 Hg3].
  destruct Hcase as [(-> & -> & -> & Hf3)|([err Hj] & Hnf)].
  2:{ rewrite Hj in H. injection H as <- <-. split; [by left|]. right. eexists. split; [done|].
      intros Hfl. by apply He0 in Hfl. }
  cbn [join_errors omap list_omap] in H. unfold mbind at 1 in H. unfold M_bind at 1 in H. rewrite wrapping_run in H.
  destruct (os_Rename tmp (Path dir name) w3) as [r4 w4] eqn:Hr.
  assert (p_base tmp <> p_base (Path dir name)) as Hne.
  { intros Hb. apply (tmp_ne dir name). simpl in Hb. by rewrite Hb. }
  destruct (os_Rename_inv tmp (Path dir name) _ _ _ _ eq_refl Hne Hf3 Hr)
    as [(-> & He4 & Hd4 & Hfl4)|(e & -> & Hq4 & Hnf)].
  2:{ injection H as <- <-. assert (~ faultless w) as Hnw by (intros Hfl; by apply Hnf, He).
      split; [left; by rewrite <- (proj1 Hq4)|]. right. eexists. split; [done|]. intros. contradiction. }
  destruct (syncDir_inv _ _ _ _ H) as [(-> & w5 & w6 & Hq5 & Hfl6 & Hq6)|(e & -> & Hnf & Hcase)].
  - pose proof (flushed_entry _ _ _ _ _ _ _ _ He4 Hq5 Hfl6 Hq6) as Hfe.
    split; [right; eauto|]. left. split_and!; [done|done|]. intros Hfl.
    by apply Hq6, Hfl6, Hq5, Hfl4, He.
  - split.
    + right. destruct Hcase as [Hq5|(w5 & w6 & Hq5 & Hfl6 & Hq6)].
      * exists false. by rewrite <- (proj1 Hq5).
      * exists true. by eapply flushed_entry.
    + right. exists e. split; [done|]. intros Hfl _. exfalso. apply Hnf; [|done]. by apply Hfl4, He.
Qed.

Lemma crash_whole_or_absent dir name content w w' :
  whole_or_absent dir name content w -> crash w w' ->
  entry_of (Path dir name) w' = None \/ has_content (Path dir name) content w'.
Proof.
  intros Hwa Hc. destruct (entry_of (Path dir name) w') as [[n b']|] eqn:He'; [right|by left].
  pose proof (crash_present _ _ _ _ Hc He') as He. cbn [p_dir p_base] in He.
  destruct Hwa as [[Hn Hg]|[b Hb]].
  - rewrite Hn, Hg in He. simpl in He. by destruct He as (_ & x & ? & _).
  - rewrite Hb in He. simpl in He. destruct He as (_ & Hcn). destruct n as [[d k]|]; [|done].
    destruct Hcn as [Hcc Hk]. simpl in *. apply crash_content_flushed in Hcc as ->. exists k, b'. by rewrite He'.
Qed.

(** C21: [writeFileAtomic] is atomic under every failure and power loss: after
    it, and after a power loss at any later point, the file is absent or
    complete; when it returned nil the file is there, whole, after the power
    loss too, unless the power loss takes away the directory itself, which was
    made and never made safe. It fails only when a system call does (or the temporary name is
    taken by something that is not a file). *)
Theorem writeFileAtomic_atomic dir name content w r w1 w2 :
  entry_of (Path dir name) w = None -> ghosts_of dir w !! name = None ->
  writeFileAtomic dir name content w = (r, w1) -> crash w1 w2 ->
  (entry_of (Path dir name) w2 = None \/ has_content (Path dir name) content w2)
  /\ (r = Ok tt -> dir ∉ w_fresh w1 -> has_content (Path dir name) content w2)
  /\ (faultless w -> is_Some (dir_of dir w) ->
      (forall b, entry_of (Path dir (name +:+ ".tmp")) w <> Some (Dirent Irregular b)) -> r = Ok tt).
Proof.
  intros Hn Hg Hw Hc. destruct (writeFileAtomic_run _ _ _ _ _ _ Hn Hg Hw) as (Hwa & Hr).
  split_and!.
  - by eapply crash_whole_or_absent.
  - intros -> Hs. destruct Hr as [(_ & He & _)|(e & ? & _)]; [|done].
    apply (crash_flushed _ _ _ _ He) in Hc; [|done]. exists content, true. exact Hc.
  - intros Hfl Hd Hirr. destruct Hr as [(-> & _)|(e & _ & Hcause)]; [done|].
    destruct (Hcause Hfl Hd) as [b Hb]. by destruct (Hirr b).
Qed.

(** An empty directory. *)
Definition new_dir_world : world := World {["data" := Dir ∅ ∅]} [] [] ∅.

Lemma writeFileAtomic_atomic_witness :
  has_content (Path "data" versionFile) marker
    (lose_unflushed (writeFileAtomic "data" versionFile marker new_dir_world).2).
Proof.
  apply (writeFileAtomic_atomic "data" versionFile marker new_dir_world (Ok tt)
    (writeFileAtomic "data" versionFile marker new_dir_world).2);
    [reflexivity|reflexivity|vm_compute; reflexivity|apply crash_lose_unflushed|reflexivity|vm_compute; set_solver].
Defined.

(** ** Preparing the directory *)

(** Something other than a leftover temporary marker is in the directory. *)
Definition has_data (dir : string) (w : world) : Prop :=
  exists name, is_Some (entry_of (Path dir name) w) /\ name <> versionFile +:+ ".tmp".

Lemma listing_only_tmp dir d w :
  dir_of dir w = Some d ->
  forallb (fun e => bool_decide (e.1 = versionFile +:+ ".tmp")) (dir_listing d) = true <-> ~ has_data dir w.
Proof.
  intros Hd. assert (forall name, entry_of (Path dir name) w = d_entries d !! name) as He.
  { intros name. unfold entry_of. simpl. by rewrite Hd. }
  assert (forall name, name ∈ (dir_listing d).*1 <-> is_Some (d_entries d !! name)) as Hl.
  { intros name. unfold dir_listing. rewrite <- list_fmap_compose. simpl.
    rewrite (list_fmap_id (merge_sort String.le (map_to_list (d_entries d)).*1)).
    rewrite (merge_sort_Permutation String.le), list_elem_of_fmap. split.
    - intros ([n e] & -> & Hin%elem_of_map_to_list). eauto.
    - intros [e Hin]. exists (name, e). split; [done|]. by apply elem_of_map_to_list. }
  rewrite forallb_forall. split.
  - intros Hall (name & Hn & Hne). rewrite He in Hn. apply Hl, list_elem_of_fmap in Hn as ([n b] & -> & Hin).
    apply list_elem_of_In, Hall, bool_decide_eq_true in Hin. done.
  - intros Hno [n b] Hin%list_elem_of_In. apply bool_decide_eq_true. simpl.
    destruct (decide (n = versionFile +:+ ".tmp")) as [|Hne]; [done|]. destruct Hno. exists n. split; [|done].
    rewrite He. apply Hl, list_elem_of_fmap. by exists (n, b).
Qed.

Lemma checkVersion_marker dir : checkVersion dir (String.string_of_list_byte marker) = None.
Proof.
  unfold checkVersion. replace (Atoi (TrimSpace (String.string_of_list_byte marker))) with (@Ok numError Z 1); [done|].
  vm_compute. reflexivity.
Qed.

Lemma initializeDataDir_run dir w r w' :
  faultless w -> is_Some (dir_of dir w) -> entry_of (Path dir versionFile) w = None ->
  ghosts_of dir w !! versionFile = None ->
  (forall b, entry_of (Path dir (versionFile +:+ ".tmp")) w <> Some (Dirent Irregular b)) ->
  initializeDataDir dir w = (r, w') ->
  (has_data dir w /\ (exists text, r = Err (refuse text)) /\ quiet w w')
  \/ (~ has_data dir w /\ r = Ok tt /\ has_content (Path dir versionFile) marker w' /\ faultless w').
Proof.
  intros Hfl [d Hd] Hn Hg Hirr H. unfold initializeDataDir in H.
  unfold mbind at 1 in H. unfold M_bind at 1 in H. rewrite wrapping_run in H.
  destruct (os_ReadDir dir w) as [r1 w1] eqn:Hrd.
  destruct (os_ReadDir_inv _ _ _ _ Hrd) as (Hq & [(d' & Hd' & ->)|(e & -> & Hnf)]).
  2:{ by rewrite Hnf in Hd. }
  rewrite Hd in Hd'. injection Hd' as <-. pose proof (listing_only_tmp _ _ _ Hd) as Hl.
  destruct (forallb _ (dir_listing d)).
  - right. split; [by apply Hl|]. pose proof Hq as (Hw & _ & Hfl1).
    rewrite Hw in Hn, Hg. destruct (writeFileAtomic_run _ _ _ _ _ _ Hn Hg H)
      as (_ & [(-> & He & Hfl2)|(e & -> & Hcause)]).
    + split_and!; [done|by exists marker, true|auto].
    + destruct Hcause as [b Hb]; [auto|rewrite <- Hw; eauto|]. rewrite <- Hw in Hb. by destruct (Hirr b).
  - left. injection H as <- <-. split_and!; [|eauto|done].
    assert (~ ~ has_data dir w) as Hnn by (intros Hno; by apply Hl in Hno).
    destruct (decide (Exists (fun n => n <> versionFile +:+ ".tmp") (map_to_list (d_entries d)).*1)) as [Hex|Hnex].
    + apply Exists_exists in Hex as (n & ([n' e] & -> & Hin%elem_of_map_to_list)%list_elem_of_fmap & Hne).
      exists n'. split; [|done]. unfold entry_of. simpl. rewrite Hd. simpl. eauto.
    + destruct Hnn. intros (n & [e Hin] & Hne). apply Hnex, Exists_exists. exists n. split; [|done].
      unfold entry_of in Hin. simpl in Hin. rewrite Hd in Hin. apply list_elem_of_fmap. exists (n, e).
      split; [done|]. by apply elem_of_map_to_list.
Qed.

(** Reading a marker that is not a file. *)
Lemma os_ReadFile_absent p w r w' :
  faultless w -> file_of p w = None -> os_ReadFile p w = (r, w') ->
  r = match entry_of p w with
      | None => Err (no_file p)
      | Some _ => Err (not_regular p)
      end.
Proof.
  intros Hfl Hf [(e & _ & Hnf & _)|(w1 & (Hw & _) & H)]%call_cases; [contradiction|].
  rewrite Hw in Hf |- *. unfold with_file in H. unfold file_of, node_of in Hf. unfold node_of in H.
  unfold entry_of. destruct (dir_of (p_dir p) w1) as [d|]; simpl in *; [|by injection H as <- <-].
  destruct (d_entries d !! p_base p) as [[[f|] b]|]; simpl in *; [done|by injection H as <- <-..].
Qed.

Lemma ENotExist_cases p : errors_Is (no_file p) ENotExist = true /\ errors_Is (not_regular p) ENotExist = false.
Proof. done. Qed.

(** What a start finds once the directory exists. *)
Lemma PrepareDataDir_made dir w r w' :
  faultless w -> PrepareDataDir dir w = (r, w') ->
  exists w1, is_Some (dir_of dir w1) /\ faultless w1 /\ ghosts_of dir w1 = ghosts_of dir w
    /\ (forall name, entry_of (Path dir name) w1 = entry_of (Path dir name) w)
    /\ (is_Some (entry_of (Path dir versionFile) w) -> quiet w w1)
    /\ (r1 ← try (os_ReadFile (Path dir versionFile));
        match r1 with
        | Ok content =>
            match checkVersion dir (String.string_of_list_byte content) with
            | Some err => fail err
            | None => mret tt
            end
        | Err err =>
            if errors_Is err ENotExist then initializeDataDir dir
            else fail (internal err "storage_version marker could not be read")
        end) w1 = (r, w').
Proof.
  intros Hfl H. unfold PrepareDataDir in H.
  unfold mbind at 1 in H. unfold M_bind at 1 in H. rewrite wrapping_run in H.
  destruct (os_MkdirAll dir w) as [r1 w1] eqn:Hmk.
  destruct (os_MkdirAll_inv _ _ _ _ Hmk) as [(d & Hd & -> & Hq)|[(Hd & -> & Hd1 & _ & _ & Hf1)|(e & _ & _ & ?)]];
    [| |contradiction]; exists w1.
  - pose proof Hq as (Hw & _ & Hf1).
    split_and!; [rewrite <- Hw; eauto|auto|by rewrite Hw|by intros; rewrite Hw|done|done].
  - assert (forall name, entry_of (Path dir name) w = None) as Hno.
    { intros name. unfold entry_of. simpl. by rewrite Hd. }
    split_and!; [eauto|auto|unfold ghosts_of; by rewrite Hd, Hd1| |by rewrite Hno; intros []|done].
    intros name. rewrite Hno. unfold entry_of. simpl. by rewrite Hd1.
Qed.

(** Starting on a directory with a marker. *)
Lemma PrepareDataDir_marked dir f b w r w' :
  faultless w -> entry_of (Path dir versionFile) w = Some (Dirent (Regular f) b) ->
  PrepareDataDir dir w = (r, w') ->
  quiet w w' /\ r = match checkVersion dir (String.string_of_list_byte (f_data f)) with
                    | None => Ok tt
                    | Some e => Err e
                    end.
Proof.
  intros Hfl He H. destruct (PrepareDataDir_made _ _ _ _ Hfl H) as (w1 & Hd1 & Hfl1 & _ & He1 & Hq1 & H').
  clear H. rewrite <- He1 in He. assert (file_of (Path dir versionFile) w1 = Some f) as Hf by (apply file_of_entry; eauto).
  destruct (os_ReadFile (Path dir versionFile) w1) as [r2 w2] eqn:Hrd. rewrite (try_bind _ _ _ _ _ Hrd) in H'.
  destruct (os_ReadFile_inv _ _ _ _ Hrd) as (Hq2 & [(f' & Hf' & ->)|(e & _ & Hn)]); [|by rewrite Hn in Hf].
  rewrite Hf in Hf'. injection Hf' as <-.
  assert (quiet w w2) as Hqq by (eapply quiet_trans; [apply Hq1; rewrite <- He1, He; eauto|done]).
  by destruct (checkVersion dir _); injection H' as <- <-.
Qed.

(** Starting on a directory without one. *)
Lemma PrepareDataDir_unmarked dir w r w' :
  faultless w -> ghosts_of dir w !! versionFile = None ->
  (forall b, entry_of (Path dir (versionFile +:+ ".tmp")) w <> Some (Dirent Irregular b)) ->
  entry_of (Path dir versionFile) w = None -> PrepareDataDir dir w = (r, w') ->
  (has_data dir w /\ (exists text, r = Err (refuse text))
     /\ forall name, entry_of (Path dir name) w' = entry_of (Path dir name) w)
  \/ (~ has_data dir w /\ r = Ok tt /\ has_content (Path dir versionFile) marker w' /\ faultless w').
Proof.
  intros Hfl Hg Hirr He H. destruct (PrepareDataDir_made _ _ _ _ Hfl H) as (w1 & Hd1 & Hfl1 & Hg1 & He1 & Hq1 & H').
  clear H. rewrite <- He1 in He.
  destruct (os_ReadFile (Path dir versionFile) w1) as [r2 w2] eqn:Hrd. rewrite (try_bind _ _ _ _ _ Hrd) in H'.
  destruct (os_ReadFile_inv _ _ _ _ Hrd) as ((Hw & _ & Hfl2) & _).
  assert (file_of (Path dir versionFile) w1 = None) as Hf.
  { apply eq_None_not_Some. intros [f Hf]. apply file_of_entry in Hf as [b' Hf]. congruence. }
  apply (os_ReadFile_absent _ _ _ _ Hfl1 Hf) in Hrd as ->. rewrite He in H'.
  rewrite (proj1 (ENotExist_cases _)) in H'.
  assert (has_data dir w2 <-> has_data dir w) as Hdata.
  { unfold has_data. setoid_rewrite <- Hw. by setoid_rewrite He1. }
  destruct (initializeDataDir_run dir w2 r w') as [(Hda & Hr & Hq)|(Hda & Hr & Hc)];
    [auto|by rewrite <- Hw|by rewrite <- Hw|by rewrite <- Hw, Hg1|intros b; rewrite <- Hw, He1; auto|done| |].
  - left. rewrite <- Hdata. split_and!; [done|done|]. intros name. by rewrite <- He1, Hw, (proj1 Hq).
  - right. rewrite <- Hdata. done.
Qed.

(** C22: starting on a data directory (no failing system calls). A marker is
    accepted exactly when it is a decimal number, space around it aside, that is
    1; any other number and any other text is refused with a message of its own,
    and nothing is touched. A directory with data but no marker is refused and
    left as it is. A new or empty one, also after an interrupted earlier
    attempt, receives the marker, the text 1 and a newline. Whenever a start
    succeeded, the next one succeeds and touches nothing. *)
Theorem PrepareDataDir_correct dir w r w' :
  faultless w -> ghosts_of dir w !! versionFile = None ->
  (forall b, entry_of (Path dir (versionFile +:+ ".tmp")) w <> Some (Dirent Irregular b)) ->
  PrepareDataDir dir w = (r, w') ->
  match entry_of (Path dir versionFile) w with
  | Some (Dirent (Regular f) _) =>
      let content := String.string_of_list_byte (f_data f) in
      quiet w w' /\
      match Atoi (TrimSpace content) with
      | Ok 1 => r = Ok tt
      | Ok version => r = Err (refuse ("data directory " +:+ dir +:+ " uses storage format " +:+ Itoa version
                                       +:+ ", but this binary supports only format 1"))
      | Err _ => r = Err (refuse ("data directory " +:+ dir
                                  +:+ " has an unreadable storage_version marker " +:+ Quote content))
      end
  | Some (Dirent Irregular _) => exists e, r = Err e
  | None =>
      (has_data dir w -> (exists text, r = Err (refuse text))
         /\ forall name, entry_of (Path dir name) w' = entry_of (Path dir name) w)
      /\ (~ has_data dir w -> r = Ok tt
           /\ has_content (Path dir versionFile) [Byte.x31; Byte.x0a] w')
  end
  /\ (r = Ok tt -> forall r2 w2, PrepareDataDir dir w' = (r2, w2) -> r2 = Ok tt /\ quiet w' w2).
Proof.
  intros Hfl Hg Hirr H. destruct (entry_of (Path dir versionFile) w) as [[[f|] b]|] eqn:He.
  - destruct (PrepareDataDir_marked _ _ _ _ _ _ Hfl He H) as (Hq & Hr). split.
    + split; [done|]. rewrite Hr. unfold checkVersion. destruct (Atoi _) as [[|[]|]|]; done.
    + intros Hok r2 w2 H2. pose proof Hq as (Hw & _ & Hfl'). rewrite Hw in He.
      destruct (PrepareDataDir_marked _ _ _ _ _ _ (Hfl' Hfl) He H2) as (Hq2 & Hr2). split; [congruence|done].
  - destruct (PrepareDataDir_made _ _ _ _ Hfl H) as (w1 & _ & Hfl1 & _ & He1 & _ & H').
    assert (file_of (Path dir versionFile) w1 = None) as Hf.
    { apply eq_None_not_Some. intros [f Hf]. apply file_of_entry in Hf as [b' Hf]. rewrite He1 in Hf. congruence. }
    destruct (os_ReadFile (Path dir versionFile) w1) as [r2 w2] eqn:Hrd. rewrite (try_bind _ _ _ _ _ Hrd) in H'.
    apply (os_ReadFile_absent _ _ _ _ Hfl1 Hf) in Hrd as ->. rewrite He1, He in H'.
    rewrite (proj2 (ENotExist_cases _)) in H'. injection H' as <- <-. split; [eauto|done].
  - destruct (PrepareDataDir_unmarked _ _ _ _ Hfl Hg Hirr He H) as [(Hda & Hr & Hs)|(Hda & -> & Hc & Hfl')].
    + split; [split; [done|by intros Hno; destruct Hno]|]. intros ->. by destruct Hr.
    + split; [split; [by intros Hyes; destruct Hda|done]|]. intros _ r2 w2 H2.
      destruct Hc as (disk & b & Hc). destruct (PrepareDataDir_marked _ _ _ _ _ _ Hfl' Hc H2) as (Hq2 & ->).
      split; [|done]. cbn [f_data]. by rewrite checkVersion_marker.
Qed.

(** A process that starts anew, without failing calls. *)
Definition clear_script (w : world) : world := World (w_dirs w) [] [] (w_fresh w).

(** A directory in which a marker write was interrupted. *)
Definition interrupted_world : world := clear_script
  (PrepareDataDir "data" (World ∅ [Succeed; Succeed; Succeed; Succeed; FailWith "killed" 1] [] ∅)).2.

Lemma PrepareDataDir_correct_witness :
  (PrepareDataDir "data" interrupted_world).1 = Ok tt
  /\ has_content (Path "data" versionFile) [Byte.x31; Byte.x0a] (PrepareDataDir "data" interrupted_world).2.
Proof.
  pose proof (PrepareDataDir_correct "data" interrupted_world
    (PrepareDataDir "data" interrupted_world).1
    (PrepareDataDir "data" interrupted_world).2) as H.
  apply H.
  - apply faultless_nil.
  - vm_compute. reflexivity.
  - intros b. vm_compute. discriminate.
  - apply surjective_pairing.
  - eapply listing_only_tmp; [vm_compute; reflexivity|vm_compute; reflexivity].
Defined.
