(* ===== verification/GoNet.v ===== *)
(** * Addresses (what the configuration rules use of packages net and net/netip)

    [SplitHostPort], [ParseIP] and [IsLoopback] over byte strings, with the
    branches of the library functions. A failed parse carries no detail here:
    the rules look only at whether there was an error. *)

From stdpp Require Import prelude strings list.
From Stdlib Require Import ZArith Lia Ascii.
From S2P Require Import Prelude GoStrings.

Local Open Scope string_scope.
Local Arguments String.append !_ _ / : simpl nomatch.

(** ** Searching a string for a byte *)

(** [strings.IndexByte] and [strings.LastIndexByte], [None] for -1. *)
Fixpoint IndexByte (s : string) (c : ascii) : option nat :=
  match s with
  | EmptyString => None
  | String a s' => if decide (a = c) then Some O else S <$> IndexByte s' c
  end.

Fixpoint LastIndexByte (s : string) (c : ascii) : option nat :=
  match s with
  | EmptyString => None
  | String a s' =>
      match LastIndexByte s' c with
      | Some i => Some (S i)
      | None => if decide (a = c) then Some O else None
      end
  end.

(** [s[n:]] and [s[:n]]. *)
Fixpoint str_drop (n : nat) (s : string) : string :=
  match n, s with
  | O, _ => s
  | S n', String _ s' => str_drop n' s'
  | S _, EmptyString => ""
  end.

Fixpoint str_take (n : nat) (s : string) : string :=
  match n, s with
  | S n', String a s' => String a (str_take n' s')
  | _, _ => ""
  end.

Definition has_byte (s : string) (c : ascii) : bool := bool_decide (is_Some (IndexByte s c)).

(** ** [net.SplitHostPort]

    Splits [host:port] or [[host]:port]; [None] is an error. *)
Definition SplitHostPort (hostport : string) : option (string * string) :=
  match LastIndexByte hostport ":" with
  | None => None
  | Some i =>
      '(host, j, k) ←
        (if decide (str_take 1 hostport = "[") then
           match IndexByte hostport "]" with
           | None => None
           | Some e =>
               if decide (S e = i) then Some (str_drop 1 (str_take e hostport), 1, S e)
               else None
           end
         else
           let host := str_take i hostport in
           if has_byte host ":" then None else Some (host, O, O));
      if has_byte (str_drop j hostport) "[" then None
      else if has_byte (str_drop k hostport) "]" then None
      else Some (host, str_drop (S i) hostport)
  end.

(** ** [net.ParseIP]

    An address is its sixteen bytes; an IPv4 one is [::ffff:a.b.c.d]. *)
Section parse_ip.
Local Open Scope list_scope.
Local Open Scope Z_scope.

(** The dotted decimal fields of an IPv4 address: no leading zero, at most
    255, digits only. [fields] are those already read, [n] digits of the
    current one have the value [acc]. *)
Fixpoint parseIPv4Fields (s : string) (fields : list Z) (acc : Z) (n : nat) : option (list Z) :=
  match s with
  | EmptyString =>
      if decide (n = O \/ length fields <> 3%nat) then None else Some (fields ++ [acc])
  | String c s' =>
      match digit_value c with
      | Some d =>
          if decide (n = 1%nat /\ acc = 0) then None
          else if 255 <? acc * 10 + d then None
          else parseIPv4Fields s' fields (acc * 10 + d) (S n)
      | None =>
          if decide (c = "."%char) then
            if decide (n = O \/ length fields = 3%nat) then None
            else parseIPv4Fields s' (fields ++ [acc]) 0 O
          else None
      end
  end.

Definition hex_value (c : ascii) : option Z :=
  let v := Z.of_N (N_of_ascii c) in
  if (48 <=? v) && (v <=? 57) then Some (v - 48)
  else if (97 <=? v) && (v <=? 102) then Some (v - 87)
  else if (65 <=? v) && (v <=? 70) then Some (v - 55)
  else None.

(** The leading hex digits of [s]: their value, their number and the rest;
    [None] with more than four. *)
Fixpoint hex_group (s : string) (acc : Z) (off : nat) : option (Z * nat * string) :=
  match s with
  | EmptyString => Some (acc, off, s)
  | String c s' =>
      match hex_value c with
      | None => Some (acc, off, s)
      | Some d => if (3 <? off)%nat then None else hex_group s' (acc * 16 + d) (S off)
      end
  end.

(** The loop over the groups of an IPv6 address: [ip] are the bytes so far,
    [ellipsis] where the [::] was. Each turn stores a group, so [fuel] is the
    eight groups there can be. *)
Fixpoint ipv6_groups (fuel : nat) (s : string) (ip : list Z) (ellipsis : option nat) :
    option (string * list Z * option nat) :=
  match fuel with
  | O => Some (s, ip, ellipsis)
  | S fuel' =>
      match hex_group s 0 O with
      | None | Some (_, O, _) => None
      | Some (acc, S _, rest) =>
          match rest with
          | String "." _ =>
              if decide (ellipsis = None /\ length ip <> 12%nat) then None
              else if (16 <? length ip + 4)%nat then None
              else match parseIPv4Fields s [] 0 O with
                   | None => None
                   | Some v4 => Some ("", ip ++ v4, ellipsis)
                   end
          | EmptyString => Some ("", ip ++ [acc / 256; acc mod 256], ellipsis)
          | String ":" (String c s2) =>
              let ip' := ip ++ [acc / 256; acc mod 256] in
              if decide (c = ":"%char) then
                match ellipsis with
                | Some _ => None
                | None =>
                    match s2 with
                    | EmptyString => Some ("", ip', Some (length ip'))
                    | _ => ipv6_groups fuel' s2 ip' (Some (length ip'))
                    end
                end
              else ipv6_groups fuel' (String c s2) ip' ellipsis
          | _ => None
          end
      end
  end.

(** [netip.parseIPv6] without a zone, which [net.ParseIP] refuses. *)
Definition parseIPv6 (s : string) : option (list Z) :=
  let '(s1, ellipsis) :=
    match strip_prefix "::" s with Some s1 => (s1, Some O) | None => (s, None) end in
  if decide (ellipsis = Some O /\ s1 = "") then Some (repeat 0 16)
  else
    '(rest, ip, ellipsis) ← ipv6_groups 8 s1 [] ellipsis;
    if decide (rest <> "") then None
    else if (length ip <? 16)%nat then
      match ellipsis with
      | None => None
      | Some e => Some (take e ip ++ repeat 0 (16 - length ip) ++ drop e ip)
      end
    else match ellipsis with None => Some ip | Some _ => None end.

(** The first of [.], [:] and [%] decides how [netip.ParseAddr] reads [all]. *)
Fixpoint parse_addr (s all : string) : option (list Z) :=
  match s with
  | EmptyString => None
  | String "." _ => app (repeat 0 10 ++ [255; 255]) <$> parseIPv4Fields all [] 0 O
  | String ":" _ => if has_byte all "%" then None else parseIPv6 all
  | String "%" _ => None
  | String _ s' => parse_addr s' all
  end.

Definition ParseIP (s : string) : option (list Z) := parse_addr s s.

(** [IP.IsLoopback]: 127.0.0.0/8, as IPv4 or mapped into IPv6, or [::1]. *)
Definition IsLoopback (ip : list Z) : bool :=
  if decide (take 12 ip = repeat 0 10 ++ [255; 255]) then
    bool_decide (ip !! 12%nat = Some 127)
  else bool_decide (ip = repeat 0 15 ++ [1]).
End parse_ip.

(** ** Facts *)

Lemma str_take_drop n s : str_take n s +:+ str_drop n s = s.
Proof.
  revert s. induction n as [|n IH]; intros [|a s]; cbn [str_take str_drop String.append]; [done..|].
  by rewrite IH.
Qed.

Lemma IndexByte_Some s c i :
  IndexByte s c = Some i -> str_drop i s = String c (str_drop (S i) s).
Proof.
  revert i. induction s as [|a s IH]; intros i; cbn [IndexByte]; [done|].
  case_decide; subst; intros Hi; simplify_eq; [done|].
  apply fmap_Some in Hi as (i' & Hi' & ->). cbn [str_drop]. by rewrite (IH i').
Qed.

Lemma LastIndexByte_Some s c i :
  LastIndexByte s c = Some i -> str_drop i s = String c (str_drop (S i) s).
Proof.
  revert i. induction s as [|a s IH]; intros i; cbn [LastIndexByte]; [done|].
  destruct (LastIndexByte s c) as [i'|] eqn:E; intros Hi; simplify_eq.
  - cbn [str_drop]. by rewrite (IH i').
  - case_decide; by simplify_eq.
Qed.

(** What [SplitHostPort] returns is what stands around the last colon. *)
Lemma SplitHostPort_Some hostport host port :
  SplitHostPort hostport = Some (host, port) ->
  hostport = host +:+ ":" +:+ port \/ hostport = "[" +:+ host +:+ "]:" +:+ port.
Proof.
  unfold SplitHostPort. destruct (LastIndexByte hostport ":") as [i|] eqn:Hi; [|done].
  pose proof (LastIndexByte_Some _ _ _ Hi) as Hdrop.
  pose proof (str_take_drop i hostport) as Hsplit. rewrite Hdrop in Hsplit.
  case_decide as Hopen.
  - destruct (IndexByte hostport "]") as [e|] eqn:He; [|done].
    case_decide as Hei; [subst i|done]. cbn [mbind option_bind]. do 2 (case_match; [done|]).
    intros [= <- <-]. right. pose proof (IndexByte_Some _ _ _ He) as Hdrope.
    destruct e as [|e]; destruct hostport as [|a s]; try done.
    { cbn in Hopen, Hdrope. congruence. }
    cbn [str_take] in Hopen. simplify_eq.
    rewrite <- (str_take_drop (S e) (String _ s)) at 1. rewrite Hdrope.
    cbn [str_take str_drop String.append] in *. by rewrite Hdrop.
  - cbn zeta. case_match; [done|]. cbn [mbind option_bind]. do 2 (case_match; [done|]).
    intros Heq. simplify_eq. by left.
Qed.

Example loopback_examples :
  (IsLoopback <$> ParseIP "127.0.0.1") = Some true
  /\ (IsLoopback <$> ParseIP "::1") = Some true
  /\ (IsLoopback <$> ParseIP "::ffff:127.3.0.1") = Some true
  /\ (IsLoopback <$> ParseIP "10.0.0.1") = Some false
  /\ (IsLoopback <$> ParseIP "fe80::1:2") = Some false
  /\ ParseIP "127.0.0.01" = None /\ ParseIP "1:2:3" = None /\ ParseIP "fe80::1%eth0" = None
  /\ ParseIP "1::2::3" = None /\ ParseIP "" = None /\ ParseIP "localhost" = None.
Proof. vm_compute. done. Qed.

Example split_examples :
  SplitHostPort "0.0.0.0:2379" = Some ("0.0.0.0", "2379")
  /\ SplitHostPort "[::1]:80" = Some ("::1", "80")
  /\ SplitHostPort ":2379" = Some ("", "2379")
  /\ SplitHostPort "::1:80" = None /\ SplitHostPort "host" = None
  /\ SplitHostPort "[::1]" = None /\ SplitHostPort "a]b:1" = None.
Proof. vm_compute. done. Qed.
