(* ===== verification/ConfigRules.v ===== *)
(** * The configuration rules (internal/config/validate.go and rules.go)

    [Validate] threads one list of violations through eight groups of checks.
    A check here is a transformer of that list, and [;;] runs one after the
    other, as the source does with its [*violations] argument. The parser
    [url.Parse] is an argument: the rules read only whether it failed and the
    scheme and host it found. *)

From stdpp Require Import prelude gmap strings list.
From Stdlib Require Import ZArith Lia SpecFloat Ascii.
From S2P Require Import Prelude GoStrings GoNet Kverr Config.

Local Open Scope Z_scope.

(** ** Collecting violations (validate.go) *)

(** A check records what it finds after what was found before. *)
Abbreviation check := (list FieldViolation -> list FieldViolation).

Definition add (key description : string) : check := fun v => v ++ [Violation key description].

Definition skip : check := fun v => v.
Definition seq_check (f g : check) : check := fun v => g (f v).
Definition when (b : bool) (f : check) : check := if b then f else skip.
Definition for_each {A} (l : list A) (f : A -> check) : check :=
  fun v => foldl (fun v x => f x v) v l.

Declare Scope check_scope.
Delimit Scope check_scope with check.
Notation "f ;; g" := (seq_check f g) : check_scope.
Local Open Scope check_scope.

(** [slices.SortStableFunc] by [strings.Compare] of the keys. *)
Fixpoint insert_sorted (x : FieldViolation) (l : list FieldViolation) : list FieldViolation :=
  match l with
  | [] => [x]
  | y :: l' => if String.leb (Field x) (Field y) then x :: l else y :: insert_sorted x l'
  end.

Definition sort_by_key (l : list FieldViolation) : list FieldViolation :=
  foldr insert_sorted [] l.

(** [violations.err] *)
Definition violations_err (v : list FieldViolation) (message : string) : option error :=
  match v with
  | [] => None
  | _ => Some (kv (WithViolations (New ReasonInvalidArgument message) (sort_by_key v)))
  end.

(** ** The elementary rules *)

(** [cmp.Ordered], at the types the rules are used with. *)
Class Ordered (T : Type) := {
  zero : T;
  leb : T -> T -> bool;
  ltb : T -> T -> bool;
}.
#[export] Instance Ordered_int : Ordered Z := { zero := 0; leb := Z.leb; ltb := Z.ltb }.
#[export] Instance Ordered_float64 : Ordered float64 :=
  { zero := S754_zero false; leb := SFleb; ltb := SFltb }.

Definition requireValue (key s : string) : check :=
  when (bool_decide (s = "")) (add key "is required").

Definition requirePositive `{Ordered T} (key : string) (x : T) : check :=
  when (leb x zero) (add key "must be greater than zero").

Definition requireNonNegative `{Ordered T} (key : string) (x : T) : check :=
  when (ltb x zero) (add key "must not be negative").

Definition requireOneOf (key value : string) (allowed : list string) : check :=
  when (bool_decide (value ∉ allowed))
    (add key ("must be one of " +:+ String.concat ", " allowed
              +:+ " (got " +:+ Quote value +:+ ")")).

Definition requireHostPort (key addr : string) : check :=
  match SplitHostPort addr with
  | None => add key "must be an address of the form host:port"
  | Some (_, port) =>
      match ParseUint port 16 with
      | Ok n => when (n =? 0) (add key "must have a port between 1 and 65535")
      | Err _ => add key "must have a port between 1 and 65535"
      end
  end.

(** The parts of a [url.URL] the rules read. *)
Record URL := mkURL { Scheme : string; Host : string }.

Definition requireHTTPSURL (url_Parse : string -> option URL) (key s : string) : check :=
  if decide (s = "") then add key "is required"
  else match url_Parse s with
       | Some u =>
           when (bool_decide (Scheme u <> "https" \/ Host u = ""))
             (add key "must be an absolute https:// URL")
       | None => add key "must be an absolute https:// URL"
       end.

Definition isLoopback (addr : string) : bool :=
  match SplitHostPort addr with
  | None => false
  | Some (host, _) =>
      if decide (host = "localhost") then true
      else match ParseIP host with None => false | Some ip => IsLoopback ip end
  end.

Fixpoint entries_loop (key : string) (list : list string) : check :=
  match list with
  | [] => skip
  | item :: list' =>
      if decide (TrimSpace item = "") then add key "must not contain empty entries"
      else entries_loop key list'
  end.

Definition requireEntries (key : string) (list : list string) : check :=
  match list with
  | [] => add key "must have at least one entry"
  | _ => entries_loop key list
  end.

(** ** The rules (rules.go) *)

Definition jwtAlgorithms : list string :=
  ["RS256"; "RS384"; "RS512"; "PS256"; "PS384"; "PS512"; "ES256"; "ES384"; "ES512"].

Definition traceSamplers : list string :=
  ["always_on"; "always_off"; "traceidratio";
   "parentbased_always_on"; "parentbased_always_off"; "parentbased_traceidratio"].

Definition setting : Type := string * string.

Definition validateNode (c : Config) : check :=
  let n := Config_Node c in
  requireValue "node.id" (ID n) ;;
  requireOneOf "node.environment" (node_Environment n)
    [EnvironmentProduction; EnvironmentStaging; EnvironmentDevelopment] ;;
  requireValue "node.data_dir" (DataDir n) ;;
  requirePositive "node.shutdown_grace" (ShutdownGrace n).

Definition validateListen (c : Config) : check :=
  let l := Config_Listen c in
  requireHostPort "listen.client" (Listen_Client l) ;;
  requireHostPort "listen.peer" (Listen_Peer l) ;;
  when (Metrics_Enabled (Observability_Metrics (Config_Observability c))
        || bool_decide (Listen_Metrics l <> ""))
    (requireHostPort "listen.metrics" (Listen_Metrics l)) ;;
  for_each [("listen.diagnostics", Listen_Diagnostics l);
            ("advertise.client", Advertise_Client (Config_Advertise c));
            ("advertise.peer", Advertise_Peer (Config_Advertise c))]
    (fun a : setting =>
       when (bool_decide (snd a <> "")) (requireHostPort (fst a) (snd a))).

Definition validateJWT (url_Parse : string -> option URL) (c : Config) : check :=
  let j := Auth_JWT (Config_Auth c) in
  when (bool_decide (Mode (Config_Auth c) = AuthModeEnabled))
    (requireHTTPSURL url_Parse "auth.jwt.issuer_url" (IssuerURL j) ;;
     requireHTTPSURL url_Parse "auth.jwt.jwks_url" (JWKSURL j)) ;;
  requireEntries "auth.jwt.audience" (Audience j) ;;
  requireEntries "auth.jwt.algorithms" (Algorithms j) ;;
  for_each (Algorithms j) (fun alg => requireOneOf "auth.jwt.algorithms" alg jwtAlgorithms) ;;
  requireNonNegative "auth.jwt.clock_skew" (ClockSkew j) ;;
  requirePositive "auth.jwt.refresh_interval" (RefreshInterval j) ;;
  requirePositive "auth.jwt.min_refresh_interval" (MinRefreshInterval j) ;;
  requirePositive "auth.jwt.http_timeout" (HTTPTimeout j) ;;
  requirePositive "auth.jwt.max_response_bytes" (MaxResponseBytes j) ;;
  when (MinRSABits j <? 2048)
    (add "auth.jwt.min_rsa_bits" "must be at least 2048 (KV-SEC-018)") ;;
  requireNonNegative "auth.jwt.claims_cache.max_entries" (MaxEntries (JWT_ClaimsCache j)).

(** The loop of [validateScopes]; [seen] maps a scope to the last key that
    had it. *)
Fixpoint scopes_loop (seen : gmap string string) (scopes : list setting) : check :=
  match scopes with
  | [] => skip
  | (key, value) :: scopes' =>
      requireValue key value ;;
      match seen !! value with
      | Some other =>
          when (bool_decide (value <> ""))
            (add key ("must differ from " +:+ other +:+ "; one scope must never grant another"))
      | None => skip
      end ;;
      scopes_loop (<[value := key]> seen) scopes'
  end.

Definition validateScopes (s : Scopes) : check :=
  scopes_loop ∅ [("auth.scopes.read", Scopes_Read s);
                 ("auth.scopes.write", Scopes_Write s);
                 ("auth.scopes.watch", Scopes_Watch s);
                 ("auth.scopes.admin", Scopes_Admin s)].

Definition validateAuth (url_Parse : string -> option URL) (c : Config) : check :=
  let a := Config_Auth c in
  requireOneOf "auth.mode" (Mode a) [AuthModeEnabled; AuthModeDisabled] ;;
  validateJWT url_Parse c ;;
  validateScopes (Auth_Scopes a) ;;
  if decide (Mode a <> AuthModeDisabled) then skip
  else
    when (bool_decide (node_Environment (Config_Node c) <> EnvironmentDevelopment))
      (add "auth.mode" "may be disabled only when node.environment is development") ;;
    if InsecureAllowRemote a then skip
    else for_each [("listen.client", Listen_Client (Config_Listen c));
                   ("listen.peer", Listen_Peer (Config_Listen c));
                   ("listen.metrics", Listen_Metrics (Config_Listen c));
                   ("listen.diagnostics", Listen_Diagnostics (Config_Listen c))]
           (fun l : setting =>
              when (bool_decide (snd l <> "") && negb (isLoopback (snd l)))
                (add (fst l) ("must be a loopback address while authentication is disabled, "
                              +:+ "unless auth.insecure_allow_remote is true"))).

Definition validateTLS (c : Config) : check :=
  let t := Config_TLS c in
  requireOneOf "tls.min_version" (MinVersion t) ["1.3"; "1.2"] ;;
  if negb (TLS_Enabled t) then
    when (bool_decide (Mode (Config_Auth c) = AuthModeEnabled))
      (add "tls.enabled" "may be false only when auth.mode is disabled (KV-SEC-001)")
  else
    requireValue "tls.cert_file" (CertFile t) ;;
    requireValue "tls.key_file" (KeyFile t) ;;
    requireValue "tls.client_ca_file" (ClientCAFile t) ;;
    requireEntries "tls.allowed_client_sans" (AllowedClientSANs t) ;;
    when (0 <? Z.of_nat (length (InitialPeers (Config_Cluster c))))
      (requireValue "tls.peer_ca_file" (PeerCAFile t) ;;
       requireEntries "tls.allowed_peer_sans" (AllowedPeerSANs t)).

Definition validateLimits (c : Config) : check :=
  let l := Config_Limits c in
  requirePositive "limits.max_key_bytes" (MaxKeyBytes l) ;;
  requirePositive "limits.max_value_bytes" (MaxValueBytes l) ;;
  requirePositive "limits.max_request_bytes" (MaxRequestBytes l) ;;
  requirePositive "limits.max_concurrent_streams" (MaxConcurrentStreams l) ;;
  requirePositive "limits.max_watchers_per_principal" (MaxWatchersPerPrincipal l) ;;
  when (MaxRequestBytes l <? MaxKeyBytes l)
    (add "limits.max_key_bytes" "must not exceed limits.max_request_bytes") ;;
  when (MaxRequestBytes l <? MaxValueBytes l)
    (add "limits.max_value_bytes" "must not exceed limits.max_request_bytes") ;;
  for_each [("limits.rate_limit.read", RateLimits_Read (Limits_RateLimit l));
            ("limits.rate_limit.write", RateLimits_Write (Limits_RateLimit l));
            ("limits.rate_limit.admin", RateLimits_Admin (Limits_RateLimit l))]
    (fun b : string * RateLimit =>
       requirePositive (fst b +:+ ".rate") (Rate (snd b)) ;;
       requirePositive (fst b +:+ ".burst") (Burst (snd b))).

Definition validateStorage (c : Config) : check :=
  let s := Config_Storage c in
  requireOneOf "storage.engine" (Engine s) ["pebble"] ;;
  requireOneOf "storage.fsync" (Fsync s) [FsyncAlways; FsyncInterval; FsyncOS] ;;
  when (bool_decide (Fsync s = FsyncInterval))
    (requirePositive "storage.fsync_interval" (Storage_FsyncInterval s)) ;;
  requirePositive "storage.wal_segment_bytes" (WALSegmentBytes s) ;;
  requireNonNegative "storage.wal_retain_segments" (WALRetainSegments s) ;;
  requirePositive "storage.snapshot_entries" (SnapshotEntries s) ;;
  requirePositive "storage.snapshot_interval" (SnapshotInterval s) ;;
  requirePositive "storage.quota_bytes" (QuotaBytes s) ;;
  requireNonNegative "storage.auto_compaction_retention" (AutoCompactionRetention s).

Definition checkPeer (peer : string) : check :=
  let '(name, addr, ok) := Cut peer "="%char in
  if negb ok || bool_decide (name = "")
  then add "cluster.initial_peers" "entries must have the form name=host:port"
  else requireHostPort "cluster.initial_peers" addr.

Definition validateCluster (c : Config) : check :=
  let cl := Config_Cluster c in
  let r := Cluster_Raft cl in
  for_each (InitialPeers cl) checkPeer ;;
  requirePositive "cluster.slot_count" (SlotCount cl) ;;
  requirePositive "cluster.groups" (Groups cl) ;;
  requirePositive "cluster.replication_factor" (ReplicationFactor cl) ;;
  requirePositive "cluster.raft.tick_interval" (TickInterval r) ;;
  requirePositive "cluster.raft.heartbeat_ticks" (HeartbeatTicks r) ;;
  when (ElectionTicks r <? i64 (10 * HeartbeatTicks r))
    (add "cluster.raft.election_ticks"
       "must be at least 10 × cluster.raft.heartbeat_ticks (KV-CON-004)") ;;
  requirePositive "cluster.raft.max_inflight_msgs" (MaxInflightMsgs r) ;;
  requirePositive "cluster.raft.max_size_per_msg" (MaxSizePerMsg r) ;;
  when (negb (PreVote r)) (add "cluster.raft.pre_vote" "must be true (KV-CON-005)") ;;
  when (negb (CheckQuorum r)) (add "cluster.raft.check_quorum" "must be true (KV-CON-006)") ;;
  requireOneOf "cluster.read.default_consistency" (DefaultConsistency (Cluster_Read cl))
    ["linearizable"] ;;
  requirePositive "cluster.read.leader_wait_timeout" (LeaderWaitTimeout (Cluster_Read cl)).

Definition validateObservability (c : Config) : check :=
  let o := Config_Observability c in
  let log := Observability_Log o in
  let tracing := Observability_Tracing o in
  requireOneOf "observability.log.level" (Level log) ["debug"; "info"; "warn"; "error"] ;;
  requireOneOf "observability.log.format" (Format log) ["json"; "text"] ;;
  when (bool_decide (Format log = "text"
                     /\ node_Environment (Config_Node c) <> EnvironmentDevelopment))
    (add "observability.log.format"
       "may be text only when node.environment is development (KV-OBS-020)") ;;
  when (Tracing_Enabled tracing)
    (requireValue "observability.tracing.otlp_endpoint" (OTLPEndpoint tracing)) ;;
  requireOneOf "observability.tracing.sampler" (Sampler tracing) traceSamplers ;;
  when (SFltb (SampleRatio tracing) (S754_zero false)
        || SFltb (float_of_int 1) (SampleRatio tracing))
    (add "observability.tracing.sample_ratio" "must be between 0 and 1") ;;
  requirePositive "observability.health.max_apply_lag_entries"
    (MaxApplyLagEntries (Observability_Health o)).

Definition validate_all (url_Parse : string -> option URL) (c : Config) : check :=
  validateNode c ;; validateListen c ;; validateAuth url_Parse c ;; validateTLS c ;;
  validateLimits c ;; validateStorage c ;; validateCluster c ;; validateObservability c.

Definition Validate (url_Parse : string -> option URL) (c : Config) : option error :=
  violations_err (validate_all url_Parse c []) "configuration is invalid".

(** ** Startup warnings (report.go) *)

Record Warning := mkWarning { Setting : string; Consequence : string }.

Definition Warning_String (w : Warning) : string := Setting w +:+ ": " +:+ Consequence w.

Definition Warnings (c : Config) : list Warning :=
  (if decide (Mode (Config_Auth c) = AuthModeDisabled) then
     [mkWarning "auth.mode=disabled"
        ("mutual TLS and token verification are off; "
         +:+ "any caller that can connect may read and write every key")]
   else [])
  ++ (if InsecureAllowRemote (Config_Auth c) then
        [mkWarning "auth.insecure_allow_remote=true"
           ("a node with authentication disabled "
            +:+ "may accept connections from the network")]
      else [])
  ++ (if negb (TLS_Enabled (Config_TLS c)) then
        [mkWarning "tls.enabled=false"
           "traffic is unencrypted and callers are not identified by certificate"]
      else [])
  ++ (if decide (Fsync (Config_Storage c) = FsyncInterval) then
        [mkWarning "storage.fsync=interval"
           "a crash can lose writes acknowledged within the last storage.fsync_interval"]
      else if decide (Fsync (Config_Storage c) = FsyncOS) then
        [mkWarning "storage.fsync=os"
           "a crash can lose any acknowledged write the operating system has not flushed"]
      else []).
