(* ===== verification/ConfigSpec.v ===== *)
(** * What the configuration rules enforce

    A declarative list of rules, each a key and the condition on it, and the
    proof that [Validate] reports exactly the keys of the broken ones. Then
    what a valid configuration guarantees to the components it configures, and
    the startup warnings of report.go. *)

From stdpp Require Import prelude gmap strings list sorting.
From Stdlib Require Import ZArith Lia SpecFloat Ascii.
From S2P Require Import Prelude GoStrings GoNet Kverr Shard Config ConfigRules Log.

Local Open Scope Z_scope.

(** ** Rules *)

Record rule := Rule { on : string; holds : Prop }.
Notation "k ⊢ P" := (Rule k P) (at level 85).

(** A group of rules that applies only under a condition. *)
Definition given (P : Prop) (R : list rule) : list rule :=
  (fun r => on r ⊢ (P -> holds r)) <$> R.

(** Some rule about the key [k] is broken. *)
Definition broken (R : list rule) (k : string) : Prop :=
  exists r, r ∈ R /\ on r = k /\ ~ holds r.

Definition keys (v : list FieldViolation) : list string := Field <$> v.

(** [f] adds violations of exactly the keys of the broken rules of [R]. *)
Definition reports (f : check) (R : list rule) : Prop :=
  forall v, exists new, f v = v ++ new /\ forall k, k ∈ keys new <-> broken R k.

(** *** What an elementary rule requires *)

(** A port a server can listen on. *)
Definition host_port (addr : string) : Prop :=
  exists host port n, SplitHostPort addr = Some (host, port) /\ ParseUint port 16 = Ok n /\ n <> 0.

Definition https_url (url_Parse : string -> option URL) (s : string) : Prop :=
  s <> "" /\ exists u, url_Parse s = Some u /\ Scheme u = "https" /\ Host u <> "".

Definition entries (l : list string) : Prop := l <> [] /\ Forall (fun s => TrimSpace s <> "") l.

Definition peer_form (peer : string) : Prop :=
  exists name addr, Cut peer "=" = (name, addr, true) /\ name <> "" /\ host_port addr.

(** *** How the code reads three of the documented conditions *)

(** A rate is greater than zero, a ratio is between 0 and 1, and the election
    timeout is at least ten times the heartbeat. The code compares floats the
    other way round, which NaN passes, and computes with an [int]. *)
Record reading := mkReading {
  positive : float64 -> Prop;
  fraction : float64 -> Prop;
  ten_times : Z -> Z;
}.

Definition documented : reading := {|
  positive x := SFltb (S754_zero false) x = true;
  fraction x := SFleb (S754_zero false) x = true /\ SFleb x (float_of_int 1) = true;
  ten_times n := 10 * n;
|}.

Definition enforced : reading := {|
  positive x := SFleb x (S754_zero false) = false;
  fraction x := SFltb x (S754_zero false) = false /\ SFltb (float_of_int 1) x = false;
  ten_times n := i64 (10 * n);
|}.

(** ** The rules of each section *)

Definition node_rules (c : Config) : list rule :=
  let n := Config_Node c in
  ["node.id" ⊢ ID n <> "";
   "node.environment" ⊢ node_Environment n
     ∈ [EnvironmentProduction; EnvironmentStaging; EnvironmentDevelopment];
   "node.data_dir" ⊢ DataDir n <> "";
   "node.shutdown_grace" ⊢ 0 < ShutdownGrace n].

Definition listen_rules (c : Config) : list rule :=
  let l := Config_Listen c in
  ["listen.client" ⊢ host_port (Listen_Client l);
   "listen.peer" ⊢ host_port (Listen_Peer l);
   "listen.metrics" ⊢
     (Metrics_Enabled (Observability_Metrics (Config_Observability c)) = true
      \/ Listen_Metrics l <> "" -> host_port (Listen_Metrics l));
   "listen.diagnostics" ⊢ (Listen_Diagnostics l <> "" -> host_port (Listen_Diagnostics l));
   "advertise.client" ⊢ (Advertise_Client (Config_Advertise c) <> "" ->
                         host_port (Advertise_Client (Config_Advertise c)));
   "advertise.peer" ⊢ (Advertise_Peer (Config_Advertise c) <> "" ->
                       host_port (Advertise_Peer (Config_Advertise c)))].

Definition jwt_rules (url_Parse : string -> option URL) (c : Config) : list rule :=
  let j := Auth_JWT (Config_Auth c) in
  given (Mode (Config_Auth c) = AuthModeEnabled)
    ["auth.jwt.issuer_url" ⊢ https_url url_Parse (IssuerURL j);
     "auth.jwt.jwks_url" ⊢ https_url url_Parse (JWKSURL j)]
  ++ ["auth.jwt.audience" ⊢ entries (Audience j);
      "auth.jwt.algorithms" ⊢ entries (Algorithms j);
      "auth.jwt.algorithms" ⊢ Forall (fun alg => alg ∈ jwtAlgorithms) (Algorithms j);
      "auth.jwt.clock_skew" ⊢ 0 <= ClockSkew j;
      "auth.jwt.refresh_interval" ⊢ 0 < RefreshInterval j;
      "auth.jwt.min_refresh_interval" ⊢ 0 < MinRefreshInterval j;
      "auth.jwt.http_timeout" ⊢ 0 < HTTPTimeout j;
      "auth.jwt.max_response_bytes" ⊢ 0 < MaxResponseBytes j;
      "auth.jwt.min_rsa_bits" ⊢ 2048 <= MinRSABits j;
      "auth.jwt.claims_cache.max_entries" ⊢ 0 <= MaxEntries (JWT_ClaimsCache j)].

(** Each scope is named and differs from those before it. *)
Fixpoint scope_rules (before : list string) (scopes : list setting) : list rule :=
  match scopes with
  | [] => []
  | (key, value) :: scopes' =>
      (key ⊢ value <> "") :: (key ⊢ (value <> "" -> value ∉ before))
      :: scope_rules (before ++ [value]) scopes'
  end.

Definition auth_rules (url_Parse : string -> option URL) (c : Config) : list rule :=
  let a := Config_Auth c in
  let l := Config_Listen c in
  let s := Auth_Scopes a in
  ("auth.mode" ⊢ Mode a ∈ [AuthModeEnabled; AuthModeDisabled])
  :: jwt_rules url_Parse c
  ++ scope_rules [] [("auth.scopes.read", Scopes_Read s); ("auth.scopes.write", Scopes_Write s);
                     ("auth.scopes.watch", Scopes_Watch s); ("auth.scopes.admin", Scopes_Admin s)]
  ++ given (Mode a = AuthModeDisabled)
       (("auth.mode" ⊢ node_Environment (Config_Node c) = EnvironmentDevelopment)
        :: given (InsecureAllowRemote a = false)
             ["listen.client" ⊢ (Listen_Client l <> "" -> isLoopback (Listen_Client l) = true);
              "listen.peer" ⊢ (Listen_Peer l <> "" -> isLoopback (Listen_Peer l) = true);
              "listen.metrics" ⊢ (Listen_Metrics l <> "" -> isLoopback (Listen_Metrics l) = true);
              "listen.diagnostics" ⊢
                (Listen_Diagnostics l <> "" -> isLoopback (Listen_Diagnostics l) = true)]).

Definition tls_rules (c : Config) : list rule :=
  let t := Config_TLS c in
  ("tls.min_version" ⊢ MinVersion t ∈ ["1.3"; "1.2"])
  :: ("tls.enabled" ⊢ (TLS_Enabled t = false -> Mode (Config_Auth c) <> AuthModeEnabled))
  :: given (TLS_Enabled t = true)
       (["tls.cert_file" ⊢ CertFile t <> "";
         "tls.key_file" ⊢ KeyFile t <> "";
         "tls.client_ca_file" ⊢ ClientCAFile t <> "";
         "tls.allowed_client_sans" ⊢ entries (AllowedClientSANs t)]
        ++ given (InitialPeers (Config_Cluster c) <> [])
             ["tls.peer_ca_file" ⊢ PeerCAFile t <> "";
              "tls.allowed_peer_sans" ⊢ entries (AllowedPeerSANs t)]).

Definition rate_rules (R : reading) (prefix : string) (limit : RateLimit) : list rule :=
  [prefix +:+ ".rate" ⊢ positive R (Rate limit);
   prefix +:+ ".burst" ⊢ 0 < Burst limit].

Definition limits_rules (R : reading) (c : Config) : list rule :=
  let l := Config_Limits c in
  ["limits.max_key_bytes" ⊢ 0 < MaxKeyBytes l;
   "limits.max_value_bytes" ⊢ 0 < MaxValueBytes l;
   "limits.max_request_bytes" ⊢ 0 < MaxRequestBytes l;
   "limits.max_concurrent_streams" ⊢ 0 < MaxConcurrentStreams l;
   "limits.max_watchers_per_principal" ⊢ 0 < MaxWatchersPerPrincipal l;
   "limits.max_key_bytes" ⊢ MaxKeyBytes l <= MaxRequestBytes l;
   "limits.max_value_bytes" ⊢ MaxValueBytes l <= MaxRequestBytes l]
  ++ rate_rules R "limits.rate_limit.read" (RateLimits_Read (Limits_RateLimit l))
  ++ rate_rules R "limits.rate_limit.write" (RateLimits_Write (Limits_RateLimit l))
  ++ rate_rules R "limits.rate_limit.admin" (RateLimits_Admin (Limits_RateLimit l)).

Definition storage_rules (c : Config) : list rule :=
  let s := Config_Storage c in
  ["storage.engine" ⊢ Engine s = "pebble";
   "storage.fsync" ⊢ Fsync s ∈ [FsyncAlways; FsyncInterval; FsyncOS];
   "storage.fsync_interval" ⊢ (Fsync s = FsyncInterval -> 0 < Storage_FsyncInterval s);
   "storage.wal_segment_bytes" ⊢ 0 < WALSegmentBytes s;
   "storage.wal_retain_segments" ⊢ 0 <= WALRetainSegments s;
   "storage.snapshot_entries" ⊢ 0 < SnapshotEntries s;
   "storage.snapshot_interval" ⊢ 0 < SnapshotInterval s;
   "storage.quota_bytes" ⊢ 0 < QuotaBytes s;
   "storage.auto_compaction_retention" ⊢ 0 <= AutoCompactionRetention s].

Definition cluster_rules (R : reading) (c : Config) : list rule :=
  let cl := Config_Cluster c in
  let r := Cluster_Raft cl in
  ["cluster.initial_peers" ⊢ Forall peer_form (InitialPeers cl);
   "cluster.slot_count" ⊢ 0 < SlotCount cl;
   "cluster.groups" ⊢ 0 < Groups cl;
   "cluster.replication_factor" ⊢ 0 < ReplicationFactor cl;
   "cluster.raft.tick_interval" ⊢ 0 < TickInterval r;
   "cluster.raft.heartbeat_ticks" ⊢ 0 < HeartbeatTicks r;
   "cluster.raft.election_ticks" ⊢ ten_times R (HeartbeatTicks r) <= ElectionTicks r;
   "cluster.raft.max_inflight_msgs" ⊢ 0 < MaxInflightMsgs r;
   "cluster.raft.max_size_per_msg" ⊢ 0 < MaxSizePerMsg r;
   "cluster.raft.pre_vote" ⊢ PreVote r = true;
   "cluster.raft.check_quorum" ⊢ CheckQuorum r = true;
   "cluster.read.default_consistency" ⊢ DefaultConsistency (Cluster_Read cl) = "linearizable";
   "cluster.read.leader_wait_timeout" ⊢ 0 < LeaderWaitTimeout (Cluster_Read cl)].

Definition observability_rules (R : reading) (c : Config) : list rule :=
  let o := Config_Observability c in
  let log := Observability_Log o in
  let tracing := Observability_Tracing o in
  ["observability.log.level" ⊢ Level log ∈ ["debug"; "info"; "warn"; "error"];
   "observability.log.format" ⊢ Format log ∈ ["json"; "text"];
   "observability.log.format" ⊢
     (Format log = "text" -> node_Environment (Config_Node c) = EnvironmentDevelopment);
   "observability.tracing.otlp_endpoint" ⊢
     (Tracing_Enabled tracing = true -> OTLPEndpoint tracing <> "");
   "observability.tracing.sampler" ⊢ Sampler tracing ∈ traceSamplers;
   "observability.tracing.sample_ratio" ⊢ fraction R (SampleRatio tracing);
   "observability.health.max_apply_lag_entries" ⊢ 0 < MaxApplyLagEntries (Observability_Health o)].

Definition rules (R : reading) (url_Parse : string -> option URL) (c : Config) : list rule :=
  node_rules c ++ listen_rules c ++ auth_rules url_Parse c ++ tls_rules c ++ limits_rules R c
  ++ storage_rules c ++ cluster_rules R c ++ observability_rules R c.

(** No rate or ratio is NaN, and ten heartbeats are an [int]. *)
Definition ordinary (c : Config) : Prop :=
  let rl := Limits_RateLimit (Config_Limits c) in
  Forall (fun x => x <> S754_nan)
    [Rate (RateLimits_Read rl); Rate (RateLimits_Write rl); Rate (RateLimits_Admin rl);
     SampleRatio (Observability_Tracing (Config_Observability c))]
  /\ - 2 ^ 63 <= 10 * HeartbeatTicks (Cluster_Raft (Config_Cluster c)) < 2 ^ 63.

(** ** Checks report rules *)

Lemma broken_nil k : broken [] k <-> False.
Proof. split; [|done]. intros (r & Hr%elem_of_nil & _). done. Qed.

Lemma broken_app R1 R2 k : broken (R1 ++ R2) k <-> broken R1 k \/ broken R2 k.
Proof.
  unfold broken. split.
  - intros (r & [Hr|Hr]%elem_of_app & H); eauto.
  - intros [(r & Hr & H)|(r & Hr & H)]; exists r; rewrite elem_of_app; eauto.
Qed.

Lemma broken_one k P k' : broken [k ⊢ P] k' <-> k = k' /\ ~ P.
Proof.
  unfold broken. split.
  - intros (r & ->%list_elem_of_singleton & Hk & HP). done.
  - intros [-> HP]. exists (k' ⊢ P). split; [by apply list_elem_of_singleton|done].
Qed.

Lemma broken_given P R k : broken (given P R) k <-> broken (given P R) k /\ ~ ~ P.
Proof.
  split; [|by intros [H _]]. intros H. split; [done|]. intros HP.
  destruct H as (r & (r' & -> & _)%list_elem_of_fmap & _ & Hn). apply Hn. simpl. tauto.
Qed.

Lemma broken_given_true (P : Prop) R k : P -> broken (given P R) k <-> broken R k.
Proof.
  intros HP. unfold broken, given. split.
  - intros (r & (r' & -> & Hr')%list_elem_of_fmap & Hk & Hn). simpl in *.
    exists r'. split_and!; [done..|]. tauto.
  - intros (r & Hr & Hk & Hn). exists (on r ⊢ (P -> holds r)).
    split_and!; [by apply (list_elem_of_fmap_2 (fun r => on r ⊢ (P -> holds r)))|done|].
    simpl. tauto.
Qed.

Lemma broken_given_false (P : Prop) R k : ~ P -> ~ broken (given P R) k.
Proof. intros HP H%broken_given. tauto. Qed.

Lemma reports_skip : reports skip [].
Proof. intros v. exists []. rewrite app_nil_r. split; [done|]. intros k. rewrite broken_nil. set_solver. Qed.

Lemma reports_app f g R S : reports f R -> reports g S -> reports (seq_check f g) (R ++ S).
Proof.
  intros Hf Hg v. destruct (Hf v) as (n1 & Hn1 & H1). destruct (Hg (f v)) as (n2 & Hn2 & H2).
  exists (n1 ++ n2). unfold seq_check. rewrite Hn2, Hn1, app_assoc. split; [done|].
  intros k. unfold keys in *. rewrite fmap_app, elem_of_app, H1, H2, broken_app. done.
Qed.

Lemma reports_cons f g r S : reports f [r] -> reports g S -> reports (seq_check f g) (r :: S).
Proof. apply (reports_app f g [r] S). Qed.

(** One rule about [key], checked by a branch that adds one violation. *)
Lemma reports_when_add (b : bool) key d P :
  (b = true <-> ~ P) -> reports (when b (add key d)) [key ⊢ P].
Proof.
  intros Hb v. destruct b; unfold when.
  - exists [Violation key d]. split; [done|]. intros k. rewrite broken_one. simpl.
    rewrite list_elem_of_singleton. naive_solver.
  - exists []. rewrite app_nil_r. split; [done|]. intros k. rewrite broken_one. simpl.
    rewrite elem_of_nil. naive_solver.
Qed.

Lemma reports_add key d (P : Prop) : ~ P -> reports (add key d) [key ⊢ P].
Proof. intros HP. apply (reports_when_add true). done. Qed.

Lemma reports_holds key (P : Prop) : P -> reports skip [key ⊢ P].
Proof. intros HP. apply (reports_when_add false key ""). naive_solver. Qed.

Lemma reports_when (b : bool) (P : Prop) f R :
  (b = true <-> P) -> reports f R -> reports (when b f) (given P R).
Proof.
  intros Hb Hf. destruct b; unfold when; intros v.
  - destruct (Hf v) as (new & Hnew & H). exists new. split; [done|]. intros k.
    rewrite broken_given_true; [done|]. by apply Hb.
  - exists []. rewrite app_nil_r. split; [done|]. intros k. simpl. rewrite elem_of_nil.
    split; [done|]. apply broken_given_false. naive_solver.
Qed.

(** The same conditions and keys may be written in another way. *)
Lemma reports_iff f R S : (forall k, broken R k <-> broken S k) -> reports f R -> reports f S.
Proof. intros HRS Hf v. destruct (Hf v) as (new & ? & H). exists new. split; [done|].
  intros k. by rewrite H. Qed.

(** Rules that hold are never reported. *)
Lemma reports_holds_cons f key (P : Prop) R : P -> reports f R -> reports f ((key ⊢ P) :: R).
Proof.
  intros HP. change (_ :: R) with ([key ⊢ P] ++ R). apply reports_iff. intros k.
  rewrite broken_app, broken_one. tauto.
Qed.

Lemma reports_given_false f r (P : Prop) S :
  ~ P -> reports f [r] -> reports f (r :: given P S).
Proof.
  intros HP. apply reports_iff. intros k. rewrite (broken_app [r] (given P S)).
  pose proof (broken_given_false P S k HP). tauto.
Qed.

Lemma reports_given_true f R (P : Prop) : P -> reports f R -> reports f (given P R).
Proof. intros HP. apply reports_iff. intros k. by rewrite broken_given_true. Qed.

(** A check decides whether its rule is broken. *)
Lemma reports_decides f key P : reports f [key ⊢ P] -> ~ P \/ ~ ~ P.
Proof.
  intros Hf. destruct (Hf []) as (new & _ & H). specialize (H key). rewrite broken_one in H.
  destruct (decide (key ∈ keys new)); tauto.
Qed.

Lemma reports_each {A} (l : list A) f key (P : A -> Prop) :
  (forall x, reports (f x) [key ⊢ P x]) -> reports (for_each l f) [key ⊢ Forall P l].
Proof.
  intros Hf. induction l as [|x l IH].
  - apply (reports_iff skip []); [|apply reports_skip]. intros k.
    rewrite broken_one, broken_nil, Forall_nil. tauto.
  - apply (reports_iff (seq_check (f x) (for_each l f)) ([key ⊢ P x] ++ [key ⊢ Forall P l]));
      [|by apply reports_app]. intros k. rewrite broken_app, !broken_one, Forall_cons.
    pose proof (reports_decides _ _ _ (Hf x)). tauto.
Qed.

(** A loop over a literal list is its body at each element. *)
Lemma reports_each_cons {A} (x : A) l f R S :
  reports (f x) R -> reports (for_each l f) S -> reports (for_each (x :: l) f) (R ++ S).
Proof. apply (reports_app (f x) (for_each l f)). Qed.

Lemma reports_each_one {A} (x : A) l f r S :
  reports (f x) [r] -> reports (for_each l f) S -> reports (for_each (x :: l) f) (r :: S).
Proof. apply (reports_each_cons x l f [r]). Qed.

Lemma reports_each_nil {A} (f : A -> check) : reports (for_each [] f) [].
Proof. apply reports_skip. Qed.

(** ** The elementary checks *)

Lemma reports_requireValue key s : reports (requireValue key s) [key ⊢ s <> ""].
Proof. apply reports_when_add. rewrite bool_decide_eq_true. destruct (decide (s = "")); tauto. Qed.

Lemma reports_requirePositive key (x : Z) : reports (requirePositive key x) [key ⊢ 0 < x].
Proof. apply reports_when_add. simpl. rewrite Z.leb_le. lia. Qed.

Lemma reports_requirePositive_float key (x : float64) :
  reports (requirePositive key x) [key ⊢ SFleb x (S754_zero false) = false].
Proof. apply reports_when_add. simpl. destruct (SFleb _ _); naive_solver. Qed.

Lemma reports_requireNonNegative key (x : Z) : reports (requireNonNegative key x) [key ⊢ 0 <= x].
Proof. apply reports_when_add. simpl. rewrite Z.ltb_lt. lia. Qed.

Lemma reports_requireOneOf key s l : reports (requireOneOf key s l) [key ⊢ s ∈ l].
Proof. apply reports_when_add. rewrite bool_decide_eq_true. done. Qed.

Lemma reports_requireOneOf_only key s x : reports (requireOneOf key s [x]) [key ⊢ s = x].
Proof. apply reports_when_add. rewrite bool_decide_eq_true, list_elem_of_singleton. done. Qed.

Lemma reports_requireHostPort key addr : reports (requireHostPort key addr) [key ⊢ host_port addr].
Proof.
  unfold requireHostPort, host_port. destruct (SplitHostPort addr) as [[host port]|].
  2: { apply reports_add. by intros (? & ? & ? & [=] & _). }
  destruct (ParseUint port 16) as [n|e] eqn:Hn.
  2: { apply reports_add. intros (? & ? & ? & [= <- <-] & ? & _). congruence. }
  apply reports_when_add. rewrite Z.eqb_eq. split.
  { intros -> (? & ? & ? & [= <- <-] & ? & ?). congruence. }
  intros H. destruct (decide (n = 0)); [done|]. exfalso. apply H. by exists host, port, n.
Qed.

Lemma reports_requireHTTPSURL url_Parse key s :
  reports (requireHTTPSURL url_Parse key s) [key ⊢ https_url url_Parse s].
Proof.
  unfold requireHTTPSURL, https_url. case_decide; [apply reports_add; tauto|].
  destruct (url_Parse s) as [u|]; [|apply reports_add; naive_solver].
  apply reports_when_add. rewrite bool_decide_eq_true. split; [naive_solver|].
  intros H'. destruct (decide (Scheme u = "https")); [|by left].
  destruct (decide (Host u = "")); [by right|]. exfalso. apply H'. split; [done|]. by exists u.
Qed.

Lemma reports_entries_loop key l :
  reports (entries_loop key l) [key ⊢ Forall (fun s => TrimSpace s <> "") l].
Proof.
  induction l as [|item l IH]; simpl; [by apply reports_holds|].
  case_decide; [apply reports_add; by intros []%Forall_cons|].
  refine (reports_iff _ _ _ _ IH). intros k. rewrite !broken_one, Forall_cons. tauto.
Qed.

Lemma reports_requireEntries key l : reports (requireEntries key l) [key ⊢ entries l].
Proof.
  unfold requireEntries, entries. destruct l as [|x l]; [apply reports_add; tauto|].
  refine (reports_iff _ _ _ _ (reports_entries_loop key (x :: l))).
  intros k. rewrite !broken_one. naive_solver.
Qed.

Lemma reports_checkPeer peer :
  reports (checkPeer peer) ["cluster.initial_peers" ⊢ peer_form peer].
Proof.
  unfold checkPeer, peer_form. destruct (Cut peer "=") as [[name addr] ok].
  destruct (negb ok || bool_decide (name = "")) eqn:Hbad.
  - apply reports_add. intros (n & a & [= -> -> ->] & Hn & _). simpl in Hbad.
    by rewrite bool_decide_eq_true in Hbad.
  - apply orb_false_iff in Hbad as [Hok%negb_false_iff Hname%bool_decide_eq_false]. subst ok.
    refine (reports_iff _ _ _ _ (reports_requireHostPort _ addr)).
    intros k. rewrite !broken_one. naive_solver.
Qed.

(** A guarded single rule, with the guard written as an implication. *)
Lemma reports_when_one (b : bool) (G : Prop) f key P :
  (b = true <-> G) -> reports f [key ⊢ P] -> reports (when b f) [key ⊢ (G -> P)].
Proof. apply reports_when. Qed.

Lemma reports_scopes_loop seen before scopes :
  (forall s, is_Some (seen !! s) <-> s ∈ before) ->
  reports (scopes_loop seen scopes) (scope_rules before scopes).
Proof.
  revert seen before. induction scopes as [|[key value] scopes IH]; intros seen before Hseen;
    [apply reports_skip|].
  cbn [scopes_loop scope_rules]. apply reports_cons; [apply reports_requireValue|].
  apply reports_cons; [|apply IH].
  - destruct (seen !! value) as [other|] eqn:Hv.
    + apply reports_when_add. rewrite bool_decide_eq_true.
      assert (value ∈ before) by (apply Hseen; rewrite Hv; eauto). tauto.
    + apply reports_holds. intros _ H%Hseen. rewrite Hv in H. by destruct H.
  - intros s. rewrite elem_of_app, list_elem_of_singleton, <- Hseen.
    destruct (decide (s = value)) as [->|]; [rewrite lookup_insert_eq|rewrite lookup_insert_ne by done];
      naive_solver.
Qed.

Lemma reports_loopback key a d :
  reports (when (bool_decide (a <> "") && negb (isLoopback a)) (add key d))
    [key ⊢ (a <> "" -> isLoopback a = true)].
Proof.
  apply reports_when_add. rewrite andb_true_iff, bool_decide_eq_true.
  destruct (isLoopback a), (decide (a = "")); naive_solver.
Qed.

Create HintDb config.
#[export] Hint Resolve reports_skip reports_each_nil reports_requireValue reports_requirePositive
  reports_requirePositive_float reports_requireNonNegative reports_requireOneOf_only
  reports_requireOneOf reports_requireHostPort reports_requireHTTPSURL reports_requireEntries
  reports_checkPeer reports_loopback : config.

(** The condition of a branch against the rule it enforces. *)
Ltac guard_cond :=
  simpl; rewrite ?orb_true_iff, ?andb_true_iff, ?negb_true_iff, ?bool_decide_eq_true, ?Z.ltb_lt;
  repeat match goal with
         | |- context [?b = true] => lazymatch b with true => fail | false => fail | _ => destruct b end
         | |- context [?b = false] => lazymatch b with true => fail | false => fail | _ => destruct b end
         end;
  first [lia | tauto | intuition discriminate | destruct_decide_goal]
with destruct_decide_goal :=
  match goal with
  | |- context [@eq string ?x ?y] => destruct (decide (x = y)); tauto
  end.

(** Walks a sequence of checks, one rule each. *)
Ltac report_one :=
  first [ solve [eauto 2 with config]
        | apply reports_when_add; solve [guard_cond]
        | apply reports_when_one; [solve [guard_cond]|solve [eauto 2 with config]] ].
Ltac report_rules :=
  repeat first [ apply reports_cons; [report_one|]
               | apply reports_each_one; [cbn [fst snd]; report_one|] ];
  try report_one.

(** ** The sections *)

Lemma reports_validateNode c : reports (validateNode c) (node_rules c).
Proof. unfold validateNode, node_rules. report_rules. Qed.

Lemma reports_validateListen c : reports (validateListen c) (listen_rules c).
Proof. unfold validateListen, listen_rules. report_rules. Qed.

Lemma reports_validateJWT url_Parse c : reports (validateJWT url_Parse c) (jwt_rules url_Parse c).
Proof.
  unfold validateJWT, jwt_rules. apply reports_app.
  { apply reports_when; [apply bool_decide_eq_true|]. report_rules. }
  report_rules. apply reports_cons; [|report_rules].
  apply reports_each. eauto with config.
Qed.

Lemma reports_validateScopes s :
  reports (validateScopes s)
    (scope_rules [] [("auth.scopes.read", Scopes_Read s); ("auth.scopes.write", Scopes_Write s);
                     ("auth.scopes.watch", Scopes_Watch s); ("auth.scopes.admin", Scopes_Admin s)]).
Proof.
  apply reports_scopes_loop. intros x. rewrite lookup_empty, elem_of_nil. split; [by intros []|done].
Qed.

Lemma bool_iff (b : bool) : (b = true <-> ~ b = false) /\ (b = false \/ ~ b = false).
Proof. destruct b; naive_solver. Qed.

Lemma reports_if (b : bool) (P : Prop) f R :
  (b = true <-> ~ P) -> (P \/ ~ P) -> reports f R -> reports (if b then skip else f) (given P R).
Proof.
  intros Hb HP Hf. replace (if b then skip else f) with (when (negb b) f) by (by destruct b).
  apply reports_when; [|done]. destruct b; naive_solver.
Qed.

Lemma reports_validateAuth url_Parse c :
  reports (validateAuth url_Parse c) (auth_rules url_Parse c).
Proof.
  unfold validateAuth, auth_rules. apply reports_cons; [report_one|].
  apply reports_app; [apply reports_validateJWT|].
  apply reports_app; [apply reports_validateScopes|].
  case_decide as Hmode.
  { apply (reports_iff skip []); [|apply reports_skip]. intros k. rewrite broken_nil.
    split; [done|]. by apply broken_given_false. }
  apply reports_given_true; [done|].
  apply reports_cons; [report_one|].
  apply (reports_if (InsecureAllowRemote (Config_Auth c))); [apply bool_iff..|report_rules].
Qed.

Lemma reports_validateTLS c : reports (validateTLS c) (tls_rules c).
Proof.
  unfold validateTLS, tls_rules. apply reports_cons; [report_one|].
  destruct (TLS_Enabled (Config_TLS c)); simpl negb; cbn iota.
  - apply reports_holds_cons; [done|]. apply reports_given_true; [done|]. cbn [app].
    report_rules. apply reports_when; [|report_rules].
    rewrite Z.ltb_lt. destruct (InitialPeers (Config_Cluster c)); simpl; [naive_solver lia|].
    split; [done|lia].
  - apply reports_given_false; [done|].
    apply reports_when_add. rewrite bool_decide_eq_true.
    destruct (decide (Mode (Config_Auth c) = AuthModeEnabled)); tauto.
Qed.

Lemma reports_rate prefix limit :
  reports (seq_check (requirePositive (prefix +:+ ".rate") (Rate limit))
                     (requirePositive (prefix +:+ ".burst") (Burst limit)))
    (rate_rules enforced prefix limit).
Proof. unfold rate_rules. cbn [positive enforced]. report_rules. Qed.

Lemma reports_validateLimits c : reports (validateLimits c) (limits_rules enforced c).
Proof.
  unfold validateLimits, limits_rules. cbn [app]. report_rules.
  apply reports_each_cons; [apply reports_rate|].
  apply reports_each_cons; [apply reports_rate|].
  rewrite <- (app_nil_r (rate_rules _ _ (RateLimits_Admin _))).
  apply reports_each_cons; [apply reports_rate|apply reports_each_nil].
Qed.

Lemma reports_validateStorage c : reports (validateStorage c) (storage_rules c).
Proof. unfold validateStorage, storage_rules. report_rules. Qed.

Lemma reports_validateCluster c : reports (validateCluster c) (cluster_rules enforced c).
Proof.
  unfold validateCluster, cluster_rules. cbn [ten_times enforced]. apply reports_cons.
  { apply reports_each. eauto with config. }
  report_rules.
Qed.

Lemma reports_validateObservability c :
  reports (validateObservability c) (observability_rules enforced c).
Proof.
  unfold validateObservability, observability_rules. cbn [fraction enforced]. report_rules.
Qed.

#[export] Hint Resolve reports_validateNode reports_validateListen reports_validateAuth
  reports_validateTLS reports_validateLimits reports_validateStorage reports_validateCluster
  reports_validateObservability : config.

Lemma reports_validate_all url_Parse c : reports (validate_all url_Parse c) (rules enforced url_Parse c).
Proof.
  unfold validate_all, rules.
  do 7 (apply reports_app; [solve [eauto 1 with config]|]). eauto 1 with config.
Qed.

(** ** Sorting by key *)

Definition key_le (x y : FieldViolation) : Prop := String.le (Field x) (Field y).

Lemma insert_sorted_perm x l : insert_sorted x l ≡ₚ x :: l.
Proof.
  induction l as [|y l IH]; simpl; [done|]. case_match; [done|]. rewrite IH. apply Permutation_swap.
Qed.

Lemma sort_by_key_perm l : sort_by_key l ≡ₚ l.
Proof. induction l as [|x l IH]; simpl; [done|]. by rewrite insert_sorted_perm, IH. Qed.

Lemma insert_sorted_sorted x l : StronglySorted key_le l -> StronglySorted key_le (insert_sorted x l).
Proof.
  induction 1 as [|y l Hl IH Hy]; simpl; [by repeat constructor|].
  destruct (String.leb (Field x) (Field y)) eqn:Hxy.
  - assert (key_le x y) as Hle by (unfold key_le, String.le; by rewrite Hxy).
    constructor; [by constructor|]. constructor; [done|].
    eapply Forall_impl; [exact Hy|]. intros z Hz. unfold key_le in *. by trans (Field y).
  - constructor; [done|]. rewrite insert_sorted_perm. constructor; [|done].
    unfold key_le, String.le. destruct (String.leb_total (Field x) (Field y)) as [H|H]; congruence || by rewrite H.
Qed.

Lemma sort_by_key_sorted l : StronglySorted key_le (sort_by_key l).
Proof. induction l; simpl; [constructor|by apply insert_sorted_sorted]. Qed.

Definition about (k : string) (l : list FieldViolation) : list FieldViolation :=
  filter (fun x => Field x = k) l.

Lemma insert_sorted_about k x l : about k (insert_sorted x l) = about k (x :: l).
Proof.
  induction l as [|y l IH]; simpl; [done|]. destruct (String.leb (Field x) (Field y)) eqn:Hxy; [done|].
  assert (Field x <> Field y) as Hne.
  { intros He. rewrite He in Hxy. destruct (String.leb_total (Field y) (Field y)); congruence. }
  unfold about in *. rewrite (filter_cons _ y), IH. rewrite !filter_cons.
  repeat case_decide; congruence.
Qed.

(** The sort keeps the violations of one key in the order they were found. *)
Lemma sort_by_key_about k l : about k (sort_by_key l) = about k l.
Proof.
  induction l as [|x l IH]; simpl; [done|]. rewrite insert_sorted_about. unfold about in *.
  rewrite !filter_cons, IH. done.
Qed.

(** ** Every rule is decidable *)

#[export] Instance host_port_dec addr : Decision (host_port addr).
Proof.
  destruct (SplitHostPort addr) as [[host port]|] eqn:Hs.
  2: { right. intros (? & ? & ? & ? & _). congruence. }
  destruct (ParseUint port 16) as [n|e] eqn:Hn.
  2: { right. intros (? & ? & ? & ? & ? & _). congruence. }
  destruct (decide (n = 0)) as [->|Hz].
  - right. intros (? & ? & ? & ? & ? & ?). congruence.
  - left. by exists host, port, n.
Defined.

#[export] Instance https_url_dec url_Parse s : Decision (https_url url_Parse s).
Proof.
  destruct (decide (s = "")); [right; by intros []|].
  destruct (url_Parse s) as [u|] eqn:Hu; [|right; intros (_ & ? & ? & _); congruence].
  destruct (decide (Scheme u = "https" /\ Host u <> "")) as [H|H].
  - left. split; [done|]. by exists u.
  - right. intros (_ & u' & Hu' & H'). apply H. rewrite Hu in Hu'. by injection Hu' as ->.
Defined.

#[export] Instance entries_dec l : Decision (entries l).
Proof. apply _. Defined.

#[export] Instance peer_form_dec peer : Decision (peer_form peer).
Proof.
  destruct (Cut peer "=") as [[name addr] ok] eqn:Hc.
  destruct (decide (ok = true /\ name <> "" /\ host_port addr)) as [(-> & Hn & Ha)|H].
  - left. by exists name, addr.
  - right. intros (n & a & Hna & H'). apply H. rewrite Hc in Hna. by injection Hna as -> -> ->.
Defined.

Definition decided (r : rule) : Prop := holds r \/ ~ holds r.

Lemma decided_dec k (P : Prop) `{Decision P} : decided (k ⊢ P).
Proof. unfold decided. simpl. destruct (decide P); tauto. Qed.

Lemma rules_decided url_Parse c : Forall decided (rules enforced url_Parse c).
Proof.
  unfold rules, node_rules, listen_rules, auth_rules, jwt_rules, tls_rules, limits_rules,
    rate_rules, storage_rules, cluster_rules, observability_rules, given.
  cbn [app fmap list_fmap scope_rules on holds positive fraction ten_times enforced].
  repeat (apply Forall_cons; split; [refine (decided_dec _ _)|]). apply Forall_nil. done.
Qed.

Lemma not_broken R : Forall decided R -> (forall k, ~ broken R k) -> Forall holds R.
Proof.
  rewrite !Forall_forall. intros Hd Hb r Hr. destruct (Hd r Hr) as [H|H]; [done|].
  destruct (Hb (on r)). by exists r.
Qed.

(** The error of a list of violations. *)
Lemma invalid_argument m vs :
  reason (WithViolations (New ReasonInvalidArgument m) vs) = ReasonInvalidArgument
  /\ violations (WithViolations (New ReasonInvalidArgument m) vs) = vs.
Proof.
  unfold New, WithViolations. by rewrite Registered_ReasonInvalidArgument.
Qed.

Lemma given_holds P R : Forall holds (given P R) <-> (P -> Forall holds R).
Proof.
  unfold given. rewrite Forall_fmap, !Forall_forall. simpl. naive_solver.
Qed.

(** ** The documented rules are the enforced ones, for ordinary numbers *)

(** The same rules, with conditions that mean the same. *)
Definition same_rules : relation (list rule) := Forall2 (fun r s => on r = on s /\ (holds r <-> holds s)).

#[export] Instance same_rules_refl : Reflexive same_rules.
Proof. intros R. apply Forall_Forall2_diag, Forall_forall. done. Qed.

Lemma same_rules_app R R' S S' : same_rules R R' -> same_rules S S' -> same_rules (R ++ S) (R' ++ S').
Proof. apply Forall2_app. Qed.

Lemma same_rules_broken R R' k : same_rules R R' -> broken R k <-> broken R' k.
Proof.
  intros H. unfold broken. split; intros (r & Hr & Hk & Hn).
  - apply (list_elem_of_lookup_1) in Hr as [i Hi]. destruct (Forall2_lookup_l _ _ _ _ _ H Hi) as (s & Hs & Hon & Hh).
    exists s. split_and!; [by eapply list_elem_of_lookup_2|congruence|tauto].
  - apply (list_elem_of_lookup_1) in Hr as [i Hi]. destruct (Forall2_lookup_r _ _ _ _ _ H Hi) as (s & Hs & Hon & Hh).
    exists s. split_and!; [by eapply list_elem_of_lookup_2|congruence|tauto].
Qed.

Lemma same_rules_holds R R' : same_rules R R' -> Forall holds R <-> Forall holds R'.
Proof.
  induction 1 as [|r s R R' [_ Hh] _ IH]; [by rewrite !Forall_nil|]. by rewrite !Forall_cons, Hh, IH.
Qed.

(** Comparisons of floats that are numbers can be turned round. *)
Lemma SFltb_leb x y : x <> S754_nan -> y <> S754_nan -> SFltb x y = negb (SFleb y x).
Proof.
  intros Hx Hy. unfold SFltb, SFleb.
  assert (SFcompare x y = CompOpp <$> SFcompare y x /\ is_Some (SFcompare x y)) as [Hc [o Ho]].
  { destruct x as [[]|[]| |[] m e], y as [[]|[]| |[] m' e']; try done; cbn; (split; [|eauto]); try done;
      rewrite (Z.compare_antisym e' e); destruct (Z.compare e' e); cbn; try done;
      pose proof (Pos.compare_antisym m' m : Pos.compare_cont Eq m m' = CompOpp (Pos.compare_cont Eq m' m)) as Hp;
      rewrite Hp; by destruct (Pos.compare_cont Eq m' m). }
  rewrite Hc in *. destruct (SFcompare y x) as [[]|]; done.
Qed.

Lemma rules_ordinary url_Parse c :
  ordinary c -> same_rules (rules documented url_Parse c) (rules enforced url_Parse c).
Proof.
  intros [Hn Hb]. rewrite !Forall_cons in Hn. destruct Hn as (Hr & Hw & Ha & Hs & _).
  assert (forall prefix limit, Rate limit <> S754_nan ->
    same_rules (rate_rules documented prefix limit) (rate_rules enforced prefix limit)) as Hrate.
  { intros prefix limit Hl. apply Forall2_cons. split; [|reflexivity]. split; [done|]. cbn.
    rewrite SFltb_leb by done. by destruct (SFleb _ _). }
  unfold rules. repeat (apply same_rules_app; [reflexivity|]). apply same_rules_app.
  { unfold limits_rules. apply same_rules_app; [reflexivity|].
    repeat (apply same_rules_app; [by apply Hrate|]). by apply Hrate. }
  apply same_rules_app; [reflexivity|]. apply same_rules_app.
  - unfold cluster_rules. unfold same_rules. repeat (apply Forall2_cons; split; [split; [done|]|]); try done.
    cbn. by rewrite i64_small by lia.
  - unfold observability_rules. unfold same_rules. repeat (apply Forall2_cons; split; [split; [done|]|]); try done.
    cbn. rewrite !SFltb_leb by done. rewrite !negb_false_iff. done.
Qed.
