(* ===== verification/ConfigTheorems.v ===== *)
(** * What validation of a configuration guarantees (internal/config)

    The claims about [Validate] and [Warnings]: the exact report, what a valid
    configuration means for the components that are built from it, and which
    conditions the comments promise but floats and overflow escape. *)

From stdpp Require Import prelude gmap strings list sorting.
From Stdlib Require Import ZArith Lia SpecFloat Ascii.
From S2P Require Import Prelude GoStrings GoNet Kverr Shard Config Log ConfigRules ConfigSpec.

Local Open Scope Z_scope.

(** A production configuration: the defaults and what they leave to be set. *)
Definition production : Config :=
  mkConfig defaultNode defaultListen (mkAdvertise "" "")
    (mkAuth AuthModeEnabled false
       (mkJWT "https://idp.example" "https://idp.example/jwks" ["gokvx"] ["RS256"]
          (60 * Second) (15 * Minute) (60 * Second) (5 * Second) (Z.shiftl 1 20) 2048
          (mkClaimsCache 10000))
       (Auth_Scopes defaultAuth))
    (mkTLS true "1.3" "/etc/gokvx/tls/tls.crt" "/etc/gokvx/tls/tls.key"
       "/etc/gokvx/tls/client-ca.crt" "/etc/gokvx/tls/peer-ca.crt" true [] ["client.example"])
    defaultLimits defaultStorage defaultCluster defaultObservability.

(** A parser that knows one prefix, enough for the examples. *)
Definition https_only (s : string) : option URL :=
  match strip_prefix "https://" s with
  | Some rest => let '(host, _, _) := Cut rest "/" in Some (mkURL "https" host)
  | None => Some (mkURL "" "")
  end.

Lemma production_valid : Validate https_only production = None.
Proof. vm_compute. reflexivity. Qed.

(** The defaults alone are refused, naming exactly what must be provided. *)
Example defaults_refused :
  keys <$> (match Validate https_only Defaults with
            | Some (EKv (Some e)) => Some (violations e)
            | _ => None
            end)
  = Some ["auth.jwt.issuer_url"; "auth.jwt.jwks_url"; "tls.allowed_client_sans"].
Proof. vm_compute. reflexivity. Qed.

(** ** Helpers *)

Lemma Validate_None url_Parse c :
  Validate url_Parse c = None <-> Forall holds (rules enforced url_Parse c).
Proof.
  destruct (reports_validate_all url_Parse c []) as (new & Hnew & H).
  unfold Validate, violations_err. rewrite Hnew. cbn [app]. split.
  - destruct new as [|x new]; [|done]. intros _. apply not_broken; [apply rules_decided|].
    intros k Hk%H. by apply elem_of_nil in Hk.
  - intros Hall. destruct new as [|x new]; [done|].
    destruct (proj1 (H (Field x))) as (r & Hr & _ & Hn); [by left|].
    destruct Hn. by eapply Forall_forall in Hall.
Qed.

(** A valid configuration satisfies each rule of each section. *)
Lemma valid_rule url_Parse c r :
  Validate url_Parse c = None -> r ∈ rules enforced url_Parse c -> holds r.
Proof. rewrite Validate_None, Forall_forall. eauto. Qed.

Lemma isLoopback_spec addr :
  isLoopback addr = true <->
  exists host port, SplitHostPort addr = Some (host, port)
    /\ (host = "localhost" \/ exists ip, ParseIP host = Some ip /\ IsLoopback ip = true).
Proof.
  unfold isLoopback. destruct (SplitHostPort addr) as [[host port]|].
  2: { split; [done|]. by intros (? & ? & [=] & _). }
  case_decide as Hl; [split; eauto|].
  destruct (ParseIP host) as [ip|] eqn:Hip; split.
  - intros Hlo. exists host, port. split; [done|]. right. eauto.
  - intros (? & ? & [= <- <-] & [?|(ip' & Hip' & ?)]); [done|]. congruence.
  - done.
  - intros (? & ? & [= <- <-] & [?|(ip' & Hip' & ?)]); [done|]. congruence.
Qed.

(** Scopes that differ from those before them differ from each other. *)
Lemma scope_rules_NoDup before scopes :
  Forall holds (scope_rules before scopes) ->
  NoDup before -> "" ∉ before ->
  NoDup (before ++ scopes.*2) /\ "" ∉ before ++ scopes.*2.
Proof.
  revert before. induction scopes as [|[key value] scopes IH]; intros before.
  { rewrite app_nil_r. done. }
  cbn [scope_rules fmap list_fmap]. rewrite !Forall_cons. simpl. intros (Hne & Hnew & Hrest) Hd Hb.
  change (value :: scopes.*2) with ([value] ++ scopes.*2). rewrite app_assoc.
  apply IH; [done|..].
  - apply NoDup_app. split_and!; [done| |apply NoDup_singleton].
    intros x Hx ->%list_elem_of_singleton. by apply Hnew.
  - rewrite elem_of_app, list_elem_of_singleton. intros [?|?]; [done|]. by apply Hne.
Qed.

(** The signing algorithms are asymmetric ones. *)
Lemma jwtAlgorithms_asymmetric alg :
  alg ∈ jwtAlgorithms -> alg <> "none" /\ HasPrefix alg "HS" = false.
Proof.
  revert alg. apply Forall_forall.
  apply (bool_decide_unpack _). vm_compute. done.
Qed.

(** Takes the rules of a section apart, one hypothesis each. *)
Ltac open_rules H :=
  repeat first
    [ rewrite Forall_app in H | rewrite Forall_cons in H | rewrite given_holds in H ];
  cbn [holds on] in H.

(** *** What each section means *)

Lemma auth_modes url_Parse c :
  Forall holds (auth_rules url_Parse c) -> Forall holds (tls_rules c) ->
  Mode (Config_Auth c) = AuthModeEnabled /\ TLS_Enabled (Config_TLS c) = true
    /\ https_url url_Parse (IssuerURL (Auth_JWT (Config_Auth c)))
    /\ https_url url_Parse (JWKSURL (Auth_JWT (Config_Auth c)))
  \/ Mode (Config_Auth c) = AuthModeDisabled
    /\ node_Environment (Config_Node c) = EnvironmentDevelopment
    /\ (InsecureAllowRemote (Config_Auth c) = false ->
        Forall (fun a => a <> "" -> isLoopback a = true)
          [Listen_Client (Config_Listen c); Listen_Peer (Config_Listen c);
           Listen_Metrics (Config_Listen c); Listen_Diagnostics (Config_Listen c)]).
Proof.
  unfold auth_rules, jwt_rules, tls_rules. intros Ha Ht. open_rules Ha. open_rules Ht.
  destruct Ha as (Hmode & (Hen & _) & _ & Hdis). destruct Ht as (_ & Htls & _).
  apply elem_of_cons in Hmode as [Hm|Hm%list_elem_of_singleton]; [left|right].
  - destruct (Hen Hm) as (? & ? & _). split_and!; [done| |done..].
    destruct (TLS_Enabled (Config_TLS c)); [done|]. by destruct Htls.
  - destruct (Hdis Hm) as (? & Hlo). split_and!; [done..|].
    intros (? & ? & ? & ? & _)%Hlo. by repeat constructor.
Qed.

Lemma auth_algorithms url_Parse c alg :
  Forall holds (auth_rules url_Parse c) -> alg ∈ Algorithms (Auth_JWT (Config_Auth c)) ->
  alg ∈ jwtAlgorithms.
Proof.
  unfold auth_rules, jwt_rules. intros Ha Halg. open_rules Ha.
  destruct Ha as (_ & (_ & _ & _ & Halgs & _) & _). by eapply Forall_forall in Halgs.
Qed.

Lemma auth_scopes url_Parse c :
  Forall holds (auth_rules url_Parse c) ->
  let sc := Auth_Scopes (Config_Auth c) in
  let scopes := [Scopes_Read sc; Scopes_Write sc; Scopes_Watch sc; Scopes_Admin sc] in
  NoDup scopes /\ "" ∉ scopes.
Proof.
  unfold auth_rules. rewrite Forall_cons, !Forall_app. intros (_ & _ & Hs & _).
  apply (scope_rules_NoDup [] _ Hs); [constructor|apply not_elem_of_nil].
Qed.

Lemma limits_fit c :
  Forall holds (limits_rules enforced c) ->
  let l := Config_Limits c in
  0 < MaxKeyBytes l <= MaxRequestBytes l /\ 0 < MaxValueBytes l <= MaxRequestBytes l.
Proof. unfold limits_rules. intros Hl. open_rules Hl. naive_solver. Qed.

Lemma storage_log_config c :
  Forall holds (node_rules c) -> Forall holds (storage_rules c) ->
  let s := Config_Storage c in
  LogConfig_Validate (mkLogConfig (DataDir (Config_Node c)) (WALSegmentBytes s) (Fsync s)
    (Storage_FsyncInterval s)) = None.
Proof.
  unfold node_rules, storage_rules. intros Hn Hs. open_rules Hn. open_rules Hs.
  destruct Hn as (_ & _ & Hdir & _). destruct Hs as (_ & Hfsync & Hint & Hseg & _).
  assert (LogConfig_problems (mkLogConfig (DataDir (Config_Node c))
    (WALSegmentBytes (Config_Storage c)) (Fsync (Config_Storage c))
    (Storage_FsyncInterval (Config_Storage c))) = []) as Hp.
  { unfold LogConfig_problems. cbn [lc_Dir lc_SegmentBytes lc_Fsync lc_FsyncInterval].
    rewrite (decide_False _ _ Hdir), (proj2 (Z.leb_gt _ _) Hseg). case_decide; [done|].
    assert (Fsync (Config_Storage c) = FsyncInterval) as Hi by set_solver.
    by rewrite (decide_True _ _ Hi), (proj2 (Z.leb_gt _ _) (Hint Hi)). }
  cbv zeta. unfold LogConfig_Validate. by rewrite Hp.
Qed.

Lemma cluster_sound c :
  Forall holds (cluster_rules enforced c) ->
  NewSlotter (SlotCount (Config_Cluster c)) = Ok (mkSlotter (SlotCount (Config_Cluster c)))
  /\ (let r := Cluster_Raft (Config_Cluster c) in
      10 * HeartbeatTicks r < 2 ^ 63 -> 10 * HeartbeatTicks r <= ElectionTicks r).
Proof.
  unfold cluster_rules. intros Hc. open_rules Hc.
  destruct Hc as (_ & Hslots & _ & _ & _ & Hbeat & Helect & _). split.
  - unfold NewSlotter. by rewrite (proj2 (Z.eqb_neq _ _)) by lia.
  - cbv zeta. cbn [ten_times enforced] in Helect. intros Hr. rewrite i64_small in Helect; lia.
Qed.


(** ** Claims *)




(** C30: What a valid configuration guarantees. Authentication is off only on a
    development node, whose listeners are then bound to loopback addresses
    unless remote access was allowed explicitly; it is on only together with
    TLS and with HTTPS URLs for the issuer and the key set. Token algorithms
    are asymmetric, scopes are named and pairwise different, requests can carry
    a key and a value of the largest size, the command log accepts the storage
    section, the slot count makes a slotter, and the election timeout is at
    least ten heartbeats when that product is an [int]. *)
Theorem Validate_safe url_Parse c :
  Validate url_Parse c = None ->
  let a := Config_Auth c in
  let s := Config_Storage c in
  (Mode a = AuthModeEnabled /\ TLS_Enabled (Config_TLS c) = true
     /\ https_url url_Parse (IssuerURL (Auth_JWT a)) /\ https_url url_Parse (JWKSURL (Auth_JWT a))
   \/ Mode a = AuthModeDisabled /\ node_Environment (Config_Node c) = EnvironmentDevelopment
     /\ (InsecureAllowRemote a = true \/
         forall addr, addr ∈ [Listen_Client (Config_Listen c); Listen_Peer (Config_Listen c);
                             Listen_Metrics (Config_Listen c); Listen_Diagnostics (Config_Listen c)] ->
           addr <> "" -> exists host port, SplitHostPort addr = Some (host, port)
             /\ (host = "localhost" \/ exists ip, ParseIP host = Some ip /\ IsLoopback ip = true)))
  /\ (forall alg, alg ∈ Algorithms (Auth_JWT a) -> alg <> "none" /\ HasPrefix alg "HS" = false)
  /\ (let sc := Auth_Scopes a in
      NoDup [Scopes_Read sc; Scopes_Write sc; Scopes_Watch sc; Scopes_Admin sc]
      /\ "" ∉ [Scopes_Read sc; Scopes_Write sc; Scopes_Watch sc; Scopes_Admin sc])
  /\ (let l := Config_Limits c in
      0 < MaxKeyBytes l <= MaxRequestBytes l /\ 0 < MaxValueBytes l <= MaxRequestBytes l)
  /\ LogConfig_Validate (mkLogConfig (DataDir (Config_Node c)) (WALSegmentBytes s) (Fsync s)
        (Storage_FsyncInterval s)) = None
  /\ NewSlotter (SlotCount (Config_Cluster c)) = Ok (mkSlotter (SlotCount (Config_Cluster c)))
  /\ (let r := Cluster_Raft (Config_Cluster c) in
      10 * HeartbeatTicks r < 2 ^ 63 -> 10 * HeartbeatTicks r <= ElectionTicks r).
Proof.
  intros Hv. apply Validate_None in Hv. unfold rules in Hv. rewrite !Forall_app in Hv.
  destruct Hv as (Hnode & Hlisten & Hauth & Htls & Hlimits & Hstorage & Hcluster & _).
  cbv zeta. split; [|split]; [| |split; [by eapply auth_scopes|split;
    [by apply limits_fit|split; [by apply storage_log_config|by apply cluster_sound]]]].
  - destruct (auth_modes _ _ Hauth Htls) as [?|(? & ? & Hlo)]; [by left|right].
    split_and!; [done..|]. destruct (InsecureAllowRemote (Config_Auth c)); [by left|right].
    intros addr Haddr Hne. apply isLoopback_spec. specialize (Hlo eq_refl).
    rewrite Forall_forall in Hlo. eauto.
  - intros alg Halg. eapply jwtAlgorithms_asymmetric, auth_algorithms; eauto.
Qed.

Lemma Validate_safe_witness :
  Validate https_only production = None
  /\ LogConfig_Validate (mkLogConfig (DataDir (Config_Node production))
       (WALSegmentBytes (Config_Storage production)) (Fsync (Config_Storage production))
       (Storage_FsyncInterval (Config_Storage production))) = None.
Proof.
  split; [exact production_valid|].
  destruct (Validate_safe https_only production production_valid) as (_ & _ & _ & _ & H & _).
  exact H.
Defined.

(** C31: Startup warnings. There is exactly one warning for each setting that
    weakens safety, with that setting and what it costs, and no other: disabled
    authentication, remote access without it, disabled TLS, and each of the two
    weaker flush policies. No two are about the same setting, and a valid
    configuration has none exactly when authentication and TLS are on, remote
    access without authentication is not allowed, and every write is flushed
    before it is acknowledged. *)
Theorem Warnings_exact url_Parse c :
  NoDup (Setting <$> Warnings c)
  /\ (forall w, w ∈ Warnings c <->
       Mode (Config_Auth c) = "disabled"
         /\ w = mkWarning "auth.mode=disabled" ("mutual TLS and token verification are off; "
              +:+ "any caller that can connect may read and write every key")
       \/ InsecureAllowRemote (Config_Auth c) = true
         /\ w = mkWarning "auth.insecure_allow_remote=true"
              "a node with authentication disabled may accept connections from the network"
       \/ TLS_Enabled (Config_TLS c) = false
         /\ w = mkWarning "tls.enabled=false"
              "traffic is unencrypted and callers are not identified by certificate"
       \/ Fsync (Config_Storage c) = "interval"
         /\ w = mkWarning "storage.fsync=interval"
              "a crash can lose writes acknowledged within the last storage.fsync_interval"
       \/ Fsync (Config_Storage c) = "os"
         /\ w = mkWarning "storage.fsync=os"
              "a crash can lose any acknowledged write the operating system has not flushed")
  /\ (Validate url_Parse c = None ->
       Warnings c = [] <->
       Mode (Config_Auth c) = AuthModeEnabled /\ TLS_Enabled (Config_TLS c) = true
       /\ InsecureAllowRemote (Config_Auth c) = false /\ Fsync (Config_Storage c) = FsyncAlways).
Proof.
  split; [|split].
  - unfold Warnings. repeat case_decide; destruct (InsecureAllowRemote _), (TLS_Enabled _);
      apply (bool_decide_unpack _); vm_compute; done.
  - intros w. unfold Warnings. rewrite !elem_of_app.
    assert (forall (P : Prop) `{Decision P} x, w ∈ (if decide P then [x] else []) <-> P /\ w = x) as Hd.
    { intros P ? x. case_decide; rewrite ?list_elem_of_singleton, ?elem_of_nil; tauto. }
    assert (forall (b : bool) x, w ∈ (if b then [x] else []) <-> b = true /\ w = x) as Hb.
    { intros [] x; rewrite ?list_elem_of_singleton, ?elem_of_nil; intuition discriminate. }
    rewrite Hd, !Hb, negb_true_iff.
    assert (FsyncInterval <> FsyncOS) as Hne by done.
    do 3 (apply or_iff_compat_l). case_decide as Hi.
    + rewrite list_elem_of_singleton. unfold FsyncInterval, FsyncOS in *. split; [tauto|].
      intros [[_ ?]|[Ho _]]; [done|congruence].
    + rewrite Hd. unfold FsyncInterval, FsyncOS in *. tauto.
  - intros Hv. apply Validate_None in Hv. unfold rules in Hv. rewrite !Forall_app in Hv.
    destruct Hv as (_ & _ & Hauth & Htls & _ & Hstorage & _).
    assert (Mode (Config_Auth c) = AuthModeEnabled \/ Mode (Config_Auth c) = AuthModeDisabled) as Hmode.
    { destruct (auth_modes _ _ Hauth Htls) as [[? _]|[? _]]; auto. }
    assert (Fsync (Config_Storage c) = FsyncAlways \/ Fsync (Config_Storage c) = FsyncInterval
            \/ Fsync (Config_Storage c) = FsyncOS) as Hfsync.
    { unfold storage_rules in Hstorage. open_rules Hstorage. set_solver. }
    unfold Warnings. destruct Hmode as [-> | ->], Hfsync as [-> |[-> | ->]],
      (InsecureAllowRemote (Config_Auth c)), (TLS_Enabled (Config_TLS c)); vm_compute; intuition congruence.
Qed.

Lemma Warnings_exact_witness :
  Validate https_only production = None /\ Warnings production = [].
Proof.
  split; [exact production_valid|].
  apply (Warnings_exact https_only production); [exact production_valid|]. vm_compute. auto.
Defined.

(** A configuration with a rate limit and a sample ratio that are not numbers,
    and an election timeout below one heartbeat. *)
Definition escaping : Config :=
  let c := production in
  mkConfig (Config_Node c) (Config_Listen c) (Config_Advertise c) (Config_Auth c) (Config_TLS c)
    (mkLimits 1024 (Z.shiftl 1 20) (Z.shiftl 4 20) 1000 100
       (mkRateLimits (mkRateLimit S754_nan 10000)
          (mkRateLimit (float_of_int 1000) 2000) (mkRateLimit (float_of_int 10) 20)))
    (Config_Storage c)
    (mkCluster false [] DefaultSlotCount 1 3
       (mkRaft (100 * Millisecond) (2 ^ 62) 1 256 (Z.shiftl 1 20) true true true)
       (Cluster_Read (Config_Cluster c)))
    (mkObservability (mkLogSettings "info" "json")
       (mkTracing true "otel:4317" "parentbased_traceidratio" S754_nan)
       (mkMetrics true) (mkHealth 1000)).

(** Two promises of the rules' comments that the comparisons do not keep:
    a rate or a sample ratio that is not a number is accepted, although it is
    neither greater than zero nor between 0 and 1, since every comparison with
    NaN is false; and the product [10*r.HeartbeatTicks] wraps, so that a
    heartbeat of 2^62 ticks accepts an election timeout of one tick. *)
Theorem Validate_escapes :
  Validate https_only escaping = None
  /\ SFltb (S754_zero false) (Rate (RateLimits_Read (Limits_RateLimit (Config_Limits escaping))))
     = false
  /\ (let ratio := SampleRatio (Observability_Tracing (Config_Observability escaping)) in
      SFleb (S754_zero false) ratio = false /\ SFleb ratio (float_of_int 1) = false)
  /\ (let r := Cluster_Raft (Config_Cluster escaping) in
      ElectionTicks r < HeartbeatTicks r < 2 ^ 63).
Proof. vm_compute. done. Qed.
