(* ===== verification/Clock.v ===== *)
(** * Clocks and tickers (internal/clock/clock.go)

    The two interfaces, as classes of operations over the state of a clock, and a
    class of the laws their comments state, with which the syncer of the command
    log is verified; and the real clock, over a model of the timers of package
    time. Times are a [Z] of nanoseconds. Timers run when they are due: the
    delays of the scheduler are not modelled. *)

From stdpp Require Import prelude gmap fin_sets list.
From Stdlib Require Import ZArith Lia.
From S2P Require Import Prelude.

Local Open Scope Z_scope.

(** ** The interfaces *)

(** Tickers are pointers. A receive from [C] takes the tick that is waiting. *)
Class Ticker (K : Type) := {
  C : nat -> K -> option (Z * K);
  Stop : nat -> K -> K;
}.

(** [None] is the panic on an interval that is not positive. *)
Class Clock (K : Type) := {
  clock_ticker :: Ticker K;
  Now : K -> Z;
  NewTicker : Z -> K -> option (nat * K);
}.

(** ** What they promise *)

Record ticking := mkTicking {
  t_interval : Z;
  t_next : Z;
  t_tick : option Z;
  t_running : bool;
}.

Definition unread (t : ticking) : ticking := mkTicking (t_interval t) (t_next t) None (t_running t).

(** The first beat after [now]. *)
Definition next_beat (now interval next : Z) : Z := next + interval * (1 + (now - next) / interval).

(** What becomes of a ticker until [now]: when it runs and is due, it goes on
    with its next beat, and a tick waits, the old one if that is unread. *)
Definition ticks_until (now : Z) (t t' : ticking) : Prop :=
  if t_running t && (t_next t <=? now) then
    exists c, t' = mkTicking (t_interval t) (next_beat now (t_interval t) (t_next t)) (Some c) true
      /\ match t_tick t with Some c0 => c = c0 | None => t_next t <= c <= now end
  else t' = t.

Definition stops (t t' : ticking) : Prop :=
  exists tick, t' = mkTicking (t_interval t) (t_next t) tick false /\ (tick = None \/ tick = t_tick t).

(** Nothing but ticker [t] changed. *)
Definition only {K} (ticker : K -> nat -> option ticking) (t : nat) (k k' : K) : Prop :=
  forall t', t' <> t -> ticker k' t' = ticker k t'.

Class ClockLaws (K : Type) `{Clock K} := {
  clock_ok : K -> Prop;
  ticker : K -> nat -> option ticking;
  passes : Z -> K -> K -> Prop;
  law_ticker k t tk : clock_ok k -> ticker k t = Some tk ->
    0 < t_interval tk /\ (t_running tk = true -> Now k < t_next tk <= Now k + t_interval tk);
  law_NewTicker k d : clock_ok k ->
    match NewTicker d k with
    | None => d <= 0
    | Some (t, k') => 0 < d /\ clock_ok k' /\ Now k' = Now k /\ ticker k t = None
        /\ ticker k' t = Some (mkTicking d (Now k + d) None true) /\ only ticker t k k'
    end;
  law_C k t : clock_ok k ->
    match C t k with
    | None => ticker k t ≫= t_tick = None
    | Some (c, k') => exists tk, ticker k t = Some tk /\ t_tick tk = Some c /\ clock_ok k' /\ Now k' = Now k
        /\ ticker k' t = Some (unread tk) /\ only ticker t k k'
    end;
  law_Stop k t : clock_ok k ->
    clock_ok (Stop t k) /\ Now (Stop t k) = Now k /\ only ticker t k (Stop t k)
    /\ option_Forall2 stops (ticker k t) (ticker (Stop t k) t);
  law_passes d k k' : clock_ok k -> passes d k k' ->
    0 <= d /\ clock_ok k' /\ Now k' = Now k + d
    /\ forall t, option_Forall2 (ticks_until (Now k + d)) (ticker k t) (ticker k' t);
}.

Lemma next_beat_spec now i next :
  0 < i -> next <= now -> now < next_beat now i next <= now + i.
Proof. intros Hi Hn. unfold next_beat. pose proof (Z.mul_succ_div_gt (now - next) i Hi). pose proof (Z.mul_div_le (now - next) i Hi). lia. Qed.

(** There is one beat within an interval after now. *)
Lemma next_beat_unique now i next k :
  0 < i -> now < next + k * i <= now + i -> next + k * i = next_beat now i next.
Proof.
  intros Hi Hk. unfold next_beat. assert ((now - next) / i = k - 1) as ->; [|lia].
  symmetry. apply (Z.div_unique_pos _ _ _ (now - next - i * (k - 1))); lia.
Qed.

Section clients.
Context {K : Type} `{ClockLaws K}.

(** What other users of a clock do to tickers that are not [mine]. *)
Inductive uses (mine : nat) (k : K) : K -> Prop :=
| uses_NewTicker d t k' : NewTicker d k = Some (t, k') -> uses mine k k'
| uses_C t c k' : t <> mine -> C t k = Some (c, k') -> uses mine k k'
| uses_Stop t : t <> mine -> uses mine k (Stop t k).

Lemma uses_keeps mine k k' tk :
  clock_ok k -> ticker k mine = Some tk -> uses mine k k' ->
  clock_ok k' /\ Now k' = Now k /\ ticker k' mine = Some tk.
Proof.
  intros Hk Htk [d t k1 Hn|t c k1 Hne Hc|t Hne].
  - pose proof (law_NewTicker k d Hk) as Hl. rewrite Hn in Hl. destruct Hl as (_ & ? & ? & Hnew & _ & Ho).
    split_and!; [done..|]. rewrite Ho; [done|]. congruence.
  - pose proof (law_C k t Hk) as Hl. rewrite Hc in Hl. destruct Hl as (? & _ & _ & ? & ? & _ & Ho).
    split_and!; [done..|]. by rewrite Ho.
  - destruct (law_Stop k t Hk) as (? & ? & Ho & _). split_and!; [done..|]. by rewrite Ho.
Qed.

(** Time passing, for one ticker. *)
Lemma passes_ticker d k k' t tk :
  clock_ok k -> ticker k t = Some tk -> passes d k k' ->
  clock_ok k' /\ Now k' = Now k + d /\ exists tk', ticker k' t = Some tk' /\ ticks_until (Now k + d) tk tk'.
Proof.
  intros Hk Htk Hp. destruct (law_passes d k k' Hk Hp) as (_ & ? & ? & Hl). split_and!; [done..|].
  specialize (Hl t). rewrite Htk in Hl. inversion Hl; subst. eauto.
Qed.
End clients.

(** What does not change while time passes. *)
Lemma ticks_until_same now t t' :
  ticks_until now t t' -> t_interval t' = t_interval t /\ t_running t' = t_running t
    /\ (forall c, t_tick t = Some c -> t_tick t' = Some c).
Proof.
  unfold ticks_until. destruct (t_running t) eqn:Hr; cbn; [|by intros ->].
  destruct (_ <=? _); [|by intros ->]. intros (c & -> & Hc). split_and!; [done..|]. intros c0 Hc0. rewrite Hc0 in Hc. by subst.
Qed.

(** ** Sessions *)

Inductive call := CallNow | CallNewTicker (d : Z) | CallReceive (t : nat) | CallStop (t : nat) | TimePasses (d : Z).

(** What a caller sees: a time, a ticker, the tick that was waiting, if one was,
    with the time it carries, nothing, a panic. *)
Inductive answer := ATime (now : Z) | ATicker (t : nat) | ATick (tick : option Z) | ANone | APanic.

(** A step of time that ends at [now], on a ticker that is due at [next]: any
    step, or one that does not go past the beat. *)
Definition anyhow (now next : Z) : Prop := True.
Definition punctual (now next : Z) : Prop := now <= next.

(** Time passes, in a step that is [P] for every ticker that runs. *)
Definition passes_by {K} `{ClockLaws K} (P : Z -> Z -> Prop) (d : Z) (k k' : K) : Prop :=
  passes d k k' /\ forall t tk, ticker k t = Some tk -> t_running tk = true -> P (Now k + d) (t_next tk).

Inductive session {K} `{ClockLaws K} (P : Z -> Z -> Prop) : list (call * answer) -> K -> K -> Prop :=
| session_end k : session P [] k k
| session_Now n k tr k' : Now k = n -> session P tr k k' -> session P ((CallNow, ATime n) :: tr) k k'
| session_NewTicker d t k k1 tr k' :
    NewTicker d k = Some (t, k1) -> session P tr k1 k' -> session P ((CallNewTicker d, ATicker t) :: tr) k k'
| session_panics d k tr k' :
    NewTicker d k = None -> session P tr k k' -> session P ((CallNewTicker d, APanic) :: tr) k k'
| session_receives t c k k1 tr k' :
    C t k = Some (c, k1) -> session P tr k1 k' -> session P ((CallReceive t, ATick (Some c)) :: tr) k k'
| session_waits t k tr k' :
    C t k = None -> session P tr k k' -> session P ((CallReceive t, ATick None) :: tr) k k'
| session_Stop t k tr k' : session P tr (Stop t k) k' -> session P ((CallStop t, ANone) :: tr) k k'
| session_passes d k k1 tr k' :
    passes_by P d k k1 -> session P tr k1 k' -> session P ((TimePasses d, ANone) :: tr) k k'.

(** Nobody receives from a ticker that was stopped. *)
Fixpoint receives_running (stopped : gset nat) (tr : list (call * answer)) : bool :=
  match tr with
  | [] => true
  | (CallReceive t, _) :: tr' => bool_decide (t ∉ stopped) && receives_running stopped tr'
  | (CallStop t, _) :: tr' => receives_running ({[t]} ∪ stopped) tr'
  | _ :: tr' => receives_running stopped tr'
  end.

(** The same call with the same answer, but for the times of ticks, which are
    related by [R]. *)
Definition alike (R : Z -> Z -> Prop) (x y : call * answer) : Prop :=
  x.1 = y.1 /\ match x.2, y.2 with
              | ATick (Some c), ATick (Some c') => R c c'
              | a, a' => a = a'
              end.

Lemma alike_eq (l l' : list (call * answer)) : Forall2 (alike eq) l l' -> l = l'.
Proof.
  induction 1 as [|[c a] [c' a'] l l' [Hc Ha] _ ->]; [done|]. cbn in Hc, Ha. subst c'. f_equal. f_equal.
  destruct a as [| |[]| |], a' as [| |[]| |]; congruence.
Qed.

(** Two tickers that cannot be told apart while they run, but for the times of
    their ticks. *)
Definition same_ticking (R : Z -> Z -> Prop) (t1 t2 : ticking) : Prop :=
  t_interval t1 = t_interval t2 /\ t_next t1 = t_next t2 /\ t_running t1 = t_running t2
  /\ (t_running t1 = true -> option_Forall2 R (t_tick t1) (t_tick t2)).

Section interchange.
Context {K1 K2 : Type} `{L1 : ClockLaws K1} `{L2 : ClockLaws K2}.

(** Both name new tickers alike, and time can pass on the second. *)
Hypothesis same_names : forall (k1 : K1) (k2 : K2) d t1 k1' t2 k2',
  (forall t, ticker k1 t = None <-> ticker k2 t = None) ->
  NewTicker d k1 = Some (t1, k1') -> NewTicker d k2 = Some (t2, k2') -> t1 = t2.
Hypothesis time_flows : forall d (k2 : K2), 0 <= d -> exists k2', passes d k2 k2'.

(** Ticks that become due in a step that is [P] carry times related by [R]. *)
Variables (P R : Z -> Z -> Prop).
Hypothesis tick_times : forall now next c1 c2,
  P now next -> next <= c1 <= now -> next <= c2 <= now -> R c1 c2.

Record agree (stopped : gset nat) (k1 : K1) (k2 : K2) : Prop := {
  ag_ok1 : clock_ok k1;
  ag_ok2 : clock_ok k2;
  ag_now : Now k1 = Now k2;
  ag_tickers t : option_Forall2 (same_ticking R) (ticker k1 t) (ticker k2 t);
  ag_running t tk : t ∉ stopped -> ticker k1 t = Some tk -> t_running tk = true;
}.

Lemma same_ticks now t1 t2 t1' t2' :
  (t_running t1 = true -> P now (t_next t1)) ->
  same_ticking R t1 t2 -> ticks_until now t1 t1' -> ticks_until now t2 t2' -> same_ticking R t1' t2'.
Proof.
  intros HP (Hi & Hn & Hr & Ht) H1 H2. unfold ticks_until in *. rewrite <- Hi, <- Hn, <- Hr in H2.
  destruct (t_running t1) eqn:Hrun; cbn [andb] in *.
  2:{ subst. split_and!; [done..|congruence|congruence]. }
  destruct (t_next t1 <=? now).
  2:{ subst. split_and!; [done..|congruence|]. intros _. by apply Ht. }
  destruct H1 as (c1 & -> & H1), H2 as (c2 & -> & H2). unfold same_ticking. cbn. rewrite Hi.
  split_and!; [done..|]. intros _. constructor. specialize (Ht eq_refl).
  inversion Ht as [x y Hxy Ex Ey|Ex Ey]; rewrite <- Ex in H1; rewrite <- Ey in H2; [by subst|].
  by eapply tick_times; [apply HP| |].
Qed.

Lemma option_Forall2_None (t : nat) (k1 : K1) (k2 : K2) :
  option_Forall2 (same_ticking R) (ticker k1 t) (ticker k2 t) -> ticker k1 t = None <-> ticker k2 t = None.
Proof. by inversion 1. Qed.

(** Only ticker [t] was touched, alike in both. *)
Lemma agree_only stopped stopped' t (k1 k1' : K1) (k2 k2' : K2) :
  agree stopped k1 k2 -> clock_ok k1' -> clock_ok k2' -> Now k1' = Now k1 -> Now k2' = Now k2 ->
  only ticker t k1 k1' -> only ticker t k2 k2' ->
  option_Forall2 (same_ticking R) (ticker k1' t) (ticker k2' t) ->
  stopped ⊆ stopped' -> (forall tk, t ∉ stopped' -> ticker k1' t = Some tk -> t_running tk = true) ->
  agree stopped' k1' k2'.
Proof.
  intros [_ _ Hn Ht Hr] Ho1 Ho2 Hn1 Hn2 Hk1 Hk2 Hs Hst Hrun. split; [done|done|congruence| |].
  - intros t'. destruct (decide (t' = t)) as [->|Hne]; [done|]. by rewrite Hk1, Hk2.
  - intros t' tk Hni. destruct (decide (t' = t)) as [->|Hne]; [by apply Hrun|]. rewrite Hk1 by done.
    apply Hr. set_solver.
Qed.

Lemma agree_NewTicker stopped d t (k1 k1' : K1) (k2 : K2) :
  agree stopped k1 k2 -> NewTicker d k1 = Some (t, k1') ->
  exists k2', NewTicker d k2 = Some (t, k2') /\ agree stopped k1' k2'.
Proof.
  intros Ha H1. pose proof (law_NewTicker k1 d (ag_ok1 _ _ _ Ha)) as Hl1. rewrite H1 in Hl1.
  destruct Hl1 as (Hd & Ho1 & Hn1 & Hnew1 & Ht1 & Hk1).
  pose proof (law_NewTicker k2 d (ag_ok2 _ _ _ Ha)) as Hl2.
  destruct (NewTicker d k2) as [[t2 k2']|] eqn:H2; [|lia].
  assert (t = t2) as <- by (eapply same_names; [|done|done]; intros; apply option_Forall2_None, Ha).
  destruct Hl2 as (_ & Ho2 & Hn2 & _ & Ht2 & Hk2). exists k2'. split; [done|].
  eapply (agree_only stopped stopped t); try done.
  - rewrite Ht1, Ht2, (ag_now _ _ _ Ha). constructor. split_and!; [done..|]. intros _. constructor.
  - intros tk _. rewrite Ht1. by intros [= <-].
Qed.

Lemma agree_panics stopped d (k1 : K1) (k2 : K2) :
  agree stopped k1 k2 -> NewTicker d k1 = None -> NewTicker d k2 = None.
Proof.
  intros Ha H1. pose proof (law_NewTicker k1 d (ag_ok1 _ _ _ Ha)) as Hl1. rewrite H1 in Hl1.
  pose proof (law_NewTicker k2 d (ag_ok2 _ _ _ Ha)) as Hl2.
  destruct (NewTicker d k2) as [[t2 k2']|]; [|done]. destruct Hl2 as [? _]. lia.
Qed.

Lemma agree_tick stopped t (k1 : K1) (k2 : K2) :
  agree stopped k1 k2 -> t ∉ stopped -> option_Forall2 R (ticker k1 t ≫= t_tick) (ticker k2 t ≫= t_tick).
Proof.
  intros Ha Ht. pose proof (ag_tickers _ _ _ Ha t) as Hs. pose proof (ag_running _ _ _ Ha t) as Hr.
  inversion Hs as [t1 t2 (_ & _ & _ & H12) E1 E2|]; [|constructor]. cbn. apply H12. by apply Hr.
Qed.

Lemma agree_receives stopped t c (k1 k1' : K1) (k2 : K2) :
  agree stopped k1 k2 -> t ∉ stopped -> C t k1 = Some (c, k1') ->
  exists c2 k2', C t k2 = Some (c2, k2') /\ R c c2 /\ agree stopped k1' k2'.
Proof.
  intros Ha Ht H1. pose proof (law_C k1 t (ag_ok1 _ _ _ Ha)) as Hl1. rewrite H1 in Hl1.
  destruct Hl1 as (tk & Htk & Hc & Ho1 & Hn1 & Ht1 & Hk1).
  pose proof (agree_tick _ t _ _ Ha Ht) as Hs. rewrite Htk in Hs. cbn in Hs. rewrite Hc in Hs.
  pose proof (law_C k2 t (ag_ok2 _ _ _ Ha)) as Hl2. destruct (C t k2) as [[c2 k2']|] eqn:H2.
  2:{ rewrite Hl2 in Hs. inversion Hs. }
  destruct Hl2 as (tk2 & Htk2 & Hc2 & Ho2 & Hn2 & Ht2 & Hk2). exists c2, k2'. split; [done|].
  rewrite Htk2 in Hs. cbn in Hs. rewrite Hc2 in Hs. split; [by inversion Hs|].
  pose proof (ag_tickers _ _ _ Ha t) as H12. rewrite Htk, Htk2 in H12.
  inversion H12 as [? ? (? & ? & ? & _)|]; subst.
  eapply (agree_only stopped stopped t); try done.
  - rewrite Ht1, Ht2. constructor. split_and!; [done..|]. intros _. constructor.
  - intros tk' _. rewrite Ht1. intros [= <-]. cbn. by eapply (ag_running _ _ _ Ha t).
Qed.

Lemma agree_waits stopped t (k1 : K1) (k2 : K2) :
  agree stopped k1 k2 -> t ∉ stopped -> C t k1 = None -> C t k2 = None.
Proof.
  intros Ha Ht H1. pose proof (law_C k1 t (ag_ok1 _ _ _ Ha)) as Hl1. rewrite H1 in Hl1.
  pose proof (law_C k2 t (ag_ok2 _ _ _ Ha)) as Hl2. destruct (C t k2) as [[c2 k2']|]; [|done].
  destruct Hl2 as (tk2 & Htk2 & Hc2 & _). pose proof (agree_tick _ t _ _ Ha Ht) as Hs.
  rewrite Htk2, Hl1 in Hs. cbn in Hs. rewrite Hc2 in Hs. inversion Hs.
Qed.

Lemma agree_Stop stopped t (k1 : K1) (k2 : K2) :
  agree stopped k1 k2 -> agree ({[t]} ∪ stopped) (Stop t k1) (Stop t k2).
Proof.
  intros Ha. destruct (law_Stop k1 t (ag_ok1 _ _ _ Ha)) as (Ho1 & Hn1 & Hk1 & Ht1).
  destruct (law_Stop k2 t (ag_ok2 _ _ _ Ha)) as (Ho2 & Hn2 & Hk2 & Ht2).
  eapply (agree_only stopped _ t); try done; [|set_solver|set_solver].
  pose proof (ag_tickers _ _ _ Ha t) as H12. inversion H12 as [a b (Hi & Hn & _) Ea Eb|Ea Eb].
  - rewrite <- Ea in Ht1. rewrite <- Eb in Ht2.
    inversion Ht1 as [? ? (x & -> & _)|]; subst. inversion Ht2 as [? ? (y & -> & _)|]; subst.
    constructor. by split_and!.
  - rewrite <- Ea in Ht1. rewrite <- Eb in Ht2. inversion Ht1. inversion Ht2. constructor.
Qed.

Lemma agree_passes stopped d (k1 k1' : K1) (k2 : K2) :
  agree stopped k1 k2 -> passes_by P d k1 k1' ->
  exists k2', passes_by P d k2 k2' /\ agree stopped k1' k2'.
Proof.
  intros Ha [H1 HP]. destruct (law_passes d k1 k1' (ag_ok1 _ _ _ Ha) H1) as (Hd & Ho1 & Hn1 & Ht1).
  destruct (time_flows d k2 Hd) as [k2' H2]. exists k2'.
  destruct (law_passes d k2 k2' (ag_ok2 _ _ _ Ha) H2) as (_ & Ho2 & Hn2 & Ht2).
  pose proof (ag_now _ _ _ Ha) as Hn. rewrite Hn in HP. split; [split; [done|]|split; [done|done|congruence| |]].
  - intros t tk Htk Hr. pose proof (ag_tickers _ _ _ Ha t) as H12. rewrite Htk in H12.
    inversion H12 as [a b (_ & Hnx & Hrr & _) Ea Eb|]; subst. rewrite <- Hnx. apply (HP t); congruence.
  - intros t. specialize (Ht1 t). specialize (Ht2 t). rewrite Hn in Ht1. pose proof (ag_tickers _ _ _ Ha t) as H12.
    inversion H12 as [a b Hab Ea Eb|Ea Eb]; rewrite <- Ea in Ht1; rewrite <- Eb in Ht2;
      inversion Ht1; inversion Ht2; constructor. eapply same_ticks; [|done..]. by apply (HP t).
  - intros t tk Hni Htk. specialize (Ht1 t). rewrite Htk in Ht1. inversion Ht1 as [tk0 ? Hu E0|]; subst.
    destruct (ticks_until_same _ _ _ Hu) as (_ & -> & _). by apply (ag_running _ _ _ Ha t).
Qed.

(** What happens on the first clock can happen on the second, up to the times
    of ticks. *)
Lemma interchange tr stopped (k1 k1' : K1) (k2 : K2) :
  session P tr k1 k1' -> agree stopped k1 k2 -> receives_running stopped tr = true ->
  exists tr' k2', Forall2 (alike R) tr tr' /\ session P tr' k2 k2'.
Proof.
  intros Hs. revert stopped k2. induction Hs as [k|n k tr k' Hn Hs IH|d t k ka tr k' Hn Hs IH|d k tr k' Hn Hs IH
    |t c k ka tr k' Hc Hs IH|t k tr k' Hc Hs IH|t k tr k' Hs IH|d k ka tr k' Hp Hs IH]; intros stopped k2 Ha Hr;
    cbn in Hr; rewrite ?andb_true_iff, ?bool_decide_eq_true in Hr.
  - exists [], k2. split; constructor.
  - destruct (IH stopped k2 Ha Hr) as (tr' & k2' & ? & ?). exists ((CallNow, ATime n) :: tr'), k2'.
    split; [by constructor|]. constructor; [|done]. by rewrite <- (ag_now _ _ _ Ha).
  - destruct (agree_NewTicker _ _ _ _ _ _ Ha Hn) as (kb & Hb & Hab).
    destruct (IH stopped kb Hab Hr) as (tr' & k2' & ? & ?).
    exists ((CallNewTicker d, ATicker t) :: tr'), k2'. split; [by constructor|]. by econstructor.
  - destruct (IH stopped k2 Ha Hr) as (tr' & k2' & ? & ?). exists ((CallNewTicker d, APanic) :: tr'), k2'.
    split; [by constructor|]. constructor; [|done]. by eapply agree_panics.
  - destruct Hr as [Ht Hr]. destruct (agree_receives _ _ _ _ _ _ Ha Ht Hc) as (c2 & kb & Hb & HR & Hab).
    destruct (IH stopped kb Hab Hr) as (tr' & k2' & ? & ?).
    exists ((CallReceive t, ATick (Some c2)) :: tr'), k2'. split; [by constructor|]. by econstructor.
  - destruct Hr as [Ht Hr]. destruct (IH stopped k2 Ha Hr) as (tr' & k2' & ? & ?).
    exists ((CallReceive t, ATick None) :: tr'), k2'. split; [by constructor|].
    apply session_waits; [|done]. by eapply agree_waits.
  - destruct (IH _ _ (agree_Stop _ t _ _ Ha) Hr) as (tr' & k2' & ? & ?).
    exists ((CallStop t, ANone) :: tr'), k2'. split; by constructor.
  - destruct (agree_passes _ _ _ _ _ Ha Hp) as (kb & Hb & Hab).
    destruct (IH stopped kb Hab Hr) as (tr' & k2' & ? & ?).
    exists ((TimePasses d, ANone) :: tr'), k2'. split; [by constructor|]. by econstructor.
Qed.
End interchange.

(** ** Package time *)

(** A timer of a [time.Ticker]: [active] until [Stop]. *)
Record timer := mkTimer {
  period : Z;
  when : Z;
  buffer : option Z;
  active : bool;
}.

(** The system's time and timers. *)
Record system := mkSystem { sys_now : Z; sys_timers : gmap nat timer }.

Definition time_Now (s : system) : Z := sys_now s.

Definition time_NewTicker (d : Z) (s : system) : option (nat * system) :=
  if d <=? 0 then None
  else let t := fresh (dom (sys_timers s)) in
       Some (t, mkSystem (sys_now s) (<[t := mkTimer d (sys_now s + d) None true]> (sys_timers s))).

Definition timer_recv (t : nat) (s : system) : option (Z * system) :=
  tm ← sys_timers s !! t;
  c ← buffer tm;
  Some (c, mkSystem (sys_now s) (<[t := mkTimer (period tm) (when tm) None (active tm)]> (sys_timers s))).

(** Since Go 1.23 no tick is received after [Stop]. *)
Definition time_Stop (t : nat) (s : system) : system :=
  mkSystem (sys_now s) (alter (fun tm => mkTimer (period tm) (when tm) None false) t (sys_timers s)).

(** A timer that is due sends the time it was due, and goes on with the next
    multiple of its period. *)
Definition run_timer (now : Z) (tm : timer) : timer :=
  if active tm && (when tm <=? now) then
    mkTimer (period tm) (when tm + period tm * (1 + (now - when tm) / period tm))
      (match buffer tm with None => Some (when tm) | Some c => Some c end) true
  else tm.

Definition time_passes (d : Z) (s : system) : system :=
  mkSystem (sys_now s + d) (run_timer (sys_now s + d) <$> sys_timers s).

(** ** The real clock *)

Definition realClock_Now (s : system) : Z := time_Now s.
Definition realClock_NewTicker (d : Z) (s : system) : option (nat * system) := time_NewTicker d s.
Definition realTicker_C (t : nat) (s : system) : option (Z * system) := timer_recv t s.
Definition realTicker_Stop (t : nat) (s : system) : system := time_Stop t s.

#[export] Instance realTicker : Ticker system := { C := realTicker_C; Stop := realTicker_Stop }.

(** [Real()] *)
#[export] Instance Real : Clock system := { Now := realClock_Now; NewTicker := realClock_NewTicker }.

Definition timers_ok (s : system) : Prop :=
  map_Forall (fun _ tm => 0 < period tm
    /\ (active tm = true -> sys_now s < when tm <= sys_now s + period tm)) (sys_timers s).

Definition timer_view (tm : timer) : ticking := mkTicking (period tm) (when tm) (buffer tm) (active tm).
Definition system_ticker (s : system) (t : nat) : option ticking := timer_view <$> sys_timers s !! t.

Lemma insert_only s t tm :
  only system_ticker t s (mkSystem (sys_now s) (<[t := tm]> (sys_timers s))).
Proof. intros t' Hne. unfold system_ticker. cbn. by rewrite lookup_insert_ne. Qed.

Lemma run_timer_ticks now tm : ticks_until now (timer_view tm) (timer_view (run_timer now tm)).
Proof.
  unfold ticks_until, run_timer, timer_view. cbn. destruct (active tm) eqn:Ha; cbn; [|by rewrite Ha].
  destruct (Z.leb_spec (when tm) now); [|by rewrite Ha]. destruct (buffer tm) as [c|]; eexists; by split.
Qed.

#[export, program] Instance Real_laws : ClockLaws system := {
  clock_ok := timers_ok;
  ticker := system_ticker;
  passes d s s' := 0 <= d /\ s' = time_passes d s;
}.
Next Obligation.
  cbn. unfold system_ticker. intros s t tk Hs (tm & Htm & ->)%fmap_Some. exact (Hs t tm Htm).
Qed.
Next Obligation.
  cbn. unfold realClock_NewTicker, time_NewTicker, realClock_Now, time_Now. intros s d Hs.
  destruct (Z.leb_spec d 0); [done|]. pose proof (is_fresh (dom (sys_timers s))) as Hf.
  apply not_elem_of_dom in Hf. unfold system_ticker at 1 2. cbn. rewrite Hf, lookup_insert_eq.
  split_and!; [done| |done..|apply insert_only].
  apply map_Forall_insert_2; cbn; [lia|exact Hs].
Qed.
Next Obligation.
  cbn. unfold realTicker_C, timer_recv, system_ticker. intros s t Hs.
  destruct (sys_timers s !! t) as [tm|] eqn:Htm; cbn; [|done]. destruct (buffer tm) as [c|] eqn:Hb; cbn; [|done].
  eexists. split_and!; [done|done| |done|by rewrite lookup_insert_eq|apply insert_only].
  apply map_Forall_insert_2; cbn; [exact (Hs t tm Htm)|exact Hs].
Qed.
Next Obligation.
  cbn. unfold realTicker_Stop, time_Stop, system_ticker. intros s t Hs. split_and!; [|done| |]; cbn.
  - intros t' tm. cbn. rewrite lookup_alter_Some. intros [(-> & tm' & Htm & ->)|[_ Htm]]; [|exact (Hs t' tm Htm)].
    cbn. split; [|done]. apply (Hs t' tm' Htm).
  - intros t' Hne. cbn. by rewrite lookup_alter_ne.
  - rewrite lookup_alter_eq. destruct (sys_timers s !! t) as [tm|]; constructor. eexists. split; [done|by left].
Qed.
Next Obligation.
  cbn. unfold realClock_Now, time_Now, system_ticker. intros d s s' Hs [Hd ->]. split_and!; [done| |done|].
  - intros t tm. cbn. rewrite lookup_fmap_Some. intros (tm0 & <- & Htm). destruct (Hs t tm0 Htm) as [Hp Hw].
    unfold run_timer. destruct (active tm0) eqn:Ha; cbn; [|by rewrite Ha].
    specialize (Hw eq_refl). destruct (Z.leb_spec (when tm0) (sys_now s + d)); cbn; [|lia].
    split; [done|]. intros _. by apply (next_beat_spec _ (period tm0) (when tm0)).
  - intros t. cbn. rewrite lookup_fmap. destruct (sys_timers s !! t); constructor. apply run_timer_ticks.
Qed.
