(* ===== verification/FakeClock.v ===== *)
(** * The fake clock (internal/clock/clocktest/fake.go)

    Time is a [Z] of nanoseconds. Tickers are shared pointers: they live in a
    heap of the clock's users, and the clock keeps the set of those that were
    not stopped. The channel of a ticker is its one-place buffer. [Advance]
    ranges over a Go map, so the order of the tickers is an argument. *)

From stdpp Require Import prelude gmap fin_sets list.
From Stdlib Require Import ZArith Lia.
From S2P Require Import Prelude Clock.

Local Open Scope Z_scope.

Record fakeTicker := mkFakeTicker {
  interval : Z;
  next : Z;
  ticks : option Z;
}.

Record Fake := mkFake {
  now : Z;
  tickers : gset nat;
  heap : gmap nat fakeTicker;
}.

Definition Fake_New (start : Z) : Fake := mkFake start ∅ ∅.

Definition Fake_Now (f : Fake) : Z := now f.

(** [None] is the panic on a non-positive interval. *)
Definition Fake_NewTicker (f : Fake) (d : Z) : option (nat * Fake) :=
  if d <=? 0 then None
  else let t := fresh (dom (heap f)) in
       Some (t, mkFake (now f) ({[t]} ∪ tickers f)
                  (<[t := mkFakeTicker d (now f + d) None]> (heap f))).

(** [for !f.now.Before(t.next) { t.next = t.next.Add(t.interval) }]; the fuel
    is the number of intervals that have passed, see [advance_next_spec]. *)
Fixpoint advance_next_loop (fuel : nat) (now interval next : Z) : Z :=
  match fuel with
  | O => next
  | S fuel' =>
      if now <? next then next else advance_next_loop fuel' now interval (next + interval)
  end.

Definition advance_next (now : Z) (t : fakeTicker) : Z :=
  advance_next_loop (Z.to_nat ((now - next t) / interval t + 1)) now (interval t) (next t).

(** The body of the loop of [Advance]: the send drops the tick when the buffer
    is full. *)
Definition fire (now : Z) (t : fakeTicker) : fakeTicker :=
  if now <? next t then t
  else mkFakeTicker (interval t) (advance_next now t)
         (match ticks t with None => Some now | Some c => Some c end).

Definition Fake_Advance (order : list nat) (f : Fake) (d : Z) : Fake :=
  let now' := now f + d in
  mkFake now' (tickers f) (foldl (fun h t => alter (fire now') t h) (heap f) order).

(** A receive from [t.C()]: the buffered tick, if there is one. *)
Definition fakeTicker_recv (t : nat) (f : Fake) : option (Z * Fake) :=
  tk ← heap f !! t;
  c ← ticks tk;
  Some (c, mkFake (now f) (tickers f)
             (<[t := mkFakeTicker (interval tk) (next tk) None]> (heap f))).

Definition fakeTicker_Stop (t : nat) (f : Fake) : Fake :=
  mkFake (now f) (tickers f ∖ {[t]}) (heap f).

(** ** Use of a clock *)

Inductive clock_step : Fake -> Fake -> Prop :=
| step_NewTicker f d t f' : Fake_NewTicker f d = Some (t, f') -> clock_step f f'
| step_Advance f d order :
    0 <= d -> order ≡ₚ elements (tickers f) -> clock_step f (Fake_Advance order f d)
| step_recv f t c f' : fakeTicker_recv t f = Some (c, f') -> clock_step f f'
| step_Stop f t : clock_step f (fakeTicker_Stop t f).

Definition clock_reachable (f : Fake) : Prop := exists start, rtc clock_step (Fake_New start) f.

(** Every live ticker exists and is due within one interval, not earlier. *)
Definition clock_inv (f : Fake) : Prop :=
  (forall t, t ∈ tickers f -> is_Some (heap f !! t))
  /\ (forall t tk, heap f !! t = Some tk -> 0 < interval tk
       /\ (t ∈ tickers f -> now f < next tk <= now f + interval tk)).

(** ** Lemmas *)

Lemma advance_next_loop_spec fuel now i next :
  0 < i -> next <= now -> now - next < i * Z.of_nat fuel ->
  exists k, 0 < k /\ advance_next_loop fuel now i next = next + k * i
    /\ now < next + k * i <= now + i.
Proof.
  intros Hi. revert next. induction fuel as [|fuel IH]; intros next Hle Hf; [lia|].
  cbn [advance_next_loop]. rewrite (proj2 (Z.ltb_ge _ _) Hle).
  destruct (Z.ltb_spec now (next + i)) as [Hlt|Hge].
  - exists 1. split_and!; [lia| |lia..].
    destruct fuel as [|fuel]; cbn [advance_next_loop]; [lia|].
    rewrite (proj2 (Z.ltb_lt _ _) Hlt). lia.
  - destruct (IH (next + i)) as (k & Hk & -> & Hr); [lia..|].
    exists (k + 1). split_and!; lia.
Qed.

(** The loop ends at the first multiple of the interval after now. *)
Lemma advance_next_spec now t :
  0 < interval t -> next t <= now ->
  exists k, 0 < k /\ advance_next now t = next t + k * interval t
    /\ now < next t + k * interval t <= now + interval t.
Proof.
  intros Hi Hle. apply advance_next_loop_spec; [done..|].
  pose proof (Z.div_pos (now - next t) (interval t) ltac:(lia) Hi).
  rewrite Z2Nat.id by lia. pose proof (Z.mul_succ_div_gt (now - next t) (interval t) Hi). lia.
Qed.

Lemma fire_all_lookup now (order : list nat) (h : gmap nat fakeTicker) t :
  NoDup order ->
  foldl (fun h t => alter (fire now) t h) h order !! t
  = (if decide (t ∈ order) then fire now else id) <$> h !! t.
Proof.
  revert h. induction order as [|x order IH]; intros h Hnd; cbn [foldl].
  { rewrite decide_False by apply not_elem_of_nil. by rewrite option_fmap_id. }
  apply NoDup_cons in Hnd as [Hx Hnd]. rewrite IH by done.
  destruct (decide (t = x)) as [->|Hne].
  - rewrite lookup_alter_eq, decide_False by done. rewrite decide_True by apply list_elem_of_here.
    by destruct (h !! x).
  - rewrite lookup_alter_ne by done.
    destruct (decide (t ∈ order)) as [Ht|Ht].
    + by rewrite decide_True by (by apply list_elem_of_further).
    + by rewrite decide_False by (rewrite elem_of_cons; naive_solver).
Qed.

(** The order in which [Advance] visits the tickers does not matter. *)
Lemma Advance_lookup order f d t :
  order ≡ₚ elements (tickers f) ->
  heap (Fake_Advance order f d) !! t
  = (if decide (t ∈ tickers f) then fire (now f + d) else id) <$> heap f !! t.
Proof.
  intros Hp. unfold Fake_Advance. cbn [heap].
  rewrite fire_all_lookup by (rewrite Hp; apply NoDup_elements).
  by rewrite (decide_ext (t ∈ order) (t ∈ tickers f)) by (rewrite Hp; apply elem_of_elements).
Qed.

Lemma clock_step_inv f f' : clock_step f f' -> clock_inv f -> clock_inv f'.
Proof.
  intros Hs [Hlive Hinv]. destruct Hs as [f d t f' Hn|f d order Hd Hp|f t c f' Hr|f t].
  - unfold Fake_NewTicker in Hn. destruct (Z.leb_spec d 0); [done|]. injection Hn as <- <-.
    set (t := fresh (dom (heap f))). split; cbn [tickers heap now].
    + intros x. rewrite lookup_insert. case_decide; [eauto|]. set_solver.
    + intros x tk. rewrite lookup_insert. case_decide as Hx; [intros [= <-]; simpl; lia|].
      intros Hxk. destruct (Hinv x tk Hxk) as [? Hnext]. split; [done|]. set_solver.
  - split; cbn [tickers now].
    + intros x Hx. rewrite Advance_lookup by done. by apply fmap_is_Some, Hlive.
    + intros x tk. rewrite Advance_lookup by done. intros (tk0 & Htk0 & ->)%fmap_Some.
      destruct (Hinv x tk0 Htk0) as [Hi Hn]. case_decide as Hx; [|naive_solver].
      specialize (Hn Hx). unfold Fake_Advance, fire. cbn [now tickers].
      destruct (Z.ltb_spec (now f + d) (next tk0)); [split; [done|]; intros _; lia|].
      destruct (advance_next_spec (now f + d) tk0) as (k & Hk & -> & Hr); [lia..|].
      cbn [interval next]. split; [done|]. intros _. lia.
  - unfold fakeTicker_recv in Hr. destruct (heap f !! t) as [tk|] eqn:Htk; [|done]. simpl in Hr.
    destruct (ticks tk); [|done]. injection Hr as <- <-. split; cbn [tickers heap now].
    + intros x Hx. rewrite lookup_insert. case_decide; eauto.
    + intros x tk'. rewrite lookup_insert. case_decide; [|apply Hinv].
      intros [= <-]. subst. exact (Hinv x tk Htk).
  - split; cbn [tickers heap now]; [set_solver|].
    intros x tk Hx. destruct (Hinv x tk Hx) as [? Hn]. split; [done|]. set_solver.
Qed.

Lemma clock_reachable_inv f : clock_reachable f -> clock_inv f.
Proof.
  intros (start & Hr). assert (clock_inv (Fake_New start)) as H0.
  { split; simpl; [set_solver|]. intros t tk. by rewrite lookup_empty. }
  induction Hr as [|f1 f2 f3 Hs _ IH]; [done|]. eauto using clock_step_inv.
Qed.

(** ** The interface *)

(** The loop of [Advance] finds the beat that package time computes. *)
Lemma advance_next_beat now t :
  0 < interval t -> next t <= now -> advance_next now t = next_beat now (interval t) (next t).
Proof.
  intros Hi Hle. destruct (advance_next_spec now t Hi Hle) as (k & _ & -> & Hb). by apply next_beat_unique.
Qed.

#[export] Instance fake_ticker : Ticker Fake := { C := fakeTicker_recv; Stop := fakeTicker_Stop }.
#[export] Instance fake_clock : Clock Fake := { Now := Fake_Now; NewTicker d f := Fake_NewTicker f d }.

Definition fake_view (f : Fake) (t : nat) : option ticking :=
  (fun tk => mkTicking (interval tk) (next tk) (ticks tk) (bool_decide (t ∈ tickers f))) <$> heap f !! t.

Definition fake_passes (d : Z) (f f' : Fake) : Prop :=
  0 <= d /\ exists order, order ≡ₚ elements (tickers f) /\ f' = Fake_Advance order f d.

Lemma fire_ticks now b tk :
  0 < interval tk ->
  ticks_until now (mkTicking (interval tk) (next tk) (ticks tk) b)
    (let tk' := if b then fire now tk else tk in mkTicking (interval tk') (next tk') (ticks tk') b).
Proof.
  intros Hi. unfold ticks_until, fire. cbn. destruct b; cbn; [|done].
  destruct (Z.leb_spec (next tk) now), (Z.ltb_spec now (next tk)); try lia; [|done]. cbn.
  rewrite advance_next_beat by done. destruct (ticks tk); eexists; split; done || lia.
Qed.

#[export, program] Instance fake_laws : ClockLaws Fake := {
  clock_ok := clock_inv;
  ticker := fake_view;
  passes := fake_passes;
}.
Next Obligation.
  cbn. unfold fake_view. intros f t tk [_ Hf] (tk0 & Htk & ->)%fmap_Some. cbn. destruct (Hf t tk0 Htk) as [? Hn].
  split; [done|]. rewrite bool_decide_eq_true. exact Hn.
Qed.
Next Obligation.
  cbn. intros f d Hf. destruct (Fake_NewTicker f d) as [[t f']|] eqn:Hn.
  - pose proof (clock_step_inv _ _ (step_NewTicker _ _ _ _ Hn) Hf) as Hf'.
    unfold Fake_NewTicker in Hn. destruct (Z.leb_spec d 0); [done|]. injection Hn as <- <-.
    pose proof (is_fresh (dom (heap f))) as Hfr%not_elem_of_dom. unfold fake_view. cbn. rewrite Hfr, lookup_insert_eq.
    split_and!; [done..| |].
    + cbn. by rewrite bool_decide_eq_true_2 by set_solver.
    + intros t' Hne. cbn. rewrite lookup_insert_ne by done. apply option_fmap_ext. intros tk.
      f_equal. apply bool_decide_ext. set_solver.
  - unfold Fake_NewTicker in Hn. by destruct (Z.leb_spec d 0).
Qed.
Next Obligation.
  cbn. intros f t Hf. destruct (fakeTicker_recv t f) as [[c f']|] eqn:Hr.
  - pose proof (clock_step_inv _ _ (step_recv _ _ _ _ Hr) Hf) as Hf'. unfold fakeTicker_recv in Hr.
    unfold fake_view. destruct (heap f !! t) as [tk|] eqn:Htk; [|done]. cbn in Hr.
    destruct (ticks tk) as [c'|] eqn:Hc; [|done]. injection Hr as <- <-. cbn.
    eexists. split_and!; [done|done|done|done|by rewrite lookup_insert_eq|].
    intros t' Hne. cbn. by rewrite lookup_insert_ne.
  - unfold fakeTicker_recv in Hr. unfold fake_view. destruct (heap f !! t) as [tk|]; [|done]. cbn in *.
    by destruct (ticks tk).
Qed.
Next Obligation.
  cbn. intros f t Hf. split_and!; [by apply (clock_step_inv f); [apply step_Stop|]|done| |].
  - intros t' Hne. unfold fake_view. cbn. apply option_fmap_ext. intros tk. f_equal. apply bool_decide_ext. set_solver.
  - unfold fake_view. cbn. destruct (heap f !! t) as [tk|]; constructor. eexists. split; [|by right].
    cbn. by rewrite bool_decide_eq_false_2 by set_solver.
Qed.
Next Obligation.
  cbn. intros d f f' Hf [Hd (order & Ho & ->)]. split_and!; [done|by apply (clock_step_inv f); [apply step_Advance|]|done|].
  intros t. unfold fake_view. rewrite Advance_lookup by done. destruct (heap f !! t) as [tk|] eqn:Htk; constructor.
  destruct Hf as [_ Hf]. destruct (Hf t tk Htk) as [Hi _].
  pose proof (fire_ticks (now f + d) (bool_decide (t ∈ tickers f)) tk Hi) as Hfi.
  cbn. repeat case_bool_decide; repeat case_decide; done.
Qed.

(** The fake clock ticks like a [time.Ticker]. In every state reachable by
    creating, reading and stopping tickers and advancing the clock, advancing
    by [d], in whatever order the tickers are visited, leaves each live ticker
    due after the new time and within one interval of it, on its own beat; the
    ticker delivers the new time exactly when it was due and its last tick was
    read, however many beats were passed; and stopped tickers stay as they
    are. *)
Theorem Advance_ticks f d order t tk :
  clock_reachable f -> 0 <= d -> order ≡ₚ elements (tickers f) -> heap f !! t = Some tk ->
  exists tk', heap (Fake_Advance order f d) !! t = Some tk' /\ interval tk' = interval tk
  /\ (t ∉ tickers f -> tk' = tk)
  /\ (t ∈ tickers f ->
      now f + d < next tk' <= now f + d + interval tk
      /\ (exists k, 0 <= k /\ next tk' = next tk + k * interval tk)
      /\ ticks tk' = if decide (next tk <= now f + d /\ ticks tk = None)
                     then Some (now f + d) else ticks tk).
Proof.
  intros Hr%clock_reachable_inv Hd Hp Htk. destruct Hr as [_ Hinv].
  destruct (Hinv t tk Htk) as [Hi Hn]. rewrite Advance_lookup, Htk by done.
  eexists. split; [done|]. case_decide as Ht; [|done]. specialize (Hn Ht).
  unfold fire. destruct (Z.ltb_spec (now f + d) (next tk)) as [Hlt|Hle].
  - split_and!; [done..|]. intros _. split_and!; [lia..| |rewrite decide_False by lia; done].
    exists 0. lia.
  - destruct (advance_next_spec (now f + d) tk) as (k & Hk & Hnext & Hb); [lia..|].
    split_and!; [done..|]. intros _. cbn [next ticks]. rewrite Hnext.
    split_and!; [lia..| |].
    + exists k. lia.
    + destruct (ticks tk); [by rewrite decide_False by naive_solver|by rewrite decide_True].
Qed.

Lemma Advance_ticks_witness :
  exists f tk', clock_reachable f
  /\ heap (Fake_Advance [0%nat] f 35) !! 0%nat = Some tk' /\ ticks tk' = Some 35 /\ next tk' = 40.
Proof.
  set (f := mkFake 0 {[0%nat]} {[0%nat := mkFakeTicker 10 10 None]}).
  assert (clock_reachable f) as Hr.
  { exists 0. apply rtc_once, (step_NewTicker _ 10 0%nat). vm_compute. reflexivity. }
  destruct (Advance_ticks f 35 [0%nat] 0%nat (mkFakeTicker 10 10 None) Hr) as (tk' & Htk' & _);
    [lia|by vm_compute|reflexivity|].
  exists f, tk'. split; [exact Hr|]. split; [exact Htk'|]. vm_compute in Htk'.
  injection Htk' as <-. split; reflexivity.
Defined.

(** ** The fake and the real clock *)

(** The system at time [start], without timers. *)
Definition system_at (start : Z) : system := mkSystem start ∅.

Lemma same_dom (f : Fake) (s : system) :
  (forall t, fake_view f t = None <-> system_ticker s t = None) -> dom (heap f) = dom (sys_timers s).
Proof.
  intros H. apply set_eq. intros t. specialize (H t). unfold fake_view, system_ticker in H.
  rewrite !fmap_None in H. rewrite !elem_of_dom, <- !not_eq_None_Some. tauto.
Qed.

Lemma names_agree (f : Fake) (s : system) d t1 f' t2 s' :
  (forall t, fake_view f t = None <-> system_ticker s t = None) ->
  Fake_NewTicker f d = Some (t1, f') -> time_NewTicker d s = Some (t2, s') -> t1 = t2.
Proof.
  intros H%same_dom. unfold Fake_NewTicker, time_NewTicker. rewrite H. destruct (d <=? 0); [done|].
  by intros [= <- _] [= <- _].
Qed.

Lemma new_agree R start :
  agree (K1 := Fake) (K2 := system) R ∅ (Fake_New start) (system_at start)
  /\ agree (K1 := system) (K2 := Fake) R ∅ (system_at start) (Fake_New start).
Proof.
  assert (clock_ok (Fake_New start)) as Hf by (apply clock_reachable_inv; exists start; apply rtc_refl).
  assert (clock_ok (system_at start)) as Hs by apply map_Forall_empty.
  split; (split; [done|done|done|intros t; constructor|done]).
Qed.

(** A session of either clock happens on the other, up to the times of ticks. *)
Lemma both_ways (P R : Z -> Z -> Prop) start tr :
  (forall now next c1 c2, P now next -> next <= c1 <= now -> next <= c2 <= now -> R c1 c2) ->
  receives_running ∅ tr = true ->
  ((exists f, session P tr (Fake_New start) f) ->
     exists tr' s, Forall2 (alike R) tr tr' /\ session P tr' (system_at start) s)
  /\ ((exists s, session P tr (system_at start) s) ->
     exists tr' f, Forall2 (alike R) tr tr' /\ session P tr' (Fake_New start) f).
Proof.
  intros HR Hr. destruct (new_agree R start) as [H1 H2]. split; intros [k Hk].
  - eapply (interchange (K1 := Fake) (K2 := system)); [exact names_agree| |done..].
    exact (fun d s Hd => ex_intro _ _ (conj Hd eq_refl)).
  - eapply (interchange (K1 := system) (K2 := Fake)); [| |done..].
    + intros k1 k2 d t1 k1' t2 k2' H Hn1 Hn2. symmetry. apply (names_agree k2 k1 d t2 k2' t1 k1'); [|exact Hn2|exact Hn1]. intros t. symmetry. exact (H t).
    + intros d f Hd. eexists. split; [done|]. by exists (elements (tickers f)).
Qed.

(** C40: the fake clock can stand in for the real one. A session is a list of
    calls of Now, NewTicker and Stop, receives from tickers and steps of time,
    with what the caller saw: the time, which ticker, the tick that was waiting
    and the time it carries, a panic. Of the sessions in which nobody receives
    from a stopped ticker and no step of time goes past a beat of a running
    ticker, exactly those that can happen on a new fake clock can happen on the
    real clock started at that time. With steps of any length the same holds
    except for the times the ticks carry: every session of one clock is one of
    the other with the same calls, times, tickers, panics and receives that find
    a tick or none. (See [late_tick] for the times.) *)
Theorem fake_interchangeable start tr :
  receives_running ∅ tr = true ->
  ((exists f, session punctual tr (Fake_New start) f) <-> (exists s, session punctual tr (system_at start) s))
  /\ ((exists f, session anyhow tr (Fake_New start) f) ->
       exists tr' s, Forall2 (alike (fun _ _ => True)) tr tr' /\ session anyhow tr' (system_at start) s)
  /\ ((exists s, session anyhow tr (system_at start) s) ->
       exists tr' f, Forall2 (alike (fun _ _ => True)) tr tr' /\ session anyhow tr' (Fake_New start) f).
Proof.
  intros Hr. split; [|by apply both_ways].
  destruct (both_ways punctual eq start tr) as [H1 H2]; [unfold punctual; lia|done|].
  split; [intros (tr' & k & ->%alike_eq & ?)%H1|intros (tr' & k & ->%alike_eq & ?)%H2]; eauto.
Qed.

(** A step of the fake clock that goes past no beat. *)
Lemma punctual_step (f : Fake) d :
  bool_decide (map_Forall (fun _ tk => now f + d <= next tk) (heap f)) = true ->
  forall t tk, ticker f t = Some tk -> t_running tk = true -> punctual (Now f + d) (t_next tk).
Proof.
  rewrite bool_decide_eq_true. cbn. unfold fake_view.
  intros Hall t tk (tk0 & Htk & ->)%fmap_Some _. exact (Hall t tk0 Htk).
Qed.

(** One step of time of the fake clock, in a session. *)
Ltac advance := eapply session_passes;
  [split; [split; [lia|exists [0%nat]; split; [vm_compute; reflexivity|vm_compute; reflexivity]]|]|].

(** A ticker read on time and stopped, and one read late. *)
Lemma fake_interchangeable_witness :
  (exists s, session punctual [(CallNewTicker 0, APanic); (CallNewTicker 10, ATicker 0); (TimePasses 10, ANone);
     (CallNow, ATime 10); (CallReceive 0, ATick (Some 10)); (CallReceive 0, ATick None); (CallStop 0, ANone)]
     (system_at 0) s)
  /\ exists tr' s, Forall2 (alike (fun _ _ => True))
       [(CallNewTicker 10, ATicker 0); (TimePasses 35, ANone); (CallReceive 0, ATick (Some 35));
        (TimePasses 5, ANone); (CallReceive 0, ATick (Some 40))] tr'
     /\ session anyhow tr' (system_at 0) s.
Proof.
  split.
  - apply (fake_interchangeable 0); [reflexivity|]. eexists.
    apply session_panics; [reflexivity|]. eapply session_NewTicker; [vm_compute; reflexivity|].
    advance.
    { apply punctual_step. vm_compute. reflexivity. }
    apply session_Now; [reflexivity|].
    eapply session_receives; [vm_compute; reflexivity|]. apply session_waits; [reflexivity|].
    apply session_Stop, session_end.
  - apply (fake_interchangeable 0); [reflexivity|]. eexists.
    eapply session_NewTicker; [vm_compute; reflexivity|]. advance; [done|].
    eapply session_receives; [vm_compute; reflexivity|]. advance; [done|].
    eapply session_receives; [vm_compute; reflexivity|]. apply session_end.
Defined.

(** A step of time past a beat: the tick of a fake ticker carries the time the
    step ended, the tick of a real one the time it was due. *)
Lemma late_tick :
  let calls c := [(CallNewTicker 10, ATicker 0); (TimePasses 35, ANone); (CallReceive 0, ATick (Some c))] in
  (exists f, session anyhow (calls 35) (Fake_New 0) f) /\ (exists s, session anyhow (calls 10) (system_at 0) s).
Proof.
  split; eexists.
  - eapply session_NewTicker; [vm_compute; reflexivity|]. advance; [done|].
    eapply session_receives; [vm_compute; reflexivity|]. apply session_end.
  - eapply session_NewTicker; [vm_compute; reflexivity|].
    eapply session_passes; [split; [split; [lia|vm_compute; reflexivity]|done]|].
    eapply session_receives; [vm_compute; reflexivity|]. apply session_end.
Qed.

(** An unread tick can still be received from a fake ticker that was stopped, and
    not from a real one. *)
Lemma stopped_fake_still_ticks :
  let calls tick := [(CallNewTicker 10, ATicker 0); (TimePasses 10, ANone); (CallStop 0, ANone);
                     (CallReceive 0, ATick tick)] in
  (exists f, session anyhow (calls (Some 10)) (Fake_New 0) f)
  /\ (exists s, session anyhow (calls None) (system_at 0) s).
Proof.
  split; eexists.
  - eapply session_NewTicker; [vm_compute; reflexivity|]. advance; [done|].
    apply session_Stop. eapply session_receives; [vm_compute; reflexivity|]. apply session_end.
  - eapply session_NewTicker; [vm_compute; reflexivity|].
    eapply session_passes; [split; [split; [lia|vm_compute; reflexivity]|done]|].
    apply session_Stop, session_waits; [vm_compute; reflexivity|]. apply session_end.
Qed.
