(* ===== verification/ConfigKeys.v ===== *)
(** * Configuration keys (internal/config/keys.go)

    The source derives its keys from the [Config] type by reflection. Here a
    reflected type is an [rtype] (a struct is its fields with their [koanf]
    tags), a reflected value is a [value], and [Config_type] and [reflect_of]
    are the reflections of the type and of a value of it. [collectFields] then
    walks the type as the source does. *)

From stdpp Require Import prelude gmap strings list.
From Stdlib Require Import ZArith Lia SpecFloat Ascii.
From S2P Require Import Prelude GoStrings Config.

Local Open Scope Z_scope.

(** ** Reflection *)

Inductive rtype :=
| TString | TBool | TInt | TInt64 | TUint32 | TFloat64 | TDuration | TStrings
| TStruct (fields : list (string * rtype)).

(** A value and, for a leaf, its content; [int], [int64] and [uint32] keep
    their type. *)
Inductive value :=
| VString (s : string) | VBool (b : bool) | VInt (z : Z) | VInt64 (z : Z) | VUint32 (z : Z)
| VFloat64 (x : float64) | VDuration (d : Z) | VStrings (l : list string)
| VStruct (fields : list value).

(** The type of a leaf. *)
Definition leaf_type (v : value) : option rtype :=
  match v with
  | VString _ => Some TString
  | VBool _ => Some TBool
  | VInt _ => Some TInt
  | VInt64 _ => Some TInt64
  | VUint32 _ => Some TUint32
  | VFloat64 _ => Some TFloat64
  | VDuration _ => Some TDuration
  | VStrings _ => Some TStrings
  | VStruct _ => None
  end.

(** [reflect.Value.FieldByIndex]; [None] is its panic. *)
Fixpoint FieldByIndex (v : value) (index : list nat) : option value :=
  match index with
  | [] => Some v
  | i :: index' =>
      match v with
      | VStruct vs => x ← vs !! i; FieldByIndex x index'
      | _ => None
      end
  end.

(** The value with the field at [index] assigned ([reflect.Value.Set]). *)
Fixpoint SetByIndex (v : value) (index : list nat) (x : value) : value :=
  match index with
  | [] => x
  | i :: index' =>
      match v with
      | VStruct vs => VStruct (alter (fun y => SetByIndex y index' x) i vs)
      | _ => v
      end
  end.

(** *** The type of each struct, with its tags *)

Definition Node_type : rtype := TStruct
  [("id", TString); ("environment", TString); ("data_dir", TString); ("shutdown_grace", TDuration)].
Definition Listen_type : rtype := TStruct
  [("client", TString); ("peer", TString); ("metrics", TString); ("diagnostics", TString)].
Definition Advertise_type : rtype := TStruct [("client", TString); ("peer", TString)].
Definition JWT_type : rtype := TStruct
  [("issuer_url", TString); ("jwks_url", TString); ("audience", TStrings);
   ("algorithms", TStrings); ("clock_skew", TDuration); ("refresh_interval", TDuration);
   ("min_refresh_interval", TDuration); ("http_timeout", TDuration);
   ("max_response_bytes", TInt64); ("min_rsa_bits", TInt);
   ("claims_cache", TStruct [("max_entries", TInt)])].
Definition Scopes_type : rtype := TStruct
  [("read", TString); ("write", TString); ("watch", TString); ("admin", TString)].
Definition Auth_type : rtype := TStruct
  [("mode", TString); ("insecure_allow_remote", TBool); ("jwt", JWT_type);
   ("scopes", Scopes_type)].
Definition TLS_type : rtype := TStruct
  [("enabled", TBool); ("min_version", TString); ("cert_file", TString); ("key_file", TString);
   ("client_ca_file", TString); ("peer_ca_file", TString); ("reload", TBool);
   ("allowed_peer_sans", TStrings); ("allowed_client_sans", TStrings)].
Definition RateLimit_type : rtype := TStruct [("rate", TFloat64); ("burst", TInt)].
Definition Limits_type : rtype := TStruct
  [("max_key_bytes", TInt); ("max_value_bytes", TInt); ("max_request_bytes", TInt);
   ("max_concurrent_streams", TInt); ("max_watchers_per_principal", TInt);
   ("rate_limit", TStruct [("read", RateLimit_type); ("write", RateLimit_type);
                           ("admin", RateLimit_type)])].
Definition Storage_type : rtype := TStruct
  [("engine", TString); ("fsync", TString); ("fsync_interval", TDuration);
   ("wal_segment_bytes", TInt64); ("wal_retain_segments", TInt); ("snapshot_entries", TInt);
   ("snapshot_interval", TDuration); ("quota_bytes", TInt64);
   ("auto_compaction_retention", TInt64)].
Definition Raft_type : rtype := TStruct
  [("tick_interval", TDuration); ("heartbeat_ticks", TInt); ("election_ticks", TInt);
   ("max_inflight_msgs", TInt); ("max_size_per_msg", TInt64); ("pre_vote", TBool);
   ("check_quorum", TBool); ("leader_transfer_on_shutdown", TBool)].
Definition Read_type : rtype := TStruct
  [("default_consistency", TString); ("forward_writes_to_leader", TBool);
   ("leader_wait_timeout", TDuration)].
Definition Cluster_type : rtype := TStruct
  [("bootstrap", TBool); ("initial_peers", TStrings); ("slot_count", TUint32);
   ("groups", TInt); ("replication_factor", TInt); ("raft", Raft_type); ("read", Read_type)].
Definition Observability_type : rtype := TStruct
  [("log", TStruct [("level", TString); ("format", TString)]);
   ("tracing", TStruct [("enabled", TBool); ("otlp_endpoint", TString); ("sampler", TString);
                        ("sample_ratio", TFloat64)]);
   ("metrics", TStruct [("enabled", TBool)]);
   ("health", TStruct [("max_apply_lag_entries", TInt)])].
Definition Config_type : rtype := TStruct
  [("node", Node_type); ("listen", Listen_type); ("advertise", Advertise_type);
   ("auth", Auth_type); ("tls", TLS_type); ("limits", Limits_type); ("storage", Storage_type);
   ("cluster", Cluster_type); ("observability", Observability_type)].

(** *** The reflection of a configuration, and back *)

Definition reflect_RateLimit (r : RateLimit) : value := VStruct [VFloat64 (Rate r); VInt (Burst r)].

Definition reflect_of (c : Config) : value :=
  let '(mkConfig n l ad a t li s cl o) := c in
  let j := Auth_JWT a in
  let sc := Auth_Scopes a in
  let rl := Limits_RateLimit li in
  let r := Cluster_Raft cl in
  let rd := Cluster_Read cl in
  let tr := Observability_Tracing o in
  VStruct
    [VStruct [VString (ID n); VString (node_Environment n); VString (DataDir n);
              VDuration (ShutdownGrace n)];
     VStruct [VString (Listen_Client l); VString (Listen_Peer l); VString (Listen_Metrics l);
              VString (Listen_Diagnostics l)];
     VStruct [VString (Advertise_Client ad); VString (Advertise_Peer ad)];
     VStruct
       [VString (Mode a); VBool (InsecureAllowRemote a);
        VStruct
          [VString (IssuerURL j); VString (JWKSURL j); VStrings (Audience j);
           VStrings (Algorithms j); VDuration (ClockSkew j); VDuration (RefreshInterval j);
           VDuration (MinRefreshInterval j); VDuration (HTTPTimeout j);
           VInt64 (MaxResponseBytes j); VInt (MinRSABits j);
           VStruct [VInt (MaxEntries (JWT_ClaimsCache j))]];
        VStruct [VString (Scopes_Read sc); VString (Scopes_Write sc); VString (Scopes_Watch sc);
                 VString (Scopes_Admin sc)]];
     VStruct [VBool (TLS_Enabled t); VString (MinVersion t); VString (CertFile t);
              VString (KeyFile t); VString (ClientCAFile t); VString (PeerCAFile t);
              VBool (Reload t); VStrings (AllowedPeerSANs t); VStrings (AllowedClientSANs t)];
     VStruct [VInt (MaxKeyBytes li); VInt (MaxValueBytes li); VInt (MaxRequestBytes li);
              VInt (MaxConcurrentStreams li); VInt (MaxWatchersPerPrincipal li);
              VStruct [reflect_RateLimit (RateLimits_Read rl);
                       reflect_RateLimit (RateLimits_Write rl);
                       reflect_RateLimit (RateLimits_Admin rl)]];
     VStruct [VString (Engine s); VString (Fsync s); VDuration (Storage_FsyncInterval s);
              VInt64 (WALSegmentBytes s); VInt (WALRetainSegments s); VInt (SnapshotEntries s);
              VDuration (SnapshotInterval s); VInt64 (QuotaBytes s);
              VInt64 (AutoCompactionRetention s)];
     VStruct
       [VBool (Bootstrap cl); VStrings (InitialPeers cl); VUint32 (SlotCount cl);
        VInt (Groups cl); VInt (ReplicationFactor cl);
        VStruct [VDuration (TickInterval r); VInt (HeartbeatTicks r); VInt (ElectionTicks r);
                 VInt (MaxInflightMsgs r); VInt64 (MaxSizePerMsg r); VBool (PreVote r);
                 VBool (CheckQuorum r); VBool (LeaderTransferOnShutdown r)];
        VStruct [VString (DefaultConsistency rd); VBool (ForwardWritesToLeader rd);
                 VDuration (LeaderWaitTimeout rd)]];
     VStruct
       [VStruct [VString (Level (Observability_Log o)); VString (Format (Observability_Log o))];
        VStruct [VBool (Tracing_Enabled tr); VString (OTLPEndpoint tr); VString (Sampler tr);
                 VFloat64 (SampleRatio tr)];
        VStruct [VBool (Metrics_Enabled (Observability_Metrics o))];
        VStruct [VInt (MaxApplyLagEntries (Observability_Health o))]]].

Definition config_of (v : value) : option Config :=
  match v with
  | VStruct
    [VStruct [VString id; VString env; VString dir; VDuration grace];
     VStruct [VString lc; VString lp; VString lm; VString ld];
     VStruct [VString ac; VString ap];
     VStruct
       [VString mode; VBool remote;
        VStruct [VString iss; VString jwks; VStrings aud; VStrings algs; VDuration skew;
                 VDuration refr; VDuration minr; VDuration ht; VInt64 mrb; VInt rsa;
                 VStruct [VInt cache]];
        VStruct [VString sr; VString sw; VString swt; VString sa]];
     VStruct [VBool te; VString mv; VString cert; VString key; VString cca; VString pca;
              VBool reload; VStrings psans; VStrings csans];
     VStruct [VInt mk; VInt mval; VInt mreq; VInt mstr; VInt mw;
              VStruct [VStruct [VFloat64 rr; VInt rb]; VStruct [VFloat64 wr; VInt wb];
                       VStruct [VFloat64 ar; VInt ab]]];
     VStruct [VString eng; VString fsync; VDuration fint; VInt64 wsb; VInt wrs; VInt sne;
              VDuration sni; VInt64 quota; VInt64 acr];
     VStruct
       [VBool boot; VStrings peers; VUint32 slots; VInt groups; VInt repl;
        VStruct [VDuration tick; VInt hb; VInt el; VInt infl; VInt64 msz; VBool pv; VBool cq;
                 VBool lt];
        VStruct [VString dc; VBool fw; VDuration lw]];
     VStruct [VStruct [VString lev; VString fmt];
              VStruct [VBool tre; VString otlp; VString smp; VFloat64 ratio];
              VStruct [VBool me]; VStruct [VInt lag]]] =>
      Some (mkConfig (mkNode id env dir grace) (mkListen lc lp lm ld) (mkAdvertise ac ap)
        (mkAuth mode remote
           (mkJWT iss jwks aud algs skew refr minr ht mrb rsa (mkClaimsCache cache))
           (mkScopes sr sw swt sa))
        (mkTLS te mv cert key cca pca reload psans csans)
        (mkLimits mk mval mreq mstr mw
           (mkRateLimits (mkRateLimit rr rb) (mkRateLimit wr wb) (mkRateLimit ar ab)))
        (mkStorage eng fsync fint wsb wrs sne sni quota acr)
        (mkCluster boot peers slots groups repl (mkRaft tick hb el infl msz pv cq lt)
           (mkRead dc fw lw))
        (mkObservability (mkLogSettings lev fmt) (mkTracing tre otlp smp ratio) (mkMetrics me)
           (mkHealth lag)))
  | _ => None
  end.

(** ** Keys *)

Definition envPrefix : string := "GOKVX_".

Record field := mkField { key : string; index : list nat; typ : rtype }.

(** [collectFields]: the leaves of a struct type, in declaration order. *)
Fixpoint collectFields (t : rtype) (prefix : string) (idx : list nat) : list field :=
  match t with
  | TStruct fs =>
      (fix walk (i : nat) (fs : list (string * rtype)) : list field :=
         match fs with
         | [] => []
         | (tag, t') :: fs' =>
             let k := if decide (prefix <> "") then prefix +:+ "." +:+ tag else tag in
             (match t' with
              | TStruct _ => collectFields t' k (idx ++ [i])
              | _ => [mkField k (idx ++ [i]) t']
              end) ++ walk (S i) fs'
         end) O fs
  | _ => []
  end.

Definition fields : list field := Eval vm_compute in collectFields Config_type "" [].

(** [indexFields]: later fields replace earlier ones of the same name. *)
Definition indexFields (fs : list field) (name : field -> string) : gmap string field :=
  foldl (fun m f => <[name f := f]> m) ∅ fs.

Definition envName (f : field) : string :=
  envPrefix +:+ ToUpper (ReplaceAll (key f) "." "_").

Definition isList (f : field) : bool :=
  match typ f with TStrings => true | _ => false end.

Definition fieldsByKey : gmap string field := indexFields fields key.
Definition fieldsByEnv : gmap string field := indexFields fields envName.

(** [collectSections]: every proper prefix of every key. *)
Definition key_sections (k : string) : list string :=
  let parts := Split k "." in
  (fun i => String.concat "." (take i parts)) <$> seq 1 (length parts - 1).

Definition collectSections (fs : list field) : gset string :=
  foldl (fun m f => foldl (fun m s => {[s]} ∪ m) m (key_sections (key f))) ∅ fs.

Definition sections : gset string := collectSections fields.

Definition valueOf (f : field) (cfg : Config) : option value :=
  FieldByIndex (reflect_of cfg) (index f).

(** ** Facts *)

Lemma config_of_reflect c : config_of (reflect_of c) = Some c.
Proof.
  destruct c as [[] [] [] [? ? [? ? ? ? ? ? ? ? ? ? []] []] [] [? ? ? ? ? [[] [] []]] []
    [? ? ? ? ? [] []] [[] [] [] []]]. reflexivity.
Qed.

(** A table indexed by a name that no two fields share. *)
Lemma indexFields_lookup fs (name : field -> string) k f :
  NoDup (name <$> fs) -> indexFields fs name !! k = Some f <-> f ∈ fs /\ name f = k.
Proof.
  unfold indexFields. induction fs as [|g fs IH] using rev_ind; intros Hnd.
  { cbn. rewrite lookup_empty. set_solver. }
  rewrite foldl_snoc. cbn. rewrite fmap_app, NoDup_app in Hnd. destruct Hnd as (Hnd & Hdis & _).
  rewrite elem_of_app, list_elem_of_singleton.
  destruct (decide (name g = k)) as [Hk|Hk].
  - rewrite Hk, lookup_insert_eq. split; [naive_solver|].
    intros [[Hf|Hf] Hn]; [|by subst]. exfalso. apply (Hdis (name g)).
    + rewrite Hk, <- Hn. by apply list_elem_of_fmap_2.
    + set_solver.
  - rewrite lookup_insert_ne, IH by done. naive_solver.
Qed.

Lemma keys_NoDup : NoDup (key <$> fields).
Proof. apply (bool_decide_unpack _). vm_compute. done. Qed.

Lemma envNames_NoDup : NoDup (envName <$> fields).
Proof. apply (bool_decide_unpack _). vm_compute. done. Qed.

Lemma keys_not_sections : Forall (fun f => key f ∉ sections) fields.
Proof. apply (bool_decide_unpack _). vm_compute. done. Qed.

Lemma collectSections_spec fs s :
  s ∈ collectSections fs <-> exists f, f ∈ fs /\ s ∈ key_sections (key f).
Proof.
  unfold collectSections.
  assert (forall l (m : gset string), s ∈ foldl (fun m s => {[s]} ∪ m) m l <-> s ∈ m \/ s ∈ l) as Hin.
  { induction l as [|x l IH]; intros m; cbn; [set_solver|]. rewrite IH. set_solver. }
  transitivity (s ∈ (∅ : gset string) \/ exists f, f ∈ fs /\ s ∈ key_sections (key f)); [|set_solver].
  generalize (∅ : gset string). induction fs as [|f fs IH]; intros m; cbn; [set_solver|].
  rewrite IH, Hin. set_solver.
Qed.

Lemma valueOf_typed c f :
  f ∈ fields -> exists v, valueOf f c = Some v /\ leaf_type v = Some (typ f).
Proof.
  revert f. apply Forall_forall. destruct c. unfold fields.
  repeat (apply Forall_cons_2; [eexists; split; reflexivity|]). apply Forall_nil_2.
Qed.

(** The configuration with every key assigned. *)
Definition assign_all (base : Config) (x : field -> value) : option Config :=
  config_of (foldl (fun v f => SetByIndex v (index f) (x f)) (reflect_of base) fields).

Lemma assign_all_values base c :
  assign_all base (fun f => default (VStruct []) (valueOf f c)) = Some c.
Proof.
  destruct base as [[] [] [] [? ? [? ? ? ? ? ? ? ? ? ? []] []] [] [? ? ? ? ? [[] [] []]] []
    [? ? ? ? ? [] []] [[] [] [] []]],
    c as [[] [] [] [? ? [? ? ? ? ? ? ? ? ? ? []] []] [] [? ? ? ? ? [[] [] []]] []
    [? ? ? ? ? [] []] [[] [] [] []]]. vm_compute. reflexivity.
Qed.

(** The values of the keys make up the configuration. *)
Lemma valueOf_ext c c' : (forall f, f ∈ fields -> valueOf f c = valueOf f c') -> c = c'.
Proof.
  intros H. apply (inj Some). rewrite <- (assign_all_values c c), <- (assign_all_values c c').
  unfold assign_all. f_equal. revert H. generalize (reflect_of c), fields. intros v fs. revert v.
  induction fs as [|f fs IH]; intros v H; [done|].
  cbn. rewrite (H f) by apply list_elem_of_here. apply IH. intros g Hg. apply H.
  by apply list_elem_of_further.
Qed.

(** The configuration with a list of values assigned to the keys, in order. *)
Definition assign_values (base : Config) (vs : list value) : option Config :=
  config_of (foldl (fun v fx => SetByIndex v (index fx.1) fx.2) (reflect_of base) (zip fields vs)).

Lemma leaf_inv v t : leaf_type v = Some t ->
  match t with
  | TString => exists s, v = VString s | TBool => exists b, v = VBool b
  | TInt => exists z, v = VInt z | TInt64 => exists z, v = VInt64 z | TUint32 => exists z, v = VUint32 z
  | TFloat64 => exists x, v = VFloat64 x | TDuration => exists d, v = VDuration d
  | TStrings => exists l, v = VStrings l | TStruct _ => False end.
Proof. destruct v; cbn; intros [= <-]; eauto. Qed.

(** Values of the keys' types make a configuration that has them. *)
Lemma assign_values_typed vs :
  Forall2 (fun f v => leaf_type v = Some (typ f)) fields vs ->
  exists c, assign_values Defaults vs = Some c /\ Forall2 (fun f v => valueOf f c = Some v) fields vs.
Proof.
  intros H. unfold fields in H.
  repeat (apply Forall2_cons_inv_l in H as (? & ? & Hx & H & ->);
    apply leaf_inv in Hx; cbv beta iota match delta [typ] in Hx; destruct Hx as [? ->]).
  apply Forall2_nil_inv_l in H as ->.
  eexists. split; [lazy; reflexivity|]. lazy [fields]. repeat constructor.
Qed.

(** A key that lies in the section [k]. *)
Definition under (k k' : string) : Prop := exists rest, k' = k +:+ "." +:+ rest.

(** Assigning one of two unrelated keys leaves the other alone. *)
Definition unrelated (k k' : string) : Prop := k <> k' /\ ~ under k k' /\ ~ under k' k.

Lemma keys_not_under f g : f ∈ fields -> g ∈ fields -> ~ under (key f) (key g).
Proof.
  assert (Forall (fun f => Forall (fun g => HasPrefix (key g) (key f +:+ ".") = false) fields) fields)
    as Hall by (apply (bool_decide_unpack _); vm_compute; done).
  intros Hf Hg [rest Hr]. rewrite Forall_forall in Hall. specialize (Hall f Hf).
  rewrite Forall_forall in Hall. specialize (Hall g Hg). unfold HasPrefix in Hall.
  apply bool_decide_eq_false in Hall. apply Hall. exists rest. apply strip_prefix_Some.
  by rewrite Hr, append_assoc.
Qed.

Lemma keys_unrelated f g : f ∈ fields -> g ∈ fields -> key f <> key g -> unrelated (key f) (key g).
Proof. intros Hf Hg Hne. split; [done|]. split; by apply keys_not_under. Qed.

Lemma fieldsByKey_lookup k f : fieldsByKey !! k = Some f <-> f ∈ fields /\ key f = k.
Proof. apply indexFields_lookup, keys_NoDup. Qed.

Lemma fieldsByEnv_lookup k f : fieldsByEnv !! k = Some f <-> f ∈ fields /\ envName f = k.
Proof. apply indexFields_lookup, envNames_NoDup. Qed.

(** C38: The keys derived from the [Config] type are sound. Every key finds a
    value of its own type in every configuration, and the values of all keys
    make up the configuration. The tables by key and by environment variable
    find exactly the keys, so no two keys share a name or a variable. A section
    is a proper dotted prefix of a key, and no key is or lies in another
    key. *)
Theorem keys_sound :
  (forall c f, f ∈ fields -> exists v, valueOf f c = Some v /\ leaf_type v = Some (typ f))
  /\ (forall c c', (forall f, f ∈ fields -> valueOf f c = valueOf f c') -> c = c')
  /\ (forall k f, fieldsByKey !! k = Some f <-> f ∈ fields /\ key f = k)
  /\ (forall k f, fieldsByEnv !! k = Some f <-> f ∈ fields /\ envName f = k)
  /\ (forall s, s ∈ sections <-> exists f, f ∈ fields /\ s ∈ key_sections (key f))
  /\ (forall f g, f ∈ fields -> g ∈ fields ->
        key f ∉ sections /\ (f <> g -> unrelated (key f) (key g) /\ envName f <> envName g)).
Proof.
  split; [exact valueOf_typed|]. split; [exact valueOf_ext|]. split; [exact fieldsByKey_lookup|].
  split; [exact fieldsByEnv_lookup|]. split; [exact (collectSections_spec fields)|].
  intros f g Hf Hg. split; [exact (proj1 (Forall_forall _ _) keys_not_sections f Hf)|].
  intros Hne. assert (forall name : field -> string, NoDup (name <$> fields) -> name f <> name g) as Hinj.
  { intros name Hnd He. apply Hne. apply (inj Some).
    rewrite <- (proj2 (indexFields_lookup fields name (name f) f Hnd) (conj Hf eq_refl)).
    rewrite (proj2 (indexFields_lookup fields name (name f) g Hnd)); [done|]. by split. }
  split; [apply keys_unrelated; [done..|]|]; apply Hinj; [apply keys_NoDup|apply envNames_NoDup].
Qed.
