(* ===== verification/Durations.v ===== *)
(** * Durations as text (time.Duration.String, and formatDuration of
    internal/config/keys.go)

    The printer of package time with its branches, the shorter form used in
    configuration, and an independent reading of the notation: a sequence of
    decimal numbers with units. The fraction of a number has at most the
    digits its unit has nanoseconds, where [time.ParseDuration] is exact. *)

From stdpp Require Import prelude strings list.
From Stdlib Require Import ZArith Lia Ascii.
From S2P Require Import Prelude GoStrings Config.

Local Open Scope string_scope.
Local Open Scope Z_scope.
Local Arguments String.append !_ _ / : simpl nomatch.

(** ** [time.Duration.String] *)

Definition Microsecond : Z := 1000.

(** The loop of [fmtFrac]: [prec] digits of [v] from the right, in front of
    [acc]; zeros at the end are not printed. *)
Fixpoint fmtFrac_loop (prec : nat) (v : Z) (print : bool) (acc : string) : bool * string * Z :=
  match prec with
  | O => (print, acc, v)
  | S prec' =>
      let d := v mod 10 in
      let print' := print || negb (d =? 0) in
      fmtFrac_loop prec' (v / 10) print' (if print' then String (digit d) acc else acc)
  end.

Definition fmtFrac (v : Z) (prec : nat) : string * Z :=
  let '(print, acc, v') := fmtFrac_loop prec v false "" in
  (if print then "." +:+ acc else acc, v').

(** The absolute value of a duration below and from one second on. *)
Definition format_small (u : Z) : string :=
  if u =? 0 then "0s"
  else
    let '(prec, unit) :=
      if u <? Microsecond then (O, "ns")
      else if u <? Millisecond then (3%nat, "µs")
      else (6%nat, "ms") in
    let '(frac, n) := fmtFrac u prec in
    FormatUint n +:+ frac +:+ unit.

Definition format_large (u : Z) : string :=
  let '(frac, secs) := fmtFrac u 9 in
  let s := FormatUint (secs mod 60) +:+ frac +:+ "s" in
  let mins := secs / 60 in
  if mins =? 0 then s
  else
    let m := FormatUint (mins mod 60) +:+ "m" in
    let hours := mins / 60 in
    if hours =? 0 then m +:+ s else FormatUint hours +:+ "h" +:+ m +:+ s.

Definition Duration_String (d : Z) : string :=
  let u := if d <? 0 then u64 (- u64 d) else u64 d in
  let s := if u <? Second then format_small u else format_large u in
  if d <? 0 then "-" +:+ s else s.

(** ** [formatDuration] *)

Definition TrimSuffix (s suf : string) : string := fst (CutSuffix s suf).

Definition formatDuration (d : Z) : string :=
  let s := Duration_String d in
  let s := if HasSuffix s "m0s" then TrimSuffix s "0s" else s in
  if HasSuffix s "h0m" then TrimSuffix s "0m" else s.

(** ** Reading a duration *)

Fixpoint read_digits (s : string) (acc : Z) (count : nat) : Z * nat * string :=
  match s with
  | String c s' =>
      match digit_value c with
      | Some d => read_digits s' (acc * 10 + d) (S count)
      | None => (acc, count, s)
      end
  | EmptyString => (acc, count, s)
  end.

(** The letters up to the next number. *)
Fixpoint read_unit (s : string) : string * string :=
  match s with
  | String c s' =>
      match digit_value c with
      | Some _ => ("", s)
      | None => let '(u, rest) := read_unit s' in (String c u, rest)
      end
  | EmptyString => ("", "")
  end.

(** The nanoseconds of a unit are a count times a power of ten. *)
Definition unit_of (u : string) : option (Z * nat) :=
  if decide (u = "h") then Some (3600, 9%nat)
  else if decide (u = "m") then Some (60, 9%nat)
  else if decide (u = "s") then Some (1, 9%nat)
  else if decide (u = "ms") then Some (1, 6%nat)
  else if decide (u = "µs") then Some (1, 3%nat)
  else if decide (u = "ns") then Some (1, 0%nat)
  else None.

(** One number with its unit, in nanoseconds, and the rest. *)
Definition read_component (s : string) : option (Z * string) :=
  let '(n, k, rest) := read_digits s 0 0 in
  let '(f, kf, rest) :=
    match strip_prefix "." rest with
    | Some rest' => read_digits rest' 0 0
    | None => (0, O, rest)
    end in
  let '(u, rest) := read_unit rest in
  '(count, prec) ← unit_of u;
  if decide (k = O \/ (prec < kf)%nat) then None
  else Some (n * count * 10 ^ Z.of_nat prec + f * count * 10 ^ Z.of_nat (prec - kf), rest).

(** Their sum; each takes at least a byte, so the length is enough fuel. *)
Fixpoint read_components (fuel : nat) (s : string) : option Z :=
  match fuel, s with
  | _, EmptyString => Some 0
  | O, _ => None
  | S fuel', _ =>
      '(x, rest) ← read_component s;
      y ← read_components fuel' rest;
      Some (x + y)
  end.

Definition read_duration (s : string) : option Z :=
  match s with
  | EmptyString => None
  | _ =>
      match strip_prefix "-" s with
      | Some s' => Z.opp <$> read_components (String.length s') s'
      | None => read_components (String.length s) s
      end
  end.

Example durations :
  (fun d => (Duration_String d, formatDuration d)) <$>
    [0; 1; 1500; 100 * Millisecond; 90 * Second; 15 * Minute; 3600 * Second; 3605 * Second;
     -1500 * Millisecond; 2 ^ 63 - 1; - 2 ^ 63]
  = [("0s", "0s"); ("1ns", "1ns"); ("1.5µs", "1.5µs"); ("100ms", "100ms"); ("1m30s", "1m30s");
     ("15m0s", "15m"); ("1h0m0s", "1h"); ("1h0m5s", "1h0m5s"); ("-1.5s", "-1.5s");
     ("2562047h47m16.854775807s", "2562047h47m16.854775807s");
     ("-2562047h47m16.854775808s", "-2562047h47m16.854775808s")].
Proof. vm_compute. reflexivity. Qed.

(** ** Digits *)

(** [s] does not begin with a digit. *)
Definition stops (s : string) : Prop :=
  match s with EmptyString => True | String c _ => digit_value c = None end.

Lemma read_digits_stops s acc k : stops s -> read_digits s acc k = (acc, k, s).
Proof. destruct s as [|c s]; cbn; [done|]. by intros ->. Qed.

Lemma read_digits_format k n r c :
  0 <= n < 10 ^ Z.of_nat k ->
  read_digits (format_go k n +:+ r) 0 c = read_digits r n (c + String.length (format_go k n)).
Proof.
  revert n r. induction k as [|k IH]; intros n r Hn.
  { cbn. f_equal; [cbn in Hn; lia|lia]. }
  cbn [format_go]. rewrite Nat2Z.inj_succ, Z.pow_succ_r in Hn by lia.
  pose proof (Z.mod_pos_bound n 10 ltac:(lia)). pose proof (Z.div_mod n 10 ltac:(lia)).
  destruct (Z.ltb_spec n 10) as [Hlt|Hge].
  - cbn. rewrite digit_value_digit by lia. rewrite Z.mod_small by lia. f_equal. lia.
  - rewrite <- append_assoc, IH; cbn [String.append read_digits];
      [|split; [apply Z.div_pos; lia|apply Z.div_lt_upper_bound; lia]].
    rewrite digit_value_digit by lia. rewrite append_length. cbn [String.length].
    f_equal; lia.
Qed.

Lemma read_digits_fixed k n r acc c :
  read_digits (fixed k n +:+ r) acc c
  = read_digits r (acc * 10 ^ Z.of_nat k + n mod 10 ^ Z.of_nat k) (c + k).
Proof.
  revert n r acc. induction k as [|k IH]; intros n r acc.
  { cbn. rewrite Z.mod_1_r. f_equal; lia. }
  cbn [fixed]. rewrite <- append_assoc, IH. cbn [String.append read_digits].
  pose proof (Z.mod_pos_bound n 10 ltac:(lia)).
  rewrite digit_value_digit by lia. f_equal; [|lia].
  rewrite Nat2Z.inj_succ, Z.pow_succ_r, (Z.rem_mul_r n 10) by lia. ring.
Qed.

Lemma format_go_pos k n : 0 <= n -> (0 < k)%nat -> (0 < String.length (format_go k n))%nat.
Proof. intros Hn Hk. destruct k; [lia|]. cbn [format_go]. rewrite append_length. cbn. lia. Qed.

(** *** Bytes a text does not have *)

Fixpoint lacks (c : ascii) (s : string) : Prop :=
  match s with EmptyString => True | String a s' => a <> c /\ lacks c s' end.

Lemma lacks_app c s t : lacks c (s +:+ t) <-> lacks c s /\ lacks c t.
Proof. induction s as [|a s IH]; cbn; [tauto|]. rewrite IH. tauto. Qed.

Lemma lacks_digit c d : digit_value c = None -> 0 <= d < 10 -> digit d <> c.
Proof. intros Hc Hd <-. by rewrite digit_value_digit in Hc. Qed.

Lemma lacks_format c k n : digit_value c = None -> 0 <= n -> lacks c (format_go k n).
Proof.
  intros Hc. revert n. induction k as [|k IH]; intros n Hn; [done|]. cbn [format_go].
  apply lacks_app. split; [|split; [|done]].
  - destruct (n <? 10); [done|]. apply IH, Z.div_pos; lia.
  - apply lacks_digit; [done|]. apply Z.mod_pos_bound. lia.
Qed.

Lemma lacks_fixed c k n : digit_value c = None -> lacks c (fixed k n).
Proof.
  intros Hc. revert n. induction k as [|k IH]; intros n; [done|]. cbn [fixed].
  apply lacks_app. split; [done|]. split; [|done]. apply lacks_digit; [done|].
  apply Z.mod_pos_bound. lia.
Qed.

Lemma lacks_occurs c a t : ~ lacks c (a +:+ String c t).
Proof. rewrite lacks_app. cbn. tauto. Qed.

(** The last occurrence of a byte is unique. *)
Lemma last_occurrence c a1 t1 a2 t2 :
  lacks c t1 -> lacks c t2 -> a1 +:+ String c t1 = a2 +:+ String c t2 -> a1 = a2 /\ t1 = t2.
Proof.
  intros H1 H2. revert a2. induction a1 as [|x a1 IH]; intros [|y a2]; cbn [String.append]; intros He.
  - by injection He as ->.
  - injection He as <- ->. by apply lacks_occurs in H1.
  - injection He as -> <-. by apply lacks_occurs in H2.
  - injection He as <- He. destruct (IH _ He) as [-> ->]. done.
Qed.

(** ** Fractions *)

Lemma fmtFrac_loop_print n v acc :
  0 <= v -> fmtFrac_loop n v true acc = (true, fixed n v +:+ acc, v / 10 ^ Z.of_nat n).
Proof.
  revert v acc. induction n as [|n IH]; intros v acc Hv; cbn [fmtFrac_loop fixed orb].
  { by rewrite Z.div_1_r. }
  rewrite IH by (apply Z.div_pos; lia). rewrite <- append_assoc.
  rewrite Nat2Z.inj_succ, Z.pow_succ_r, Z.div_div by lia. done.
Qed.

(** A printed fraction of [k] digits with the value [f]. *)
Definition fraction (text : string) (k : nat) (f : Z) : Prop :=
  text = "" /\ k = O /\ f = 0
  \/ exists x, text = "." +:+ fixed k x /\ (0 < k)%nat /\ f = x mod 10 ^ Z.of_nat k.

Lemma fmtFrac_spec n v :
  0 <= v ->
  exists text k f, fmtFrac v n = (text, v / 10 ^ Z.of_nat n) /\ fraction text k f /\ (k <= n)%nat
    /\ v mod 10 ^ Z.of_nat n = f * 10 ^ Z.of_nat (n - k).
Proof.
  unfold fmtFrac. revert v. induction n as [|n IH]; intros v Hv; cbn [fmtFrac_loop orb].
  { exists "", O, 0. rewrite Z.div_1_r, Z.mod_1_r. split_and!; [done| |lia|done]. by left. }
  assert (0 <= v / 10) as Hv' by (apply Z.div_pos; lia).
  rewrite Nat2Z.inj_succ, Z.pow_succ_r, <- Z.div_div, Z.rem_mul_r by lia.
  destruct (Z.eqb_spec (v mod 10) 0) as [Hd|Hd]; cbn [negb].
  - destruct (IH _ Hv') as (text & k & f & Heq & Hf & Hk & Hm).
    exists text, k, f. split_and!; [done|done|lia|]. rewrite Hd, Hm.
    replace (S n - k)%nat with (S (n - k))%nat by lia.
    rewrite Nat2Z.inj_succ, Z.pow_succ_r by lia. ring.
  - rewrite fmtFrac_loop_print by done.
    exists ("." +:+ fixed (S n) v), (S n), (v mod 10 ^ Z.of_nat (S n)).
    split_and!; [done| |lia|].
    + right. exists v. split_and!; [done|lia|done].
    + replace (S n - S n)%nat with O by lia.
      rewrite Nat2Z.inj_succ, Z.pow_succ_r, Z.rem_mul_r by lia. cbn [Z.of_nat]. lia.
Qed.

(** ** Reading one component *)

(** A unit's text: not empty, without digits, and not a fraction. *)
Fixpoint no_digits (s : string) : Prop :=
  match s with EmptyString => True | String c s' => digit_value c = None /\ no_digits s' end.

Definition unit_text (u : string) : Prop :=
  no_digits u /\ u <> "" /\ forall rest, strip_prefix "." (u +:+ rest) = None.

(** [s] is empty or begins with a digit. *)
Definition next_number (s : string) : Prop :=
  match s with EmptyString => True | String c _ => is_Some (digit_value c) end.

Lemma read_unit_app u rest : no_digits u -> next_number rest -> read_unit (u +:+ rest) = (u, rest).
Proof.
  intros Hu Hr. induction u as [|c u IH]; cbn [String.append].
  - destruct rest as [|c rest]; [done|]. cbn. by destruct Hr as [? ->].
  - destruct Hu as [Hc Hu]. cbn. by rewrite Hc, IH.
Qed.

Lemma unit_text_stops u rest : unit_text u -> stops (u +:+ rest).
Proof. intros (Hd & Hne & _). destruct u; [done|]. apply Hd. Qed.

Lemma read_component_app n text k f u count prec rest :
  0 <= n < 10 ^ 20 -> fraction text k f -> unit_text u -> unit_of u = Some (count, prec) ->
  (k <= prec)%nat -> next_number rest ->
  read_component (FormatUint n +:+ text +:+ u +:+ rest)
  = Some (n * count * 10 ^ Z.of_nat prec + f * count * 10 ^ Z.of_nat (prec - k), rest).
Proof.
  intros Hn Hf Hu Hunit Hk Hr. pose proof (format_go_pos 20 n ltac:(lia) ltac:(lia)) as Hlen.
  unfold read_component, FormatUint. rewrite read_digits_format by (cbn; lia).
  destruct Hf as [(-> & -> & ->)|(x & -> & Hk0 & ->)]; cbn [String.append].
  - rewrite read_digits_stops by (by apply unit_text_stops).
    rewrite (proj2 (proj2 Hu)), read_unit_app by (done || apply Hu).
    rewrite Hunit. cbn [mbind option_bind]. rewrite decide_False by lia. done.
  - cbn [read_digits]. change (digit_value ".") with (@None Z). cbn iota beta.
    cbn [strip_prefix]. rewrite decide_True by done. cbn [strip_prefix].
    rewrite read_digits_fixed, read_digits_stops by (by apply unit_text_stops).
    rewrite read_unit_app by (done || apply Hu).
    rewrite Hunit. cbn [mbind option_bind]. rewrite decide_False by lia. done.
Qed.

(** More fuel does not change what is read. *)
Lemma read_components_more fuel s v fuel' :
  read_components fuel s = Some v -> (fuel <= fuel')%nat -> read_components fuel' s = Some v.
Proof.
  revert s v fuel'. induction fuel as [|fuel IH]; intros s v fuel' Hr Hle.
  { destruct s; [|done]. by destruct fuel'. }
  destruct fuel' as [|fuel']; [lia|]. cbn [read_components] in *. destruct s as [|c s]; [done|].
  destruct (read_component (String c s)) as [[x rest]|]; [|done]. cbn [mbind option_bind] in *.
  destruct (read_components fuel rest) as [y|] eqn:Hy; [|done]. rewrite (IH _ _ _ Hy) by lia. done.
Qed.

(** [s] reads as [v] nanoseconds. *)
Definition reads (s : string) (v : Z) : Prop := read_components (String.length s) s = Some v.

Lemma reads_nil : reads "" 0.
Proof. done. Qed.

Lemma reads_component n text k f u count prec rest v :
  0 <= n < 10 ^ 20 -> fraction text k f -> unit_text u -> unit_of u = Some (count, prec) ->
  (k <= prec)%nat -> next_number rest -> reads rest v ->
  reads (FormatUint n +:+ text +:+ u +:+ rest)
    (n * count * 10 ^ Z.of_nat prec + f * count * 10 ^ Z.of_nat (prec - k) + v).
Proof.
  intros Hn Hf Hu Hunit Hk Hr Hrest. unfold reads.
  pose proof (read_component_app n text k f u count prec rest Hn Hf Hu Hunit Hk Hr) as Hc.
  set (s := FormatUint n +:+ text +:+ u +:+ rest) in *.
  assert (String.length rest < String.length s)%nat as Hlen.
  { unfold s. rewrite !append_length. pose proof (format_go_pos 20 n). unfold FormatUint. lia. }
  destruct (String.length s) as [|fuel] eqn:Hl; [lia|].
  destruct s as [|c s']; [done|]. cbn [read_components]. rewrite Hc. cbn [mbind option_bind].
  by rewrite (read_components_more _ _ _ _ Hrest) by lia.
Qed.

(** A number without a fraction. *)
Lemma reads_whole n u count prec rest v :
  0 <= n < 10 ^ 20 -> unit_text u -> unit_of u = Some (count, prec) ->
  next_number rest -> reads rest v ->
  reads (FormatUint n +:+ u +:+ rest) (n * count * 10 ^ Z.of_nat prec + v).
Proof.
  intros Hn Hu Hunit Hr Hrest.
  pose proof (reads_component n "" 0 0 u count prec rest v Hn ltac:(by left) Hu Hunit
    ltac:(lia) Hr Hrest) as H. cbn [String.append] in H.
  eapply eq_trans; [exact H|]. f_equal. lia.
Qed.

Ltac unit_text := split_and!; [repeat split|done|done].

Lemma next_number_go k n s : 0 <= n -> next_number s -> next_number (format_go k n +:+ s).
Proof.
  revert n s. induction k as [|k IH]; intros n s Hn Hs; [done|]. cbn [format_go].
  assert (next_number (String (digit (n mod 10)) s)) as Hd.
  { cbn. rewrite digit_value_digit by (apply Z.mod_pos_bound; lia). eauto. }
  rewrite <- append_assoc. destruct (n <? 10); [done|]. apply IH; [apply Z.div_pos; lia|done].
Qed.

Lemma next_number_format n s : 0 <= n -> next_number (FormatUint n +:+ s).
Proof.
  intros Hn. unfold FormatUint. cbn [format_go]. rewrite <- append_assoc.
  assert (next_number (String (digit (n mod 10)) s)) as Hd.
  { cbn. rewrite digit_value_digit by (apply Z.mod_pos_bound; lia). eauto. }
  destruct (n <? 10); [done|]. apply (next_number_go 19); [apply Z.div_pos; lia|done].
Qed.

(** ** Suffixes *)

(** Closes [lacks] of a literal. *)
Ltac lacking := first [done | repeat split; done].

Lemma HasSuffix_lacks c t s : lacks c s -> HasSuffix s (String c t) = false.
Proof.
  intros Hl. unfold HasSuffix. destruct (CutSuffix s (String c t)) as [r []] eqn:Hc; [|done].
  apply CutSuffix_true in Hc. subst s. by apply lacks_occurs in Hl.
Qed.

Lemma HasSuffix_last c t a t1 :
  lacks c t -> lacks c t1 -> HasSuffix (a +:+ String c t1) (String c t) = bool_decide (t1 = t).
Proof.
  intros Ht Ht1. unfold HasSuffix. destruct (decide (t1 = t)) as [->|Hne].
  - by rewrite CutSuffix_app, bool_decide_eq_true_2.
  - rewrite bool_decide_eq_false_2 by done.
    destruct (CutSuffix (a +:+ String c t1) (String c t)) as [r []] eqn:Hc; [|done].
    apply CutSuffix_true in Hc. destruct Hne. by eapply last_occurrence.
Qed.

Lemma TrimSuffix_app s suf : TrimSuffix (s +:+ suf) suf = s.
Proof. unfold TrimSuffix. by rewrite CutSuffix_app. Qed.

Definition shorten (s : string) : string :=
  let s := if HasSuffix s "m0s" then TrimSuffix s "0s" else s in
  if HasSuffix s "h0m" then TrimSuffix s "0m" else s.

(** The three ways a text is shortened, or not. *)
Lemma shorten_none s : lacks "m" s -> shorten s = s.
Proof.
  intros Hm. unfold shorten. rewrite (HasSuffix_lacks "m") by done.
  unfold HasSuffix. destruct (CutSuffix s "h0m") as [r []] eqn:Hc; [|done].
  apply CutSuffix_true in Hc. subst s. change "h0m" with ("h0" +:+ "m") in Hm.
  rewrite append_assoc in Hm. by apply lacks_occurs in Hm.
Qed.

Lemma shorten_tail a t : lacks "m" t -> t <> "" -> t <> "0s" -> shorten (a +:+ String "m" t) = a +:+ String "m" t.
Proof.
  intros Hl Hne Ht. unfold shorten. rewrite HasSuffix_last, bool_decide_eq_false_2 by lacking.
  unfold HasSuffix. destruct (CutSuffix (a +:+ String "m" t) "h0m") as [r []] eqn:Hc; [|done].
  apply CutSuffix_true in Hc. change "h0m" with ("h0" +:+ String "m" "") in Hc.
  rewrite append_assoc in Hc. apply last_occurrence in Hc as [_ ->]; done.
Qed.

Lemma shorten_minutes a : lacks "h" a -> shorten (a +:+ "m0s") = a +:+ "m".
Proof.
  intros Hl. unfold shorten. rewrite HasSuffix_last, bool_decide_eq_true_2 by lacking.
  change "m0s" with ("m" +:+ "0s"). rewrite append_assoc, TrimSuffix_app.
  rewrite (HasSuffix_lacks "h"); [done|]. apply lacks_app. by repeat split.
Qed.

Lemma shorten_hours a m :
  lacks "h" m ->
  shorten (a +:+ "h" +:+ m +:+ "m0s") = if decide (m = "0") then a +:+ "h" else a +:+ "h" +:+ m +:+ "m".
Proof.
  intros Hl. unfold shorten.
  replace (a +:+ "h" +:+ m +:+ "m0s") with ((a +:+ "h" +:+ m) +:+ String "m" "0s")
    by (by rewrite <- !append_assoc).
  rewrite HasSuffix_last, bool_decide_eq_true_2 by lacking.
  replace ((a +:+ "h" +:+ m) +:+ String "m" "0s") with ((a +:+ String "h" (m +:+ "m")) +:+ "0s")
    by (rewrite <- !append_assoc; cbn [String.append]; by rewrite <- append_assoc).
  rewrite TrimSuffix_app, HasSuffix_last; [|by repeat split|apply lacks_app; by repeat split].
  case_decide as Hm.
  - subst m. rewrite bool_decide_eq_true_2 by done.
    change (String "h" ("0" +:+ "m")) with ("h" +:+ "0m"). by rewrite append_assoc, TrimSuffix_app.
  - rewrite bool_decide_eq_false_2; [done|]. intros He. apply Hm.
    by apply (append_inv_tail m "0" "m").
Qed.

(** ** The text of a duration reads as the duration *)

Lemma lacks_fraction c text k f : digit_value c = None -> c <> "."%char -> fraction text k f -> lacks c text.
Proof.
  intros Hc Hdot [(-> & _)|(x & -> & _)]; [done|]. cbn [String.append lacks].
  split; [by apply not_eq_sym|]. by apply lacks_fixed.
Qed.

Lemma lacks_FormatUint c n : digit_value c = None -> 0 <= n -> lacks c (FormatUint n).
Proof. apply lacks_format. Qed.

(** [b] is a text of [u] that a sign may precede. *)
Definition unsigned_text (b : string) (u : Z) : Prop := reads b u /\ next_number b /\ b <> "".

Lemma unsigned_number n s u : 0 <= n -> reads (FormatUint n +:+ s) u -> unsigned_text (FormatUint n +:+ s) u.
Proof.
  intros Hn Hr. split; [done|]. split; [by apply next_number_format|].
  intros He. pose proof (format_go_pos 20 n ltac:(lia) ltac:(lia)) as Hl.
  apply (f_equal String.length) in He. rewrite append_length in He. cbn [String.length] in He. unfold FormatUint in He. lia.
Qed.

(** The value of a number and its fraction, from the digits they came from. *)
Lemma fraction_value u prec f k :
  u mod 10 ^ Z.of_nat prec = f * 10 ^ Z.of_nat (prec - k) ->
  u / 10 ^ Z.of_nat prec * 1 * 10 ^ Z.of_nat prec + f * 1 * 10 ^ Z.of_nat (prec - k) + 0 = u.
Proof.
  intros Hm. rewrite Z.mul_1_r, Z.mul_1_r, <- Hm, Z.add_0_r.
  pose proof (Z.div_mod u (10 ^ Z.of_nat prec) ltac:(lia)). lia.
Qed.

Lemma small_unit u prec unit P :
  0 <= u < 10 ^ 20 -> unit_text unit -> unit_of unit = Some (1, prec) -> lacks "m" P ->
  (lacks "m" unit \/ unit = "ms") ->
  let '(frac, n) := fmtFrac u prec in
  let b := FormatUint n +:+ frac +:+ unit in
  shorten (P +:+ b) = P +:+ b /\ unsigned_text b u.
Proof.
  intros Hu Hunit Hof HP Hm. destruct (fmtFrac_spec prec u) as (text & k & f & -> & Hf & Hk & Hmod); [lia|].
  set (n := u / 10 ^ Z.of_nat prec). assert (0 <= n < 10 ^ 20) as Hn.
  { unfold n. split; [apply Z.div_pos; lia|]. apply Z.div_lt_upper_bound; nia. }
  split.
  - assert (lacks "m" (P +:+ FormatUint n +:+ text)) as Hl.
    { rewrite !lacks_app. split_and!; [done|apply lacks_FormatUint; [done|lia]|]. by eapply lacks_fraction. }
    replace (P +:+ FormatUint n +:+ text +:+ unit) with ((P +:+ FormatUint n +:+ text) +:+ unit)
      by (by rewrite <- !append_assoc).
    destruct Hm as [Hm| ->]; [apply shorten_none; by rewrite lacks_app|].
    by apply (shorten_tail _ "s").
  - apply unsigned_number; [lia|].
    rewrite <- (append_nil_r unit).
    pose proof (reads_component n text k f unit 1 prec "" 0 Hn Hf Hunit Hof Hk I reads_nil) as Hr.
    unfold n in Hr at 2. by rewrite fraction_value in Hr.
Qed.

Lemma small_text P u :
  0 <= u < Second -> lacks "m" P ->
  exists b, shorten (P +:+ format_small u) = P +:+ b /\ unsigned_text b u.
Proof.
  unfold Second, Millisecond. intros Hu HP. unfold format_small. destruct (Z.eqb_spec u 0) as [->|Hne].
  { exists "0s". split; [|by vm_compute; split_and!; eauto].
    apply shorten_none, lacks_app. split; [done|lacking]. }
  destruct (u <? Microsecond); [|destruct (u <? Millisecond)].
  - pose proof (small_unit u 0 "ns" P ltac:(lia) ltac:(unit_text) eq_refl HP ltac:(left; lacking)) as H.
    destruct (fmtFrac u 0). eauto.
  - pose proof (small_unit u 3 "µs" P ltac:(lia) ltac:(unit_text) eq_refl HP ltac:(left; lacking)) as H.
    destruct (fmtFrac u 3). eauto.
  - pose proof (small_unit u 6 "ms" P ltac:(lia) ltac:(unit_text) eq_refl HP ltac:(by right)) as H.
    destruct (fmtFrac u 6). eauto.
Qed.

(** The seconds of a text are "0s" only when there are none. *)
Lemma FormatUint_zero n : 0 <= n < 10 ^ 20 -> FormatUint n = "0" -> n = 0.
Proof.
  intros Hn He. pose proof (read_digits_format 20 n "" 0 ltac:(cbn; lia)) as Hr.
  rewrite append_nil_r in Hr. unfold FormatUint in He. rewrite He in Hr. change (read_digits "0" 0 0) with (0, 1%nat, "") in Hr. cbn [read_digits] in Hr. congruence.
Qed.

Lemma seconds_zero n text k f :
  0 <= n < 10 ^ 20 -> fraction text k f -> FormatUint n +:+ text +:+ "s" = "0s" -> n = 0 /\ text = "".
Proof.
  intros Hn [(-> & _)|(x & -> & _)] He.
  - split; [|done]. apply FormatUint_zero; [done|]. by apply (append_inv_tail _ "0" "s").
  - exfalso. assert (lacks "." "0s") as Hl by lacking. rewrite <- He in Hl.
    by apply (lacks_occurs "." (FormatUint n) (fixed k x +:+ "s")) in Hl.
Qed.

(** The parts of a text of hours, minutes and seconds. *)
Section large.
Variables (u : Z) (text : string) (f : Z) (kf : nat) (P : string).
Let secs := u / 10 ^ 9.
Let s := secs mod 60.
Let mins := secs / 60.
Let m := mins mod 60.
Let hours := mins / 60.
Hypothesis Hu : 0 <= u < 2 ^ 64.
Hypothesis Hf : fraction text kf f.
Hypothesis Hkf : (kf <= 9)%nat.
Hypothesis Hmod : u mod 10 ^ 9 = f * 10 ^ Z.of_nat (9 - kf).
Hypothesis HP : lacks "m" P /\ lacks "h" P.

Let S := FormatUint s +:+ text +:+ "s".

Lemma large_parts :
  0 <= s < 60 /\ 0 <= m < 60 /\ 0 <= mins < 10 ^ 20 /\ 0 <= hours < 10 ^ 20
  /\ u = hours * 3600 * 10 ^ 9 + m * 60 * 10 ^ 9 + (s * 10 ^ 9 + u mod 10 ^ 9)
  /\ mins = hours * 60 + m.
Proof.
  unfold hours, m, mins, s, secs.
  pose proof (Z.div_mod u (10 ^ 9) ltac:(lia)).
  pose proof (Z.div_mod (u / 10 ^ 9) 60 ltac:(lia)).
  pose proof (Z.div_mod (u / 10 ^ 9 / 60) 60 ltac:(lia)).
  pose proof (Z.mod_pos_bound u (10 ^ 9) ltac:(lia)).
  pose proof (Z.mod_pos_bound (u / 10 ^ 9) 60 ltac:(lia)).
  pose proof (Z.mod_pos_bound (u / 10 ^ 9 / 60) 60 ltac:(lia)).
  lia.
Qed.

Lemma seconds_reads : reads S (s * 10 ^ 9 + u mod 10 ^ 9).
Proof.
  destruct large_parts as (? & _).
  pose proof (reads_component s text kf f "s" 1 9 "" 0 ltac:(lia) Hf ltac:(unit_text) eq_refl Hkf I
    reads_nil) as Hr.
  rewrite append_nil_r in Hr. unfold reads, S in *. rewrite Hr. f_equal. rewrite Hmod.
  change (Z.of_nat 9) with 9. ring.
Qed.

Lemma minutes_reads rest v :
  next_number rest -> reads rest v ->
  reads (FormatUint m +:+ "m" +:+ rest) (m * 60 * 10 ^ 9 + v).
Proof. destruct large_parts as (? & ? & _). apply (reads_whole m "m" 60 9); [lia|unit_text|done]. Qed.

Lemma hours_reads rest v :
  next_number rest -> reads rest v ->
  reads (FormatUint hours +:+ "h" +:+ rest) (hours * 3600 * 10 ^ 9 + v).
Proof. destruct large_parts as (? & ? & ? & ? & _). apply (reads_whole hours "h" 3600 9); [lia|unit_text|done]. Qed.

Lemma S_lacks c : c <> "."%char -> c <> "s"%char -> digit_value c = None -> lacks c S.
Proof.
  destruct large_parts as (? & _). intros. unfold S. rewrite !lacks_app.
  split_and!; [apply lacks_FormatUint; [done|lia]|by eapply lacks_fraction|].
  split; [by apply not_eq_sym|done].
Qed.

(** Seconds only. *)
Lemma seconds_text : mins = 0 -> shorten (P +:+ S) = P +:+ S /\ unsigned_text S u.
Proof.
  intros Hm0. destruct large_parts as (? & ? & ? & ? & Hu' & ?). split.
  - apply shorten_none. rewrite lacks_app. split; [apply HP|by apply S_lacks].
  - apply unsigned_number; [lia|]. pose proof seconds_reads as Hr. unfold S in Hr.
    by replace (s * 10 ^ 9 + u mod 10 ^ 9) with u in Hr by lia.
Qed.

(** Whether the seconds are left out, and what is then read. *)
Lemma seconds_cases :
  S = "0s" /\ s * 10 ^ 9 + u mod 10 ^ 9 = 0 \/ S <> "0s" /\ S <> "".
Proof.
  destruct large_parts as (? & _). destruct (decide (S = "0s")) as [He|Hne]; [left|right].
  - split; [done|]. destruct (seconds_zero s text kf f ltac:(lia) Hf He) as [Hs Ht].
    destruct Hf as [(_ & _ & Hf0)|(x & Htx & _)]; [|by rewrite Ht in Htx]. rewrite Hmod, Hs, Hf0. lia.
  - split; [done|]. intros He. apply (f_equal String.length) in He. unfold S in He.
    rewrite !append_length in He. cbn [String.length] in He. lia.
Qed.

Lemma minutes_text :
  hours = 0 ->
  exists b, shorten (P +:+ FormatUint m +:+ "m" +:+ S) = P +:+ b /\ unsigned_text b u.
Proof.
  intros Hh. destruct large_parts as (Hs & Hm & ? & ? & Hu' & ?).
  assert (lacks "h" (P +:+ FormatUint m)) as Hl.
  { rewrite lacks_app. split; [apply HP|apply lacks_FormatUint; [done|lia]]. }
  destruct seconds_cases as [[-> Hz]|[Hne Hne']].
  - exists (FormatUint m +:+ "m"). rewrite append_assoc, shorten_minutes, <- append_assoc by done.
    split; [done|]. apply unsigned_number; [lia|].
    pose proof (minutes_reads "" 0 I reads_nil) as Hr. rewrite append_nil_r in Hr.
    by replace (m * 60 * 10 ^ 9 + 0) with u in Hr by lia.
  - exists (FormatUint m +:+ "m" +:+ S). split.
    + rewrite append_assoc. by apply shorten_tail; [apply S_lacks|..].
    + apply unsigned_number; [lia|].
      pose proof (minutes_reads S _ ltac:(apply next_number_format; lia) seconds_reads) as Hr.
      by replace (m * 60 * 10 ^ 9 + (s * 10 ^ 9 + u mod 10 ^ 9)) with u in Hr by lia.
Qed.

Lemma hours_text :
  exists b, shorten (P +:+ FormatUint hours +:+ "h" +:+ FormatUint m +:+ "m" +:+ S) = P +:+ b
    /\ unsigned_text b u.
Proof.
  destruct large_parts as (Hs & Hm & ? & ? & Hu' & ?).
  assert (lacks "h" (FormatUint m)) as Hl by (apply lacks_FormatUint; [done|lia]).
  destruct seconds_cases as [[-> Hz]|[Hne Hne']].
  - change ("m" +:+ "0s") with "m0s". rewrite append_assoc, shorten_hours by done.
    case_decide as Hm0.
    + exists (FormatUint hours +:+ "h"). rewrite <- append_assoc. split; [done|].
      apply FormatUint_zero in Hm0; [|lia]. apply unsigned_number; [lia|].
      pose proof (hours_reads "" 0 I reads_nil) as Hr. rewrite append_nil_r in Hr.
      by replace (hours * 3600 * 10 ^ 9 + 0) with u in Hr by lia.
    + exists (FormatUint hours +:+ "h" +:+ FormatUint m +:+ "m"). rewrite <- append_assoc.
      split; [done|]. apply unsigned_number; [lia|].
      pose proof (minutes_reads "" 0 I reads_nil) as Hr. rewrite append_nil_r in Hr.
      apply hours_reads in Hr; [|apply next_number_format; lia].
      by replace (hours * 3600 * 10 ^ 9 + (m * 60 * 10 ^ 9 + 0)) with u in Hr by lia.
  - exists (FormatUint hours +:+ "h" +:+ FormatUint m +:+ "m" +:+ S). split.
    + replace (P +:+ FormatUint hours +:+ "h" +:+ FormatUint m +:+ "m" +:+ S)
        with ((P +:+ FormatUint hours +:+ "h" +:+ FormatUint m) +:+ String "m" S)
        by (by rewrite <- !append_assoc).
      by apply shorten_tail; [apply S_lacks|..].
    + apply unsigned_number; [lia|].
      pose proof (minutes_reads S _ ltac:(apply next_number_format; lia) seconds_reads) as Hr.
      apply hours_reads in Hr; [|apply next_number_format; lia].
      by replace (hours * 3600 * 10 ^ 9 + (m * 60 * 10 ^ 9 + (s * 10 ^ 9 + u mod 10 ^ 9)))
        with u in Hr by lia.
Qed.
End large.

Lemma large_text P u :
  0 <= u < 2 ^ 64 -> lacks "m" P /\ lacks "h" P ->
  exists b, shorten (P +:+ format_large u) = P +:+ b /\ unsigned_text b u.
Proof.
  intros Hu HP. unfold format_large.
  destruct (fmtFrac_spec 9 u) as (text & k & f & -> & Hf & Hk & Hmod); [lia|].
  change (Z.of_nat 9) with 9 in *.
  destruct (Z.eqb_spec (u / 10 ^ 9 / 60) 0) as [Hm|Hm].
  { eexists. by eapply seconds_text. }
  destruct (Z.eqb_spec (u / 10 ^ 9 / 60 / 60) 0) as [Hh|Hh]; rewrite <- !append_assoc.
  - by eapply minutes_text.
  - by eapply hours_text.
Qed.

Lemma body_text P u :
  0 <= u < 2 ^ 64 -> lacks "m" P /\ lacks "h" P ->
  exists b, shorten (P +:+ if u <? Second then format_small u else format_large u) = P +:+ b
    /\ unsigned_text b u.
Proof.
  intros Hu HP. destruct (Z.ltb_spec u Second); [apply small_text; [lia|apply HP]|by apply large_text].
Qed.

Lemma read_formatDuration d :
  - 2 ^ 63 <= d < 2 ^ 63 -> read_duration (formatDuration d) = Some d.
Proof.
  intros Hd. change (formatDuration d) with (shorten (Duration_String d)).
  unfold Duration_String. destruct (Z.ltb_spec d 0) as [Hneg|Hpos].
  - replace (u64 (- u64 d)) with (- d).
    2: { unfold u64. rewrite <- (Z.mod_unique d (2 ^ 64) (-1) (d + 2 ^ 64)) by lia.
         rewrite <- (Z.mod_unique (- (d + 2 ^ 64)) (2 ^ 64) (-1) (- d)); lia. }
    destruct (body_text "-" (- d)) as (b & -> & Hr & Hn & Hne); [lia|by repeat split|].
    cbn [String.append read_duration strip_prefix]. rewrite decide_True by done.
    cbn [strip_prefix]. rewrite Hr. cbn. f_equal. lia.
  - rewrite u64_small by (unfold is_u64; lia).
    destruct (body_text "" d) as (b & Hb & Hr & Hn & Hne); [lia|done|].
    change ("" +:+ ?x) with x in Hb. rewrite Hb. change ("" +:+ b) with b. destruct b as [|c b]; [done|].
    unfold read_duration. cbn [strip_prefix]. rewrite decide_False; [exact Hr|].
    intros <-. by destruct Hn.
Qed.

(** ** What is left out *)

Fixpoint last_byte (s : string) : option ascii :=
  match s with
  | EmptyString => None
  | String c s' => match s' with EmptyString => Some c | _ => last_byte s' end
  end.

Lemma last_byte_app a b : b <> "" -> last_byte (a +:+ b) = last_byte b.
Proof.
  intros Hb. induction a as [|c a IH]; [done|]. cbn [String.append last_byte].
  destruct (a +:+ b) eqn:E; [|done]. by destruct a, b.
Qed.

Lemma HasSuffix_true s suf : HasSuffix s suf = true -> exists a, s = a +:+ suf.
Proof.
  unfold HasSuffix. destruct (CutSuffix s suf) as [r b] eqn:Hc. cbn. intros ->.
  exists r. by apply CutSuffix_true.
Qed.

Lemma HasSuffix_last_byte s suf : suf <> "" -> last_byte s <> last_byte suf -> HasSuffix s suf = false.
Proof.
  intros Hs Hl. destruct (HasSuffix s suf) eqn:Hh; [|done]. destruct Hl.
  apply HasSuffix_true in Hh as [a ->]. by apply last_byte_app.
Qed.

Lemma shorten_shape s :
  last_byte s = Some "s"%char ->
  HasSuffix (shorten s) "m0s" = false /\ HasSuffix (shorten s) "h0m" = false
  /\ exists z, z ∈ ["0m0s"; "0s"; ""] /\ s = shorten s +:+ z.
Proof.
  intros Hs. unfold shorten. destruct (HasSuffix s "m0s") eqn:Hm.
  - apply HasSuffix_true in Hm as [a ->]. change "m0s" with ("m" +:+ "0s").
    rewrite append_assoc, TrimSuffix_app. destruct (HasSuffix (a +:+ "m") "h0m") eqn:Hh.
    + apply HasSuffix_true in Hh as [b ->]. change "h0m" with ("h" +:+ "0m").
      rewrite append_assoc, TrimSuffix_app.
      split_and!; [apply HasSuffix_last_byte; [done|by rewrite last_byte_app]..|].
      exists "0m0s". split; [set_solver|]. by rewrite <- !append_assoc.
    + split_and!; [apply HasSuffix_last_byte; [done|by rewrite last_byte_app]|done|].
      exists "0s". split; [set_solver|done].
  - assert (HasSuffix s "h0m" = false) as Hh by (apply HasSuffix_last_byte; [done|by rewrite Hs]).
    rewrite Hh. split_and!; [done..|]. exists "". split; [set_solver|]. by rewrite append_nil_r.
Qed.

Lemma last_byte_unit a b u : u <> "" -> last_byte (a +:+ b +:+ u) = last_byte u.
Proof. intros Hu. rewrite append_assoc. by apply last_byte_app. Qed.

Lemma format_small_last u : last_byte (format_small u) = Some "s"%char.
Proof.
  unfold format_small. destruct (u =? 0); [done|].
  destruct (u <? Microsecond); [|destruct (u <? Millisecond)]; destruct (fmtFrac u _);
    by rewrite last_byte_unit.
Qed.

Lemma format_large_last u : last_byte (format_large u) = Some "s"%char.
Proof.
  unfold format_large. destruct (fmtFrac u 9) as [frac secs].
  set (s := FormatUint (secs mod 60) +:+ frac +:+ "s").
  assert (last_byte s = Some "s"%char) as Hs by (by unfold s; rewrite last_byte_unit).
  assert (s <> "") as Hne by (intros He; by rewrite He in Hs).
  destruct (secs / 60 =? 0); [done|]. destruct (secs / 60 / 60 =? 0).
  - by rewrite last_byte_app.
  - rewrite append_assoc. by rewrite last_byte_unit.
Qed.

Lemma Duration_String_last d : last_byte (Duration_String d) = Some "s"%char.
Proof.
  assert (forall u, last_byte (if u <? Second then format_small u else format_large u) = Some "s"%char) as Hu.
  { intros u. destruct (u <? Second); [apply format_small_last|apply format_large_last]. }
  unfold Duration_String. destruct (d <? 0); [|apply Hu]. rewrite last_byte_app; [apply Hu|].
  intros He. specialize (Hu (u64 (- u64 d))). by rewrite He in Hu.
Qed.

(** C37: Durations written in configuration mean what they say, in the short
    form: the text of every [time.Duration], read as a sequence of decimal
    numbers with units, is that duration to the nanosecond, the smallest one
    included, whose absolute value is not an [int64]. It is the text of package
    time less "0s" or "0m0s" at its end or nothing, and it never ends in a
    zero number of seconds after minutes or of minutes after hours. *)
Theorem formatDuration_reads d :
  - 2 ^ 63 <= d < 2 ^ 63 ->
  read_duration (formatDuration d) = Some d
  /\ HasSuffix (formatDuration d) "m0s" = false /\ HasSuffix (formatDuration d) "h0m" = false
  /\ exists z, z ∈ ["0m0s"; "0s"; ""] /\ Duration_String d = formatDuration d +:+ z.
Proof.
  intros Hd. split; [by apply read_formatDuration|].
  apply (shorten_shape (Duration_String d)), Duration_String_last.
Qed.

Lemma formatDuration_reads_witness :
  formatDuration (90 * Minute) = "1h30m" /\ read_duration (formatDuration (90 * Minute)) = Some (90 * Minute).
Proof.
  split; [vm_compute; reflexivity|]. apply (formatDuration_reads (90 * Minute)).
  unfold Minute, Second, Millisecond. lia.
Defined.
