(* ===== verification/Regexp.v ===== *)
(** * Regular expressions (what load.go uses of package regexp)

    An anchored expression over bytes, the language it denotes, and a matcher
    by derivatives that decides it. *)

From stdpp Require Import prelude strings list.
From Stdlib Require Import Ascii Bool.
From S2P Require Import Prelude GoStrings.

Local Open Scope string_scope.
Local Arguments String.append !_ _ / : simpl nomatch.

Inductive re :=
| Void
| Nothing
| Class (p : ascii -> bool)
| Seq (r1 r2 : re)
| Alt (r1 r2 : re)
| Many (r : re).

(** [r?], [r+] and a literal. *)
Definition Opt (r : re) : re := Alt r Nothing.
Definition Some1 (r : re) : re := Seq r (Many r).
Definition Byte (c : ascii) : re := Class (fun x => bool_decide (x = c)).
Fixpoint Lit (s : string) : re :=
  match s with EmptyString => Nothing | String c s' => Seq (Byte c) (Lit s') end.

Inductive lang : re -> string -> Prop :=
| lang_nothing : lang Nothing ""
| lang_class p c : p c = true -> lang (Class p) (String c "")
| lang_seq r1 r2 s1 s2 : lang r1 s1 -> lang r2 s2 -> lang (Seq r1 r2) (s1 +:+ s2)
| lang_alt_l r1 r2 s : lang r1 s -> lang (Alt r1 r2) s
| lang_alt_r r1 r2 s : lang r2 s -> lang (Alt r1 r2) s
| lang_many_nil r : lang (Many r) ""
| lang_many_cons r s1 s2 : lang r s1 -> lang (Many r) s2 -> lang (Many r) (s1 +:+ s2).

Fixpoint nullable (r : re) : bool :=
  match r with
  | Void | Class _ => false
  | Nothing | Many _ => true
  | Seq r1 r2 => nullable r1 && nullable r2
  | Alt r1 r2 => nullable r1 || nullable r2
  end.

(** What must follow the byte [c]. *)
Fixpoint deriv (c : ascii) (r : re) : re :=
  match r with
  | Void | Nothing => Void
  | Class p => if p c then Nothing else Void
  | Seq r1 r2 =>
      if nullable r1 then Alt (Seq (deriv c r1) r2) (deriv c r2) else Seq (deriv c r1) r2
  | Alt r1 r2 => Alt (deriv c r1) (deriv c r2)
  | Many r => Seq (deriv c r) (Many r)
  end.

(** [^r$] matches the whole of [s]. *)
Fixpoint MatchString (r : re) (s : string) : bool :=
  match s with
  | EmptyString => nullable r
  | String c s' => MatchString (deriv c r) s'
  end.

(** ** The matcher decides the language *)

Lemma append_nil_inv s t : s +:+ t = "" -> s = "" /\ t = "".
Proof. by destruct s; cbn. Qed.

Lemma nullable_lang r : nullable r = true <-> lang r "".
Proof.
  split.
  - induction r as [| |p|r1 IH1 r2 IH2|r1 IH1 r2 IH2|r IH]; cbn; try done; intros H.
    + constructor.
    + apply andb_true_iff in H as [H1 H2].
      exact (lang_seq r1 r2 "" "" (IH1 H1) (IH2 H2)).
    + apply orb_true_iff in H as [H|H]; [by apply lang_alt_l, IH1|by apply lang_alt_r, IH2].
    + constructor.
  - remember "" as s eqn:Hs. induction 1 as [|p c Hc|r1 r2 s1 s2 _ IH1 _ IH2|r1 r2 s _ IH|r1 r2 s _ IH| |r s1 s2 _ IH1 _ IH2];
      cbn; try done.
    + apply append_nil_inv in Hs as [-> ->]. by rewrite IH1, IH2.
    + by rewrite IH.
    + rewrite IH by done. apply orb_true_r.
Qed.

Lemma deriv_sound c r s : lang (deriv c r) s -> lang r (String c s).
Proof.
  revert s. induction r as [| |p|r1 IH1 r2 IH2|r1 IH1 r2 IH2|r IH]; intros s; cbn; intros H.
  - inversion H.
  - inversion H.
  - destruct (p c) eqn:Hp; inversion H; subst. by constructor.
  - destruct (nullable r1) eqn:Hn; [inversion H as [| | |? ? ? H'|? ? ? H'| |]; subst|].
    + inversion H' as [| |? ? s1 s2 Hs1 Hs2| | | |]; subst.
      exact (lang_seq _ _ (String c s1) s2 (IH1 _ Hs1) Hs2).
    + apply nullable_lang in Hn. exact (lang_seq _ _ "" (String c s) Hn (IH2 _ H')).
    + inversion H as [| |? ? s1 s2 Hs1 Hs2| | | |]; subst.
      exact (lang_seq _ _ (String c s1) s2 (IH1 _ Hs1) Hs2).
  - inversion H; subst; [apply lang_alt_l; auto|apply lang_alt_r; auto].
  - inversion H as [| |? ? s1 s2 Hs1 Hs2| | | |]; subst.
    exact (lang_many_cons r (String c s1) s2 (IH _ Hs1) Hs2).
Qed.

Lemma deriv_complete c r s : lang r (String c s) -> lang (deriv c r) s.
Proof.
  intros H. remember (String c s) as t eqn:Ht. revert c s Ht.
  induction H as [|p c Hc|r1 r2 s1 s2 H1 IH1 H2 IH2|r1 r2 s _ IH|r1 r2 s _ IH| |r s1 s2 H1 IH1 H2 IH2];
    intros c' s' Ht; cbn.
  - done.
  - injection Ht as -> <-. rewrite Hc. constructor.
  - destruct s1 as [|a s1]; cbn [String.append] in Ht.
    + rewrite (proj2 (nullable_lang r1) H1). apply lang_alt_r. by apply IH2.
    + injection Ht as -> <-. pose proof (lang_seq _ _ _ _ (IH1 _ _ eq_refl) H2).
      destruct (nullable r1); [by apply lang_alt_l|done].
  - apply lang_alt_l. eauto.
  - apply lang_alt_r. eauto.
  - done.
  - destruct s1 as [|a s1]; cbn [String.append] in Ht; [by apply IH2 in Ht|].
    injection Ht as -> <-. exact (lang_seq _ _ _ _ (IH1 _ _ eq_refl) H2).
Qed.

Lemma MatchString_lang r s : MatchString r s = true <-> lang r s.
Proof.
  revert r. induction s as [|c s IH]; intros r; cbn; [apply nullable_lang|].
  rewrite IH. split; [apply deriv_sound|apply deriv_complete].
Qed.

Lemma lang_Lit t s : lang (Lit t) s <-> s = t.
Proof.
  split.
  - revert s. induction t as [|c t IH]; cbn; intros s H.
    + by inversion H.
    + inversion H as [| |? ? s1 s2 H1 H2| | | |]; subst. inversion H1 as [|? ? Hc| | | | |]; subst.
      apply bool_decide_eq_true in Hc. subst. by rewrite (IH _ H2).
  - intros ->. induction t as [|c t IH]; cbn; [constructor|].
    apply (lang_seq _ _ (String c "") t); [|done]. constructor. by apply bool_decide_eq_true.
Qed.
