(* ===== verification/ConfigLoad.v ===== *)
(** * Loading a configuration (internal/config/load.go)

    The sources of a configuration are applied in order to a koanf store. The
    libraries koanf (with its YAML parser) and pflag are the classes [Koanf]
    and [PFlag] of the calls the source makes; [KoanfLaws] states what koanf
    documents of them. *)

From stdpp Require Import prelude gmap strings list sorting.
From Stdlib Require Import ZArith Lia Ascii.
From S2P Require Import Prelude GoStrings Regexp Kverr Config ConfigKeys ConfigRules ConfigSpec.

Local Open Scope string_scope.

(** ** Dynamic values

    An [any]: a value of one of the configuration's types, or what else a YAML
    document may hold. *)
Inductive any :=
| ANil
| AValue (v : value)
| AMap (m : list (string * any))
| AList (l : list any).

(** ** The libraries *)

Class Koanf (K : Type) := {
  k_New : K;
  k_Set : string -> any -> K -> result error K;
  k_Keys : K -> list string;
  k_Get : string -> K -> any;
  (** [Load(file.Provider(path), yaml.Parser())] *)
  k_LoadFile : string -> K -> result error K;
  k_Unmarshal : K -> result error Config;
  (** [Marshal(yaml.Parser())] *)
  k_Marshal : K -> result error string;
}.

(** A flag that was set: its name, the text of its value, and its items when
    it is a [SliceValue]. *)
Record Flag := mkFlag { Flag_Name : string; Flag_String : string; Flag_Slice : option (list string) }.

Class PFlag (FS : Type) := {
  fs_Visit : FS -> list Flag;
  fs_Duration : string -> Z -> string -> FS -> FS;
  fs_StringSlice : string -> list string -> string -> FS -> FS;
  fs_StringVar : string -> string -> string -> FS -> FS;
  fs_Bool : string -> bool -> string -> FS -> FS;
  fs_Int : string -> Z -> string -> FS -> FS;
  fs_Int64 : string -> Z -> string -> FS -> FS;
  fs_Uint32 : string -> Z -> string -> FS -> FS;
  fs_Float64 : string -> float64 -> string -> FS -> FS;
}.

(** ** Variables injected by Kubernetes *)

Definition name_byte (c : ascii) : bool :=
  let n := N_of_ascii c in
  (65 <=? n)%N && (n <=? 90)%N || (48 <=? n)%N && (n <=? 57)%N || (n =? 95)%N.
Definition digit_byte (c : ascii) : bool :=
  let n := N_of_ascii c in (48 <=? n)%N && (n <=? 57)%N.

(** [^[A-Z0-9_]+_(SERVICE_HOST|SERVICE_PORT(_[A-Z0-9_]+)?|PORT(_[0-9]+_(TCP|UDP|SCTP)(_(PROTO|PORT|ADDR))?)?)$] *)
Definition kubernetesServiceLink : re :=
  Seq (Some1 (Class name_byte)) (Seq (Byte "_")
    (Alt (Lit "SERVICE_HOST")
    (Alt (Seq (Lit "SERVICE_PORT") (Opt (Seq (Byte "_") (Some1 (Class name_byte)))))
         (Seq (Lit "PORT")
           (Opt (Seq (Byte "_") (Seq (Some1 (Class digit_byte)) (Seq (Byte "_")
             (Seq (Alt (Lit "TCP") (Alt (Lit "UDP") (Lit "SCTP")))
               (Opt (Seq (Byte "_") (Alt (Lit "PROTO") (Alt (Lit "PORT") (Lit "ADDR")))))))))))))).

Example service_links :
  MatchString kubernetesServiceLink "GOKVX_CLIENT_SERVICE_HOST" = true
  /\ MatchString kubernetesServiceLink "GOKVX_CLIENT_PORT_2379_TCP" = true
  /\ MatchString kubernetesServiceLink "GOKVX_CLIENT_PORT_2379_TCP_ADDR" = true
  /\ MatchString kubernetesServiceLink "GOKVX_PEER_SERVICE_PORT_GRPC" = true
  /\ MatchString kubernetesServiceLink "GOKVX_STORAGE_FSYNK" = false
  /\ MatchString kubernetesServiceLink "GOKVX_CLIENT_PORT_x_TCP" = false.
Proof. vm_compute. repeat split. Qed.

(** ** Load *)

Section load.
Context {K FS : Type} `{Koanf K} `{PFlag FS}.

Record Options := mkOptions { File : string; Environ : list string; Flags : option FS }.

(** The store being filled, and the unknown keys found so far. *)
Record loader := mkLoader { ld_k : K; ld_v : list FieldViolation }.
Abbreviation LD := (M error loader).

Definition set (key : string) (v : any) : LD unit := fun s =>
  match k_Set key v (ld_k s) with
  | Ok k => (Ok tt, mkLoader k (ld_v s))
  | Err err =>
      (Err (kv (Wrap ReasonInternal (Some err) ("configuration key could not be set: " +:+ key))), s)
  end.

Definition violation (key description : string) : LD unit :=
  modify (fun s => mkLoader (ld_k s) (add key description (ld_v s))).

(** [f.valueOf(&cfg).Interface()] *)
Definition interface (f : field) (cfg : Config) : any :=
  match valueOf f cfg with Some v => AValue v | None => ANil end.

Fixpoint each {A} (l : list A) (body : A -> LD unit) : LD unit :=
  match l with
  | [] => mret tt
  | x :: l' => body x;; each l' body
  end.

Definition setDefaults : LD unit := each fields (fun f => set (key f) (interface f Defaults)).

Definition isKey (key : string) : bool := bool_decide (is_Some (fieldsByKey !! key)).

Definition isEmptySection (v : any) : bool :=
  match v with
  | ANil => true
  | AMap m => bool_decide (m = [])
  | _ => false
  end.

(** The body of the loop of [loadFile]. *)
Definition apply_file_key (src : K) (key : string) : LD unit :=
  let v := k_Get key src in
  if isKey key then set key v
  else if bool_decide (key ∈ sections) && isEmptySection v then mret tt
  else if bool_decide (key ∈ sections) then
    violation key "is a section and takes nested keys, not a value"
  else violation key "is not a configuration key".

Definition loadFile (path : string) : LD unit :=
  match k_LoadFile path k_New with
  | Err err => fail (kv (Wrap ReasonInvalidArgument (Some err) "configuration file could not be read"))
  | Ok src => each (k_Keys src) (apply_file_key src)
  end.

Definition parseEnvValue (f : field) (v : string) : any :=
  if negb (isList f) then AValue (VString v)
  else AValue (VStrings (filter (fun item => item <> "") (TrimSpace <$> Split v ","))).

(** The body of the loop of [loadEnv]. *)
Definition apply_env (entry : string) : LD unit :=
  let '(name, v, _) := Cut entry "=" in
  if negb (HasPrefix name envPrefix) then mret tt
  else match fieldsByEnv !! name with
       | None =>
           if MatchString kubernetesServiceLink name then mret tt
           else violation name "is not a configuration variable"
       | Some f => set (key f) (parseEnvValue f v)
       end.

Definition loadEnv (environ : list string) : LD unit := each environ apply_env.

(** The callback of [loadFlags]; after an error it does nothing more. *)
Definition apply_flag (fl : Flag) : LD unit :=
  match fieldsByKey !! Flag_Name fl with
  | None => mret tt
  | Some f =>
      set (key f) (match Flag_Slice fl with
                   | Some l => AValue (VStrings l)
                   | None => AValue (VString (Flag_String fl))
                   end)
  end.

Definition loadFlags (fs : FS) : LD unit := each (fs_Visit fs) apply_flag.

Definition load_sources (opts : Options) : LD unit :=
  setDefaults;;
  (if decide (File opts <> "") then loadFile (File opts) else mret tt);;
  loadEnv (Environ opts);;
  match Flags opts with Some fs => loadFlags fs | None => mret tt end.

Definition Load (opts : Options) : result error Config :=
  match load_sources opts (mkLoader k_New []) with
  | (Err err, _) => Err err
  | (Ok _, s) =>
      match violations_err (ld_v s) "configuration contains unknown keys" with
      | Some err => Err err
      | None =>
          match k_Unmarshal (ld_k s) with
          | Err err =>
              Err (kv (Wrap ReasonInvalidArgument (Some err)
                         "configuration has a value of the wrong type"))
          | Ok cfg => Ok cfg
          end
      end
  end.

(** ** Flags *)

(** How [fmt] prints a type that has no flag. *)
Variable rtype_String : rtype -> string.

Definition defineFlag (fs : FS) (f : field) (def : any) (usage : string) : result error FS :=
  match typ f, def with
  | TDuration, AValue (VDuration d) => Ok (fs_Duration (key f) d usage fs)
  | TStrings, AValue (VStrings l) => Ok (fs_StringSlice (key f) l usage fs)
  | TString, AValue (VString s) => Ok (fs_StringVar (key f) s usage fs)
  | TBool, AValue (VBool b) => Ok (fs_Bool (key f) b usage fs)
  | TInt, AValue (VInt z) => Ok (fs_Int (key f) z usage fs)
  | TInt64, AValue (VInt64 z) => Ok (fs_Int64 (key f) z usage fs)
  | TUint32, AValue (VUint32 z) => Ok (fs_Uint32 (key f) z usage fs)
  | TFloat64, AValue (VFloat64 x) => Ok (fs_Float64 (key f) x usage fs)
  | t, _ =>
      Err (kv (New ReasonInternal ("configuration key " +:+ key f +:+ " has unsupported type "
                                   +:+ rtype_String t)))
  end.

Fixpoint define_flags (l : list field) (fs : FS) : result error FS :=
  match l with
  | [] => Ok fs
  | f :: l' =>
      match defineFlag fs f (interface f Defaults)
              ("sets " +:+ key f +:+ " (environment: " +:+ envName f +:+ ")") with
      | Err err => Err err
      | Ok fs' => define_flags l' fs'
      end
  end.

Definition RegisterFlags (fs : FS) : result error FS := define_flags fields fs.
End load.

Arguments Options FS : clear implicits.
Arguments loader K : clear implicits.
Arguments mkLoader {K} _ _.
Arguments mkOptions {FS} _ _ _.
