(* ===== verification/LoadTheorems.v ===== *)
(** * What loading a configuration yields

    The laws of koanf the source relies on, the assignments each source makes,
    and the claim that [Load] applies them in the documented precedence and
    refuses exactly the unknown keys. *)

From stdpp Require Import prelude gmap strings list sorting.
From Stdlib Require Import ZArith Lia Ascii.
From S2P Require Import Prelude GoStrings Regexp Kverr Config ConfigKeys ConfigRules ConfigSpec Durations ConfigLoad.


(** ** What koanf documents

    [Set] stores a value under a key and nowhere else, and [Unmarshal] decodes
    the value under the tag of each field into it, failing when some value has
    the wrong type. [decode] is the decoder for one field. *)
Class KoanfLaws (K : Type) `{Koanf K} := {
  decode : rtype -> any -> option value;
  new_keys : k_Keys k_New = [];
  set_get key v k k' : k_Set key v k = Ok k' -> k_Get key k' = v;
  set_other key key' v k k' :
    k_Set key v k = Ok k' -> unrelated key key' -> k_Get key' k' = k_Get key' k;
  unmarshal_ok k cfg :
    k_Unmarshal k = Ok cfg ->
    forall f, f ∈ fields -> exists v, decode (typ f) (k_Get (key f) k) = Some v /\ valueOf f cfg = Some v;
  unmarshal_err k err :
    k_Unmarshal k = Err err ->
    exists f, f ∈ fields /\ decode (typ f) (k_Get (key f) k) = None;
}.

(** The tables are large; the proofs use their lemmas. *)
Local Opaque fields fieldsByKey fieldsByEnv sections kubernetesServiceLink.

Lemma omap_none {A B} (l : list A) : omap (fun _ : A => @None B) l = [].
Proof. by induction l. Qed.

Lemma Err_inj {E A} (e1 e2 : E) : @Err E A e1 = Err e2 -> e1 = e2.
Proof. by intros [= ->]. Qed.

Section load_spec.
Context {K FS : Type} `{KoanfLaws K} `{PFlag FS}.

(** ** Assignments *)

Definition assignment : Type := string * any.

Definition default_assignments : list assignment := (fun f => (key f, interface f Defaults)) <$> fields.

Definition file_assignments (src : K) : list assignment :=
  (fun k => (k, k_Get k src)) <$> filter (fun k => isKey k = true) (k_Keys src).

Definition env_assignment (entry : string) : option assignment :=
  let '(name, v, _) := Cut entry "=" in
  if HasPrefix name envPrefix then (fun f => (key f, parseEnvValue f v)) <$> fieldsByEnv !! name
  else None.

Definition flag_assignment (fl : Flag) : option assignment :=
  (fun f => (key f, match Flag_Slice fl with
                    | Some l => AValue (VStrings l)
                    | None => AValue (VString (Flag_String fl))
                    end)) <$> fieldsByKey !! Flag_Name fl.

Definition flag_assignments (fs : option FS) : list assignment :=
  match fs with Some fs => omap flag_assignment (fs_Visit fs) | None => [] end.

(** The last value a list of assignments gives a key. *)
Fixpoint assigned (k : string) (l : list assignment) : option any :=
  match l with
  | [] => None
  | (k', v) :: l' =>
      match assigned k l' with
      | Some v' => Some v'
      | None => if decide (k' = k) then Some v else None
      end
  end.

(** The value of a key: from the flags, else the environment, else the file,
    else the defaults. *)
Definition effective (opts : Options FS) (src : K) (k : string) : any :=
  default ANil
    (union (assigned k (flag_assignments (Flags opts)))
    (union (assigned k (omap env_assignment (Environ opts)))
    (union (assigned k (file_assignments src))
           (assigned k default_assignments)))).

(** ** Unknown keys *)

Definition unknown_file_key (src : K) (k : string) : option FieldViolation :=
  if isKey k then None
  else if bool_decide (k ∈ sections) then
    if isEmptySection (k_Get k src) then None
    else Some (Violation k "is a section and takes nested keys, not a value")
  else Some (Violation k "is not a configuration key").

(** A GOKVX variable that is neither a key's nor one Kubernetes injects. *)
Definition unknown_env (entry : string) : option FieldViolation :=
  let '(name, _, _) := Cut entry "=" in
  if HasPrefix name envPrefix && bool_decide (fieldsByEnv !! name = None)
     && negb (MatchString kubernetesServiceLink name)
  then Some (Violation name "is not a configuration variable") else None.

Definition unknown (opts : Options FS) (src : K) : list FieldViolation :=
  omap (unknown_file_key src) (k_Keys src) ++ omap unknown_env (Environ opts).

(** [src] holds the configuration file, and nothing when there is none. *)
Definition opened (opts : Options FS) (src : K) : Prop :=
  if decide (File opts <> "") then k_LoadFile (File opts) k_New = Ok src else k_Keys src = [].

(** ** Stages *)

(** The assignments of a stage, one after the other. *)
Fixpoint set_all (l : list assignment) (k : K) : result error K :=
  match l with
  | [] => Ok k
  | (key, v) :: l' =>
      match k_Set key v k with
      | Ok k' => set_all l' k'
      | Err err => Err (kv (Wrap ReasonInternal (Some err) ("configuration key could not be set: " +:+ key)))
      end
  end.

(** A stage makes assignments and finds unknown keys. *)
Definition stage (m : M error (loader K) unit) (l : list assignment) (new : list FieldViolation) : Prop :=
  forall k v, match set_all l k with
              | Ok k' => m (mkLoader k v) = (Ok tt, mkLoader k' (v ++ new))
              | Err err => exists s, m (mkLoader k v) = (Err err, s)
              end.

Lemma set_all_app l1 l2 k :
  set_all (l1 ++ l2) k = match set_all l1 k with Ok k' => set_all l2 k' | Err err => Err err end.
Proof. revert k. induction l1 as [|[key v] l1 IH]; intros k; cbn; [done|]. by destruct (k_Set key v k). Qed.

Lemma stage_skip : stage (mret tt) [] [].
Proof. intros k v. cbn. by rewrite app_nil_r. Qed.

Lemma stage_violation key d : stage (violation key d) [] [Violation key d].
Proof. intros k v. done. Qed.

Lemma stage_set key x : stage (set key x) [(key, x)] [].
Proof.
  intros k v. cbn. unfold set. cbn. destruct (k_Set key x k); [by rewrite app_nil_r|eauto].
Qed.

Lemma stage_bind m1 m2 l1 l2 n1 n2 :
  stage m1 l1 n1 -> stage m2 l2 n2 -> stage (m1;; m2) (l1 ++ l2) (n1 ++ n2).
Proof.
  intros Hs1 Hs2 k v. rewrite set_all_app. specialize (Hs1 k v).
  destruct (set_all l1 k) as [k1|err].
  - specialize (Hs2 k1 (v ++ n1)). unfold mbind, M_bind. rewrite Hs1.
    destruct (set_all l2 k1); [by rewrite app_assoc|done].
  - destruct Hs1 as [s Hs]. exists s. unfold mbind, M_bind. by rewrite Hs.
Qed.

Lemma stage_each {A} (xs : list A) body (assign : A -> option assignment) (bad : A -> option FieldViolation) :
  (forall x, stage (body x) (option_list (assign x)) (option_list (bad x))) ->
  stage (each xs body) (omap assign xs) (omap bad xs).
Proof.
  intros Hb. induction xs as [|x xs IH]; [apply stage_skip|]. cbn [each].
  replace (omap assign (x :: xs)) with (option_list (assign x) ++ omap assign xs)
    by (cbn; by destruct (assign x)).
  replace (omap bad (x :: xs)) with (option_list (bad x) ++ omap bad xs)
    by (cbn; by destruct (bad x)).
  by apply stage_bind.
Qed.

Lemma stage_defaults : stage setDefaults default_assignments [].
Proof.
  pose proof (stage_each fields (fun f => set (key f) (interface f Defaults))
    (fun f => Some (key f, interface f Defaults)) (fun _ => None) (fun f => stage_set _ _)) as Hs.
  rewrite omap_none in Hs. unfold default_assignments.
  assert (forall fs : list field, (fun f => (key f, interface f Defaults) : assignment) <$> fs
    = omap (fun f => Some (key f, interface f Defaults) : option assignment) fs) as Heq.
  { induction fs as [|f fs IH]; [done|]. csimpl. by rewrite IH. }
  rewrite Heq. exact Hs.
Qed.

Lemma fmap_filter_omap {A B} (p : A -> bool) (g : A -> B) (l : list A) :
  g <$> filter (fun x => p x = true) l = omap (fun x => if p x then Some (g x) else None) l.
Proof.
  induction l as [|x l IH]; [done|]. rewrite filter_cons. csimpl.
  destruct (p x); csimpl; [|done]. by rewrite IH.
Qed.

Lemma file_assignments_omap src :
  file_assignments src = omap (fun k => if isKey k then Some (k, k_Get k src) else None) (k_Keys src).
Proof. apply (fmap_filter_omap isKey (fun k => (k, k_Get k src))). Qed.

Lemma stage_file_key src k :
  stage (apply_file_key src k) (option_list (if isKey k then Some (k, k_Get k src) else None))
    (option_list (unknown_file_key src k)).
Proof.
  unfold apply_file_key, unknown_file_key. destruct (isKey k); [apply stage_set|].
  destruct (bool_decide (k ∈ sections)); cbn [andb]; [|apply stage_violation].
  destruct (isEmptySection (k_Get k src)); [apply stage_skip|apply stage_violation].
Qed.

Lemma stage_env entry :
  stage (apply_env entry) (option_list (env_assignment entry)) (option_list (unknown_env entry)).
Proof.
  unfold apply_env, env_assignment, unknown_env. destruct (Cut entry "=") as [[name v] ok].
  destruct (HasPrefix name envPrefix); cbn [negb andb]; [|apply stage_skip].
  destruct (fieldsByEnv !! name) as [f|]; [apply stage_set|].
  rewrite bool_decide_eq_true_2 by done. cbn [andb].
  destruct (MatchString kubernetesServiceLink name); [apply stage_skip|apply stage_violation].
Qed.

Lemma stage_flag fl : stage (apply_flag fl) (option_list (flag_assignment fl)) [].
Proof.
  unfold apply_flag, flag_assignment. destruct (fieldsByKey !! Flag_Name fl); [apply stage_set|apply stage_skip].
Qed.

Lemma stage_flags fs :
  stage (match fs with Some fs => loadFlags fs | None => mret tt end) (flag_assignments fs) [].
Proof.
  destruct fs as [fs|]; [|apply stage_skip].
  pose proof (stage_each (fs_Visit fs) apply_flag flag_assignment (fun _ => None) stage_flag) as Hs.
  rewrite omap_none in Hs. exact Hs.
Qed.

(** All assignments, in order. *)
Definition assignments (opts : Options FS) (src : K) : list assignment :=
  default_assignments ++ file_assignments src ++ omap env_assignment (Environ opts)
  ++ flag_assignments (Flags opts).

Lemma stage_sources opts src :
  opened opts src -> stage (load_sources opts) (assignments opts src) (unknown opts src).
Proof.
  intros Ho. unfold load_sources, assignments, unknown.
  rewrite <- (app_nil_l (omap (unknown_file_key src) _ ++ _)).
  apply stage_bind; [apply stage_defaults|].
  apply stage_bind.
  - unfold opened in Ho. destruct (decide (File opts <> "")).
    + unfold loadFile. rewrite Ho, file_assignments_omap. apply stage_each, stage_file_key.
    + rewrite file_assignments_omap, Ho. apply stage_skip.
  - rewrite <- (app_nil_r (omap unknown_env _)). apply stage_bind; [|apply stage_flags].
    apply stage_each, stage_env.
Qed.

(** ** What the store holds *)

(** Assignments of configuration keys only. *)
Definition of_keys (l : list assignment) : Prop := Forall (fun a => exists f, f ∈ fields /\ key f = a.1) l.

Lemma assigned_app k l1 l2 : assigned k (l1 ++ l2) = union (assigned k l2) (assigned k l1).
Proof.
  induction l1 as [|[k' v] l1 IH]; cbn; [by destruct (assigned k l2)|]. rewrite IH.
  by destruct (assigned k l2), (assigned k l1), (decide (k' = k)).
Qed.

Lemma set_all_get l k k' f :
  of_keys l -> f ∈ fields -> set_all l k = Ok k' ->
  k_Get (key f) k' = default (k_Get (key f) k) (assigned (key f) l).
Proof.
  intros Hl Hf. revert k. induction Hl as [|[kx x] l (g & Hg & Hgk) Hl IH]; intros k Hs; cbn in *.
  { by simplify_eq. }
  destruct (k_Set kx x k) as [k1|] eqn:Hset; [|done]. rewrite (IH _ Hs).
  destruct (assigned (key f) l); [done|]. cbn. case_decide as Hk; cbn.
  - subst kx. rewrite <- Hk. by eapply set_get.
  - eapply set_other; [done|]. rewrite <- Hgk. apply keys_unrelated; [done..|congruence].
Qed.

Lemma isKey_field k : isKey k = true -> exists f, f ∈ fields /\ key f = k.
Proof.
  unfold isKey. rewrite bool_decide_eq_true. intros [f Hf%fieldsByKey_lookup]. eauto.
Qed.

Lemma of_keys_omap {A} (xs : list A) (g : A -> option assignment) :
  (forall x k v, g x = Some (k, v) -> exists f, f ∈ fields /\ key f = k) -> of_keys (omap g xs).
Proof.
  intros Hg. apply Forall_forall. intros [k v] (x & _ & Hx)%list_elem_of_omap. by eapply Hg.
Qed.

Lemma of_keys_assignments opts src : of_keys (assignments opts src).
Proof.
  unfold assignments, of_keys. rewrite !Forall_app. split_and!.
  - apply Forall_fmap, Forall_forall. eauto.
  - rewrite file_assignments_omap. apply of_keys_omap. intros k k' v Hk.
    destruct (isKey k) eqn:Hi; [|done]. injection Hk as <- _. by apply isKey_field.
  - apply of_keys_omap. intros entry k v. unfold env_assignment.
    destruct (Cut entry "=") as [[name x] ok]. destruct (HasPrefix name envPrefix); [|done].
    intros (f & Hf & [= -> ->])%fmap_Some. apply fieldsByEnv_lookup in Hf as [? _]. eauto.
  - destruct (Flags opts) as [fs|]; cbn; [|constructor]. apply of_keys_omap. intros fl k v.
    unfold flag_assignment. intros (f & Hf & [= -> ->])%fmap_Some.
    apply fieldsByKey_lookup in Hf as [? _]. eauto.
Qed.

(** Every key has a default, so what a new store holds does not matter. *)
Lemma assigned_default f : f ∈ fields -> is_Some (assigned (key f) default_assignments).
Proof.
  unfold default_assignments. generalize fields. intros fs. induction fs as [|g fs IH]; [by intros ?%elem_of_nil|].
  csimpl. intros Hf. destruct (assigned (key f) _) eqn:Ha; [eauto|].
  apply elem_of_cons in Hf as [->|Hf]; [rewrite decide_True by done; eauto|].
  apply IH in Hf. by destruct Hf.
Qed.

Lemma effective_get opts src k' f :
  f ∈ fields -> set_all (assignments opts src) k_New = Ok k' ->
  k_Get (key f) k' = effective opts src (key f).
Proof.
  intros Hf Hs. rewrite (set_all_get _ _ _ f (of_keys_assignments opts src) Hf Hs).
  unfold assignments, effective. rewrite !assigned_app.
  destruct (assigned_default f Hf) as [d Hd]. rewrite Hd.
  destruct (assigned _ (flag_assignments _)), (assigned _ (omap env_assignment _)),
    (assigned _ (file_assignments _)); done.
Qed.

(** ** How loading fails *)

(** What a classified error says. *)
Definition says (e : Error) (r : Reason) (m : string) (c : option error) (vs : list FieldViolation) : Prop :=
  reason e = r /\ message e = m /\ cause e = c /\ violations e = vs.

(** koanf refuses the assignment of [key], after those before it in [l]. *)
Definition refused (l : list assignment) (key : string) (err : error) : Prop :=
  exists l1 v l2 k, l = l1 ++ (key, v) :: l2 /\ set_all l1 k_New = Ok k /\ k_Set key v k = Err err.

(** The errors of [Load]. *)
Inductive load_error (opts : Options FS) (e : Error) : Prop :=
| unreadable_file err :
    File opts <> "" -> k_LoadFile (File opts) k_New = Err err ->
    says e ReasonInvalidArgument "configuration file could not be read" (Some err) [] ->
    load_error opts e
| unknown_keys src :
    opened opts src -> unknown opts src <> [] ->
    says e ReasonInvalidArgument "configuration contains unknown keys" None
      (sort_by_key (unknown opts src)) ->
    load_error opts e
| wrong_type src f err :
    opened opts src -> unknown opts src = [] ->
    f ∈ fields -> decode (typ f) (effective opts src (key f)) = None ->
    says e ReasonInvalidArgument "configuration has a value of the wrong type" (Some err) [] ->
    load_error opts e
| refused_key key err :
    refused default_assignments key err
    \/ (exists src, opened opts src /\ refused (assignments opts src) key err) ->
    says e ReasonInternal ("configuration key could not be set: " +:+ key) (Some err) [] ->
    load_error opts e.

Lemma Wrap_says r c m : Registered r = true -> m <> "" -> says (Wrap r c m) r m c [].
Proof. intros Hr Hm. unfold says, Wrap, New. rewrite Hr, decide_False by done. done. Qed.

(** An error of the list [vs] of unknown keys. *)
Lemma violations_err_Some vs message err :
  message <> "" -> violations_err vs message = Some err ->
  vs <> [] /\ exists e, err = kv e /\ says e ReasonInvalidArgument message None (sort_by_key vs).
Proof.
  intros Hm. unfold violations_err. destruct vs as [|x vs]; [done|]. intros He. apply (inj Some) in He.
  split; [done|]. exists (WithViolations (New ReasonInvalidArgument message) (sort_by_key (x :: vs))).
  split; [by symmetry|]. unfold says, New, WithViolations.
  by rewrite Registered_ReasonInvalidArgument, decide_False.
Qed.

Lemma violations_err_None vs message : violations_err vs message = None -> vs = [].
Proof. by destruct vs. Qed.

Lemma set_all_err l err :
  set_all l k_New = Err err ->
  exists e key err', err = kv e /\ refused l key err'
    /\ says e ReasonInternal ("configuration key could not be set: " +:+ key) (Some err') [].
Proof.
  induction l as [|[key v] l IH] using rev_ind; [done|]. rewrite set_all_app. intros Hs.
  destruct (set_all l k_New) as [k|err1] eqn:Hl.
  - cbn [set_all] in Hs. destruct (k_Set key v k) as [k'|err'] eqn:Hk; [done|].
    apply Err_inj in Hs as <-. eexists _, key, err'. split; [done|]. split.
    + by exists l, v, [], k.
    + by apply Wrap_says; [apply Registered_ReasonInternal|].
  - apply Err_inj in Hs as <-.
    destruct (IH eq_refl) as (e & key' & err' & He & (l1 & v' & l2 & k & -> & Hk) & Hsays).
    exists e, key', err'. split_and!; [done| |done].
    exists l1, v', (l2 ++ [(key, v)]), k. by rewrite <- app_assoc.
Qed.

Lemma load_unreadable opts err :
  File opts <> "" -> k_LoadFile (File opts) k_New = Err err ->
  exists e, Load opts = Err (kv e) /\ load_error opts e.
Proof.
  intros Hfile Hl. unfold Load, load_sources. pose proof (stage_defaults k_New []) as Hd.
  destruct (set_all default_assignments k_New) as [k|e0] eqn:Hs.
  - rewrite (bind_ok _ _ _ _ _ Hd), decide_True by done.
    set (e := Wrap ReasonInvalidArgument (Some err) "configuration file could not be read").
    rewrite (bind_err _ _ _ (kv e) (mkLoader k [])) by (unfold loadFile; by rewrite Hl).
    exists e. split; [done|]. eapply unreadable_file; [done..|].
    by apply Wrap_says; [apply Registered_ReasonInvalidArgument|].
  - destruct Hd as [s Hd]. rewrite (bind_err _ _ _ _ _ Hd).
    destruct (set_all_err _ _ Hs) as (e & key & err' & -> & Hr & Hx). exists e. split; [done|].
    eapply refused_key; eauto.
Qed.

(** The source of the file's keys exists unless the file cannot be read. *)
Lemma opened_or_err opts :
  (exists src, opened opts src)
  \/ File opts <> "" /\ exists err, k_LoadFile (File opts) k_New = Err err.
Proof.
  unfold opened. destruct (decide (File opts <> "")) as [Hf|Hf].
  - destruct (k_LoadFile (File opts) k_New) as [src|err] eqn:Hl; [left|right]; eauto.
  - left. exists k_New. apply new_keys.
Qed.

Lemma Load_spec (opts : Options FS) :
  match Load opts with
  | Ok cfg =>
      exists src, opened opts src /\ unknown opts src = []
      /\ forall f, f ∈ fields ->
           exists v, decode (typ f) (effective opts src (key f)) = Some v /\ valueOf f cfg = Some v
  | Err err => exists e, err = kv e /\ load_error opts e
  end.
Proof.
  destruct (opened_or_err opts) as [[src Ho]|(Hfile & err & Hl)].
  2: { destruct (load_unreadable opts err Hfile Hl) as (e & -> & He). eauto. }
  unfold Load. pose proof (stage_sources opts src Ho k_New []) as Hs.
  destruct (set_all (assignments opts src) k_New) as [k|err] eqn:Hset.
  2: { destruct Hs as [s ->]. destruct (set_all_err _ _ Hset) as (e & key & err' & -> & Hr & Hx).
       exists e. split; [done|]. eapply refused_key; eauto. }
  rewrite Hs. cbn [ld_v ld_k]. rewrite app_nil_l.
  destruct (violations_err _ _) as [err|] eqn:Hv.
  { apply violations_err_Some in Hv as (Hne & e & -> & He); [|done].
    exists e. split; [done|]. by eapply unknown_keys. }
  apply violations_err_None in Hv.
  destruct (k_Unmarshal k) as [cfg|err] eqn:Hu.
  - exists src. split_and!; [done..|]. intros f Hf.
    rewrite <- (effective_get opts src k f Hf Hset). by apply unmarshal_ok.
  - eexists. split; [done|]. destruct (unmarshal_err _ _ Hu) as (f & Hf & Hd).
    rewrite (effective_get opts src k f Hf Hset) in Hd. eapply wrong_type; [done..|].
    by apply Wrap_says; [apply Registered_ReasonInvalidArgument|].
Qed.

(** C32: [Load] applies its sources in the documented precedence. When it
    succeeds, every key has the value of the flags, else of the environment,
    else of the file, else its default, decoded to the type of the key, and no
    source has an unknown key. Otherwise it returns one of four errors, each
    with its message and cause: INVALID_ARGUMENT when a file is named and
    cannot be read; INVALID_ARGUMENT when there are unknown keys or variables,
    with exactly these, sorted, from the file and the environment at once;
    INVALID_ARGUMENT when there are none and the value of some key has the
    wrong type; INTERNAL when koanf refuses one of the assignments. *)
Theorem Load_layers (opts : Options FS) :
  match Load opts with
  | Ok cfg =>
      exists src, opened opts src /\ unknown opts src = []
      /\ forall f, f ∈ fields ->
           exists v, decode (typ f) (effective opts src (key f)) = Some v /\ valueOf f cfg = Some v
  | Err err => exists e, err = kv e /\ load_error opts e
  end.
Proof. exact (Load_spec opts). Qed.
End load_spec.

(** ** A store that satisfies the laws

    A flat map, a decoder for the types of the keys, and one readable file. *)

Definition is_leaf (v : value) (t : rtype) : bool :=
  match v, t with
  | VString _, TString | VBool _, TBool | VInt _, TInt | VInt64 _, TInt64 | VUint32 _, TUint32
  | VFloat64 _, TFloat64 | VDuration _, TDuration | VStrings _, TStrings => true
  | _, _ => false
  end.

Lemma is_leaf_type v t : is_leaf v t = true <-> leaf_type v = Some t.
Proof. destruct v, t; cbn; split; congruence. Qed.

Definition decode_any (t : rtype) (a : any) : option value :=
  match a with
  | AValue v =>
      if is_leaf v t then Some v
      else match v, t with
           | VString s, TDuration => VDuration <$> read_duration s
           | VString s, TInt => match Atoi s with Ok z => Some (VInt z) | Err _ => None end
           | VString s, TBool =>
               if decide (s = "true") then Some (VBool true)
               else if decide (s = "false") then Some (VBool false) else None
           | VString s, TStrings => Some (VStrings (Split s ","))
           | _, _ => None
           end
  | _ => None
  end.

Definition sample_file : gmap string any :=
  list_to_map [("storage.fsync", AValue (VString "interval"));
               ("storage.fsync_interval", AValue (VString "1m30s")); ("cluster", ANil)].

Definition map_Unmarshal (k : gmap string any) : result error Config :=
  match mapM (fun f => decode_any (typ f) (default ANil (k !! key f))) fields with
  | None => Err (EForeign "wrong type")
  | Some vs => match assign_values Defaults vs with Some c => Ok c | None => Err (EForeign "") end
  end.

#[export] Instance map_koanf : Koanf (gmap string any) := {
  k_New := ∅;
  k_Set key v k := Ok (<[key := v]> k);
  k_Keys k := (map_to_list k).*1;
  k_Get key k := default ANil (k !! key);
  k_LoadFile path k :=
    if decide (path = "gokvx.yaml") then Ok sample_file else Err (EForeign "no such file");
  k_Unmarshal := map_Unmarshal;
  k_Marshal k := Ok "";
}.

Lemma decode_any_typed t a v : decode_any t a = Some v -> leaf_type v = Some t.
Proof.
  destruct a as [|x| |]; try done. unfold decode_any.
  destruct (is_leaf x t) eqn:Ht; [intros [= <-]; by apply is_leaf_type|].
  destruct x, t; try done.
  - case_decide; [by intros [= <-]|]. case_decide; by intros [= <-].
  - destruct (Atoi s); [by intros [= <-]|done].
  - destruct (read_duration s); cbn; [by intros [= <-]|done].
  - by intros [= <-].
Qed.

Lemma map_Unmarshal_spec k :
  match map_Unmarshal k with
  | Ok cfg => forall f, f ∈ fields -> exists v,
      decode_any (typ f) (default ANil (k !! key f)) = Some v /\ valueOf f cfg = Some v
  | Err _ => exists f, f ∈ fields /\ decode_any (typ f) (default ANil (k !! key f)) = None
  end.
Proof.
  unfold map_Unmarshal. destruct (mapM _ fields) as [vs|] eqn:Hm.
  - apply mapM_Some in Hm.
    destruct (assign_values_typed vs) as (c & -> & Hc).
    { eapply Forall2_impl; [exact Hm|]. intros f v. cbn. apply decode_any_typed. }
    intros f [i Hi]%list_elem_of_lookup. destruct (Forall2_lookup_l _ _ _ _ _ Hm Hi) as (v & Hv & Hd).
    exists v. split; [done|]. by apply (Forall2_lookup_lr _ _ _ _ _ _ Hc Hi Hv).
  - apply mapM_None in Hm. apply Exists_exists in Hm as (f & Hf & Hn). eauto.
Qed.

#[export] Instance map_koanf_laws : KoanfLaws (gmap string any).
Proof.
  refine {| decode := decode_any |}; cbn [k_Set k_Get k_Keys k_New k_Unmarshal map_koanf].
  - by rewrite map_to_list_empty.
  - intros key v k k' [= <-]. by rewrite lookup_insert_eq.
  - intros key key' v k k' [= <-] [Hne _]. by rewrite lookup_insert_ne.
  - intros k cfg Hk. pose proof (map_Unmarshal_spec k) as Hs. by rewrite Hk in Hs.
  - intros k err Hk. pose proof (map_Unmarshal_spec k) as Hs. by rewrite Hk in Hs.
Defined.

(** No flags. *)
#[export] Instance no_pflag : PFlag (list Flag) := {
  fs_Visit fs := fs;
  fs_Duration _ _ _ fs := fs; fs_StringSlice _ _ _ fs := fs; fs_StringVar _ _ _ fs := fs;
  fs_Bool _ _ _ fs := fs; fs_Int _ _ _ fs := fs; fs_Int64 _ _ _ fs := fs;
  fs_Uint32 _ _ _ fs := fs; fs_Float64 _ _ _ fs := fs;
}.

(** A file, a variable that overrides it, and a flag that overrides both. *)
Definition sample_options : Options (list Flag) :=
  mkOptions "gokvx.yaml"
    ["GOKVX_STORAGE_FSYNC=os"; "HOME=/root"; "GOKVX_CLIENT_SERVICE_HOST=10.0.0.1";
     "GOKVX_AUTH_JWT_AUDIENCE=a, b,"; "GOKVX_NODE_ID=node-1"]
    (Some [mkFlag "config" "gokvx.yaml" None; mkFlag "node.id" "node-2" None]).

Lemma Load_layers_witness :
  exists cfg, Load (K := gmap string any) sample_options = Ok cfg
  /\ Fsync (Config_Storage cfg) = FsyncOS
  /\ Storage_FsyncInterval (Config_Storage cfg) = (90 * Second)%Z
  /\ Audience (Auth_JWT (Config_Auth cfg)) = ["a"; "b"]
  /\ ID (Config_Node cfg) = "node-2"
  /\ exists src, opened sample_options src /\ unknown sample_options src = [].
Proof.
  pose proof (Load_layers (K := gmap string any) sample_options) as Ht.
  destruct (Load sample_options) as [cfg|err] eqn:Hl.
  - exists cfg. split; [reflexivity|]. destruct Ht as (src & Ho & Hu & _).
    assert ((fun c => (Fsync (Config_Storage c), Storage_FsyncInterval (Config_Storage c),
       Audience (Auth_JWT (Config_Auth c)), ID (Config_Node c)))
       (match Load (K := gmap string any) sample_options with Ok c => c | Err _ => Defaults end)
     = (FsyncOS, (90 * Second)%Z, ["a"; "b"], "node-2")) as Hv by (vm_compute; reflexivity).
    rewrite Hl in Hv. cbv beta in Hv. injection Hv as H1 H2 H3 H4.
    split_and!; [exact H1|exact H2|exact H3|exact H4|]. exists src. by split.
  - exfalso. assert (is_ok (Load (K := gmap string any) sample_options) = true) as Hok by (vm_compute; reflexivity).
    by rewrite Hl in Hok.
Defined.

(** Unknown keys and variables of all sources are reported together. *)
Example load_unknown :
  match Load (K := gmap string any) (FS := list Flag)
          (mkOptions "" ["GOKVX_STORAGE_FSINK=os"; "GOKVX_LISTEN=x"] None) with
  | Err (EKv (Some e)) => Field <$> violations e
  | _ => []
  end = ["GOKVX_LISTEN"; "GOKVX_STORAGE_FSINK"].
Proof. vm_compute. reflexivity. Qed.
