(* ===== verification/ConfigYaml.v ===== *)
(** * A rendered configuration loads as itself

    The round trip of [Config.YAML] (internal/config/report.go) through
    [Load] (internal/config/load.go), over what koanf and its YAML parser
    document. *)

From stdpp Require Import prelude gmap strings list.
From Stdlib Require Import ZArith Lia Ascii.
From S2P Require Import Prelude GoStrings Kverr Config ConfigKeys Durations ConfigRules ConfigSpec ConfigLoad LoadTheorems ConfigReport.

Local Opaque fields fieldsByKey fieldsByEnv sections.

(** ** What koanf and the YAML parser document

    [Set] succeeds and adds a key; the document [Marshal] writes has the keys
    of the store, with values that decode to the same settings; a value of a
    field's own type decodes to itself, and a text of a duration, in the
    notation of [time.ParseDuration], to the duration. [yaml_Parse] is what a
    file with the given text loads as. *)
Class YamlLaws (K : Type) `{KoanfLaws K} := {
  yaml_Parse : string -> result error K;
  set_ok key v k : exists k', k_Set key v k = Ok k';
  set_keys key v k k' :
    k_Set key (AValue v) k = Ok k' -> (forall x, x ∈ k_Keys k -> x = key \/ unrelated key x) ->
    forall x, x ∈ k_Keys k' <-> x = key \/ x ∈ k_Keys k;
  marshal_parse k text :
    k_Marshal k = Ok text ->
    exists src, yaml_Parse text = Ok src /\ (forall x, x ∈ k_Keys src <-> x ∈ k_Keys k)
    /\ forall f, f ∈ fields ->
         decode (typ f) (k_Get (key f) src) = decode (typ f) (k_Get (key f) k);
  decode_own t v : leaf_type v = Some t -> decode t (AValue v) = Some v;
  decode_duration s d :
    read_duration s = Some d -> (- 2 ^ 63 <= d < 2 ^ 63)%Z ->
    decode TDuration (AValue (VString s)) = Some (VDuration d);
}.

(** Durations are 64-bit integers. *)
Definition durations_in_range (c : Config) : Prop :=
  forall f d, f ∈ fields -> valueOf f c = Some (VDuration d) -> (- 2 ^ 63 <= d < 2 ^ 63)%Z.

Section yaml_spec.
Context {K FS : Type} `{YamlLaws K} `{PFlag FS}.

Lemma rendered_value f c :
  f ∈ fields -> exists v, rendered f c = AValue v.
Proof.
  intros Hf. destruct (valueOf_typed c f Hf) as (v & Hv & _). unfold rendered, interface.
  rewrite Hv. destruct v; eauto.
Qed.

(** What is written for a key decodes to its value. *)
Lemma decode_rendered f c :
  durations_in_range c -> f ∈ fields -> decode (typ f) (rendered f c) = valueOf f c.
Proof.
  intros Hd Hf. destruct (valueOf_typed c f Hf) as (v & Hv & Ht). unfold rendered, interface.
  specialize (Hd f). rewrite Hv in *. destruct v; try (by apply decode_own).
  cbn in Ht. injection Ht as <-.
  specialize (Hd d Hf eq_refl). apply decode_duration; [|done]. by apply (read_formatDuration d).
Qed.

(** Every key is written, with its rendered value. *)
Lemma render_all_spec fs c k :
  (forall f, f ∈ fs -> f ∈ fields) -> NoDup (key <$> fs) ->
  (forall x, x ∈ k_Keys k -> exists g, g ∈ fields /\ key g = x) ->
  exists k', render_all fs c k = Ok k'
  /\ (forall x, x ∈ k_Keys k' <-> x ∈ k_Keys k \/ x ∈ key <$> fs)
  /\ (forall f, f ∈ fs -> k_Get (key f) k' = rendered f c)
  /\ (forall g, g ∈ fields -> key g ∉ key <$> fs -> k_Get (key g) k' = k_Get (key g) k).
Proof.
  revert k. induction fs as [|f fs IH]; intros k Hin Hnd Hk; cbn [render_all].
  { exists k. split_and!; [done|set_solver|set_solver|done]. }
  rewrite fmap_cons in Hnd. apply NoDup_cons in Hnd as [Hfresh Hnd].
  assert (f ∈ fields) as Hf by (apply Hin, list_elem_of_here).
  destruct (rendered_value f c Hf) as [v Hv].
  destruct (set_ok (key f) (rendered f c) k) as [k1 Hk1]. rewrite Hk1.
  assert (forall x, x ∈ k_Keys k1 <-> x = key f \/ x ∈ k_Keys k) as Hkeys.
  { rewrite Hv in Hk1. eapply set_keys; [done|]. intros x (g & Hg & <-)%Hk.
    destruct (decide (key g = key f)); [by left|right]. by apply keys_unrelated. }
  destruct (IH k1) as (k' & Hr & Hkeys' & Hget & Hother).
  { intros g Hg. apply Hin. by apply list_elem_of_further. }
  { done. }
  { intros x [->|Hx]%Hkeys; [eauto|by apply Hk]. }
  exists k'. split; [done|]. split_and!.
  - intros x. rewrite Hkeys', Hkeys, fmap_cons, elem_of_cons. tauto.
  - intros g [->|Hg]%elem_of_cons; [|by apply Hget].
    rewrite Hother by done. by apply (set_get _ _ _ _ Hk1).
  - intros g Hg Hng. rewrite fmap_cons, not_elem_of_cons in Hng. destruct Hng as [Hne Hng].
    rewrite Hother by done. apply (set_other _ _ _ _ _ Hk1). by apply keys_unrelated.
Qed.

Lemma set_all_ok l k : exists k', set_all l k = Ok k'.
Proof.
  revert k. induction l as [|[x v] l IH]; intros k; cbn; [eauto|].
  destruct (set_ok x v k) as [k1 ->]. apply IH.
Qed.

(** The last assignment of a key that the file has is the file's value. *)
Lemma assigned_file src f :
  f ∈ fields -> key f ∈ k_Keys src -> assigned (key f) (file_assignments src) = Some (k_Get (key f) src).
Proof.
  intros Hf Hin. assert (isKey (key f) = true) as Hk.
  { unfold isKey. apply bool_decide_eq_true. exists f. by apply fieldsByKey_lookup. }
  rewrite file_assignments_omap.
  assert (forall l, assigned (key f) (omap (fun k => if isKey k then Some (k, k_Get k src) else None) l)
    = if decide (key f ∈ l) then Some (k_Get (key f) src) else None) as Hgen.
  { induction l as [|x l IH]; [by rewrite decide_False by apply not_elem_of_nil|]. csimpl.
    destruct (decide (x = key f)) as [->|Hne].
    - rewrite Hk, decide_True by apply list_elem_of_here. cbn [assigned].
      rewrite IH, (decide_True (P := key f = key f)) by done. by case_decide.
    - rewrite (decide_ext (key f ∈ x :: l) (key f ∈ l)) by (rewrite elem_of_cons; split; [intros [?|?]; [by destruct Hne|done]|by right]).
      rewrite <- IH. destruct (isKey x); [|done]. cbn [assigned].
      rewrite decide_False by done. by destruct (assigned _ _). }
  rewrite Hgen. by rewrite decide_True.
Qed.

Lemma unknown_file_none src :
  (forall x, x ∈ k_Keys src -> exists g, g ∈ fields /\ key g = x) ->
  omap (unknown_file_key src) (k_Keys src) = [].
Proof.
  generalize (k_Keys src). intros l. induction l as [|x l IH]; intros Hl; [done|]. csimpl.
  assert (unknown_file_key src x = None) as ->.
  { destruct (Hl x (list_elem_of_here _ _)) as (g & Hg & <-). unfold unknown_file_key, isKey.
    rewrite bool_decide_eq_true_2; [done|]. exists g. by apply fieldsByKey_lookup. }
  apply IH. intros y Hy. apply Hl. by apply list_elem_of_further.
Qed.

Lemma Load_run (opts : Options FS) src k :
  opened opts src -> unknown opts src = [] -> set_all (assignments opts src) k_New = Ok k ->
  Load opts = match k_Unmarshal k with
              | Err err => Err (kv (Wrap ReasonInvalidArgument (Some err)
                             "configuration has a value of the wrong type"))
              | Ok cfg => Ok cfg
              end.
Proof.
  intros Ho Hu Hset. unfold Load. pose proof (stage_sources opts src Ho k_New []) as Hs.
  rewrite Hset, Hu in Hs. by rewrite Hs.
Qed.

(** C36: A rendered configuration loads as itself: the YAML text of any
    configuration, saved to a file and loaded with no other source, gives back
    that configuration, whatever the defaults are, durations included, which
    are written in their short form. *)
Theorem YAML_reloads c text path :
  durations_in_range c -> YAML c = Ok text ->
  path <> "" -> k_LoadFile path k_New = yaml_Parse text ->
  Load (FS := FS) (mkOptions path [] None) = Ok c.
Proof.
  intros Hd Hy Hp Hfile. set (opts := mkOptions path [] None).
  destruct (render_all_spec fields c k_New) as (k & Hr & Hkeys & Hget & _);
    [done|apply keys_NoDup|rewrite new_keys; by intros x ?%elem_of_nil|].
  unfold YAML in Hy. rewrite Hr in Hy. destruct (k_Marshal k) as [t|] eqn:Hm; [|done].
  injection Hy as ->. destruct (marshal_parse _ _ Hm) as (src & Hsrc & Hsk & Hdec).
  assert (forall x, x ∈ k_Keys src <-> x ∈ key <$> fields) as Hsrck.
  { intros x. rewrite Hsk, Hkeys, new_keys, elem_of_nil. tauto. }
  assert (opened opts src) as Ho.
  { unfold opened. cbn [File opts]. rewrite decide_True by done. by rewrite Hfile. }
  assert (unknown opts src = []) as Hu.
  { unfold unknown. rewrite unknown_file_none; [done|]. intros x (g & -> & Hg)%Hsrck%list_elem_of_fmap. eauto. }
  destruct (set_all_ok (assignments opts src) k_New) as [k' Hk'].
  rewrite (Load_run opts src k' Ho Hu Hk').
  assert (forall f, f ∈ fields -> decode (typ f) (k_Get (key f) k') = valueOf f c) as Hval.
  { intros f Hf. rewrite (effective_get opts src k' f Hf Hk').
    assert (effective opts src (key f) = k_Get (key f) src) as ->.
    { unfold effective. rewrite (assigned_file src f Hf) by (apply Hsrck, list_elem_of_fmap; eauto).
      by destruct (assigned (key f) default_assignments). }
    rewrite (Hdec f Hf), (Hget f Hf). by apply decode_rendered. }
  destruct (k_Unmarshal k') as [cfg|err] eqn:Hun.
  - f_equal. apply valueOf_ext. intros f Hf. destruct (unmarshal_ok _ _ Hun f Hf) as (v & Hv & ->).
    by rewrite <- (Hval f Hf).
  - destruct (unmarshal_err _ _ Hun) as (f & Hf & Hnone). rewrite (Hval f Hf) in Hnone.
    destruct (valueOf_typed c f Hf) as (v & Hv & _). congruence.
Qed.
End yaml_spec.

(** ** A store that satisfies the laws

    The flat map of LoadTheorems, whose only document is that of a store with
    the keys and values of the defaults. *)

#[export] Instance float_eq_dec : EqDecision float64.
Proof. solve_decision. Defined.

Definition leaf_eqb (a b : option value) : bool :=
  match a, b with
  | Some (VString x), Some (VString y) => bool_decide (x = y)
  | Some (VBool x), Some (VBool y) => bool_decide (x = y)
  | Some (VInt x), Some (VInt y) | Some (VInt64 x), Some (VInt64 y)
  | Some (VUint32 x), Some (VUint32 y) | Some (VDuration x), Some (VDuration y) => bool_decide (x = y)
  | Some (VFloat64 x), Some (VFloat64 y) => bool_decide (x = y)
  | Some (VStrings x), Some (VStrings y) => bool_decide (x = y)
  | _, _ => false
  end.

Lemma leaf_eqb_eq a b : leaf_eqb a b = true -> a = b.
Proof.
  destruct a as [[]|], b as [[]|]; cbn; try done; rewrite bool_decide_eq_true; by intros ->.
Qed.

Definition sample_store : gmap string any :=
  list_to_map ((fun f => (key f, rendered f Defaults)) <$> fields).

(** [k] has the keys of the sample, with values that decode alike. *)
Definition is_sample (k : gmap string any) : bool :=
  bool_decide (dom k = dom sample_store)
  && forallb (fun f => leaf_eqb (decode_any (typ f) (default ANil (sample_store !! key f)))
                         (decode_any (typ f) (default ANil (k !! key f)))) fields.

Definition sample_koanf : Koanf (gmap string any) := {|
  k_New := ∅;
  k_Set key v k := Ok (<[key := v]> k);
  k_Keys k := (map_to_list k).*1;
  k_Get key k := default ANil (k !! key);
  k_LoadFile path k :=
    if decide (path = "effective.yaml") then Ok sample_store else Err (EForeign "no such file");
  k_Unmarshal := map_Unmarshal;
  k_Marshal k := if is_sample k then Ok "defaults" else Err (EForeign "unsupported");
|}.

Definition sample_laws : KoanfLaws (gmap string any) (H := sample_koanf).
Proof.
  refine {| decode := decode_any |}; cbn [k_Set k_Get k_Keys k_New k_Unmarshal sample_koanf].
  - by rewrite map_to_list_empty.
  - intros key v k k' [= <-]. by rewrite lookup_insert_eq.
  - intros key key' v k k' [= <-] [Hne _]. by rewrite lookup_insert_ne.
  - intros k cfg Hk. pose proof (map_Unmarshal_spec k) as Hs. by rewrite Hk in Hs.
  - intros k err Hk. pose proof (map_Unmarshal_spec k) as Hs. by rewrite Hk in Hs.
Defined.

Lemma elem_of_keys (k : gmap string any) x : x ∈ (map_to_list k).*1 <-> x ∈ dom k.
Proof.
  rewrite elem_of_dom, list_elem_of_fmap. split.
  - intros ([y v] & -> & Hv%elem_of_map_to_list). eauto.
  - intros [v Hv]. exists (x, v). by rewrite elem_of_map_to_list.
Qed.

Definition sample_yaml : YamlLaws (gmap string any) (H := sample_koanf) (H0 := sample_laws).
Proof.
  refine {| yaml_Parse text := if decide (text = "defaults") then Ok sample_store
                               else Err (EForeign "malformed") |};
    cbn [k_Set k_Get k_Keys k_New k_Marshal sample_koanf decode sample_laws].
  - eauto.
  - intros key v k k' [= <-] _ x. rewrite !elem_of_keys, dom_insert. set_solver.
  - intros k text. destruct (is_sample k) eqn:Hs; [|done]. intros [= <-].
    exists sample_store. split; [done|]. unfold is_sample in Hs.
    apply andb_true_iff in Hs as [Hdom%bool_decide_eq_true Hf]. split.
    + intros x. by rewrite !elem_of_keys, Hdom.
    + intros f Hin. rewrite forallb_forall in Hf. apply leaf_eqb_eq, Hf. by apply list_elem_of_In.
  - intros t v Ht. unfold decode_any. by rewrite (proj2 (is_leaf_type v t) Ht).
  - intros s d Hr _. unfold decode_any. cbn. by rewrite Hr.
Defined.

Lemma YAML_reloads_witness :
  YAML (H0 := sample_koanf) Defaults = Ok "defaults"
  /\ Load (FS := list Flag) (H := sample_koanf) (mkOptions "effective.yaml" [] None) = Ok Defaults.
Proof.
  assert (YAML (H0 := sample_koanf) Defaults = Ok "defaults") as Hy by (vm_compute; reflexivity).
  split; [exact Hy|].
  apply (YAML_reloads (H1 := sample_yaml) Defaults "defaults" "effective.yaml"); [|exact Hy|done|reflexivity].
  intros f d Hf Hv.
  assert (forallb (fun f => match valueOf f Defaults with
    | Some (VDuration d) => (- 2 ^ 63 <=? d)%Z && (d <? 2 ^ 63)%Z | _ => true end) fields = true) as Hall
    by (vm_compute; reflexivity).
  rewrite forallb_forall in Hall. specialize (Hall f (proj1 (list_elem_of_In _ _) Hf)).
  rewrite Hv in Hall. lia.
Defined.
