(* ===== verification/Cli.v ===== *)
(** * The command line (cmd/gokvx/main.go and commands.go, and the stubs beside them)

    The command tree, what its commands do, and how their outcome becomes an
    exit code and text. The library cobra is the class [Cobra]: how it finds a
    command, parses its flags and runs it. *)

From stdpp Require Import prelude gmap strings list sorting.
From Stdlib Require Import ZArith Lia Ascii.
From S2P Require Import Prelude GoStrings Kverr Config ConfigKeys ConfigRules ConfigSpec ConfigTheorems ConfigLoad LoadTheorems ConfigReport.

Definition newline : string := String (ascii_of_nat 10) "".

(** ** Process state *)

(** The two output streams; [out_fault] is the error writes to stdout return,
    if they fail. *)
Record streams := mkStreams { stdout : string; stderr : string; out_fault : option error }.

Definition exitOK : Z := 0.
Definition exitFailure : Z := 1.

(** A command, with its flag set and the function it runs. *)
Inductive Command (FS : Type) :=
| mkCommand (Use Short Long : string) (flags : FS) (RunE : FS -> M error streams unit)
    (sub : list (Command FS)).
Arguments mkCommand {FS} _ _ _ _ _ _.

Definition Use {FS} (c : Command FS) : string := let '(mkCommand u _ _ _ _ _) := c in u.
Definition cmd_Flags {FS} (c : Command FS) : FS := let '(mkCommand _ _ _ f _ _) := c in f.
Definition RunE {FS} (c : Command FS) : FS -> M error streams unit :=
  let '(mkCommand _ _ _ _ r _) := c in r.
Definition subcommands {FS} (c : Command FS) : list (Command FS) :=
  let '(mkCommand _ _ _ _ _ s) := c in s.

(** The command a path of names leads to. *)
Fixpoint find_command {FS} (c : Command FS) (path : list string) : option (Command FS) :=
  match path with
  | [] => Some c
  | name :: path' =>
      '(_, d) ← list_find (fun d => Use d = name) (subcommands c);
      find_command d path'
  end.

(** ** The libraries *)

(** [FS] is a flag set of pflag, as in ConfigLoad: a new one, its parser, the
    words it found that are neither flags nor their values, and the values of
    string and boolean flags. *)
Class Cobra (FS : Type) `{PFlag FS} := {
  fs_New : FS;
  fs_Parse : FS -> list string -> result error FS;
  fs_Args : FS -> list string;
  fs_GetString : string -> FS -> string;
  fs_GetBool : string -> FS -> bool;
  Execute : Command FS -> list string -> M error streams unit;
  Help : Command FS -> M error streams unit;
  (** Execute runs the command that the leading words name, when it has no
      subcommand of its own and what follows is flags that it parses, and
      nothing else: every command of the tree has [Args: cobra.NoArgs]. *)
  Execute_command root path args c fs :
    Forall (fun w => w <> "" /\ HasPrefix w "-" = false) path ->
    find_command root path = Some c -> subcommands c = [] ->
    fs_Parse (cmd_Flags c) args = Ok fs -> fs_Args fs = [] ->
    forall s, Execute root (path ++ args) s = RunE c fs s;
}.

Section cli.
Context {K FS U UI : Type} `{Koanf K} `{Cobra FS} `{URLPackage U UI}.

(** The scheme and host of a parsed URL. *)
Variable url_view : U -> URL.

(** Build metadata, set at link time, and the version of Go. *)
Variables (Version Commit BuildDate GoVersion : string).
Variable rtype_String : rtype -> string.

(** ** commands.go *)

(** [write]: [fmt.Errorf("main.write: %w", err)]. *)
Definition write (text : string) : M error streams unit := fun s =>
  match out_fault s with
  | Some err => (Err (EWrapf "main.write: " err ""), s)
  | None => (Ok tt, mkStreams (stdout s +:+ text) (stderr s) None)
  end.

Definition newVersionCommand : Command FS :=
  mkCommand "version" "Print the version, commit, build date, and Go version" "" fs_New
    (fun _ => write ("gokvx " +:+ Version +:+ newline +:+ "commit: " +:+ Commit +:+ newline
                     +:+ "built:  " +:+ BuildDate +:+ newline +:+ "go:     " +:+ GoVersion
                     +:+ newline)) [].

(** The lines of the warnings. *)
Fixpoint warning_lines (ws : list Warning) : string :=
  match ws with
  | [] => ""
  | w :: ws' => "warning: " +:+ Warning_String w +:+ newline +:+ warning_lines ws'
  end.

Definition Config_Validate (cfg : Config) : option error :=
  Validate (fun s => url_view <$> url_Parse s) cfg.

Definition validateConfig (opts : Options FS) (printEffective : bool) : result error string :=
  let wrap err := EWrapf "main.validateConfig: " err "" in
  match Load (K := K) opts with
  | Err err => Err (wrap err)
  | Ok cfg =>
      match Config_Validate cfg with
      | Some err => Err (wrap err)
      | None =>
          let report := "configuration is valid" +:+ newline +:+ warning_lines (Warnings cfg) in
          if printEffective then
            match YAML (K := K) (Redacted cfg) with
            | Err err => Err (wrap err)
            | Ok text => Ok (report +:+ newline +:+ text)
            end
          else Ok report
      end
  end.

(** What [config validate] runs once its flags are parsed. *)
Definition run_validate (environ : list string) (fs : FS) : M error streams unit :=
  report ← lift (validateConfig (mkOptions (fs_GetString "config" fs) environ (Some fs))
                   (fs_GetBool "print" fs));
  write report.

Definition validate_long : string :=
  "Validate applies the configuration file, GOKVX_* environment variables, and" +:+ newline
  +:+ "flags exactly as a starting node would, then reports every violation by key." +:+ newline
  +:+ "It exits non-zero if the configuration is invalid.".

Definition newConfigValidateCommand (environ : list string) : Command FS :=
  let flags :=
    fs_Bool "print" false "also print the effective configuration, with credentials redacted"
      (fs_StringVar "config" "" "path of a YAML configuration file" fs_New) in
  match RegisterFlags rtype_String flags with
  | Ok flags' =>
      mkCommand "validate" "Check a configuration without starting a node" validate_long flags'
        (run_validate environ) []
  | Err err =>
      mkCommand "validate" "Check a configuration without starting a node" validate_long flags
        (fun _ => fail (EWrapf "main.newConfigValidateCommand: " err "")) []
  end.

Definition newConfigCommand (environ : list string) : Command FS :=
  let c := mkCommand "config" "Work with node configuration" "" fs_New (fun _ => mret tt)
             [newConfigValidateCommand environ] in
  mkCommand "config" "Work with node configuration" "" fs_New (fun _ => Help c)
    [newConfigValidateCommand environ].

Definition root_long : string :=
  "gokvx runs a node of a strongly consistent, sharded key-value store." +:+ newline +:+ newline
  +:+ "Configuration comes from built-in defaults, an optional YAML file (--config)," +:+ newline
  +:+ "GOKVX_* environment variables, and flags, each overriding the one before." +:+ newline
  +:+ "See docs/configuration.md for every setting.".

Definition newRootCommand (environ : list string) : Command FS :=
  let sub := [newVersionCommand; newConfigCommand environ] in
  let short := "A strongly consistent, sharded key-value store" in
  mkCommand "gokvx" short root_long fs_New
    (fun _ => Help (mkCommand "gokvx" short root_long fs_New (fun _ => mret tt) sub)) sub.

(** ** main.go *)

Fixpoint violation_lines (vs : list FieldViolation) : string :=
  match vs with
  | [] => ""
  | v :: vs' => "  - " +:+ Field v +:+ ": " +:+ FieldDescription v +:+ newline +:+ violation_lines vs'
  end.

(** The text [printError] writes; [None] is its panic on a typed-nil error. *)
Definition printError (err : error) : option string :=
  match errors_As err with
  | None => Some ("error: " +:+ error_text err +:+ newline)
  | Some None => None
  | Some (Some kerr) =>
      let line := "error: " +:+ message kerr
        +:+ match Error_Unwrap (Some kerr) with Some c => ": " +:+ error_text c | None => "" end in
      Some (line +:+ newline +:+ violation_lines (violations kerr))
  end.

(** The exit code and the streams at exit; [None] is a panic. *)
Definition run (args environ : list string) (s : streams) : option (Z * streams) :=
  match Execute (newRootCommand environ) args s with
  | (Ok _, s') => Some (exitOK, s')
  | (Err err, s') =>
      text ← printError err;
      Some (exitFailure, mkStreams (stdout s') (stderr s' +:+ text) (out_fault s'))
  end.

(** [os.Exit] ends the process with the code; [os.Args[1:]] panics without
    arguments. *)
Definition main (Args environ : list string) (s : streams) : option (Z * streams) :=
  match Args with
  | [] => None
  | _ :: args => run args environ s
  end.

(** ** The commands that are not implemented yet

    cmd/gokvxctl, cmd/kvbench, cmd/kvcheck and cmd/microservice1 print one line;
    the result of [fmt.Printf] is ignored, and a process whose main function
    returns exits with code 0. *)

Definition print_stub (name : string) (s : streams) : Z * streams :=
  let line := name +:+ " " +:+ Version +:+ " (commit " +:+ Commit +:+ ", built " +:+ BuildDate
    +:+ "): not implemented yet" +:+ newline in
  (0%Z, match out_fault s with
        | Some _ => s
        | None => mkStreams (stdout s +:+ line) (stderr s) None
        end).

Definition gokvxctl_main : streams -> Z * streams := print_stub "gokvxctl".
Definition kvbench_main : streams -> Z * streams := print_stub "kvbench".
Definition kvcheck_main : streams -> Z * streams := print_stub "kvcheck".
Definition microservice1_main : streams -> Z * streams := print_stub "microservice1".
End cli.

(** ** Lemmas *)



Section cli_spec.
Context {K FS U UI : Type} `{KoanfLaws K} `{Cobra FS} `{URLPackage U UI}.
Variable url_view : U -> URL.
Variables (Version Commit BuildDate GoVersion : string).
Variable rtype_String : rtype -> string.

Abbreviation run' :=
  (run (K := K) url_view Version Commit BuildDate GoVersion rtype_String).
Abbreviation validate_command := (newConfigValidateCommand (K := K) url_view rtype_String).
Abbreviation parse_url := (fun s => url_view <$> url_Parse s).











End cli_spec.

(** ** A command library that satisfies the law

    Flags are words of the form --name=value, or --name and a word. *)

Definition flag_of (word : string) : option Flag :=
  rest ← strip_prefix "--" word;
  match Cut rest "=" with
  | (name, v, true) => Some (mkFlag name v None)
  | _ => None
  end.

Fixpoint parse_flags (args : list string) : result error (list Flag) :=
  match args with
  | [] => Ok []
  | w :: args' =>
      match flag_of w, strip_prefix "--" w, args' with
      | Some f, _, _ => match parse_flags args' with Ok fs => Ok (f :: fs) | Err err => Err err end
      | None, Some name, v :: args'' =>
          match parse_flags args'' with Ok fs => Ok (mkFlag name v None :: fs) | Err err => Err err end
      | _, _, _ => Err (EForeign "bad flag")
      end
  end.

Definition get_flag (name : string) (fs : list Flag) : string :=
  match list_find (fun f => Flag_Name f = name) fs with Some (_, f) => Flag_String f | None => "" end.

(** The words before the first flag, and the rest. *)
Fixpoint split_words (args : list string) : list string * list string :=
  match args with
  | [] => ([], [])
  | w :: args' =>
      if HasPrefix w "-" then ([], args)
      else let '(path, flags) := split_words args' in (w :: path, flags)
  end.

Lemma strip_prefix_HasPrefix w rest : strip_prefix "--" w = Some rest -> HasPrefix w "-" = true.
Proof.
  intros Hw. unfold HasPrefix. apply bool_decide_eq_true.
  destruct w as [|c w]; [done|]. cbn in Hw |- *. destruct (decide ("-"%char = c)); [eauto|done].
Qed.

Lemma split_words_app path args fs :
  Forall (fun w => w <> "" /\ HasPrefix w "-" = false) path -> parse_flags args = Ok fs ->
  split_words (path ++ args) = (path, args).
Proof.
  intros Hp Ha. induction Hp as [|w path [_ Hw] Hp IH]; cbn [app split_words].
  - destruct args as [|w args]; [done|]. cbn [split_words parse_flags] in *.
    destruct (strip_prefix "--" w) as [rest|] eqn:Hs; [by rewrite (strip_prefix_HasPrefix _ _ Hs)|].
    unfold flag_of in Ha. by rewrite Hs in Ha.
  - by rewrite Hw, IH.
Qed.

#[export] Instance plain_cobra : Cobra (list Flag).
Proof.
  refine {|
    fs_New := [];
    fs_Parse fs args := parse_flags args;
    fs_Args fs := [];
    fs_GetString := get_flag;
    fs_GetBool name fs := bool_decide (get_flag name fs = "true");
    Execute root args := fun s =>
      let '(path, flags) := split_words args in
      match find_command root path, parse_flags flags with
      | Some c, Ok fs => RunE c fs s
      | None, _ => (Err (EForeign "unknown command"), s)
      | _, Err err => (Err err, s)
      end;
    Help c := mret tt;
  |}.
  intros root path args c fs Hp Hfind _ Hparse _ s.
  by rewrite (split_words_app _ _ _ Hp Hparse), Hfind, Hparse.
Defined.


