(* ===== verification/Observability.v ===== *)
(** * Logging (internal/observability/log.go)

    [NewLogger], the context handler and what package log/slog does with them:
    levels, the handler interface, loggers derived with attributes and groups.
    A line written by the JSON or text handler is an [event]: its level and
    message, and its attributes with the groups they are nested in. *)

From stdpp Require Import prelude strings list.
From Stdlib Require Import ZArith Lia Ascii.
From S2P Require Import Prelude GoStrings Kverr Config ConfigRules ConfigSpec ConfigTheorems.

Local Open Scope Z_scope.

(** ** Package log/slog *)

Definition LevelDebug : Z := -4.
Definition LevelInfo : Z := 0.
Definition LevelWarn : Z := 4.
Definition LevelError : Z := 8.

(** What precedes the first [+] or [-], and the rest. *)
Fixpoint split_sign (s : string) : string * string :=
  match s with
  | EmptyString => ("", "")
  | String c s' =>
      if decide (c = "+"%char \/ c = "-"%char) then ("", s)
      else let '(name, offset) := split_sign s' in (String c name, offset)
  end.

(** [Level.UnmarshalText]: a name in any case, with an optional offset. *)
Definition parse_level (s : string) : result error Z :=
  let failed text := EWrapf ("slog: level string " +:+ Quote s +:+ ": ") (EForeign text) "" in
  let '(name, rest) := split_sign s in
  match (if decide (rest = "") then Ok 0 else Atoi rest) with
  | Err e =>
      Err (failed ("strconv.Atoi: parsing " +:+ Quote rest +:+ ": "
                   +:+ match e with ErrSyntax => "invalid syntax" | ErrRange => "value out of range" end))
  | Ok offset =>
      let upper := ToUpper name in
      if decide (upper = "DEBUG") then Ok (s64 (LevelDebug + offset))
      else if decide (upper = "INFO") then Ok (s64 (LevelInfo + offset))
      else if decide (upper = "WARN") then Ok (s64 (LevelWarn + offset))
      else if decide (upper = "ERROR") then Ok (s64 (LevelError + offset))
      else Err (failed "unknown name")
  end.

Definition attr : Type := string * string.

Record record := mkRecord { rec_level : Z; rec_msg : string; rec_attrs : list attr }.

Inductive format := JSON | Text.

(** A line: each attribute with the groups around it. *)
Record event := mkEvent {
  ev_format : format;
  ev_level : Z;
  ev_msg : string;
  ev_attrs : list (list string * attr);
}.

(** The level variable of the handlers, and the lines written so far. *)
Record logs := mkLogs { level : Z; lines : list event }.

(** A context, as far as logging reads it: the attributes under [contextKey]. *)
Abbreviation log_context := (option (list attr)).

(** The [slog.Handler] interface. *)
Class Handler (H : Type) := {
  Enabled : H -> Z -> logs -> bool;
  Handle : H -> log_context -> record -> logs -> logs;
  With_Attrs : H -> list attr -> H;
  With_Group : H -> string -> H;
}.

(** The handlers of the package: attributes given so far, and open groups. *)
Record baseHandler := mkBase { b_format : format; b_attrs : list (list string * attr); b_groups : list string }.

Definition nest (groups : list string) (attrs : list attr) : list (list string * attr) :=
  (fun a => (groups, a)) <$> attrs.

#[export] Instance base_Handler : Handler baseHandler := {
  Enabled h l w := level w <=? l;
  Handle h ctx r w :=
    mkLogs (level w) (lines w ++ [mkEvent (b_format h) (rec_level r) (rec_msg r)
                                    (b_attrs h ++ nest (b_groups h) (rec_attrs r))]);
  With_Attrs h attrs := mkBase (b_format h) (b_attrs h ++ nest (b_groups h) attrs) (b_groups h);
  With_Group h name := mkBase (b_format h) (b_attrs h) (b_groups h ++ [name]);
}.

(** ** log.go *)

Record contextHandler (H : Type) := mkContextHandler { inner : H }.
Arguments mkContextHandler {H} _.
Arguments inner {H} _.

(** [r.AddAttrs] *)
Definition AddAttrs (r : record) (attrs : list attr) : record :=
  mkRecord (rec_level r) (rec_msg r) (rec_attrs r ++ attrs).

Section context_handler.
Context {H : Type} `{Handler H}.

Definition contextHandler_Handle (h : contextHandler H) (ctx : log_context) (r : record) (w : logs) : logs :=
  let r' := match ctx with Some attrs => AddAttrs r attrs | None => r end in
  Handle (inner h) ctx r' w.

Definition contextHandler_WithAttrs (h : contextHandler H) (attrs : list attr) : contextHandler H :=
  mkContextHandler (With_Attrs (inner h) attrs).

Definition contextHandler_WithGroup (h : contextHandler H) (name : string) : contextHandler H :=
  mkContextHandler (With_Group (inner h) name).

#[export] Instance context_Handler : Handler (contextHandler H) := {
  Enabled h := Enabled (inner h);
  Handle := contextHandler_Handle;
  With_Attrs := contextHandler_WithAttrs;
  With_Group := contextHandler_WithGroup;
}.
End context_handler.

(** [WithAttrs]: the attributes a context carries and the new ones. *)
Definition WithAttrs (ctx : log_context) (attrs : list attr) : log_context :=
  Some (default [] ctx ++ attrs).

(** A logger is its handler. *)
Definition Logger : Type := contextHandler baseHandler.

Definition NewLogger (cfg : LogSettings) (nodeID : string) : result error (Logger * Z) :=
  match parse_level (Level cfg) with
  | Err err => Err (kv (Wrap ReasonInvalidArgument (Some err) ("unknown log level: " +:+ Level cfg)))
  | Ok l =>
      match (if decide (Format cfg = "json") then Some JSON
             else if decide (Format cfg = "text") then Some Text else None) with
      | None => Err (kv (New ReasonInvalidArgument ("unknown log format: " +:+ Format cfg)))
      | Some fmt =>
          Ok (With_Attrs (mkContextHandler (mkBase fmt [] [])) [("node_id", nodeID)], l)
      end
  end.

(** [Logger.Log]: a record below the level is dropped. *)
Definition Logger_Log (l : Logger) (ctx : log_context) (lvl : Z) (msg : string) (args : list attr)
    (w : logs) : logs :=
  if Enabled l lvl w then Handle l ctx (mkRecord lvl msg args) w else w.

(** ** Derived loggers *)

Inductive derivation := DAttrs (attrs : list attr) | DGroup (name : string).

(** [Logger.With] and [Logger.WithGroup], one after the other; an empty group
    name changes nothing. *)
Definition derive (l : Logger) (ds : list derivation) : Logger :=
  foldl (fun l d => match d with
                    | DAttrs attrs => With_Attrs l attrs
                    | DGroup name => if decide (name = "") then l else With_Group l name
                    end) l ds.

(** The attributes a chain of derivations adds, and the groups it leaves open. *)
Fixpoint derived (groups : list string) (ds : list derivation) : list (list string * attr) * list string :=
  match ds with
  | [] => ([], groups)
  | DAttrs attrs :: ds' => let '(l, g) := derived groups ds' in (nest groups attrs ++ l, g)
  | DGroup name :: ds' => derived (if decide (name = "") then groups else groups ++ [name]) ds'
  end.

Lemma derive_inner h ds :
  let '(l, g) := derived (b_groups h) ds in
  derive (mkContextHandler h) ds = mkContextHandler (mkBase (b_format h) (b_attrs h ++ l) g).
Proof.
  revert h. induction ds as [|[attrs|name] ds IH]; intros h; cbn.
  - rewrite app_nil_r. by destruct h.
  - specialize (IH (With_Attrs h attrs)). cbn in IH.
    destruct (derived (b_groups h) ds) as [l g]. cbn in IH. rewrite app_assoc. exact IH.
  - case_decide; [exact (IH h)|]. exact (IH (With_Group h name)).
Qed.

(** The names the rules allow are levels. *)
Lemma known_levels s :
  s ∈ ["debug"; "info"; "warn"; "error"] ->
  exists l, parse_level s = Ok l /\ l ∈ [LevelDebug; LevelInfo; LevelWarn; LevelError].
Proof.
  revert s. apply Forall_forall.
  repeat (apply Forall_cons_2; [eexists; split; [vm_compute; reflexivity|vm_compute; set_solver]|]).
  apply Forall_nil_2.
Qed.

(** *** What the logger does *)

(** The handler the format names. *)
Definition format_of (s : string) : option format :=
  if decide (s = "json") then Some JSON else if decide (s = "text") then Some Text else None.

Lemma NewLogger_cases cfg nodeID :
  match parse_level (Level cfg), format_of (Format cfg) with
  | Ok l, Some fmt =>
      NewLogger cfg nodeID = Ok (mkContextHandler (mkBase fmt [([], ("node_id", nodeID))] []), l)
  | _, _ => exists e, NewLogger cfg nodeID = Err (kv e) /\ reason e = ReasonInvalidArgument
  end.
Proof.
  unfold NewLogger. fold (format_of (Format cfg)).
  destruct (parse_level (Level cfg)) as [l|e].
  - destruct (format_of (Format cfg)); [done|]. eexists. split; [done|].
    by apply New_reason, Registered_ReasonInvalidArgument.
  - eexists. split; [done|]. apply Wrap_reason, Registered_ReasonInvalidArgument.
Qed.

(** The attributes of a context built by a chain of [WithAttrs]. *)
Lemma WithAttrs_chain ctx (chain : list (list attr)) :
  default [] (foldl WithAttrs ctx chain) = default [] ctx ++ concat chain.
Proof.
  revert ctx. induction chain as [|attrs chain IH]; intros ctx; cbn; [by rewrite app_nil_r|].
  rewrite IH. cbn. by rewrite app_assoc.
Qed.

Lemma Logger_Log_emits h ctx lvl msg args w :
  Logger_Log (mkContextHandler h) ctx lvl msg args w
  = if level w <=? lvl then
      mkLogs (level w) (lines w ++ [mkEvent (b_format h) lvl msg
        (b_attrs h ++ nest (b_groups h) (args ++ default [] ctx))])
    else w.
Proof.
  unfold Logger_Log. cbn. destruct (level w <=? lvl); [|done].
  unfold contextHandler_Handle. destruct ctx; cbn; [done|]. by rewrite app_nil_r.
Qed.

(** A valid configuration has a level and a format the logger knows. *)
Lemma Validate_log url_Parse c :
  Validate url_Parse c = None ->
  let cfg := Observability_Log (Config_Observability c) in
  (exists l, parse_level (Level cfg) = Ok l) /\ is_Some (format_of (Format cfg)).
Proof.
  intros Hv%Validate_None. unfold rules, observability_rules in Hv.
  rewrite !Forall_app, !Forall_cons in Hv. cbn [holds on] in Hv.
  destruct Hv as (_ & _ & _ & _ & _ & _ & _ & Hl & Hf & _). split.
  - destruct (known_levels _ Hl) as (l & H & _). by exists l.
  - unfold format_of. apply elem_of_cons in Hf as [->|Hf%list_elem_of_singleton]; [by eexists|].
    rewrite Hf. by eexists.
Qed.

(** C39: The node's logger. A valid configuration always has one, and any
    settings that have none are refused with INVALID_ARGUMENT. A record logged
    through the logger or one derived from it by attributes and groups, with a
    context built by any chain of [WithAttrs], is written as exactly one line
    when its level is at least the current value of the level variable, and not
    at all below it; the line starts with [node_id] outside every group, then
    has the attributes of the derivations in order, each in the groups open when
    it was given, then those of the record and then those of the context, in the
    groups still open. *)
Theorem Logger_correct cfg nodeID :
  (forall url_Parse c, Validate url_Parse c = None -> Observability_Log (Config_Observability c) = cfg ->
     exists logger, NewLogger cfg nodeID = Ok logger)
  /\ (forall e, NewLogger cfg nodeID = Err e -> ReasonOf (Some e) = ReasonInvalidArgument)
  /\ (forall logger lvl0, NewLogger cfg nodeID = Ok (logger, lvl0) ->
      parse_level (Level cfg) = Ok lvl0
      /\ exists fmt, format_of (Format cfg) = Some fmt
      /\ forall ds (chain : list (list attr)) lvl msg args w,
         let '(attrs, groups) := derived [] ds in
         Logger_Log (derive logger ds) (foldl WithAttrs None chain) lvl msg args w
         = if level w <=? lvl then
             mkLogs (level w) (lines w ++ [mkEvent fmt lvl msg
               (([], ("node_id", nodeID)) :: attrs ++ nest groups (args ++ concat chain))])
           else w).
Proof.
  pose proof (NewLogger_cases cfg nodeID) as Hn. split_and!.
  - intros url_Parse c Hv <-. destruct (Validate_log _ _ Hv) as [(l & Hl) (fmt & Hf)].
    rewrite Hl, Hf in Hn. by eexists.
  - intros e He. rewrite He in Hn.
    destruct (parse_level (Level cfg)), (format_of (Format cfg)); try done;
      destruct Hn as (e' & [= ->] & Hr); exact Hr.
  - intros logger lvl0 Hok. rewrite Hok in Hn.
    destruct (parse_level (Level cfg)) as [l|], (format_of (Format cfg)) as [fmt|]; try naive_solver.
    injection Hn as -> ->. split; [done|]. exists fmt. split; [done|]. intros ds chain lvl msg args w.
    pose proof (derive_inner (mkBase fmt [([], ("node_id", nodeID))] []) ds) as Hd. cbn in Hd.
    destruct (derived [] ds) as [attrs groups]. rewrite Hd, Logger_Log_emits. cbn.
    by rewrite WithAttrs_chain.
Qed.

Lemma Logger_correct_witness :
  exists logger lvl0,
    NewLogger (Observability_Log (Config_Observability Defaults)) "n1" = Ok (logger, lvl0)
    /\ lvl0 = LevelInfo
    /\ lines (Logger_Log (derive logger [DGroup "raft"; DAttrs [("group", "7")]])
               (WithAttrs None [("request_id", "r1")]) LevelWarn "slow" [("ms", "12")] (mkLogs lvl0 []))
       = [mkEvent JSON LevelWarn "slow"
            [([], ("node_id", "n1")); (["raft"], ("group", "7")); (["raft"], ("ms", "12"));
             (["raft"], ("request_id", "r1"))]].
Proof.
  destruct (Logger_correct (Observability_Log (Config_Observability Defaults)) "n1") as (_ & _ & H).
  do 2 eexists. split; [vm_compute; reflexivity|]. split; [reflexivity|].
  edestruct H as (_ & fmt & Hf & Hl); [vm_compute; reflexivity|]. vm_compute in Hf. injection Hf as <-.
  exact (f_equal lines (Hl [DGroup "raft"; DAttrs [("group", "7")]] [[("request_id", "r1")]]
    LevelWarn "slow" [("ms", "12")] (mkLogs 0 []))).
Defined.
