(* ===== verification/Syncer.v ===== *)
(** * The background syncer (internal/storage/log.go, [runSyncer])

    A log opened with the interval policy, as the system of its goroutines: the
    callers of [Append], the goroutine of [runSyncer] with its ticker, the call
    of [Close] that stops it, and the clock. Each critical section is one step,
    as in LogSpec.v; [select] picks any of its ready cases. The clock is any that
    keeps the laws of Clock.v. *)

From stdpp Require Import prelude gmap strings list.
From Stdlib Require Import ZArith Lia.
From S2P Require Import Prelude GoBytes GoStrings Kverr Config Record Fs FsFacts Segment Log Recovery LogRepr LogView LogOps LogSpec RecoveryFacts LogTheorems Clock FakeClock.

Local Open Scope Z_scope.

(** ** State *)

(** Where [runSyncer] is: in its [select], holding a tick, returning with both
    deferred calls ahead, past [ticker.Stop], past [close(l.done)]. *)
Inductive syncer_pc := Selecting | Ticked | Returning | TickerStopped | Exited.

(** Where the [Close] that found the log open is: it set the flag, it closed
    [l.stop] and waits for [l.done], it returned. *)
Inductive close_pc := NotClosing | FlagSet | Waiting | Returned (r : result error unit).

#[export] Instance syncer_pc_eq_dec : EqDecision syncer_pc.
Proof. solve_decision. Defined.

Record sys (K : Type) := mkSys {
  s_st : st;
  s_clk : K;
  s_ticker : nat;
  s_pc : syncer_pc;
  s_close : close_pc;
}.
Arguments mkSys {K}.
Arguments s_st {K}.
Arguments s_clk {K}.
Arguments s_ticker {K}.
Arguments s_pc {K}.
Arguments s_close {K}.

(** Who took a step: an append with what it acknowledged, the clock advancing,
    another user of the clock, the syncer, [Close], or the world deciding which
    of the next system calls fail. *)
Inductive label :=
| LAppend (acks : list (Z * bytes)) | LAdvance (d : Z) | LOther | LSyncer | LClose | LWorld.

Definition acks_of (ls : list label) : list (Z * bytes) :=
  ls ≫= (fun a => match a with LAppend acks => acks | _ => [] end).

Lemma acks_of_app ls1 ls2 : acks_of (ls1 ++ ls2) = acks_of ls1 ++ acks_of ls2.
Proof. apply bind_app. Qed.

(** The time that passes in a run. *)
Fixpoint elapsed (ls : list label) : Z :=
  match ls with
  | [] => 0
  | LAdvance d :: ls' => d + elapsed ls'
  | _ :: ls' => elapsed ls'
  end.

(** How often the syncer moves, and how often the clock. *)
Fixpoint moves (ls : list label) : nat :=
  match ls with [] => 0 | LSyncer :: ls' => S (moves ls') | _ :: ls' => moves ls' end.
Fixpoint advances (ls : list label) : nat :=
  match ls with [] => 0 | LAdvance _ :: ls' => S (advances ls') | _ :: ls' => advances ls' end.

Section syncer.
Context {K : Type} `{HL : ClockLaws K}.
Local Abbreviation sys := (sys K).

(** The channel [l.stop] is closed. *)
Definition stopped (s : sys) : bool :=
  match s_close s with Waiting | Returned _ => true | _ => false end.

(** ** Steps *)

(** The end of [OpenLog] under the interval policy; [None] is the panic of
    [NewTicker]. *)
Definition start (c : LogConfig) (l : Log) (w : world) (clk : K) : option sys :=
  '(t, clk') ← NewTicker (lc_FsyncInterval c) clk;
  Some (mkSys (St l w) clk' t Selecting NotClosing).

(** The next step of [runSyncer]; [take_stop] chooses the case of [select]. *)
Definition runSyncer (take_stop : bool) (s : sys) : option sys :=
  match s_pc s with
  | Selecting =>
      if take_stop then
        if stopped s then Some (mkSys (s_st s) (s_clk s) (s_ticker s) Returning (s_close s)) else None
      else
        '(_, clk') ← C (s_ticker s) (s_clk s);
        Some (mkSys (s_st s) clk' (s_ticker s) Ticked (s_close s))
  | Ticked => Some (mkSys (syncIfDirty (s_st s)).2 (s_clk s) (s_ticker s) Selecting (s_close s))
  | Returning =>
      Some (mkSys (s_st s) (Stop (s_ticker s) (s_clk s)) (s_ticker s) TickerStopped (s_close s))
  | TickerStopped => Some (mkSys (s_st s) (s_clk s) (s_ticker s) Exited (s_close s))
  | Exited => None
  end.

(** The next step of [Close]: under the first lock, [close(l.stop)], and after
    [<-l.done] under the second lock. *)
Definition Close_step (s : sys) : option sys :=
  match s_close s with
  | NotClosing =>
      match Close_begin (s_st s) with
      | (Ok true, st') => Some (mkSys st' (s_clk s) (s_ticker s) (s_pc s) FlagSet)
      | _ => None
      end
  | FlagSet => Some (mkSys (s_st s) (s_clk s) (s_ticker s) (s_pc s) Waiting)
  | Waiting =>
      if decide (s_pc s = Exited) then
        let '(r, st') := Close_finish (s_st s) in
        Some (mkSys st' (s_clk s) (s_ticker s) (s_pc s) (Returned r))
      else None
  | Returned _ => None
  end.

Definition with_st (s : sys) (st' : st) : sys := mkSys st' (s_clk s) (s_ticker s) (s_pc s) (s_close s).
Definition with_clk (s : sys) (clk' : K) : sys := mkSys (s_st s) clk' (s_ticker s) (s_pc s) (s_close s).

Inductive sys_step : label -> sys -> sys -> Prop :=
| sys_append s ctx c i st' :
    Append ctx c (s_st s) = (Ok i, st') -> sys_step (LAppend [(i, c)]) s (with_st s st')
| sys_append_failed s ctx c e st' :
    Append ctx c (s_st s) = (Err e, st') -> sys_step (LAppend []) s (with_st s st')
| sys_advance s d clk' : passes d (s_clk s) clk' -> sys_step (LAdvance d) s (with_clk s clk')
| sys_other s clk' : uses (s_ticker s) (s_clk s) clk' -> sys_step LOther s (with_clk s clk')
| sys_syncer s b s' : runSyncer b s = Some s' -> sys_step LSyncer s s'
| sys_close s s' : Close_step s = Some s' -> sys_step LClose s s'
| sys_world s l w script :
    s_st s = St l w -> sys_step LWorld s (with_st s (St l (World (w_dirs w) script (w_log w) (w_fresh w)))).

Inductive sys_run : list label -> sys -> sys -> Prop :=
| sys_run_nil s : sys_run [] s s
| sys_run_cons a ls s1 s2 s3 : sys_step a s1 s2 -> sys_run ls s2 s3 -> sys_run (a :: ls) s1 s3.

(** The log accepts records: it has not failed and is not closed. *)
Definition healthy (s : sys) : Prop := ~ refusing (st_log (s_st s)).

(** Every record written so far was flushed. *)
Definition clean (s : sys) : Prop := healthy s /\ dirty (st_log (s_st s)) = false.

(** ** The invariant *)

Record sys_inv (i : Z) (s : sys) : Prop := {
  inv_clock : clock_ok (s_clk s);
  inv_ticker : exists tk, ticker (s_clk s) (s_ticker s) = Some tk /\ t_interval tk = i
    /\ (s_pc s ∈ [Selecting; Ticked; Returning] <-> t_running tk = true);
  inv_stop : s_pc s ∈ [Returning; TickerStopped; Exited] -> stopped s = true;
  inv_flag : s_close s <> NotClosing -> closed (st_log (s_st s)) = true;
  inv_done r : s_close s = Returned r -> s_pc s = Exited;
}.

(** The ticker of the syncer. *)
Definition tick_of (s : sys) : option ticking := ticker (s_clk s) (s_ticker s).

(** *** The steps, one by one *)

(** A receive of the syncer. *)
Lemma recv_inv t k c k' :
  clock_ok k -> C t k = Some (c, k') ->
  exists tk, ticker k t = Some tk /\ t_tick tk = Some c /\ clock_ok k' /\ Now k' = Now k /\ ticker k' t = Some (unread tk).
Proof.
  intros Hk Hc. pose proof (law_C k t Hk) as Hl. rewrite Hc in Hl.
  destruct Hl as (tk & ? & ? & ? & ? & ? & _). by exists tk.
Qed.

Lemma runSyncer_inv b s s' :
  runSyncer b s = Some s' ->
  match s_pc s with
  | Selecting =>
      (b = true /\ stopped s = true /\ s' = mkSys (s_st s) (s_clk s) (s_ticker s) Returning (s_close s))
      \/ (b = false /\ exists c clk', C (s_ticker s) (s_clk s) = Some (c, clk')
           /\ s' = mkSys (s_st s) clk' (s_ticker s) Ticked (s_close s))
  | Ticked => s' = mkSys (syncIfDirty (s_st s)).2 (s_clk s) (s_ticker s) Selecting (s_close s)
  | Returning =>
      s' = mkSys (s_st s) (Stop (s_ticker s) (s_clk s)) (s_ticker s) TickerStopped (s_close s)
  | TickerStopped => s' = mkSys (s_st s) (s_clk s) (s_ticker s) Exited (s_close s)
  | Exited => False
  end.
Proof.
  unfold runSyncer. destruct (s_pc s); [|by intros [= <-]..|done].
  destruct b; [destruct (stopped s); [intros [= <-]; by left|done]|].
  destruct (C _ _) as [[c clk']|]; [|done]. intros [= <-]. right. eauto.
Qed.

Lemma Close_step_inv s s' :
  Close_step s = Some s' ->
  s_clk s' = s_clk s /\ s_ticker s' = s_ticker s /\ s_pc s' = s_pc s
  /\ match s_close s with
     | NotClosing => Close_begin (s_st s) = (Ok true, s_st s') /\ s_close s' = FlagSet
     | FlagSet => s_st s' = s_st s /\ s_close s' = Waiting
     | Waiting => s_pc s = Exited
         /\ exists r, Close_finish (s_st s) = (r, s_st s') /\ s_close s' = Returned r
     | Returned _ => False
     end.
Proof.
  unfold Close_step. destruct (s_close s); [| | |done].
  - by destruct (Close_begin (s_st s)) as [[[]|] st']; intros [= <-].
  - by intros [= <-].
  - case_decide; [|done]. destruct (Close_finish (s_st s)) as [r st'] eqn:Hf. intros [= <-].
    cbn. eauto 10.
Qed.

Lemma Close_begin_true s s' : Close_begin s = (Ok true, s') -> closed (st_log s') = true.
Proof.
  destruct s as [l w]. unfold Close_begin. rewrite (bind_ok _ _ _ l (St l w)) by done.
  destruct (closed l); by intros [= <-].
Qed.

(** On the log, a step of the system is a step of LogSpec.v or nothing. *)
Lemma sys_step_log i a s s' :
  sys_inv i s -> sys_step a s s' ->
  (s_st s' = s_st s /\ acks_of [a] = []) \/ step (s_st s) (acks_of [a]) (s_st s').
Proof.
  intros Hi Hs. inversion Hs as [? ctx c n st' HA|? ctx c e st' HA| | |? b ? HS|? ? HC|? l w script Hst]; subst;
    try (by left).
  - right. by eapply step_append.
  - right. by eapply step_append_failed.
  - apply runSyncer_inv in HS. destruct (s_pc s); subst; try (by left).
    + destruct HS as [(_ & _ & ->)|(_ & c & clk' & _ & ->)]; by left.
    + right. eapply step_tick. apply surjective_pairing.
  - apply Close_step_inv in HC as (_ & _ & _ & HC). destruct (s_close s) eqn:Hc.
    + right. eapply step_close_begin, HC.
    + left. by destruct HC as [-> _].
    + destruct HC as (_ & r & HC & _). right. eapply step_close_finish; [|done].
      apply (inv_flag i s Hi). by rewrite Hc.
    + done.
  - right. cbn. rewrite Hst. apply step_env.
Qed.

Lemma step_closed_mono s acks s' : step s acks s' -> closed (st_log s) = true -> closed (st_log s') = true.
Proof.
  destruct s as [l w]. intros Hstep Hc.
  inversion Hstep as [ctx c ? n ? HA|ctx c ? e ? HA|? r ? HT|? r ? HC|? r ? _ HC|? ? script]; subst; simpl in *.
  1,2: by destruct (Append_refusing l w ctx c _ _ (or_intror Hc) HA) as [-> _].
  - unfold syncIfDirty in HT. rewrite (bind_ok _ _ _ l (St l w)) in HT by done.
    rewrite Hc, orb_true_r in HT. by injection HT as <- <-.
  - unfold Close_begin in HC. rewrite (bind_ok _ _ _ l (St l w)), Hc in HC by done. by injection HC as <- <-.
  - by rewrite (proj1 (Close_finish_log _ _ _ _ HC)).
  - done.
Qed.

(** *** The invariant holds *)

Lemma start_inv c l w k s :
  clock_ok k -> start c l w k = Some s -> sys_inv (lc_FsyncInterval c) s /\ s_st s = St l w.
Proof.
  intros Hk. unfold start. pose proof (law_NewTicker k (lc_FsyncInterval c) Hk) as Hl.
  destruct (NewTicker _ k) as [[t k']|]; [|done]. destruct Hl as (_ & Hk' & _ & _ & Ht & _).
  intros [= <-]. split; [|done]. split; cbn; [done| |set_solver|done|done].
  eexists. split_and!; [done..|]. cbn. split; [done|]. intros _. left.
Qed.

Lemma sys_step_inv i a s s' : sys_step a s s' -> sys_inv i s -> sys_inv i s'.
Proof.
  intros Hs Hi. pose proof (sys_step_log i a s s' Hi Hs) as Hlog.
  assert (closed (st_log (s_st s)) = true -> closed (st_log (s_st s')) = true) as Hcl.
  { destruct Hlog as [[-> _]|Hst]; [done|]. by eapply step_closed_mono. }
  pose proof Hi as [Hck (tk & Htk & Hint & Hlive) Hstop Hflag Hdone].
  inversion Hs as [? ctx c n st' HA|? ctx c e st' HA|? d clk' Hp|? clk' Hu
    |? b ? HS|? ? HC|? l w script Hst]; subst; unfold with_st, with_clk in *.
  1,2,7: by split; eauto.
  - destruct (passes_ticker _ _ _ _ _ Hck Htk Hp) as (Hck' & _ & tk' & Htk' & Ht').
    destruct (ticks_until_same _ _ _ Ht') as (Hint' & Hrun' & _).
    split; cbn; [done| |done..]. exists tk'. rewrite Hrun'. by split_and!.
  - destruct (uses_keeps _ _ _ _ Hck Htk Hu) as (Hck' & _ & Htk'). split; cbn; [done|by eauto|done..].
  - apply runSyncer_inv in HS. destruct (s_pc s) eqn:Hpc.
    + destruct HS as [(_ & Hst & ->)|(_ & c & clk' & Hr & ->)].
      * split; cbn; [done| |done|done|by intros r Hr%Hdone]. exists tk. rewrite <- Hlive. split_and!; [done..|set_solver].
      * apply recv_inv in Hr as (tk' & Htk' & _ & Hck' & _ & Hun); [|done]. rewrite Htk in Htk'. injection Htk' as <-.
        split; cbn; [done| |set_solver|done|by intros r Hr%Hdone]. eexists. split_and!; [done..|].
        cbn. rewrite <- Hlive. set_solver.
    + subst s'. split; cbn in *; [done| |set_solver|auto|by intros r Hr%Hdone]. exists tk. rewrite <- Hlive.
      split_and!; [done..|set_solver].
    + subst s'. destruct (law_Stop (s_clk s) (s_ticker s) Hck) as (Hck' & _ & _ & Ht).
      rewrite Htk in Ht. inversion Ht as [? ? (tick & -> & _) E1 E2|]; subst.
      split; cbn; [done| | |done|by intros r Hr%Hdone].
      * eexists. split_and!; [done..|]. cbn. set_solver.
      * intros _. apply Hstop. set_solver.
    + subst s'. split; cbn; [done| | |done|done].
      * exists tk. rewrite <- Hlive. split_and!; [done..|set_solver].
      * intros _. apply Hstop. set_solver.
    + done.
  - apply Close_step_inv in HC as (Hk & Ht & Hp & HC). split; rewrite ?Hk, ?Ht, ?Hp; eauto.
    + intros Hx%Hstop. unfold stopped in *. destruct (s_close s); try done.
      by destruct HC as (_ & r & _ & ->).
    + intros _. destruct (s_close s) eqn:Hcp; [|apply Hcl, Hflag; done..].
      by eapply Close_begin_true, HC.
    + intros r Hr. rewrite Hr in HC. destruct (s_close s); naive_solver.
Qed.

Lemma sys_run_inv i ls s s' : sys_run ls s s' -> sys_inv i s -> sys_inv i s'.
Proof. induction 1; eauto using sys_step_inv. Qed.

Lemma sys_run_app ls1 ls2 s1 s2 s3 : sys_run ls1 s1 s2 -> sys_run ls2 s2 s3 -> sys_run (ls1 ++ ls2) s1 s3.
Proof. induction 1; cbn; [done|]. intros. econstructor; eauto. Qed.

(** On the log, a run of the system is a run of LogSpec.v. *)
Lemma sys_run_log i ls s s' : sys_inv i s -> sys_run ls s s' -> run (s_st s) (acks_of ls) (s_st s').
Proof.
  intros Hi Hrun. revert Hi. induction Hrun as [s|a ls s1 s2 s3 Hs Hr IH]; intros Hi; [apply run_refl|].
  specialize (IH (sys_step_inv _ _ _ _ Hs Hi)).
  change (a :: ls) with ([a] ++ ls). rewrite acks_of_app.
  destruct (sys_step_log i a s1 s2 Hi Hs) as [[Hst ->]|Hst]; [by rewrite <- Hst|]. by eapply run_step.
Qed.

Lemma run_refusing s acks s' : run s acks s' -> refusing (st_log s) -> refusing (st_log s').
Proof.
  induction 1 as [|s1 acks1 s2 acks2 s3 Hst Hrun IH]; [done|]. intros Hre. apply IH.
  destruct s1 as [l w]. by destruct (step_refusing _ _ _ _ Hre Hst) as (_ & ? & _).
Qed.

(** A log that is healthy now always was. *)
Lemma healthy_before i ls s s' : sys_inv i s -> sys_run ls s s' -> healthy s' -> healthy s.
Proof. intros Hi Hr Hh Hre. apply Hh. eapply run_refusing; [by eapply sys_run_log|done]. Qed.

Lemma healthy_open i s : sys_inv i s -> healthy s -> s_close s = NotClosing.
Proof.
  intros Hi Hh. destruct (s_close s) eqn:Hc; [done|exfalso..];
    (apply Hh; right; apply (inv_flag i s Hi); by rewrite Hc).
Qed.

Lemma healthy_running i s : sys_inv i s -> healthy s -> s_pc s = Selecting \/ s_pc s = Ticked.
Proof.
  intros Hi Hh. pose proof (inv_stop i s Hi) as Hs. unfold stopped in Hs.
  rewrite (healthy_open i s Hi Hh) in Hs.
  destruct (s_pc s); [by left|by right|exfalso..]; discriminate Hs; set_solver.
Qed.

(** ** Progress *)

(** A tick is buffered or being served. *)
Definition owes (s : sys) : Prop :=
  s_pc s = Ticked \/ exists tk c, tick_of s = Some tk /\ t_tick tk = Some c.

(** The steps a syncer that owes a flush is away from it. *)
Definition rank (s : sys) : nat := if decide (s_pc s = Ticked) then 1 else 2.

(** A flush is owed, or will be when [rem] has passed. *)
Definition due (rem : Z) (s : sys) : Prop :=
  owes s \/ exists tk, tick_of s = Some tk /\ t_next tk - Now (s_clk s) <= rem.

(** The background flush leaves a healthy log clean. *)
Lemma syncIfDirty_clean s :
  ~ refusing (st_log (syncIfDirty s).2) -> dirty (st_log (syncIfDirty s).2) = false.
Proof.
  destruct s as [l w]. unfold syncIfDirty. rewrite (bind_ok _ _ _ l (St l w)) by done. intros Hh.
  destruct (dirty l) eqn:Hd; [|done]. simpl in *.
  destruct (bool_decide (is_Some (failed l)) || closed l) eqn:Hskip.
  { destruct Hh. apply orb_true_iff in Hskip as [Hf%bool_decide_eq_true|Hc]; [by left|by right]. }
  destruct (sync (St l w)) as [r [l1 w1]] eqn:Hs. rewrite (try_bind _ _ _ _ _ Hs) in Hh |- *.
  destruct (sync_log _ _ _ Hs) as [Hl|(e & Hl)]; simpl in Hl; subst l1; destruct r; try done;
    (destruct Hh; left; by eexists).
Qed.

(** What the syncer does in a healthy log: it takes a tick, or flushes. *)
Lemma healthy_runSyncer i b s s' :
  sys_inv i s -> runSyncer b s = Some s' -> healthy s' ->
  clean s' \/ (s_pc s = Selecting /\ s_pc s' = Ticked).
Proof.
  intros Hi Hr Hh. pose proof (sys_syncer _ _ _ Hr) as Hs.
  pose proof (healthy_open i s' (sys_step_inv _ _ _ _ Hs Hi) Hh) as Hopen'.
  pose proof (healthy_before i [LSyncer] s s' Hi ltac:(econstructor; [exact Hs|constructor]) Hh) as Hhs.
  apply runSyncer_inv in Hr. destruct (healthy_running i s Hi Hhs) as [Hpc|Hpc]; rewrite Hpc in Hr.
  - destruct Hr as [(_ & Hst & ->)|(_ & c & clk' & _ & ->)]; [|by right].
    unfold stopped in Hst. cbn in Hopen'. by rewrite Hopen' in Hst.
  - left. split; [done|]. subst s'. by apply syncIfDirty_clean.
Qed.

Lemma Close_step_healthy i s s' : sys_inv i s -> Close_step s = Some s' -> ~ healthy s'.
Proof.
  intros Hi Hc Hh. pose proof (healthy_open i s' (sys_step_inv _ _ _ _ (sys_close _ _ Hc) Hi) Hh) as Hopen.
  apply Close_step_inv in Hc as (_ & _ & _ & Hc). rewrite Hopen in Hc. destruct (s_close s); naive_solver.
Qed.

(** The ticker of a healthy log runs. *)
Lemma healthy_ticking i s tk :
  sys_inv i s -> healthy s -> tick_of s = Some tk ->
  t_running tk = true /\ Now (s_clk s) < t_next tk <= Now (s_clk s) + i.
Proof.
  intros Hi Hh Htk. destruct (inv_ticker i s Hi) as (tk' & Htk' & <- & Hlive).
  unfold tick_of in Htk. rewrite Htk in Htk'. injection Htk' as <-.
  assert (t_running tk = true) as Hr by (apply Hlive; destruct (healthy_running _ s Hi Hh) as [-> | ->]; set_solver).
  split; [done|]. by apply (law_ticker (s_clk s) (s_ticker s) tk (inv_clock _ s Hi) Htk).
Qed.

Lemma owes_step i a s s' :
  sys_inv i s -> sys_step a s s' -> healthy s' -> owes s ->
  clean s' \/ (owes s' /\ (rank s' + moves [a] <= rank s)%nat).
Proof.
  intros Hi Hs Hh Ho. pose proof (inv_clock i s Hi) as Hck.
  inversion Hs as [? ctx c n st' HA|? ctx c e st' HA|? d clk' Hp|? clk' Hu
    |? b ? HS|? ? HC|? l w script Hst]; subst; unfold with_st, with_clk in *.
  1,2,7: by right; split; [exact Ho|unfold rank; cbn [s_pc moves]; lia].
  - right. split; [|unfold rank; cbn [s_pc moves]; lia]. destruct Ho as [Ho|(tk & c & Htk & Hc)]; [by left|right].
    destruct (passes_ticker _ _ _ _ _ Hck Htk Hp) as (_ & _ & tk' & Htk' & Ht').
    exists tk', c. split; [done|]. by apply (ticks_until_same _ _ _ Ht').
  - right. split; [|unfold rank; cbn [s_pc moves]; lia]. destruct Ho as [Ho|(tk & c & Htk & Hc)]; [by left|right].
    destruct (uses_keeps _ _ _ _ Hck Htk Hu) as (_ & _ & Htk'). by exists tk, c.
  - destruct (healthy_runSyncer i b s s' Hi HS Hh) as [|[Hpc Hpc']]; [by left|right].
    split; [by left|]. unfold rank. by rewrite Hpc, Hpc'.
  - by destruct (Close_step_healthy i s s' Hi HC).
Qed.

Lemma due_step i a s s' rem :
  sys_inv i s -> sys_step a s s' -> healthy s' -> due rem s -> clean s' \/ due (rem - elapsed [a]) s'.
Proof.
  intros Hi Hs Hh [Ho|(tk & Htk & Hrem)].
  { destruct (owes_step i a s s' Hi Hs Hh Ho) as [|[? _]]; [by left|by right; left]. }
  pose proof (inv_clock i s Hi) as Hck.
  pose proof (healthy_before i [a] s s' Hi ltac:(econstructor; [exact Hs|constructor]) Hh) as Hhs.
  inversion Hs as [? ctx c n st' HA|? ctx c e st' HA|? d clk' Hp|? clk' Hu
    |? b ? HS|? ? HC|? l w script Hst]; subst; unfold with_st, with_clk in *.
  1,2,7: by right; right; exists tk; cbn; split; [exact Htk|lia].
  - right. destruct (healthy_ticking i s tk Hi Hhs Htk) as [Hrun _].
    destruct (passes_ticker _ _ _ _ _ Hck Htk Hp) as (_ & Hnow & tk' & Htk' & Ht').
    unfold ticks_until in Ht'. rewrite Hrun in Ht'. cbn in Ht'.
    destruct (Z.leb_spec (t_next tk) (Now (s_clk s) + d)).
    + left. right. destruct Ht' as (c & -> & _). by eexists _, c.
    + subst tk'. right. exists tk. split; [done|]. cbn. lia.
  - right. right. destruct (uses_keeps _ _ _ _ Hck Htk Hu) as (_ & Hnow & Htk').
    exists tk. split; [done|]. cbn. lia.
  - destruct (healthy_runSyncer i b s s' Hi HS Hh) as [|[_ Hpc']]; [by left|by right; left; left].
  - by destruct (Close_step_healthy i s s' Hi HC).
Qed.

(** The run flushed every record at some point. *)
Definition flushes (ls : list label) (s s' : sys) : Prop :=
  exists la lb m, ls = la ++ lb /\ sys_run la s m /\ sys_run lb m s' /\ clean m.

Lemma flushes_now a ls s1 s2 s3 :
  sys_step a s1 s2 -> sys_run ls s2 s3 -> clean s2 -> flushes (a :: ls) s1 s3.
Proof.
  intros Hs Hr Hc. exists [a], ls, s2. split_and!; try done. econstructor; [exact Hs|constructor].
Qed.

Lemma flushes_later ls1 ls2 s1 s2 s3 :
  sys_run ls1 s1 s2 -> flushes ls2 s2 s3 -> flushes (ls1 ++ ls2) s1 s3.
Proof.
  intros Hr (la & lb & m & -> & Ha & Hb & Hc). exists (ls1 ++ la), lb, m.
  split_and!; [by rewrite app_assoc|by eapply sys_run_app|done..].
Qed.

Lemma flushes_earlier ls1 ls2 s1 s2 s3 :
  flushes ls1 s1 s2 -> sys_run ls2 s2 s3 -> flushes (ls1 ++ ls2) s1 s3.
Proof.
  intros (la & lb & m & -> & Ha & Hb & Hc) Hr. exists la, (lb ++ ls2), m.
  split_and!; [by rewrite app_assoc|done|by eapply sys_run_app|done..].
Qed.

Lemma owes_run i ls s s' :
  sys_run ls s s' -> sys_inv i s -> healthy s' -> owes s ->
  flushes ls s s' \/ (owes s' /\ (rank s' + moves ls <= rank s)%nat).
Proof.
  induction 1 as [s|a ls s1 s2 s3 Hs Hr IH]; intros Hi Hh Ho; [right; split; [done|cbn; lia]|].
  pose proof (sys_step_inv _ _ _ _ Hs Hi) as Hi2. pose proof (healthy_before _ _ _ _ Hi2 Hr Hh) as Hh2.
  destruct (owes_step i a s1 s2 Hi Hs Hh2 Ho) as [Hc|[Ho2 Hk]]; [left; by eapply flushes_now|].
  destruct (IH Hi2 Hh Ho2) as [Hf|[Ho3 Hk3]].
  - left. apply (flushes_later [a] _ s1 s2); [|done]. econstructor; [exact Hs|constructor].
  - right. split; [done|]. change (moves (a :: ls)) with (moves ([a] ++ ls)).
    destruct a; cbn in *; lia.
Qed.

Lemma due_run i ls s s' rem :
  sys_run ls s s' -> sys_inv i s -> healthy s' -> due rem s -> rem <= elapsed ls ->
  flushes ls s s' \/ owes s'.
Proof.
  intros Hr. revert rem. induction Hr as [s|a ls s1 s2 s3 Hs Hr IH]; intros rem Hi Hh Hd Hrem.
  { right. destruct Hd as [Ho|(tk & Htk & Hd)]; [done|exfalso]. cbn in Hrem.
    destruct (healthy_ticking i s tk Hi Hh Htk) as [_ ?]. lia. }
  pose proof (sys_step_inv _ _ _ _ Hs Hi) as Hi2. pose proof (healthy_before _ _ _ _ Hi2 Hr Hh) as Hh2.
  destruct (due_step i a s1 s2 rem Hi Hs Hh2 Hd) as [Hc|Hd2]; [left; by eapply flushes_now|].
  destruct (IH (rem - elapsed [a]) Hi2 Hh Hd2) as [Hf|Ho]; [destruct a; cbn in *; lia| |by right].
  left. apply (flushes_later [a] _ s1 s2); [|done]. econstructor; [exact Hs|constructor].
Qed.

(** The next tick is never more than an interval away. *)
Lemma due_interval i s : sys_inv i s -> healthy s -> due i s.
Proof.
  intros Hi Hh. destruct (inv_ticker i s Hi) as (tk & Htk & _). right. exists tk. split; [done|].
  destruct (healthy_ticking i s tk Hi Hh Htk) as [_ ?]. lia.
Qed.

Lemma owes_enabled i s : sys_inv i s -> healthy s -> owes s -> exists b s', runSyncer b s = Some s'.
Proof.
  intros Hi Hh Ho. exists false. unfold runSyncer.
  destruct (healthy_running i s Hi Hh) as [Hpc|Hpc]; rewrite Hpc; [|by eexists].
  destruct Ho as [?|(tk & c & Htk & Hc)]; [congruence|].
  pose proof (law_C (s_clk s) (s_ticker s) (inv_clock i s Hi)) as Hl.
  destruct (C _ _) as [[c' clk']|]; [by eexists|]. unfold tick_of in Htk. rewrite Htk in Hl. cbn in Hl. congruence.
Qed.

(** Once an interval has passed, the log was flushed, or the syncer owes it and
    is fewer than two steps away. *)
Lemma interval_flushes i ls1 ls2 s s1 s2 :
  sys_inv i s -> sys_run ls1 s s1 -> i <= elapsed ls1 -> sys_run ls2 s1 s2 -> healthy s2 ->
  flushes (ls1 ++ ls2) s s2 \/ (owes s2 /\ (moves ls2 < 2)%nat).
Proof.
  intros Hi Hr1 Hel Hr2 Hh. pose proof (sys_run_inv _ _ _ _ Hr1 Hi) as Hi1.
  pose proof (healthy_before _ _ _ _ Hi1 Hr2 Hh) as Hh1.
  pose proof (due_interval i s Hi (healthy_before _ _ _ _ Hi Hr1 Hh1)) as Hd.
  destruct (due_run i ls1 s s1 i Hr1 Hi Hh1 Hd Hel) as [Hfl|Ho]; [left; by eapply flushes_earlier|].
  destruct (owes_run i ls2 s1 s2 Hr2 Hi1 Hh Ho) as [Hfl|[Ho2 Hk]]; [left; by eapply flushes_later|].
  right. split; [done|]. unfold rank in Hk. repeat case_decide; lia.
Qed.

(** The view at a point of a run, and that it holds everything acknowledged. *)
Lemma sys_run_view c l w v f s0 ls s rest :
  log_repr True l w v -> clock_ok f -> start c l w f = Some s0 ->
  sys_run ls s0 s -> v_next v + len (acks_of (ls ++ rest)) + 1 < 2 ^ 64 ->
  exists v', log_repr True (st_log (s_st s)) (st_w (s_st s)) v'
    /\ v_cmds v' = v_cmds v ++ (acks_of ls).*2 /\ grows v v' /\ cfg (st_log (s_st s)) = cfg l.
Proof.
  intros HR Hf Hs0 Hr Hb. destruct (start_inv c l w f s0 Hf Hs0) as [Hi0 Hst0].
  pose proof (sys_run_log _ _ _ _ Hi0 Hr) as Hrun. rewrite Hst0 in Hrun.
  assert (v_next v + len (acks_of ls) + 1 < 2 ^ 64) as Hb'.
  { rewrite acks_of_app, len_app in Hb. pose proof (len_nonneg (acks_of rest)). lia. }
  destruct (run_repr True l w v _ _ HR Hb' Hrun) as (v' & HR' & Hc & _ & Hg & Hcfg). by exists v'.
Qed.

(** [OpenLog] checks the interval before it makes the ticker. *)
Lemma start_total ctx c w0 l w f :
  OpenLog ctx c w0 = (Ok l, w) -> lc_Fsync c = FsyncInterval -> clock_ok f -> exists s, start c l w f = Some s.
Proof.
  intros Hop Hp Hf. assert (0 < lc_FsyncInterval c) as Hi.
  { unfold OpenLog in Hop. destruct (LogConfig_Validate c) eqn:Hv.
    { unfold contextError in Hop. destruct (ctx_Err ctx); discriminate Hop. }
    unfold LogConfig_Validate, LogConfig_problems in Hv. rewrite Hp in Hv.
    destruct (Z.leb_spec (lc_FsyncInterval c) 0); [|done].
    by destruct (decide (lc_Dir c = "")), (lc_SegmentBytes c <=? 0). }
  pose proof (law_NewTicker f (lc_FsyncInterval c) Hf) as Hl. unfold start.
  destruct (NewTicker _ f) as [[t f']|]; [by eexists|lia].
Qed.

(** C10: Records of a settled log with the interval policy reach the disk. The
    log is settled ([log_repr True]) when what it was opened with was on disk;
    recovery does not flush records it finds only in memory, and neither does the
    syncer until the next append. Opening a log with the interval policy always
    gets its ticker, on any clock that keeps the laws of Clock.v. In any
    execution of appends, [Close], time passing, other users of the clock and
    failing system calls, once an interval has passed after a state, the log has
    failed or is closed, or every record it had there (those it was opened with
    and those acknowledged before) has been on disk at some point since, or the
    syncer can take a step and needs fewer than two of them: it is never blocked,
    and the second step flushes. *)
Theorem syncer_flushes ctx c w0 l w v f :
  OpenLog ctx c w0 = (Ok l, w) -> lc_Fsync c = FsyncInterval -> log_repr True l w v -> clock_ok f ->
  exists s0, start c l w f = Some s0
  /\ forall ls0 s ls1 s1 ls2 s2,
     sys_run ls0 s0 s -> sys_run ls1 s s1 -> lc_FsyncInterval c <= elapsed ls1 -> sys_run ls2 s1 s2 ->
     healthy s2 -> v_next v + len (acks_of (ls0 ++ ls1 ++ ls2)) + 1 < 2 ^ 64 ->
     (exists la lb m v', ls1 ++ ls2 = la ++ lb /\ sys_run la s m /\ sys_run lb m s2
        /\ log_repr True (st_log (s_st m)) (st_w (s_st m)) v'
        /\ v_cmds v' = v_cmds v ++ (acks_of (ls0 ++ la)).*2
        /\ v_disk v' = v_records v')
     \/ ((moves ls2 < 2)%nat /\ exists b s3, runSyncer b s2 = Some s3).
Proof.
  intros Hop Hp HR Hf. destruct (start_total ctx c w0 l w f Hop Hp Hf) as (s0 & Hs0).
  exists s0. split; [done|]. intros ls0 s ls1 s1 ls2 s2 Hr0 Hr1 Hel Hr2 Hh Hb.
  pose proof (sys_run_inv _ _ _ _ Hr0 (proj1 (start_inv c l w f s0 Hf Hs0))) as Hi.
  destruct (interval_flushes _ _ _ _ _ _ Hi Hr1 Hel Hr2 Hh) as [Hfl|[Ho Hm]].
  2:{ right. split; [done|]. eapply owes_enabled; [|done..]. by eapply sys_run_inv, sys_run_inv. }
  left. destruct Hfl as (la & lb & m & Hls & Ha & Hlb & [Hhm Hdm]). rewrite Hls, app_assoc in Hb.
  destruct (sys_run_view c l w v f s0 _ m lb HR Hf Hs0 (sys_run_app _ _ _ _ _ Hr0 Ha) Hb)
    as (v' & HR' & Hc & _). exists la, lb, m, v'. split_and!; [done..|].
  apply (log_clean _ _ _ _ HR' I); [|done]. apply eq_None_not_Some. intros Hfail. apply Hhm. by left.
Qed.

(** ** Stopping *)

(** The steps the syncer can take without new ticks. *)
Definition measure (s : sys) : nat :=
  let pending := match tick_of s ≫= t_tick with Some _ => 2 | None => 0 end%nat in
  match s_pc s with
  | Selecting => 3 + pending
  | Ticked => 4 + pending
  | Returning => 2
  | TickerStopped => 1
  | Exited => 0
  end%nat.

Lemma measure_le s : (measure s <= 6)%nat.
Proof. unfold measure. destruct (s_pc s), (tick_of s ≫= t_tick); lia. Qed.

Lemma measure_step i a s s' :
  sys_inv i s -> sys_step a s s' -> (measure s' + moves [a] <= measure s + 2 * advances [a])%nat.
Proof.
  intros Hi Hs. pose proof (inv_clock i s Hi) as Hck. destruct (inv_ticker i s Hi) as (tk & Htk & _).
  inversion Hs as [? ctx c n st' HA|? ctx c e st' HA|? d clk' Hp|? clk' Hu
    |? b ? HS|? ? HC|? l w script Hst]; subst; unfold with_st, with_clk, measure, tick_of in *;
    cbn [s_clk s_ticker s_pc moves advances].
  1,2,7: lia.
  - destruct (s_pc s); [..|lia|lia|lia]; destruct (_ ≫= _), (_ ≫= _); lia.
  - destruct (uses_keeps _ _ _ _ Hck Htk Hu) as (_ & _ & ->). rewrite Htk. lia.
  - apply runSyncer_inv in HS. destruct (s_pc s) eqn:Hpc; [|subst s'; cbn [s_clk s_ticker s_pc]; lia..|done].
    destruct HS as [(_ & _ & ->)|(_ & c & clk' & Hr & ->)]; cbn [s_clk s_ticker s_pc]; [destruct (_ ≫= _); lia|].
    apply recv_inv in Hr as (tk' & -> & Hc & _ & _ & ->); [|done]. cbn. rewrite Hc. lia.
  - apply Close_step_inv in HC as (-> & -> & -> & _). lia.
Qed.

Lemma measure_run i ls s s' :
  sys_inv i s -> sys_run ls s s' -> (measure s' + moves ls <= measure s + 2 * advances ls)%nat.
Proof.
  intros Hi Hr. induction Hr as [s|a ls s1 s2 s3 Hs Hr IH]; [cbn; lia|].
  specialize (IH (sys_step_inv _ _ _ _ Hs Hi)). apply (measure_step i) in Hs; [|done].
  destruct a; cbn in *; lia.
Qed.

Lemma closing_step a s s' : sys_step a s s' -> s_close s <> NotClosing -> s_close s' <> NotClosing.
Proof.
  intros Hs Hc. inversion Hs as [| | | |? b ? HS|? ? HC|]; subst; try done.
  - apply runSyncer_inv in HS. destruct (s_pc s); [|by subst..|done].
    destruct HS as [(_ & _ & ->)|(_ & c & clk' & _ & ->)]; done.
  - apply Close_step_inv in HC as (_ & _ & _ & HC). intros E. rewrite E in HC.
    destruct (s_close s); naive_solver.
Qed.

Lemma closing_run ls s s' : sys_run ls s s' -> s_close s <> NotClosing -> s_close s' <> NotClosing.
Proof. induction 1; eauto using closing_step. Qed.

(** Once the stop channel is closed, only the return blocks the syncer. *)
Lemma stopped_enabled s : stopped s = true -> s_pc s <> Exited -> exists s', runSyncer true s = Some s'.
Proof.
  intros Hst Hpc. unfold runSyncer. rewrite Hst. destruct (s_pc s); [by eexists..|done].
Qed.

(** C11: [Close] of a log with a syncer returns. From a [Close] in progress, in
    any execution, the syncer takes at most six steps and two for every advance
    of the clock (a tick may win the [select] against the closed channel), and
    until [Close] returned the execution is never stuck: [Close] itself can take
    a step, or it waits and the syncer can, without the lock. The file is closed
    only after the syncer has exited and its ticker is stopped. *)
Theorem Close_terminates c l w f s0 ls0 s ls s' :
  clock_ok f -> start c l w f = Some s0 -> sys_run ls0 s0 s -> s_close s <> NotClosing ->
  sys_run ls s s' ->
  (moves ls <= 6 + 2 * advances ls)%nat
  /\ match s_close s' with
     | NotClosing => False
     | FlagSet => exists s2, Close_step s' = Some s2 /\ s_close s2 = Waiting
     | Waiting =>
         if decide (s_pc s' = Exited) then exists s2 r, Close_step s' = Some s2 /\ s_close s2 = Returned r
         else Close_step s' = None /\ exists b s2, runSyncer b s' = Some s2
     | Returned _ => s_pc s' = Exited
         /\ exists tk, ticker (s_clk s') (s_ticker s') = Some tk /\ t_running tk = false
     end.
Proof.
  intros Hf Hs0 Hr0 Hc Hr. destruct (start_inv c l w f s0 Hf Hs0) as [Hi0 _].
  pose proof (sys_run_inv _ _ _ _ Hr0 Hi0) as His. pose proof (sys_run_inv _ _ _ _ Hr His) as Hi.
  pose proof (measure_run _ _ _ _ His Hr). pose proof (measure_le s). split; [lia|].
  pose proof (closing_run _ _ _ Hr Hc) as Hc'. destruct (s_close s') eqn:Hcl; [done|..].
  - unfold Close_step. rewrite Hcl. by eexists.
  - unfold Close_step. rewrite Hcl. case_decide as Hpc.
    + destruct (Close_finish (s_st s')) as [r st']. by do 2 eexists.
    + split; [done|]. exists true. apply stopped_enabled; [|done]. unfold stopped. by rewrite Hcl.
  - pose proof (inv_done _ _ Hi _ Hcl) as Hpc. split; [done|].
    destruct (inv_ticker _ _ Hi) as (tk & Htk & _ & Hlive). exists tk. split; [done|].
    apply not_true_iff_false. rewrite <- Hlive, Hpc. set_solver.
Qed.
End syncer.

(** ** An execution

    One record appended, one interval passed, two steps of the syncer. *)

Definition interval_cfg : LogConfig := mkLogConfig "log" 64 FsyncInterval 10.

Definition opened_log : Log * world :=
  match OpenLog [] interval_cfg empty_world with
  | (Ok l, w) => (l, w)
  | (Err _, w) => (newLog interval_cfg, w)
  end.

Lemma opened_log_repr :
  OpenLog [] interval_cfg empty_world = (Ok opened_log.1, opened_log.2)
  /\ log_repr True opened_log.1 opened_log.2 fresh_view.
Proof.
  assert (OpenLog [] interval_cfg empty_world = (Ok opened_log.1, opened_log.2)) as Hop
    by (vm_compute; reflexivity).
  split; [done|].
  destruct (OpenLog_fresh [] interval_cfg empty_world _ _ (demo_no_entries _) eq_refl eq_refl Hop)
    as [(l & [= <-] & _ & HR & _)|(e & ? & _)]; [done|done].
Qed.

Lemma Fake_New_ok t : clock_ok (Fake_New t).
Proof. apply clock_reachable_inv. exists t. apply rtc_refl. Qed.

(** The states of the execution. *)
Definition opened_sys : sys Fake := 
  default (mkSys (St opened_log.1 opened_log.2) (Fake_New 0) 0 Selecting NotClosing)
    (start interval_cfg opened_log.1 opened_log.2 (Fake_New 0)).
Definition appended_sys : sys Fake := with_st opened_sys (Append [] demo_cmd (s_st opened_sys)).2.
Definition due_sys : sys Fake := with_clk appended_sys (Fake_Advance [s_ticker appended_sys] (s_clk appended_sys) 10).
Definition ticked_sys : sys Fake := default due_sys (runSyncer false due_sys).
Definition flushed_sys : sys Fake := default due_sys (runSyncer false ticked_sys).

Lemma execution :
  sys_run [LAppend [(1, demo_cmd)]] opened_sys appended_sys
  /\ sys_run [LAdvance 10] appended_sys due_sys
  /\ sys_run [LSyncer; LSyncer] due_sys flushed_sys.
Proof.
  split_and!.
  - econstructor; [|constructor]. apply (sys_append _ []). vm_compute. reflexivity.
  - econstructor; [|constructor]. apply sys_advance. split; [lia|]. eexists. split; [|reflexivity]. vm_compute. reflexivity.
  - apply (sys_run_cons _ _ _ ticked_sys); [|econstructor; [|constructor]];
      apply (sys_syncer _ false); vm_compute; reflexivity.
Qed.

Lemma syncer_flushes_witness :
  exists (m : sys Fake) v', log_repr True (st_log (s_st m)) (st_w (s_st m)) v' /\ v_cmds v' = [demo_cmd]
    /\ v_disk v' = v_records v'.
Proof.
  destruct opened_log_repr as [Hop HR]. destruct execution as (H0 & H1 & H2).
  destruct (syncer_flushes [] interval_cfg empty_world _ _ _ (Fake_New 0) Hop eq_refl HR
    (Fake_New_ok 0)) as (s0 & Hs0 & H).
  assert (s0 = opened_sys) as -> by (unfold opened_sys; by rewrite Hs0).
  destruct (H _ _ _ _ _ _ H0 H1 ltac:(vm_compute; discriminate) H2) as
    [(la & lb & m & v' & Hls & _ & _ & HR' & Hc & Hd)|[Hm _]].
  - intros [[e He]|He]; vm_compute in He; discriminate He.
  - vm_compute. reflexivity.
  - exists m, v'. split_and!; [exact HR'| |exact Hd]. rewrite Hc, acks_of_app, fmap_app. cbn.
    assert (acks_of la ++ acks_of lb = []) as [-> _]%app_nil by (by rewrite <- acks_of_app, <- Hls).
    reflexivity.
  - vm_compute in Hm. lia.
Defined.

(** A [Close] of the new log: the flag, the stop channel, the syncer's three
    last steps, and the flush. *)
Definition closing_sys : sys Fake := default opened_sys (Close_step opened_sys).
Definition waiting_sys : sys Fake := default opened_sys (Close_step closing_sys).
Definition exited_sys : sys Fake :=
  Nat.iter 3 (fun s => default s (runSyncer true s)) waiting_sys.
Definition returned_sys : sys Fake := default opened_sys (Close_step exited_sys).

Lemma close_execution :
  sys_run [LClose] opened_sys closing_sys
  /\ sys_run [LClose; LSyncer; LSyncer; LSyncer; LClose] closing_sys returned_sys.
Proof.
  split; [econstructor; [|constructor]; apply sys_close; vm_compute; reflexivity|].
  econstructor; [apply (sys_close _ waiting_sys); vm_compute; reflexivity|].
  do 3 (econstructor; [apply (sys_syncer _ true); vm_compute; reflexivity|]).
  econstructor; [|constructor]. apply sys_close. vm_compute. reflexivity.
Qed.

Lemma Close_terminates_witness :
  s_close returned_sys = Returned (Ok tt) /\ s_pc returned_sys = Exited
  /\ exists tk, ticker (s_clk returned_sys) (s_ticker returned_sys) = Some tk /\ t_running tk = false.
Proof.
  destruct close_execution as [H0 H1].
  assert (s_close returned_sys = Returned (Ok tt)) as Hr by (vm_compute; reflexivity).
  split; [exact Hr|].
  destruct (Close_terminates interval_cfg opened_log.1 opened_log.2 (Fake_New 0) opened_sys
    [LClose] closing_sys [LClose; LSyncer; LSyncer; LSyncer; LClose] returned_sys) as [_ H].
  - exact (Fake_New_ok 0).
  - vm_compute. reflexivity.
  - exact H0.
  - vm_compute. discriminate.
  - exact H1.
  - rewrite Hr in H. exact H.
Defined.
