(* ===== verification/IntervalDurability.v ===== *)
(** * What the interval policy promises

    No operation of a log shortens what is on disk: every file of the world
    only grows, in what reads return and in what is flushed, along any step. So
    a record that was flushed once survives every later power loss, and with
    the syncer of Syncer.v a power loss costs at most the records of the last
    interval. *)

From stdpp Require Import prelude gmap strings list.
From Stdlib Require Import ZArith Lia.
From S2P Require Import Prelude GoBytes GoStrings Kverr Config Record Fs FsFacts Segment Log Recovery LogRepr LogView LogFacts LogOps LogSpec RecoveryFacts Durability LogTheorems Clock FakeClock Syncer.

Local Open Scope Z_scope.

(** ** Files that only grow *)

(** What is flushed is part of what was written. *)
Definition sound (f : file) : Prop := f_disk f `prefix_of` f_data f.

Definition file_le (f f' : file) : Prop :=
  sound f -> f_data f `prefix_of` f_data f' /\ f_disk f `prefix_of` f_disk f' /\ sound f'.

Definition world_le (w w' : world) : Prop :=
  forall p f, file_of p w = Some f -> exists f', file_of p w' = Some f' /\ file_le f f'.

#[export] Instance file_le_preorder : PreOrder file_le.
Proof.
  split; [by intros f|]. intros f1 f2 f3 H1 H2 Hs. destruct (H1 Hs) as (? & ? & Hs2).
  destruct (H2 Hs2) as (? & ? & ?). split_and!; [by etrans..|done].
Qed.

#[export] Instance world_le_preorder : PreOrder world_le.
Proof.
  split; [intros w p f Hf; by exists f|]. intros w1 w2 w3 H1 H2 p f1 Hf1.
  destruct (H1 p f1 Hf1) as (f2 & Hf2 & ?), (H2 p f2 Hf2) as (f3 & Hf3 & ?). exists f3. split; [done|by etrans].
Qed.

(** The worlds the inversion lemmas of FsFacts.v describe. *)
Lemma world_le_entries w w' :
  (forall p f b, entry_of p w = Some (Dirent (Regular f) b) ->
     exists b', entry_of p w' = Some (Dirent (Regular f) b')) -> world_le w w'.
Proof.
  intros He p f [b Hf]%file_of_entry. destruct (He p f b Hf) as [b' Hf']. exists f.
  split; [|done]. apply file_of_entry. by exists b'.
Qed.

Lemma quiet_le w w' : quiet w w' -> world_le w w'.
Proof.
  intros (Hq & _). apply world_le_entries. intros p f b Hf. exists b. rewrite <- Hf.
  unfold entry_of. by rewrite (wequiv_dir _ _ Hq).
Qed.

Lemma wrote_le p f f' w w' : file_of p w = Some f -> file_le f f' -> wrote p f' w w' -> world_le w w'.
Proof.
  intros Hf Hle (Hu & _) q g Hg. destruct (decide (p = q)) as [<-|Hne].
  - rewrite Hf in Hg. injection Hg as <-. exists f'. split; [|done]. by eapply updated_file_eq.
  - exists g. split; [|done]. by rewrite (updated_file_ne _ _ _ _ _ Hu Hne).
Qed.

Lemma created_le p w w' : entry_of p w = None -> created p w w' -> world_le w w'.
Proof.
  intros Hn (He & _). apply world_le_entries. intros q f b Hf. exists b. rewrite He.
  case_decide; [congruence|done].
Qed.

Lemma flushed_le dir w w' : flushed dir w w' -> world_le w w'.
Proof.
  intros (He & _). apply world_le_entries. intros q f b Hf. rewrite He, Hf. case_decide; by eexists.
Qed.

(** ** Calls that only grow *)

(** [S] is the state of the call and [proj] its world. *)
Definition growing {S A} (proj : S -> world) (m : M error S A) : Prop :=
  forall s r s', m s = (r, s') -> world_le (proj s) (proj s').

Abbreviation grows_io := (growing (fun w : world => w)).
Abbreviation grows_log := (growing st_w).

Section growing.
Context {S : Type} (proj : S -> world).
Implicit Types A B : Type.

Lemma growing_ret A (a : A) : growing proj (mret a).
Proof. by intros s r s' [= <- <-]. Qed.

Lemma growing_fail A e : growing proj (fail (A := A) e).
Proof. by intros s r s' [= <- <-]. Qed.

Lemma growing_bind A B (m : M error S A) (k : A -> M error S B) :
  growing proj m -> (forall a, growing proj (k a)) -> growing proj (m ≫= k).
Proof.
  intros Hm Hk s r s'. unfold mbind, M_bind. destruct (m s) as [[a|e] s1] eqn:Hs.
  - intros Hr. etrans; [by eapply Hm|by eapply Hk].
  - intros [= <- <-]. by eapply Hm.
Qed.

Lemma growing_try A (m : M error S A) : growing proj m -> growing proj (try m).
Proof. intros Hm s r s'. unfold try. destruct (m s) as [r1 s1] eqn:Hs. intros [= <- <-]. by eapply Hm. Qed.

Lemma growing_lift A (r : result error A) : growing proj (lift r).
Proof. by intros s r' s' [= <- <-]. Qed.

Lemma growing_wrapping A text (m : M error S A) : growing proj m -> growing proj (wrapping text m).
Proof.
  intros Hm. apply growing_bind; [by apply growing_try|]. intros [a|e]; [apply growing_ret|apply growing_fail].
Qed.

Lemma growing_ctx ctx : growing proj (contextError ctx).
Proof. unfold contextError. destruct (ctx_Err ctx); [apply growing_fail|apply growing_ret]. Qed.
End growing.

Lemma growing_io A (m : IO A) : grows_io m -> grows_log (io m).
Proof.
  intros Hm [l w] r s'. unfold io. simpl. destruct (m w) as [r1 w1] eqn:Hs. intros [= <- <-].
  by apply (Hm _ _ _ Hs).
Qed.

Lemma growing_upd f : grows_log (upd f).
Proof. by intros s r s' [= <- <-]. Qed.

Lemma growing_the_log : grows_log the_log.
Proof. by intros s r s' [= <- <-]. Qed.

Create HintDb growing.
#[export] Hint Resolve growing_ret growing_fail growing_bind growing_try growing_lift growing_wrapping
  growing_ctx growing_io growing_upd growing_the_log : growing.

(** Follows a call through its binds and branches. *)
Ltac grow :=
  repeat match goal with
  | |- forall _, _ => intros ?
  | |- growing _ (_ ≫= _) => apply growing_bind
  | |- growing _ (match ?x with _ => _ end) => destruct x
  | |- growing _ (match ?x with _ => _ end _) => destruct x
  | |- growing _ (if ?x then _ else _) => destruct x
  end; eauto with growing.

(** *** System calls *)

Lemma file_Sync_grows h : grows_io (file_Sync h).
Proof.
  intros w r w' [(f & _ & Hf & _ & Hw)|(e & _ & Hq & _)]%file_Sync_inv; [|by apply quiet_le].
  eapply wrote_le; [done| |done]. intros Hs. unfold sound in *. by split_and!.
Qed.

Lemma file_Close_grows h : grows_io (file_Close h).
Proof. intros w r w' [Hq _]%file_Close_inv. by apply quiet_le. Qed.

Lemma file_Write_grows h data : grows_io (file_Write h data).
Proof.
  assert (forall f x, file_le f (File (f_data f ++ x) (f_disk f))) as Hle.
  { intros f x Hs. split_and!; [by apply prefix_app_r|done|]. unfold sound. simpl. by apply prefix_app_r. }
  intros w r w' [(f & _ & Hf & _ & Hw)|[(e & f & n & _ & _ & Hf & Hw)|(e & _ & Hq & _)]]%file_Write_inv;
    [eapply wrote_le; eauto..|by apply quiet_le].
Qed.

Lemma create_excl_grows p : grows_io (os_OpenFile_create_excl p).
Proof.
  intros w r w' [(Hn & _ & Hc)|(e & _ & Hq & _)]%os_OpenFile_create_excl_inv;
    [by eapply created_le|by apply quiet_le].
Qed.

Lemma dir_Open_grows dir : grows_io (dir_Open dir).
Proof. intros w r w' [Hq _]%dir_Open_inv. by apply quiet_le. Qed.

Lemma dir_Sync_grows dir : grows_io (dir_Sync dir).
Proof. intros w r w' [[_ Hf]|(e & _ & Hq & _)]%dir_Sync_inv; [by eapply flushed_le|by apply quiet_le]. Qed.

Lemma dir_Close_grows : grows_io dir_Close.
Proof. intros w r w' [Hq _]%dir_Close_inv. by apply quiet_le. Qed.

Lemma emit_grows line : grows_io (emit line).
Proof. intros w r w' [= <- <-] p f Hf. by exists f. Qed.

#[export] Hint Resolve file_Sync_grows file_Close_grows file_Write_grows create_excl_grows
  dir_Open_grows dir_Sync_grows dir_Close_grows emit_grows : growing.

(** *** The methods of a log *)

Lemma syncDir_grows dir : grows_io (syncDir dir).
Proof. unfold syncDir. grow. Qed.
#[export] Hint Resolve syncDir_grows : growing.

Lemma createSegment_grows p dir : grows_io (createSegment p dir).
Proof. unfold createSegment. grow. Qed.
#[export] Hint Resolve createSegment_grows : growing.

Lemma sync_grows : grows_log sync.
Proof. unfold sync. grow. Qed.
#[export] Hint Resolve sync_grows : growing.

Lemma rotate_grows next : grows_log (rotate next).
Proof. unfold rotate. grow. Qed.

Lemma writable_grows : grows_log writable.
Proof. unfold writable. grow. Qed.
#[export] Hint Resolve rotate_grows writable_grows : growing.

Lemma Append_grows ctx c : grows_log (Append ctx c).
Proof. unfold Append. grow. Qed.

Lemma syncIfDirty_grows : grows_log syncIfDirty.
Proof. unfold syncIfDirty. grow. Qed.

Lemma Close_begin_grows : grows_log Close_begin.
Proof. unfold Close_begin. grow. Qed.

Lemma Close_finish_grows : grows_log Close_finish.
Proof. unfold Close_finish. grow. Qed.

Lemma step_le s acks s' : step s acks s' -> world_le (st_w s) (st_w s').
Proof.
  intros [ctx c ? i ? HA|ctx c ? e ? HA|? r ? HT|? r ? HC|? r ? _ HC|l w script].
  - by eapply Append_grows.
  - by eapply Append_grows.
  - by eapply syncIfDirty_grows.
  - by eapply Close_begin_grows.
  - by eapply Close_finish_grows.
  - intros p f Hf. by exists f.
Qed.

Lemma run_le s acks s' : run s acks s' -> world_le (st_w s) (st_w s').
Proof. induction 1 as [|s1 acks1 s2 acks2 s3 Hst _ IH]; [done|]. etrans; [by eapply step_le|done]. Qed.

(** ** What was flushed once stays on disk *)

Lemma elem_of_v_parts v : (v_start v, v_active v) ∈ starts (v_base v) (v_parts v).
Proof. unfold v_parts. rewrite starts_snoc. apply elem_of_app. right. by left. Qed.

(** Prefixes of one list, by length. *)
Lemma prefix_by_length {A} (l1 l2 l : list A) :
  l1 `prefix_of` l -> l2 `prefix_of` l -> len l1 <= len l2 -> l1 `prefix_of` l2.
Proof.
  intros H1 H2 Hl. destruct (prefix_weak_total _ _ _ H1 H2) as [?|[k ->]]; [done|].
  rewrite len_app in Hl. assert (k = []) as -> by (destruct k; [done|rewrite len_cons in Hl;
    pose proof (len_nonneg k); lia]). by rewrite app_nil_r.
Qed.

Lemma on_disk_later l w v l' w' v' :
  log_repr True l w v -> log_repr True l' w' v' -> cfg l' = cfg l -> grows v v' -> world_le w w' ->
  v_cmds v `prefix_of` v_cmds v' -> v_junk v = [] -> v_disk v = v_records v -> on_disk v' (v_cmds v).
Proof.
  intros HR HR' Hcfg [Hbase Hg] Hle Hp Hj Hd. destruct (Hg _ _ (elem_of_v_parts v)) as [q Hq].
  assert (concat (v_closed v') `prefix_of` v_cmds v') as Hcl by (rewrite v_cmds_split; by apply prefix_app_r).
  assert (len (v_cmds v) = v_start v + len (v_active v) - v_base v) as Hlen.
  { rewrite v_cmds_split, len_app. unfold v_start. lia. }
  unfold v_parts in Hq. rewrite starts_snoc in Hq. apply elem_of_app in Hq as [Hq|Hq].
  - exists []. rewrite app_nil_r. split_and!; [apply prefix_nil..|].
    apply (prefix_by_length _ _ (v_cmds v')); [done..|].
    apply starts_range in Hq. rewrite len_app in Hq. pose proof (len_nonneg q). lia.
  - apply list_elem_of_singleton in Hq as [= Hstart Hact]. fold (v_start v') in Hstart. exists (v_active v).
    assert (concat (v_closed v) = concat (v_closed v')) as Hcc.
    { assert (len (concat (v_closed v)) = len (concat (v_closed v'))) as He
        by (unfold v_start in Hstart; lia).
      apply (anti_symm prefix); apply (prefix_by_length _ _ (v_cmds v')); try done; try lia;
        (etrans; [|exact Hp]); rewrite v_cmds_split; by apply prefix_app_r. }
    rewrite <- Hcc, <- v_cmds_split, <- Hact. split_and!; [by apply prefix_app_r| |done].
    pose proof (dir_repr_file _ _ _ _ (log_dir _ _ _ _ HR)) as Hf.
    pose proof (dir_repr_file _ _ _ _ (log_dir _ _ _ _ HR')) as Hf'.
    destruct (Hle _ _ Hf) as (f' & Hf1 & Hfl). rewrite <- Hcfg, Hstart, Hf' in Hf1. injection Hf1 as <-.
    rewrite <- Hstart. fold (v_records v). rewrite <- Hd. apply Hfl. unfold sound. simpl.
    rewrite Hd. unfold v_data. by apply prefix_app_r.
Qed.

Lemma OpenLog_cfg ctx c w l w' : OpenLog ctx c w = (Ok l, w') -> cfg l = c.
Proof.
  unfold OpenLog. intros (_ & w1 & _ & H)%bind_inv_ok. apply bind_inv_ok in H as (_ & w2 & _ & H).
  apply bind_inv_ok in H as (_ & w3 & _ & H). apply bind_inv_ok in H as (l' & w4 & Hr & H).
  injection H as <- <-. cbn. unfold recover in Hr. apply bind_inv_ok in Hr as (segs & w5 & _ & Hr).
  destruct segs.
  - unfold startFirstSegment in Hr. apply bind_inv_ok in Hr as (h & w6 & _ & Hr). by injection Hr as <- <-.
  - apply bind_inv_ok in Hr as ([segs' size] & w6 & _ & Hr). apply bind_inv_ok in Hr as (h & w7 & _ & Hr).
    by injection Hr as <- <-.
Qed.

Lemma OpenLog_valid ctx c w l w' : OpenLog ctx c w = (Ok l, w') -> LogConfig_Validate c = None.
Proof.
  unfold OpenLog. intros (_ & w1 & _ & H)%bind_inv_ok. apply bind_inv_ok in H as (u & w2 & Hv & _).
  by destruct (LogConfig_Validate c).
Qed.

Section interval.
Context {K : Type} `{HL : ClockLaws K}.
Implicit Types s : sys K.

(** After a flush at some point of a run, a power loss at its end keeps what the
    log had then. *)
Lemma flushes_on_disk c l w v f s0 ls0 s ls s2 :
  log_repr True l w v -> clock_ok f -> start c l w f = Some s0 ->
  sys_run ls0 s0 s -> flushes ls s s2 -> v_next v + len (acks_of (ls0 ++ ls)) + 1 < 2 ^ 64 ->
  exists v2, log_repr True (st_log (s_st s2)) (st_w (s_st s2)) v2 /\ cfg (st_log (s_st s2)) = cfg l
    /\ v_base v2 = v_base v /\ v_cmds v2 = v_cmds v ++ (acks_of (ls0 ++ ls)).*2
    /\ on_disk v2 (v_cmds v ++ (acks_of ls0).*2).
Proof.
  intros HR Hf Hs0 Hr0 (la & lb & m & -> & Ha & Hlb & [Hhm Hdm]) Hb.
  pose proof (sys_run_app _ _ _ _ _ Hr0 Ha) as Hrm. rewrite app_assoc in Hb |- *.
  destruct (sys_run_view c l w v f s0 _ m lb HR Hf Hs0 Hrm Hb) as (vm & HRm & Hcm & [Hbm _] & Hcfgm).
  assert (failed (st_log (s_st m)) = None) as Hfm.
  { apply eq_None_not_Some. intros Hfail. apply Hhm. by left. }
  pose proof (sys_run_inv _ _ _ _ Hrm (proj1 (start_inv c l w f s0 Hf Hs0))) as Him.
  pose proof (sys_run_log _ _ _ _ Him Hlb) as Hrun.
  assert (v_next vm + len (acks_of lb) + 1 < 2 ^ 64) as Hbm'.
  { rewrite acks_of_app, len_app in Hb. unfold v_next in *. rewrite Hbm, Hcm, len_app.
    unfold len in *. rewrite length_fmap. lia. }
  pose proof (run_le _ _ _ Hrun) as Hle. destruct (s_st m) as [lm wm]. cbn [st_log st_w] in *.
  destruct (run_repr True lm wm vm _ _ HRm Hbm' Hrun) as (v2 & HR2 & Hc2 & _ & Hg2 & Hcfg2).
  exists v2. split_and!; [done|congruence|by rewrite (proj1 Hg2)| |].
  - by rewrite Hc2, Hcm, !acks_of_app, !fmap_app, !app_assoc.
  - destruct (on_disk_later lm wm vm _ _ v2 HRm HR2 Hcfg2 Hg2 Hle) as (here & Hh & Hd & Hp).
    + rewrite Hc2. by apply prefix_app_r.
    + by apply (log_healthy _ _ _ _ HRm).
    + by apply (log_clean _ _ _ _ HRm).
    + exists here. split_and!; [done..|]. etrans; [|exact Hp]. rewrite Hcm, acks_of_app, fmap_app, app_assoc.
      by apply prefix_app_r.
Qed.

(** C12: The interval policy loses at most the last interval. A log is opened
    settled ([log_repr True]: what it was opened with is on disk) with the
    interval policy, on any clock that keeps its laws, and used in any way; the
    entry of its directory is safe when the power goes. Then
    every command acknowledged before a moment is back after a power loss, if
    since that moment the interval has passed, then the syncer took two steps (it
    is never blocked when a tick is due) and the log has not failed or been
    closed, whatever else happened in between and since. What is back is a prefix
    of the commands appended until the power loss, plus at most the one being
    written. As for the always policy, opening fails only when a system call does
    or when the torn write contains an intact later record. *)
Theorem interval_bounds_loss ctx c w0 l w v f :
  OpenLog ctx c w0 = (Ok l, w) -> lc_Fsync c = FsyncInterval -> log_repr True l w v -> clock_ok f ->
  exists s0, start c l w f = Some s0
  /\ forall ls0 s ls1 s1 ls2 s2 w3 r w4,
     sys_run ls0 s0 s -> sys_run ls1 s s1 -> lc_FsyncInterval c <= elapsed ls1 ->
     sys_run ls2 s1 s2 -> (2 <= moves ls2)%nat -> healthy s2 ->
     v_next v + len (acks_of (ls0 ++ ls1 ++ ls2)) + 2 < 2 ^ 64 ->
     crash (st_w (s_st s2)) w3 -> lc_Dir c ∉ w_fresh (st_w (s_st s2)) -> OpenLog [] c w3 = (r, w4) ->
     match r with
     | Ok l4 => exists v4, log_repr True l4 w4 v4 /\ v_base v4 = v_base v
         /\ v_cmds v ++ (acks_of ls0).*2 `prefix_of` v_cmds v4
         /\ exists c, v_cmds v4 `prefix_of` (v_cmds v ++ (acks_of (ls0 ++ ls1 ++ ls2)).*2) ++ [c]
     | Err e => ~ faultless w3 \/ exists v2, dir_repr True (lc_Dir c) w3 v2 /\ embeds v2
     end.
Proof.
  intros Hop Hp HR Hf. destruct (start_total ctx c w0 l w f Hop Hp Hf) as (s0 & Hs0).
  exists s0. split; [done|]. intros ls0 s ls1 s1 ls2 s2 w3 r w4 Hr0 Hr1 Hel Hr2 Hm Hh Hb Hcr Hfr Hre.
  pose proof (sys_run_inv _ _ _ _ Hr0 (proj1 (start_inv c l w f s0 Hf Hs0))) as Hi.
  destruct (interval_flushes _ _ _ _ _ _ Hi Hr1 Hel Hr2 Hh) as [Hfl|[_ ?]]; [|lia].
  destruct (flushes_on_disk c l w v f s0 ls0 s _ s2 HR Hf Hs0 Hr0 Hfl ltac:(lia))
    as (v2 & HR2 & Hcfg & Hb2 & Hc2 & Hd2).
  pose proof (log_dir _ _ _ _ HR2) as Hdir. rewrite Hcfg, (OpenLog_cfg _ _ _ _ _ Hop) in Hdir.
  assert (v_next v2 + 2 < 2 ^ 64) as Hn2.
  { unfold v_next in *. rewrite Hb2, Hc2, len_app. unfold len in *. rewrite length_fmap. lia. }
  destruct (reopen_crash _ _ _ _ _ _ Hdir Hn2 (OpenLog_valid _ _ _ _ _ Hop) Hcr Hfr Hre)
    as [(l4 & v4 & -> & _ & HR4 & Hb4 & Hpre & Hfl4 & _)|(e & -> & Hcause)]; [|done].
  exists v4. rewrite <- Hc2. split_and!; [done|congruence|by apply Hfl4|done].
Qed.
End interval.

(** The execution of Syncer.v, and the worst power loss after it. *)
Lemma interval_bounds_loss_witness :
  match OpenLog [] interval_cfg (lose_unflushed (st_w (s_st flushed_sys))) with
  | (Ok l4, w4) => exists v4, log_repr True l4 w4 v4 /\ [demo_cmd] `prefix_of` v_cmds v4
  | (Err _, _) => False
  end.
Proof.
  destruct opened_log_repr as [Hop HR]. destruct execution as (H0 & H1 & H2).
  destruct (interval_bounds_loss [] interval_cfg empty_world _ _ _ (Fake_New 0) Hop eq_refl HR
    (Fake_New_ok 0)) as (s0 & Hs0 & H).
  assert (s0 = opened_sys) as -> by (unfold opened_sys; by rewrite Hs0).
  destruct (OpenLog [] interval_cfg (lose_unflushed (st_w (s_st flushed_sys)))) as [r w4] eqn:Hre.
  assert (is_ok r = true) as Hok.
  { change r with (r, w4).1. rewrite <- Hre. vm_compute. reflexivity. }
  pose proof (H _ _ _ _ _ _ (lose_unflushed (st_w (s_st flushed_sys))) r w4 H0 H1
    ltac:(vm_compute; discriminate) H2 ltac:(vm_compute; lia)) as H'.
  destruct r as [l4|e]; [|discriminate Hok].
  destruct H' as (v4 & HR4 & _ & Hp & _).
  - intros [[e He]|He]; vm_compute in He; discriminate He.
  - vm_compute. reflexivity.
  - apply crash_lose_unflushed.
  - vm_compute. set_solver.
  - exact Hre.
  - exists v4. split; [exact HR4|exact Hp].
Defined.
